(* ===== verification/_CoqProject ===== *)
-Q . S2P
Prelude.v
Double.v
Rounding.v
StdMap.v
Order.v
PriceCollar.v
OrderBook.v
MatchingEngine.v
Exchange.v
Refinement.v
ExchangeFacts.v
CancelIndex.v
Session.v
EngineProps.v
Dump.v
Sharding.v
OrderPool.v
Bytes.v
OrderQueue.v
MutexQueue.v
LockFreeQueue.v
RingProgress.v
FeedHandler.v
FeedSetup.v
Files.v
LogQueue.v
TradeLog.v
TornWrite.v
Durability.v
Server.v
ShardRouter.v
LeaderLock.v
EngineVM.v
EngineMain.v
Programs.v
ShardSystem.v
ShardProps.v
ShardFiles.v
Pipeline.v
Deployment.v
ServerMain.v
Benchmark.v
BenchProgress.v
Conformance.v
