(* ===== verification/Prelude.v ===== *)
(** * A verification development for the trading system

    The program is a price-time-priority matching engine in C++ with the queues,
    the network front end and the log-based distribution around it.  This
    development models its classes as Rocq definitions that follow the source
    line by line, and proves what makes them correct.  Paths below are relative
    to the repository.

    ** The program and its model

    - [include/order.hpp]: orders, trades, symbols.  [Order.v] has the structs,
      enumerations and symbol accessors; [Bytes.v] has the object representations
      (little-endian integers, the binary64 format, struct layouts with padding).
      Prices are C++ doubles: [Double.v] models them by [spec_float] at binary64,
      NaN, infinities and signed zeros included, with the order embedding used in
      the proofs; [Rounding.v] relates rounded sums and products to exact values.
    - [price_collar.hpp/.cpp]: [PriceCollar.v], computed in binary64.
    - [order_book.hpp/.cpp]: [OrderBook.v]; the two [std::map]s of price levels
      are sorted association lists with a comparator ([StdMap.v], a class of
      strict weak orders on a domain of keys), the cancel index is a [gmap].
      [Dump.v] has the text of [dump], with the decimal rounding of its prices.
    - [matching_engine.hpp/.cpp]: [MatchingEngine.v]; the [while] loop is a
      function of fuel, one unit per iteration.
    - [order_queue.hpp]: [OrderQueue.v], the interface: an abstract FIFO machine,
      and a class of implementations given by a labelled step relation and a
      simulation of that machine.  Implementations: [MutexQueue.v]
      ([mutex_order_queue.hpp], any number of threads, one step per
      synchronisation operation), [LockFreeQueue.v] ([lockfree_order_queue.hpp],
      one producer and one consumer, one step per shared access, with stale
      views), [LogQueue.v] ([log_backed_order_queue.hpp], files as bytes, restarts
      and crashes) with [TornWrite.v] (writes cut short, to either log) and
      [Durability.v] (the stages of [push] and power losses).  [RingProgress.v] is
      about progress: the ring's two sides scheduled alone.
    - [order_pool.hpp]: [OrderPool.v].  [sharding.hpp]: [Sharding.v].
    - [tcp_feed_handler.hpp/.cpp]: [FeedHandler.v], the event loop; the results of
      [epoll_wait], [accept] and [recv] are scripts.  [FeedSetup.v] has the set-up
      that comes before it, in a monad of state and exceptions, and the destructor.
    - [trade_log.hpp] and [trades_subscriber_main.cpp]: [TradeLog.v], on the file
      model of [Files.v].
    - [shard_router_queue.hpp]: [ShardRouter.v].  [shard_leader_lock.hpp]:
      [LeaderLock.v].  [engine_main.cpp]: [EngineVM.v] (the loop body) and
      [EngineMain.v] (constructors and loop on one disk).  [server_main.cpp]:
      [Server.v] (the threads over any queue) and [ServerMain.v] (the whole
      program, every [printf] a step).  [gateway_main.cpp]: [Pipeline.v], which
      also joins feed handler, router, log and engine process.
    - All [main] functions as seen from a shell: [Programs.v] reads their arguments
      ([atoi] and casts), names their files and gives the text they print.
    - A shard as a whole: [ShardSystem.v] interleaves gateways, replicas of the
      engine process and subscribers on one disk and one kernel lock, with kills
      (also in the middle of a checkpoint), restarts and changes of the files that can
      be opened; a replica's turn is split
      into its pop, its submission and each publication.  [ShardProps.v] has its
      theorems.
    - A deployment: [Deployment.v] puts any number of gateways and of shards on one
      disk.  [ShardFiles.v] shows which files each call touches: those of its shard,
      and no name of a file of one shard is one of another.
    - [benchmarks/benchmark_queue.cpp]: [Benchmark.v], the two threads with their
      clock over any queue, and the statistics in binary64; [BenchProgress.v], its
      consumer thread scheduled alone over the ring.
    - [tests/]: [Conformance.v] runs the repository's tests on the model; all pass.

    ** What is proved

    - The engine ([Exchange.v], [Refinement.v], [ExchangeFacts.v],
      [CancelIndex.v], [Session.v], [EngineProps.v]).  [Exchange.v] is an abstract
      exchange with one priority-ordered list of orders per side and no maps, no
      levels and no index; every session of well-typed requests refines it.  From
      it and from the invariants of sessions: price-time priority, conservation of
      quantity, an uncrossed book, soundness of trades, exactness of cancellation
      and of the cancel index when ids are distinct, termination of the matching loop, no effect of
      rejections, market orders never rest, and the range of the clock.  In
      [EngineMain.v], the types: a process given well-typed orders keeps every
      field of its books and trades in range and each book to its symbol.
    - The collar ([PriceCollar.v]): for every reference that is not negative it is
      exact up to the rounded bounds themselves; a negative one inverts the band.
      The dump of a book reads back ([Dump.v]).
    - The queues: each implementation simulates the abstract FIFO; from the class,
      consumers receive a prefix of what was pushed, and everything when [pop]
      fails.  For the mutex queue: no lost notification of [push] and no deadlock.
      For the ring: bounds, absence of data races, capacity, and calls that finish
      in four accesses whatever the other side does.  For the log: exactly once
      across restarts between calls, the offsets after a crash inside [pop], and
      orders that survive a power loss once their [push] has returned.
    - The programs: the server, from its clients' bytes to its exit, prints what one
      thread would, for every queue and schedule ([ServerMain.v]); the feed handler
      delivers exactly the records of every stream, and its set-up leaks no
      descriptor; the router partitions by symbol; a subscriber sees the whole
      history; the engine program that leads from an empty disk on handles its whole
      log, interrupted at any turn, and its output is given exactly; the programs of a deployment meet in the
      same files ([Programs.v]); and the end-to-end equivalences of [Pipeline.v]
      (clients to books) and [EngineMain.v] (order log to trade subscribers).
    - The shard ([ShardProps.v]), under every interleaving: each replica's engines
      are those of dedicated sessions over the part of the log it has read; at most
      one replica is active; the trade log is one run of trades per election; each
      subscriber has received exactly its span of the trade log; and a process stops
      only where a file it opens is refused.  The proofs are by induction on the actions, with an invariant of
      the disk, the replicas and the subscribers.
    - The deployment ([Deployment.v]): seen from one shard, a run of the whole is a
      run of that shard alone, so that the theorems on shards hold of each shard of
      a deployment; and every symbol has one book, whichever gateways route its
      orders.
    - The benchmark ([Benchmark.v]): every order is stamped in bounds, at its push
      before its pop; over the ring the consumer finishes on its own after the
      shutdown; the percentiles are measured latencies and in order, and so
      are their medians over several runs.
    - What the code does not do: theorems that exhibit a lost shutdown wakeup, a
      lost early stop, orders dropped at the end of a stream, replay or loss after a
      crash in [pop], a log read from the wrong bytes after a write cut short, a
      restarted replica without its book, duplicated or missing
      trades after a failover, NaN limits, an inverted collar, duplicate ids, a
      subscriber on the wrong file and a diverging constructor.

    ** Conventions

    [Prelude.v] has 64-bit arithmetic on [Z] with explicit reduction ([add64],
    [sub64], [mul64]); the [outcome] monad ([Ret], [Throw] for exceptions, [Undef]
    for undefined behaviour, [NoFuel] for a loop that has not ended); and shared
    lemmas and tactics.  Fuel: [match_fuel] is one more than the number of orders
    on the opposite side, each iteration but the last fills or removes one of them
    or ends the incoming order, and [submit_returns] shows that it suffices;
    [process_loop] has one more than the bytes of the buffer; [round_up] has 65,
    the number of powers of two below [2^64] and the last test; the benchmark's
    consumer needs six steps for an order, four of them in [pop].  Loops that poll
    for ever take the number of turns as an argument, and the theorems hold for
    every number that covers the records on disk.  Bounds: the FIFO
    theorems hold for fewer than [2^64] pushes on the ring (its counters), for any
    number on the mutex queue, and for logs below [2^63] bytes (file offsets); the
    time-priority theorem for fewer than [2^63] requests (the clock); the
    percentiles for at most [2^46] orders, so that 127/128 of their number is a
    double, which separates the indices of p99 and p99.9 whatever the rounding.

    Memory order: the mutex queue lets the relaxed load of [done_] return a stale
    [false]; the ring lets every acquire load return any value between the last one
    seen and the current one, and absence of races on its slots is a theorem.

    ** Not modelled

    The lock file as a file (it stays empty and nothing reads it; its lock is
    modelled), the installation of signal handlers (a signal is a [stop], a [shutdown] or the
    end of the turns), [setvbuf], socket options and addresses, a failing [fstat],
    memory exhaustion but in the ring's constructor, the structs [WireTrade] and [WireReject] (unused by the
    source), the benchmark's thread pinning, random number generator (its draws are
    arguments), description of the machine and printed table, and the Python clients
    except for their packing of a wire order.

    ** Left to extend

    Behaviour of the ring when its counters wrap; checkpoint files under a power loss
    (the log is modelled under one, its checkpoints under process crashes only). *)

From stdpp Require Export base list gmap strings relations sorting.
From Stdlib Require Export ZArith Lia.

#[global] Open Scope Z_scope.

(** ** Machine-width unsigned integers

    [uint64_t], [size_t] and [uint32_t] values are integers of [Z] kept in range;
    every arithmetic operation of the source that may leave the range is
    followed by an explicit reduction. *)

Definition modulus64 : Z := 2 ^ 64.

Definition wrap64 (z : Z) : Z := z mod modulus64.

Definition u64 (z : Z) : Prop := 0 <= z < modulus64.

Definition add64 (a b : Z) : Z := wrap64 (a + b).

Definition sub64 (a b : Z) : Z := wrap64 (a - b).

Definition mul64 (a b : Z) : Z := wrap64 (a * b).

Declare Scope u64_scope.
Delimit Scope u64_scope with u64.
Notation "a +ᵤ b" := (add64 a b) (at level 50, left associativity) : u64_scope.
Notation "a -ᵤ b" := (sub64 a b) (at level 50, left associativity) : u64_scope.
#[global] Open Scope u64_scope.

Lemma modulus64_pos : 0 < modulus64.
Proof. reflexivity. Qed.

Lemma modulus64_val : modulus64 = 18446744073709551616.
Proof. reflexivity. Qed.

Lemma wrap64_u64 z : u64 (wrap64 z).
Proof. apply Z.mod_pos_bound, modulus64_pos. Qed.

Lemma wrap64_small z : u64 z -> wrap64 z = z.
Proof. intros H. by apply Z.mod_small. Qed.

Lemma add64_small a b : 0 <= a + b < modulus64 -> a +ᵤ b = a + b.
Proof. intros H. by apply wrap64_small. Qed.

Lemma sub64_small a b : 0 <= b <= a -> u64 a -> a -ᵤ b = a - b.
Proof. unfold u64. intros H1 H2. apply wrap64_small. unfold u64. lia. Qed.

#[global] Instance u64_dec z : Decision (u64 z).
Proof. unfold u64. apply _. Defined.

Create HintDb u64.
Create Rewrite HintDb u64.
#[export] Hint Resolve wrap64_u64 : u64.
#[export] Hint Rewrite wrap64_small add64_small sub64_small using (unfold u64 in *; lia) : u64.

(** ** Outcomes of imperative code

    A call either returns, throws, has undefined behaviour, or exhausts the
    fuel of the loop that models it.  The last two are never confused with a
    normal return, so that "the code returns" is a statement of its own. *)

Inductive outcome (A : Type) : Type :=
  | Ret (a : A)
  | Throw (msg : string)
  | Undef
  | NoFuel.
Arguments Ret {A} a.
Arguments Throw {A} msg.
Arguments Undef {A}.
Arguments NoFuel {A}.

#[global] Instance outcome_ret : MRet outcome := @Ret.

#[global] Instance outcome_bind : MBind outcome := fun A B f m =>
  match m with
  | Ret a => f a
  | Throw s => Throw s
  | Undef => Undef
  | NoFuel => NoFuel
  end.

#[global] Instance outcome_fmap : FMap outcome := fun A B f m => m ≫= (fun a => Ret (f a)).

Definition returns {A} (m : outcome A) : Prop := exists a, m = Ret a.

(** The value returned, if any. *)
Definition of_outcome {A} (m : outcome A) : option A :=
  match m with Ret a => Some a | _ => None end.

Lemma bind_Ret {A B} (f : A -> outcome B) m b :
  m ≫= f = Ret b <-> exists a, m = Ret a /\ f a = Ret b.
Proof. split; [destruct m; naive_solver | by intros (a & -> & ?)]. Qed.

Lemma fmap_Ret {A B} (f : A -> B) (m : outcome A) b :
  f <$> m = Ret b <-> exists a, m = Ret a /\ b = f a.
Proof. split; [destruct m; naive_solver | by intros (a & -> & ->)]. Qed.

(** ** Sums over lists *)

Definition zsum {A} (f : A -> Z) (l : list A) : Z := foldr (fun a s => f a + s) 0 l.
Arguments zsum : simpl never.

Lemma zsum_nil {A} (f : A -> Z) : zsum f [] = 0.
Proof. done. Qed.

Lemma zsum_cons {A} (f : A -> Z) a l : zsum f (a :: l) = f a + zsum f l.
Proof. done. Qed.

Lemma zsum_app {A} (f : A -> Z) l k : zsum f (l ++ k) = zsum f l + zsum f k.
Proof. induction l as [|a l IH]; [done|]. simpl. rewrite !zsum_cons, IH. lia. Qed.

Lemma zsum_nonneg {A} (f : A -> Z) l : Forall (fun a => 0 <= f a) l -> 0 <= zsum f l.
Proof. induction 1; [done|]. rewrite zsum_cons. lia. Qed.

Lemma zsum_fmap {A B} (f : B -> Z) (g : A -> B) l : zsum f (g <$> l) = zsum (f ∘ g) l.
Proof. induction l as [|a l IH]; [done|]. rewrite fmap_cons, !zsum_cons, IH. done. Qed.

Create Rewrite HintDb zsum.
#[export] Hint Rewrite @zsum_nil @zsum_cons @zsum_app : zsum.

(** ** Membership in concatenations *)

Lemma elem_of_concat {A} (x : A) (ls : list (list A)) :
  x ∈ concat ls <-> exists l, x ∈ l /\ l ∈ ls.
Proof. induction ls as [|l ls IH]; simpl; [|rewrite elem_of_app, IH]; set_solver. Qed.

Lemma filter_id {A} (P : A -> Prop) `{!forall x, Decision (P x)} (l : list A) :
  (forall x, x ∈ l -> P x) -> filter P l = l.
Proof.
  induction l as [|x l IH]; intros HP; [done|].
  rewrite filter_cons_True by (apply HP; set_solver). f_equal. apply IH. set_solver.
Qed.

(** ** Tactics of the development *)

(** Splits every match or conditional in sight, keeping the equations. *)
Ltac split_cases := repeat (case_match; simplify_eq/=).

(** Turns boolean comparisons on integers into propositions. *)
Ltac zbool :=
  repeat match goal with
  | H : (_ <? _) = true |- _ => apply Z.ltb_lt in H
  | H : (_ <? _) = false |- _ => apply Z.ltb_ge in H
  | H : (_ <=? _) = true |- _ => apply Z.leb_le in H
  | H : (_ <=? _) = false |- _ => apply Z.leb_gt in H
  | H : (_ =? _) = true |- _ => apply Z.eqb_eq in H
  | H : (_ =? _) = false |- _ => apply Z.eqb_neq in H
  end.

(** Inverts equations [m ≫= f = Ret b]. *)
Ltac inv_ret :=
  repeat match goal with
  | H : (_ ≫= _) = Ret _ |- _ => apply bind_Ret in H as (? & ? & ?)
  | H : Ret _ = Ret _ |- _ => injection H as H; subst
  end; simplify_eq/=.
