(* ===== verification/Double.v ===== *)
(** * IEEE 754 binary64, the [double] of the source

    Prices are C++ [double]s.  They are modelled by the Standard Library's
    [spec_float] at precision 53 and maximal exponent 1024, with the operators
    the source uses: [<], [>], [==] (all false on NaN), [+], [-], [*], [/] with
    round-to-nearest-even.  Infinities and the two zeros are kept; NaNs are a
    single value (no payload).

    [rank] embeds the numbers (non-NaN values) in lexicographically ordered
    triples of integers, which reduces every fact about the order to linear
    arithmetic.  [≡ᵖ] is the equivalence of prices a comparator can observe: it
    identifies [+0] and [-0] and nothing else. *)

From Stdlib Require Import SpecFloat.
From S2P Require Import Prelude.


Abbreviation double := spec_float.

Definition dlt (x y : double) : bool := SFltb x y.
Definition dgt (x y : double) : bool := dlt y x.
Definition deq (x y : double) : bool := SFeqb x y.

Definition dadd (x y : double) : double := SFadd 53 1024 x y.
Definition dsub (x y : double) : double := SFsub 53 1024 x y.
Definition dmul (x y : double) : double := SFmul 53 1024 x y.
Definition ddiv (x y : double) : double := SFdiv 53 1024 x y.

(** The literal [n.0] of the source, and the conversion [static_cast<double>]. *)
Definition d_of_Z (n : Z) : double := binary_normalize 53 1024 n 0 false.

Definition is_nan (x : double) : bool :=
  match x with S754_nan => true | _ => false end.

(** [num x]: [x] is a number, infinities included. *)
Definition num (x : double) : Prop := is_nan x = false.

#[global] Instance num_dec x : Decision (num x).
Proof. unfold num. apply _. Defined.

#[global] Instance double_eq_dec : EqDecision double.
Proof. solve_decision. Defined.

(** ** The order embedding *)

Definition rank (x : double) : Z * Z * Z :=
  match x with
  | S754_zero _ => (0, 0, 0)
  | S754_infinity s => (if s then -2 else 2, 0, 0)
  | S754_nan => (0, 0, 0)
  | S754_finite false m e => (1, e, Zpos m)
  | S754_finite true m e => (-1, - e, Zneg m)
  end.

Definition rlt (p q : Z * Z * Z) : Prop :=
  let '(a, b, c) := p in
  let '(a', b', c') := q in
  a < a' \/ a = a' /\ (b < b' \/ b = b' /\ c < c').

(** Decides the comparison of two finite numbers of the same sign. *)
Ltac finite_cases e e' m m' :=
  change (Pos.compare_cont Eq m m') with (m ?= m')%positive;
  destruct (Z.compare_spec e e'), (Pos.compare_spec m m'); subst; simpl;
  split; (done || lia).

Lemma dlt_rank x y : num x -> num y -> dlt x y = true <-> rlt (rank x) (rank y).
Proof.
  unfold dlt, SFltb, num.
  destruct x as [s|s| |s m e], y as [s'|s'| |s' m' e']; try done; intros _ _; simpl;
    destruct s; try destruct s'; simpl; try (split; [done || lia | done || lia]);
    finite_cases e e' m m'.
Qed.

Lemma deq_rank x y : num x -> num y -> deq x y = true <-> rank x = rank y.
Proof.
  unfold deq, SFeqb, num.
  destruct x as [s|s| |s m e], y as [s'|s'| |s' m' e']; try done; intros _ _; simpl;
    destruct s; try destruct s'; simpl; try (split; naive_solver);
    change (Pos.compare_cont Eq m m') with (m ?= m')%positive;
    destruct (Z.compare_spec e e'), (Pos.compare_spec m m'); subst; simpl;
    split; (done || (intros [=]; lia)).
Qed.

Lemma dlt_nan x y : is_nan x = true \/ is_nan y = true -> dlt x y = false.
Proof. intros [H|H]; destruct x, y; done. Qed.

(** ** Laws of the order on numbers *)

(** Proves facts about [dlt] on numbers by the order embedding. *)
Ltac dlt_solve :=
  repeat match goal with
  | H : dlt _ _ = true |- _ => apply dlt_rank in H; [|assumption..]
  | H : dlt _ _ = false |- _ =>
      apply not_true_iff_false in H; rewrite dlt_rank in H by assumption
  | |- dlt _ _ = true => apply dlt_rank; [assumption..|]
  | |- dlt _ _ = false => apply not_true_iff_false; rewrite dlt_rank by assumption
  end;
  unfold rlt in *;
  repeat match goal with
  | _ : context [rank ?x] |- _ => destruct (rank x) as [[??]?]
  | |- context [rank ?x] => destruct (rank x) as [[??]?]
  end; lia.

Lemma dlt_irrefl x : dlt x x = false.
Proof.
  destruct (decide (num x)) as [Hx|Hx]; [dlt_solve|].
  apply dlt_nan. left. unfold num in Hx. by destruct (is_nan x).
Qed.

Lemma dlt_num x y : dlt x y = true -> num x /\ num y.
Proof. unfold num. destruct x, y; naive_solver. Qed.

Lemma dlt_trans x y z : dlt x y = true -> dlt y z = true -> dlt x z = true.
Proof.
  intros H1 H2. destruct (dlt_num _ _ H1), (dlt_num _ _ H2). dlt_solve.
Qed.

Lemma dlt_asym x y : dlt x y = true -> dlt y x = false.
Proof. intros H. destruct (dlt_num _ _ H). dlt_solve. Qed.

Lemma dlt_incomp_l x y z :
  num x -> num y -> num z ->
  dlt x y = false -> dlt y z = false -> dlt x z = false.
Proof. intros. dlt_solve. Qed.

Lemma dlt_le_trans x y z :
  num x -> num y -> num z -> dlt x y = true -> dlt z y = false -> dlt x z = true.
Proof. intros. dlt_solve. Qed.

Lemma dle_lt_trans x y z :
  num x -> num y -> num z -> dlt y x = false -> dlt y z = true -> dlt x z = true.
Proof. intros. dlt_solve. Qed.

(** ** Equivalence of prices *)

(** Two prices no comparison of the source tells apart. *)
Definition dequiv (x y : double) : Prop := x = y \/ num x /\ num y /\ rank x = rank y.

Notation "x ≡ᵖ y" := (dequiv x y) (at level 70, no associativity).

#[global] Instance dequiv_equivalence : Equivalence dequiv.
Proof.
  unfold dequiv. split.
  - by left.
  - intros x y [->|(?&?&?)]; auto.
  - intros x y z [->|(?&?&?)] [->|(?&?&?)]; auto. right. split_and!; congruence.
Qed.

Lemma dequiv_num x y : x ≡ᵖ y -> num x -> num y.
Proof. by intros [->|(?&?&?)]. Qed.

#[global] Instance dlt_proper : Proper (dequiv ==> dequiv ==> eq) dlt.
Proof.
  assert (Hl : forall x x' y, num x -> num x' -> rank x = rank x' -> dlt x y = dlt x' y /\ dlt y x = dlt y x').
  { intros x x' y Hx Hx' E. destruct (decide (num y)) as [Hy|Hy].
    - split; apply eq_iff_eq_true; by rewrite !dlt_rank, E.
    - assert (is_nan y = true) by (unfold num in Hy; by destruct (is_nan y)).
      by rewrite !dlt_nan by auto. }
  intros x x' [->|(?&?&?)] y y' [->|(?&?&?)]; [done|..].
  - by apply Hl.
  - by apply Hl.
  - rewrite (proj1 (Hl x x' y ltac:(done) ltac:(done) ltac:(done))). by apply Hl.
Qed.

Lemma dlt_incomp_dequiv x y :
  num x -> num y -> dlt x y = false -> dlt y x = false -> x ≡ᵖ y.
Proof.
  intros Hx Hy H1 H2. right. split_and!; [done..|].
  apply not_true_iff_false in H1, H2. rewrite dlt_rank in H1, H2 by done.
  unfold rlt in *. destruct (rank x) as [[??]?], (rank y) as [[??]?]. f_equal; [f_equal|]; lia.
Qed.

Lemma dequiv_incomp x y : x ≡ᵖ y -> dlt x y = false.
Proof. intros ->. apply dlt_irrefl. Qed.

(** Only the two zeros are equivalent without being equal. *)
Lemma dequiv_zero x y :
  x ≡ᵖ y -> x = y \/ exists s s', x = S754_zero s /\ y = S754_zero s'.
Proof.
  intros [->|(Hx&Hy&E)]; [by left|].
  unfold num in *.
  destruct x as [s|[]| |[] m e], y as [s'|[]| |[] m' e']; simplify_eq/=; eauto.
  left. f_equal. lia.
Qed.
