(* ===== verification/Rounding.v ===== *)
(** * Rounding of binary64 arithmetic

    What the price collar needs of round-to-nearest: a rounded result never
    crosses a representable number.  Values are compared exactly, as integers in
    units of [2 ^ -2148], the square of the smallest positive double, so that
    sums and products of doubles are whole.  [near v x] says that [x] is on the
    same side of every double as the exact value [v], or equal to it; sums,
    differences and products are near their exact values. *)

From Stdlib Require Import SpecFloat.
From S2P Require Import Prelude Double.

(** ** Valid doubles *)

(** The values a [double] object can hold. *)
Definition valid_double (x : double) : Prop := valid_binary 53 1024 x = true.

#[global] Instance valid_double_dec x : Decision (valid_double x).
Proof. unfold valid_double. apply _. Defined.

Lemma digits2_pos_size p : digits2_pos p = Pos.size p.
Proof. induction p; simpl; congruence. Qed.

Lemma digits_bounds p : 2 ^ (Zpos (digits2_pos p) - 1) <= Zpos p < 2 ^ Zpos (digits2_pos p).
Proof.
  rewrite digits2_pos_size. split.
  - pose proof (Pos.size_le p) as H.
    assert (2 ^ Zpos (Pos.size p) <= 2 * Zpos p) as H' by (rewrite <-Pos2Z.inj_pow; lia).
    replace (Zpos (Pos.size p)) with (Z.succ (Zpos (Pos.size p) - 1)) in H' by lia.
    rewrite Z.pow_succ_r in H' by lia. lia.
  - pose proof (Pos.size_gt p) as H. rewrite <-Pos2Z.inj_pow. lia.
Qed.

(** Subnormal, or normal with a leading one. *)
Lemma valid_finite s m e :
  valid_double (S754_finite s m e) ->
  (e = -1074 /\ Zpos m < 2 ^ 52) \/ (-1074 <= e <= 971 /\ 2 ^ 52 <= Zpos m < 2 ^ 53).
Proof.
  unfold valid_double, valid_binary, bounded, canonical_mantissa, fexp, emin.
  intros [Hc%Z.eqb_eq He%Z.leb_le]%andb_prop. pose proof (digits_bounds m) as [Hlo Hhi].
  set (d := Zpos (digits2_pos m)) in *.
  destruct (Z.eq_dec d 53) as [Hd|Hd].
  - right. rewrite Hd in *. split; [lia|]. split; [exact Hlo|exact Hhi].
  - left. assert (d < 53) by lia. split; [lia|].
    eapply Z.lt_le_trans; [exact Hhi|]. apply Z.pow_le_mono_r; lia.
Qed.

Lemma digits_unique p d : 0 <= d -> 2 ^ d <= Zpos p < 2 ^ (d + 1) -> Zpos (digits2_pos p) = d + 1.
Proof.
  intros Hd [H1 H2]. pose proof (digits_bounds p) as [H3 H4].
  assert (d < Zpos (digits2_pos p)) by (apply (Z.pow_lt_mono_r_iff 2); lia).
  assert (Zpos (digits2_pos p) - 1 < d + 1) by (apply (Z.pow_lt_mono_r_iff 2); lia). lia.
Qed.

Lemma digits_le p d : Zpos p < 2 ^ d -> Zpos (digits2_pos p) <= d.
Proof.
  intros H. pose proof (digits_bounds p) as [H1 _].
  destruct (Z.le_gt_cases (Zpos (digits2_pos p)) d) as [|Hgt]; [done|].
  assert (2 ^ d <= 2 ^ (Zpos (digits2_pos p) - 1)) by (apply Z.pow_le_mono_r; lia). lia.
Qed.

(** The converse of [valid_finite]. *)
Lemma finite_valid s m e :
  (e = -1074 /\ Zpos m < 2 ^ 52) \/ (-1074 <= e <= 971 /\ 2 ^ 52 <= Zpos m < 2 ^ 53) ->
  valid_double (S754_finite s m e).
Proof.
  unfold valid_double, valid_binary, bounded, canonical_mantissa, fexp, emin. intros H.
  rewrite andb_true_iff, Z.eqb_eq, Z.leb_le. destruct H as [[-> Hm]|[He Hm]].
  - pose proof (digits_le m 52 Hm). lia.
  - pose proof (digits_unique m 52 ltac:(lia) Hm) as ->. lia.
Qed.

(** ** Exact values *)

Definition pow2 (k : Z) : Z := 2 ^ (k + 2148).

Lemma pow2_pos k : -2148 <= k -> 0 < pow2 k.
Proof. intros. apply Z.pow_pos_nonneg; lia. Qed.

Lemma pow2_split k j : -2148 <= k <= j -> pow2 j = 2 ^ (j - k) * pow2 k.
Proof. intros. unfold pow2. rewrite <-Z.pow_add_r by lia. f_equal. lia. Qed.

Lemma pow2_add k j : -2148 <= k -> -2148 <= j -> -2148 <= k + j -> pow2 k * pow2 j = pow2 (k + j) * pow2 0.
Proof. intros. unfold pow2. rewrite <-!Z.pow_add_r by lia. f_equal. lia. Qed.

(** The value of a finite double, in units of [2 ^ -2148]. *)
Definition dval (x : double) : Z :=
  match x with
  | S754_finite s m e => cond_Zopp s (Zpos m * pow2 e)
  | _ => 0
  end.

(** A finite double. *)
Definition dfin (x : double) : Prop :=
  match x with
  | S754_zero _ => True
  | S754_finite _ _ _ => valid_double x
  | _ => False
  end.

#[global] Instance dfin_dec x : Decision (dfin x).
Proof. destruct x; simpl; apply _. Defined.

Lemma dfin_num x : dfin x -> num x.
Proof. by destruct x. Qed.

(** The mantissas and exponents of valid doubles are ordered like their values. *)
Lemma mantissa_lt s s' m e m' e' :
  valid_double (S754_finite s m e) -> valid_double (S754_finite s' m' e') -> e < e' ->
  Zpos m * pow2 e < Zpos m' * pow2 e'.
Proof.
  intros H H' He. apply valid_finite in H, H'.
  assert (-1074 <= e /\ Zpos m < 2 ^ 53 /\ 2 ^ 52 <= Zpos m') as (He1 & Hm & Hm') by lia.
  rewrite (pow2_split e e') by lia. pose proof (pow2_pos e ltac:(lia)).
  assert (2 ^ 1 <= 2 ^ (e' - e)) by (apply Z.pow_le_mono_r; lia).
  rewrite Z.mul_assoc. apply Z.mul_lt_mono_pos_r; [done|].
  apply (Z.lt_le_trans _ (2 ^ 52 * 2)); [lia|]. apply Z.mul_le_mono_nonneg; lia.
Qed.

Lemma dval_lt x y : dfin x -> dfin y -> dlt x y = true <-> dval x < dval y.
Proof.
  intros Hx Hy. rewrite dlt_rank by (by apply dfin_num).
  destruct x as [s|s| |s m e], y as [s'|s'| |s' m' e']; try done; simpl.
  - lia.
  - pose proof (valid_finite _ _ _ Hy). pose proof (pow2_pos e' ltac:(lia)).
    destruct s'; simpl; nia.
  - pose proof (valid_finite _ _ _ Hx). pose proof (pow2_pos e ltac:(lia)).
    destruct s; simpl; nia.
  - simpl in Hx, Hy. pose proof (valid_finite _ _ _ Hx). pose proof (valid_finite _ _ _ Hy).
    pose proof (pow2_pos e ltac:(lia)). pose proof (pow2_pos e' ltac:(lia)).
    pose proof (mantissa_lt _ _ _ _ _ _ Hx Hy). pose proof (mantissa_lt _ _ _ _ _ _ Hy Hx).
    destruct (Z.lt_trichotomy e e') as [Hlt|[->|Hgt]]; destruct s, s'; simpl; nia.
Qed.

Lemma dval_ge x y : dfin x -> dfin y -> dlt x y = false <-> dval y <= dval x.
Proof. intros Hx Hy. rewrite <-not_true_iff_false, dval_lt by done. lia. Qed.

(** ** Shifts *)

(** [mrs] holds [m0] shifted right by [k], with exact round and sticky bits. *)
Definition shifted (m0 k : Z) (mrs : shr_record) : Prop :=
  0 <= k /\ 0 <= shr_m mrs /\
  exists rest, m0 = shr_m mrs * 2 ^ k + rest /\ 0 <= rest < 2 ^ k /\
    (rest = 0 <-> shr_r mrs || shr_s mrs = false).

Lemma shr_1_spec mrs :
  0 <= shr_m mrs ->
  exists b, shr_m mrs = 2 * shr_m (shr_1 mrs) + b /\ (b = 0 \/ b = 1) /\ 0 <= shr_m (shr_1 mrs) /\
    shr_r (shr_1 mrs) = (b =? 1) /\ shr_s (shr_1 mrs) = shr_r mrs || shr_s mrs.
Proof.
  destruct mrs as [[|[p|p|]|] r s]; simpl; intros ?;
    [exists 0|exists 1|exists 0|exists 1|lia]; split_and!; (done || lia).
Qed.

Lemma shr_1_shifted m0 k mrs : shifted m0 k mrs -> shifted m0 (k + 1) (shr_1 mrs).
Proof.
  intros (Hk & Hm & rest & Hm0 & Hrest & Hrs).
  destruct (shr_1_spec mrs Hm) as (b & Hb & Hb01 & Hpos & Hr & Hs).
  assert (2 ^ (k + 1) = 2 * 2 ^ k) as Hp by (rewrite Z.pow_add_r by lia; lia).
  assert (0 < 2 ^ k) by (apply Z.pow_pos_nonneg; lia).
  split_and!; [lia|done|]. exists (b * 2 ^ k + rest). rewrite Hp, Hr, Hs. split_and!.
  - rewrite Hm0 at 1. rewrite Hb at 1. lia.
  - nia.
  - nia.
  - destruct Hb01 as [-> | ->]; simpl; [|split; [nia|done]]. rewrite <-Hrs. lia.
Qed.

Lemma iter_shifted m0 p k mrs : shifted m0 k mrs -> shifted m0 (k + Zpos p) (SpecFloat.iter_pos shr_1 p mrs).
Proof.
  revert k mrs. induction p as [p IH|p IH|]; intros k mrs H; cbn [iter_pos].
  - replace (k + Zpos p~1) with (k + 1 + Zpos p + Zpos p) by lia. by apply IH, IH, shr_1_shifted.
  - replace (k + Zpos p~0) with (k + Zpos p + Zpos p) by lia. by apply IH, IH.
  - by apply shr_1_shifted.
Qed.

Lemma shr_exact m e n :
  0 <= m -> 0 <= n ->
  exists mrs, shr (shr_record_of_loc m loc_Exact) e n = (mrs, e + n) /\ shifted m n mrs.
Proof.
  intros Hm Hn.
  assert (shifted m 0 (shr_record_of_loc m loc_Exact)) as H0.
  { split_and!; [lia|done|]. exists 0. simpl. split_and!; [lia|lia|lia|done]. }
  destruct n as [|p|p]; [|by eexists; split; [|apply (iter_shifted _ _ 0)]|lia].
  eexists. split; [|exact H0]. simpl. by rewrite Z.add_0_r.
Qed.

(** Rounding picks a neighbour, and is the identity on exact values. *)
Lemma round_nearest_cases mrs :
  let q := round_nearest_even (shr_m mrs) (loc_of_shr_record mrs) in
  (q = shr_m mrs \/ q = shr_m mrs + 1) /\ (shr_r mrs || shr_s mrs = false -> q = shr_m mrs).
Proof.
  destruct mrs as [m [] []]; simpl; split; try done; auto. destruct (Z.even m); auto.
Qed.

(** ** Rounding does not cross a double *)

(** The magnitudes of finite doubles. *)
Definition magnitude (Y : Z) : Prop :=
  Y = 0 \/ exists m e, valid_double (S754_finite false m e) /\ Y = Zpos m * pow2 e.

(** [R] is on the same side of every magnitude as [U]. *)
Definition same_side (U R : Z) : Prop :=
  forall Y, magnitude Y -> (Y <= U -> Y <= R) /\ (U <= Y -> R <= Y).

(** The grid of the doubles around a value of [d] digits at [e], of spacing
    [pow2 e1]: either the neighbour below or the one above is on the same side. *)
Lemma grid_same_side U q q' e1 :
  -1074 <= e1 -> 0 <= q -> q * pow2 e1 <= U < (q + 1) * pow2 e1 ->
  e1 = -1074 \/ 2 ^ 52 <= q ->
  q' = q \/ q' = q + 1 -> (U = q * pow2 e1 -> q' = q) ->
  same_side U (q' * pow2 e1).
Proof.
  intros He1 Hq HU Hnorm Hq' Hex Y HY. pose proof (pow2_pos e1 ltac:(lia)) as HG.
  assert (Y <= q * pow2 e1 \/ (q + 1) * pow2 e1 <= Y) as Hgrid; [|nia].
  destruct HY as [->|(m & e & Hv & ->)]; [left; nia|]. apply valid_finite in Hv.
  destruct (Z.le_gt_cases e1 e) as [He|He].
  - rewrite (pow2_split e1 e), Z.mul_assoc by lia.
    destruct (Z.le_gt_cases (Zpos m * 2 ^ (e - e1)) q); [left|right]; apply Z.mul_le_mono_nonneg_r; lia.
  - left. rewrite (pow2_split e e1) by lia. pose proof (pow2_pos e ltac:(lia)).
    assert (2 ^ 1 <= 2 ^ (e1 - e)) by (apply Z.pow_le_mono_r; lia).
    rewrite Z.mul_assoc. apply Z.mul_le_mono_nonneg_r; [lia|].
    apply (Z.le_trans _ (2 ^ 52 * 2)); [lia|]. apply Z.mul_le_mono_nonneg; lia.
Qed.

(** What a rounding returns for the magnitude [R]. *)
Inductive represents (s : bool) (R : Z) : double -> Prop :=
  | rep_zero : R = 0 -> represents s R (S754_zero s)
  | rep_finite m e : valid_double (S754_finite s m e) -> R = Zpos m * pow2 e ->
      represents s R (S754_finite s m e)
  | rep_infinity : pow2 1024 <= R -> represents s R (S754_infinity s).

Abbreviation fexp64 := (fexp 53 1024).

Lemma overflow q e : 2 ^ 52 <= q -> 972 <= e -> pow2 1024 <= q * pow2 e.
Proof.
  intros Hq He. rewrite (pow2_split 972 e) by lia.
  assert (pow2 1024 = 2 ^ 52 * pow2 972) as -> by (apply (pow2_split 972); lia).
  pose proof (pow2_pos 972 ltac:(lia)). pose proof (Z.pow_pos_nonneg 2 (e - 972)).
  rewrite Z.mul_assoc. apply Z.mul_le_mono_nonneg_r; [lia|]. nia.
Qed.

(** The second normalisation, of a mantissa of at most 53 digits and one more. *)
Lemma renormalise s q e1 :
  -1074 <= e1 -> 0 <= q <= 2 ^ 53 -> e1 = -1074 \/ 2 ^ 52 <= q ->
  represents s (q * pow2 e1)
    (let '(mrs, e2) := shr_fexp 53 1024 q e1 loc_Exact in
     match shr_m mrs with
     | Z0 => S754_zero s
     | Zpos m => if e2 <=? 1024 - 53 then S754_finite s m e2 else S754_infinity s
     | _ => S754_nan
     end).
Proof.
  intros He1 Hq Hnorm. unfold shr_fexp.
  destruct (Z.eq_dec q (2 ^ 53)) as [->|Hne].
  { replace (fexp64 (Zdigits2 (2 ^ 53) + e1) - e1) with 1
      by (change (Zdigits2 (2 ^ 53)) with 54; unfold fexp, emin; lia).
    change (shr (shr_record_of_loc (2 ^ 53) loc_Exact) e1 1)
      with (Build_shr_record (2 ^ 52) false false, e1 + 1). change (2 ^ 52) with 4503599627370496 at 1.
    cbn [shr_m]. destruct (Z.leb_spec (e1 + 1) (1024 - 53)).
    - apply rep_finite; [apply finite_valid; lia|]. rewrite (pow2_split e1 (e1 + 1)) by lia.
      replace (e1 + 1 - e1) with 1 by lia. lia.
    - apply rep_infinity. replace (2 ^ 53 * pow2 e1) with (2 ^ 52 * pow2 (e1 + 1)).
      + apply overflow; lia.
      + rewrite (pow2_split e1 (e1 + 1)) by lia. replace (e1 + 1 - e1) with 1 by lia. lia. }
  assert (shr (shr_record_of_loc q loc_Exact) e1 (fexp64 (Zdigits2 q + e1) - e1) =
    (shr_record_of_loc q loc_Exact, e1)) as ->.
  { assert (fexp64 (Zdigits2 q + e1) - e1 <= 0) as Hn.
    { assert (Zdigits2 q <= 53).
      { destruct q as [|p|p]; cbn [Zdigits2]; [lia|apply digits_le; lia|lia]. }
      unfold fexp, emin. lia. }
    by destruct (fexp64 (Zdigits2 q + e1) - e1). }
  cbn [shr_record_of_loc shr_m]. destruct q as [|p|p]; [by apply rep_zero| |lia].
  destruct (Z.leb_spec e1 (1024 - 53)).
  - apply rep_finite; [|done]. apply finite_valid. lia.
  - apply rep_infinity, overflow; lia.
Qed.

(** [binary_round_aux] on an exact mantissa that needs no left shift. *)
Lemma round_aux_represents s m e :
  -2148 <= e <= fexp64 (Zpos (digits2_pos m) + e) ->
  exists R, same_side (Zpos m * pow2 e) R /\
    represents s R (binary_round_aux 53 1024 s (Zpos m) e loc_Exact).
Proof.
  intros He. set (e1 := fexp64 _) in He. unfold binary_round_aux, shr_fexp at 1.
  change (Zdigits2 (Zpos m)) with (Zpos (digits2_pos m)). fold e1.
  destruct (shr_exact (Zpos m) e (e1 - e)) as (mrs & -> & Hsh); [lia|lia|].
  destruct Hsh as (_ & Hq0 & rest & Hm & Hrest & Hex).
  destruct (round_nearest_cases mrs) as [Hq' Hq'ex]. set (q' := round_nearest_even _ _) in *.
  set (q := shr_m mrs) in *. replace (e + (e1 - e)) with e1 by lia.
  pose proof (digits_bounds m) as [Hd1 Hd2]. set (d := Zpos (digits2_pos m)) in *.
  assert (e1 = Z.max (d + e - 53) (-1074)) as He1 by reflexivity. clearbody e1.
  assert (q < 2 ^ 53) as Hq53.
  { assert (2 ^ d <= 2 ^ (53 + (e1 - e))) as Hp by (apply Z.pow_le_mono_r; lia).
    rewrite Z.pow_add_r in Hp by lia. pose proof (Z.pow_pos_nonneg 2 (e1 - e)). nia. }
  assert (e1 = -1074 \/ 2 ^ 52 <= q) as Hnorm.
  { destruct (Z.eq_dec e1 (-1074)); [by left|right].
    assert (2 ^ (d - 1) = 2 ^ 52 * 2 ^ (e1 - e)) as Hp.
    { rewrite <-Z.pow_add_r by lia. f_equal. lia. }
    pose proof (Z.pow_pos_nonneg 2 (e1 - e)). nia. }
  pose proof (pow2_pos e ltac:(lia)) as HP.
  assert (Zpos m * pow2 e = q * pow2 e1 + rest * pow2 e) as Hval.
  { rewrite (pow2_split e e1), Hm by lia. lia. }
  exists (q' * pow2 e1). split.
  - apply (grid_same_side _ q); [lia|done| |done|done|].
    + rewrite Hval. rewrite (pow2_split e e1) by lia. nia.
    + intros E. apply Hq'ex, Hex. nia.
  - apply renormalise; lia.
Qed.

(** ** Operations are near their exact results *)

(** [x] is on the same side of every finite double as the exact value [v]. *)
Definition near (v : Z) (x : double) : Prop :=
  valid_double x /\ num x /\
  forall z, dfin z -> (dval z <= v -> dlt x z = false) /\ (v <= dval z -> dlt z x = false).

Lemma dval_magnitude x : dfin x -> magnitude (Z.abs (dval x)) /\ Z.abs (dval x) < pow2 1024.
Proof.
  pose proof (pow2_pos 1024 ltac:(lia)).
  destruct x as [s|s| |s m e]; try done; intros Hx; [split; [by left|done]|]. simpl in Hx |- *.
  pose proof (valid_finite _ _ _ Hx) as Hv. pose proof (pow2_pos e ltac:(lia)).
  assert (Z.abs (cond_Zopp s (Zpos m * pow2 e)) = Zpos m * pow2 e) as -> by (destruct s; simpl; lia).
  split; [right; exists m, e; split; [by apply finite_valid|done]|].
  assert (pow2 1024 = 2 ^ 53 * (2 ^ (971 - e) * pow2 e)) as ->.
  { rewrite <-pow2_split by lia. apply (pow2_split 971). lia. }
  pose proof (Z.pow_pos_nonneg 2 (971 - e)). rewrite Z.mul_assoc.
  apply Z.mul_lt_mono_pos_r; [done|]. nia.
Qed.

Lemma near_dval x : dfin x -> near (dval x) x.
Proof.
  intros Hx. split_and!; [by destruct x|by apply dfin_num|]. intros z Hz.
  by rewrite !dval_ge by done.
Qed.

Lemma near_zero s : near 0 (S754_zero s).
Proof. by apply (near_dval (S754_zero s)). Qed.

Lemma represents_near s U R x :
  0 <= U -> same_side U R -> represents s R x -> near (cond_Zopp s U) x.
Proof.
  intros HU Hside Hrep. pose proof (proj1 (Hside 0 (or_introl eq_refl)) HU) as HR.
  assert (forall z, dfin z -> (Z.abs (dval z) <= U -> Z.abs (dval z) <= R) /\
    (U <= Z.abs (dval z) -> R <= Z.abs (dval z)) /\ Z.abs (dval z) < pow2 1024) as Hz.
  { intros z Hz. destruct (dval_magnitude z Hz) as [Hm ?]. destruct (Hside _ Hm). done. }
  assert (dfin x -> dval x = cond_Zopp s R -> near (cond_Zopp s U) x) as Hfin.
  { intros Hx Hv. split_and!; [by destruct x|by apply dfin_num|]. intros z Hfz.
    rewrite !dval_ge by done. specialize (Hz z Hfz). destruct s; simpl in *; lia. }
  destruct Hrep as [->|m e Hv ->|Hinf].
  - apply Hfin; [done|]. by destruct s.
  - by apply Hfin.
  - split_and!; [done|done|]. intros z Hfz. specialize (Hz z Hfz). pose proof (dfin_num z Hfz).
    destruct z as [s'|s'| |s' m e]; try done; destruct s; simpl in *; split; (done || lia).
Qed.

Lemma digits_shift m k : digits2_pos (Pos.iter xO m k) = (digits2_pos m + k)%positive.
Proof.
  induction k as [|k IH] using Pos.peano_ind; [simpl; lia|].
  rewrite Pos.iter_succ. cbn [digits2_pos]. rewrite IH. lia.
Qed.

Lemma shl_align_spec m e e' :
  exists m', shl_align m e e' = (m', Z.min e e') /\ Zpos m' = Zpos m * 2 ^ (e - Z.min e e') /\
    Zpos (digits2_pos m') = Zpos (digits2_pos m) + (e - Z.min e e').
Proof.
  unfold shl_align. destruct (e' - e) as [|p|p] eqn:E.
  1,2: exists m; split_and!; [f_equal; lia| |lia];
       replace (e - Z.min e e') with 0 by lia; lia.
  exists (Pos.iter xO m p). replace (e - Z.min e e') with (Zpos p) by lia. split_and!.
  - f_equal. lia.
  - clear E. induction p as [|p IH] using Pos.peano_ind; [simpl; lia|].
    rewrite Pos.iter_succ, Pos2Z.inj_succ, Z.pow_succ_r by lia. lia.
  - rewrite digits_shift. lia.
Qed.

Lemma binary_round_near s m e :
  -1074 <= e -> near (cond_Zopp s (Zpos m * pow2 e)) (binary_round 53 1024 s m e).
Proof.
  intros He. unfold binary_round.
  destruct (shl_align_spec m e (fexp64 (Zpos (digits2_pos m) + e))) as (m' & -> & Hm' & Hd).
  set (e1 := fexp64 _) in *.
  assert (-1074 <= e1) as He1 by (unfold e1, fexp, emin; lia).
  replace (Zpos m * pow2 e) with (Zpos m' * pow2 (Z.min e e1)).
  2:{ rewrite Hm', (pow2_split (Z.min e e1) e) by lia. lia. }
  destruct (round_aux_represents s m' (Z.min e e1)) as (R & Hs & Hr).
  { rewrite Hd. replace (_ + (e - Z.min e e1) + Z.min e e1) with (Zpos (digits2_pos m) + e) by lia.
    fold e1. lia. }
  eapply represents_near; [|done..]. pose proof (pow2_pos (Z.min e e1)). lia.
Qed.

Lemma binary_normalize_near m e s : -1074 <= e -> near (m * pow2 e) (binary_normalize 53 1024 m e s).
Proof.
  intros He. destruct m as [|m|m]; cbn [binary_normalize].
  - apply near_zero.
  - by apply (binary_round_near false).
  - replace (Zneg m * pow2 e) with (cond_Zopp true (Zpos m * pow2 e)) by (cbn [cond_Zopp]; lia).
    by apply binary_round_near.
Qed.

Lemma aligned_dval s m e e' :
  -1074 <= e' <= e ->
  cond_Zopp s (Zpos (fst (shl_align m e e'))) * pow2 e' = dval (S754_finite s m e).
Proof.
  intros He. destruct (shl_align_spec m e e') as (m' & -> & Hm' & _).
  cbn [fst dval]. replace (Z.min e e') with e' in Hm' by lia.
  rewrite (pow2_split e' e) by lia. destruct s; cbn [cond_Zopp]; lia.
Qed.

Lemma dadd_near x y : dfin x -> dfin y -> near (dval x + dval y) (dadd x y).
Proof.
  intros Hx Hy. destruct x as [s|s| |s m e], y as [s'|s'| |s' m' e']; try done.
  - destruct s, s'; apply near_zero.
  - by apply (near_dval (S754_finite s' m' e')).
  - cbn [dval]. rewrite Z.add_0_r. by apply (near_dval (S754_finite s m e)).
  - pose proof (valid_finite _ _ _ Hx). pose proof (valid_finite _ _ _ Hy). unfold dadd, SFadd.
    rewrite <-(aligned_dval s m e (Z.min e e')), <-(aligned_dval s' m' e' (Z.min e e')) by lia.
    rewrite <-Z.mul_add_distr_r. apply binary_normalize_near. lia.
Qed.

Lemma dsub_near x y : dfin x -> dfin y -> near (dval x - dval y) (dsub x y).
Proof.
  intros Hx Hy. destruct x as [s|s| |s m e], y as [s'|s'| |s' m' e']; try done.
  - destruct s, s'; apply near_zero.
  - replace (dval (S754_zero s) - dval (S754_finite s' m' e')) with (dval (S754_finite (negb s') m' e')).
    + apply near_dval. simpl in *. apply finite_valid, (valid_finite _ _ _ Hy).
    + destruct s'; simpl; lia.
  - cbn [dval]. rewrite Z.sub_0_r. by apply (near_dval (S754_finite s m e)).
  - pose proof (valid_finite _ _ _ Hx). pose proof (valid_finite _ _ _ Hy). unfold dsub, SFsub.
    rewrite <-(aligned_dval s m e (Z.min e e')), <-(aligned_dval s' m' e' (Z.min e e')) by lia.
    rewrite <-Z.mul_sub_distr_r. apply binary_normalize_near. lia.
Qed.

(** The product of two mantissas never needs a left shift. *)
Lemma product_digits s m e s' m' e' :
  valid_double (S754_finite s m e) -> valid_double (S754_finite s' m' e') ->
  -2148 <= e + e' <= fexp64 (Zpos (digits2_pos (m * m')) + (e + e')).
Proof.
  intros H H'. apply valid_finite in H, H'.
  assert (-1074 <= e /\ -1074 <= e') as [] by lia. split; [lia|]. unfold fexp, emin.
  destruct (Z.le_gt_cases (e + e') (-1074)); [lia|].
  assert (2 ^ 52 <= Zpos (m * m')) as Hm by (rewrite Pos2Z.inj_mul; nia).
  pose proof (digits_bounds (m * m')) as [_ Hd].
  assert (52 < Zpos (digits2_pos (m * m'))) by (apply (Z.pow_lt_mono_r_iff 2); lia). lia.
Qed.

Lemma dmul_near x y :
  dfin x -> dfin y -> exists v, v * pow2 0 = dval x * dval y /\ near v (dmul x y).
Proof.
  intros Hx Hy. destruct x as [s|s| |s m e], y as [s'|s'| |s' m' e']; try done.
  1-3: exists 0; split; [simpl; lia|apply near_zero].
  exists (cond_Zopp (xorb s s') (Zpos (m * m') * pow2 (e + e'))).
  pose proof (product_digits _ _ _ _ _ _ Hx Hy) as Hd.
  pose proof (valid_finite _ _ _ Hx). pose proof (valid_finite _ _ _ Hy). split.
  - cbn [dval]. rewrite Pos2Z.inj_mul.
    assert (Zpos m * Zpos m' * pow2 (e + e') * pow2 0 = (Zpos m * pow2 e) * (Zpos m' * pow2 e')) as Hp.
    { rewrite <-Z.mul_assoc, <-pow2_add by lia. ring. }
    destruct s, s'; cbn [cond_Zopp xorb]; lia.
  - destruct (round_aux_represents (xorb s s') (m * m') (e + e') Hd) as (R & Hside & Hrep).
    eapply represents_near; [|done..]. pose proof (pow2_pos (e + e')). lia.
Qed.

(** A value near one that lies between finite doubles is finite. *)
Lemma near_between v x a b :
  near v x -> dfin a -> dfin b -> dval a <= v <= dval b -> dfin x /\ dval a <= dval x <= dval b.
Proof.
  intros (Hv & Hn & H) Ha Hb Hab. destruct (H a Ha) as [H1 _]. destruct (H b Hb) as [_ H2].
  assert (dfin x) as Hx.
  { specialize (H1 (proj1 Hab)). specialize (H2 (proj2 Hab)).
    destruct x as [s|[]| |s m e]; try done.
    - by destruct a as [s|s| |s m e].
    - by destruct b as [s|s| |s m e]. }
  split; [done|]. rewrite !dval_ge in H1, H2 by done. lia.
Qed.

(** Doubles of one value are equivalent as prices. *)
Lemma dval_dequiv x y : dfin x -> dfin y -> dval x = dval y -> x ≡ᵖ y.
Proof.
  intros Hx Hy E. apply dlt_incomp_dequiv; [by apply dfin_num..| |]; apply dval_ge; (done || lia).
Qed.

(** Comparing a double with a rounded bound is comparing it with the exact one,
    except at the rounded bound itself. *)
Lemma near_upper v x p : near v x -> dfin p -> dlt x p = false <-> dval p <= v \/ p ≡ᵖ x.
Proof.
  intros (_ & Hn & H) Hp. destruct (H p Hp) as [H1 H2]. split.
  - intros Hx. destruct (Z.le_gt_cases (dval p) v); [by left|right].
    apply dlt_incomp_dequiv; [by apply dfin_num|done|apply H2; lia|done].
  - intros [Hle|He]; [by apply H1|]. by apply dequiv_incomp.
Qed.

Lemma near_lower v x p : near v x -> dfin p -> dlt p x = false <-> v <= dval p \/ p ≡ᵖ x.
Proof.
  intros (_ & Hn & H) Hp. destruct (H p Hp) as [H1 H2]. split.
  - intros Hx. destruct (Z.le_gt_cases v (dval p)); [by left|right].
    apply dlt_incomp_dequiv; [by apply dfin_num|done|done|apply H1; lia].
  - intros [Hle|He]; [by apply H2|]. by apply dequiv_incomp.
Qed.

(** ** Dyadic numbers *)

(** A number of at most 53 digits is a double. *)
Lemma dyadic_double m e : 0 <= m < 2 ^ 53 -> -1021 <= e <= 971 -> exists z, dfin z /\ dval z = m * pow2 e.
Proof.
  intros Hm He. destruct (decide (m = 0)) as [->|Hne]; [by exists (S754_zero false)|].
  destruct m as [|m|m]; [done| |lia]. set (d := Zpos (digits2_pos m)).
  assert (1 <= d <= 53) as Hd by (split; [lia|apply digits_le; lia]).
  pose proof (digits_bounds m) as Hb. fold d in Hb.
  assert (0 < Zpos m * 2 ^ (53 - d)) as Hpos by (apply Z.mul_pos_pos; [lia|apply Z.pow_pos_nonneg; lia]).
  exists (S754_finite false (Z.to_pos (Zpos m * 2 ^ (53 - d))) (e - (53 - d))).
  assert (pow2 e = 2 ^ (53 - d) * pow2 (e - (53 - d))) as Hsplit.
  { rewrite (pow2_split (e - (53 - d)) e) by lia. do 2 f_equal. lia. }
  split; [|cbn [dval cond_Zopp]; rewrite Z2Pos.id by done; rewrite Hsplit; ring].
  apply finite_valid. rewrite Z2Pos.id by done.
  assert (2 ^ (d - 1) * 2 ^ (53 - d) = 2 ^ 52) as E1 by (rewrite <-Z.pow_add_r by lia; f_equal; lia).
  assert (2 ^ d * 2 ^ (53 - d) = 2 ^ 53) as E2 by (rewrite <-Z.pow_add_r by lia; f_equal; lia).
  right. split; [lia|]. nia.
Qed.

(** A result near a double has its value. *)
Lemma near_exact v x z : near v x -> dfin z -> dval z = v -> dfin x /\ dval x = v.
Proof.
  intros Hn Hz E. destruct (near_between v x z z Hn Hz Hz) as [Hx Hv]; [lia|]. split; [done|lia].
Qed.

Lemma d_of_Z_near k : near (k * pow2 0) (d_of_Z k).
Proof. apply binary_normalize_near. lia. Qed.

Lemma d_of_Z_exact k : 0 <= k < 2 ^ 53 -> dfin (d_of_Z k) /\ dval (d_of_Z k) = k * pow2 0.
Proof.
  intros Hk. destruct (dyadic_double k 0) as (z & Hz & Hv); [lia|lia|]. by apply (near_exact _ _ z); [apply d_of_Z_near|..].
Qed.

(** ** Quotients that are numbers *)

Lemma shr_nonneg mrs e n : 0 <= shr_m mrs -> 0 <= shr_m (shr mrs e n).1.
Proof.
  assert (forall r, 0 <= shr_m r -> 0 <= shr_m (shr_1 r)) as H1.
  { intros r Hr. by destruct (shr_1_spec r Hr) as (b & _ & _ & H & _). }
  intros Hm. destruct n as [|p|p]; cbn [shr fst]; try done.
  revert mrs Hm. induction p as [p IH|p IH|]; intros mrs Hm; cbn [SpecFloat.iter_pos].
  - by apply IH, IH, H1.
  - by apply IH, IH.
  - by apply H1.
Qed.

Lemma shr_fexp_nonneg m e l : 0 <= m -> 0 <= shr_m (shr_fexp 53 1024 m e l).1.
Proof. intros Hm. apply shr_nonneg. by destruct l as [|[]]. Qed.

Lemma round_aux_num s m e l : 0 <= m -> num (binary_round_aux 53 1024 s m e l).
Proof.
  intros Hm. unfold binary_round_aux. pose proof (shr_fexp_nonneg m e l Hm) as H1.
  destruct (shr_fexp 53 1024 m e l) as [mrs e1]. cbn [fst] in H1.
  pose proof (round_nearest_cases mrs) as [Hq _]. cbn zeta in Hq.
  pose proof (shr_fexp_nonneg (round_nearest_even (shr_m mrs) (loc_of_shr_record mrs)) e1 loc_Exact ltac:(lia)) as H2.
  destruct (shr_fexp 53 1024 _ e1 loc_Exact) as [mrs2 e2]. cbn [fst] in H2.
  destruct (shr_m mrs2); [done| |lia]. by case_match.
Qed.

Definition nonzero (x : double) : bool :=
  match x with S754_finite _ _ _ => true | _ => false end.

(** Dividing by, or into, a finite number other than zero. *)
Lemma ddiv_num x y : num x -> num y -> nonzero x || nonzero y = true -> num (ddiv x y).
Proof.
  intros Hx Hy Hnz. destruct x as [s|s| |s m e], y as [s'|s'| |s' m' e']; try done.
  unfold ddiv, SFdiv, SFdiv_core_binary.
  set (k := match _ with Z0 => _ | Zpos _ => _ | Zneg _ => _ end).
  assert (0 <= k) as Hk.
  { subst k. case_match; [done| |done]. by apply Z.shiftl_nonneg. }
  destruct (Z.div_eucl k (Zpos m')) as [q r] eqn:E. apply round_aux_num.
  replace q with (k / Zpos m') by (unfold Z.div; by rewrite E). apply Z.div_pos; lia.
Qed.

Lemma d_of_Z_num k : num (d_of_Z k).
Proof. apply d_of_Z_near. Qed.

Lemma d_of_Z_nonzero k : 0 < k < 2 ^ 53 -> nonzero (d_of_Z k) = true.
Proof.
  intros Hk. destruct (d_of_Z_exact k) as [Hf Hv]; [lia|]. pose proof (pow2_pos 0 ltac:(lia)).
  destruct (d_of_Z k); try done; cbn [dval] in Hv; lia.
Qed.
