(* ===== verification/StdMap.v ===== *)
(** * [std::map] with a comparator

    The two price-level maps of the order book are [std::map]s, one ordered by
    [std::greater<double>], the other by [std::less<double>].  A map is the list
    of its entries in iteration order; searching is [lower_bound] followed by the
    equivalence test [!(k < key)], exactly as [find], [operator[]] and [erase]
    work.  The comparator is only required to be a strict weak order ([Compare]
    in the standard), on a domain of keys [D]: on keys outside [D] the standard
    leaves the behaviour undefined, and so no law is stated there. *)

From S2P Require Import Prelude.

Class StrictWeakOrder {K : Type} (D : K -> Prop) (lt : K -> K -> bool) : Prop := {
  swo_irrefl x : D x -> lt x x = false;
  swo_trans x y z : D x -> D y -> D z -> lt x y = true -> lt y z = true -> lt x z = true;
  swo_incomp x y z : D x -> D y -> D z -> lt x y = false -> lt y z = false -> lt x z = false
}.

Section operations.
Context {K V : Type} (lt : K -> K -> bool).

(** [m.find(k)]: the value at an equivalent key. *)
Fixpoint map_find (m : list (K * V)) (k : K) : option V :=
  match m with
  | [] => None
  | (k', v) :: m' =>
      if lt k' k then map_find m' k
      else if lt k k' then None
      else Some v
  end.

(** [m[k]] followed by an update [f] of the value in place.  The stored key is
    kept when an equivalent one is present; otherwise [k] is inserted at its
    lower bound with the default value [d]. *)
Fixpoint map_upsert (m : list (K * V)) (k : K) (d : V) (f : V -> V) : list (K * V) :=
  match m with
  | [] => [(k, f d)]
  | (k', v) :: m' =>
      if lt k' k then (k', v) :: map_upsert m' k d f
      else if lt k k' then (k, f d) :: (k', v) :: m'
      else (k', f v) :: m'
  end.

(** An update through [it = m.find(k)]: [f] gives the new value, or [None] to
    [m.erase(it)].  The map is unchanged when [it == m.end()]. *)
Fixpoint map_adjust (m : list (K * V)) (k : K) (f : V -> option V) : list (K * V) :=
  match m with
  | [] => []
  | (k', v) :: m' =>
      if lt k' k then (k', v) :: map_adjust m' k f
      else if lt k k' then (k', v) :: m'
      else match f v with
           | Some v' => (k', v') :: m'
           | None => m'
           end
  end.
End operations.

(** The entries of a map, in iteration order, have strictly increasing keys. *)
Definition map_sorted {K V} (lt : K -> K -> bool) (m : list (K * V)) : Prop :=
  StronglySorted (fun p q => lt p.1 q.1 = true) m.

Section laws.
Context {K V : Type} {D : K -> Prop} {lt : K -> K -> bool} `{!StrictWeakOrder D lt}.
Implicit Types (m : list (K * V)) (p : K * V) (v d : V) (k : K).

Definition keys_in (m : list (K * V)) : Prop := Forall (fun p => D p.1) m.

Lemma swo_asym x y : D x -> D y -> lt x y = true -> lt y x = false.
Proof.
  intros Hx Hy H. destruct (lt y x) eqn:E; [|done].
  pose proof (swo_trans x y x Hx Hy Hx H E) as Hxx. by rewrite (swo_irrefl x Hx) in Hxx.
Qed.

Lemma swo_lt_incomp x y z :
  D x -> D y -> D z -> lt x y = true -> lt z y = false -> lt x z = true.
Proof.
  intros Hx Hy Hz H1 H2. destruct (lt x z) eqn:E; [done|].
  by rewrite (swo_incomp x z y) in H1.
Qed.

Lemma swo_incomp_lt x y z :
  D x -> D y -> D z -> lt y x = false -> lt y z = true -> lt x z = true.
Proof.
  intros Hx Hy Hz H1 H2. destruct (lt x z) eqn:E; [done|].
  by rewrite (swo_incomp y x z) in H2.
Qed.

Lemma map_upsert_elem m k d f p :
  p ∈ map_upsert lt m k d f ->
  p ∈ m \/ p = (k, f d) \/
  exists k' v, (k', v) ∈ m /\ p = (k', f v) /\ lt k' k = false /\ lt k k' = false.
Proof.
  induction m as [|[k' v] m IH]; simpl; [set_solver|].
  destruct (lt k' k) eqn:E1; [set_solver|].
  destruct (lt k k') eqn:E2; [set_solver|].
  rewrite !elem_of_cons. intros [->|?]; [|tauto]. right. right. set_solver.
Qed.

Lemma map_adjust_elem m k f p :
  p ∈ map_adjust lt m k f ->
  p ∈ m \/ exists v v', (p.1, v) ∈ m /\ f v = Some v' /\ p.2 = v' /\
                        lt p.1 k = false /\ lt k p.1 = false.
Proof.
  induction m as [|[k' v] m IH]; simpl; [set_solver|].
  destruct (lt k' k) eqn:E1; [set_solver|].
  destruct (lt k k') eqn:E2; [set_solver|].
  destruct (f v) as [v'|] eqn:E3; rewrite ?elem_of_cons; [|tauto].
  intros [->|?]; [|tauto]. right. exists v, v'. set_solver.
Qed.

Lemma map_upsert_keys_in m k d f : D k -> keys_in m -> keys_in (map_upsert lt m k d f).
Proof.
  unfold keys_in. rewrite !Forall_forall. intros Hk Hm p Hp.
  destruct (map_upsert_elem _ _ _ _ _ Hp) as [?|[->|(k'&v&?&->&_)]]; [auto|done|].
  by apply (Hm (k', v)).
Qed.

Lemma map_adjust_keys_in m k f : keys_in m -> keys_in (map_adjust lt m k f).
Proof.
  unfold keys_in. rewrite !Forall_forall. intros Hm p Hp.
  destruct (map_adjust_elem _ _ _ _ Hp) as [?|(v&v'&?&_)]; [auto|by apply (Hm (p.1, v))].
Qed.

Lemma map_upsert_sorted m k d f :
  D k -> keys_in m -> map_sorted lt m -> map_sorted lt (map_upsert lt m k d f).
Proof.
  unfold keys_in, map_sorted. intros Hk HD Hs.
  induction Hs as [|[k' v] m Hs IH Hall]; simpl; [by repeat constructor|].
  apply Forall_cons in HD as [Hk' HD]. specialize (IH HD).
  destruct (lt k' k) eqn:E1; [|destruct (lt k k') eqn:E2].
  - constructor; [done|]. apply Forall_forall. intros p Hp.
    rewrite Forall_forall in Hall.
    destruct (map_upsert_elem _ _ _ _ _ Hp) as [?|[->|(k''&v'&Hin&->&_)]];
      [by apply Hall|done|]. by apply (Hall _ Hin).
  - repeat (constructor; try done). rewrite !Forall_forall in *. intros [k'' v''] Hin.
    apply (swo_trans k k' k''); try done; [by apply (HD _ Hin)|by apply (Hall _ Hin)].
  - by constructor.
Qed.

Lemma map_adjust_sorted m k f :
  map_sorted lt m -> map_sorted lt (map_adjust lt m k f).
Proof.
  unfold map_sorted. intros Hs.
  induction Hs as [|[k' v] m Hs IH Hall]; simpl; [constructor|].
  destruct (lt k' k); [|destruct (lt k k'); [|destruct (f v)]]; try (done || by constructor).
  constructor; [done|]. rewrite Forall_forall in Hall. apply Forall_forall. intros p Hp.
  destruct (map_adjust_elem _ _ _ _ Hp) as [?|(v0&v'&Hin&_)]; [auto|by apply (Hall _ Hin)].
Qed.

(** Lookup after an insertion: the value at an equivalent key is the updated
    one, other keys are untouched. *)
Lemma map_find_upsert_equiv m k d f k' :
  D k -> D k' -> keys_in m -> map_sorted lt m -> lt k k' = false -> lt k' k = false ->
  map_find lt (map_upsert lt m k d f) k' = Some (f (default d (map_find lt m k))).
Proof.
  intros Hk Hk' HD Hs E E'. induction m as [|[k0 v] m IH]; simpl.
  { by rewrite E, E'. }
  apply Forall_cons in HD as [Hk0 HD]. apply StronglySorted_inv in Hs as [Hs _].
  destruct (lt k0 k) eqn:E1; [|destruct (lt k k0) eqn:E2]; simpl.
  - rewrite (swo_lt_incomp k0 k k') by done. by apply IH.
  - by rewrite E, E'.
  - by rewrite (swo_incomp k0 k k'), (swo_incomp k' k k0) by done.
Qed.

Lemma map_find_sorted_None m k :
  D k -> keys_in m -> Forall (fun p => lt k p.1 = true) m -> map_find lt m k = None.
Proof.
  intros Hk HD Hall. destruct m as [|[k0 v] m]; [done|]. simpl.
  apply Forall_cons in HD as [Hk0 _]. apply Forall_cons in Hall as [Hlt _]. simpl in Hlt.
  by rewrite (swo_asym k k0), Hlt by done.
Qed.

Lemma map_find_elem m k v : map_find lt m k = Some v ->
  exists k', (k', v) ∈ m /\ lt k' k = false /\ lt k k' = false.
Proof.
  induction m as [|[k0 v0] m IH]; simpl; [done|].
  destruct (lt k0 k) eqn:E1; [set_solver|].
  destruct (lt k k0) eqn:E2; [done|]. intros [= ->]. set_solver.
Qed.

Lemma elem_map_find m k k' v :
  D k -> keys_in m -> map_sorted lt m ->
  (k', v) ∈ m -> lt k' k = false -> lt k k' = false -> map_find lt m k = Some v.
Proof.
  intros Hk HD Hs Hin E1 E2. induction Hs as [|[k0 v0] m Hs IH Hall]; [set_solver|]. simpl.
  apply Forall_cons in HD as [Hk0 HD].
  apply elem_of_cons in Hin as [[= -> ->]|Hin]; [by rewrite E1, E2|].
  rewrite Forall_forall in Hall. specialize (Hall _ Hin). simpl in Hall.
  assert (D k') as Hk' by (unfold keys_in in HD; rewrite Forall_forall in HD; by apply (HD _ Hin)).
  rewrite (swo_lt_incomp k0 k' k) by done. by apply IH.
Qed.
End laws.
