(* ===== verification/Order.v ===== *)
(** * Orders, trades and symbols ([include/order.hpp])

    The plain data of the system, with the source's fields and default values,
    and the fixed-width symbol field with its two accessors. *)

From Stdlib Require Export Ascii.
From S2P Require Import Prelude Double.

Inductive Side := BUY | SELL.
Inductive OrderType := LIMIT | MARKET.

#[global] Instance Side_eq_dec : EqDecision Side.
Proof. solve_decision. Defined.
#[global] Instance OrderType_eq_dec : EqDecision OrderType.
Proof. solve_decision. Defined.

(** [constexpr size_t kSymbolLen = 8]. *)
Definition kSymbolLen : nat := 8.

Abbreviation char := ascii.
Definition NUL : char := Ascii.zero.

(** [struct Order]; [symbol] is [char symbol[kSymbolLen]]. *)
Record Order := mkOrder {
  order_id : Z;
  client_id : Z;
  side : Side;
  type : OrderType;
  symbol : list char;
  price : double;
  quantity : Z;
  remaining_quantity : Z;
  timestamp : Z
}.

(** [struct Trade]. *)
Record Trade := mkTrade {
  buy_order_id : Z;
  sell_order_id : Z;
  trade_price : double;
  trade_quantity : Z;
  trade_timestamp : Z
}.

#[global] Instance Order_eq_dec : EqDecision Order.
Proof. solve_decision. Defined.
#[global] Instance Trade_eq_dec : EqDecision Trade.
Proof. solve_decision. Defined.

(** The value of [Order o;]: the default member initialisers. *)
Definition default_order : Order :=
  mkOrder 0 0 BUY LIMIT (replicate kSymbolLen NUL) (d_of_Z 0) 0 0 0.

(** Assignments to single fields. *)
Definition with_remaining (o : Order) (r : Z) : Order :=
  mkOrder (order_id o) (client_id o) (side o) (type o) (symbol o) (price o)
          (quantity o) r (timestamp o).

Definition with_timestamp (o : Order) (t : Z) : Order :=
  mkOrder (order_id o) (client_id o) (side o) (type o) (symbol o) (price o)
          (quantity o) (remaining_quantity o) t.

Definition with_symbol (o : Order) (s : list char) : Order :=
  mkOrder (order_id o) (client_id o) (side o) (type o) s (price o)
          (quantity o) (remaining_quantity o) (timestamp o).

(** ** Symbols *)

(** [std::memset(symbol, 0, kSymbolLen)] then [std::memcpy] of the first
    [min(s.size(), kSymbolLen)] characters. *)
Definition set_symbol (o : Order) (s : string) : Order :=
  let n := Nat.min (String.length s) kSymbolLen in
  with_symbol o (take n (String.list_ascii_of_string s) ++ drop n (replicate kSymbolLen NUL)).

(** [strnlen(p, n)]: the number of characters before the first NUL, at most [n]. *)
Fixpoint strnlen (p : list char) (n : nat) : nat :=
  match n, p with
  | S n', c :: p' => if Ascii.eqb c NUL then 0%nat else S (strnlen p' n')
  | _, _ => 0%nat
  end.

(** [std::string(symbol, strnlen(symbol, kSymbolLen))]. *)
Definition symbol_str (o : Order) : string :=
  String.string_of_list_ascii (take (strnlen (symbol o) kSymbolLen) (symbol o)).

(** [to_string(Side)] and [to_string(OrderType)]. *)
Definition to_string_side (s : Side) : string :=
  match s with BUY => "BUY" | SELL => "SELL" end.
Definition to_string_type (t : OrderType) : string :=
  match t with LIMIT => "LIMIT" | MARKET => "MARKET" end.

(** ** Well-typed orders: every field is in the range of its C++ type. *)

Definition order_wt (o : Order) : Prop :=
  u64 (order_id o) /\ u64 (client_id o) /\ length (symbol o) = kSymbolLen /\
  u64 (quantity o) /\ u64 (remaining_quantity o) /\ u64 (timestamp o).

#[global] Instance order_wt_dec o : Decision (order_wt o).
Proof. unfold order_wt. apply _. Defined.

(** ** Facts about symbols *)

(** A string without NUL characters. *)
Definition no_nul (s : string) : Prop :=
  Forall (fun c => c <> NUL) (String.list_ascii_of_string s).

#[global] Instance no_nul_dec s : Decision (no_nul s).
Proof. unfold no_nul. apply _. Defined.

Lemma length_list_ascii s : length (String.list_ascii_of_string s) = String.length s.
Proof. induction s; simpl; congruence. Qed.

Lemma set_symbol_length o s : length (symbol (set_symbol o s)) = kSymbolLen.
Proof.
  unfold set_symbol, with_symbol. cbn [symbol].
  rewrite length_app, length_take, length_drop, length_replicate, length_list_ascii.
  unfold kSymbolLen. lia.
Qed.

Lemma strnlen_le p n : (strnlen p n <= n)%nat.
Proof. revert p. induction n as [|n IH]; intros [|c p]; simpl; try lia. case_match; [lia|]. specialize (IH p). lia. Qed.

Lemma strnlen_app p k n :
  Forall (fun c => c <> NUL) p -> (length p <= n)%nat ->
  strnlen (p ++ k) n = (length p + strnlen k (n - length p))%nat.
Proof.
  revert n. induction p as [|c p IH]; intros n Hp Hn; simpl in *.
  { by rewrite Nat.sub_0_r. }
  apply Forall_cons in Hp as [Hc Hp]. destruct n as [|n]; [lia|].
  destruct (Ascii.eqb_spec c NUL); [done|]. rewrite IH by (done || lia). simpl. lia.
Qed.

Lemma strnlen_nuls n m : strnlen (replicate n NUL) m = 0%nat.
Proof. by destruct n, m. Qed.

(** Reading back a symbol of at most eight characters, none of them NUL. *)
Lemma symbol_str_set_symbol_short o s :
  no_nul s -> (String.length s <= kSymbolLen)%nat -> symbol_str (set_symbol o s) = s.
Proof.
  intros Hs Hl. unfold symbol_str, set_symbol, with_symbol. cbn [symbol].
  rewrite Nat.min_l by done.
  rewrite (take_ge (String.list_ascii_of_string s)) by (rewrite length_list_ascii; done).
  rewrite drop_replicate, strnlen_app by (rewrite ?length_list_ascii; done).
  rewrite strnlen_nuls, Nat.add_0_r, take_app_length.
  apply String.string_of_list_ascii_of_string.
Qed.
