(* ===== verification/PriceCollar.v ===== *)
(** * The price collar ([include/price_collar.hpp], [src/price_collar.cpp]) *)

From Stdlib Require Import SpecFloat.
From S2P Require Import Prelude Double Rounding.

Inductive RejectReason := NONE | PRICE_TOO_HIGH | PRICE_TOO_LOW.

#[global] Instance RejectReason_eq_dec : EqDecision RejectReason.
Proof. solve_decision. Defined.

Record CollarResult := mkCollarResult { accepted : bool; reason : RejectReason }.

Record PriceCollar := mkPriceCollar { band_fraction_ : double }.

(** The constructor: [band_fraction_(band_percent / 100.0)]. *)
Definition new_PriceCollar (band_percent : double) : PriceCollar :=
  mkPriceCollar (ddiv band_percent (d_of_Z 100)).

(** The bounds of the band around a reference price. *)
Definition collar_band (c : PriceCollar) (ref : double) : double := dmul ref (band_fraction_ c).
Definition collar_lo (c : PriceCollar) (ref : double) : double := dsub ref (collar_band c ref).
Definition collar_hi (c : PriceCollar) (ref : double) : double := dadd ref (collar_band c ref).

(** [PriceCollar::check]. *)
Definition check (c : PriceCollar) (order_price : double) (last_price : option double)
  : CollarResult :=
  match last_price with
  | None => mkCollarResult true NONE
  | Some ref =>
      if dgt order_price (collar_hi c ref) then mkCollarResult false PRICE_TOO_HIGH
      else if dlt order_price (collar_lo c ref) then mkCollarResult false PRICE_TOO_LOW
      else mkCollarResult true NONE
  end.

(** ** Properties *)

(** Orders the band accepts form an interval. *)
Lemma check_accepts c p ref :
  accepted (check c p (Some ref)) = true <->
  dlt (collar_hi c ref) p = false /\ dlt p (collar_lo c ref) = false.
Proof.
  unfold check, dgt. destruct (dlt (collar_hi c ref) p), (dlt p (collar_lo c ref)); simpl;
    intuition congruence.
Qed.

(** Without a reference price the collar is inactive. *)
Lemma check_inactive c p : check c p None = mkCollarResult true NONE.
Proof. done. Qed.

(** When the lower bound is above the upper one, no number is in the band. *)
Lemma check_inverted c p ref :
  num p -> dlt (collar_hi c ref) (collar_lo c ref) = true -> accepted (check c p (Some ref)) = false.
Proof.
  intros Hp H. destruct (dlt_num _ _ H) as [Hh Hl].
  apply not_true_iff_false. rewrite check_accepts. intros [H1 H2].
  by rewrite (dlt_incomp_l _ p _ Hh Hp Hl H1 H2) in H.
Qed.

(** *** Whole-number prices

    The rounding of the band is settled by evaluation on a range of prices. *)

Definition max_price : Z := 2000.
Definition max_reference : Z := 1000.

(** [f] on every integer from [lo] on, [n] of them. *)
Fixpoint all_from (f : Z -> bool) (lo : Z) (n : nat) : bool :=
  match n with
  | O => true
  | S n' => f lo && all_from f (lo + 1) n'
  end.

Lemma all_from_spec f lo n z :
  all_from f lo n = true -> lo <= z < lo + Z.of_nat n -> f z = true.
Proof.
  revert lo. induction n as [|n IH]; intros lo Hall Hz; [lia|]. cbn [all_from] in Hall.
  apply andb_prop in Hall as [Hlo Hall].
  destruct (Z.eq_dec z lo) as [->|]; [done|]. apply (IH (lo + 1)); [done|lia].
Qed.

Lemma d_of_Z_succ_checked :
  all_from (fun z => dlt (d_of_Z z) (d_of_Z (z + 1))) 0 2001 = true.
Proof. vm_compute. reflexivity. Qed.

Lemma d_of_Z_lt a b : 0 <= a < b -> b <= max_price + 1 -> dlt (d_of_Z a) (d_of_Z b) = true.
Proof.
  unfold max_price. intros Ha Hb.
  pose proof (fun z => all_from_spec _ 0 2001 z d_of_Z_succ_checked) as Hstep.
  replace b with (a + 1 + Z.of_nat (Z.to_nat (b - a - 1))) in Hb |- * by lia.
  induction (Z.to_nat (b - a - 1)) as [|n IH].
  - rewrite Z.add_0_r. apply Hstep. lia.
  - rewrite Nat2Z.inj_succ in *.
    apply (dlt_trans _ (d_of_Z (a + 1 + Z.of_nat n))); [apply IH; lia|].
    replace (a + 1 + Z.succ (Z.of_nat n)) with (a + 1 + Z.of_nat n + 1) by lia. apply Hstep. lia.
Qed.

Lemma d_of_Z_le a b : 0 <= a <= b -> b <= max_price + 1 -> dlt (d_of_Z b) (d_of_Z a) = false.
Proof.
  intros Ha Hb. destruct (Z.eq_dec a b) as [->|]; [apply dlt_irrefl|].
  apply dlt_asym, d_of_Z_lt; lia.
Qed.

Definition default_collar : PriceCollar := new_PriceCollar (d_of_Z 10).

(** The whole numbers next to the two ends of the band of a reference. *)
Definition band_ends_ok (ref : Z) : bool :=
  let hi := collar_hi default_collar (d_of_Z ref) in
  let lo := collar_lo default_collar (d_of_Z ref) in
  let d := ref / 10 in
  negb (is_nan hi) && negb (is_nan lo) &&
  negb (dlt hi (d_of_Z (ref + d))) && dlt hi (d_of_Z (ref + d + 1)) &&
  negb (dlt (d_of_Z (ref - d)) lo) && ((ref - d - 1 <? 0) || dlt (d_of_Z (ref - d - 1)) lo).

Lemma band_ends_checked : all_from band_ends_ok 1 1000 = true.
Proof. vm_compute. reflexivity. Qed.

Lemma band_ends ref :
  1 <= ref <= max_reference ->
  let hi := collar_hi default_collar (d_of_Z ref) in
  let lo := collar_lo default_collar (d_of_Z ref) in
  let d := ref / 10 in
  num hi /\ num lo /\
  dlt hi (d_of_Z (ref + d)) = false /\ dlt hi (d_of_Z (ref + d + 1)) = true /\
  dlt (d_of_Z (ref - d)) lo = false /\ (ref - d - 1 < 0 \/ dlt (d_of_Z (ref - d - 1)) lo = true).
Proof.
  unfold max_reference. intros Hr.
  pose proof (all_from_spec _ 1 1000 ref band_ends_checked ltac:(lia)) as H. unfold band_ends_ok in H.
  repeat rewrite andb_true_iff in H. rewrite orb_true_iff, Z.ltb_lt, !negb_true_iff in H. tauto.
Qed.

(** Below, inside and above the band. *)
Lemma band_high ref p :
  1 <= ref <= max_reference -> 0 <= p <= max_price ->
  dlt (collar_hi default_collar (d_of_Z ref)) (d_of_Z p) = (ref + ref / 10 <? p).
Proof.
  intros Hr Hp. destruct (band_ends ref Hr) as (Hh & _ & H1 & H2 & _ & _).
  unfold max_price, max_reference in *. pose proof (Z.div_mod ref 10 ltac:(lia)).
  pose proof (Z.mod_pos_bound ref 10 ltac:(lia)).
  assert (forall z, 0 <= z <= 2001 -> num (d_of_Z z)) as Hnum by (intros; apply d_of_Z_num).
  destruct (Z.ltb_spec (ref + ref / 10) p) as [Hlt|Hge].
  - apply (dlt_le_trans _ (d_of_Z (ref + ref / 10 + 1))); [done|apply Hnum; lia..|done|].
    apply d_of_Z_le; unfold max_price; lia.
  - apply (dlt_incomp_l _ (d_of_Z (ref + ref / 10))); [done|apply Hnum; lia..|done|].
    apply d_of_Z_le; unfold max_price; lia.
Qed.

Lemma band_low ref p :
  1 <= ref <= max_reference -> 0 <= p <= max_price ->
  dlt (d_of_Z p) (collar_lo default_collar (d_of_Z ref)) = (p <? ref - ref / 10).
Proof.
  intros Hr Hp. destruct (band_ends ref Hr) as (_ & Hl & _ & _ & H1 & H2).
  unfold max_price, max_reference in *. pose proof (Z.div_mod ref 10 ltac:(lia)).
  pose proof (Z.mod_pos_bound ref 10 ltac:(lia)).
  assert (forall z, 0 <= z <= 2001 -> num (d_of_Z z)) as Hnum by (intros; apply d_of_Z_num).
  destruct (Z.ltb_spec p (ref - ref / 10)) as [Hlt|Hge].
  - destruct H2 as [H2|H2]; [lia|].
    apply (dle_lt_trans _ (d_of_Z (ref - ref / 10 - 1))); [apply Hnum; lia..|done| |done].
    apply d_of_Z_le; unfold max_price; lia.
  - apply (dlt_incomp_l _ (d_of_Z (ref - ref / 10))); [apply Hnum; lia..|done| |done].
    apply d_of_Z_le; unfold max_price; lia.
Qed.

(** With the default 10% band, for every whole last price from 1 to 1000 and
    every whole order price up to 2000, the collar accepts the order exactly when
    its distance from the last price is at most a tenth of it, both ends
    included, and otherwise says on which side it lies: the binary64 rounding of
    the band never misjudges such a price. *)
Theorem collar_whole_prices ref p :
  1 <= ref <= max_reference -> 0 <= p <= max_price ->
  check (new_PriceCollar (d_of_Z 10)) (d_of_Z p) (Some (d_of_Z ref)) =
    if ref <? 10 * (p - ref) then mkCollarResult false PRICE_TOO_HIGH
    else if ref <? 10 * (ref - p) then mkCollarResult false PRICE_TOO_LOW
    else mkCollarResult true NONE.
Proof.
  intros Hr Hp. fold default_collar. unfold check, dgt.
  rewrite (band_high ref p Hr Hp), (band_low ref p Hr Hp).
  pose proof (Z.div_mod ref 10 ltac:(lia)). pose proof (Z.mod_pos_bound ref 10 ltac:(lia)).
  destruct (Z.ltb_spec (ref + ref / 10) p), (Z.ltb_spec p (ref - ref / 10)),
    (Z.ltb_spec ref (10 * (p - ref))), (Z.ltb_spec ref (10 * (ref - p))); (done || lia).
Qed.

Lemma band_inverted_checked :
  all_from (fun z => dlt (collar_hi default_collar (d_of_Z z)) (collar_lo default_collar (d_of_Z z)))
    (- max_reference) 1000 = true.
Proof. vm_compute. reflexivity. Qed.

(** Whole negative last prices reject every number. *)
Lemma collar_negative_whole ref p :
  - max_reference <= ref <= -1 -> num p ->
  accepted (check default_collar p (Some (d_of_Z ref))) = false.
Proof.
  intros Hr Hp. apply check_inverted; [done|].
  apply (all_from_spec _ _ _ ref band_inverted_checked). unfold max_reference in *. lia.
Qed.

(** *** Arbitrary prices *)

(** A band of at most the whole price. *)
Definition band_proper (c : PriceCollar) : Prop :=
  dfin (band_fraction_ c) /\ 0 <= dval (band_fraction_ c) <= dval (d_of_Z 1).

#[global] Instance band_proper_dec c : Decision (band_proper c).
Proof. unfold band_proper. apply _. Defined.

Lemma dval_1 : dval (d_of_Z 1) = pow2 0.
Proof. vm_compute. reflexivity. Qed.

(** The band is the rounded product, between zero and the reference. *)
Lemma band_bounds c ref :
  band_proper c -> dfin ref ->
  let b := collar_band c ref in
  dfin b /\ (exists v, v * dval (d_of_Z 1) = dval ref * dval (band_fraction_ c) /\ near v b) /\
  (0 <= dval ref -> 0 <= dval b <= dval ref) /\ (dval ref <= 0 -> dval ref <= dval b <= 0).
Proof.
  rewrite dval_1. intros [Hf Hfr] Href b. rewrite dval_1 in Hfr.
  destruct (dmul_near ref (band_fraction_ c) Href Hf) as (v & Hv & Hnear). fold b in Hnear.
  pose proof (pow2_pos 0 ltac:(lia)) as HP.
  assert (0 <= dval ref -> 0 <= v <= dval ref) as Hpos by nia.
  assert (dval ref <= 0 -> dval ref <= v <= 0) as Hneg by nia.
  pose proof (near_between v b (S754_zero false) ref Hnear I Href) as H1.
  pose proof (near_between v b ref (S754_zero false) Hnear Href I) as H2. cbn [dval] in H1, H2.
  split_and!; [|eauto|intros; apply H1; auto|intros; apply H2; auto].
  destruct (Z.le_ge_cases 0 (dval ref)); [apply H1|apply H2]; auto.
Qed.

(** C26: the collar is exact.  For every finite last price that is not negative,
    every band between 0 and 100% and every finite order price, the order is
    accepted exactly when its price lies in the band in exact arithmetic, or is
    the rounded bound itself; the band is the rounded product of price and
    fraction and lies between zero and the price.  So the last price is always
    acceptable, and no rounding or overflow rejects a price inside the band. *)
Theorem collar_exact c ref p :
  band_proper c -> dfin ref -> 0 <= dval ref -> dfin p ->
  let b := collar_band c ref in
  (dfin b /\ 0 <= dval b <= dval ref /\
   exists v, v * dval (d_of_Z 1) = dval ref * dval (band_fraction_ c) /\ near v b) /\
  (accepted (check c p (Some ref)) = true <->
    (dval p <= dval ref + dval b \/ p ≡ᵖ collar_hi c ref) /\
    (dval ref - dval b <= dval p \/ p ≡ᵖ collar_lo c ref)) /\
  accepted (check c ref (Some ref)) = true.
Proof.
  intros Hc Href Hpos Hp b. destruct (band_bounds c ref Hc Href) as (Hb & Hv & Hb0 & _). fold b in Hb, Hv, Hb0.
  specialize (Hb0 Hpos).
  assert (forall p, dfin p -> accepted (check c p (Some ref)) = true <->
    (dval p <= dval ref + dval b \/ p ≡ᵖ collar_hi c ref) /\
    (dval ref - dval b <= dval p \/ p ≡ᵖ collar_lo c ref)) as Hacc.
  { intros p' Hp'. rewrite check_accepts. unfold collar_hi, collar_lo. fold b.
    by rewrite (near_upper _ _ _ (dadd_near ref b Href Hb)), (near_lower _ _ _ (dsub_near ref b Href Hb)). }
  split_and!; [done|lia..|done|by apply Hacc|]. apply Hacc; [done|]. lia.
Qed.

Lemma collar_exact_witness :
  let c := new_PriceCollar (d_of_Z 10) in
  let ref := ddiv (d_of_Z 1999) (d_of_Z 100) in
  let p := ddiv (d_of_Z 2199) (d_of_Z 100) in
  let b := collar_band c ref in
  (dfin b /\ 0 <= dval b <= dval ref /\
   exists v, v * dval (d_of_Z 1) = dval ref * dval (band_fraction_ c) /\ near v b) /\
  (accepted (check c p (Some ref)) = true <->
    (dval p <= dval ref + dval b \/ p ≡ᵖ collar_hi c ref) /\
    (dval ref - dval b <= dval p \/ p ≡ᵖ collar_lo c ref)) /\
  accepted (check c ref (Some ref)) = true.
Proof.
  apply (collar_exact (new_PriceCollar (d_of_Z 10)) (ddiv (d_of_Z 1999) (d_of_Z 100))
           (ddiv (d_of_Z 2199) (d_of_Z 100)));
    apply (bool_decide_unpack _); vm_compute; exact I.
Defined.

(** Around a negative last price the band is inverted, its lower bound not
    below the price and its upper bound not above it.  A price is accepted only
    if it equals the last price and the band has vanished by rounding: for any
    other last price the collar rejects every number. *)
Theorem collar_negative_reference c ref p :
  band_proper c -> dfin ref -> dval ref < 0 -> num p ->
  accepted (check c p (Some ref)) = true <->
  p ≡ᵖ ref /\ collar_hi c ref ≡ᵖ ref /\ collar_lo c ref ≡ᵖ ref.
Proof.
  intros Hc Href Hneg Hp. destruct (band_bounds c ref Hc Href) as (Hb & _ & _ & Hb0).
  specialize (Hb0 ltac:(lia)). pose proof (dfin_num ref Href) as Hr.
  pose proof (dadd_near ref _ Href Hb) as (_ & Hhn & Hh). destruct (Hh ref Href) as [_ Hhi].
  pose proof (dsub_near ref _ Href Hb) as (_ & Hln & Hl). destruct (Hl ref Href) as [Hlo _].
  fold (collar_hi c ref) in *. fold (collar_lo c ref) in *.
  specialize (Hhi ltac:(lia)). specialize (Hlo ltac:(lia)). rewrite check_accepts. split.
  - intros [H1 H2].
    split_and!; apply dlt_incomp_dequiv; try done; eauto using dlt_incomp_l.
  - intros (-> & -> & ->). by rewrite dlt_irrefl.
Qed.
