(* ===== verification/OrderBook.v ===== *)
(** * The order book ([include/order_book.hpp], [src/order_book.cpp]) *)

From S2P Require Import Prelude Double StdMap Order.

(** ** Definitions *)

(** [std::greater<double>] and [std::less<double>]. *)
Definition greater (x y : double) : bool := dgt x y.
Definition less (x y : double) : bool := dlt x y.

Abbreviation level := (double * list Order)%type.

Record CancelInfo := mkCancelInfo { ci_side : Side; ci_price : double }.

Record OrderBook := mkOrderBook {
  bids_ : list level;
  asks_ : list level;
  cancel_index_ : gmap Z CancelInfo
}.

Definition empty_book : OrderBook := mkOrderBook [] [] ∅.

Definition with_index (b : OrderBook) (ix : gmap Z CancelInfo) : OrderBook :=
  mkOrderBook (bids_ b) (asks_ b) ix.

(** The comparator and the map of one side. *)
Definition side_lt (s : Side) : double -> double -> bool :=
  match s with BUY => greater | SELL => less end.

Definition levels (s : Side) (b : OrderBook) : list level :=
  match s with BUY => bids_ b | SELL => asks_ b end.

Definition with_levels (s : Side) (b : OrderBook) (m : list level) : OrderBook :=
  match s with
  | BUY => mkOrderBook m (asks_ b) (cancel_index_ b)
  | SELL => mkOrderBook (bids_ b) m (cancel_index_ b)
  end.

(** [OrderBook::add_resting_order]. *)
Definition add_resting_order (b : OrderBook) (o : Order) : OrderBook :=
  let id := order_id o in
  let s := side o in
  let p := price o in
  let b :=
    match s with
    | BUY => with_levels BUY b (map_upsert greater (bids_ b) p [] (fun dq => dq ++ [o]))
    | SELL => with_levels SELL b (map_upsert less (asks_ b) p [] (fun dq => dq ++ [o]))
    end in
  with_index b (<[id := mkCancelInfo s p]> (cancel_index_ b)).

(** The scan of a deque in [cancel_order]: erases the first order with the id;
    [None] when the scan reaches the end. *)
Fixpoint erase_id (order_id_ : Z) (dq : list Order) : option (list Order) :=
  match dq with
  | [] => None
  | o :: dq' =>
      if order_id o =? order_id_ then Some dq'
      else cons o <$> erase_id order_id_ dq'
  end.

(** What [cancel_order] does with the level it found: the order is erased, and
    the level with it when it was its last one. *)
Definition cancel_in_level (order_id_ : Z) (dq : list Order) : option (list Order) :=
  match erase_id order_id_ dq with
  | None => Some dq
  | Some [] => None
  | Some dq' => Some dq'
  end.

(** [OrderBook::cancel_order]. *)
Definition cancel_order (b : OrderBook) (order_id_ : Z) : OrderBook * bool :=
  match cancel_index_ b !! order_id_ with
  | None => (b, false)
  | Some ci =>
      let b :=
        match ci_side ci with
        | BUY => with_levels BUY b
                   (map_adjust greater (bids_ b) (ci_price ci) (cancel_in_level order_id_))
        | SELL => with_levels SELL b
                    (map_adjust less (asks_ b) (ci_price ci) (cancel_in_level order_id_))
        end in
      (with_index b (delete order_id_ (cancel_index_ b)), true)
  end.

(** [best_bid], [best_ask], [empty_side], [remove_from_index]. *)
Definition best_bid (b : OrderBook) : option double := fst <$> head (bids_ b).
Definition best_ask (b : OrderBook) : option double := fst <$> head (asks_ b).

Definition empty_side (b : OrderBook) (s : Side) : bool :=
  match s with
  | BUY => match bids_ b with [] => true | _ => false end
  | SELL => match asks_ b with [] => true | _ => false end
  end.

Definition remove_from_index (b : OrderBook) (order_id_ : Z) : OrderBook :=
  with_index b (delete order_id_ (cancel_index_ b)).

(** ** The resting orders of a side, in the order they are matched *)

Definition resting (s : Side) (b : OrderBook) : list Order := concat (levels s b).*2.

(** ** Well-formed sides

    A resting order is a limit order of its side, at a price equivalent to the
    key of its level, with something left to fill.  A level is never empty, and
    the levels are sorted by the comparator of the side. *)

Definition resting_ok (s : Side) (k : double) (o : Order) : Prop :=
  side o = s /\ type o = LIMIT /\ price o ≡ᵖ k /\
  0 < remaining_quantity o <= quantity o /\ u64 (quantity o).

Definition level_ok (s : Side) (l : level) : Prop :=
  num l.1 /\ l.2 <> [] /\ Forall (resting_ok s l.1) l.2.

Definition side_ok (s : Side) (m : list level) : Prop :=
  Forall (level_ok s) m /\ map_sorted (side_lt s) m.

Definition book_ok (b : OrderBook) : Prop := forall s, side_ok s (levels s b).

(** ** The comparators are strict weak orders on numbers *)

#[global] Instance less_swo : StrictWeakOrder num less.
Proof.
  unfold less. split.
  - intros x _. apply dlt_irrefl.
  - intros x y z _ _ _. apply dlt_trans.
  - apply dlt_incomp_l.
Qed.

#[global] Instance greater_swo : StrictWeakOrder num greater.
Proof.
  unfold greater, dgt. split.
  - intros x _. apply dlt_irrefl.
  - intros x y z _ _ _ H1 H2. by eapply dlt_trans.
  - intros x y z ??? H1 H2. by eapply (dlt_incomp_l z y x).
Qed.

#[global] Instance side_lt_swo s : StrictWeakOrder num (side_lt s).
Proof. destruct s; apply _. Qed.

#[global] Instance side_lt_proper s : Proper (dequiv ==> dequiv ==> eq) (side_lt s).
Proof.
  intros x x' Hx y y' Hy. destruct s; simpl; unfold greater, less, dgt; by apply dlt_proper.
Qed.

Lemma side_lt_incomp_dequiv s x y :
  num x -> num y -> side_lt s x y = false -> side_lt s y x = false -> x ≡ᵖ y.
Proof. destruct s; simpl; unfold greater, less, dgt; auto using dlt_incomp_dequiv. Qed.

Lemma side_lt_irrefl s x : side_lt s x x = false.
Proof. destruct s; apply dlt_irrefl. Qed.
