(* ===== verification/MatchingEngine.v ===== *)
(** * The matching engine ([include/matching_engine.hpp], [src/matching_engine.cpp]) *)

From S2P Require Import Prelude Double StdMap Order PriceCollar OrderBook.

Record Rejection := mkRejection { rej_order_id : Z; rej_reason : RejectReason }.

(** [std::variant<std::vector<Trade>, Rejection>]. *)
Definition SubmitResult : Type := list Trade + Rejection.

Record MatchingEngine := mkEngine {
  book_ : OrderBook;
  collar_ : PriceCollar;
  last_price_ : option double;
  next_timestamp_ : Z
}.

(** The constructor, and its default argument. *)
Definition new_MatchingEngine (collar_band_percent : double) : MatchingEngine :=
  mkEngine empty_book (new_PriceCollar collar_band_percent) None 1.

Definition default_band : double := d_of_Z 10.

Definition with_book (e : MatchingEngine) (b : OrderBook) : MatchingEngine :=
  mkEngine b (collar_ e) (last_price_ e) (next_timestamp_ e).

(** [next_timestamp_++]. *)
Definition tick (e : MatchingEngine) : MatchingEngine :=
  mkEngine (book_ e) (collar_ e) (last_price_ e) (next_timestamp_ e +ᵤ 1).

Definition opposite (s : Side) : Side := match s with BUY => SELL | SELL => BUY end.

(** ** The matching loop *)

(** The variables live in the loop: the engine, and the [incoming] order and
    [trades] vector passed by reference. *)
Record match_state := mkMatch {
  m_engine : MatchingEngine;
  m_incoming : Order;
  m_trades : list Trade
}.

Inductive control (A : Type) := Break (a : A) | Continue (a : A).
Arguments Break {A} a.
Arguments Continue {A} a.

(** The two [break]s of the limit test. *)
Definition limit_breaks (incoming : Order) (resting_price : double) : bool :=
  match type incoming with
  | LIMIT =>
      match side incoming with
      | BUY => dlt (price incoming) resting_price
      | SELL => dgt (price incoming) resting_price
      end
  | MARKET => false
  end.

(** The [Trade] between the incoming order and the front of the best level. *)
Definition make_trade (incoming front : Order) (fill ts : Z) : Trade :=
  match side incoming with
  | BUY => mkTrade (order_id incoming) (order_id front) (price front) fill ts
  | SELL => mkTrade (order_id front) (order_id incoming) (price front) fill ts
  end.

(** One evaluation of the loop condition and, when it holds, of the body.
    [opp] names the map the reference [opposite] is bound to; [dq.front()] on an
    empty deque is undefined behaviour. *)
Definition match_body (opp : Side) (st : match_state) : outcome (control match_state) :=
  let e := m_engine st in
  let incoming := m_incoming st in
  if negb (0 <? remaining_quantity incoming) then Ret (Break st)
  else match levels opp (book_ e) with
  | [] => Ret (Break st)
  | (resting_price, dq) :: rest =>
      if limit_breaks incoming resting_price then Ret (Break st)
      else match dq with
      | [] => Undef
      | front :: dq' =>
          let fill := Z.min (remaining_quantity incoming) (remaining_quantity front) in
          let t := make_trade incoming front fill (next_timestamp_ e) in
          let incoming' := with_remaining incoming (remaining_quantity incoming -ᵤ fill) in
          let front' := with_remaining front (remaining_quantity front -ᵤ fill) in
          let b' :=
            if remaining_quantity front' =? 0 then
              with_levels opp (remove_from_index (book_ e) (order_id front'))
                match dq' with
                | [] => rest
                | _ => (resting_price, dq') :: rest
                end
            else with_levels opp (book_ e) ((resting_price, front' :: dq') :: rest) in
          Ret (Continue
            (mkMatch (mkEngine b' (collar_ e) (Some (price front)) (next_timestamp_ e +ᵤ 1))
                     incoming' (m_trades st ++ [t])))
      end
  end.

(** [MatchingEngine::match_against], with fuel for the [while] loop. *)
Fixpoint match_against (fuel : nat) (opp : Side) (st : match_state) : outcome match_state :=
  match fuel with
  | O => NoFuel
  | S fuel' =>
      c ← match_body opp st;
      match c with
      | Break st' => Ret st'
      | Continue st' => match_against fuel' opp st'
      end
  end.

(** Enough iterations: one per order of the opposite side, and the last test. *)
Definition match_fuel (opp : Side) (e : MatchingEngine) : nat :=
  S (length (resting opp (book_ e))).

(** ** The operations *)

(** [MatchingEngine::submit_order]. *)
Definition submit_order (e : MatchingEngine) (o : Order)
  : outcome (MatchingEngine * SubmitResult) :=
  let incoming := with_remaining (with_timestamp o (next_timestamp_ e)) (quantity o) in
  let e := tick e in
  let result :=
    match type incoming with
    | LIMIT => check (collar_ e) (price incoming) (last_price_ e)
    | MARKET => mkCollarResult true NONE
    end in
  if negb (accepted result) then
    Ret (e, inr (mkRejection (order_id incoming) (reason result)))
  else
    let opp := opposite (side incoming) in
    st ← match_against (match_fuel opp e) opp (mkMatch e incoming []);
    let e' := m_engine st in
    let incoming' := m_incoming st in
    let rests := (0 <? remaining_quantity incoming') &&
                 match type incoming' with LIMIT => true | MARKET => false end in
    Ret (if rests then with_book e' (add_resting_order (book_ e') incoming') else e',
         inl (m_trades st)).

(** [MatchingEngine::cancel_order] and [MatchingEngine::last_price]. *)
Definition engine_cancel_order (e : MatchingEngine) (order_id_ : Z) : MatchingEngine * bool :=
  let '(b, r) := cancel_order (book_ e) order_id_ in
  (with_book e b, r).

Definition last_price (e : MatchingEngine) : option double := last_price_ e.
