(* ===== verification/Exchange.v ===== *)
(** * The abstract exchange

    The contract of the matching engine: each side is one list of resting orders
    in priority order (price, then arrival); an incoming order walks down the
    opposite list while it has quantity left and its limit allows, and what is
    left of a limit order is inserted in its own list behind every order of an
    equal or better price.  Nothing here knows about price levels, deques, the
    cancel index or machine arithmetic, and every function is total. *)

From S2P Require Import Prelude Double StdMap Order PriceCollar OrderBook MatchingEngine.

(** ** Definitions *)

Record exchange := mkExchange {
  x_bids : list Order;
  x_asks : list Order;
  x_collar : PriceCollar;
  x_last : option double;
  x_next : Z
}.

Definition x_side (s : Side) (x : exchange) : list Order :=
  match s with BUY => x_bids x | SELL => x_asks x end.

Definition x_with_side (s : Side) (x : exchange) (l : list Order) : exchange :=
  match s with
  | BUY => mkExchange l (x_asks x) (x_collar x) (x_last x) (x_next x)
  | SELL => mkExchange (x_bids x) l (x_collar x) (x_last x) (x_next x)
  end.

(** Walks down the opposite list with [q] to fill: the fills (the resting order
    as it was, and the quantity), what is left of the list, and of [q]. *)
Fixpoint walk (incoming : Order) (q : Z) (l : list Order) : list (Order * Z) * list Order * Z :=
  match l with
  | [] => ([], [], q)
  | o :: l' =>
      if (q <=? 0) || limit_breaks incoming (price o) then ([], l, q)
      else if remaining_quantity o <=? q then
        let '(fs, r, q') := walk incoming (q - remaining_quantity o) l' in
        ((o, remaining_quantity o) :: fs, r, q')
      else ([(o, q)], with_remaining o (remaining_quantity o - q) :: l', 0)
  end.

Definition w_fills (w : list (Order * Z) * list Order * Z) : list (Order * Z) := w.1.1.
Definition w_rest (w : list (Order * Z) * list Order * Z) : list Order := w.1.2.
Definition w_left (w : list (Order * Z) * list Order * Z) : Z := w.2.

(** The trades of a list of fills, stamped with consecutive timestamps. *)
Fixpoint stamp (incoming : Order) (ts : Z) (fs : list (Order * Z)) : list Trade :=
  match fs with
  | [] => []
  | (o, q) :: fs' => make_trade incoming o q ts :: stamp incoming (ts +ᵤ 1) fs'
  end.

Fixpoint ticks (ts : Z) (n : nat) : Z :=
  match n with O => ts | S n' => ticks (ts +ᵤ 1) n' end.

(** The price of the last fill, or the previous one. *)
Definition last_fill (p : option double) (fs : list (Order * Z)) : option double :=
  foldl (fun _ f => Some (price f.1)) p fs.

(** Insertion behind every order of an equal or better price. *)
Fixpoint x_insert (s : Side) (o : Order) (l : list Order) : list Order :=
  match l with
  | [] => [o]
  | x :: l' => if side_lt s (price o) (price x) then o :: x :: l' else x :: x_insert s o l'
  end.

(** The order as the engine accepts it. *)
Definition x_arrive (x : exchange) (o : Order) : Order :=
  with_remaining (with_timestamp o (x_next x)) (quantity o).

Definition x_verdict (x : exchange) (o : Order) : CollarResult :=
  match type o with
  | LIMIT => check (x_collar x) (price o) (x_last x)
  | MARKET => mkCollarResult true NONE
  end.

(** The exchange after the walk and before the remainder rests. *)
Definition x_walked (x : exchange) (opp : Side) (w : list (Order * Z) * list Order * Z) : exchange :=
  x_with_side opp
    (mkExchange (x_bids x) (x_asks x) (x_collar x) (last_fill (x_last x) (w_fills w))
       (ticks (x_next x +ᵤ 1) (length (w_fills w)))) (w_rest w).

Definition x_submit (x : exchange) (o : Order) : exchange * SubmitResult :=
  let incoming := x_arrive x o in
  let result := x_verdict x o in
  if accepted result then
    let w := walk incoming (quantity o) (x_side (opposite (side o)) x) in
    let x2 := x_walked x (opposite (side o)) w in
    let x3 := match type o with
              | LIMIT =>
                  if 0 <? w_left w then
                    x_with_side (side o) x2
                      (x_insert (side o) (with_remaining incoming (w_left w)) (x_side (side o) x2))
                  else x2
              | MARKET => x2
              end in
    (x3, inl (stamp incoming (x_next x +ᵤ 1) (w_fills w)))
  else
    (mkExchange (x_bids x) (x_asks x) (x_collar x) (x_last x) (x_next x +ᵤ 1),
     inr (mkRejection (order_id o) (reason result))).

(** Cancelling removes the order of that id, if it rests. *)
Definition x_cancel (x : exchange) (id : Z) : exchange * bool :=
  match erase_id id (x_bids x), erase_id id (x_asks x) with
  | Some l, _ => (x_with_side BUY x l, true)
  | None, Some l => (x_with_side SELL x l, true)
  | None, None => (x, false)
  end.

(** The abstraction of an engine. *)
Definition abs (e : MatchingEngine) : exchange :=
  mkExchange (resting BUY (book_ e)) (resting SELL (book_ e)) (collar_ e)
             (last_price_ e) (next_timestamp_ e).

Lemma x_side_abs s e : x_side s (abs e) = resting s (book_ e).
Proof. by destruct s. Qed.
