(* ===== verification/Refinement.v ===== *)
(** * The matching engine implements the abstract exchange *)

From S2P Require Import Prelude Double StdMap Order PriceCollar OrderBook MatchingEngine Exchange.

(** ** Projections of book updates *)

Lemma levels_with_levels s b m : levels s (with_levels s b m) = m.
Proof. by destruct s. Qed.

Lemma levels_with_levels_opp s b m :
  levels (opposite s) (with_levels s b m) = levels (opposite s) b.
Proof. by destruct s. Qed.

Lemma levels_with_levels_ne s s' b m : s <> s' -> levels s' (with_levels s b m) = levels s' b.
Proof. by destruct s, s'. Qed.

Lemma levels_with_index s b ix : levels s (with_index b ix) = levels s b.
Proof. by destruct s. Qed.

Lemma index_with_levels s b m : cancel_index_ (with_levels s b m) = cancel_index_ b.
Proof. by destruct s. Qed.

Create Rewrite HintDb book.
#[export] Hint Rewrite levels_with_levels levels_with_levels_opp levels_with_index
  index_with_levels : book.

(** ** The front of a side *)

Lemma resting_nil s b : side_ok s (levels s b) -> resting s b = [] -> levels s b = [].
Proof.
  unfold resting. intros [Hl _]. destruct (levels s b) as [|[k dq] m]; [done|].
  apply Forall_cons in Hl as [(_&Hne&_) _]. simpl in *. by destruct dq.
Qed.

Lemma resting_cons s b o l :
  side_ok s (levels s b) -> resting s b = o :: l ->
  exists k dq rest, levels s b = (k, o :: dq) :: rest /\ l = dq ++ concat rest.*2.
Proof.
  unfold resting. intros [Hl _]. destruct (levels s b) as [|[k dq] m]; [done|].
  apply Forall_cons in Hl as [(_&Hne&_) _]. simpl in *. destruct dq as [|o' dq]; [done|].
  intros [= -> <-]. eauto.
Qed.

(** The map after the front order of its first level is gone. *)
Definition pop_level (k : double) (dq : list Order) (rest : list level) : list level :=
  match dq with [] => rest | _ => (k, dq) :: rest end.

Lemma concat_pop_level k dq rest : concat (pop_level k dq rest).*2 = dq ++ concat rest.*2.
Proof. by destruct dq. Qed.

Lemma side_ok_replace s k dq dq' rest :
  side_ok s ((k, dq) :: rest) -> Forall (resting_ok s k) dq' ->
  side_ok s (pop_level k dq' rest).
Proof.
  intros [Hl Hs] Hdq'. apply Forall_cons in Hl as [(Hk&_&_) Hl].
  apply StronglySorted_inv in Hs as [Hs Hall].
  destruct dq' as [|o dq']; [by split|]. split.
  - constructor; [|done]. by repeat split.
  - by constructor.
Qed.

#[global] Instance limit_breaks_proper o : Proper (dequiv ==> eq) (limit_breaks o).
Proof.
  intros p p' Hp. unfold limit_breaks, dgt.
  destruct (type o), (side o); try done; by rewrite Hp.
Qed.

(** ** One iteration of the loop *)

Section body.
Context (opp : Side) (st : match_state).
Let e := m_engine st.
Let q := remaining_quantity (m_incoming st).
Context (Hok : side_ok opp (levels opp (book_ e))) (Hq : u64 q).

Lemma match_body_idle : q <= 0 -> match_body opp st = Ret (Break st).
Proof.
  intros H. unfold match_body. fold e q. by rewrite (proj2 (Z.ltb_ge 0 q)).
Qed.

Lemma match_body_empty : resting opp (book_ e) = [] -> match_body opp st = Ret (Break st).
Proof.
  intros H. unfold match_body. fold e. rewrite (resting_nil _ _ Hok H). by case_match.
Qed.

Context (o : Order) (l : list Order) (Hl : resting opp (book_ e) = o :: l).

Lemma front_resting_ok k dq rest :
  levels opp (book_ e) = (k, o :: dq) :: rest ->
  num k /\ resting_ok opp k o /\ Forall (resting_ok opp k) dq.
Proof.
  intros E. rewrite E in Hok. destruct Hok as [Hf _].
  apply Forall_cons in Hf as [(Hk&_&Hf) _]. by apply Forall_cons in Hf as [??].
Qed.

Lemma match_body_break :
  limit_breaks (m_incoming st) (price o) = true -> match_body opp st = Ret (Break st).
Proof.
  intros H. destruct (resting_cons _ _ _ _ Hok Hl) as (k&dq&rest&E&_).
  destruct (front_resting_ok _ _ _ E) as (_&(_&_&Hp&_)&_).
  unfold match_body. fold e. rewrite E. rewrite Hp in H. rewrite H. by case_match.
Qed.

Context (Hpos : 0 < q) (Hcross : limit_breaks (m_incoming st) (price o) = false).

(** The state after a fill of [f] that leaves the opposite map [m] and the
    cancel index [ix]. *)
Definition after_fill (f : Z) (m : list level) (ix : gmap Z CancelInfo) : match_state :=
  mkMatch (mkEngine (with_levels opp (with_index (book_ e) ix) m) (collar_ e)
             (Some (price o)) (next_timestamp_ e +ᵤ 1))
          (with_remaining (m_incoming st) (q - f))
          (m_trades st ++ [make_trade (m_incoming st) o f (next_timestamp_ e)]).

(** The front order is filled completely and removed. *)
Lemma match_body_fill :
  remaining_quantity o <= q ->
  exists m, match_body opp st =
              Ret (Continue (after_fill (remaining_quantity o) m
                               (delete (order_id o) (cancel_index_ (book_ e))))) /\
            side_ok opp m /\ concat m.*2 = l.
Proof.
  intros Hle. destruct (resting_cons _ _ _ _ Hok Hl) as (k&dq&rest&E&->).
  destruct (front_resting_ok _ _ _ E) as (Hk&(_&_&Hp&[Hr Hr']&Hu)&Hdq).
  exists (pop_level k dq rest). split_and!.
  - unfold match_body. fold e q. rewrite (proj2 (Z.ltb_lt 0 q)) by done. cbn [negb].
    rewrite E. rewrite Hp in Hcross. rewrite Hcross.
    rewrite Z.min_r by done. unfold u64 in *.
    rewrite !sub64_small by (unfold u64; lia). cbn [remaining_quantity with_remaining order_id].
    rewrite Z.sub_diag. cbn [Z.eqb]. unfold after_fill, remove_from_index.
    by destruct dq.
  - rewrite E in Hok. by apply (side_ok_replace _ _ _ _ _ Hok).
  - apply concat_pop_level.
Qed.

(** The front order is filled in part; the incoming one is done. *)
Lemma match_body_partial :
  q < remaining_quantity o ->
  exists m, match_body opp st =
              Ret (Continue (after_fill q m (cancel_index_ (book_ e)))) /\
            side_ok opp m /\
            concat m.*2 = with_remaining o (remaining_quantity o - q) :: l.
Proof.
  intros Hlt. destruct (resting_cons _ _ _ _ Hok Hl) as (k&dq&rest&E&->).
  destruct (front_resting_ok _ _ _ E) as (Hk&(Hs&Ht&Hp&[Hr Hr']&Hu)&Hdq).
  exists ((k, with_remaining o (remaining_quantity o - q) :: dq) :: rest). split_and!.
  - unfold match_body. fold e q. rewrite (proj2 (Z.ltb_lt 0 q)) by done. cbn [negb].
    rewrite E. rewrite Hp in Hcross. rewrite Hcross.
    rewrite Z.min_l by lia. unfold u64 in *.
    rewrite !sub64_small by (unfold u64; lia). cbn [remaining_quantity with_remaining order_id].
    rewrite (proj2 (Z.eqb_neq _ 0)) by lia. unfold after_fill.
    by destruct opp, (book_ e).
  - rewrite E in Hok.
    apply (side_ok_replace _ _ _ (with_remaining o (remaining_quantity o - q) :: dq) _ Hok).
    constructor; [|done]. unfold u64 in *. repeat split; simpl; done || lia.
  - done.
Qed.
End body.

(** ** The loop *)

Lemma with_remaining_twice o a b : with_remaining (with_remaining o a) b = with_remaining o b.
Proof. done. Qed.

Lemma with_remaining_id o : with_remaining o (remaining_quantity o) = o.
Proof. by destruct o. Qed.

Lemma walk_with_remaining inc r q l : walk (with_remaining inc r) q l = walk inc q l.
Proof. revert q. induction l as [|o l IH]; intros q; simpl; [done|]. by rewrite IH. Qed.

Lemma stamp_with_remaining inc r ts fs : stamp (with_remaining inc r) ts fs = stamp inc ts fs.
Proof. revert ts. induction fs as [|[o q] fs IH]; intros ts; simpl; [done|]. by rewrite IH. Qed.

#[export] Hint Rewrite with_remaining_twice walk_with_remaining stamp_with_remaining : book.

(** The cancel index after a list of fills: complete fills are removed. *)
Definition unindex (ix : gmap Z CancelInfo) (fs : list (Order * Z)) : gmap Z CancelInfo :=
  foldl (fun ix f => if f.2 =? remaining_quantity f.1 then delete (order_id f.1) ix else ix) ix fs.

(** What the loop does, in terms of the walk [w] over the opposite list. *)
Record loop_post (opp : Side) (st st' : match_state)
    (w : list (Order * Z) * list Order * Z) : Prop := mkLoopPost {
  lp_ok : side_ok opp (levels opp (book_ (m_engine st')));
  lp_other : levels (opposite opp) (book_ (m_engine st')) = levels (opposite opp) (book_ (m_engine st));
  lp_rest : resting opp (book_ (m_engine st')) = w_rest w;
  lp_index : cancel_index_ (book_ (m_engine st')) =
             unindex (cancel_index_ (book_ (m_engine st))) (w_fills w);
  lp_collar : collar_ (m_engine st') = collar_ (m_engine st);
  lp_last : last_price_ (m_engine st') = last_fill (last_price_ (m_engine st)) (w_fills w);
  lp_next : next_timestamp_ (m_engine st') =
            ticks (next_timestamp_ (m_engine st)) (length (w_fills w));
  lp_incoming : m_incoming st' = with_remaining (m_incoming st) (w_left w);
  lp_trades : m_trades st' = m_trades st ++
              stamp (m_incoming st) (next_timestamp_ (m_engine st)) (w_fills w)
}.

(** The loop stops at once: nothing changes. *)
Lemma loop_post_stop opp st l :
  side_ok opp (levels opp (book_ (m_engine st))) ->
  resting opp (book_ (m_engine st)) = l ->
  loop_post opp st st ([], l, remaining_quantity (m_incoming st)).
Proof.
  intros Hok Hl. split; try done; unfold w_left; simpl.
  - by rewrite with_remaining_id.
  - by rewrite app_nil_r.
Qed.

(** The loop goes on after a fill of [f] on the front order [o]. *)
Lemma loop_post_step opp st st' o f m ix w :
  let st1 := after_fill opp st o f m ix in
  (if f =? remaining_quantity o then delete (order_id o) (cancel_index_ (book_ (m_engine st)))
   else cancel_index_ (book_ (m_engine st))) = ix ->
  loop_post opp st1 st' w ->
  loop_post opp st st' ((o, f) :: w_fills w, w_rest w, w_left w).
Proof.
  intros st1 Hix [? Hother ? Hindex ? Hlast Hnext Hinc Htr]. subst st1.
  unfold after_fill in *; cbn [m_engine m_incoming m_trades book_ collar_ last_price_
    next_timestamp_] in *. autorewrite with book in *.
  split; unfold w_fills, w_left, w_rest in *; simpl in *; try done.
  - by rewrite Hindex, Hix.
  - by rewrite Htr, <- app_assoc.
Qed.

Lemma match_against_walk fuel opp st :
  side_ok opp (levels opp (book_ (m_engine st))) ->
  u64 (remaining_quantity (m_incoming st)) ->
  (length (resting opp (book_ (m_engine st))) < fuel)%nat ->
  exists st', match_against fuel opp st = Ret st' /\
    loop_post opp st st'
      (walk (m_incoming st) (remaining_quantity (m_incoming st)) (resting opp (book_ (m_engine st)))).
Proof.
  revert st. induction fuel as [|fuel IH]; intros st Hok Hq Hf; [lia|]. cbn [match_against].
  destruct (resting opp (book_ (m_engine st))) as [|o l] eqn:Hl; cbn [walk length] in *.
  { rewrite match_body_empty by done. eauto using loop_post_stop. }
  destruct (Z.leb_spec (remaining_quantity (m_incoming st)) 0) as [H0|H0]; cbn [orb].
  { rewrite match_body_idle by done. eauto using loop_post_stop. }
  destruct (limit_breaks (m_incoming st) (price o)) eqn:Hb.
  { rewrite (match_body_break opp st Hok o l) by done. eauto using loop_post_stop. }
  destruct (Z.leb_spec (remaining_quantity o) (remaining_quantity (m_incoming st))) as [Hle|Hgt].
  - destruct (match_body_fill opp st Hok Hq o l Hl H0 Hb Hle) as (m&->&Hm&<-). cbn [mbind outcome_bind].
    destruct (resting_cons _ _ _ _ Hok Hl) as (k&dq&rest&E&_).
    destruct (front_resting_ok _ _ Hok o _ _ _ E) as (_&(_&_&_&Hr&_)&_).
    set (st1 := after_fill _ _ _ _ _ _).
    destruct (IH st1) as (st'&Hst'&Hpost); unfold st1, after_fill, resting; simpl;
      autorewrite with book; [done|unfold u64 in *; lia|lia|].
    exists st'. split; [done|].
    unfold st1, after_fill, resting in Hpost; simpl in Hpost; autorewrite with book in Hpost.
    destruct (walk _ _ _) as [[fs r] q'].
    eapply (loop_post_step _ _ _ _ _ m _ (fs, r, q')); [|exact Hpost]. by rewrite Z.eqb_refl.
  - destruct (match_body_partial opp st Hok Hq o l Hl H0 Hb Hgt) as (m&->&Hm&Hrest).
    cbn [mbind outcome_bind]. destruct fuel as [|fuel]; [simpl in Hf; lia|]. cbn [match_against].
    rewrite match_body_idle by (unfold after_fill; simpl; lia). cbn [mbind outcome_bind].
    eexists; split; [done|].
    eapply (loop_post_step _ _ _ _ _ m _ ([], _, 0)); [by rewrite (proj2 (Z.eqb_neq _ _)) by lia|].
    pose proof (loop_post_stop opp (after_fill opp st o (remaining_quantity (m_incoming st)) m
      (cancel_index_ (book_ (m_engine st))))) as Hstop.
    unfold after_fill, resting in Hstop |- *; simpl in Hstop |- *.
    autorewrite with book in Hstop. rewrite Z.sub_diag in Hstop |- *. by apply Hstop.
Qed.

(** ** Resting an order *)

Lemma keys_num s m : side_ok s m -> keys_in (D := num) m.
Proof. intros [Hl _]. eapply Forall_impl; [exact Hl|]. by intros l (?&_). Qed.

Lemma x_insert_skip s o l k :
  Forall (fun x => side_lt s (price o) (price x) = false) l ->
  x_insert s o (l ++ k) = l ++ x_insert s o k.
Proof. induction 1 as [|x l Hx _ IH]; simpl; [done|]. by rewrite Hx, IH. Qed.

Lemma x_insert_stop s o k :
  (forall x l, k = x :: l -> side_lt s (price o) (price x) = true) ->
  x_insert s o k = o :: k.
Proof. destruct k as [|x l]; simpl; [done|]. intros H. by rewrite (H x l). Qed.

(** All the orders of a level compare like its key. *)
Lemma level_lt s p k dq b :
  Forall (resting_ok s k) dq -> side_lt s p k = b ->
  Forall (fun x => side_lt s p (price x) = b) dq.
Proof. intros Hdq <-. eapply Forall_impl; [exact Hdq|]. intros x (_&_&->&_). done. Qed.

Lemma concat_first_lt s p m x l :
  side_ok s m -> Forall (fun q => side_lt s p q.1 = true) m -> concat m.*2 = x :: l ->
  side_lt s p (price x) = true.
Proof.
  intros [Hl _] Hlt. destruct m as [|[k dq] m]; [done|].
  apply Forall_cons in Hl as [(_&Hne&Hdq) _]. apply Forall_cons in Hlt as [Hk _].
  destruct dq as [|y dq]; [done|]. intros [= -> _].
  apply (level_lt s p k _ true) in Hdq; [|done]. by apply Forall_cons in Hdq as [? _].
Qed.

Lemma concat_upsert s o m :
  num (price o) -> side_ok s m ->
  concat (map_upsert (side_lt s) m (price o) [] (fun dq => dq ++ [o])).*2 =
  x_insert s o (concat m.*2).
Proof.
  intros Ho. induction m as [|[k dq] m IH]; intros Hok; cbn [map_upsert]; [done|].
  pose proof Hok as [Hl Hs]. apply Forall_cons in Hl as [(Hk&_&Hdq) Hl].
  apply StronglySorted_inv in Hs as [Hs Hall]. cbn [fst snd] in *.
  destruct (side_lt s k (price o)) eqn:E1; [|destruct (side_lt s (price o) k) eqn:E2];
    rewrite !fmap_cons; cbn [concat snd].
  - rewrite IH by done. rewrite x_insert_skip; [done|].
    apply (level_lt _ _ k); [done|]. by apply (swo_asym (D := num)).
  - rewrite x_insert_stop; [done|]. intros x l El.
    apply (concat_first_lt s (price o) ((k, dq) :: m) x l); [done| |done].
    constructor; [done|]. apply Forall_forall. intros q Hq. rewrite Forall_forall in Hall, Hl.
    apply (swo_trans (D := num) _ k); try done; [by apply (Hl q)|by apply Hall].
  - rewrite x_insert_skip by (by apply (level_lt _ _ k)).
    rewrite x_insert_stop; [by rewrite <- app_assoc|]. intros x l El.
    apply (concat_first_lt s (price o) m x l); [done| |done].
    apply Forall_forall. intros q Hq. rewrite Forall_forall in Hall, Hl.
    apply (swo_incomp_lt (D := num) _ k); try done; [by apply (Hl q)|by apply Hall].
Qed.

Lemma add_resting_order_levels b o :
  levels (side o) (add_resting_order b o) =
  map_upsert (side_lt (side o)) (levels (side o) b) (price o) [] (fun dq => dq ++ [o]).
Proof. unfold add_resting_order. by destruct (side o). Qed.

Lemma add_resting_order_other b o s :
  s <> side o -> levels s (add_resting_order b o) = levels s b.
Proof. unfold add_resting_order. by destruct (side o), s. Qed.

Lemma add_resting_order_index b o :
  cancel_index_ (add_resting_order b o) =
  <[order_id o := mkCancelInfo (side o) (price o)]> (cancel_index_ b).
Proof. unfold add_resting_order. by destruct (side o). Qed.

Lemma add_resting_order_resting b o :
  num (price o) -> side_ok (side o) (levels (side o) b) ->
  resting (side o) (add_resting_order b o) = x_insert (side o) o (resting (side o) b).
Proof. intros. unfold resting. rewrite add_resting_order_levels. by apply concat_upsert. Qed.

Lemma add_resting_order_ok b o :
  num (price o) -> resting_ok (side o) (price o) o ->
  side_ok (side o) (levels (side o) b) ->
  side_ok (side o) (levels (side o) (add_resting_order b o)).
Proof.
  intros Ho Hr Hok. rewrite add_resting_order_levels. pose proof Hok as [Hl Hs]. split.
  - apply Forall_forall. intros p Hp. rewrite Forall_forall in Hl.
    destruct (map_upsert_elem (D := num) _ _ _ _ _ Hp) as [?|[->|(k&dq&Hin&->&E1&E2)]].
    + by apply Hl.
    + split_and!; [done..|]. by constructor.
    + destruct (Hl _ Hin) as (Hk&Hne&Hdq). split_and!; [done|by destruct dq|].
      apply Forall_app. split; [done|]. constructor; [|done].
      assert (price o ≡ᵖ k) by (by apply (side_lt_incomp_dequiv (side o))).
      unfold resting_ok in *. tauto.
  - apply (map_upsert_sorted (D := num)); [done|by eapply keys_num|done].
Qed.

(** ** [submit_order] *)

(** An order the engine can take: a price that is a number when it matters, and
    a quantity in the range of its type. *)
Definition admissible (o : Order) : Prop :=
  u64 (quantity o) /\ (type o = LIMIT -> num (price o)).

#[global] Instance admissible_dec o : Decision (admissible o).
Proof. unfold admissible. apply _. Defined.

Lemma walk_left_bounds inc q l :
  0 <= q -> Forall (fun o => 0 < remaining_quantity o) l -> 0 <= w_left (walk inc q l) <= q.
Proof.
  unfold w_left. intros Hq Hl. revert q Hq.
  induction Hl as [|o l Ho Hl IH]; intros q Hq; simpl; [lia|].
  destruct (Z.leb_spec q 0); simpl; [lia|].
  destruct (limit_breaks inc (price o)); simpl; [lia|].
  destruct (Z.leb_spec (remaining_quantity o) q); simpl; [|lia].
  specialize (IH (q - remaining_quantity o) ltac:(lia)).
  destruct (walk _ _ _) as [[fs r] q']. simpl in *. lia.
Qed.

Lemma resting_forall s b (P : Order -> Prop) :
  side_ok s (levels s b) -> (forall k o, num k -> resting_ok s k o -> P o) -> Forall P (resting s b).
Proof.
  intros [Hl _] HP. unfold resting. apply Forall_concat, Forall_fmap.
  eapply Forall_impl; [exact Hl|]. intros [k dq] (Hk&_&Hdq).
  eapply Forall_impl; [exact Hdq|]. intros o Ho. by eapply HP.
Qed.

Lemma opposite_ne s : opposite s <> s.
Proof. by destruct s. Qed.

Lemma opposite_opposite s : opposite (opposite s) = s.
Proof. by destruct s. Qed.

Lemma x_with_side_abs s e :
  x_with_side s (abs e) (resting s (book_ e)) = abs e.
Proof. by destruct s. Qed.

(** Two exchanges are equal when their sides and scalars are. *)
Lemma exchange_eq x y s :
  x_side s x = x_side s y -> x_side (opposite s) x = x_side (opposite s) y ->
  x_collar x = x_collar y -> x_last x = x_last y -> x_next x = x_next y -> x = y.
Proof. destruct s, x, y; simpl; congruence. Qed.

Lemma abs_loop opp e inc st' w :
  loop_post opp (mkMatch (tick e) inc []) st' w ->
  abs (m_engine st') = x_walked (abs e) opp w.
Proof.
  intros [_ Hother Hrest _ Hcollar Hlast Hnext _ _]. unfold x_walked.
  apply (exchange_eq _ _ opp); rewrite ?x_side_abs.
  - rewrite Hrest. by destruct opp.
  - unfold resting. rewrite Hother. by destruct opp.
  - simpl. rewrite Hcollar. by destruct opp.
  - simpl. rewrite Hlast. by destruct opp.
  - simpl. rewrite Hnext. by destruct opp.
Qed.

Lemma book_ok_sides s b :
  side_ok s (levels s b) -> side_ok (opposite s) (levels (opposite s) b) -> book_ok b.
Proof. intros H1 H2 s'. by destruct s, s'. Qed.

Lemma abs_add_resting e o :
  num (price o) -> side_ok (side o) (levels (side o) (book_ e)) ->
  abs (with_book e (add_resting_order (book_ e) o)) =
  x_with_side (side o) (abs e) (x_insert (side o) o (x_side (side o) (abs e))).
Proof.
  intros Ho Hok. apply (exchange_eq _ _ (side o)); rewrite ?x_side_abs.
  - simpl. rewrite add_resting_order_resting by done. by destruct (side o).
  - unfold resting. simpl. rewrite add_resting_order_other by apply opposite_ne.
    by destruct (side o).
  - by destruct (side o).
  - by destruct (side o).
  - by destruct (side o).
Qed.

Lemma book_ok_add b o :
  book_ok b -> num (price o) -> resting_ok (side o) (price o) o -> book_ok (add_resting_order b o).
Proof.
  intros Hb Ho Hr. apply (book_ok_sides (side o)); [by apply add_resting_order_ok|].
  rewrite add_resting_order_other by apply opposite_ne. apply Hb.
Qed.

(** [submit_order] in the vocabulary of the exchange. *)
Lemma submit_order_unfold e o :
  submit_order e o =
  if negb (accepted (x_verdict (abs e) o)) then
    Ret (tick e, inr (mkRejection (order_id o) (reason (x_verdict (abs e) o))))
  else
    st ← match_against (match_fuel (opposite (side o)) (tick e)) (opposite (side o))
           (mkMatch (tick e) (x_arrive (abs e) o) []);
    Ret (if (0 <? remaining_quantity (m_incoming st)) &&
            match type (m_incoming st) with LIMIT => true | MARKET => false end
         then with_book (m_engine st) (add_resting_order (book_ (m_engine st)) (m_incoming st))
         else m_engine st,
         inl (m_trades st)).
Proof. reflexivity. Qed.

(** The refinement, with the walk and the loop's final state made explicit. *)
Lemma submit_order_accepted e o :
  book_ok (book_ e) -> admissible o -> accepted (x_verdict (abs e) o) = true ->
  let inc := x_arrive (abs e) o in
  let opp := opposite (side o) in
  let w := walk inc (quantity o) (resting opp (book_ e)) in
  exists e1, abs e1 = x_walked (abs e) opp w /\ book_ok (book_ e1) /\
    cancel_index_ (book_ e1) = unindex (cancel_index_ (book_ e)) (w_fills w) /\
    submit_order e o =
      Ret (if (0 <? w_left w) && match type o with LIMIT => true | MARKET => false end
           then with_book e1 (add_resting_order (book_ e1) (with_remaining inc (w_left w)))
           else e1,
           inl (stamp inc (next_timestamp_ e +ᵤ 1) (w_fills w))).
Proof.
  intros Hb [Hq Hp] Hacc inc opp w.
  destruct (match_against_walk (match_fuel opp (tick e)) opp (mkMatch (tick e) inc []))
    as (st'&Hst'&Hpost); [apply Hb|done|apply Nat.lt_succ_diag_r|].
  cbn [m_engine m_incoming book_ tick] in Hpost. fold w in Hpost.
  exists (m_engine st'). split_and!.
  - by eapply abs_loop.
  - apply (book_ok_sides opp); [apply Hpost|]. rewrite (lp_other _ _ _ _ Hpost). apply Hb.
  - apply Hpost.
  - rewrite submit_order_unfold, Hacc. cbn [negb]. fold inc opp. rewrite Hst'.
    cbn [mbind outcome_bind].
    by rewrite (lp_incoming _ _ _ _ Hpost), (lp_trades _ _ _ _ Hpost).
Qed.

Lemma submit_order_rejected e o :
  accepted (x_verdict (abs e) o) = false ->
  submit_order e o = Ret (tick e, inr (mkRejection (order_id o) (reason (x_verdict (abs e) o)))).
Proof.
  intros Hacc. by rewrite submit_order_unfold, Hacc.
Qed.

(** [submit_order] returns, keeps the book well formed, and does what the
    abstract exchange does. *)
Lemma submit_order_refines e o :
  book_ok (book_ e) -> admissible o ->
  exists e' r, submit_order e o = Ret (e', r) /\ book_ok (book_ e') /\
               x_submit (abs e) o = (abs e', r).
Proof.
  intros Hb Hadm. destruct (accepted (x_verdict (abs e) o)) eqn:Hacc.
  2: { rewrite submit_order_rejected by done. do 2 eexists. split_and!; [done..|].
       unfold x_submit. by rewrite Hacc. }
  destruct (submit_order_accepted e o Hb Hadm Hacc) as (e1&Habs&Hb1&_&->).
  set (inc := x_arrive (abs e) o). set (w := walk _ _ _) in *.
  do 2 eexists. split; [done|]. unfold x_submit. cbv zeta. rewrite Hacc, !x_side_abs. fold w. fold inc.
  rewrite <- Habs, x_side_abs.
  destruct (0 <? w_left w) eqn:El, (type o) eqn:Et; simpl; try done.
  destruct Hadm as [Hq Hp]. specialize (Hp Et). apply Z.ltb_lt in El.
  assert (w_left w <= quantity o).
  { apply walk_left_bounds; [by destruct Hq|]. apply resting_forall; [apply Hb|].
    intros k x _ (_&_&_&?&_). lia. }
  split.
  - apply book_ok_add; [done..|]. refine (conj eq_refl (conj Et (conj _ (conj _ Hq)))); [reflexivity|].
    simpl. lia.
  - by rewrite (abs_add_resting e1 (with_remaining inc (w_left w)) Hp (Hb1 _)), x_side_abs.
Qed.
