(* ===== verification/ExchangeFacts.v ===== *)
(** * Facts about the abstract exchange

    A view of the walk (which orders it fills, what it leaves) from which the
    matching properties follow, and the invariants of the two priority lists. *)

From S2P Require Import Prelude Double StdMap Order PriceCollar OrderBook MatchingEngine Exchange.

Abbreviation filled := (fun o : Order => (o, remaining_quantity o)).

(** ** A view of the walk *)

Inductive walk_view (inc : Order) (q : Z) (l : list Order)
  : list (Order * Z) * list Order * Z -> Prop :=
  | walk_stops dn tl left :
      l = dn ++ tl ->
      left = q - zsum remaining_quantity dn -> 0 <= left ->
      Forall (fun o => limit_breaks inc (price o) = false) dn ->
      (tl = [] \/ left = 0 \/ exists o tl', tl = o :: tl' /\ limit_breaks inc (price o) = true) ->
      walk_view inc q l (filled <$> dn, tl, left)
  | walk_partial dn o tl f :
      l = dn ++ o :: tl ->
      f = q - zsum remaining_quantity dn -> 0 < f < remaining_quantity o ->
      Forall (fun o => limit_breaks inc (price o) = false) (dn ++ [o]) ->
      walk_view inc q l
        ((filled <$> dn) ++ [(o, f)], with_remaining o (remaining_quantity o - f) :: tl, 0).

Lemma walk_view_cons inc q o l w :
  limit_breaks inc (price o) = false ->
  walk_view inc (q - remaining_quantity o) l w ->
  walk_view inc q (o :: l) ((o, remaining_quantity o) :: w_fills w, w_rest w, w_left w).
Proof.
  intros Ho [dn tl left El Eq Hleft Hdn Hstop|dn o' tl f El Ef Hf Hdn]; subst l; simpl.
  - apply (walk_stops _ _ _ (o :: dn)); rewrite ?zsum_cons; try done; [lia|by constructor].
  - apply (walk_partial _ _ _ (o :: dn)); rewrite ?zsum_cons; try done; [lia|by constructor].
Qed.

Lemma walk_correct inc q l :
  0 <= q -> Forall (fun o => 0 < remaining_quantity o) l -> walk_view inc q l (walk inc q l).
Proof.
  intros Hq Hl. revert q Hq. induction Hl as [|o l Ho Hl IH]; intros q Hq; simpl.
  { apply (walk_stops _ _ _ []); simpl; auto. by rewrite zsum_nil, Z.sub_0_r. }
  assert (Hstop : q <= 0 \/ limit_breaks inc (price o) = true -> walk_view inc q (o :: l) ([], o :: l, q)).
  { intros Hc. apply (walk_stops _ _ _ []); simpl; auto.
    - by rewrite zsum_nil, Z.sub_0_r.
    - right. destruct Hc as [?|?]; [left; lia|eauto]. }
  destruct (Z.leb_spec q 0); simpl; [by auto|].
  destruct (limit_breaks inc (price o)) eqn:Hb; simpl; [by auto|].
  destruct (Z.leb_spec (remaining_quantity o) q).
  - specialize (IH (q - remaining_quantity o) ltac:(lia)).
    pose proof (walk_view_cons _ _ _ _ _ Hb IH) as Hw.
    by destruct (walk inc (q - remaining_quantity o) l) as [[fs r] q'].
  - apply (walk_partial _ _ _ [] o l q); simpl; auto; rewrite ?zsum_nil; lia.
Qed.

(** Conservation: what is filled and what is left add up; the list loses what is filled. *)
Lemma walk_conserves inc q l w :
  walk_view inc q l w ->
  zsum snd (w_fills w) + w_left w = q /\
  zsum remaining_quantity (w_rest w) + zsum snd (w_fills w) = zsum remaining_quantity l.
Proof.
  assert (Hz : forall dn, zsum snd (filled <$> dn) = zsum remaining_quantity dn).
  { intros dn. by rewrite zsum_fmap. }
  intros [dn tl left -> -> Hleft Hdn Hstop|dn o tl f -> -> Hf Hdn];
    unfold w_fills, w_left, w_rest; cbn [fst snd];
    autorewrite with zsum; rewrite Hz; cbn [remaining_quantity with_remaining snd]; lia.
Qed.

(** Every fill is positive and at most what the resting order had. *)
Lemma walk_fills_sound inc q l w :
  Forall (fun o => 0 < remaining_quantity o) l -> walk_view inc q l w ->
  Forall (fun f => f.1 ∈ l /\ 0 < f.2 <= remaining_quantity f.1 /\
                   limit_breaks inc (price f.1) = false) (w_fills w).
Proof.
  intros Hl Hw. rewrite Forall_forall in Hl.
  destruct Hw as [dn tl left -> -> Hleft Hdn Hstop|dn o tl f -> -> Hf Hdn];
    unfold w_fills; cbn [fst]; rewrite ?Forall_app in *.
  - apply Forall_fmap, Forall_forall. intros x Hx. rewrite Forall_forall in Hdn. simpl.
    assert (Hin : x ∈ dn ++ tl) by set_solver.
    specialize (Hl x Hin). specialize (Hdn x Hx). simpl in *. split_and!; done || lia.
  - destruct Hdn as [Hdn Ho]. split.
    + apply Forall_fmap, Forall_forall. intros x Hx. rewrite Forall_forall in Hdn. simpl.
      assert (Hin : x ∈ dn ++ o :: tl) by set_solver.
      specialize (Hl x Hin). specialize (Hdn x Hx). simpl in *. split_and!; done || lia.
    + apply Forall_cons in Ho as [Ho _]. apply Forall_singleton. simpl. split_and!; [set_solver|lia|lia|exact Ho].
Qed.

(** ** Insertion *)

Lemma x_insert_elem s o l x : x ∈ x_insert s o l <-> x = o \/ x ∈ l.
Proof.
  induction l as [|y l IH]; simpl; [set_solver|].
  destruct (side_lt s (price o) (price y)); set_solver.
Qed.

Lemma x_insert_perm s o l : Permutation (x_insert s o l) (o :: l).
Proof.
  induction l as [|y l IH]; simpl; [done|].
  destruct (side_lt s (price o) (price y)); [done|]. rewrite IH. apply Permutation_swap.
Qed.

(** ** Invariants of one side *)

(** A resting order of side [s]. *)
Definition rests (s : Side) (o : Order) : Prop :=
  side o = s /\ type o = LIMIT /\ num (price o) /\
  0 < remaining_quantity o <= quantity o /\ u64 (quantity o).

(** No order is behind one of a strictly worse price. *)
Definition price_sorted (s : Side) (l : list Order) : Prop :=
  StronglySorted (fun a b => side_lt s (price b) (price a) = false) l.

(** Orders of equivalent prices are in arrival order. *)
Definition time_sorted (l : list Order) : Prop :=
  StronglySorted (fun a b => price a ≡ᵖ price b -> timestamp a < timestamp b) l.

Lemma x_insert_price_sorted s o l :
  num (price o) -> Forall (fun x => num (price x)) l ->
  price_sorted s l -> price_sorted s (x_insert s o l).
Proof.
  unfold price_sorted. intros Ho Hn Hs.
  induction Hs as [|y l Hs IH Hall]; simpl; [by repeat constructor|].
  apply Forall_cons in Hn as [Hy Hn].
  destruct (side_lt s (price o) (price y)) eqn:E.
  - repeat (constructor; try done).
    + by apply (swo_asym (D := num)).
    + rewrite Forall_forall in *. intros x Hx.
      apply (swo_incomp (D := num) _ (price y)); auto. by apply (swo_asym (D := num)).
  - constructor; [by apply IH|]. apply Forall_forall. intros x Hx.
    apply x_insert_elem in Hx as [->|Hx]; [done|]. rewrite Forall_forall in Hall. by apply Hall.
Qed.

Lemma x_insert_time_sorted s o l :
  num (price o) -> Forall (fun x => num (price x) /\ timestamp x < timestamp o) l ->
  price_sorted s l -> time_sorted l -> time_sorted (x_insert s o l).
Proof.
  unfold time_sorted, price_sorted. intros Ho Hn Hp Hs.
  induction Hs as [|y l Hs IH Hall]; simpl; [by repeat constructor|].
  apply Forall_cons in Hn as [[Hy Hty] Hn]. apply StronglySorted_inv in Hp as [Hp Hpall].
  destruct (side_lt s (price o) (price y)) eqn:E.
  - repeat (constructor; try done).
    + intros Heq. by rewrite Heq, side_lt_irrefl in E.
    + rewrite Forall_forall in *. intros x Hx Heq. specialize (Hpall _ Hx).
      by rewrite <- Heq, E in Hpall.
  - constructor; [by apply IH|]. apply Forall_forall. intros x Hx.
    apply x_insert_elem in Hx as [->|Hx]; [done|]. rewrite Forall_forall in Hall. by apply Hall.
Qed.

(** Removing orders, or shrinking what is left of one, keeps a sorted list sorted. *)
Lemma walk_rest_forall (P : Order -> Prop) inc q l w :
  Forall (fun o => 0 < remaining_quantity o) l ->
  (forall o r, P o -> 0 < r <= remaining_quantity o -> P (with_remaining o r)) ->
  walk_view inc q l w -> Forall P l -> Forall P (w_rest w).
Proof.
  intros Hpos HP [dn tl left -> _ _ _ _|dn o tl f -> _ Hf _] Hl; unfold w_rest; simpl;
    apply Forall_app in Hl as [_ Hl]; [done|].
  apply Forall_cons in Hl as [Ho Hl]. constructor; [|done]. apply HP; [done|lia].
Qed.

Lemma walk_rest_sorted (R : Order -> Order -> Prop) inc q l w :
  (forall a b r, R a b -> R (with_remaining a r) b) ->
  walk_view inc q l w -> StronglySorted R l -> StronglySorted R (w_rest w).
Proof.
  intros HR Hw Hs. destruct Hw as [dn tl left -> _ _ _ _|dn o tl f -> _ Hf _];
    unfold w_rest; simpl; apply StronglySorted_app in Hs as (_&_&Hs); [done|].
  apply StronglySorted_inv in Hs as [Hs Hall]. constructor; [done|].
  eapply Forall_impl; [exact Hall|]. intros b. apply HR.
Qed.

Lemma erase_id_spec id l :
  match erase_id id l with
  | Some l' => exists a o b, l = a ++ o :: b /\ l' = a ++ b /\ order_id o = id /\
                             Forall (fun x => order_id x <> id) a
  | None => Forall (fun x => order_id x <> id) l
  end.
Proof.
  induction l as [|x l IH]; simpl; [done|].
  destruct (Z.eqb_spec (order_id x) id) as [E|E].
  - exists [], x, l. auto.
  - destruct (erase_id id l) as [l'|]; simpl.
    + destruct IH as (a&o&b&->&->&Ho&Ha). exists (x :: a), o, b. auto.
    + by constructor.
Qed.

Lemma erase_id_sublist id l l' : erase_id id l = Some l' -> sublist l' l.
Proof.
  intros E. pose proof (erase_id_spec id l) as H. rewrite E in H.
  destruct H as (a&o&b&->&->&_). apply sublist_app; [done|]. by constructor.
Qed.

Lemma StronglySorted_sublist {A} (R : A -> A -> Prop) (l l' : list A) :
  sublist l' l -> StronglySorted R l -> StronglySorted R l'.
Proof.
  induction 1 as [|x l' l Hsub IH|x l' l Hsub IH]; intros Hs; [done|..];
    apply StronglySorted_inv in Hs as [Hs Hall].
  - constructor; [by apply IH|]. rewrite Forall_forall in *. intros y Hy.
    apply Hall. by eapply elem_of_sublist.
  - by apply IH.
Qed.

(** ** What a submission does to the two sides *)

Lemma x_side_with_side s x l : x_side s (x_with_side s x l) = l.
Proof. by destruct s. Qed.

Lemma x_side_with_side_opp s x l : x_side (opposite s) (x_with_side s x l) = x_side (opposite s) x.
Proof. by destruct s. Qed.

Definition is_limit (o : Order) : bool := match type o with LIMIT => true | MARKET => false end.

(** The remainder of [o] rests, after the walk [w]. *)
Definition remainder_rests (o : Order) (w : list (Order * Z) * list Order * Z) : bool :=
  (0 <? w_left w) && is_limit o.

Lemma x_submit_accepted x o :
  accepted (x_verdict x o) = true ->
  let inc := x_arrive x o in
  let w := walk inc (quantity o) (x_side (opposite (side o)) x) in
  exists x', x_submit x o = (x', inl (stamp inc (x_next x +ᵤ 1) (w_fills w))) /\
    x_side (opposite (side o)) x' = w_rest w /\
    x_side (side o) x' =
      (if remainder_rests o w
       then x_insert (side o) (with_remaining inc (w_left w)) (x_side (side o) x)
       else x_side (side o) x) /\
    x_collar x' = x_collar x /\
    x_last x' = last_fill (x_last x) (w_fills w) /\
    x_next x' = ticks (x_next x +ᵤ 1) (length (w_fills w)).
Proof.
  intros Hacc inc w. unfold x_submit. rewrite Hacc. fold inc. fold w.
  eexists. split; [reflexivity|]. unfold remainder_rests, is_limit.
  destruct (side o), (type o), (0 <? w_left w); simpl; done.
Qed.

Lemma x_submit_rejected x o :
  accepted (x_verdict x o) = false ->
  x_submit x o =
    (mkExchange (x_bids x) (x_asks x) (x_collar x) (x_last x) (x_next x +ᵤ 1),
     inr (mkRejection (order_id o) (reason (x_verdict x o)))).
Proof. intros H. unfold x_submit. by rewrite H. Qed.

(** ** The invariant on prices *)

Definition uncrossed (x : exchange) : Prop :=
  forall b a, b ∈ x_bids x -> a ∈ x_asks x -> dlt (price b) (price a) = true.

Record priced (x : exchange) : Prop := mkPriced {
  pr_rests s : Forall (rests s) (x_side s x);
  pr_sorted s : price_sorted s (x_side s x);
  pr_uncrossed : uncrossed x
}.

Lemma side_lt_opposite s p q : side_lt (opposite s) p q = side_lt s q p.
Proof. by destruct s. Qed.

Lemma uncrossed_side s x :
  uncrossed x <-> forall a b, a ∈ x_side s x -> b ∈ x_side (opposite s) x ->
                        side_lt s (price b) (price a) = true.
Proof.
  unfold uncrossed. destruct s; simpl; unfold greater, less, dgt; [done|].
  split; intros H a b Ha Hb; by apply H.
Qed.

Lemma limit_breaks_side inc p :
  type inc = LIMIT -> limit_breaks inc p = side_lt (side inc) p (price inc).
Proof. intros Ht. unfold limit_breaks. rewrite Ht. by destruct (side inc). Qed.

Lemma rests_pos s l : Forall (rests s) l -> Forall (fun o => 0 < remaining_quantity o) l.
Proof. intros H. eapply Forall_impl; [exact H|]. intros o (_&_&_&?&_). lia. Qed.

Lemma rests_num s l : Forall (rests s) l -> Forall (fun o => num (price o)) l.
Proof. intros H. eapply Forall_impl; [exact H|]. by intros o (_&_&?&_). Qed.

Lemma rests_with_remaining s o r :
  rests s o -> 0 < r <= remaining_quantity o -> rests s (with_remaining o r).
Proof. unfold rests. simpl. intros (?&?&?&?&?) ?. split_and!; done || lia. Qed.

(** What the walk leaves is what was there, prices included. *)
Lemma walk_rest_elem inc q l w x :
  walk_view inc q l w -> x ∈ w_rest w ->
  exists y, y ∈ l /\ order_id y = order_id x /\ price y = price x /\ timestamp y = timestamp x /\
            remaining_quantity x <= remaining_quantity y.
Proof.
  intros [dn tl left -> _ _ _ _|dn o tl f -> _ Hf _]; unfold w_rest; simpl.
  - intros Hx. exists x. set_solver by lia.
  - rewrite elem_of_cons. intros [->|Hx]; [exists o|exists x]; simpl; set_solver by lia.
Qed.

(** When something is left to rest, nothing that crosses is left to match. *)
Lemma walk_left_breaks inc q l w :
  type inc = LIMIT -> num (price inc) -> Forall (fun o => num (price o)) l ->
  price_sorted (opposite (side inc)) l -> walk_view inc q l w -> 0 < w_left w ->
  Forall (fun b => side_lt (side inc) (price b) (price inc) = true) (w_rest w).
Proof.
  intros Ht Hp Hn Hs [dn tl left -> _ _ _ Hstop|dn o tl f -> _ Hf _]; unfold w_left, w_rest;
    simpl; intros Hleft; [|lia].
  destruct Hstop as [->|[?|(o&tl'&->&Hb)]]; [done|lia|].
  rewrite limit_breaks_side in Hb by done. apply Forall_app in Hn as [_ Hn].
  apply Forall_cons in Hn as [Ho Hn]. apply StronglySorted_app in Hs as (_&_&Hs).
  apply StronglySorted_inv in Hs as [_ Hall]. constructor; [done|].
  rewrite Forall_forall in *. intros b Hb'. specialize (Hall _ Hb').
  rewrite side_lt_opposite in Hall. apply (swo_incomp_lt (D := num) _ (price o)); auto.
Qed.

Lemma priced_side x s :
  (forall s', Forall (rests s') (x_side s' x)) ->
  (forall s', price_sorted s' (x_side s' x)) ->
  (forall a b, a ∈ x_side s x -> b ∈ x_side (opposite s) x ->
               side_lt s (price b) (price a) = true) -> priced x.
Proof. intros H1 H2 H3. split; [done..|]. by apply (uncrossed_side s). Qed.

Lemma side_cases (P : Side -> Prop) s : P s -> P (opposite s) -> forall s', P s'.
Proof. intros H1 H2 s'. by destruct s, s'. Qed.

Section submit.
Context (x : exchange) (o : Order).
Let opp := opposite (side o).
Let inc := x_arrive x o.
Let w := walk inc (quantity o) (x_side opp x).
Context (Hx : priced x) (Hq : u64 (quantity o)) (Hn : type o = LIMIT -> num (price o)).

Lemma submit_walk : walk_view inc (quantity o) (x_side opp x) w.
Proof.
  apply walk_correct; [unfold u64 in Hq; lia|]. eapply rests_pos, pr_rests; done.
Qed.

Lemma remainder_rests_ok :
  remainder_rests o w = true -> rests (side o) (with_remaining inc (w_left w)).
Proof.
  unfold remainder_rests, is_limit. intros [H1%Z.ltb_lt H2]%andb_true_iff.
  destruct (walk_conserves _ _ _ _ submit_walk) as [Hc _].
  assert (0 <= zsum snd (w_fills w)).
  { apply zsum_nonneg. eapply Forall_impl;
      [apply (walk_fills_sound _ _ _ _ (rests_pos _ _ (pr_rests _ Hx opp)) submit_walk)|].
    intros f (_&?&_). simpl. lia. }
  destruct (type o) eqn:Ht; [|done]. unfold rests. simpl.
  split_and!; try done; [by apply Hn|lia].
Qed.

Lemma x_submit_priced : priced (x_submit x o).1.
Proof.
  destruct (accepted (x_verdict x o)) eqn:Hacc.
  2: { rewrite x_submit_rejected by done. destruct Hx as [H1 H2 H3].
       split; [intros []; [apply (H1 BUY)|apply (H1 SELL)]
              |intros []; [apply (H2 BUY)|apply (H2 SELL)]|done]. }
  destruct (x_submit_accepted x o Hacc) as (x'&->&Hopp&Hown&_). fold opp inc w in Hopp, Hown.
  pose proof (rests_pos _ _ (pr_rests _ Hx opp)) as Hpos. pose proof submit_walk as Hw.
  assert (Hr : Forall (rests (side o)) (x_side (side o) x')).
  { rewrite Hown. destruct (remainder_rests o w) eqn:Er; [|apply Hx].
    apply Forall_forall. intros y [->|Hy]%x_insert_elem; [by apply remainder_rests_ok|].
    pose proof (pr_rests _ Hx (side o)) as Ho. rewrite Forall_forall in Ho. auto. }
  apply (priced_side _ (side o)).
  - apply (side_cases _ (side o)); [done|]. fold opp. cbn [fst]. rewrite Hopp.
    eapply walk_rest_forall; [done| |done|apply Hx]. apply rests_with_remaining.
  - apply (side_cases _ (side o)); fold opp; cbn [fst].
    + rewrite Hown. destruct (remainder_rests o w) eqn:Er; [|apply Hx].
      apply x_insert_price_sorted; [by apply remainder_rests_ok|eapply rests_num, Hx|apply Hx].
    + rewrite Hopp. eapply walk_rest_sorted; [|done|apply Hx]. done.
  - fold opp. cbn [fst]. rewrite Hopp, Hown. intros a b Ha Hb.
    assert (Hold : forall a, a ∈ x_side (side o) x -> side_lt (side o) (price b) (price a) = true).
    { intros a' Ha'. destruct (walk_rest_elem _ _ _ _ _ Hw Hb) as (y&Hy&_&<-&_).
      by apply (proj1 (uncrossed_side (side o) x) (pr_uncrossed _ Hx)). }
    destruct (remainder_rests o w) eqn:Er; [|by apply Hold].
    apply x_insert_elem in Ha as [->|Ha]; [|by apply Hold].
    unfold remainder_rests, is_limit in Er. apply andb_true_iff in Er as [El%Z.ltb_lt Et].
    destruct (type o) eqn:Ht; [|done].
    pose proof (walk_left_breaks inc (quantity o) (x_side opp x) w Ht (Hn eq_refl)
      (rests_num _ _ (pr_rests _ Hx opp)) (pr_sorted _ Hx opp) Hw El) as Hbr.
    rewrite Forall_forall in Hbr. by apply Hbr.
Qed.
End submit.

(** Dropping orders keeps the invariant. *)
Lemma priced_sublist x x' :
  (forall s, sublist (x_side s x') (x_side s x)) -> priced x -> priced x'.
Proof.
  intros Hsub [H1 H2 H3]. split.
  - intros s. specialize (H1 s). rewrite Forall_forall in *. intros y Hy. apply H1.
    by eapply elem_of_sublist.
  - intros s. apply (StronglySorted_sublist _ _ _ (Hsub s) (H2 s)).
  - intros b a Hb Ha. apply H3;
      [apply (elem_of_sublist _ _ _ Hb (Hsub BUY))|apply (elem_of_sublist _ _ _ Ha (Hsub SELL))].
Qed.

(** ** The invariant on arrival times *)

(** Every resting order arrived before now, and earlier ones come first. *)
Record timed (x : exchange) : Prop := mkTimed {
  ti_past s : Forall (fun o => timestamp o < x_next x) (x_side s x);
  ti_sorted s : time_sorted (x_side s x);
  ti_range : 0 <= x_next x
}.

Lemma ticks_small ts n :
  0 <= ts -> ts + Z.of_nat n < modulus64 -> ticks ts n = ts + Z.of_nat n.
Proof.
  revert ts. induction n as [|n IH]; intros ts H0 H; simpl ticks; [lia|].
  rewrite add64_small by lia. rewrite IH; lia.
Qed.

Lemma walk_fills_length inc q l w :
  walk_view inc q l w ->
  (length (w_fills w) + length (w_rest w) <= length l + (if (0 <? w_left w)%Z then 0 else 1) /\
   length (w_fills w) <= length l)%nat.
Proof.
  intros [dn tl left -> _ _ _ _|dn o tl f -> _ Hf _]; unfold w_fills, w_rest, w_left;
    cbn [fst snd]; rewrite !length_app, !length_fmap; cbn [length].
  - case_match; lia.
  - simpl. lia.
Qed.

(** A bound on the clock: it and the resting orders are paid for by requests. *)
Definition clock_potential (x : exchange) : Z :=
  x_next x + Z.of_nat (length (x_bids x)) + Z.of_nat (length (x_asks x)).

Lemma clock_potential_side s x :
  clock_potential x =
  x_next x + Z.of_nat (length (x_side s x)) + Z.of_nat (length (x_side (opposite s) x)).
Proof. unfold clock_potential. destruct s; simpl; lia. Qed.

Section submit_timed.
Context (x : exchange) (o : Order).
Context (Hx : priced x) (Ht : timed x) (Hq : u64 (quantity o)) (Hn : type o = LIMIT -> num (price o)).
Context (Hclock : clock_potential x + 2 < modulus64).

Lemma x_submit_timed :
  timed (x_submit x o).1 /\ clock_potential (x_submit x o).1 <= clock_potential x + 2 /\
  x_next x < x_next (x_submit x o).1.
Proof.
  rewrite (clock_potential_side (side o) x) in Hclock |- *.
  rewrite (clock_potential_side (side o) (x_submit x o).1).
  pose proof (ti_range _ Ht) as H0. pose proof Ht as [Hpast Hsort _].
  destruct (accepted (x_verdict x o)) eqn:Hacc.
  2: { rewrite x_submit_rejected by done. cbn [fst x_next].
       rewrite add64_small by lia. split; [|destruct (side o); simpl; lia].
       split; cbn [x_next]; [|intros []; [apply (Hsort BUY)|apply (Hsort SELL)]|lia].
       intros s. eapply Forall_impl; [destruct s; [apply (Hpast BUY)|apply (Hpast SELL)]|].
       simpl. lia. }
  destruct (x_submit_accepted x o Hacc) as (x'&->&Hopp&Hown&_&_&Hnext). cbn [fst].
  pose proof (submit_walk x o Hx Hq) as Hw. set (w := walk _ _ _) in *.
  destruct (walk_fills_length _ _ _ _ Hw) as [Hlen Hlen'].
  rewrite add64_small, ticks_small in Hnext by (try rewrite add64_small by lia; lia).
  assert (Hown_len : (length (x_side (side o) x') <=
                      length (x_side (side o) x) + (if (0 <? w_left w)%Z then 1 else 0))%nat).
  { rewrite Hown. unfold remainder_rests.
    destruct (0 <? w_left w), (is_limit o); simpl; try lia.
    rewrite (Permutation_length (x_insert_perm _ _ _)). simpl. lia. }
  split_and!; [|rewrite Hopp, Hnext; destruct (0 <? w_left w); lia|lia].
  split; [|apply (side_cases _ (side o))|lia].
  - apply (side_cases _ (side o)).
    + rewrite Hown. apply Forall_forall. intros y Hy. specialize (Hpast (side o)).
      rewrite Forall_forall in Hpast. rewrite Hnext.
      destruct (remainder_rests o w); [apply x_insert_elem in Hy as [->|Hy]|].
      * simpl. lia.
      * specialize (Hpast _ Hy). simpl in *. lia.
      * specialize (Hpast _ Hy). simpl in *. lia.
    + rewrite Hopp, Hnext. eapply walk_rest_forall; [eapply rests_pos, Hx| |done|].
      * by intros a r Ha _.
      * eapply Forall_impl; [apply Hpast|]. simpl. lia.
  - rewrite Hown. destruct (remainder_rests o w) eqn:Er; [|done].
    apply x_insert_time_sorted; [by apply remainder_rests_ok| |apply Hx|done].
    pose proof (rests_num _ _ (pr_rests _ Hx (side o))) as Hnum. specialize (Hpast (side o)).
    rewrite Forall_forall in *. intros y Hy. split; [by apply Hnum|]. by apply Hpast.
  - rewrite Hopp. eapply walk_rest_sorted; [|done|apply Hsort]. done.
Qed.
End submit_timed.

Lemma timed_sublist x x' :
  (forall s, sublist (x_side s x') (x_side s x)) -> x_next x' = x_next x -> timed x ->
  timed x' /\ clock_potential x' <= clock_potential x.
Proof.
  intros Hsub Hnext [H1 H2 H3]. split; [split|].
  - intros s. specialize (H1 s). rewrite Forall_forall in *. rewrite Hnext. intros y Hy.
    apply H1. by eapply elem_of_sublist.
  - intros s. apply (StronglySorted_sublist _ _ _ (Hsub s) (H2 s)).
  - by rewrite Hnext.
  - unfold clock_potential. rewrite Hnext.
    pose proof (sublist_length _ _ (Hsub BUY)). pose proof (sublist_length _ _ (Hsub SELL)).
    simpl in *. lia.
Qed.

(** ** Price-time priority *)

(** [a] has priority over [b]: a better price, or the same price and earlier. *)
Definition ahead (s : Side) (a b : Order) : Prop :=
  side_lt s (price a) (price b) = true \/ (price a ≡ᵖ price b /\ timestamp a < timestamp b).

Lemma ahead_irrefl s a : ~ ahead s a a.
Proof. intros [H|[_ H]]; [by rewrite side_lt_irrefl in H|lia]. Qed.

(** Priority is the order of the list. *)
Lemma ahead_first s l1 l2 a b :
  price_sorted s (l1 ++ l2) -> time_sorted (l1 ++ l2) ->
  a ∈ l1 ++ l2 -> b ∈ l1 -> ahead s a b -> a ∈ l1.
Proof.
  intros Hp Ht Ha Hb Hab. apply elem_of_app in Ha as [Ha|Ha]; [done|].
  pose proof (StronglySorted_app_1_elem_of _ _ _ _ _ Hp Hb Ha) as H1.
  pose proof (StronglySorted_app_1_elem_of _ _ _ _ _ Ht Hb Ha) as H2. simpl in *.
  destruct Hab as [H|[H H']]; [congruence|]. symmetry in H. specialize (H2 H). lia.
Qed.

(** Priority is the order of the list: [a] comes somewhere before [b]. *)
Lemma ahead_before s l1 b l2 a :
  price_sorted s (l1 ++ b :: l2) -> time_sorted (l1 ++ b :: l2) ->
  a ∈ l1 ++ b :: l2 -> ahead s a b -> a ∈ l1.
Proof.
  intros Hp Ht Ha Hab. rewrite cons_middle, app_assoc in Hp, Ht, Ha.
  assert (a ∈ l1 ++ [b]) as Ha' by (apply (ahead_first s (l1 ++ [b]) l2 a b); [done..|set_solver|done]).
  apply elem_of_app in Ha' as [?|Ha']; [done|]. apply list_elem_of_singleton in Ha' as ->.
  by apply ahead_irrefl in Hab.
Qed.

(** The orders filled are the first ones of the list; all before a filled one are
    filled completely, and only what comes from it on is left. *)
Lemma walk_fills_split inc q l w b n fs1 fs2 :
  walk_view inc q l w -> w_fills w = fs1 ++ (b, n) :: fs2 ->
  exists l1 l2, l = l1 ++ b :: l2 /\ fs1 = filled <$> l1 /\
    forall x, x ∈ w_rest w -> exists y, y ∈ b :: l2 /\ order_id y = order_id x.
Proof.
  assert (forall dn fs2, filled <$> dn = fs1 ++ (b, n) :: fs2 ->
    exists l1 d2, dn = l1 ++ b :: d2 /\ fs1 = filled <$> l1) as Hsplit.
  { intros dn gs (l1 & d & E & Hd & ->)%fmap_app_inv. destruct d as [|x d2]; [done|].
    rewrite fmap_cons in Hd. injection Hd as -> _ _. by exists l1, d2. }
  intros [dn tl left -> _ _ _ _|dn o tl f -> _ Hf _] Hb; unfold w_fills, w_rest in *; cbn [fst snd] in *.
  - destruct (Hsplit _ _ Hb) as (l1 & d2 & -> & ->). exists l1, (d2 ++ tl). rewrite <-app_assoc.
    split_and!; [done|done|]. intros x Hx. exists x. set_solver.
  - destruct fs2 as [|g fs2 _] using rev_ind.
    + apply app_inj_tail in Hb as [<- [= -> ->]]. exists dn, tl. split_and!; [done|done|].
      intros x [->|Hx]%elem_of_cons; [exists b|exists x]; set_solver.
    + rewrite app_comm_cons, app_assoc in Hb. apply app_inj_tail in Hb as [Hb _].
      destruct (Hsplit _ _ Hb) as (l1 & d2 & -> & ->). exists l1, (d2 ++ o :: tl). rewrite <-app_assoc.
      split_and!; [done|done|]. intros x [->|Hx]%elem_of_cons; [exists o|exists x]; set_solver.
Qed.

(** An order with priority over one that is filled is filled completely, and before it. *)
Lemma walk_priority s inc q l w a b n fs1 fs2 :
  walk_view inc q l w -> price_sorted s l -> time_sorted l ->
  a ∈ l -> ahead s a b -> w_fills w = fs1 ++ (b, n) :: fs2 ->
  exists l1 l2, l = l1 ++ b :: l2 /\ a ∈ l1 /\ (a, remaining_quantity a) ∈ fs1 /\
    (forall x, x ∈ w_rest w -> exists y, y ∈ b :: l2 /\ order_id y = order_id x).
Proof.
  intros Hw Hp Ht Ha Hab Hb. destruct (walk_fills_split _ _ _ _ _ _ _ _ Hw Hb) as (l1 & l2 & -> & -> & Hrest).
  pose proof (ahead_before s l1 b l2 a Hp Ht Ha Hab) as Ha1.
  exists l1, l2. split_and!; [done|done| |done]. by apply (list_elem_of_fmap_2 filled).
Qed.
