(* ===== verification/CancelIndex.v ===== *)
(** * Cancellation and the cancel index

    [cancel_order] finds an order through [cancel_index_].  When live orders have
    distinct ids, the index holds exactly the live orders, every operation keeps
    it so, and a cancellation removes exactly the order of that id. *)

From S2P Require Import Prelude Double StdMap Order PriceCollar OrderBook MatchingEngine Exchange ExchangeFacts Refinement.

(** ** Cancelling inside a level *)

Lemma cancel_in_level_sublist id dq dq' :
  cancel_in_level id dq = Some dq' -> sublist dq' dq /\ (dq <> [] -> dq' <> []).
Proof.
  unfold cancel_in_level. destruct (erase_id id dq) as [[|o l]|] eqn:E; intros [= <-]; [|done].
  split; [by apply (erase_id_sublist id)|done].
Qed.

Lemma map_adjust_cancel_ok s m p id :
  side_ok s m -> side_ok s (map_adjust (side_lt s) m p (cancel_in_level id)).
Proof.
  intros [Hl Hs]. split; [|by apply (map_adjust_sorted (D := num))].
  rewrite Forall_forall in *. intros q Hq.
  destruct (map_adjust_elem (D := num) _ _ _ _ Hq) as [?|(dq&dq'&Hin&E&Hq2&_)]; [auto|].
  destruct (Hl _ Hin) as (Hk&Hne&Hdq), (cancel_in_level_sublist _ _ _ E) as [Hsub Hne'].
  simpl in *. unfold level_ok. rewrite Hq2. split_and!; [done|auto|].
  rewrite Forall_forall in *. intros o Ho. apply Hdq. by eapply elem_of_sublist.
Qed.

Lemma map_adjust_cancel_sublist s m p id :
  sublist (concat (map_adjust (side_lt s) m p (cancel_in_level id)).*2) (concat m.*2).
Proof.
  induction m as [|[k dq] m IH]; cbn [map_adjust]; [done|]. rewrite fmap_cons. cbn [concat snd].
  destruct (side_lt s k p); [|destruct (side_lt s p k)];
    rewrite ?fmap_cons; cbn [concat snd]; [by apply sublist_app|done|].
  destruct (cancel_in_level id dq) as [dq'|] eqn:E; rewrite ?fmap_cons; cbn [concat snd].
  - apply sublist_app; [by eapply cancel_in_level_sublist|done].
  - by apply sublist_inserts_l.
Qed.

(** Cancelling never invents or reorders orders, whatever the index says. *)
Lemma cancel_order_shrinks b id :
  book_ok b ->
  book_ok (cancel_order b id).1 /\
  (forall s, sublist (resting s (cancel_order b id).1) (resting s b)).
Proof.
  intros Hb. unfold cancel_order. destruct (cancel_index_ b !! id) as [[s p]|]; simpl; [|done].
  destruct s; simpl; split; intros [].
  all: unfold resting; simpl; try done; try apply (Hb BUY); try apply (Hb SELL).
  - apply (map_adjust_cancel_ok BUY), (Hb BUY).
  - apply (map_adjust_cancel_sublist BUY).
  - apply (map_adjust_cancel_ok SELL), (Hb SELL).
  - apply (map_adjust_cancel_sublist SELL).
Qed.

(** ** Removing an order from its level removes it from the side *)

Lemma erase_id_app_skip id l k :
  Forall (fun x => order_id x <> id) l -> erase_id id (l ++ k) = app l <$> erase_id id k.
Proof.
  induction 1 as [|x l Hx _ IH]; simpl; [by destruct (erase_id id k)|].
  rewrite (proj2 (Z.eqb_neq _ _) Hx), IH. by destruct (erase_id id k).
Qed.

Lemma erase_id_app_found id l k l' :
  erase_id id l = Some l' -> erase_id id (l ++ k) = Some (l' ++ k).
Proof.
  revert l'. induction l as [|x l IH]; intros l'; simpl; [done|].
  destruct (order_id x =? id); [by intros [= <-]|].
  destruct (erase_id id l) as [l''|]; intros [= <-]. by rewrite (IH l'').
Qed.

Lemma cancel_in_level_concat id dq dq' k m :
  erase_id id dq = Some dq' ->
  concat (match cancel_in_level id dq with Some v => (k, v) :: m | None => m end).*2 =
  dq' ++ concat (m : list level).*2.
Proof. unfold cancel_in_level. intros ->. by destruct dq'. Qed.

(** The search by price finds the order when every order of that id has a price
    equivalent to the one looked up. *)
Lemma concat_cancel s m p id :
  num p -> side_ok s m ->
  (exists o, o ∈ concat m.*2 /\ order_id o = id) ->
  (forall o, o ∈ concat m.*2 -> order_id o = id -> price o ≡ᵖ p) ->
  erase_id id (concat m.*2) =
  Some (concat (map_adjust (side_lt s) m p (cancel_in_level id)).*2).
Proof.
  intros Hp. induction m as [|[k dq] m IH]; intros Hok [o [Ho Hid]] Hall; [by apply elem_of_nil in Ho|].
  pose proof Hok as [Hl Hs]. apply Forall_cons in Hl as [(Hk&_&Hdq) Hl].
  apply StronglySorted_inv in Hs as [Hs Hlt]. cbn [fst snd] in *.
  rewrite fmap_cons in *. cbn [concat snd map_adjust] in *.
  assert (Hlevel : forall b, side_lt s k p = b -> forall x, x ∈ dq -> side_lt s (price x) p = b).
  { intros b <- x Hx. rewrite Forall_forall in Hdq. by destruct (Hdq _ Hx) as (_&_&->&_). }
  assert (Hlater : side_lt s k p = false -> forall x, x ∈ concat m.*2 -> ~ price x ≡ᵖ p).
  { intros E x Hx Heq. apply elem_of_concat in Hx as (dq'&Hx&Hdq').
    apply list_elem_of_fmap in Hdq' as ([k' dq'']&->&Hin). simpl in Hx.
    rewrite Forall_forall in Hl, Hlt. destruct (Hl _ Hin) as (Hk'&_&Hdq'').
    rewrite Forall_forall in Hdq''. destruct (Hdq'' _ Hx) as (_&_&Hx'&_). specialize (Hlt _ Hin).
    simpl in *. rewrite <- Hx', Heq in Hlt. congruence. }
  destruct (side_lt s k p) eqn:E1.
  - assert (Hskip : Forall (fun x => order_id x <> id) dq).
    { apply Forall_forall. intros x Hx Hxid. pose proof (Hlevel true eq_refl x Hx) as Hx'.
      rewrite (Hall x), side_lt_irrefl in Hx'; set_solver. }
    rewrite fmap_cons. cbn [concat snd]. rewrite erase_id_app_skip by done.
    rewrite IH; [done|by split| |set_solver].
    exists o. split; [|done]. apply elem_of_app in Ho as [Ho|Ho]; [|done].
    rewrite Forall_forall in Hskip. by destruct (Hskip o).
  - assert (Hin : o ∈ dq).
    { apply elem_of_app in Ho as [Ho|Ho]; [done|].
      destruct (Hlater eq_refl o Ho). set_solver. }
    destruct (side_lt s p k) eqn:E2.
    { rewrite Forall_forall in Hdq. destruct (Hdq _ Hin) as (_&_&Heq&_).
      rewrite <- Heq, (Hall o), side_lt_irrefl in E2; set_solver. }
    destruct (erase_id id dq) as [dq'|] eqn:E.
    + rewrite (erase_id_app_found _ _ _ _ E). by rewrite (cancel_in_level_concat _ _ dq').
    + pose proof (erase_id_spec id dq) as Hnone. rewrite E, Forall_forall in Hnone.
      by destruct (Hnone _ Hin).
Qed.

(** ** The index of a set of orders *)

(** [ix] is the cancel index of the orders [l], which have distinct ids. *)
Definition indexes (ix : gmap Z CancelInfo) (l : list Order) : Prop :=
  NoDup (order_id <$> l) /\
  forall id ci, ix !! id = Some ci <->
                exists o, o ∈ l /\ order_id o = id /\ ci = mkCancelInfo (side o) (price o).

#[global] Instance indexes_proper ix : Proper (Permutation ==> iff) (indexes ix).
Proof. intros l l' Hp. unfold indexes. by setoid_rewrite Hp. Qed.

Lemma indexes_insert ix o l :
  indexes ix l -> order_id o ∉ order_id <$> l ->
  indexes (<[order_id o := mkCancelInfo (side o) (price o)]> ix) (o :: l).
Proof.
  intros [Hnd Hix] Hfresh. split; [by constructor|]. intros id ci.
  rewrite lookup_insert. case_decide as Hid.
  - split; [intros [= <-]; exists o; set_solver|].
    intros (o'&Ho'&Hid'&->). apply elem_of_cons in Ho' as [->|Ho']; [done|].
    destruct Hfresh. apply list_elem_of_fmap. exists o'. split; [congruence|done].
  - rewrite Hix. split; intros (o'&Ho'&?&?); exists o'; set_solver.
Qed.

Lemma indexes_delete ix o l : indexes ix (o :: l) -> indexes (delete (order_id o) ix) l.
Proof.
  intros [Hnd Hix]. rewrite fmap_cons in Hnd. apply NoDup_cons in Hnd as [Hfresh Hnd].
  split; [done|]. intros id ci. rewrite lookup_delete. case_decide as Hid.
  - split; [done|]. intros (o'&Ho'&Hid'&_). destruct Hfresh. apply list_elem_of_fmap.
    exists o'. split; [congruence|done].
  - rewrite Hix. split; intros (o'&Ho'&?&?); exists o'; set_solver.
Qed.

Lemma indexes_with_remaining ix o r l :
  indexes ix (o :: l) -> indexes ix (with_remaining o r :: l).
Proof.
  intros [Hnd Hix]. split; [done|]. intros id ci. rewrite Hix.
  split; intros (o'&[->|Ho']%elem_of_cons&?&?).
  - exists (with_remaining o r). set_solver.
  - exists o'. set_solver.
  - exists o. set_solver.
  - exists o'. set_solver.
Qed.

Lemma indexes_filled ix dn l : indexes ix (dn ++ l) -> indexes (unindex ix (filled <$> dn)) l.
Proof.
  revert ix. induction dn as [|o dn IH]; intros ix H; simpl; [done|].
  rewrite Z.eqb_refl. apply IH. by apply indexes_delete.
Qed.

Lemma unindex_app ix fs gs : unindex ix (fs ++ gs) = unindex (unindex ix fs) gs.
Proof. apply foldl_app. Qed.

Lemma indexes_walk ix inc q l w k :
  walk_view inc q l w -> indexes ix (l ++ k) -> indexes (unindex ix (w_fills w)) (w_rest w ++ k).
Proof.
  intros [dn tl left -> _ _ _ _|dn o tl f -> _ Hf _] H; rewrite <- app_assoc in H;
    apply indexes_filled in H; unfold w_fills, w_rest; simpl.
  - done.
  - rewrite unindex_app. simpl. rewrite (proj2 (Z.eqb_neq _ _)) by lia.
    by apply indexes_with_remaining.
Qed.

(** ** The invariant of the book *)

Definition live (b : OrderBook) : list Order := resting BUY b ++ resting SELL b.

Definition index_ok (b : OrderBook) : Prop := indexes (cancel_index_ b) (live b).

Definition live_ids (b : OrderBook) : list Z := order_id <$> live b.

Lemma live_sides s b : Permutation (live b) (resting s b ++ resting (opposite s) b).
Proof. destruct s; simpl; [done|]. apply Permutation_app_comm. Qed.

Lemma resting_elem_ok s b o :
  side_ok s (levels s b) -> o ∈ resting s b -> side o = s /\ num (price o).
Proof.
  intros Hok Ho. assert (HF : Forall (fun o => side o = s /\ num (price o)) (resting s b)).
  { apply resting_forall; [done|]. intros k x Hk (?&_&Hp&_). split; [done|].
    by eapply dequiv_num, Hk. }
  rewrite Forall_forall in HF. by apply HF.
Qed.

Lemma indexes_unique ix l o o' :
  indexes ix l -> o ∈ l -> o' ∈ l -> order_id o = order_id o' -> o = o'.
Proof.
  intros [Hnd _] Ho Ho' E. apply list_elem_of_lookup in Ho as [i Hi], Ho' as [j Hj].
  assert (i = j) as ->; [|congruence].
  eapply NoDup_lookup; [exact Hnd|..]; rewrite list_lookup_fmap.
  - by rewrite Hi.
  - rewrite Hj. simpl. by rewrite E.
Qed.

(** Cancelling on the side that holds the order. *)
Lemma cancel_side s b id o :
  book_ok b -> index_ok b -> o ∈ resting s b -> order_id o = id ->
  let b' := (cancel_order b id).1 in
  (cancel_order b id).2 = true /\
  erase_id id (resting s b) = Some (resting s b') /\
  resting (opposite s) b' = resting (opposite s) b /\
  erase_id id (resting (opposite s) b) = None /\
  cancel_index_ b' = delete id (cancel_index_ b).
Proof.
  intros Hb Hix Ho Hid. destruct (resting_elem_ok s b o (Hb s) Ho) as [Hside Hnum].
  assert (Hl : o ∈ live b) by (rewrite (live_sides s); set_solver).
  assert (Hlook : cancel_index_ b !! id = Some (mkCancelInfo s (price o))).
  { apply Hix. exists o. by rewrite Hside. }
  assert (Huniq : forall o', o' ∈ live b -> order_id o' = id -> o' = o).
  { intros o' Ho' Hid'. eapply indexes_unique; [exact Hix|..]; congruence. }
  assert (Hother : erase_id id (resting (opposite s) b) = None).
  { pose proof (erase_id_spec id (resting (opposite s) b)) as H.
    destruct (erase_id id _) as [l'|]; [|done]. destruct H as (x&o'&y&E&_&Hid'&_).
    assert (Ho' : o' ∈ resting (opposite s) b) by (rewrite E; set_solver).
    assert (o' = o) as -> by (apply Huniq; [rewrite (live_sides s); set_solver|done]).
    destruct (resting_elem_ok _ _ _ (Hb (opposite s)) Ho') as [Hs' _].
    destruct (opposite_ne s). congruence. }
  pose proof (concat_cancel s (levels s b) (price o) id Hnum (Hb s)) as Hc.
  unfold cancel_order. rewrite Hlook.
  destruct s; simpl in *; split_and!; try done; apply Hc; eauto;
    intros o' Ho' Hid'; by rewrite (Huniq o') by (done || (unfold live, resting; set_solver)).
Qed.

Lemma cancel_absent b id :
  index_ok b -> id ∉ live_ids b ->
  cancel_order b id = (b, false) /\ forall s, erase_id id (resting s b) = None.
Proof.
  intros Hix Hid. split.
  - unfold cancel_order. destruct (cancel_index_ b !! id) as [ci|] eqn:E; [|done].
    apply Hix in E as (o&Ho&<-&_). destruct Hid. by apply list_elem_of_fmap_2.
  - intros s. pose proof (erase_id_spec id (resting s b)) as H.
    destruct (erase_id id _) as [l'|]; [|done]. destruct H as (x&o'&y&E&_&Hid'&_).
    destruct Hid. rewrite <- Hid'. apply list_elem_of_fmap_2. rewrite (live_sides s), E. set_solver.
Qed.

Lemma live_ids_side id b : id ∈ live_ids b -> exists s o, o ∈ resting s b /\ order_id o = id.
Proof.
  intros (o&->&[Ho|Ho]%elem_of_app)%list_elem_of_fmap; [exists BUY, o|exists SELL, o]; done.
Qed.

(** ** The engine's cancellation refines the exchange's *)

Lemma erase_id_perm id l l' o :
  erase_id id l = Some l' -> (forall x, x ∈ l -> order_id x = id -> x = o) -> Permutation l (o :: l').
Proof.
  intros E Huniq. pose proof (erase_id_spec id l) as H. rewrite E in H.
  destruct H as (a&o'&b&->&->&Hid&_). rewrite <- (Huniq o') by set_solver.
  by rewrite Permutation_middle.
Qed.

Lemma engine_cancel_refines e id :
  book_ok (book_ e) -> index_ok (book_ e) ->
  let '(e', r) := engine_cancel_order e id in
  x_cancel (abs e) id = (abs e', r) /\ book_ok (book_ e') /\ index_ok (book_ e') /\
  (forall s, sublist (resting s (book_ e')) (resting s (book_ e))).
Proof.
  intros Hb Hix. unfold engine_cancel_order.
  destruct (decide (id ∈ live_ids (book_ e))) as [Hin|Hout].
  - destruct (live_ids_side _ _ Hin) as (s&o&Ho&Hid).
    destruct (cancel_side s _ id o Hb Hix Ho Hid) as (Hr&Hown&Hopp&Hnone&Hdel).
    destruct (cancel_order_shrinks (book_ e) id Hb) as [Hb' Hsub].
    destruct (cancel_order (book_ e) id) as [b' r]. simpl in *. subst r. split_and!; try done.
    + unfold x_cancel. destruct s; simpl in *; rewrite ?Hnone, Hown; unfold abs; simpl; by rewrite Hopp.
    + unfold index_ok. rewrite Hdel, (live_sides s). subst id. apply indexes_delete.
      rewrite Hopp. change (o :: ?l ++ ?k) with ((o :: l) ++ k).
      rewrite <- (erase_id_perm (order_id o) (resting s (book_ e))), <- (live_sides s); [done..|].
      intros x Hx Hxid. eapply indexes_unique; [exact Hix|..|done]; rewrite (live_sides s); set_solver.
  - destruct (cancel_absent _ _ Hix Hout) as [-> Hnone]. simpl. split_and!; try done.
    + unfold x_cancel. pose proof (Hnone BUY) as H1. pose proof (Hnone SELL) as H2.
      simpl in *. rewrite H1, H2. by destruct e.
Qed.

(** ** Submissions keep the index exact *)

(** The resting orders after a submission, in terms of the walk. *)
Lemma live_submitted e e1 o w :
  abs e1 = x_walked (abs e) (opposite (side o)) w ->
  resting (opposite (side o)) (book_ e1) = w_rest w /\
  resting (side o) (book_ e1) = resting (side o) (book_ e).
Proof.
  intros Habs. rewrite <- !x_side_abs, Habs. unfold x_walked. by destruct (side o).
Qed.

Lemma live_add_resting b o :
  book_ok b -> num (price o) -> Permutation (live (add_resting_order b o)) (o :: live b).
Proof.
  intros Hb Ho. rewrite !(live_sides (side o)), add_resting_order_resting by done.
  unfold resting at 2. rewrite add_resting_order_other by apply opposite_ne.
  by rewrite x_insert_perm.
Qed.

Lemma submit_order_index e o e' r :
  book_ok (book_ e) -> index_ok (book_ e) -> admissible o ->
  order_id o ∉ live_ids (book_ e) -> submit_order e o = Ret (e', r) ->
  index_ok (book_ e') /\
  (forall id, id ∈ live_ids (book_ e') -> id = order_id o \/ id ∈ live_ids (book_ e)).
Proof.
  intros Hb Hix Hadm Hfresh Hsub.
  destruct (accepted (x_verdict (abs e) o)) eqn:Hacc.
  2: { rewrite submit_order_rejected in Hsub by done. injection Hsub as <- <-. auto. }
  destruct (submit_order_accepted e o Hb Hadm Hacc) as (e1&Habs&Hb1&Hix1&Hsub').
  rewrite Hsub' in Hsub. injection Hsub as <- <-. clear Hsub'.
  set (inc := x_arrive (abs e) o) in *. set (w := walk _ _ _) in *.
  destruct (live_submitted e e1 o w Habs) as [Hopp Hown].
  assert (Hw : walk_view inc (quantity o) (resting (opposite (side o)) (book_ e)) w).
  { apply walk_correct; [destruct Hadm as [[? _] _]; done|].
    apply resting_forall; [apply Hb|]. intros k x _ (_&_&_&?&_). lia. }
  assert (Hperm : Permutation (live (book_ e1)) (w_rest w ++ resting (side o) (book_ e))).
  { rewrite (live_sides (side o)), Hopp, Hown. apply Permutation_app_comm. }
  assert (Hix' : index_ok (book_ e1)).
  { unfold index_ok. rewrite Hix1, Hperm. eapply indexes_walk; [exact Hw|].
    unfold index_ok in Hix. rewrite (live_sides (side o)) in Hix.
    by rewrite Permutation_app_comm in Hix. }
  assert (Hids : forall id, id ∈ live_ids (book_ e1) -> id ∈ live_ids (book_ e)).
  { intros id (y&->&Hy)%list_elem_of_fmap. rewrite Hperm in Hy. apply list_elem_of_fmap.
    setoid_rewrite (live_sides (side o)). apply elem_of_app in Hy as [Hy|Hy].
    - destruct (walk_rest_elem _ _ _ _ _ Hw Hy) as (z&Hz&Hid&_). exists z. set_solver.
    - exists y. set_solver. }
  destruct ((0 <? w_left w) && _) eqn:Er; [|by auto].
  apply andb_true_iff in Er as [_ Ht]. destruct (type o) eqn:Et; [|done].
  set (inc' := with_remaining inc (w_left w)).
  pose proof (live_add_resting (book_ e1) inc' Hb1 (proj2 Hadm Et)) as Hadd.
  split.
  - unfold index_ok. cbn [with_book book_]. rewrite Hadd, add_resting_order_index. apply (indexes_insert _ inc'); [done|].
    intros Hin. by apply Hfresh, Hids.
  - intros id (y&->&Hy)%list_elem_of_fmap. cbn [with_book book_] in Hy. rewrite Hadd in Hy.
    apply elem_of_cons in Hy as [->|Hy]; [by left|]. right. apply Hids. by apply list_elem_of_fmap_2.
Qed.

(** ** A cancellation filters the two sides *)

Lemma erase_id_filter id l l' :
  NoDup (order_id <$> l) -> erase_id id l = Some l' -> l' = filter (fun o => order_id o <> id) l.
Proof.
  intros Hnd E. pose proof (erase_id_spec id l) as H. rewrite E in H.
  destruct H as (a&o&b&->&->&Hid&Ha). rewrite filter_app, filter_cons_False by congruence.
  rewrite fmap_app, fmap_cons in Hnd. apply NoDup_app in Hnd as (_&_&Hnd).
  apply NoDup_cons in Hnd as [Hb _]. rewrite !filter_id; [done| |by apply Forall_forall].
  intros x Hx Hxid. apply Hb. rewrite Hid, <- Hxid. by apply list_elem_of_fmap_2.
Qed.

Lemma erase_id_None_filter id l :
  erase_id id l = None -> filter (fun o => order_id o <> id) l = l.
Proof.
  intros E. pose proof (erase_id_spec id l) as H. rewrite E, Forall_forall in H.
  by apply filter_id.
Qed.

Lemma side_ids_NoDup s b : index_ok b -> NoDup (order_id <$> resting s b).
Proof.
  intros [Hnd _]. rewrite (live_sides s), fmap_app in Hnd. by apply NoDup_app in Hnd as (?&_&_).
Qed.

Lemma cancel_filters e id :
  book_ok (book_ e) -> index_ok (book_ e) ->
  let '(e', found) := engine_cancel_order e id in
  (found = true <-> id ∈ live_ids (book_ e)) /\
  forall s, resting s (book_ e') = filter (fun o => order_id o <> id) (resting s (book_ e)).
Proof.
  intros Hb Hix. unfold engine_cancel_order.
  destruct (decide (id ∈ live_ids (book_ e))) as [Hin|Hout].
  - destruct (live_ids_side _ _ Hin) as (s&o&Ho&Hid).
    destruct (cancel_side s _ id o Hb Hix Ho Hid) as (Hr&Hown&Hopp&Hnone&_).
    destruct (cancel_order (book_ e) id) as [b' r]. simpl in *. subst r. split; [done|].
    apply (side_cases _ s).
    + apply erase_id_filter; [by apply side_ids_NoDup|done].
    + rewrite Hopp. symmetry. by apply erase_id_None_filter.
  - destruct (cancel_absent _ _ Hix Hout) as [-> Hnone]. simpl. split; [done|].
    intros s. symmetry. by apply erase_id_None_filter.
Qed.

(** ** Ids shared by several live orders

    Nothing keeps two live orders from having one id.  A cancellation removes at
    most one of them, and the index entry with it. *)

Definition has_id (id : Z) (o : Order) : Prop := order_id o = id.

#[global] Instance has_id_dec id o : Decision (has_id id o).
Proof. unfold has_id. apply _. Defined.

(** The number of live orders of an id. *)
Definition live_count (id : Z) (b : OrderBook) : nat := length (filter (has_id id) (live b)).

Lemma live_count_ids id b : (0 < live_count id b)%nat -> id ∈ live_ids b.
Proof.
  unfold live_count. destruct (filter _ _) as [|o l] eqn:E; simpl; [lia|]. intros _.
  assert (o ∈ filter (has_id id) (live b)) as Ho by (rewrite E; set_solver).
  apply list_elem_of_filter in Ho as [<- Ho]. by apply list_elem_of_fmap_2.
Qed.

Lemma cancel_in_level_count id dq :
  (length (filter (has_id id) dq) <=
   S (length (filter (has_id id) (default [] (cancel_in_level id dq)))))%nat.
Proof.
  unfold cancel_in_level. pose proof (erase_id_spec id dq) as H.
  destruct (erase_id id dq) as [dq'|]; [|simpl; lia]. destruct H as (a & o & b & -> & -> & Ho & _).
  replace (default [] _) with (a ++ b) by (by destruct (a ++ b)).
  rewrite !filter_app, !length_app, filter_cons_True by done. simpl. lia.
Qed.

Lemma map_adjust_cancel_count s m p id :
  (length (filter (has_id id) (concat m.*2)) <=
   S (length (filter (has_id id) (concat (map_adjust (side_lt s) m p (cancel_in_level id)).*2))))%nat.
Proof.
  induction m as [|[k dq] m IH]; cbn [map_adjust]; [simpl; lia|].
  pose proof (cancel_in_level_count id dq) as Hdq. rewrite fmap_cons. cbn [concat snd].
  destruct (side_lt s k p); [|destruct (side_lt s p k)]; rewrite ?fmap_cons; cbn [concat snd];
    rewrite ?filter_app, ?length_app; [lia|lia|].
  destruct (cancel_in_level id dq) as [dq'|]; rewrite ?fmap_cons; cbn [concat snd];
    rewrite ?filter_app, ?length_app; simpl in *; lia.
Qed.

Lemma cancel_order_count b id : (live_count id b <= S (live_count id (cancel_order b id).1))%nat.
Proof.
  unfold live_count, live, cancel_order. destruct (cancel_index_ b !! id) as [[s p]|]; [|simpl; lia].
  destruct s; cbn [fst ci_side ci_price]; rewrite !filter_app, !length_app; unfold resting; simpl.
  - pose proof (map_adjust_cancel_count BUY (bids_ b) p id). simpl in *. lia.
  - pose proof (map_adjust_cancel_count SELL (asks_ b) p id). simpl in *. lia.
Qed.

Lemma cancel_order_unindexes b id : cancel_index_ (cancel_order b id).1 !! id = None.
Proof.
  unfold cancel_order. destruct (cancel_index_ b !! id) as [ci|] eqn:E; [|done].
  cbn. by rewrite lookup_delete_eq.
Qed.

(** An id without an entry gets one only from a submission of that id. *)
Lemma unindex_absent ix fs id : ix !! id = None -> unindex ix fs !! id = None.
Proof.
  revert ix. induction fs as [|[o q] fs IH]; intros ix Hix; simpl; [done|]. apply IH.
  destruct (q =? _); [|done]. rewrite lookup_delete. by case_decide.
Qed.

Lemma submit_order_absent e o e' r id :
  book_ok (book_ e) -> admissible o -> order_id o <> id -> cancel_index_ (book_ e) !! id = None ->
  submit_order e o = Ret (e', r) -> cancel_index_ (book_ e') !! id = None.
Proof.
  intros Hb Hadm Hne Hix Hs. destruct (accepted (x_verdict (abs e) o)) eqn:Hacc.
  2: { rewrite submit_order_rejected in Hs by done. by injection Hs as <- <-. }
  destruct (submit_order_accepted e o Hb Hadm Hacc) as (e1 & _ & _ & Hix1 & Hs'). rewrite Hs' in Hs.
  pose proof (unindex_absent _ (w_fills (walk (x_arrive (abs e) o) (quantity o)
    (resting (opposite (side o)) (book_ e)))) id Hix) as Hun. rewrite <-Hix1 in Hun.
  destruct (_ && _); injection Hs as <- <-; [|done]. cbn [with_book book_].
  rewrite add_resting_order_index. cbn. by rewrite lookup_insert_ne.
Qed.

Lemma cancel_order_absent b id id' :
  cancel_index_ b !! id = None -> cancel_index_ (cancel_order b id').1 !! id = None.
Proof.
  intros Hix. unfold cancel_order. destruct (cancel_index_ b !! id') as [ci|]; [|done]. cbn.
  rewrite lookup_delete. case_decide; [done|]. by destruct (ci_side ci).
Qed.
