(* ===== verification/Session.v ===== *)
(** * Sessions of the matching engine

    A session is any sequence of submissions and cancellations served by one
    engine from its construction on.  This file proves the properties of the
    engine that hold in every state a session can reach. *)

From S2P Require Import Prelude Double StdMap Order PriceCollar OrderBook MatchingEngine Exchange ExchangeFacts Refinement CancelIndex.

(** ** Definitions *)

Inductive request := Submit (o : Order) | Cancel (id : Z).
Inductive reply := Submitted (r : SubmitResult) | Cancelled (found : bool).

(** One call on the public interface of [MatchingEngine]. *)
Definition serve (e : MatchingEngine) (q : request) : outcome (MatchingEngine * reply) :=
  match q with
  | Submit o => p ← submit_order e o; Ret (p.1, Submitted p.2)
  | Cancel id => let p := engine_cancel_order e id in Ret (p.1, Cancelled p.2)
  end.

Fixpoint serve_all (e : MatchingEngine) (qs : list request) : outcome (MatchingEngine * list reply) :=
  match qs with
  | [] => Ret (e, [])
  | q :: qs' =>
      p ← serve e q;
      p' ← serve_all p.1 qs';
      Ret (p'.1, p.2 :: p'.2)
  end.

(** The same on the abstract exchange. *)
Definition x_serve (x : exchange) (q : request) : exchange * reply :=
  match q with
  | Submit o => let p := x_submit x o in (p.1, Submitted p.2)
  | Cancel id => let p := x_cancel x id in (p.1, Cancelled p.2)
  end.

Fixpoint x_serve_all (x : exchange) (qs : list request) : exchange * list reply :=
  match qs with
  | [] => (x, [])
  | q :: qs' =>
      let p := x_serve x q in
      let p' := x_serve_all p.1 qs' in
      (p'.1, p.2 :: p'.2)
  end.

Definition request_ok (q : request) : Prop :=
  match q with Submit o => admissible o | Cancel _ => True end.

#[global] Instance request_ok_dec q : Decision (request_ok q).
Proof. destruct q; apply _. Defined.

Definition submit_ids (qs : list request) : list Z :=
  omap (fun q => match q with Submit o => Some (order_id o) | Cancel _ => None end) qs.

Lemma submit_ids_cons q qs : submit_ids (q :: qs) = submit_ids [q] ++ submit_ids qs.
Proof. by destruct q. Qed.

(** The states of an engine. *)
Definition reachable (e : MatchingEngine) : Prop :=
  exists band qs rs, Forall request_ok qs /\ serve_all (new_MatchingEngine band) qs = Ret (e, rs).

Lemma serve_all_snoc e qs q e1 rs e2 r :
  serve_all e qs = Ret (e1, rs) -> serve e1 q = Ret (e2, r) ->
  serve_all e (qs ++ [q]) = Ret (e2, rs ++ [r]).
Proof.
  revert e rs. induction qs as [|q' qs IH]; intros e rs Hs Hq; simpl in *.
  - injection Hs as <- <-. by rewrite Hq.
  - apply bind_Ret in Hs as ([e' r']&Hs1&Hs). apply bind_Ret in Hs as ([e'' rs']&Hs2&[= -> <-]).
    simpl in *. rewrite Hs1. simpl. by rewrite (IH _ _ Hs2 Hq).
Qed.

(** ** Invariants of sessions *)

Definition engine_ok (e : MatchingEngine) : Prop := book_ok (book_ e) /\ priced (abs e).

Lemma new_engine_ok band : engine_ok (new_MatchingEngine band).
Proof.
  split; [intros []; split; constructor|].
  split; [intros []; constructor..|]. intros b a Hb. by apply elem_of_nil in Hb.
Qed.

Lemma engine_ok_rests e s : engine_ok e -> Forall (rests s) (resting s (book_ e)).
Proof. intros [_ Hx]. rewrite <- x_side_abs. apply Hx. Qed.

Lemma engine_ok_pos e s :
  engine_ok e -> Forall (fun o => 0 < remaining_quantity o) (resting s (book_ e)).
Proof. intros He. by eapply rests_pos, engine_ok_rests. Qed.

Lemma x_side_sublist_abs e e' :
  (forall s, sublist (resting s (book_ e')) (resting s (book_ e))) ->
  forall s, sublist (x_side s (abs e')) (x_side s (abs e)).
Proof. intros H s. rewrite !x_side_abs. apply H. Qed.

Lemma submit_engine_ok e o :
  engine_ok e -> admissible o ->
  exists e' r, submit_order e o = Ret (e', r) /\ engine_ok e' /\ x_submit (abs e) o = (abs e', r).
Proof.
  intros [Hb Hx] Hadm. destruct (submit_order_refines e o Hb Hadm) as (e'&r&Hs&Hb'&Hxs).
  exists e', r. split_and!; try done.
  pose proof (x_submit_priced (abs e) o Hx (proj1 Hadm) (proj2 Hadm)) as Hp. by rewrite Hxs in Hp.
Qed.

Lemma cancel_engine_ok e id : engine_ok e -> engine_ok (engine_cancel_order e id).1.
Proof.
  intros [Hb Hx]. destruct (cancel_order_shrinks (book_ e) id Hb) as [Hb' Hsub].
  unfold engine_cancel_order. destruct (cancel_order (book_ e) id) as [b r]. split; [done|].
  eapply priced_sublist, Hx. by apply x_side_sublist_abs.
Qed.

Lemma serve_engine_ok e q :
  engine_ok e -> request_ok q -> exists e' r, serve e q = Ret (e', r) /\ engine_ok e'.
Proof.
  intros He Hq. destruct q as [o|id]; simpl.
  - destruct (submit_engine_ok e o He Hq) as (e'&r&->&He'&_). simpl. eauto.
  - pose proof (cancel_engine_ok e id He). eauto.
Qed.

Lemma serve_all_engine_ok e qs :
  engine_ok e -> Forall request_ok qs -> exists e' rs, serve_all e qs = Ret (e', rs) /\ engine_ok e'.
Proof.
  intros He Hqs. revert e He. induction Hqs as [|q qs Hq _ IH]; intros e He; simpl; [eauto|].
  destruct (serve_engine_ok e q He Hq) as (e1&r&->&He1). simpl.
  destruct (IH e1 He1) as (e2&rs&->&He2). simpl. eauto.
Qed.

Lemma reachable_engine_ok e : reachable e -> engine_ok e.
Proof.
  intros (band&qs&rs&Hqs&Hs).
  destruct (serve_all_engine_ok _ qs (new_engine_ok band) Hqs) as (e'&rs'&Hs'&He'). congruence.
Qed.

(** With distinct ids, the index is exact and the session is simulated. *)
Definition indexed (seen : list Z) (e : MatchingEngine) : Prop :=
  index_ok (book_ e) /\ forall id, id ∈ live_ids (book_ e) -> id ∈ seen.

Lemma new_engine_indexed band : indexed [] (new_MatchingEngine band).
Proof.
  split; [split; [constructor|]|].
  - intros id ci. split; [done|]. intros (o&Ho&_). by apply elem_of_nil in Ho.
  - intros id Hid. by apply elem_of_nil in Hid.
Qed.

Lemma serve_indexed seen e q :
  engine_ok e -> indexed seen e -> request_ok q ->
  Forall (fun id => id ∉ seen) (submit_ids [q]) ->
  exists e' r, serve e q = Ret (e', r) /\ engine_ok e' /\ indexed (submit_ids [q] ++ seen) e' /\
               x_serve (abs e) q = (abs e', r).
Proof.
  intros He [Hix Hseen] Hq Hfresh. destruct q as [o|id]; simpl in *.
  - destruct (submit_engine_ok e o He Hq) as (e'&r&Hs&He'&Hx).
    apply Forall_cons in Hfresh as [Hfresh _].
    destruct (submit_order_index e o e' r (proj1 He) Hix Hq) as [Hix' Hids]; [naive_solver|done|].
    rewrite Hs, Hx. simpl. do 2 eexists. split_and!; [done..| |done].
    split; [done|]. intros id Hid. destruct (Hids _ Hid); set_solver.
  - pose proof (engine_cancel_refines e id (proj1 He) Hix) as Hc.
    pose proof (cancel_engine_ok e id He) as He'.
    destruct (engine_cancel_order e id) as [e' r]. destruct Hc as (Hx&_&Hix'&Hsub).
    rewrite Hx. simpl in *. do 2 eexists. split_and!; [done..| |done].
    split; [done|]. intros id' (o&->&Ho)%list_elem_of_fmap. apply Hseen, list_elem_of_fmap_2.
    apply elem_of_app in Ho as [Ho|Ho]; apply elem_of_app; [left|right];
      by eapply elem_of_sublist, Hsub.
Qed.

Lemma serve_all_indexed seen e qs :
  engine_ok e -> indexed seen e -> Forall request_ok qs ->
  NoDup (submit_ids qs) -> Forall (fun id => id ∉ seen) (submit_ids qs) ->
  exists e' rs seen', serve_all e qs = Ret (e', rs) /\ engine_ok e' /\ indexed seen' e' /\
    (forall id, id ∈ seen' <-> id ∈ seen \/ id ∈ submit_ids qs) /\
    x_serve_all (abs e) qs = (abs e', rs).
Proof.
  intros He Hi Hqs. revert e seen He Hi.
  induction Hqs as [|q qs Hq _ IH]; intros e seen He Hi Hnd Hf; cbn [serve_all x_serve_all].
  { do 3 eexists. split_and!; [done..| |done]. set_solver. }
  rewrite submit_ids_cons in Hnd, Hf |- *.
  apply NoDup_app in Hnd as (_&Hdisj&Hnd). apply Forall_app in Hf as [Hf1 Hf2].
  destruct (serve_indexed seen e q He Hi Hq Hf1) as (e1&r&->&He1&Hi1&->). simpl.
  destruct (IH e1 _ He1 Hi1 Hnd) as (e2&rs&seen'&->&He2&Hi2&Hseen&->).
  { rewrite Forall_forall in *. intros id Hid. specialize (Hf2 _ Hid). specialize (Hdisj id).
    rewrite elem_of_app. naive_solver. }
  simpl. do 3 eexists. split_and!; [done..| |done].
  intros id. rewrite Hseen. set_solver.
Qed.

(** A session that never submits [id] gives it no index entry. *)
Lemma serve_all_absent e qs e' rs id :
  engine_ok e -> Forall request_ok qs -> id ∉ submit_ids qs -> cancel_index_ (book_ e) !! id = None ->
  serve_all e qs = Ret (e', rs) -> cancel_index_ (book_ e') !! id = None.
Proof.
  intros He Hqs. revert e rs He. induction Hqs as [|q qs Hq _ IH]; intros e rs He Hid Hix Hs; cbn [serve_all] in Hs.
  { by injection Hs as <- <-. }
  rewrite submit_ids_cons, not_elem_of_app in Hid. destruct Hid as [Hid1 Hid2].
  destruct (serve_engine_ok e q He Hq) as (e1 & r & Hs1 & He1). rewrite Hs1 in Hs. cbn in Hs.
  apply bind_Ret in Hs as ([e2 rs2] & Hs2 & [= <- <-]). apply (IH e1 rs2); [done|done| |done].
  destruct q as [o|id']; cbn [serve] in Hs1.
  - apply bind_Ret in Hs1 as ([e3 r3] & Hs1 & [= <- <-]).
    apply (submit_order_absent e o e3 r3); [apply He|done| |done|done].
    intros E. apply Hid1. cbn. set_solver.
  - injection Hs1 as <- <-. pose proof (cancel_order_absent (book_ e) id id' Hix) as H.
    unfold engine_cancel_order. by destruct (cancel_order (book_ e) id').
Qed.

(** Arrival times: [n] requests move the clock by at most [2 n]. *)
Lemma serve_timed e q e' r :
  engine_ok e -> request_ok q -> timed (abs e) -> clock_potential (abs e) + 2 < modulus64 ->
  serve e q = Ret (e', r) ->
  timed (abs e') /\ clock_potential (abs e') <= clock_potential (abs e) + 2.
Proof.
  intros He Hq Ht Hc Hs. destruct q as [o|id]; simpl in Hs.
  - destruct (submit_engine_ok e o He Hq) as (e1&r1&Hs1&_&Hx). rewrite Hs1 in Hs.
    injection Hs as <- <-. destruct Hq as [Hq Hn].
    destruct (x_submit_timed (abs e) o (proj2 He) Ht Hq Hn Hc) as (H1&H2&_).
    by rewrite Hx in H1, H2.
  - destruct (cancel_order_shrinks (book_ e) id (proj1 He)) as [_ Hsub].
    unfold engine_cancel_order in Hs. destruct (cancel_order (book_ e) id) as [b r1].
    injection Hs as <- <-.
    destruct (timed_sublist (abs e) (abs (with_book e b))) as [H1 H2]; [|done..|].
    { by apply x_side_sublist_abs. }
    split; [done|lia].
Qed.

Lemma serve_all_timed e qs e' rs :
  engine_ok e -> Forall request_ok qs -> timed (abs e) ->
  clock_potential (abs e) + 2 * Z.of_nat (length qs) < modulus64 ->
  serve_all e qs = Ret (e', rs) ->
  timed (abs e') /\ clock_potential (abs e') <= clock_potential (abs e) + 2 * Z.of_nat (length qs).
Proof.
  intros He Hqs. revert e rs He.
  induction Hqs as [|q qs Hq _ IH]; intros e rs He Ht Hc Hs; cbn [serve_all length] in *.
  { injection Hs as <- <-. split; [done|lia]. }
  destruct (serve_engine_ok e q He Hq) as (e1&r&Hs1&He1). rewrite Hs1 in Hs. cbn in Hs.
  destruct (serve_timed e q e1 r He Hq Ht ltac:(lia) Hs1) as [Ht1 Hc1].
  apply bind_Ret in Hs as ([e2 rs2]&Hs2&[= <- <-]).
  destruct (IH e1 rs2 He1 Ht1 ltac:(lia) Hs2) as [H1 H2]. split; [done|lia].
Qed.

Lemma new_engine_timed band :
  timed (abs (new_MatchingEngine band)) /\ clock_potential (abs (new_MatchingEngine band)) = 1.
Proof. split; [split; [intros []; constructor..|done]|done]. Qed.

(** ** Best prices *)

Lemma best_level s b k dq m :
  side_ok s (levels s b) -> levels s b = (k, dq) :: m ->
  exists o, o ∈ resting s b /\ price o ≡ᵖ k.
Proof.
  intros [Hl _] E. rewrite E in Hl. apply Forall_cons in Hl as [(_&Hne&Hdq) _].
  destruct dq as [|o dq]; [done|]. exists o. unfold resting. rewrite E. simpl.
  apply Forall_cons in Hdq as [(_&_&?&_) _]. split; [set_solver|done].
Qed.

Lemma engine_ok_best e p q :
  engine_ok e -> best_bid (book_ e) = Some p -> best_ask (book_ e) = Some q -> dlt p q = true.
Proof.
  intros [Hb [_ _ Hu]]. unfold best_bid, best_ask.
  destruct (bids_ (book_ e)) as [|[k dq] m] eqn:Eb; [done|].
  destruct (asks_ (book_ e)) as [|[k' dq'] m'] eqn:Ea; [done|]. simpl. intros [= ->] [= ->].
  destruct (best_level BUY (book_ e) _ _ _ (Hb BUY) Eb) as (o&Ho&<-).
  destruct (best_level SELL (book_ e) _ _ _ (Hb SELL) Ea) as (o'&Ho'&<-).
  by apply Hu.
Qed.

(** ** What a submission reports *)

(** The resting order's id in a trade made by an incoming order of side [s],
    and the incoming order's. *)
Definition maker_id (s : Side) (t : Trade) : Z :=
  match s with BUY => sell_order_id t | SELL => buy_order_id t end.
Definition taker_id (s : Side) (t : Trade) : Z :=
  match s with BUY => buy_order_id t | SELL => sell_order_id t end.

(** An accepted submission: the walk behind it, and the sides after it. *)
Lemma submit_trades e o e' ts :
  engine_ok e -> admissible o -> submit_order e o = Ret (e', inl ts) ->
  let opp := opposite (side o) in
  let inc := x_arrive (abs e) o in
  let w := walk inc (quantity o) (resting opp (book_ e)) in
  walk_view inc (quantity o) (resting opp (book_ e)) w /\
  ts = stamp inc (next_timestamp_ e +ᵤ 1) (w_fills w) /\
  resting opp (book_ e') = w_rest w /\
  resting (side o) (book_ e') =
    (if remainder_rests o w
     then x_insert (side o) (with_remaining inc (w_left w)) (resting (side o) (book_ e))
     else resting (side o) (book_ e)) /\
  last_price_ e' = last_fill (last_price_ e) (w_fills w) /\
  next_timestamp_ e' = ticks (next_timestamp_ e +ᵤ 1) (length (w_fills w)).
Proof.
  intros He Hadm Hs opp inc w. destruct (submit_engine_ok e o He Hadm) as (e1&r&Hs1&_&Hx).
  rewrite Hs1 in Hs. injection Hs as -> ->. split.
  { unfold w, opp. rewrite <- x_side_abs. apply submit_walk; [apply He|apply Hadm]. }
  destruct (accepted (x_verdict (abs e) o)) eqn:Hacc.
  - destruct (x_submit_accepted (abs e) o Hacc) as (x'&Hx'&H1&H2&_&H3&H4).
    rewrite Hx in Hx'. injection Hx' as <- ->. rewrite !x_side_abs in *. done.
  - rewrite x_submit_rejected in Hx by done. done.
Qed.

Lemma stamp_elem inc ts fs t :
  t ∈ stamp inc ts fs -> exists f u, f ∈ fs /\ t = make_trade inc f.1 f.2 u.
Proof.
  revert ts. induction fs as [|[o q] fs IH]; intros ts; simpl; [by intros ?%elem_of_nil|].
  intros [->|Ht]%elem_of_cons; [exists (o, q), ts; set_solver|].
  destruct (IH _ Ht) as (f&u&?&?). exists f, u. set_solver.
Qed.

Lemma stamp_quantity inc ts fs : zsum trade_quantity (stamp inc ts fs) = zsum snd fs.
Proof.
  revert ts. induction fs as [|[o q] fs IH]; intros ts; simpl; [done|].
  rewrite !zsum_cons, IH. unfold make_trade. by destruct (side inc).
Qed.

Lemma stamp_makers inc ts fs :
  maker_id (side inc) <$> stamp inc ts fs = (fun f => order_id f.1) <$> fs.
Proof.
  revert ts. induction fs as [|[o q] fs IH]; intros ts; simpl; [done|].
  f_equal; [|apply IH]. unfold make_trade. by destruct (side inc).
Qed.

Lemma x_insert_zsum s o l :
  zsum remaining_quantity (x_insert s o l) = remaining_quantity o + zsum remaining_quantity l.
Proof.
  induction l as [|y l IH]; simpl; [done|].
  destruct (side_lt s (price o) (price y)); rewrite ?zsum_cons, ?IH; lia.
Qed.

(** ** Facts of a session, gathered *)

Lemma session_facts band qs e rs :
  Forall request_ok qs -> 2 * Z.of_nat (length qs) + 1 < modulus64 ->
  serve_all (new_MatchingEngine band) qs = Ret (e, rs) ->
  engine_ok e /\ timed (abs e) /\
  clock_potential (abs e) <= 2 * Z.of_nat (length qs) + 1.
Proof.
  intros Hqs Hlen Hs.
  destruct (serve_all_engine_ok _ qs (new_engine_ok band) Hqs) as (e1&rs1&Hs1&He).
  rewrite Hs in Hs1. injection Hs1 as <- <-. destruct (new_engine_timed band) as [Ht Hc].
  destruct (serve_all_timed _ qs e rs (new_engine_ok band) Hqs Ht ltac:(rewrite Hc; lia) Hs) as [H1 H2].
  rewrite Hc in H2. split_and!; [done..|lia].
Qed.

Lemma submit_ids_app qs qs' : submit_ids (qs ++ qs') = submit_ids qs ++ submit_ids qs'.
Proof. apply omap_app. Qed.

Lemma session_indexed band qs o e rs :
  Forall request_ok qs -> NoDup (submit_ids (qs ++ [Submit o])) ->
  serve_all (new_MatchingEngine band) qs = Ret (e, rs) ->
  index_ok (book_ e) /\ order_id o ∉ live_ids (book_ e).
Proof.
  intros Hqs Hnd Hs. rewrite submit_ids_app in Hnd. apply NoDup_app in Hnd as (Hnd&Hdisj&_).
  destruct (serve_all_indexed [] _ qs (new_engine_ok band) (new_engine_indexed band) Hqs Hnd)
    as (e1&rs1&seen&Hs1&_&[Hix Hlive]&Hseen&_).
  { apply Forall_forall. intros id _. apply not_elem_of_nil. }
  rewrite Hs in Hs1. injection Hs1 as <- <-. split; [done|]. intros Hid.
  apply Hlive, Hseen in Hid as [Hid|Hid]; [by apply elem_of_nil in Hid|].
  apply (Hdisj _ Hid). apply list_elem_of_singleton. done.
Qed.

Lemma stamp_app inc ts fs gs :
  stamp inc ts (fs ++ gs) = stamp inc ts fs ++ stamp inc (ticks ts (length fs)) gs.
Proof. revert ts. induction fs as [|[o q] fs IH]; intros ts; simpl; [done|]. by rewrite IH. Qed.

(** The fill behind a trade, with the fills before it. *)
Lemma stamp_split inc ts fs t :
  t ∈ stamp inc ts fs -> exists fs1 r q fs2 u,
    fs = fs1 ++ (r, q) :: fs2 /\ t = make_trade inc r q u /\
    stamp inc ts fs = stamp inc ts fs1 ++ t :: stamp inc (u +ᵤ 1) fs2.
Proof.
  intros Ht. enough (exists fs1 r q fs2, fs = fs1 ++ (r, q) :: fs2 /\ t = make_trade inc r q (ticks ts (length fs1)))
    as (fs1 & r & q & fs2 & -> & ->).
  { exists fs1, r, q, fs2, (ticks ts (length fs1)). by rewrite stamp_app. }
  revert ts Ht. induction fs as [|[o q] fs IH]; intros ts; simpl; [by intros ?%elem_of_nil|].
  intros [->|Ht]%elem_of_cons; [by exists [], o, q, fs|].
  destruct (IH _ Ht) as (fs1 & r & q' & fs2 & -> & ->). by exists ((o, q) :: fs1), r, q', fs2.
Qed.

(** The maker and the quantity of the trade of one fill. *)
Lemma make_trade_maker inc r q u :
  maker_id (side inc) (make_trade inc r q u) = order_id r /\ trade_quantity (make_trade inc r q u) = q.
Proof. unfold make_trade. by destruct (side inc). Qed.

(** What rests was resting before, or was submitted. *)
Lemma submit_live_ids e o e' r id :
  engine_ok e -> admissible o -> submit_order e o = Ret (e', r) -> id ∈ live_ids (book_ e') ->
  id ∈ live_ids (book_ e) \/ id = order_id o.
Proof.
  intros He Hadm Hs. destruct r as [ts|rej].
  - destruct (submit_trades e o e' ts He Hadm Hs) as (Hw & _ & Hopp & Hown & _).
    intros (x & -> & Hx)%list_elem_of_fmap. rewrite (live_sides (side o)), Hopp, Hown in Hx.
    assert (forall y s, y ∈ resting s (book_ e) -> order_id y = order_id x -> order_id x ∈ live_ids (book_ e)) as Hold.
    { intros y s Hy <-. apply list_elem_of_fmap_2. rewrite (live_sides s). set_solver. }
    apply elem_of_app in Hx as [Hx|Hx].
    + destruct (remainder_rests _ _); [apply x_insert_elem in Hx as [->|Hx]; [by right|]|]; left; by eapply Hold.
    + destruct (walk_rest_elem _ _ _ _ _ Hw Hx) as (y & Hy & Hid & _). left. by eapply Hold.
  - destruct (accepted (x_verdict (abs e) o)) eqn:Hacc.
    + destruct (submit_order_accepted e o (proj1 He) Hadm Hacc) as (e1 & _ & _ & _ & Hs'). congruence.
    + rewrite submit_order_rejected in Hs by done. injection Hs as <- _. by left.
Qed.

Lemma serve_live_ids e q e' r id :
  engine_ok e -> request_ok q -> serve e q = Ret (e', r) -> id ∈ live_ids (book_ e') ->
  id ∈ live_ids (book_ e) \/ id ∈ submit_ids [q].
Proof.
  intros He Hq Hs Hid. destruct q as [o|id']; cbn [serve] in Hs.
  - apply bind_Ret in Hs as ([e1 r1] & Hs & [= <- _]).
    destruct (submit_live_ids e o e1 r1 id He Hq Hs Hid) as [?| ->]; [by left|right]. cbn. set_solver.
  - injection Hs as <- _. left. destruct (cancel_order_shrinks (book_ e) id' (proj1 He)) as [_ Hsub].
    unfold engine_cancel_order in Hid. destruct (cancel_order (book_ e) id') as [b' found].
    apply list_elem_of_fmap in Hid as (x & -> & Hx). apply list_elem_of_fmap_2. cbn in *.
    apply elem_of_app in Hx as [Hx|Hx]; apply elem_of_app; 
      [left; exact (elem_of_sublist _ _ _ Hx (Hsub BUY))|right; exact (elem_of_sublist _ _ _ Hx (Hsub SELL))].
Qed.

Lemma serve_all_live_ids e qs e' rs id :
  engine_ok e -> Forall request_ok qs -> serve_all e qs = Ret (e', rs) -> id ∈ live_ids (book_ e') ->
  id ∈ live_ids (book_ e) \/ id ∈ submit_ids qs.
Proof.
  intros He Hqs. revert e rs He. induction Hqs as [|q qs Hq _ IH]; intros e rs He Hs Hid; cbn [serve_all] in Hs.
  { injection Hs as <- <-. by left. }
  destruct (serve_engine_ok e q He Hq) as (e1 & r & Hs1 & He1). rewrite Hs1 in Hs. cbn in Hs.
  apply bind_Ret in Hs as ([e2 rs2] & Hs2 & [= <- <-]). rewrite submit_ids_cons, elem_of_app.
  destruct (IH e1 rs2 He1 Hs2 Hid) as [H1|H1]; [|tauto].
  destruct (serve_live_ids e q e1 r id He Hq Hs1 H1); tauto.
Qed.

(** Priority of a single submission. *)
Lemma submit_priority e o e' ts a b t :
  engine_ok e -> timed (abs e) -> index_ok (book_ e) -> order_id o ∉ live_ids (book_ e) ->
  admissible o -> submit_order e o = Ret (e', inl ts) ->
  a ∈ resting (opposite (side o)) (book_ e) -> b ∈ resting (opposite (side o)) (book_ e) ->
  ahead (opposite (side o)) a b -> t ∈ ts -> maker_id (side o) t = order_id b ->
  (order_id a ∉ live_ids (book_ e')) /\
  exists ts1 ta ts2, ts = ts1 ++ ta :: ts2 /\ t ∈ ts2 /\
    maker_id (side o) ta = order_id a /\ trade_quantity ta = remaining_quantity a.
Proof.
  intros He Htime Hix Hfresh Hadm Hs Ha Hb Hab Ht Hmaker.
  destruct (submit_trades e o e' ts He Hadm Hs) as (Hw&Hts&Hopp&Hown&_).
  set (opp := opposite (side o)) in *. set (inc := x_arrive (abs e) o) in *. set (w := walk _ _ _) in *.
  change (side o) with (side inc) in Hmaker |- *.
  assert (Huniq : forall x y, x ∈ live (book_ e) -> y ∈ live (book_ e) -> order_id x = order_id y -> x = y)
    by (intros; by eapply indexes_unique).
  assert (Hlive : forall x s, x ∈ resting s (book_ e) -> x ∈ live (book_ e))
    by (intros x s Hx; rewrite (live_sides s); set_solver).
  rewrite Hts in Ht. destruct (stamp_split _ _ _ _ Ht) as (fs1 & r & n & fs2 & u & Hfs & -> & Hsp).
  rewrite (proj1 (make_trade_maker _ _ _ _)) in Hmaker.
  assert (r = b) as ->.
  { pose proof (walk_fills_sound _ _ _ _ (engine_ok_pos e opp He) Hw) as Hsound.
    rewrite Hfs, Forall_forall in Hsound. destruct (Hsound (r, n)) as [Hrin _]; [set_solver|]. eauto. }
  destruct (walk_priority opp _ _ _ _ a b n fs1 fs2 Hw) as (l1&l2&Hl&Hal&Hfa&Hrest); try done.
  { rewrite <- x_side_abs. apply He. } { rewrite <- x_side_abs. apply Htime. }
  assert (Hnd : NoDup (order_id <$> (l1 ++ b :: l2) ++ resting (side o) (book_ e))).
  { rewrite <- Hl. destruct Hix as [Hnd _]. rewrite (live_sides (side o)) in Hnd.
    by rewrite Permutation_app_comm in Hnd. }
  rewrite !fmap_app, <- app_assoc in Hnd. apply NoDup_app in Hnd as (Hnd1&Hdisj&_). split.
  - intros Hin. apply list_elem_of_fmap in Hin as (x&Hid&Hx).
    rewrite (live_sides (side o)) in Hx. fold opp in Hx. rewrite Hopp, Hown in Hx.
    apply (Hdisj (order_id a)); [by apply list_elem_of_fmap_2|]. apply elem_of_app.
    apply elem_of_app in Hx as [Hx|Hx].
    + right. destruct (remainder_rests o w); [apply x_insert_elem in Hx as [->|Hx]|].
      * destruct Hfresh. simpl in Hid. rewrite <- Hid. apply list_elem_of_fmap_2. eauto.
      * rewrite Hid. by apply list_elem_of_fmap_2.
      * rewrite Hid. by apply list_elem_of_fmap_2.
    + left. destruct (Hrest x Hx) as (y&Hy&Hyid). rewrite Hid, <- Hyid. by apply list_elem_of_fmap_2.
  - apply list_elem_of_split in Hfa as (ga & gb & ->). rewrite Hts, Hsp, stamp_app. cbn [stamp].
    rewrite <-app_assoc. do 3 eexists. split; [reflexivity|].
    split; [set_solver|apply make_trade_maker].
Qed.

(** ** Timestamps and limits of the trades of a submission *)

Lemma length_stamp inc ts fs : length (stamp inc ts fs) = length fs.
Proof. revert ts. induction fs as [|[o q] fs IH]; intros ts; simpl; [done|]. by rewrite IH. Qed.

Lemma stamp_timestamps inc ts fs :
  0 <= ts -> ts + Z.of_nat (length fs) < modulus64 ->
  trade_timestamp <$> stamp inc ts fs = seqZ ts (Z.of_nat (length fs)).
Proof.
  revert ts. induction fs as [|[o q] fs IH]; intros ts H0 H; simpl stamp; simpl length in *; [done|].
  rewrite seqZ_cons, fmap_cons by lia. f_equal; [unfold make_trade; by destruct (side inc)|].
  rewrite add64_small by lia. rewrite IH by lia. f_equal; lia.
Qed.

Lemma walk_same_limits inc inc' q l :
  (forall p, limit_breaks inc p = limit_breaks inc' p) -> walk inc q l = walk inc' q l.
Proof.
  intros H. revert q. induction l as [|o l IH]; intros q; simpl; [done|]. by rewrite H, IH.
Qed.

Lemma stamp_same inc inc' ts fs :
  order_id inc = order_id inc' -> side inc = side inc' -> stamp inc ts fs = stamp inc' ts fs.
Proof.
  intros H1 H2. revert ts. induction fs as [|[o q] fs IH]; intros ts; simpl; [done|].
  unfold make_trade. by rewrite H1, H2, IH.
Qed.
