(* ===== verification/EngineProps.v ===== *)
(** * The properties of the matching engine

    Stated for every engine a session can reach.  The examples at the end of
    each group instantiate them on concrete sessions. *)

From Stdlib Require Import SpecFloat.
From S2P Require Import Prelude Double StdMap Order PriceCollar OrderBook MatchingEngine Exchange ExchangeFacts Refinement CancelIndex Session.

(** ** Concrete orders for the examples *)

Definition order (id : Z) (s : Side) (t : OrderType) (p q : Z) : Order :=
  mkOrder id 1 s t (replicate kSymbolLen NUL) (d_of_Z p) q 0 0.

Definition engine0 : MatchingEngine := new_MatchingEngine default_band.

(** The engine after a session, [engine0] if the session goes wrong. *)
Definition after (qs : list request) : MatchingEngine :=
  match serve_all engine0 qs with Ret (e, _) => e | _ => engine0 end.

(** Two asks at 100 and one at 101. *)
Definition three_asks : list request :=
  [Submit (order 1 SELL LIMIT 101 10); Submit (order 2 SELL LIMIT 100 10);
   Submit (order 3 SELL LIMIT 100 5)].

Definition buy_all : Order := order 4 BUY LIMIT 101 12.

(** Trades and engine of one more submission. *)
Definition submit_result (e : MatchingEngine) (o : Order) : MatchingEngine * list Trade :=
  match submit_order e o with Ret (e', inl ts) => (e', ts) | _ => (e, []) end.

Lemma after_reachable qs :
  bool_decide (Forall request_ok qs) = true ->
  match serve_all engine0 qs with Ret _ => True | _ => False end -> reachable (after qs).
Proof.
  intros Hqs%bool_decide_eq_true Hs. unfold after.
  destruct (serve_all engine0 qs) as [[e rs]| | |] eqn:E; try done. by exists default_band, qs, rs.
Qed.

(** ** Refinement *)

(** C1: every session of well-typed requests with distinct order ids runs to
    completion on a new engine, and its replies and final state are those of the
    abstract exchange, which keeps one priority list per side. *)
Theorem session_refines_exchange band qs :
  Forall request_ok qs -> NoDup (submit_ids qs) ->
  exists e rs, serve_all (new_MatchingEngine band) qs = Ret (e, rs) /\
               x_serve_all (abs (new_MatchingEngine band)) qs = (abs e, rs).
Proof.
  intros Hqs Hnd.
  destruct (serve_all_indexed [] _ qs (new_engine_ok band) (new_engine_indexed band) Hqs Hnd)
    as (e&rs&seen&Hs&_&_&_&Hx).
  - apply Forall_forall. intros id _. apply not_elem_of_nil.
  - eauto.
Qed.

Lemma session_refines_exchange_witness :
  exists e rs, serve_all engine0 (three_asks ++ [Submit buy_all; Cancel 1]) = Ret (e, rs) /\
               x_serve_all (abs engine0) (three_asks ++ [Submit buy_all; Cancel 1]) = (abs e, rs).
Proof.
  apply (session_refines_exchange default_band).
  - apply (bool_decide_unpack _). vm_compute. exact I.
  - apply (bool_decide_unpack _). vm_compute. exact I.
Defined.

(** ** The book is never crossed *)

(** C4: in every reachable state, whatever the order ids, the best bid is
    strictly below the best ask whenever both sides have orders. *)
Theorem never_crossed e p q :
  reachable e -> best_bid (book_ e) = Some p -> best_ask (book_ e) = Some q -> dlt p q = true.
Proof. intros He. by apply engine_ok_best, reachable_engine_ok. Qed.

Lemma never_crossed_witness :
  dlt (d_of_Z 99) (d_of_Z 100) = true.
Proof.
  apply (never_crossed (after (three_asks ++ [Submit (order 4 BUY LIMIT 99 7)]))).
  - apply after_reachable; vm_compute; done.
  - vm_compute. reflexivity.
  - vm_compute. reflexivity.
Defined.

(** ** Progress *)

(** C22: a submission of a well-typed order to a reachable engine always returns:
    the matching loop terminates, never reads the front of an empty level, and
    leads to a reachable state again. *)
Theorem submit_returns e o :
  reachable e -> admissible o ->
  exists e' r, submit_order e o = Ret (e', r) /\ reachable e'.
Proof.
  intros He Hadm. destruct (submit_engine_ok e o (reachable_engine_ok e He) Hadm) as (e'&r&Hs&_).
  exists e', r. split; [done|]. destruct He as (band&qs&rs&Hqs&Hq).
  exists band, (qs ++ [Submit o]), (rs ++ [Submitted r]). split; [by apply Forall_app; auto|].
  apply (serve_all_snoc _ qs _ e rs); [done|]. simpl. by rewrite Hs.
Qed.

Lemma submit_returns_witness :
  exists e' r, submit_order (after three_asks) buy_all = Ret (e', r) /\ reachable e'.
Proof.
  apply submit_returns.
  - apply after_reachable; vm_compute; done.
  - apply (bool_decide_unpack _). vm_compute. exact I.
Defined.

(** The matching loop needs at most one iteration per order resting on the
    opposite side, plus the final test; with that much fuel it returns. *)
Lemma match_loop_bound opp st :
  side_ok opp (levels opp (book_ (m_engine st))) ->
  u64 (remaining_quantity (m_incoming st)) ->
  returns (match_against (S (length (resting opp (book_ (m_engine st))))) opp st).
Proof.
  intros Hok Hq. destruct (match_against_walk _ opp st Hok Hq (Nat.lt_succ_diag_r _)) as (st'&Hst'&_).
  by exists st'.
Qed.

(** ** Trades *)

(** C5: every trade of a submission is between the submitted order and an order
    resting on the opposite side, at the resting order's price, for a positive
    quantity the resting order had; a limit order never trades beyond its limit. *)
Theorem trades_sound e o e' ts t :
  reachable e -> admissible o -> submit_order e o = Ret (e', inl ts) -> t ∈ ts ->
  exists r, r ∈ resting (opposite (side o)) (book_ e) /\
    maker_id (side o) t = order_id r /\ taker_id (side o) t = order_id o /\
    trade_price t = price r /\ 0 < trade_quantity t <= remaining_quantity r /\
    (type o = LIMIT ->
     match side o with
     | BUY => dlt (price o) (trade_price t) = false
     | SELL => dlt (trade_price t) (price o) = false
     end).
Proof.
  intros He Hadm Hs Ht. pose proof (reachable_engine_ok e He) as Hok.
  destruct (submit_trades e o e' ts Hok Hadm Hs) as (Hw&->&_).
  set (w := walk _ _ _) in *. destruct (stamp_elem _ _ _ _ Ht) as (f&u&Hf&->).
  pose proof (walk_fills_sound _ _ _ _ (engine_ok_pos e (opposite (side o)) Hok) Hw) as Hsound.
  rewrite Forall_forall in Hsound. destruct (Hsound f Hf) as (Hin&Hq&Hlim).
  exists f.1. unfold make_trade. change (side (x_arrive (abs e) o)) with (side o).
  unfold limit_breaks in Hlim. simpl in Hlim.
  destruct (side o); simpl; split_and!; try done; try lia; intros Htype; by rewrite Htype in Hlim.
Qed.

Lemma trades_sound_witness :
  let t := mkTrade 4 2 (d_of_Z 100) 10 5 in
  exists r, r ∈ resting SELL (book_ (after three_asks)) /\
    maker_id BUY t = order_id r /\ taker_id BUY t = 4 /\
    trade_price t = price r /\ 0 < trade_quantity t <= remaining_quantity r /\
    (LIMIT = LIMIT -> dlt (d_of_Z 101) (trade_price t) = false).
Proof.
  apply (trades_sound (after three_asks) buy_all (submit_result (after three_asks) buy_all).1
           (submit_result (after three_asks) buy_all).2).
  - apply after_reachable; vm_compute; done.
  - apply (bool_decide_unpack _). vm_compute. exact I.
  - vm_compute. reflexivity.
  - apply (bool_decide_unpack _). vm_compute. exact I.
Defined.

(** C3: quantity is conserved by a submission.  What is traded comes out of the
    opposite side and out of the order; what is left of a limit order, and
    nothing of a market order, joins the book. *)
Theorem quantity_conserved e o e' ts :
  reachable e -> admissible o -> submit_order e o = Ret (e', inl ts) ->
  let traded := zsum trade_quantity ts in
  let rest s b := zsum remaining_quantity (resting s b) in
  0 <= traded <= quantity o /\
  rest (opposite (side o)) (book_ e') + traded = rest (opposite (side o)) (book_ e) /\
  rest (side o) (book_ e') =
    rest (side o) (book_ e) + match type o with LIMIT => quantity o - traded | MARKET => 0 end.
Proof.
  intros He Hadm Hs traded rest. pose proof (reachable_engine_ok e He) as Hok.
  destruct (submit_trades e o e' ts Hok Hadm Hs) as (Hw&->&Hopp&Hown&_).
  subst traded rest. cbv beta. rewrite stamp_quantity, Hopp, Hown. set (w := walk _ _ _) in *.
  destruct (walk_conserves _ _ _ _ Hw) as [H1 H2].
  pose proof (walk_left_bounds (x_arrive (abs e) o) (quantity o) (resting (opposite (side o)) (book_ e)))
    as Hl. fold w in Hl.
  assert (0 <= w_left w <= quantity o).
  { apply Hl; [apply Hadm|by apply engine_ok_pos]. }
  split_and!; [lia..|]. unfold remainder_rests, is_limit.
  destruct (Z.ltb_spec 0 (w_left w)), (type o); simpl; rewrite ?x_insert_zsum; simpl; lia.
Qed.

Lemma quantity_conserved_witness :
  let e := after three_asks in
  let r := submit_result e buy_all in
  let traded := zsum trade_quantity r.2 in
  let rest s b := zsum remaining_quantity (resting s b) in
  0 <= traded <= quantity buy_all /\
  rest (opposite (side buy_all)) (book_ r.1) + traded = rest (opposite (side buy_all)) (book_ e) /\
  rest (side buy_all) (book_ r.1) =
    rest (side buy_all) (book_ e) +
    match type buy_all with LIMIT => quantity buy_all - traded | MARKET => 0 end.
Proof.
  apply (quantity_conserved (after three_asks) buy_all).
  - apply after_reachable; vm_compute; done.
  - apply (bool_decide_unpack _). vm_compute. exact I.
  - vm_compute. reflexivity.
Defined.

(** ** Priority *)

(** C2: price-time priority.  In a session with distinct ids that is short enough
    for the 64-bit clock not to wrap, if a submission trades with a resting order
    [b], then every order [a] that had a better price, or the same price and an
    earlier arrival, was filled completely before that: an earlier trade of the
    same submission is with [a], for all that was left of it; and [a] is gone from
    the book. *)
Theorem price_time_priority band qs e rs o e' ts a b t :
  Forall request_ok qs -> admissible o -> NoDup (submit_ids (qs ++ [Submit o])) ->
  2 * Z.of_nat (length qs) + 1 < modulus64 ->
  serve_all (new_MatchingEngine band) qs = Ret (e, rs) ->
  submit_order e o = Ret (e', inl ts) ->
  a ∈ resting (opposite (side o)) (book_ e) -> b ∈ resting (opposite (side o)) (book_ e) ->
  ahead (opposite (side o)) a b -> t ∈ ts -> maker_id (side o) t = order_id b ->
  (order_id a ∉ live_ids (book_ e')) /\
  exists ts1 ta ts2, ts = ts1 ++ ta :: ts2 /\ t ∈ ts2 /\
    maker_id (side o) ta = order_id a /\ trade_quantity ta = remaining_quantity a.
Proof.
  intros Hqs Hadm Hnd Hlen Hs Ho Ha Hb Hab Ht Hmaker.
  destruct (session_facts band qs e rs Hqs Hlen Hs) as (Hok&Htime&_).
  destruct (session_indexed band qs o e rs Hqs Hnd Hs) as [Hix Hfresh].
  by apply (submit_priority e o e' ts a b t).
Qed.

Lemma price_time_priority_witness :
  let r := submit_result (after three_asks) buy_all in
  (2 ∉ live_ids (book_ r.1)) /\
  exists ts1 ta ts2, r.2 = ts1 ++ ta :: ts2 /\ mkTrade 4 3 (d_of_Z 100) 2 6 ∈ ts2 /\
    maker_id BUY ta = 2 /\ trade_quantity ta = 10.
Proof.
  apply (price_time_priority default_band three_asks (after three_asks)
    [Submitted (inl []); Submitted (inl []); Submitted (inl [])] buy_all
    (submit_result (after three_asks) buy_all).1 (submit_result (after three_asks) buy_all).2
    (with_timestamp (with_remaining (order 2 SELL LIMIT 100 10) 10) 2)
    (with_timestamp (with_remaining (order 3 SELL LIMIT 100 5) 5) 3)
    (mkTrade 4 3 (d_of_Z 100) 2 6)).
  - apply (bool_decide_unpack _). vm_compute. exact I.
  - apply (bool_decide_unpack _). vm_compute. exact I.
  - apply (bool_decide_unpack _). vm_compute. exact I.
  - vm_compute. reflexivity.
  - vm_compute. reflexivity.
  - vm_compute. reflexivity.
  - apply (bool_decide_unpack _). vm_compute. exact I.
  - apply (bool_decide_unpack _). vm_compute. exact I.
  - right. split; [reflexivity|vm_compute; reflexivity].
  - apply (bool_decide_unpack _). vm_compute. exact I.
  - reflexivity.
Defined.

(** ** Rejections and market orders *)

(** A rejected submission changes nothing but the clock: the book, the
    collar and the last price are as before, and only a limit order whose price
    is above the band ([PRICE_TOO_HIGH]) or below it ([PRICE_TOO_LOW]) of the last
    traded price is ever rejected. *)
Theorem rejection_is_noop e o e' rej :
  submit_order e o = Ret (e', inr rej) ->
  book_ e' = book_ e /\ last_price_ e' = last_price_ e /\ collar_ e' = collar_ e /\
  rej_order_id rej = order_id o /\ type o = LIMIT /\
  exists ref, last_price_ e = Some ref /\
    match rej_reason rej with
    | PRICE_TOO_HIGH => dgt (price o) (collar_hi (collar_ e) ref) = true
    | PRICE_TOO_LOW => dgt (price o) (collar_hi (collar_ e) ref) = false /\
                       dlt (price o) (collar_lo (collar_ e) ref) = true
    | NONE => False
    end.
Proof.
  intros Hs. destruct (accepted (x_verdict (abs e) o)) eqn:Hacc.
  - rewrite submit_order_unfold, Hacc in Hs. cbn [negb] in Hs. by inv_ret.
  - rewrite submit_order_rejected in Hs by done. injection Hs as <- <-. simpl.
    unfold x_verdict, check in *. simpl in *. destruct (type o); [|done].
    destruct (last_price_ e) as [ref|]; [|done].
    destruct (dgt _ _) eqn:E1; [|destruct (dlt _ _) eqn:E2; [|done]]; simpl;
      split_and!; try done; exists ref; auto.
Qed.

(** A market order is never rejected and never rests: its side of the book
    is unchanged, and if it is not filled completely the opposite side is empty. *)
Theorem market_never_rests e o :
  reachable e -> admissible o -> type o = MARKET ->
  exists e' ts, submit_order e o = Ret (e', inl ts) /\
    resting (side o) (book_ e') = resting (side o) (book_ e) /\
    (zsum trade_quantity ts = quantity o \/ resting (opposite (side o)) (book_ e') = []).
Proof.
  intros He Hadm Ht. pose proof (reachable_engine_ok e He) as Hok.
  destruct (submit_engine_ok e o Hok Hadm) as (e'&r&Hs&_&Hx).
  assert (Hr : exists ts, r = inl ts).
  { destruct (x_submit_accepted (abs e) o) as (x'&Hx'&_); [unfold x_verdict; by rewrite Ht|].
    rewrite Hx in Hx'. injection Hx' as _ ->. eauto. }
  destruct Hr as [ts ->]. exists e', ts. split; [done|].
  destruct (submit_trades e o e' ts Hok Hadm Hs) as (Hw&->&Hopp&Hown&_).
  unfold remainder_rests, is_limit in Hown. rewrite Ht, andb_false_r in Hown. split; [done|].
  rewrite stamp_quantity, Hopp. set (w := walk _ _ _) in *.
  destruct (walk_conserves _ _ _ _ Hw) as [Hc _].
  assert (Hnb : forall p, limit_breaks (x_arrive (abs e) o) p = false)
    by (intros p; unfold limit_breaks; simpl; by rewrite Ht).
  destruct Hw as [dn tl lf _ _ _ _ Hstop|]; unfold w_rest, w_left in *; simpl in *; [|left; lia].
  destruct Hstop as [->|[->|(r'&tl'&_&Hb)]]; [by right|left; lia|by rewrite Hnb in Hb].
Qed.

(** ** Cancellation *)

(** C21: in a session with distinct ids, cancelling reports success exactly when
    an order of that id rests, and then removes that order and nothing else;
    the order of the others is unchanged on both sides. *)
Theorem cancel_exact band qs e rs id :
  Forall request_ok qs -> NoDup (submit_ids qs) ->
  serve_all (new_MatchingEngine band) qs = Ret (e, rs) ->
  let '(e', found) := engine_cancel_order e id in
  (found = true <-> id ∈ live_ids (book_ e)) /\
  forall s, resting s (book_ e') = filter (fun o => order_id o <> id) (resting s (book_ e)).
Proof.
  intros Hqs Hnd Hs.
  destruct (serve_all_indexed [] _ qs (new_engine_ok band) (new_engine_indexed band) Hqs Hnd)
    as (e1&rs1&seen&Hs1&He&[Hix _]&_).
  { apply Forall_forall. intros x _. apply not_elem_of_nil. }
  rewrite Hs in Hs1. injection Hs1 as <- <-. apply cancel_filters; [apply He|done].
Qed.

Lemma cancel_exact_witness :
  let '(e', found) := engine_cancel_order (after three_asks) 2 in
  (found = true <-> 2 ∈ live_ids (book_ (after three_asks))) /\
  forall s, resting s (book_ e') = filter (fun o => order_id o <> 2) (resting s (book_ (after three_asks))).
Proof.
  apply (cancel_exact default_band three_asks (after three_asks)
           [Submitted (inl []); Submitted (inl []); Submitted (inl [])] 2).
  - apply (bool_decide_unpack _). vm_compute. exact I.
  - apply (bool_decide_unpack _). vm_compute. exact I.
  - vm_compute. reflexivity.
Defined.

(** C28: in a session with distinct ids, the cancel index holds exactly the side
    and price of the orders that rest in the book. *)
Theorem cancel_index_exact band qs e rs id ci :
  Forall request_ok qs -> NoDup (submit_ids qs) ->
  serve_all (new_MatchingEngine band) qs = Ret (e, rs) ->
  cancel_index_ (book_ e) !! id = Some ci <->
  exists o, o ∈ live (book_ e) /\ order_id o = id /\ ci = mkCancelInfo (side o) (price o).
Proof.
  intros Hqs Hnd Hs.
  destruct (serve_all_indexed [] _ qs (new_engine_ok band) (new_engine_indexed band) Hqs Hnd)
    as (e1&rs1&seen&Hs1&_&[[_ Hix] _]&_).
  { apply Forall_forall. intros x _. apply not_elem_of_nil. }
  rewrite Hs in Hs1. injection Hs1 as <- <-. apply Hix.
Qed.

Lemma cancel_index_exact_witness :
  cancel_index_ (book_ (after three_asks)) !! 3 = Some (mkCancelInfo SELL (d_of_Z 100)) <->
  exists o, o ∈ live (book_ (after three_asks)) /\ order_id o = 3 /\
            mkCancelInfo SELL (d_of_Z 100) = mkCancelInfo (side o) (price o).
Proof.
  apply (cancel_index_exact default_band three_asks (after three_asks)
           [Submitted (inl []); Submitted (inl []); Submitted (inl [])]).
  - apply (bool_decide_unpack _). vm_compute. exact I.
  - apply (bool_decide_unpack _). vm_compute. exact I.
  - vm_compute. reflexivity.
Defined.

(** ** Time *)

(** A session of [n] requests moves the 64-bit clock to at most [2 n + 1]; as
    long as that does not wrap, every resting order arrived before now, and the
    orders of a price level are in strict order of arrival. *)
Theorem clock_bounded band qs e rs :
  Forall request_ok qs -> 2 * Z.of_nat (length qs) + 1 < modulus64 ->
  serve_all (new_MatchingEngine band) qs = Ret (e, rs) ->
  0 <= next_timestamp_ e <= 2 * Z.of_nat (length qs) + 1 /\
  forall s, Forall (fun o => timestamp o < next_timestamp_ e) (resting s (book_ e)) /\
            time_sorted (resting s (book_ e)).
Proof.
  intros Hqs Hlen Hs. destruct (session_facts band qs e rs Hqs Hlen Hs) as (_&[H1 H2 H3]&Hc).
  unfold clock_potential in Hc. simpl in *. split; [lia|]. intros s.
  specialize (H1 s). specialize (H2 s). rewrite x_side_abs in H1, H2. done.
Qed.

(** The trades of a submission carry the consecutive timestamps that follow
    the one given to the order itself, while the clock does not wrap. *)
Theorem trade_timestamps_consecutive e o e' ts :
  reachable e -> admissible o -> submit_order e o = Ret (e', inl ts) ->
  0 <= next_timestamp_ e -> next_timestamp_ e + 1 + Z.of_nat (length ts) < modulus64 ->
  trade_timestamp <$> ts = seqZ (next_timestamp_ e + 1) (Z.of_nat (length ts)) /\
  next_timestamp_ e' = next_timestamp_ e + 1 + Z.of_nat (length ts).
Proof.
  intros He Hadm Hs H0 Hlen.
  destruct (submit_trades e o e' ts (reachable_engine_ok e He) Hadm Hs) as (_&->&_&_&_&Hnext).
  rewrite Hnext. rewrite length_stamp in *. rewrite add64_small by lia.
  split; [apply stamp_timestamps; lia|apply ticks_small; lia].
Qed.

(** ** What the engine does not check *)

(** The order with its type changed to [MARKET]. *)
Definition as_market (o : Order) : Order :=
  mkOrder (order_id o) (client_id o) (side o) MARKET (symbol o) (price o) (quantity o)
          (remaining_quantity o) (timestamp o).

(** C39: a limit order whose price is a NaN passes the collar and trades exactly
    as a market order would, at any price: neither its limit nor the band
    protects it. *)
Theorem nan_limit_trades_as_market e o :
  reachable e -> u64 (quantity o) -> type o = LIMIT -> is_nan (price o) = true ->
  exists e1 e2 ts, submit_order e o = Ret (e1, inl ts) /\
                   submit_order e (as_market o) = Ret (e2, inl ts).
Proof.
  intros He Hq Ht Hnan. pose proof (reachable_engine_ok e He) as [Hb _].
  assert (Hlt : forall p, dlt p (price o) = false /\ dlt (price o) p = false)
    by (intros p; split; apply dlt_nan; auto).
  rewrite !submit_order_unfold.
  assert (Hv : accepted (x_verdict (abs e) o) = true).
  { unfold x_verdict, check, dgt. rewrite Ht. destruct (x_last (abs e)); [|done].
    by rewrite !(proj1 (Hlt _)), !(proj2 (Hlt _)). }
  rewrite Hv. change (accepted (x_verdict (abs e) (as_market o))) with true. cbn [negb].
  change (side (as_market o)) with (side o).
  set (opp := opposite (side o)). set (inc := x_arrive (abs e) o).
  set (inc' := x_arrive (abs e) (as_market o)).
  destruct (match_against_walk (match_fuel opp (tick e)) opp (mkMatch (tick e) inc []))
    as (st&->&Hp); [apply Hb|done|apply Nat.lt_succ_diag_r|].
  destruct (match_against_walk (match_fuel opp (tick e)) opp (mkMatch (tick e) inc' []))
    as (st'&->&Hp'); [apply Hb|done|apply Nat.lt_succ_diag_r|].
  cbn [mbind outcome_bind]. do 3 eexists. split; [done|]. do 3 f_equal.
  rewrite (lp_trades _ _ _ _ Hp), (lp_trades _ _ _ _ Hp'). simpl.
  rewrite (walk_same_limits inc inc'), (stamp_same inc inc'); try done.
  intros p. unfold limit_breaks, dgt. simpl. rewrite Ht. destruct (side o); apply Hlt.
Qed.

(** An order to buy at "not a number". *)
Definition nan_bid : Order :=
  mkOrder 9 1 BUY LIMIT (replicate kSymbolLen NUL) S754_nan 25 0 0.

Lemma nan_limit_trades_as_market_witness :
  exists e1 e2 ts, submit_order (after three_asks) nan_bid = Ret (e1, inl ts) /\
                   submit_order (after three_asks) (as_market nan_bid) = Ret (e2, inl ts).
Proof.
  apply (nan_limit_trades_as_market (after three_asks) nan_bid).
  - apply after_reachable; vm_compute; done.
  - apply (bool_decide_unpack _). vm_compute. exact I.
  - reflexivity.
  - reflexivity.
Defined.

(** Two bids submitted under one id. *)
Definition duplicate_ids : list request :=
  [Submit (order 7 BUY LIMIT 100 10); Submit (order 7 BUY LIMIT 99 5)].

(** C40: nothing rejects a second live order with the id of another, and then not
    all of them can be cancelled.  In any reachable engine in which two or more
    live orders have one id, whatever the session that led there, a cancellation of
    that id leaves one of them in the book, and from then on, in every session that
    does not submit that id again, every cancellation of it reports failure and
    changes nothing. *)
Theorem duplicate_id_strands_order e id :
  reachable e -> (2 <= live_count id (book_ e))%nat ->
  let e1 := (engine_cancel_order e id).1 in
  id ∈ live_ids (book_ e1) /\
  forall qs e2 rs, Forall request_ok qs -> id ∉ submit_ids qs -> serve_all e1 qs = Ret (e2, rs) ->
    engine_cancel_order e2 id = (e2, false).
Proof.
  intros He Hc e1. pose proof (reachable_engine_ok e He) as Hok.
  assert (book_ e1 = (cancel_order (book_ e) id).1) as Hb
    by (unfold e1, engine_cancel_order; by destruct (cancel_order (book_ e) id)).
  split.
  - apply live_count_ids. rewrite Hb. pose proof (cancel_order_count (book_ e) id). lia.
  - intros qs e2 rs Hqs Hid Hs.
    assert (cancel_index_ (book_ e2) !! id = None) as Hix.
    { apply (serve_all_absent e1 qs e2 rs); [by apply cancel_engine_ok|done|done| |done].
      rewrite Hb. apply cancel_order_unindexes. }
    unfold engine_cancel_order, cancel_order. rewrite Hix. by destruct e2.
Qed.

(** The first cancellation succeeds, the order at 100 stays, and is stranded. *)
Lemma duplicate_id_strands_order_witness :
  (engine_cancel_order (after duplicate_ids) 7).2 = true /\
  let e1 := (engine_cancel_order (after duplicate_ids) 7).1 in
  7 ∈ live_ids (book_ e1) /\
  forall qs e2 rs, Forall request_ok qs -> 7 ∉ submit_ids qs -> serve_all e1 qs = Ret (e2, rs) ->
    engine_cancel_order e2 7 = (e2, false).
Proof.
  split; [vm_compute; reflexivity|].
  apply (duplicate_id_strands_order (after duplicate_ids) 7).
  - apply after_reachable; vm_compute; done.
  - apply (bool_decide_unpack _). vm_compute. exact I.
Defined.

(** A trade at the price -100. *)
Definition traded_negative : list request :=
  [Submit (order 1 SELL LIMIT (-100) 10); Submit (order 2 BUY LIMIT (-100) 10)].

(** After a single trade at a negative price the default engine rejects
    every further limit order, whatever its (numeric) price: the instrument is
    halted, since only limit orders can rest. *)
Theorem negative_trade_halts o :
  type o = LIMIT -> num (price o) ->
  exists rej, submit_order (after traded_negative) o = Ret (tick (after traded_negative), inr rej).
Proof.
  intros Ht Hp. rewrite submit_order_rejected; [eauto|].
  unfold x_verdict. rewrite Ht.
  change (x_collar (abs (after traded_negative))) with (collar_ (after traded_negative)).
  change (x_last (abs (after traded_negative))) with (last_price_ (after traded_negative)).
  assert (collar_ (after traded_negative) = new_PriceCollar default_band) as -> by (vm_compute; done).
  assert (last_price_ (after traded_negative) = Some (d_of_Z (-100))) as -> by (vm_compute; done).
  apply check_inverted; [done|]. vm_compute. reflexivity.
Qed.

