(* ===== verification/Dump.v ===== *)
(** * The text of the book: [OrderBook::dump]

    The stream output of [src/order_book.cpp], characters and numbers included,
    and a reader of that text: the dump loses nothing of the queue of a price but
    the digits of the price after the second. *)

From stdpp Require Import pretty.
From Stdlib Require Import Ascii SpecFloat.
From S2P Require Import Prelude Double StdMap Order OrderBook.

(** ** Numbers *)

(** [os << x] for a [uint64_t]. *)
Definition show_u64 (z : Z) : string := pretty (Z.to_N z).

(** The hundredths nearest to [m * 2 ^ e], ties to even, as [std::fixed] with
    [std::setprecision(2)] rounds. *)
Definition hundredths (m : positive) (e : Z) : Z :=
  if 0 <=? e then 100 * Zpos m * 2 ^ e
  else
    let d := 2 ^ (- e) in
    let q := 100 * Zpos m / d in
    let r := 100 * Zpos m mod d in
    match 2 * r ?= d with
    | Lt => q
    | Eq => if Z.even q then q else q + 1
    | Gt => q + 1
    end.

Definition show_hundredths (c : Z) : string :=
  show_u64 (c / 100) +:+ "." +:+ show_u64 (c mod 100 / 10) +:+ show_u64 (c mod 10).

(** [os << x] for a [double], in that mode. *)
Definition show_fixed2 (x : double) : string :=
  match x with
  | S754_zero s => (if s then "-" else "") +:+ "0.00"
  | S754_infinity s => (if s then "-" else "") +:+ "inf"
  | S754_nan => "nan"
  | S754_finite s m e => (if s then "-" else "") +:+ show_hundredths (hundredths m e)
  end.

(** ** The dump *)

Definition newline : string := String (ascii_of_nat 10) "".

Definition asks_title : string := "=== ASKS (low -> high, best first) ===" +:+ newline.
Definition bids_title : string := "=== BIDS (high -> low, best first) ===" +:+ newline.

(** The inner loop, over the deque of a level. *)
Fixpoint dump_orders (dq : list Order) : string :=
  match dq with
  | [] => ""
  | o :: dq' =>
      "[id=" +:+ show_u64 (order_id o) +:+ " qty=" +:+ show_u64 (remaining_quantity o) +:+
      " ts=" +:+ show_u64 (timestamp o) +:+ "] " +:+ dump_orders dq'
  end.

(** The outer loop, over the levels of a side. *)
Fixpoint dump_levels (m : list level) : string :=
  match m with
  | [] => ""
  | (p, dq) :: m' => "  " +:+ show_fixed2 p +:+ ": " +:+ dump_orders dq +:+ newline +:+ dump_levels m'
  end.

Definition dump (b : OrderBook) : string :=
  asks_title +:+ dump_levels (asks_ b) +:+ bids_title +:+ dump_levels (bids_ b).

(** ** A reader *)

Fixpoint strip (p s : string) : option string :=
  match p, s with
  | "", _ => Some s
  | String a p', String b s' => if Ascii.eqb a b then strip p' s' else None
  | _, "" => None
  end.

Definition digit (c : ascii) : option N :=
  let n := (N_of_ascii c - 48)%N in
  if ((48 <=? N_of_ascii c) && (n <? 10))%N then Some n else None.

(** The number a run of digits continues to from [acc], and the rest. *)
Fixpoint read_digits (acc : N) (s : string) : N * string :=
  match s with
  | String c s' =>
      match digit c with
      | Some d => read_digits (acc * 10 + d)%N s'
      | None => (acc, s)
      end
  | "" => (acc, s)
  end.

Definition read_u64 (s : string) : Z * string :=
  let '(n, s') := read_digits 0 s in (Z.of_N n, s').

(** The text up to the character [a], and the rest from it on. *)
Fixpoint read_until (a : ascii) (s : string) : string * string :=
  match s with
  | "" => ("", s)
  | String c s' => if Ascii.eqb c a then ("", s) else let '(p, r) := read_until a s' in (String c p, r)
  end.

Fixpoint read_orders (fuel : nat) (s : string) : option (list (Z * Z * Z) * string) :=
  match fuel with
  | O => None
  | S fuel' =>
    match strip "[id=" s with
    | None => Some ([], s)
    | Some s =>
      let '(id, s) := read_u64 s in
      s ← strip " qty=" s;
      let '(qty, s) := read_u64 s in
      s ← strip " ts=" s;
      let '(ts, s) := read_u64 s in
      s ← strip "] " s;
      '(l, s) ← read_orders fuel' s;
      Some ((id, qty, ts) :: l, s)
    end
  end.

Fixpoint read_levels (fuel : nat) (s : string) : option (list (string * list (Z * Z * Z)) * string) :=
  match fuel with
  | O => None
  | S fuel' =>
    match strip "  " s with
    | None => Some ([], s)
    | Some s =>
      let '(p, s) := read_until ":" s in
      s ← strip ": " s;
      '(l, s) ← read_orders (S (String.length s)) s;
      s ← strip newline s;
      '(ls, s) ← read_levels fuel' s;
      Some ((p, l) :: ls, s)
    end
  end.

Definition read_dump (s : string) : option (list (string * list (Z * Z * Z)) * list (string * list (Z * Z * Z))) :=
  s ← strip asks_title s;
  '(asks, s) ← read_levels (S (String.length s)) s;
  s ← strip bids_title s;
  '(bids, s) ← read_levels (S (String.length s)) s;
  match s with "" => Some (asks, bids) | _ => None end.

(** What the dump shows of an order and of a level. *)
Definition shown_order (o : Order) : Z * Z * Z := (order_id o, remaining_quantity o, timestamp o).
Definition shown_level (l : level) : string * list (Z * Z * Z) := (show_fixed2 l.1, shown_order <$> l.2).

(** ** Lemmas *)

Lemma append_assoc (a b c : string) : (a +:+ b) +:+ c = a +:+ b +:+ c.
Proof. induction a as [|x a IH]; [done|]. exact (f_equal (String x) IH). Qed.

Lemma append_nil_r (a : string) : a +:+ "" = a.
Proof. induction a as [|x a IH]; [done|]. exact (f_equal (String x) IH). Qed.

Lemma append_length (a b : string) : String.length (a +:+ b) = (String.length a + String.length b)%nat.
Proof. induction a as [|x a IH]; [done|]. exact (f_equal S IH). Qed.

Lemma strip_append p s : strip p (p +:+ s) = Some s.
Proof.
  induction p as [|a p IH]; [done|]. change (String a p +:+ s) with (String a (p +:+ s)).
  cbn [strip]. by rewrite Ascii.eqb_refl.
Qed.

Lemma digit_pretty x : (x < 10)%N -> digit (pretty_N_char x) = Some x.
Proof.
  intros Hx. assert (x = 0 \/ x = 1 \/ x = 2 \/ x = 3 \/ x = 4 \/ x = 5 \/ x = 6 \/ x = 7 \/ x = 8 \/ x = 9)%N
    as Hc by lia. by repeat destruct Hc as [->|Hc]; subst.
Qed.

Lemma pretty_go_append x s r : pretty_N_go x s +:+ r = pretty_N_go x (s +:+ r).
Proof.
  revert s. induction (N.lt_wf_0 x) as [x _ IH]; intros s.
  destruct (decide (0 < x)%N) as [Hx|]; [|replace x with 0%N by lia; by rewrite !pretty_N_go_0].
  rewrite (pretty_N_go_step x s), (pretty_N_go_step x (s +:+ r)), IH by (done || by apply N.div_lt). done.
Qed.

Lemma read_digits_digit acc c s d : digit c = Some d -> read_digits acc (String c s) = read_digits (acc * 10 + d) s.
Proof. intros H. cbn [read_digits]. by rewrite H. Qed.

Lemma read_pretty_go x s : read_digits 0 (pretty_N_go x s) = read_digits x s.
Proof.
  revert s. induction (N.lt_wf_0 x) as [x _ IH]; intros s.
  destruct (decide (0 < x)%N) as [Hx|]; [|replace x with 0%N by lia; by rewrite !pretty_N_go_0].
  rewrite (pretty_N_go_step x s), IH by (done || by apply N.div_lt).
  rewrite (read_digits_digit _ _ _ (x mod 10)) by (apply digit_pretty, N.mod_lt; done). f_equal. pose proof (N.div_mod x 10). lia.
Qed.

(** A number followed by something else than a digit reads back. *)
Lemma read_show_u64 z c s :
  0 <= z -> digit c = None -> read_u64 (show_u64 z +:+ String c s) = (z, String c s).
Proof.
  intros Hz Hc. unfold read_u64, show_u64, pretty, pretty_N.
  assert (forall x, read_digits x (String c s) = (x, String c s)) as Hend.
  { intros x. cbn [read_digits]. by rewrite Hc. }
  case_decide as E.
  - change ("0" +:+ String c s) with (String "0" (String c s)).
    rewrite (read_digits_digit _ _ _ 0), Hend by done. f_equal. lia.
  - rewrite pretty_go_append, read_pretty_go. change ("" +:+ String c s) with (String c s).
    rewrite Hend. f_equal. lia.
Qed.

(** *** Prices are digits, signs and letters *)

Fixpoint lacks (a : ascii) (s : string) : bool :=
  match s with
  | "" => true
  | String c s' => negb (Ascii.eqb c a) && lacks a s'
  end.

Lemma lacks_append a s t : lacks a (s +:+ t) = lacks a s && lacks a t.
Proof.
  induction s as [|c s IH]; [done|]. change (String c s +:+ t) with (String c (s +:+ t)).
  cbn [lacks]. by rewrite IH, andb_assoc.
Qed.

Lemma lacks_digits a x s : digit a = None -> lacks a s = true -> lacks a (pretty_N_go x s) = true.
Proof.
  intros Ha. revert s. induction (N.lt_wf_0 x) as [x _ IH]; intros s Hs.
  destruct (decide (0 < x)%N) as [Hx|]; [|replace x with 0%N by lia; by rewrite pretty_N_go_0].
  rewrite (pretty_N_go_step x s) by done. apply IH; [by apply N.div_lt|]. cbn [lacks].
  rewrite Hs. destruct (Ascii.eqb_spec (pretty_N_char (x mod 10)) a) as [E|]; [|done].
  pose proof (digit_pretty (x mod 10) ltac:(apply N.mod_lt; done)) as Hd. rewrite E in Hd. congruence.
Qed.

Lemma lacks_u64 a z : digit a = None -> lacks a (show_u64 z) = true.
Proof.
  intros Ha. unfold show_u64, pretty, pretty_N. case_decide; [|by apply lacks_digits].
  cbn [lacks]. destruct (Ascii.eqb_spec "0" a) as [E|]; [|done]. by rewrite <-E in Ha.
Qed.

Lemma lacks_price a x :
  digit a = None -> lacks a "-.infa" = true -> lacks a (show_fixed2 x) = true.
Proof.
  intros Ha. cbn [lacks]. rewrite !andb_true_iff, !negb_true_iff. intros (H1 & H2 & H3 & H4 & H5 & H6 & _).
  assert (lacks a "0.00" = true) as Hz.
  { pose proof (lacks_u64 a 0 Ha) as H0. change (show_u64 0) with "0" in H0. cbn [lacks] in *.
    apply andb_prop in H0 as [-> _]. by rewrite H2. }
  destruct x as [s|s| |s m e]; unfold show_fixed2, show_hundredths;
    rewrite ?lacks_append, ?lacks_u64, ?Hz by done; destruct s || idtac; cbn [lacks andb negb];
    rewrite ?H1, ?H2, ?H3, ?H4, ?H5, ?H6; done.
Qed.

Lemma read_until_append a p s :
  lacks a p = true -> read_until a (p +:+ String a s) = (p, String a s).
Proof.
  induction p as [|c p IH]; intros Hp.
  { change ("" +:+ String a s) with (String a s). cbn [read_until]. by rewrite Ascii.eqb_refl. }
  cbn [lacks] in Hp. apply andb_prop in Hp as [Hc%negb_true_iff Hp]. specialize (IH Hp).
  change (String c p +:+ String a s) with (String c (p +:+ String a s)). cbn [read_until]. by rewrite Hc, IH.
Qed.

(** *** The loops read back *)

(** A number before a literal that does not start with a digit. *)
Lemma read_u64_before z p s :
  0 <= z -> match p with "" => False | String c _ => digit c = None end ->
  read_u64 (show_u64 z +:+ p +:+ s) = (z, p +:+ s).
Proof.
  destruct p as [|c p]; [done|]. intros Hz Hc.
  change (String c p +:+ s) with (String c (p +:+ s)). by apply read_show_u64.
Qed.

(** The numbers an order shows are [uint64_t] values. *)
Definition shown_ok (o : Order) : Prop :=
  u64 (order_id o) /\ u64 (remaining_quantity o) /\ u64 (timestamp o).

#[global] Instance shown_ok_dec o : Decision (shown_ok o).
Proof. unfold shown_ok, u64. apply _. Defined.

Lemma read_orders_dump dq s fuel :
  Forall shown_ok dq -> strip "[id=" s = None -> (length dq < fuel)%nat ->
  read_orders fuel (dump_orders dq +:+ s) = Some (shown_order <$> dq, s).
Proof.
  intros Hdq Hs. revert fuel. induction Hdq as [|o dq ([? _] & [? _] & [? _]) _ IH]; intros fuel Hf;
    destruct fuel as [|fuel]; simpl in Hf; try lia; cbn [read_orders dump_orders].
  { change ("" +:+ s) with s. by rewrite Hs. }
  rewrite !append_assoc, strip_append.
  rewrite (read_u64_before _ " qty="), strip_append by done. cbn [mbind option_bind].
  rewrite (read_u64_before _ " ts="), strip_append by done. cbn [mbind option_bind].
  rewrite (read_u64_before _ "] "), strip_append by done. cbn [mbind option_bind].
  rewrite IH by lia. done.
Qed.

Lemma dump_orders_length dq : (length dq <= String.length (dump_orders dq))%nat.
Proof.
  induction dq as [|o dq IH]; [simpl; lia|]. cbn [dump_orders length].
  rewrite !append_length. change (String.length "[id=") with 4%nat. lia.
Qed.

Lemma read_levels_dump m s fuel :
  Forall (fun l : level => Forall shown_ok l.2) m -> strip "  " s = None -> (length m < fuel)%nat ->
  read_levels fuel (dump_levels m +:+ s) = Some (shown_level <$> m, s).
Proof.
  intros Hm Hs. revert fuel. induction Hm as [|[p dq] m Hdq _ IH]; intros fuel Hf;
    destruct fuel as [|fuel]; simpl in Hf; try lia; cbn [read_levels dump_levels].
  { change ("" +:+ s) with s. by rewrite Hs. }
  rewrite !append_assoc, strip_append.
  set (rest := dump_orders dq +:+ newline +:+ dump_levels m +:+ s).
  change (": " +:+ rest) with (String ":" (" " +:+ rest)) at 1.
  rewrite read_until_append by (by apply lacks_price).
  change (String ":" (" " +:+ rest)) with (": " +:+ rest). rewrite strip_append. cbn [mbind option_bind].
  unfold rest. rewrite read_orders_dump; [|done|done|].
  2:{ rewrite append_length. pose proof (dump_orders_length dq). lia. }
  cbn [mbind option_bind]. rewrite strip_append. cbn [mbind option_bind].
  rewrite IH by lia. done.
Qed.

Lemma dump_levels_length m : (length m <= String.length (dump_levels m))%nat.
Proof.
  induction m as [|[p dq] m IH]; [simpl; lia|]. cbn [dump_levels length].
  rewrite !append_length. change (String.length "  ") with 2%nat. lia.
Qed.

(** *** Rounding of the printed price *)

Lemma hundredths_nearest m e :
  if 0 <=? e then hundredths m e = 100 * Zpos m * 2 ^ e
  else 2 * Z.abs (hundredths m e * 2 ^ (- e) - 100 * Zpos m) <= 2 ^ (- e).
Proof.
  unfold hundredths. destruct (Z.leb_spec 0 e); [done|].
  set (d := 2 ^ (- e)). assert (0 < d) by (apply Z.pow_pos_nonneg; lia).
  pose proof (Z.div_mod (100 * Zpos m) d ltac:(lia)). pose proof (Z.mod_pos_bound (100 * Zpos m) d ltac:(lia)).
  destruct (Z.compare_spec (2 * (100 * Zpos m mod d)) d); [destruct (Z.even _)|..]; nia.
Qed.

(** ** The property *)

(** C30: the dump is complete and faithful.  Its text reads back as the asks and
    then the bids, level by level from the best price, each with its price to two
    decimals and its orders in queue order with exactly their ids, remaining
    quantities and timestamps; so the orders shown are those resting, in priority
    order. *)
Theorem dump_reads_back (b : OrderBook) :
  Forall shown_ok (resting BUY b) -> Forall shown_ok (resting SELL b) ->
  exists asks bids,
    read_dump (dump b) = Some (asks, bids) /\
    asks = shown_level <$> asks_ b /\ bids = shown_level <$> bids_ b /\
    concat asks.*2 = shown_order <$> resting SELL b /\
    concat bids.*2 = shown_order <$> resting BUY b.
Proof.
  intros Hb Ha.
  assert (forall m : list level, Forall shown_ok (concat m.*2) ->
    Forall (fun l : level => Forall shown_ok l.2) m) as Hlev.
  { induction m as [|l m IH]; [constructor|]. cbn [fmap list_fmap concat].
    intros [??]%Forall_app. constructor; auto. }
  assert (forall m : list level, concat (shown_level <$> m).*2 = shown_order <$> concat m.*2) as Hcat.
  { induction m as [|l m IH]; [done|]. cbn [fmap list_fmap concat]. rewrite fmap_app. by f_equal. }
  exists (shown_level <$> asks_ b), (shown_level <$> bids_ b).
  split_and!; [|done|done|apply Hcat|apply Hcat]. unfold read_dump, dump.
  rewrite strip_append. cbn [mbind option_bind]. rewrite read_levels_dump; [|by apply Hlev|done|].
  2:{ rewrite append_length. pose proof (dump_levels_length (asks_ b)). lia. }
  cbn [mbind option_bind]. rewrite strip_append. cbn [mbind option_bind].
  pose proof (read_levels_dump (bids_ b) "" (S (String.length (dump_levels (bids_ b))))
    (Hlev _ Hb) eq_refl) as Hr.
  rewrite append_nil_r in Hr. rewrite Hr; [done|]. pose proof (dump_levels_length (bids_ b)). lia.
Qed.

(** A book with two asks at one price and a bid. *)
Definition dumped_book : OrderBook :=
  let o id s p q := mkOrder id 1 s LIMIT (replicate kSymbolLen NUL) p q q id in
  add_resting_order (add_resting_order (add_resting_order empty_book
    (o 1 SELL (ddiv (d_of_Z 201) (d_of_Z 2)) 10)) (o 2 SELL (ddiv (d_of_Z 201) (d_of_Z 2)) 7))
    (o 3 BUY (d_of_Z 99) 4).

(** Its text. *)
Example dumped_text :
  dump dumped_book =
  asks_title +:+ "  100.50: [id=1 qty=10 ts=1] [id=2 qty=7 ts=2] " +:+ newline +:+
  bids_title +:+ "  99.00: [id=3 qty=4 ts=3] " +:+ newline.
Proof. vm_compute. reflexivity. Qed.

Lemma dump_reads_back_witness :
  exists asks bids,
    read_dump (dump dumped_book) = Some (asks, bids) /\
    asks = shown_level <$> asks_ dumped_book /\ bids = shown_level <$> bids_ dumped_book /\
    concat asks.*2 = shown_order <$> resting SELL dumped_book /\
    concat bids.*2 = shown_order <$> resting BUY dumped_book.
Proof.
  apply (dump_reads_back dumped_book); apply (bool_decide_unpack _); vm_compute; exact I.
Defined.
