(* ===== verification/Sharding.v ===== *)
(** * Symbol sharding ([include/sharding.hpp])

    The FNV-1a hash on 64-bit words and the map from symbols to shards. *)

From S2P Require Import Prelude Double Order.

(** The constants of [fnv1a]: the initial value and the multiplier. *)
Definition fnv_offset : Z := 14695981039346656037.
Definition fnv_prime : Z := 1099511628211.

(** [unsigned char c]. *)
Definition byte_of_char (c : char) : Z := Z.of_N (N_of_ascii c).

(** The loop body: [hash ^= c; hash *= 1099511628211ull;]. *)
Definition fnv_step (hash : Z) (c : char) : Z :=
  mul64 (Z.lxor hash (byte_of_char c)) fnv_prime.

Definition fnv1a (s : string) : Z :=
  foldl fnv_step fnv_offset (String.list_ascii_of_string s).

(** [static_cast<uint32_t>(fnv1a(symbol) % num_shards)]; the remainder by zero
    is undefined. *)
Definition shard_for_symbol (symbol : string) (num_shards : Z) : outcome Z :=
  if num_shards =? 0 then Undef
  else Ret ((fnv1a symbol mod num_shards) mod 2 ^ 32).

(** ** Each round of the hash is a bijection of 64-bit words *)

Definition fnv_prime_inv : Z := 14886173955864302971.

Lemma fnv_prime_inverse : (fnv_prime * fnv_prime_inv) mod modulus64 = 1.
Proof. reflexivity. Qed.

Lemma mul64_fnv_prime_inj a b :
  u64 a -> u64 b -> mul64 a fnv_prime = mul64 b fnv_prime -> a = b.
Proof.
  assert (forall x, u64 x -> mul64 (mul64 x fnv_prime) fnv_prime_inv = x) as Hinv.
  { intros x Hx. unfold mul64, wrap64.
    rewrite Z.mul_mod_idemp_l, <-Z.mul_assoc, <-Z.mul_mod_idemp_r, fnv_prime_inverse by done.
    rewrite Z.mul_1_r. by apply Z.mod_small. }
  intros Ha Hb Heq. by rewrite <-(Hinv a), <-(Hinv b), Heq.
Qed.

Lemma u64_testbit_high z i : u64 z -> 64 <= i -> Z.testbit z i = false.
Proof.
  intros [H0 H1] Hi. destruct (Z.eq_dec z 0) as [->|]; [apply Z.bits_0|].
  apply Z.bits_above_log2; [done|].
  assert (Z.log2 z < 64); [|lia]. apply Z.log2_lt_pow2; [lia|done].
Qed.

Lemma lxor_u64 a b : u64 a -> u64 b -> u64 (Z.lxor a b).
Proof.
  intros Ha Hb. assert (0 <= Z.lxor a b) as Hnn.
  { apply Z.lxor_nonneg. destruct Ha, Hb. lia. }
  split; [done|]. destruct (Z.eq_dec (Z.lxor a b) 0) as [->|Hne]; [done|].
  apply Z.log2_lt_pow2; [lia|].
  destruct (Z.lt_ge_cases (Z.log2 (Z.lxor a b)) 64) as [|Hge]; [done|].
  pose proof (Z.bit_log2 (Z.lxor a b) ltac:(lia)) as Hbit.
  rewrite Z.lxor_spec, !u64_testbit_high in Hbit by done. done.
Qed.

Lemma byte_of_char_range c : 0 <= byte_of_char c < 256.
Proof. pose proof (N_ascii_bounded c). unfold byte_of_char. lia. Qed.

Lemma byte_of_char_inj c d : byte_of_char c = byte_of_char d -> c = d.
Proof.
  unfold byte_of_char. intros H%N2Z.inj.
  by rewrite <-(ascii_N_embedding c), <-(ascii_N_embedding d), H.
Qed.

Lemma byte_of_char_u64 c : u64 (byte_of_char c).
Proof. pose proof (byte_of_char_range c). unfold u64. rewrite modulus64_val. lia. Qed.

Lemma fnv_step_u64 h c : u64 (fnv_step h c).
Proof. apply wrap64_u64. Qed.

Lemma fnv_offset_u64 : u64 fnv_offset.
Proof. done. Qed.

#[export] Hint Resolve byte_of_char_u64 lxor_u64 fnv_step_u64 fnv_offset_u64 : u64.

Lemma foldl_fnv_u64 cs h : u64 h -> u64 (foldl fnv_step h cs).
Proof. revert h. induction cs as [|c cs IH]; intros h Hh; simpl; auto with u64. Qed.

Lemma lxor_cancel_l a b c : Z.lxor a b = Z.lxor a c -> b = c.
Proof.
  intros H. apply (f_equal (Z.lxor a)) in H.
  by rewrite <-!Z.lxor_assoc, Z.lxor_nilpotent, !Z.lxor_0_l in H.
Qed.

(** A round loses nothing of the state it starts from, and nothing of the byte. *)
Lemma fnv_step_inj_state h h' c : u64 h -> u64 h' -> fnv_step h c = fnv_step h' c -> h = h'.
Proof.
  intros Hh Hh' H%mul64_fnv_prime_inj; [|auto with u64..].
  rewrite !(Z.lxor_comm _ (byte_of_char c)) in H. by apply lxor_cancel_l in H.
Qed.

Lemma fnv_step_inj_byte h c d : u64 h -> fnv_step h c = fnv_step h d -> c = d.
Proof.
  intros Hh H%mul64_fnv_prime_inj; [|auto with u64..].
  by apply lxor_cancel_l, byte_of_char_inj in H.
Qed.

Lemma foldl_fnv_inj cs h h' :
  u64 h -> u64 h' -> foldl fnv_step h cs = foldl fnv_step h' cs -> h = h'.
Proof.
  revert h h'. induction cs as [|c cs IH]; intros h h' Hh Hh' H; simpl in H; [done|].
  apply IH in H; [|auto with u64..]. by apply fnv_step_inj_state in H.
Qed.

Lemma list_ascii_of_string_app s t :
  String.list_ascii_of_string (s +:+ t) =
  String.list_ascii_of_string s ++ String.list_ascii_of_string t.
Proof. induction s as [|c s IH]; simpl; [done|]. by rewrite IH. Qed.

Lemma fnv1a_app s t :
  fnv1a (s +:+ t) = foldl fnv_step (fnv1a s) (String.list_ascii_of_string t).
Proof. unfold fnv1a. by rewrite list_ascii_of_string_app, foldl_app. Qed.

Lemma fnv1a_u64 s : u64 (fnv1a s).
Proof. apply foldl_fnv_u64; auto with u64. Qed.

(** The published test vectors of the 64-bit FNV-1a hash. *)
Example fnv1a_empty : fnv1a "" = 14695981039346656037.
Proof. reflexivity. Qed.
Example fnv1a_a : fnv1a "a" = 12638187200555641996.
Proof. reflexivity. Qed.
Example fnv1a_foobar : fnv1a "foobar" = 9625390261332436968.
Proof. reflexivity. Qed.

(** With at least one shard the result is the hash modulo their number. *)
Lemma shard_for_symbol_ret s n :
  0 < n < 2 ^ 32 -> shard_for_symbol s n = Ret (fnv1a s mod n) /\ 0 <= fnv1a s mod n < n.
Proof.
  intros Hn. pose proof (Z.mod_pos_bound (fnv1a s) n ltac:(lia)) as Hb. split; [|done].
  unfold shard_for_symbol. destruct (Z.eqb_spec n 0); [lia|].
  rewrite (Z.mod_small (fnv1a s mod n)) by lia. done.
Qed.

(** ** Properties *)

(** Two symbols that differ in exactly one character, the first, the last
    or one in the middle, have different hashes: no such pair collides. *)
Theorem fnv1a_no_single_char_collision (p s : string) (c d : char) :
  c <> d -> fnv1a (p +:+ String c s) <> fnv1a (p +:+ String d s).
Proof.
  rewrite !fnv1a_app. simpl. intros Hne H.
  apply foldl_fnv_inj in H; [|auto with u64..].
  apply fnv_step_inj_byte in H; [done|]. apply fnv1a_u64.
Qed.

(** For any positive [uint32_t] number of shards the shard of a symbol is a
    valid index, and it is the same for every order carrying that symbol,
    whoever computes it and whatever its other fields. *)
Lemma shard_index_valid (o1 o2 : Order) (s : string) (num_shards : Z) :
  0 < num_shards < 2 ^ 32 -> no_nul s -> (String.length s <= kSymbolLen)%nat ->
  exists k, 0 <= k < num_shards /\
    shard_for_symbol (symbol_str (set_symbol o1 s)) num_shards = Ret k /\
    shard_for_symbol (symbol_str (set_symbol o2 s)) num_shards = Ret k.
Proof.
  intros Hn Hs Hl. rewrite !symbol_str_set_symbol_short by done.
  destruct (shard_for_symbol_ret s num_shards Hn) as [-> ?]. eauto.
Qed.
