(* ===== verification/OrderPool.v ===== *)
(** * The order pool ([include/order_pool.hpp])

    A fixed array of [Order] slots and a stack of pointers to the free ones.  A
    pointer into [storage_] is the index of the slot it points to.  The client
    that acquires and releases slots is a sequence of calls together with the
    list of slots it holds. *)

From S2P Require Import Prelude Double Order.

Abbreviation slot := nat.

(** [storage_], [free_list_] and [top_]. *)
Record OrderPool := mkOrderPool {
  storage_ : list Order;
  free_list_ : list (option slot);
  top_ : nat
}.

(** The constructor: [free_list_(capacity)] is an array of null pointers, and
    the loop stores [&storage_[i]] at every index [i]. *)
Fixpoint fill_free_list (fl : list (option slot)) (i n : nat) : list (option slot) :=
  match n with
  | O => fl
  | S n' => fill_free_list (<[i := Some i]> fl) (S i) n'
  end.

Definition new_OrderPool (capacity : nat) : OrderPool :=
  mkOrderPool (replicate capacity default_order)
              (fill_free_list (replicate capacity None) 0 capacity) capacity.

(** [acquire]: null when the pool is exhausted; reading outside [free_list_] is
    undefined. *)
Definition acquire (p : OrderPool) : outcome (option slot * OrderPool) :=
  match top_ p with
  | O => Ret (None, p)
  | S t =>
    match free_list_ p !! t with
    | Some ptr => Ret (ptr, mkOrderPool (storage_ p) (free_list_ p) t)
    | None => Undef
    end
  end.

(** [release]: the assertion, without which the store is out of bounds. *)
Definition release (p : OrderPool) (o : option slot) : outcome OrderPool :=
  if (top_ p <? length (free_list_ p))%nat
  then Ret (mkOrderPool (storage_ p) (<[top_ p := o]> (free_list_ p)) (S (top_ p)))
  else Undef.

Definition available (p : OrderPool) : nat := top_ p.
Definition capacity (p : OrderPool) : nat := length (storage_ p).

(** ** Clients *)

Inductive pool_call :=
  | Acquire
  | Release (s : slot).

(** A client that releases only slots it holds: the slots held after each call.
    [None] is a call outside this discipline. *)
Definition client_call (st : OrderPool * list slot) (c : pool_call)
    : option (outcome (OrderPool * list slot)) :=
  match c with
  | Acquire =>
    Some ('(r, p') ← acquire st.1;
          Ret (p', match r with Some s => s :: st.2 | None => st.2 end))
  | Release s =>
    if bool_decide (s ∈ st.2)
    then Some (p' ← release st.1 (Some s); Ret (p', filter (fun s' => s' <> s) st.2))
    else None
  end.

Inductive pool_run : OrderPool * list slot -> OrderPool * list slot -> Prop :=
  | pool_run_refl st : pool_run st st
  | pool_run_step st st' st'' c :
      pool_run st st' -> client_call st' c = Some (Ret st'') -> pool_run st st''.

(** ** The invariant: free and held slots partition the storage *)

Definition free_slots (p : OrderPool) : list (option slot) := take (top_ p) (free_list_ p).

Definition pool_ok (st : OrderPool * list slot) : Prop :=
  let '(p, held) := st in
  length (free_list_ p) = capacity p /\ (top_ p <= length (free_list_ p))%nat /\
  free_slots p ++ (Some <$> held) ≡ₚ Some <$> seq 0 (capacity p).

Lemma fill_free_list_spec fl i n :
  (i + n <= length fl)%nat ->
  fill_free_list fl i n = take i fl ++ (Some <$> seq i n) ++ drop (i + n) fl.
Proof.
  revert fl i. induction n as [|n IH]; intros fl i Hl; simpl.
  { by rewrite Nat.add_0_r, take_drop. }
  rewrite IH by (rewrite length_insert; lia).
  rewrite drop_insert_lt by lia. rewrite Nat.add_succ_comm.
  rewrite (take_S_r _ _ (Some i)) by (rewrite list_lookup_insert_eq by lia; done).
  rewrite take_insert_ge by lia. by rewrite <-app_assoc.
Qed.

Lemma new_OrderPool_free_list n : free_list_ (new_OrderPool n) = Some <$> seq 0 n.
Proof.
  simpl. rewrite fill_free_list_spec by (rewrite length_replicate; lia).
  simpl. rewrite drop_ge by (rewrite length_replicate; lia). by rewrite app_nil_r.
Qed.

Lemma new_OrderPool_ok n : pool_ok (new_OrderPool n, []).
Proof.
  unfold pool_ok, free_slots, capacity. rewrite new_OrderPool_free_list. simpl.
  rewrite length_fmap, length_seq, length_replicate.
  split; [done|]. split; [done|]. rewrite app_nil_r, take_ge; [done|].
  by rewrite length_fmap, length_seq.
Qed.

Lemma pool_ok_count p held : pool_ok (p, held) -> (available p + length held = capacity p)%nat.
Proof.
  intros (Hl & Ht & Hp). apply Permutation_length in Hp. revert Hp.
  unfold free_slots, available.
  rewrite length_app, length_take, !length_fmap, length_seq. lia.
Qed.

Lemma pool_ok_nodup p held : pool_ok (p, held) -> NoDup (free_slots p ++ (Some <$> held)).
Proof. intros (_ & _ & ->). apply NoDup_fmap; [apply _|]. apply NoDup_seq. Qed.

Lemma pool_ok_held_nodup p held : pool_ok (p, held) -> NoDup held.
Proof. intros H%pool_ok_nodup. apply NoDup_app in H as (_ & _ & H). by apply NoDup_fmap_1 in H. Qed.

(** The two outcomes of [acquire] in a consistent pool. *)
Lemma acquire_cases p held :
  pool_ok (p, held) ->
  (available p = 0%nat /\ acquire p = Ret (None, p)) \/
  exists s p', acquire p = Ret (Some s, p') /\ (s ∉ held) /\ (s < capacity p)%nat /\
    storage_ p' = storage_ p /\ available p = S (available p') /\ pool_ok (p', s :: held).
Proof.
  intros Hok. pose proof Hok as (Hl & Ht & Hp). unfold acquire, available.
  destruct (top_ p) as [|t] eqn:Etop; [by left|right].
  destruct (lookup_lt_is_Some_2 (free_list_ p) t) as [ptr Hptr]; [lia|].
  assert (free_slots p = take t (free_list_ p) ++ [ptr]) as Hfree.
  { unfold free_slots. rewrite Etop. by apply take_S_r. }
  assert (ptr ∈ Some <$> seq 0 (capacity p)) as Hin.
  { rewrite <-Hp, Hfree. set_solver. }
  apply list_elem_of_fmap in Hin as (s & -> & Hs%elem_of_seq).
  rewrite Hptr. eexists s, _. split_and!; [done| |lia|done|done|].
  - pose proof (pool_ok_nodup _ _ Hok) as Hnd. rewrite Hfree in Hnd.
    apply NoDup_app in Hnd as (_ & Hd & _). intros Hsh.
    apply (Hd (Some s)); [set_solver|]. by apply list_elem_of_fmap_2.
  - split; [done|]. simpl. split; [lia|]. rewrite <-Hp, Hfree.
    unfold free_slots. simpl. by rewrite <-app_assoc.
Qed.

Lemma filter_out_perm (s : slot) (l : list slot) :
  NoDup l -> s ∈ l -> l ≡ₚ s :: filter (fun s' => s' <> s) l.
Proof.
  induction 1 as [|a l Ha Hl IH]; intros Hs; [set_solver|].
  destruct (decide (a = s)) as [->|Hne].
  - rewrite filter_cons_False by naive_solver.
    rewrite filter_id; [done|]. intros x Hx ->. done.
  - rewrite filter_cons_True by done. rewrite Permutation_swap, <-IH by set_solver. done.
Qed.

(** Releasing a held slot always succeeds and stays consistent. *)
Lemma release_held p held s :
  pool_ok (p, held) -> s ∈ held ->
  exists p', release p (Some s) = Ret p' /\ storage_ p' = storage_ p /\
    available p' = S (available p) /\ pool_ok (p', filter (fun s' => s' <> s) held) /\
    acquire p' = Ret (Some s, mkOrderPool (storage_ p) (<[top_ p := Some s]> (free_list_ p)) (top_ p)).
Proof.
  intros Hok Hs. pose proof Hok as (Hl & Ht & Hp).
  pose proof (pool_ok_count _ _ Hok) as Hc. unfold available in Hc.
  assert (length held <> 0)%nat as Hne by (destruct held; [set_solver|done]).
  unfold release. destruct (Nat.ltb_spec (top_ p) (length (free_list_ p))); [|lia].
  eexists. split; [done|]. split_and!; [done|done| |].
  - split; simpl; [by rewrite length_insert|]. split; [rewrite length_insert; lia|].
    unfold free_slots. simpl.
    rewrite (take_S_r _ _ (Some s)) by (rewrite list_lookup_insert_eq by lia; done).
    rewrite take_insert_ge by lia. rewrite <-app_assoc. simpl.
    rewrite <-Hp. apply Permutation_app_head.
    rewrite <-fmap_cons, <-filter_out_perm; [done| |done].
    by apply (pool_ok_held_nodup p).
  - unfold acquire. simpl. rewrite list_lookup_insert_eq by lia. done.
Qed.

Lemma client_call_ok st c r :
  pool_ok st -> client_call st c = Some r -> exists st', r = Ret st' /\ pool_ok st' /\
    capacity st'.1 = capacity st.1.
Proof.
  destruct st as [p held]. intros Hok Hc. destruct c as [|s]; simpl in Hc.
  - injection Hc as <-. destruct (acquire_cases _ _ Hok) as
      [[_ ->]|(s & p' & -> & _ & _ & Hst & _ & Hok')]; simpl; eexists; split_and!; try done.
    unfold capacity. simpl. by rewrite Hst.
  - case_bool_decide as Hs; [|done]. injection Hc as <-.
    destruct (release_held _ _ _ Hok Hs) as (p' & -> & Hst & _ & Hok' & _).
    simpl. eexists; split_and!; try done. unfold capacity. simpl. by rewrite Hst.
Qed.

Lemma pool_run_ok st st' : pool_run st st' -> pool_ok st -> pool_ok st' /\ capacity st'.1 = capacity st.1.
Proof.
  induction 1 as [|st st' st'' c _ IH Hc]; intros Hok; [done|].
  destruct (IH Hok) as [Hok' Hcap].
  destruct (client_call_ok _ _ _ Hok' Hc) as (? & [= <-] & ? & ?). split; [done|congruence].
Qed.

(** ** Properties *)

(** C29: in every run of a client that releases only slots it holds, the next
    call never fails; a slot handed out lies inside the storage and is not
    already held; null comes back exactly when every slot of the pool is held;
    and the number of available slots is always the capacity less the number held. *)
Theorem pool_never_aliases (n : nat) (p : OrderPool) (held : list slot) :
  pool_run (new_OrderPool n, []) (p, held) ->
  (available p + length held = n)%nat /\ NoDup held /\
  (forall c r, client_call (p, held) c = Some r -> returns r) /\
  (exists r p', acquire p = Ret (r, p') /\
    match r with
    | Some s => (s ∉ held) /\ (s < n)%nat
    | None => length held = n
    end).
Proof.
  intros Hrun. apply pool_run_ok in Hrun as [Hok Hcap]; [|apply new_OrderPool_ok].
  assert (capacity p = n) as Hn by (etrans; [exact Hcap|apply length_replicate]).
  pose proof (pool_ok_count _ _ Hok) as Hc. rewrite Hn in Hc.
  split; [done|]. split; [by eapply pool_ok_held_nodup|]. split.
  - intros c r Hcall. destruct (client_call_ok _ _ _ Hok Hcall) as (st' & -> & _). by exists st'.
  - destruct (acquire_cases _ _ Hok) as [[H0 ->]|(s & p' & -> & Hs & Hlt & _)].
    + exists None, p. split; [done|]. lia.
    + exists (Some s), p'. rewrite <-Hn. done.
Qed.

Lemma pool_never_aliases_witness :
  pool_run (new_OrderPool 2, []) (mkOrderPool (replicate 2 default_order) [Some 0%nat; Some 1%nat] 1, [1%nat]) /\
  (available (mkOrderPool (replicate 2 default_order) [Some 0%nat; Some 1%nat] 1) + length [1%nat] = 2)%nat.
Proof.
  assert (pool_run (new_OrderPool 2, [])
    (mkOrderPool (replicate 2 default_order) [Some 0%nat; Some 1%nat] 1, [1%nat])) as Hrun.
  { eapply (pool_run_step _ _ _ Acquire); [apply pool_run_refl|]. reflexivity. }
  split; [exact Hrun|]. apply (pool_never_aliases 2 _ _ Hrun).
Defined.

(** Slots are reused in stack order: releasing a held slot succeeds and the
    next acquisition returns that very slot, leaving as many slots available as
    before. *)
Lemma release_then_acquire (p : OrderPool) (held : list slot) (s : slot) :
  pool_ok (p, held) -> s ∈ held ->
  exists p' p'', release p (Some s) = Ret p' /\ acquire p' = Ret (Some s, p'') /\
    available p' = S (available p) /\ available p'' = available p.
Proof.
  intros Hok Hs. destruct (release_held _ _ _ Hok Hs) as (p' & Hr & _ & Ha & _ & Hacq).
  eexists p', _. split_and!; done.
Qed.
