(* ===== verification/Bytes.v ===== *)
(** * Object representations

    What [memcpy], [fwrite] and [fread] see of the plain structs of the source:
    little-endian integers, the IEEE interchange format of [double], and the
    layout of [Order], [Trade] and [uint64_t] as bytes.  A byte is a [char];
    [byte_of_char] is its unsigned value.  Padding bytes have no specified value
    and are an argument of the encoders. *)

From Stdlib Require Import SpecFloat.
From S2P Require Import Prelude Double Rounding Order Sharding.

(** ** Little-endian integers *)

Definition char_of_byte (b : Z) : char := ascii_of_N (Z.to_N b).

Fixpoint le_decode (bs : list char) : Z :=
  match bs with
  | [] => 0
  | b :: bs' => byte_of_char b + 256 * le_decode bs'
  end.

Fixpoint le_encode (n : nat) (z : Z) : list char :=
  match n with
  | O => []
  | S n' => char_of_byte (z mod 256) :: le_encode n' (z / 256)
  end.

Lemma char_of_byte_of_char c : char_of_byte (byte_of_char c) = c.
Proof. unfold char_of_byte, byte_of_char. rewrite N2Z.id. apply ascii_N_embedding. Qed.

Lemma byte_of_char_of_byte b : 0 <= b < 256 -> byte_of_char (char_of_byte b) = b.
Proof.
  intros Hb. unfold char_of_byte, byte_of_char. rewrite N_ascii_embedding by lia.
  apply Z2N.id. lia.
Qed.

Lemma le_encode_length n z : length (le_encode n z) = n.
Proof. revert z. induction n as [|n IH]; intros z; simpl; [done|]. by rewrite IH. Qed.

Lemma le_decode_encode n z : 0 <= z < 256 ^ Z.of_nat n -> le_decode (le_encode n z) = z.
Proof.
  revert z. induction n as [|n IH]; intros z Hz; simpl; [simpl in Hz; lia|].
  rewrite Nat2Z.inj_succ, Z.pow_succ_r in Hz by lia.
  pose proof (Z.mod_pos_bound z 256 ltac:(lia)).
  rewrite byte_of_char_of_byte by done.
  rewrite IH by (split; [apply Z.div_pos; lia|apply Z.div_lt_upper_bound; lia]).
  pose proof (Z.div_mod z 256 ltac:(lia)). lia.
Qed.

Lemma le_decode_range bs : 0 <= le_decode bs < 256 ^ Z.of_nat (length bs).
Proof.
  induction bs as [|b bs IH]; simpl; [lia|].
  rewrite Nat2Z.inj_succ, Z.pow_succ_r by lia. pose proof (byte_of_char_range b). lia.
Qed.

Lemma le_encode_decode bs : le_encode (length bs) (le_decode bs) = bs.
Proof.
  induction bs as [|b bs IH]; simpl; [done|]. pose proof (byte_of_char_range b).
  f_equal.
  - rewrite Z.mul_comm, Z.mod_add, Z.mod_small by lia. apply char_of_byte_of_char.
  - rewrite Z.mul_comm, Z.div_add, Z.div_small by lia. apply IH.
Qed.

Lemma le64_decode_encode z : u64 z -> le_decode (le_encode 8 z) = z.
Proof. intros Hz. by apply le_decode_encode. Qed.

Lemma le64_u64 bs : length bs = 8%nat -> u64 (le_decode bs).
Proof. intros Hl. pose proof (le_decode_range bs) as H. rewrite Hl in H. exact H. Qed.

(** ** binary64 as a 64-bit integer *)

Definition sign_bit (s : bool) : Z := if s then 2 ^ 63 else 0.

Definition bits_of_double (x : double) : Z :=
  match x with
  | S754_zero s => sign_bit s
  | S754_infinity s => sign_bit s + 2047 * 2 ^ 52
  | S754_nan => 2047 * 2 ^ 52 + 2 ^ 51
  | S754_finite s m e =>
    if Zpos m <? 2 ^ 52 then sign_bit s + Zpos m
    else sign_bit s + (e + 1075) * 2 ^ 52 + (Zpos m - 2 ^ 52)
  end.

Definition double_of_bits (z : Z) : double :=
  let s := 2 ^ 63 <=? z in
  let e := (z / 2 ^ 52) mod 2 ^ 11 in
  let m := z mod 2 ^ 52 in
  if e =? 2047 then if m =? 0 then S754_infinity s else S754_nan
  else if e =? 0 then
    match m with Zpos p => S754_finite s p (-1074) | _ => S754_zero s end
  else
    match m + 2 ^ 52 with Zpos p => S754_finite s p (e - 1075) | _ => S754_zero s end.

(** Splitting an encoding back into its three fields. *)
Lemma double_fields s e m :
  0 <= e < 2 ^ 11 -> 0 <= m < 2 ^ 52 ->
  let z := sign_bit s + e * 2 ^ 52 + m in
  (2 ^ 63 <=? z) = s /\ (z / 2 ^ 52) mod 2 ^ 11 = e /\ z mod 2 ^ 52 = m.
Proof.
  intros He Hm z. subst z.
  replace (sign_bit s + e * 2 ^ 52 + m) with (m + (e + (if s then 1 else 0) * 2 ^ 11) * 2 ^ 52)
    by (destruct s; unfold sign_bit; lia).
  split_and!.
  - destruct s; [apply Z.leb_le|apply Z.leb_gt]; lia.
  - rewrite Z.div_add, Z.div_small, Z.add_0_l, Z.mod_add by lia. by apply Z.mod_small.
  - rewrite Z.mod_add by lia. by apply Z.mod_small.
Qed.

Lemma double_of_bits_of_double x : valid_double x -> double_of_bits (bits_of_double x) = x.
Proof.
  assert (forall s e m, 0 <= e < 2 ^ 11 -> 0 <= m < 2 ^ 52 ->
    double_of_bits (sign_bit s + e * 2 ^ 52 + m) =
    (if e =? 2047 then if m =? 0 then S754_infinity s else S754_nan
     else if e =? 0 then match m with Zpos p => S754_finite s p (-1074) | _ => S754_zero s end
     else match m + 2 ^ 52 with Zpos p => S754_finite s p (e - 1075) | _ => S754_zero s end)) as H.
  { intros s e m He Hm. destruct (double_fields s e m He Hm) as (Hs & H1 & H2).
    unfold double_of_bits. by rewrite Hs, H1, H2. }
  intros Hx. destruct x as [s|s| |s m e]; cbn [bits_of_double].
  - by destruct s.
  - by destruct s.
  - done.
  - apply valid_finite in Hx as [[-> Hm]|[He Hm]]; destruct (Z.ltb_spec (Zpos m) (2 ^ 52)); try lia.
    + replace (sign_bit s + Zpos m) with (sign_bit s + 0 * 2 ^ 52 + Zpos m) by lia.
      by rewrite H by lia.
    + rewrite H by lia. destruct (Z.eqb_spec (e + 1075) 2047); [lia|].
      destruct (Z.eqb_spec (e + 1075) 0); [lia|].
      replace (Zpos m - 2 ^ 52 + 2 ^ 52) with (Zpos m) by lia. f_equal. lia.
Qed.

Lemma bits_of_double_u64 x : valid_double x -> u64 (bits_of_double x).
Proof.
  intros Hx. unfold u64. rewrite modulus64_val. destruct x as [s|s| |s m e]; cbn [bits_of_double].
  - destruct s; cbn; lia.
  - destruct s; cbn; lia.
  - lia.
  - apply valid_finite in Hx as [[-> Hm]|[He Hm]]; destruct (Z.ltb_spec (Zpos m) (2 ^ 52)); try lia;
      destruct s; unfold sign_bit; lia.
Qed.

(** ** Struct layouts *)

(** The [n] bytes at offset [off]. *)
Definition slice (off n : nat) (bs : list char) : list char := take n (drop off bs).

Definition byte_at (off : nat) (bs : list char) : Z :=
  default 0 (byte_of_char <$> bs !! off).

(** [sizeof(Order)] and [sizeof(Trade)]. *)
Definition sizeof_Order : nat := 64.
Definition sizeof_Trade : nat := 40.
Definition sizeof_u64 : nat := 8.

(** Enumerators: every test in the source is against the first one. *)
Definition side_byte (s : Side) : Z := match s with BUY => 0 | SELL => 1 end.
Definition type_byte (t : OrderType) : Z := match t with LIMIT => 0 | MARKET => 1 end.
Definition side_of_byte (b : Z) : Side := if b =? 0 then BUY else SELL.
Definition type_of_byte (b : Z) : OrderType := if b =? 0 then LIMIT else MARKET.

(** [struct Order]: the six bytes before [price] are padding. *)
Definition encode_order (pad : list char) (o : Order) : list char :=
  le_encode 8 (order_id o) ++ le_encode 8 (client_id o) ++
  [char_of_byte (side_byte (side o))] ++ [char_of_byte (type_byte (type o))] ++
  symbol o ++ pad ++
  le_encode 8 (bits_of_double (price o)) ++ le_encode 8 (quantity o) ++
  le_encode 8 (remaining_quantity o) ++ le_encode 8 (timestamp o).

Definition decode_order (bs : list char) : Order :=
  mkOrder (le_decode (slice 0 8 bs)) (le_decode (slice 8 8 bs))
          (side_of_byte (byte_at 16 bs)) (type_of_byte (byte_at 17 bs))
          (slice 18 8 bs) (double_of_bits (le_decode (slice 32 8 bs)))
          (le_decode (slice 40 8 bs)) (le_decode (slice 48 8 bs)) (le_decode (slice 56 8 bs)).

(** [struct Trade] has no padding. *)
Definition encode_trade (t : Trade) : list char :=
  le_encode 8 (buy_order_id t) ++ le_encode 8 (sell_order_id t) ++
  le_encode 8 (bits_of_double (trade_price t)) ++ le_encode 8 (trade_quantity t) ++
  le_encode 8 (trade_timestamp t).

Definition decode_trade (bs : list char) : Trade :=
  mkTrade (le_decode (slice 0 8 bs)) (le_decode (slice 8 8 bs))
          (double_of_bits (le_decode (slice 16 8 bs)))
          (le_decode (slice 24 8 bs)) (le_decode (slice 32 8 bs)).

(** Trades whose fields are in the range of their types. *)
Definition trade_wt (t : Trade) : Prop :=
  u64 (buy_order_id t) /\ u64 (sell_order_id t) /\ valid_double (trade_price t) /\
  u64 (trade_quantity t) /\ u64 (trade_timestamp t).

#[global] Instance trade_wt_dec t : Decision (trade_wt t).
Proof. unfold trade_wt. apply _. Defined.

Lemma slice_here n a l : length a = n -> slice 0 n (a ++ l) = a.
Proof. intros <-. unfold slice. rewrite drop_0. apply take_app_length. Qed.

Lemma slice_all n a : length a = n -> slice 0 n a = a.
Proof. intros <-. unfold slice. rewrite drop_0. by apply take_ge. Qed.

Lemma slice_skip m k n a l :
  length a = m -> (m <= k)%nat -> slice k n (a ++ l) = slice (k - m) n l.
Proof. intros <- Hk. unfold slice. by rewrite drop_app_ge. Qed.

Lemma byte_at_skip m k a l : length a = m -> (m <= k)%nat -> byte_at k (a ++ l) = byte_at (k - m) l.
Proof. intros <- Hk. unfold byte_at. by rewrite lookup_app_r. Qed.

Lemma byte_at_here b l : 0 <= b < 256 -> byte_at 0 ([char_of_byte b] ++ l) = b.
Proof. intros Hb. unfold byte_at. simpl. by apply byte_of_char_of_byte. Qed.

(** Moves every slice past the fields before it. *)
Ltac field_side := first [apply le_encode_length | assumption | reflexivity | lia].
Ltac skip_fields :=
  repeat match goal with
  | |- context [slice ?k ?n (?a ++ ?l)] =>
      first [ rewrite (slice_skip 8 k n a l) by field_side
            | rewrite (slice_skip 6 k n a l) by field_side
            | rewrite (slice_skip 1 k n a l) by field_side ]; cbn [Nat.sub]
  | |- context [byte_at ?k (?a ++ ?l)] =>
      first [ rewrite (byte_at_skip 8 k a l) by field_side
            | rewrite (byte_at_skip 1 k a l) by field_side ]; cbn [Nat.sub]
  end.

Lemma side_of_side_byte s : side_of_byte (side_byte s) = s.
Proof. by destruct s. Qed.
Lemma type_of_type_byte t : type_of_byte (type_byte t) = t.
Proof. by destruct t. Qed.

Lemma encode_order_length pad o :
  length pad = 6%nat -> length (symbol o) = kSymbolLen -> length (encode_order pad o) = sizeof_Order.
Proof.
  intros Hp Hs. unfold encode_order. rewrite !length_app, !le_encode_length, Hp, Hs. done.
Qed.

Lemma encode_trade_length t : length (encode_trade t) = sizeof_Trade.
Proof. unfold encode_trade. by rewrite !length_app, !le_encode_length. Qed.

Lemma decode_encode_order pad o :
  length pad = 6%nat -> order_wt o -> valid_double (price o) ->
  decode_order (encode_order pad o) = o.
Proof.
  intros Hpad (Hid & Hcl & Hsym & Hq & Hr & Ht) Hp. unfold decode_order, encode_order.
  unfold kSymbolLen in Hsym. skip_fields.
  rewrite !byte_at_here by (destruct (side o), (type o); simpl; lia).
  rewrite !(slice_here 8) by (apply le_encode_length || done).
  rewrite (slice_all 8) by apply le_encode_length.
  rewrite !le64_decode_encode by (done || by apply bits_of_double_u64).
  rewrite side_of_side_byte, type_of_type_byte, double_of_bits_of_double by done.
  by destruct o.
Qed.

Lemma decode_encode_trade t : trade_wt t -> decode_trade (encode_trade t) = t.
Proof.
  intros (Hb & Hs & Hp & Hq & Ht). unfold decode_trade, encode_trade. skip_fields.
  rewrite !(slice_here 8) by apply le_encode_length.
  rewrite (slice_all 8) by apply le_encode_length.
  rewrite !le64_decode_encode by (done || by apply bits_of_double_u64).
  rewrite double_of_bits_of_double by done. by destruct t.
Qed.
