(* ===== verification/OrderQueue.v ===== *)
(** * The order queue interface ([include/order_queue.hpp])

    [IOrderQueue] promises its clients a queue that is first in, first out, and
    whose [pop] fails only after a shutdown with nothing left to drain.  Here
    that promise is an abstract machine, [fifo], and the class [OrderQueue] of
    the implementations related to it by a simulation.  What the consumer of a queue may rely
    on is proved once, from the class. *)

From S2P Require Import Prelude Double Order.

(** The points at which the calls of [IOrderQueue] take effect. *)
Inductive event :=
  | Pushed (o : Order)      (* [push(o)] *)
  | Popped (o : Order)      (* [pop(out)] returning true with [out = o] *)
  | Drained                 (* [pop(out)] returning false *)
  | ShutDown.               (* [shutdown()] *)

(** ** The abstract queue

    [late] counts the orders pushed since the shutdown: a [pop] may give up as
    soon as only such orders are left. *)
Record fifo := mkFifo {
  items : list Order;
  closed : bool;
  late : nat;
  total : nat
}.

Definition fifo_empty : fifo := mkFifo [] false 0 0.

Definition fifo_step (q : fifo) (e : event) : option fifo :=
  match e with
  | Pushed o =>
    Some (mkFifo (items q ++ [o]) (closed q)
                 (if closed q then S (late q) else late q) (S (total q)))
  | Popped o =>
    match items q with
    | x :: rest => if bool_decide (x = o) then Some (mkFifo rest (closed q) (late q) (total q)) else None
    | [] => None
    end
  | Drained => if closed q && (length (items q) <=? late q)%nat then Some q else None
  | ShutDown => Some (mkFifo (items q) true (late q) (total q))
  end.

Fixpoint fifo_run (q : fifo) (tr : list event) : option fifo :=
  match tr with
  | [] => Some q
  | e :: tr' => q' ← fifo_step q e; fifo_run q' tr'
  end.

(** ** Traces of a labelled step relation; [None] labels a silent step. *)
Inductive trace {S} (step : S -> option event -> S -> Prop) (s : S) : list event -> S -> Prop :=
  | trace_nil : trace step s [] s
  | trace_silent tr s1 s2 : trace step s tr s1 -> step s1 None s2 -> trace step s tr s2
  | trace_event tr s1 e s2 :
      trace step s tr s1 -> step s1 (Some e) s2 -> trace step s (tr ++ [e]) s2.

(** Scripted runs: [exec s m] performs the move [m], and the moves of a script
    are performed in turn, collecting the events. *)
Fixpoint run_script {S M} (exec : S -> M -> option (option event * S)) (s : S) (ms : list M)
    : option (list event * S) :=
  match ms with
  | [] => Some ([], s)
  | m :: ms' =>
    '(l, s1) ← exec s m;
    '(tr, s2) ← run_script exec s1 ms';
    Some (option_list l ++ tr, s2)
  end.

Lemma run_script_trace {S M} (step : S -> option event -> S -> Prop)
    (exec : S -> M -> option (option event * S)) s0 tr0 s ms tr s' :
  (forall s m l s', exec s m = Some (l, s') -> step s l s') ->
  trace step s0 tr0 s -> run_script exec s ms = Some (tr, s') -> trace step s0 (tr0 ++ tr) s'.
Proof.
  intros Hsound. revert s tr0 tr. induction ms as [|m ms IH]; intros s tr0 tr Htr Hrun; simpl in Hrun.
  { simplify_eq. by rewrite app_nil_r. }
  apply bind_Some in Hrun as ([l s1] & Hex & Hrun). apply bind_Some in Hrun as ([tr1 s2] & Hrun & [= <- <-]).
  rewrite app_assoc. apply (IH s1); [|done]. apply Hsound in Hex.
  destruct l; simpl; [by eapply trace_event|]. rewrite app_nil_r. by eapply trace_silent.
Qed.

(** The orders pushed, and the orders popped, along a trace. *)
Definition pushed (tr : list event) : list Order :=
  omap (fun e => match e with Pushed o => Some o | _ => None end) tr.
Definition popped (tr : list event) : list Order :=
  omap (fun e => match e with Popped o => Some o | _ => None end) tr.

(** ** The interface

    [q_range n] bounds the number of pushes for which an implementation keeps
    its promise: its counters have a machine width. *)
Class OrderQueue (Q : Type) := {
  q_init : Q;
  q_step : Q -> option event -> Q -> Prop;
  q_sim : Q -> fifo -> Prop;
  q_range : nat -> Prop;
  q_range_down n m : (n <= m)%nat -> q_range m -> q_range n;
  q_init_sim : q_sim q_init fifo_empty;
  q_silent s q s' : q_sim s q -> q_range (total q) -> q_step s None s' -> q_sim s' q;
  q_event s q e s' :
    q_sim s q -> q_range (total q + length (pushed [e])) -> q_step s (Some e) s' ->
    exists q', fifo_step q e = Some q' /\ q_sim s' q'
}.

(** ** Facts about the abstract queue *)

Lemma pushed_snoc tr e : pushed (tr ++ [e]) = pushed tr ++ pushed [e].
Proof. apply omap_app. Qed.
Lemma popped_snoc tr e : popped (tr ++ [e]) = popped tr ++ popped [e].
Proof. apply omap_app. Qed.

Lemma fifo_run_app q tr1 tr2 : fifo_run q (tr1 ++ tr2) = q' ← fifo_run q tr1; fifo_run q' tr2.
Proof.
  revert q. induction tr1 as [|e tr1 IH]; intros q; simpl; [done|].
  destruct (fifo_step q e) as [q'|]; simpl; [apply IH|done].
Qed.

Lemma fifo_run_snoc q tr e : fifo_run q (tr ++ [e]) = q' ← fifo_run q tr; fifo_step q' e.
Proof.
  rewrite fifo_run_app. destruct (fifo_run q tr) as [q'|]; simpl; [|done].
  by destruct (fifo_step q' e).
Qed.

(** Nothing is lost, invented or reordered. *)
Lemma fifo_run_items tr q :
  fifo_run fifo_empty tr = Some q ->
  pushed tr = popped tr ++ items q /\ total q = length (pushed tr).
Proof.
  revert q. induction tr as [|e tr IH] using rev_ind; intros q Hq; simpl in Hq.
  { by injection Hq as <-. }
  rewrite fifo_run_snoc in Hq. apply bind_Some in Hq as (q1 & Hq1 & Hq).
  destruct (IH _ Hq1) as [Hi Ht]. rewrite pushed_snoc, popped_snoc, length_app.
  destruct e as [o|o| |]; simpl in Hq; repeat case_match; simplify_eq/=;
    unfold pushed, popped in *; simpl;
    (split; [rewrite ?app_nil_r, ?Hi, <-?app_assoc; simpl; try done|lia]).
  case_bool_decide; by subst.
Qed.

(** The producer's discipline: nothing is pushed once the queue is shut down. *)
Fixpoint quiet (tr : list event) : Prop :=
  match tr with
  | [] => True
  | ShutDown :: tr' => pushed tr' = []
  | _ :: tr' => quiet tr'
  end.

Lemma quiet_open tr e : ShutDown ∉ tr -> quiet (tr ++ [e]).
Proof.
  induction tr as [|e' tr IH]; intros Hn; [by destruct e|].
  apply not_elem_of_cons in Hn as [Hne Hn]. destruct e'; simpl; by apply IH || done.
Qed.

Lemma quiet_snoc tr e : quiet tr -> pushed [e] = [] -> quiet (tr ++ [e]).
Proof.
  intros Hq He. induction tr as [|e' tr IH]; [by destruct e|].
  destruct e'; [by apply IH..|]. cbn [app quiet] in *. by rewrite pushed_snoc, Hq, He.
Qed.

Lemma fifo_run_closed tr q q' :
  fifo_run q tr = Some q' -> closed q' = true <-> closed q = true \/ ShutDown ∈ tr.
Proof.
  revert q. induction tr as [|e tr IH]; intros q Hq; simpl in Hq.
  { simplify_eq. set_solver. }
  apply bind_Some in Hq as (q1 & Hq1 & Hq). rewrite (IH _ Hq), elem_of_cons.
  destruct e; simpl in Hq1; repeat case_match; simplify_eq/=; naive_solver.
Qed.

Lemma fifo_run_late tr q q' :
  fifo_run q tr = Some q' -> quiet tr -> (closed q = true -> pushed tr = []) ->
  late q' = late q.
Proof.
  revert q. induction tr as [|e tr IH]; intros q Hq Hquiet Hp; simpl in Hq.
  { by simplify_eq. }
  apply bind_Some in Hq as (q1 & Hq1 & Hq).
  destruct e; simpl in Hq1; repeat case_match; simplify_eq/=;
    try (rewrite (IH _ Hq Hquiet Hp); done).
  - by specialize (Hp eq_refl).
  - rewrite (IH _ Hq); [done|done|]. simpl. congruence.
  - rewrite (IH _ Hq); [done| |done]. clear -Hquiet.
    induction tr as [|e tr IH']; [done|]. destruct e; unfold pushed in *; simpl in *; try done; auto.
Qed.

(** ** What the class gives to the clients of a queue *)

Section client.
Context {Q : Type} `{OrderQueue Q}.

Lemma trace_simulates tr s :
  trace q_step q_init tr s -> q_range (length (pushed tr)) ->
  exists q, fifo_run fifo_empty tr = Some q /\ q_sim s q.
Proof.
  induction 1 as [|tr s1 s2 _ IH Hstep|tr s1 e s2 _ IH Hstep]; intros Hr.
  - exists fifo_empty. split; [done|apply q_init_sim].
  - destruct (IH Hr) as (q & Hrun & Hsim). exists q. split; [done|].
    destruct (fifo_run_items _ _ Hrun) as [_ Htot]. rewrite <-Htot in Hr.
    by apply (q_silent s1).
  - rewrite pushed_snoc, length_app in Hr.
    destruct (IH (q_range_down _ _ (Nat.le_add_r _ _) Hr)) as (q & Hrun & Hsim).
    destruct (fifo_run_items _ _ Hrun) as [_ Htot]. rewrite <-Htot in Hr.
    destruct (q_event _ _ _ _ Hsim Hr Hstep) as (q' & Hev & Hsim'). exists q'.
    split; [|done]. by rewrite fifo_run_snoc, Hrun.
Qed.

(** The consumer receives the producer's orders, in order, each at most once. *)
Lemma popped_prefix tr s :
  trace q_step q_init tr s -> q_range (length (pushed tr)) -> popped tr `prefix_of` pushed tr.
Proof.
  intros Htr Hr. destruct (trace_simulates _ _ Htr Hr) as (q & Hrun & _).
  apply fifo_run_items in Hrun as [-> _]. by exists (items q).
Qed.

(** A [pop] that fails has seen everything pushed before the shutdown. *)
Lemma drained_complete tr s :
  trace q_step q_init (tr ++ [Drained]) s -> q_range (length (pushed tr)) -> quiet tr ->
  ShutDown ∈ tr /\ popped tr = pushed tr.
Proof.
  intros Htr Hr Hquiet. destruct (trace_simulates _ _ Htr) as (q1 & Hrun & _).
  { rewrite pushed_snoc. unfold pushed at 2. simpl. by rewrite app_nil_r. }
  rewrite fifo_run_snoc in Hrun. apply bind_Some in Hrun as (q & Hrun & Hd). simpl in Hd.
  destruct (closed q) eqn:Hc; simpl in Hd; [|done].
  destruct (Nat.leb_spec (length (items q)) (late q)) as [Hlen|]; [|done].
  split; [apply (fifo_run_closed _ _ _ Hrun) in Hc as [|]; done|].
  rewrite (fifo_run_late _ _ _ Hrun Hquiet) in Hlen by done. simpl in Hlen.
  destruct (fifo_run_items _ _ Hrun) as [-> _].
  destruct (items q); simpl in Hlen; [by rewrite app_nil_r|lia].
Qed.
End client.
