(* ===== verification/MutexQueue.v ===== *)
(** * The mutex queue ([include/mutex_order_queue.hpp])

    Any number of threads call [push], [pop] and [shutdown] on one queue.  A
    thread is a program counter between the synchronisation operations of the
    call it is in, and a step of the machine is one such operation of one
    thread.  [cv_.wait] with a predicate is the loop the standard prescribes:
    test the predicate with the lock held, release the lock and block
    atomically, unblock on a notification or spuriously, take the lock back and
    test again.  The relaxed load of [done_] may return a stale [false]. *)

From S2P Require Import Prelude Double Order OrderQueue.

Inductive pc :=
  | Idle
  | PushEntry (o : Order)     (* before [lock_guard lk(mu_)] *)
  | PushLocked (o : Order)    (* before [queue_.push] *)
  | PushUnlock                (* end of the block: the guard is destroyed *)
  | PushNotify                (* before [cv_.notify_one()] *)
  | PopEntry                  (* before [unique_lock lk(mu_)] *)
  | PopTest                   (* [wait]: before the predicate *)
  | PopSleep                  (* [wait]: the predicate was false *)
  | PopBlocked                (* [wait]: blocked, the lock released *)
  | PopWoken                  (* [wait]: unblocked, before the lock is taken back *)
  | PopTake                   (* after [wait] *)
  | PopUnlock                 (* before returning: the lock is destroyed *)
  | ShutEntry                 (* before [done_.store] *)
  | ShutNotify.               (* before [cv_.notify_all()] *)

#[global] Instance pc_eq_dec : EqDecision pc.
Proof. solve_decision. Defined.

Record MutexOrderQueue := mkMQ {
  mu_ : option nat;           (* the thread holding the mutex *)
  queue_ : list Order;
  mq_done_ : bool;
  threads : list pc
}.

Definition new_MutexOrderQueue (n : nat) : MutexOrderQueue := mkMQ None [] false (replicate n Idle).

(** Thread [i] moves to [p]. *)
Definition goto (s : MutexOrderQueue) (i : nat) (p : pc) : list pc := <[i := p]> (threads s).

(** [cv_.notify_all()] unblocks every blocked thread. *)
Definition wake (p : pc) : pc := match p with PopBlocked => PopWoken | _ => p end.

(** The operations of the calls in progress, in program order. *)
Inductive mutex_step (s : MutexOrderQueue) (i : nat) : pc -> option event -> MutexOrderQueue -> Prop :=
  | push_lock o : mu_ s = None ->
      mutex_step s i (PushEntry o) None (mkMQ (Some i) (queue_ s) (mq_done_ s) (goto s i (PushLocked o)))
  | push_enqueue o :
      mutex_step s i (PushLocked o) (Some (Pushed o))
        (mkMQ (mu_ s) (queue_ s ++ [o]) (mq_done_ s) (goto s i PushUnlock))
  | push_unlock :
      mutex_step s i PushUnlock None (mkMQ None (queue_ s) (mq_done_ s) (goto s i PushNotify))
  | push_notify j : threads s !! j = Some PopBlocked ->
      mutex_step s i PushNotify None
        (mkMQ (mu_ s) (queue_ s) (mq_done_ s) (<[j := PopWoken]> (goto s i Idle)))
  | push_notify_none : PopBlocked ∉ threads s ->
      mutex_step s i PushNotify None (mkMQ (mu_ s) (queue_ s) (mq_done_ s) (goto s i Idle))
  | pop_lock : mu_ s = None ->
      mutex_step s i PopEntry None (mkMQ (Some i) (queue_ s) (mq_done_ s) (goto s i PopTest))
  | pop_test_true : queue_ s <> [] \/ mq_done_ s = true ->
      mutex_step s i PopTest None (mkMQ (mu_ s) (queue_ s) (mq_done_ s) (goto s i PopTake))
  | pop_test_false : queue_ s = [] ->
      mutex_step s i PopTest None (mkMQ (mu_ s) (queue_ s) (mq_done_ s) (goto s i PopSleep))
  | pop_block :
      mutex_step s i PopSleep None (mkMQ None (queue_ s) (mq_done_ s) (goto s i PopBlocked))
  | pop_relock : mu_ s = None ->
      mutex_step s i PopWoken None (mkMQ (Some i) (queue_ s) (mq_done_ s) (goto s i PopTest))
  | pop_dequeue o q : queue_ s = o :: q ->
      mutex_step s i PopTake (Some (Popped o)) (mkMQ (mu_ s) q (mq_done_ s) (goto s i PopUnlock))
  | pop_empty : queue_ s = [] ->
      mutex_step s i PopTake (Some Drained) (mkMQ (mu_ s) (queue_ s) (mq_done_ s) (goto s i PopUnlock))
  | pop_unlock :
      mutex_step s i PopUnlock None (mkMQ None (queue_ s) (mq_done_ s) (goto s i Idle))
  | shut_store :
      mutex_step s i ShutEntry (Some ShutDown) (mkMQ (mu_ s) (queue_ s) true (goto s i ShutNotify))
  | shut_notify :
      mutex_step s i ShutNotify None
        (mkMQ (mu_ s) (queue_ s) (mq_done_ s) (wake <$> goto s i Idle)).

(** What the environment may do: start a call, or unblock a thread spuriously. *)
Inductive mutex_env (s : MutexOrderQueue) (i : nat) : pc -> pc -> Prop :=
  | call_push o : mutex_env s i Idle (PushEntry o)
  | call_pop : mutex_env s i Idle PopEntry
  | call_shutdown : mutex_env s i Idle ShutEntry
  | spurious_wakeup : mutex_env s i PopBlocked PopWoken.

Inductive mutex_queue_step (s : MutexOrderQueue) : option event -> MutexOrderQueue -> Prop :=
  | mq_internal i p l s' :
      threads s !! i = Some p -> mutex_step s i p l s' -> mutex_queue_step s l s'
  | mq_env i p p' :
      threads s !! i = Some p -> mutex_env s i p p' ->
      mutex_queue_step s None (mkMQ (mu_ s) (queue_ s) (mq_done_ s) (goto s i p')).

(** *** The same steps as a function of a scheduler's choices *)

Inductive mutex_move :=
  | Run (i : nat)               (* the next operation of thread [i] *)
  | RunStale (i : nat)          (* the same, with a stale load of [done_] *)
  | Notify (i j : nat)          (* [notify_one] of thread [i] unblocks thread [j] *)
  | Spurious (i : nat)
  | CallPush (i : nat) (o : Order)
  | CallPop (i : nat)
  | CallShutdown (i : nat).

Definition mutex_exec_thread (s : MutexOrderQueue) (i : nat) (p : pc)
    : option (option event * MutexOrderQueue) :=
  let mk mu q d t := mkMQ mu q d (goto s i t) in
  match p, mu_ s with
  | PushEntry o, None => Some (None, mk (Some i) (queue_ s) (mq_done_ s) (PushLocked o))
  | PushLocked o, mu => Some (Some (Pushed o), mk mu (queue_ s ++ [o]) (mq_done_ s) PushUnlock)
  | PushUnlock, _ => Some (None, mk None (queue_ s) (mq_done_ s) PushNotify)
  | PushNotify, mu =>
    if decide (PopBlocked ∈ threads s) then None
    else Some (None, mk mu (queue_ s) (mq_done_ s) Idle)
  | PopEntry, None => Some (None, mk (Some i) (queue_ s) (mq_done_ s) PopTest)
  | PopTest, mu =>
    match queue_ s, mq_done_ s with
    | [], false => Some (None, mk mu [] false PopSleep)
    | q, d => Some (None, mk mu q d PopTake)
    end
  | PopSleep, _ => Some (None, mk None (queue_ s) (mq_done_ s) PopBlocked)
  | PopWoken, None => Some (None, mk (Some i) (queue_ s) (mq_done_ s) PopTest)
  | PopTake, mu =>
    match queue_ s with
    | o :: q => Some (Some (Popped o), mk mu q (mq_done_ s) PopUnlock)
    | [] => Some (Some Drained, mk mu [] (mq_done_ s) PopUnlock)
    end
  | PopUnlock, _ => Some (None, mk None (queue_ s) (mq_done_ s) Idle)
  | ShutEntry, mu => Some (Some ShutDown, mk mu (queue_ s) true ShutNotify)
  | ShutNotify, mu =>
    Some (None, mkMQ mu (queue_ s) (mq_done_ s) (wake <$> goto s i Idle))
  | _, _ => None
  end.

Definition mutex_exec_call (s : MutexOrderQueue) (i : nat) (from to : pc)
    : option (option event * MutexOrderQueue) :=
  if decide (threads s !! i = Some from)
  then Some (None, mkMQ (mu_ s) (queue_ s) (mq_done_ s) (goto s i to)) else None.

Definition mutex_exec (s : MutexOrderQueue) (m : mutex_move)
    : option (option event * MutexOrderQueue) :=
  match m with
  | Run i => p ← threads s !! i; mutex_exec_thread s i p
  | RunStale i =>
    match threads s !! i, queue_ s with
    | Some PopTest, [] => Some (None, mkMQ (mu_ s) [] (mq_done_ s) (goto s i PopSleep))
    | _, _ => None
    end
  | Notify i j =>
    match threads s !! i, threads s !! j with
    | Some PushNotify, Some PopBlocked =>
      Some (None, mkMQ (mu_ s) (queue_ s) (mq_done_ s) (<[j := PopWoken]> (goto s i Idle)))
    | _, _ => None
    end
  | Spurious i => mutex_exec_call s i PopBlocked PopWoken
  | CallPush i o => mutex_exec_call s i Idle (PushEntry o)
  | CallPop i => mutex_exec_call s i Idle PopEntry
  | CallShutdown i => mutex_exec_call s i Idle ShutEntry
  end.

Lemma mutex_exec_thread_sound s i p l s' :
  mutex_exec_thread s i p = Some (l, s') -> mutex_step s i p l s'.
Proof.
  intros H. destruct s as [mu q d ts]; simpl in *.
  destruct p; simpl in H; repeat case_match; simplify_eq/=;
    try (by econstructor); by (eapply (pop_test_true (mkMQ _ _ _ _)); simpl; auto).
Qed.

Lemma mutex_exec_sound s m l s' : mutex_exec s m = Some (l, s') -> mutex_queue_step s l s'.
Proof.
  assert (forall i p p', mutex_env s i p p' ->
    mutex_exec_call s i p p' = Some (l, s') -> mutex_queue_step s l s') as Hcall.
  { unfold mutex_exec_call. intros i p p' Henv H. case_decide; simplify_eq. by eapply mq_env. }
  destruct m; simpl; intros H.
  - apply bind_Some in H as (p & Hi & Hp). by eapply mq_internal, mutex_exec_thread_sound.
  - repeat case_match; simplify_eq. destruct s; simpl in *; subst.
    eapply mq_internal; [done|]. by apply (pop_test_false (mkMQ _ _ _ _)).
  - repeat case_match; simplify_eq. by eapply mq_internal, push_notify.
  - by eapply Hcall, H; constructor.
  - by eapply Hcall, H; constructor.
  - by eapply Hcall, H; constructor.
  - by eapply Hcall, H; constructor.
Qed.

(** ** Invariants *)

(** The program points at which a thread owns the mutex. *)
Definition owns (p : pc) : bool :=
  match p with
  | PushLocked _ | PushUnlock | PopTest | PopSleep | PopTake | PopUnlock => true
  | _ => false
  end.

(** A thread that will notify a consumer, or is a consumer that will look at
    the queue again. *)
Definition attentive (p : pc) : Z :=
  match p with
  | PushUnlock | PushNotify | PopEntry | PopTest | PopWoken | PopTake => 1
  | _ => 0
  end.

(** What a thread may rely on at its program point. *)
Definition pc_inv (s : MutexOrderQueue) (i : nat) (p : pc) : Prop :=
  (owns p = true <-> mu_ s = Some i) /\
  match p with
  | PopSleep => queue_ s = []
  | PopTake => queue_ s <> [] \/ mq_done_ s = true
  | _ => True
  end.

Record mutex_inv (s : MutexOrderQueue) : Prop := {
  inv_pc i p : threads s !! i = Some p -> pc_inv s i p;
  inv_owner i : mu_ s = Some i -> is_Some (threads s !! i);
  inv_wake : PopBlocked ∈ threads s ->
    Z.of_nat (length (queue_ s)) <= zsum attentive (threads s)
}.

(** [zsum] after an update. *)
Lemma zsum_insert {A} (f : A -> Z) l i x y :
  l !! i = Some x -> zsum f (<[i := y]> l) = zsum f l - f x + f y.
Proof.
  revert i. induction l as [|a l IH]; intros [|i] H; simplify_eq/=; rewrite !zsum_cons; [lia|].
  rewrite (IH _ H). lia.
Qed.

Lemma attentive_nonneg l : 0 <= zsum attentive l.
Proof. apply zsum_nonneg, Forall_forall. intros [] _; simpl; lia. Qed.

Lemma elem_of_insert_ne {A} (l : list A) i x y :
  x ∈ <[i := y]> l -> x <> y -> x ∈ l.
Proof.
  intros (j & Hj)%list_elem_of_lookup Hne.
  apply list_lookup_insert_Some in Hj as [(-> & -> & _)|[_ ?]]; [done|].
  by eapply list_elem_of_lookup_2.
Qed.

Lemma wake_not_blocked (l : list pc) : PopBlocked ∉ wake <$> l.
Proof. intros (p & Hp & _)%list_elem_of_fmap. by destruct p. Qed.

Lemma new_mutex_inv n : mutex_inv (new_MutexOrderQueue n).
Proof.
  split; simpl.
  - intros i p [-> _]%lookup_replicate. split; [by split|done].
  - done.
  - intros _. apply attentive_nonneg.
Qed.

(** The three clauses, for a step of thread [i] from [p] to [p']. *)
Lemma goto_inv s i p p' mu q d :
  mutex_inv s -> threads s !! i = Some p ->
  pc_inv (mkMQ mu q d (goto s i p')) i p' ->
  (forall j pj, j <> i -> threads s !! j = Some pj -> pc_inv s j pj ->
     pc_inv (mkMQ mu q d (goto s i p')) j pj) ->
  (forall j, mu = Some j -> j = i \/ mu_ s = Some j) ->
  (PopBlocked ∈ goto s i p' -> Z.of_nat (length q) <= zsum attentive (threads s) - attentive p + attentive p') ->
  mutex_inv (mkMQ mu q d (goto s i p')).
Proof.
  intros [Hpc Hown Hw] Hi Hp' Hother Hmu Hwake. pose proof (lookup_lt_Some _ _ _ Hi) as Hlt.
  split; cbn [threads mu_ queue_ mq_done_].
  - intros j pj Hj. unfold goto in Hj.
    apply list_lookup_insert_Some in Hj as [(-> & -> & _)|[Hne Hj]]; [done|]. auto.
  - intros j Hj. unfold goto. destruct (decide (j = i)) as [->|Hne].
    + rewrite list_lookup_insert_eq by done. eauto.
    + rewrite list_lookup_insert_ne by done. destruct (Hmu _ Hj); [done|auto].
  - intros Hb. unfold goto. rewrite (zsum_insert _ _ _ _ _ Hi). auto.
Qed.

Lemma wake_one_inv s j :
  mutex_inv s -> threads s !! j = Some PopBlocked ->
  mutex_inv (mkMQ (mu_ s) (queue_ s) (mq_done_ s) (goto s j PopWoken)).
Proof.
  intros Hinv Hj. pose proof Hinv as [Hpc _ Hw].
  eapply goto_inv; [done|done| | | |].
  - by destruct (Hpc _ _ Hj).
  - by intros ? ? _ _ [? ?].
  - auto.
  - intros _. simpl. specialize (Hw ltac:(by eapply list_elem_of_lookup_2)). lia.
Qed.

Lemma wake_all_inv s :
  mutex_inv s -> mutex_inv (mkMQ (mu_ s) (queue_ s) (mq_done_ s) (wake <$> threads s)).
Proof.
  intros [Hpc Hown _]. split; cbn [threads mu_ queue_ mq_done_].
  - intros i p Hp. rewrite list_lookup_fmap in Hp.
    apply fmap_Some in Hp as (p0 & Hp%Hpc & ->).
    by destruct p0.
  - intros i [p Hp]%Hown. exists (wake p). by rewrite list_lookup_fmap, Hp.
  - intros H. by apply wake_not_blocked in H.
Qed.

(** Solves the side conditions of [goto_inv] for a given step. *)
Ltac goto_side :=
  match goal with
  | Hpc : pc_inv _ ?i _ |- pc_inv _ ?i _ => unfold pc_inv in *; simpl in *; naive_solver
  | |- forall j pj, j <> _ -> _ =>
      let pj := fresh "pj" in
      intros ? pj ? ?; unfold pc_inv in *; simpl in *; destruct pj; simpl in *; naive_solver
  | |- forall j, _ = Some j -> _ => naive_solver
  | |- _ ∈ goto _ _ _ -> _ =>
      let Hb := fresh "Hb" in
      intros Hb; simpl;
      first [ apply elem_of_insert_ne in Hb; [|done] | idtac ]
  end.

Lemma mutex_step_inv s i p l s' :
  mutex_inv s -> threads s !! i = Some p -> mutex_step s i p l s' -> mutex_inv s'.
Proof.
  intros Hinv Hi Hstep. pose proof Hinv as [Hpc Hown Hw]. pose proof (Hpc _ _ Hi) as Hpci.
  pose proof (attentive_nonneg (goto s i Idle)) as Hnn.
  unfold goto in Hnn. rewrite (zsum_insert _ _ _ _ _ Hi) in Hnn. simpl in Hnn.
  destruct Hstep; simpl in Hnn.
  all: try (eapply goto_inv; [done|done|goto_side..]).
  all: try (specialize (Hw Hb); rewrite ?length_app in *; simpl in *; lia).
  - (* push_notify *)
    assert (i <> j) by naive_solver. unfold goto. rewrite list_insert_insert_ne by done.
    pose proof (wake_one_inv s j Hinv H) as Hinv'. eapply (goto_inv (mkMQ _ _ _ _)).
    + exact Hinv'.
    + simpl. unfold goto. rewrite (list_lookup_insert_ne (threads s) j i) by done. exact Hi.
    + unfold pc_inv in *; simpl in *; naive_solver.
    + by intros ? ? _ _ [? ?].
    + auto.
    + simpl. intros _. unfold goto. rewrite (zsum_insert _ _ _ _ _ H). simpl.
      specialize (Hw ltac:(by eapply list_elem_of_lookup_2)). lia.
  - (* push_notify_none *) done.
  - (* pop_test_false *) rewrite H. simpl. lia.
  - (* pop_block *) destruct Hpci as [_ ->]. simpl. lia.
  - (* pop_dequeue *) specialize (Hw Hb). rewrite H in Hw. simpl in Hw. lia.
  - (* pop_empty *) rewrite H. simpl. lia.
  - (* shut_notify *)
    unfold goto. rewrite list_fmap_insert. simpl.
    pose proof (wake_all_inv s Hinv) as Hinv'. eapply (goto_inv (mkMQ _ _ _ _)).
    + exact Hinv'.
    + cbn [threads]. etrans; [apply list_lookup_fmap|]. by rewrite Hi.
    + unfold pc_inv in *; simpl in *; naive_solver.
    + by intros ? ? _ _ [? ?].
    + auto.
    + intros Hb%elem_of_insert_ne; [|done]. by apply wake_not_blocked in Hb.
Qed.

Lemma mutex_env_inv s i p p' :
  mutex_inv s -> threads s !! i = Some p -> mutex_env s i p p' ->
  mutex_inv (mkMQ (mu_ s) (queue_ s) (mq_done_ s) (goto s i p')).
Proof.
  intros Hinv Hi Henv. destruct (decide (p = PopBlocked)) as [->|Hne].
  { inversion Henv; subst. by apply wake_one_inv. }
  pose proof Hinv as [Hpc _ Hw]. pose proof (Hpc _ _ Hi) as Hpci.
  eapply goto_inv; [done|done| | |auto|].
  - destruct Henv; unfold pc_inv in *; simpl in *; done.
  - by intros ? ? _ _ [? ?].
  - intros Hb%elem_of_insert_ne; [|by destruct Henv]. specialize (Hw Hb).
    destruct Henv; simpl; lia || done.
Qed.

Lemma mutex_queue_step_inv s l s' : mutex_inv s -> mutex_queue_step s l s' -> mutex_inv s'.
Proof.
  intros Hinv [i p l' s'' Hi Hstep|i p p' Hi Henv];
    [by eapply mutex_step_inv|by eapply mutex_env_inv].
Qed.

(** ** The mutex queue implements the interface *)

Definition mutex_sim (s : MutexOrderQueue) (q : fifo) : Prop :=
  mutex_inv s /\ items q = queue_ s /\ closed q = mq_done_ s.

Lemma mutex_step_silent s s' :
  mutex_queue_step s None s' -> queue_ s' = queue_ s /\ mq_done_ s' = mq_done_ s.
Proof. intros Hstep. inversion Hstep as [? ? ? ? _ Hs|]; subst; [by inversion Hs|done]. Qed.

Lemma mutex_step_event s q e s' :
  mutex_sim s q -> mutex_queue_step s (Some e) s' ->
  exists q', fifo_step q e = Some q' /\ mutex_sim s' q'.
Proof.
  intros (Hinv & Hitems & Hclosed) Hstep.
  pose proof (mutex_queue_step_inv _ _ _ Hinv Hstep) as Hinv'.
  inversion Hstep as [i p ? ? Hi Hs|]; subst.
  destruct (inv_pc _ Hinv _ _ Hi) as [_ Hp].
  inversion Hs as [| o | | | | | | | | | o q' Hq | Hq | | |]; subst; simpl; rewrite Hitems.
  - eexists. split; [done|]. split; [done|]. simpl. by rewrite ?Hitems.
  - rewrite Hq, bool_decide_eq_true_2 by done. eexists. split; [done|]. split; [done|]. simpl. by rewrite ?Hitems.
  - destruct Hp as [Hp|Hp]; [done|]. exists q. split; [by rewrite Hclosed, Hp, Hq|]. done.
  - eexists. split; [done|]. split; [done|]. simpl. by rewrite ?Hitems.
Qed.

#[global] Instance mutex_order_queue (n : nat) : OrderQueue MutexOrderQueue := {|
  q_init := new_MutexOrderQueue n;
  q_step := mutex_queue_step;
  q_sim := mutex_sim;
  q_range := fun _ => True;
  q_range_down _ _ _ H := H;
  q_init_sim := conj (new_mutex_inv n) (conj eq_refl eq_refl);
  q_silent s q s' H _ Hstep :=
    conj (mutex_queue_step_inv _ _ _ (proj1 H) Hstep)
         (conj (eq_trans (proj1 (proj2 H)) (eq_sym (proj1 (mutex_step_silent _ _ Hstep))))
               (eq_trans (proj2 (proj2 H)) (eq_sym (proj2 (mutex_step_silent _ _ Hstep)))));
  q_event s q e s' H _ Hstep := mutex_step_event s q e s' H Hstep
|}.

Lemma mutex_trace_inv n tr s :
  trace mutex_queue_step (new_MutexOrderQueue n) tr s -> mutex_inv s.
Proof. induction 1; [apply new_mutex_inv|by eapply mutex_queue_step_inv..]. Qed.

(** ** Progress *)

(** No call in progress can take a step of its own. *)
Definition quiescent (s : MutexOrderQueue) : Prop :=
  forall i p l s', threads s !! i = Some p -> ~ mutex_step s i p l s'.

Lemma owner_can_step s i p :
  mutex_inv s -> threads s !! i = Some p -> owns p = true -> exists l s', mutex_step s i p l s'.
Proof.
  intros Hinv Hi Hp. destruct (inv_pc _ Hinv _ _ Hi) as [_ Hpi].
  destruct p; try done; destruct (queue_ s) as [|x xs] eqn:Hq;
    do 2 eexists; (econstructor; rewrite ?Hq; by (done || left)).
Qed.

Lemma quiescent_unlocked s : mutex_inv s -> quiescent s -> mu_ s = None.
Proof.
  intros Hinv Hquiet. destruct (mu_ s) as [i|] eqn:Hmu; [|done].
  destruct (inv_owner _ Hinv _ Hmu) as [p Hi]. destruct (inv_pc _ Hinv _ _ Hi) as [Howns _].
  destruct (owner_can_step s i p) as (l & s' & Hstep); [done|done|naive_solver|].
  by destruct (Hquiet _ _ _ _ Hi Hstep).
Qed.

Lemma unlocked_can_step s i p :
  mutex_inv s -> mu_ s = None -> threads s !! i = Some p -> p <> Idle -> p <> PopBlocked ->
  exists l s', mutex_step s i p l s'.
Proof.
  intros Hinv Hmu Hi H1 H2. destruct (owns p) eqn:Howns; [by eapply owner_can_step|].
  destruct (decide (PopBlocked ∈ threads s)) as [[j Hj]%list_elem_of_lookup|Hnb];
    destruct p; try done; do 2 eexists; by econstructor.
Qed.

Lemma attentive_zero l : Forall (fun p => p = Idle \/ p = PopBlocked) l -> zsum attentive l = 0.
Proof. induction 1 as [|p l [->| ->] _ IH]; [done|rewrite zsum_cons, IH; done..]. Qed.

(** ** Properties *)

(** C17: for any number of producers and consumers, in every state of the mutex
    queue in which no call can proceed on its own, no thread holds the mutex,
    every thread is idle or blocked in [pop], and a thread is blocked only if
    the queue is empty: the notification of a [push] is never lost, and there
    is no deadlock on the mutex. *)
Theorem push_wakeup_not_lost (n : nat) (tr : list event) (s : MutexOrderQueue) :
  trace mutex_queue_step (new_MutexOrderQueue n) tr s -> quiescent s ->
  mu_ s = None /\ Forall (fun p => p = Idle \/ p = PopBlocked) (threads s) /\
  (PopBlocked ∈ threads s -> queue_ s = []).
Proof.
  intros Htr Hquiet. pose proof (mutex_trace_inv _ _ _ Htr) as Hinv.
  pose proof (quiescent_unlocked s Hinv Hquiet) as Hmu.
  assert (Forall (fun p => p = Idle \/ p = PopBlocked) (threads s)) as Hall.
  { apply Forall_lookup. intros i p Hi.
    destruct (decide (p = Idle)); [by left|]. destruct (decide (p = PopBlocked)); [by right|].
    destruct (unlocked_can_step s i p) as (l & s' & Hstep); try done.
    by destruct (Hquiet _ _ _ _ Hi Hstep). }
  split_and!; [done|done|]. intros Hb%(inv_wake _ Hinv). rewrite attentive_zero in Hb by done.
  destruct (queue_ s); [done|simpl in Hb; lia].
Qed.

(** A state reached by a script, from two idle threads. *)
Definition after_moves (ms : list mutex_move) : MutexOrderQueue :=
  match run_script mutex_exec (new_MutexOrderQueue 2) ms with
  | Some (_, s) => s
  | None => new_MutexOrderQueue 2
  end.

Lemma mutex_script_trace n ms tr s :
  run_script mutex_exec (new_MutexOrderQueue n) ms = Some (tr, s) ->
  trace mutex_queue_step (new_MutexOrderQueue n) tr s.
Proof. apply (run_script_trace _ _ _ []); [apply mutex_exec_sound|constructor]. Qed.

Lemma idle_blocked_quiescent s :
  Forall (fun p => p = Idle \/ p = PopBlocked) (threads s) -> quiescent s.
Proof.
  intros Hall i p l s' Hi Hstep. rewrite Forall_lookup in Hall.
  destruct (Hall _ _ Hi) as [-> | ->]; inversion Hstep.
Qed.

(** Thread 0 pops on the empty queue and blocks; thread 1 pushes an order and
    wakes it; thread 0 takes the order, pops again and blocks again. *)
Definition block_push_block : list mutex_move :=
  let o := default_order in
  [CallPop 0; Run 0; Run 0; Run 0; CallPush 1 o; Run 1; Run 1; Run 1; Notify 1 0;
   Run 0; Run 0; Run 0; Run 0; CallPop 0; Run 0; Run 0; Run 0].

Lemma push_wakeup_not_lost_witness :
  let s := after_moves block_push_block in
  mu_ s = None /\ Forall (fun p => p = Idle \/ p = PopBlocked) (threads s) /\
  (PopBlocked ∈ threads s -> queue_ s = []).
Proof.
  apply (push_wakeup_not_lost 2 [Pushed default_order; Popped default_order]).
  - apply (mutex_script_trace _ block_push_block). vm_compute. reflexivity.
  - apply idle_blocked_quiescent. apply (bool_decide_unpack _). vm_compute. exact I.
Defined.

(** C34: [shutdown] stores [done_] without holding the mutex, so its notification
    can fall between the consumer's test of the predicate and its blocking: a
    state is reachable in which the shutdown has returned, the queue is empty,
    the consumer is blocked and no call can proceed, so that the consumer
    thread is never told to leave and a join on it waits for ever. *)
Theorem shutdown_wakeup_can_be_lost :
  exists s, trace mutex_queue_step (new_MutexOrderQueue 2) [ShutDown] s /\
    mq_done_ s = true /\ queue_ s = [] /\ threads s = [PopBlocked; Idle] /\ quiescent s.
Proof.
  exists (after_moves [CallPop 0; Run 0; Run 0; CallShutdown 1; Run 1; Run 1; Run 0]).
  split.
  - by eapply (mutex_script_trace _ [CallPop 0; Run 0; Run 0; CallShutdown 1; Run 1; Run 1; Run 0]).
  - split_and!; try done. apply idle_blocked_quiescent. apply (bool_decide_unpack _). exact I.
Qed.
