(* ===== verification/LockFreeQueue.v ===== *)
(** * The lock-free queue ([include/lockfree_order_queue.hpp])

    A bounded ring shared by one producer and one consumer.  Each of the two is
    a program counter between its accesses to shared memory, and a step is one
    access.  The release/acquire orders of the source are modelled by what each
    side has seen: a load of the other side's index may return any value between
    the last one seen and the current one, and a load of [done_] that returns
    true also shows the head the shutdown published.  [shutdown] is called on
    the producer's side, after its pushes, as the comment in [pop] expects. *)

From S2P Require Import Prelude Double Order Sharding Bytes OrderQueue.

(** ** The constructor *)

(** [while (capacity_ < min_capacity) capacity_ <<= 1;] on [size_t]. *)
Fixpoint round_up (fuel : nat) (capacity min_capacity : Z) : outcome Z :=
  match fuel with
  | O => NoFuel
  | S fuel' =>
    if capacity <? min_capacity
    then round_up fuel' (wrap64 (Z.shiftl capacity 1)) min_capacity
    else Ret capacity
  end.

(** The producer inside [push(o)], with its local [head]. *)
Inductive producer :=
  | PIdle
  | PLoad (o : Order) (head : Z)      (* before [tail_.load] *)
  | PWrite (o : Order) (head : Z)     (* a slot is available *)
  | PStore (o : Order) (head : Z).    (* the slot is written, before [head_.store] *)

(** The consumer inside [pop(out)], with its local [tail] and [out]. *)
Inductive consumer :=
  | CIdle
  | CLoad (tail : Z)                  (* before [head_.load] *)
  | CDone (tail : Z)                  (* no data, before [done_.load] *)
  | CRecheck (tail : Z)               (* done observed, before the second [head_.load] *)
  | CRead (tail : Z)                  (* data available *)
  | CStore (tail : Z) (out : Order).  (* [out] is read, before [tail_.store] *)

Record LockFreeOrderQueue := mkLF {
  capacity_ : Z;
  mask_ : Z;
  buffer_ : list Order;
  head_ : Z;
  tail_ : Z;
  lf_done_ : bool;
  spin_count_ : Z;
  prod : producer;
  cons_ : consumer;
  p_seen : Z;        (* the tail the producer has seen *)
  c_seen : Z;        (* the head the consumer has seen *)
  done_head : Z      (* the head published with [done_] *)
}.

(** The state after [mask_ = capacity_ - 1; buffer_.resize(capacity_)]. *)
Definition lf_init (capacity : Z) : LockFreeOrderQueue :=
  mkLF capacity (capacity -ᵤ 1) (replicate (Z.to_nat capacity) default_order)
       0 0 false 0 PIdle CIdle 0 0 0.

(** [max_size()] of a vector of orders: their bytes are counted by a [ptrdiff_t]. *)
Definition max_orders : Z := (2 ^ 63 - 1) / Z.of_nat sizeof_Order.

(** The constructor.  [resize] throws above [max_size()], and when the allocator has
    fewer than the bytes asked for; [memory] is what it has. *)
Definition new_LockFreeOrderQueue (memory min_capacity : Z) : outcome LockFreeOrderQueue :=
  c ← round_up 65 1 min_capacity;
  if max_orders <? c then Throw "vector::_M_default_append"
  else if memory <? c * Z.of_nat sizeof_Order then Throw "std::bad_alloc"
  else Ret (lf_init c).

(** [spin_count()]. *)
Definition spin_count (s : LockFreeOrderQueue) : Z := spin_count_ s.

(** [i & mask_], as an index of [buffer_]. *)
Definition slot_of (s : LockFreeOrderQueue) (i : Z) : nat := Z.to_nat (Z.land i (mask_ s)).

(** ** Steps *)

Definition set_prod (s : LockFreeOrderQueue) (p : producer) (seen spins : Z) : LockFreeOrderQueue :=
  mkLF (capacity_ s) (mask_ s) (buffer_ s) (head_ s) (tail_ s) (lf_done_ s) spins p (cons_ s)
       seen (c_seen s) (done_head s).

Definition set_cons (s : LockFreeOrderQueue) (c : consumer) (seen : Z) : LockFreeOrderQueue :=
  mkLF (capacity_ s) (mask_ s) (buffer_ s) (head_ s) (tail_ s) (lf_done_ s) (spin_count_ s)
       (prod s) c (p_seen s) seen (done_head s).

(** [buffer_[head & mask_] = o], [head_.store(head + 1)], [tail_.store(tail + 1)]
    and [done_.store(true)]. *)
Definition write_slot (s : LockFreeOrderQueue) (o : Order) (head : Z) : LockFreeOrderQueue :=
  mkLF (capacity_ s) (mask_ s) (<[slot_of s head := o]> (buffer_ s)) (head_ s) (tail_ s)
       (lf_done_ s) (spin_count_ s) (PStore o head) (cons_ s) (p_seen s) (c_seen s) (done_head s).

Definition store_head (s : LockFreeOrderQueue) (head : Z) : LockFreeOrderQueue :=
  mkLF (capacity_ s) (mask_ s) (buffer_ s) (head +ᵤ 1) (tail_ s)
       (lf_done_ s) (spin_count_ s) PIdle (cons_ s) (p_seen s) (c_seen s) (done_head s).

Definition store_tail (s : LockFreeOrderQueue) (tail : Z) : LockFreeOrderQueue :=
  mkLF (capacity_ s) (mask_ s) (buffer_ s) (head_ s) (tail +ᵤ 1)
       (lf_done_ s) (spin_count_ s) (prod s) CIdle (p_seen s) (c_seen s) (done_head s).

Definition store_done (s : LockFreeOrderQueue) : LockFreeOrderQueue :=
  mkLF (capacity_ s) (mask_ s) (buffer_ s) (head_ s) (tail_ s)
       true (spin_count_ s) (prod s) (cons_ s) (p_seen s) (c_seen s)
       (if lf_done_ s then done_head s else head_ s).

(** The producer: [push] and [shutdown]. *)
Inductive lf_push_step (s : LockFreeOrderQueue) : producer -> option event -> LockFreeOrderQueue -> Prop :=
  | lf_push_begin o :
      lf_push_step s PIdle None (set_prod s (PLoad o (head_ s)) (p_seen s) (spin_count_ s))
  | lf_push_room o head tail :
      p_seen s <= tail <= tail_ s -> (head -ᵤ tail) < capacity_ s ->
      lf_push_step s (PLoad o head) None (set_prod s (PWrite o head) tail (spin_count_ s))
  | lf_push_full o head tail :
      p_seen s <= tail <= tail_ s -> ~ (head -ᵤ tail) < capacity_ s ->
      lf_push_step s (PLoad o head) None (set_prod s (PLoad o head) tail (spin_count_ s +ᵤ 1))
  | lf_push_write o head :
      lf_push_step s (PWrite o head) None
        (write_slot s o head)
  | lf_push_store o head :
      lf_push_step s (PStore o head) (Some (Pushed o))
        (store_head s head)
  | lf_shutdown :
      lf_push_step s PIdle (Some ShutDown)
        (store_done s).

(** The consumer: [pop]. *)
Inductive lf_pop_step (s : LockFreeOrderQueue) : consumer -> option event -> LockFreeOrderQueue -> Prop :=
  | lf_pop_begin :
      lf_pop_step s CIdle None (set_cons s (CLoad (tail_ s)) (c_seen s))
  | lf_pop_data tail head :
      c_seen s <= head <= head_ s -> tail < head ->
      lf_pop_step s (CLoad tail) None (set_cons s (CRead tail) head)
  | lf_pop_nodata tail head :
      c_seen s <= head <= head_ s -> ~ tail < head ->
      lf_pop_step s (CLoad tail) None (set_cons s (CDone tail) head)
  | lf_pop_notdone tail :
      lf_pop_step s (CDone tail) None (set_cons s (CLoad tail) (c_seen s))
  | lf_pop_done tail :
      lf_done_ s = true ->
      lf_pop_step s (CDone tail) None (set_cons s (CRecheck tail) (Z.max (c_seen s) (done_head s)))
  | lf_pop_recheck tail head :
      c_seen s <= head <= head_ s -> tail < head ->
      lf_pop_step s (CRecheck tail) None (set_cons s (CRead tail) head)
  | lf_pop_drained tail head :
      c_seen s <= head <= head_ s -> ~ tail < head ->
      lf_pop_step s (CRecheck tail) (Some Drained) (set_cons s CIdle head)
  | lf_pop_read tail out :
      buffer_ s !! slot_of s tail = Some out ->
      lf_pop_step s (CRead tail) None (set_cons s (CStore tail out) (c_seen s))
  | lf_pop_store tail out :
      lf_pop_step s (CStore tail out) (Some (Popped out))
        (store_tail s tail).

Inductive lf_step (s : LockFreeOrderQueue) (l : option event) (s' : LockFreeOrderQueue) : Prop :=
  | lf_producer : lf_push_step s (prod s) l s' -> lf_step s l s'
  | lf_consumer : lf_pop_step s (cons_ s) l s' -> lf_step s l s'.

(** *** The same steps as a function of a scheduler's choices

    [seen] is the value a load of the other side's index returns. *)

Inductive lf_move :=
  | StartPush (o : Order)
  | StartPop
  | Shutdown
  | LoadTail (seen : Z)
  | LoadHead (seen : Z)
  | LoadDone (seen : bool)
  | ProducerRun                 (* the write of the slot, or the store of [head_] *)
  | ConsumerRun.                (* the read of the slot, or the store of [tail_] *)

Definition lf_exec (s : LockFreeOrderQueue) (m : lf_move) : option (option event * LockFreeOrderQueue) :=
  match m, prod s, cons_ s with
  | StartPush o, PIdle, _ => Some (None, set_prod s (PLoad o (head_ s)) (p_seen s) (spin_count_ s))
  | LoadTail v, PLoad o h, _ =>
    if decide (p_seen s <= v <= tail_ s) then
      Some (None, if decide (h -ᵤ v < capacity_ s)
                  then set_prod s (PWrite o h) v (spin_count_ s)
                  else set_prod s (PLoad o h) v (spin_count_ s +ᵤ 1))
    else None
  | ProducerRun, PWrite o h, _ =>
    Some (None, write_slot s o h)
  | ProducerRun, PStore o h, _ =>
    Some (Some (Pushed o), store_head s h)
  | Shutdown, PIdle, _ =>
    Some (Some ShutDown, store_done s)
  | StartPop, _, CIdle => Some (None, set_cons s (CLoad (tail_ s)) (c_seen s))
  | LoadHead v, _, CLoad t =>
    if decide (c_seen s <= v <= head_ s) then
      Some (None, set_cons s (if decide (t < v) then CRead t else CDone t) v)
    else None
  | LoadHead v, _, CRecheck t =>
    if decide (c_seen s <= v <= head_ s) then
      if decide (t < v) then Some (None, set_cons s (CRead t) v)
      else Some (Some Drained, set_cons s CIdle v)
    else None
  | LoadDone false, _, CDone t => Some (None, set_cons s (CLoad t) (c_seen s))
  | LoadDone true, _, CDone t =>
    if lf_done_ s then Some (None, set_cons s (CRecheck t) (Z.max (c_seen s) (done_head s))) else None
  | ConsumerRun, _, CRead t =>
    out ← buffer_ s !! slot_of s t; Some (None, set_cons s (CStore t out) (c_seen s))
  | ConsumerRun, _, CStore t out =>
    Some (Some (Popped out), store_tail s t)
  | _, _, _ => None
  end.

Lemma lf_exec_sound s m l s' : lf_exec s m = Some (l, s') -> lf_step s l s'.
Proof.
  intros H. unfold lf_exec in H.
  destruct m, (prod s) eqn:Hp, (cons_ s) eqn:Hc; try done; cbn in H;
    repeat match type of H with
    | (if ?b then _ else _) = _ => destruct b eqn:?
    | Some (_, if ?b then _ else _) = _ => destruct b
    | Some (_, set_cons _ (if ?b then _ else _) _) = _ => destruct b
    | (_ ≫= _) = _ => apply bind_Some in H as (? & ? & H)
    end; simplify_eq;
    solve [apply lf_producer; rewrite Hp; by constructor
          |apply lf_consumer; rewrite Hc; by constructor].
Qed.

(** ** Rounding up to a power of two *)

Lemma shiftl_pow2 k : 0 <= k < 63 -> wrap64 (Z.shiftl (2 ^ k) 1) = 2 ^ (k + 1).
Proof.
  intros Hk. rewrite Z.shiftl_mul_pow2, <-Z.pow_add_r by lia. apply wrap64_small.
  split; [apply Z.pow_nonneg; lia|]. apply Z.pow_lt_mono_r; lia.
Qed.

Lemma round_up_pow2 fuel j min_capacity :
  (0 <= j <= 63)%Z -> min_capacity <= 2 ^ 63 -> (63 - j < Z.of_nat fuel) ->
  (j = 0 \/ 2 ^ (j - 1) < min_capacity) ->
  exists k, round_up fuel (2 ^ j) min_capacity = Ret (2 ^ k) /\ j <= k <= 63 /\
    min_capacity <= 2 ^ k /\ (k = 0 \/ 2 ^ (k - 1) < min_capacity).
Proof.
  revert j. induction fuel as [|fuel IH]; intros j Hj Hmin Hfuel Hprev; [lia|].
  cbn [round_up]. destruct (Z.ltb_spec (2 ^ j) min_capacity) as [Hlt|Hge].
  - assert (j < 63) by (destruct (Z.eq_dec j 63) as [->|]; lia).
    rewrite shiftl_pow2 by lia.
    destruct (IH (j + 1)) as (k & -> & Hk & Hrest); [lia|lia|lia| |].
    { right. by replace (j + 1 - 1) with j by lia. }
    exists k. split_and!; naive_solver lia.
  - exists j. split_and!; try done; lia.
Qed.

(** The powers of two a vector of orders can have as its size. *)
Lemma max_orders_pow2 k : 0 <= k -> (max_orders <? 2 ^ k) = (56 <? k).
Proof.
  intros Hk. assert (max_orders = 2 ^ 57 - 1) as -> by reflexivity.
  destruct (Z.ltb_spec 56 k) as [H|H].
  - apply Z.ltb_lt. assert (2 ^ 57 <= 2 ^ k) by (apply Z.pow_le_mono_r; lia). lia.
  - apply Z.ltb_ge. assert (2 ^ k <= 2 ^ 56) by (apply Z.pow_le_mono_r; lia). lia.
Qed.

Lemma round_up_zero fuel min_capacity : 0 < min_capacity -> round_up fuel 0 min_capacity = NoFuel.
Proof.
  intros Hm. induction fuel as [|fuel IH]; [done|]. cbn [round_up].
  destruct (Z.ltb_spec 0 min_capacity); [exact IH|lia].
Qed.

Lemma round_up_diverges fuel j min_capacity :
  0 <= j <= 63 -> 2 ^ 63 < min_capacity -> round_up fuel (2 ^ j) min_capacity = NoFuel.
Proof.
  revert j. induction fuel as [|fuel IH]; intros j Hj Hmin; [done|]. cbn [round_up].
  assert (2 ^ j <= 2 ^ 63) by (apply Z.pow_le_mono_r; lia).
  destruct (Z.ltb_spec (2 ^ j) min_capacity); [|lia].
  destruct (Z.eq_dec j 63) as [->|].
  { change (wrap64 (Z.shiftl (2 ^ 63) 1)) with 0. apply round_up_zero. lia. }
  rewrite shiftl_pow2 by lia. apply IH; lia.
Qed.

(** ** The ring holds the abstract queue *)

(** The ring is a power of two long; [mask_] takes an index modulo its length. *)
Definition ring_ok (s : LockFreeOrderQueue) : Prop :=
  exists k, 0 <= k <= 63 /\ capacity_ s = 2 ^ k /\ mask_ s = 2 ^ k - 1 /\
    length (buffer_ s) = Z.to_nat (2 ^ k).

Lemma slot_of_mod s i : ring_ok s -> slot_of s i = Z.to_nat (i mod capacity_ s).
Proof.
  intros (k & Hk & -> & Hm & _). unfold slot_of. rewrite Hm.
  replace (2 ^ k - 1) with (Z.ones k) by (rewrite Z.ones_equiv; lia).
  by rewrite Z.land_ones by lia.
Qed.

Lemma slot_of_lt s i : ring_ok s -> (slot_of s i < length (buffer_ s))%nat.
Proof.
  intros Hr. rewrite slot_of_mod by done. destruct Hr as (k & Hk & -> & _ & ->).
  pose proof (Z.mod_pos_bound i (2 ^ k) ltac:(apply Z.pow_pos_nonneg; lia)). lia.
Qed.

(** Two indices less than a ring apart have different slots. *)
Lemma slot_of_inj s i j : ring_ok s -> i < j < i + capacity_ s -> slot_of s i <> slot_of s j.
Proof.
  intros Hr Hij Heq. rewrite !slot_of_mod in Heq by done.
  destruct Hr as (k & Hk & Hc & _). rewrite Hc in Hij, Heq.
  assert (0 < 2 ^ k) as Hpos by (apply Z.pow_pos_nonneg; lia).
  pose proof (Z.mod_pos_bound i (2 ^ k) Hpos). pose proof (Z.mod_pos_bound j (2 ^ k) Hpos).
  apply Z2Nat.inj in Heq; [|lia..].
  pose proof (Z.div_mod i (2 ^ k) ltac:(lia)) as Hi. pose proof (Z.div_mod j (2 ^ k) ltac:(lia)) as Hj.
  rewrite Heq in Hi.
  assert (2 ^ k * (j / 2 ^ k - i / 2 ^ k) = j - i) as Hd by (rewrite Z.mul_sub_distr_l; lia).
  revert Hd Hpos Hij. generalize (j / 2 ^ k - i / 2 ^ k). generalize (2 ^ k). clear.
  intros c d Hd Hpos Hij. destruct (Z.le_gt_cases d 0); nia.
Qed.

Definition prod_ok (s : LockFreeOrderQueue) : Prop :=
  match prod s with
  | PIdle => True
  | PLoad _ h => h = head_ s
  | PWrite _ h => h = head_ s /\ head_ s - tail_ s < capacity_ s
  | PStore o h => h = head_ s /\ head_ s - tail_ s < capacity_ s /\
                  buffer_ s !! slot_of s h = Some o
  end.

Definition cons_ok (s : LockFreeOrderQueue) (q : fifo) : Prop :=
  match cons_ s with
  | CIdle => True
  | CLoad t | CDone t => t = tail_ s
  | CRecheck t => t = tail_ s /\ lf_done_ s = true /\ done_head s <= c_seen s
  | CRead t => t = tail_ s /\ tail_ s < head_ s
  | CStore t o => t = tail_ s /\ items q !! 0%nat = Some o
  end.

Record lf_sim (s : LockFreeOrderQueue) (q : fifo) : Prop := {
  sim_ring : ring_ok s;
  sim_head : head_ s = Z.of_nat (total q);
  sim_tail : head_ s = tail_ s + Z.of_nat (length (items q));
  sim_nonneg : 0 <= tail_ s;
  sim_full : head_ s - tail_ s <= capacity_ s;
  sim_slots j : (j < length (items q))%nat ->
    buffer_ s !! slot_of s (tail_ s + Z.of_nat j) = items q !! j;
  sim_closed : closed q = lf_done_ s;
  sim_late : if lf_done_ s then done_head s + Z.of_nat (late q) = head_ s else late q = 0%nat;
  sim_seen : 0 <= p_seen s <= tail_ s /\ c_seen s <= head_ s /\ done_head s <= head_ s;
  sim_prod : prod_ok s;
  sim_cons : cons_ok s q
}.

Lemma lf_init_sim k : 0 <= k <= 63 -> lf_sim (lf_init (2 ^ k)) fifo_empty.
Proof.
  intros Hk. assert (0 < 2 ^ k) by (apply Z.pow_pos_nonneg; lia).
  assert (2 ^ k < modulus64) by (apply Z.pow_lt_mono_r; lia).
  split; simpl; try done; try lia.
  - exists k. simpl. split_and!; [lia|lia|done| |apply length_replicate].
    apply sub64_small; [lia|]. unfold u64. lia.
Qed.

(** *** Steps that move only one side's program counter *)

Lemma set_prod_sim s q p seen spins :
  lf_sim s q -> 0 <= seen <= tail_ s -> prod_ok (set_prod s p seen spins) ->
  lf_sim (set_prod s p seen spins) q.
Proof. intros [] Hseen Hp. split; try done. by destruct sim_seen0 as (_ & ? & ?). Qed.

Lemma set_cons_sim s q c seen :
  lf_sim s q -> seen <= head_ s -> cons_ok (set_cons s c seen) q -> lf_sim (set_cons s c seen) q.
Proof. intros [] Hseen Hc. split; try done. by destruct sim_seen0 as (? & _ & ?). Qed.

(** Writing the slot of the head disturbs no slot in use. *)
Lemma lf_write_sim s q o :
  lf_sim s q -> prod s = PWrite o (head_ s) ->
  lf_sim (write_slot s o (head_ s)) q.
Proof.
  intros [] Hp. unfold prod_ok in sim_prod0. rewrite Hp in sim_prod0.
  destruct sim_prod0 as [_ Hroom]. split; try done.
  - destruct sim_ring0 as (k & ? & ? & ? & ?). exists k. cbn. by rewrite length_insert.
  - intros j Hj. cbn. rewrite <-sim_slots0 by done. apply list_lookup_insert_ne.
    symmetry. apply (slot_of_inj s); [done|]. lia.
  - cbn. split_and!; [done|done|]. apply list_lookup_insert_eq. by apply slot_of_lt.
Qed.

Lemma lf_push_silent s q s' :
  lf_sim s q -> Z.of_nat (total q) < modulus64 -> lf_push_step s (prod s) None s' -> lf_sim s' q.
Proof.
  intros Hsim Hr Hstep. pose proof (sim_prod _ _ Hsim) as Hp. unfold prod_ok in Hp.
  destruct (sim_seen _ _ Hsim) as (Hps & Hcs & Hdh).
  pose proof (sim_head _ _ Hsim). pose proof (sim_tail _ _ Hsim).
  inversion Hstep as [o Ep|o h t Ht Hlt Ep|o h t Ht Hge Ep|o h Ep| |]; subst; rewrite <-Ep in Hp.
  - by apply set_prod_sim.
  - apply set_prod_sim; [done|lia|]. subst h. split; [done|]. cbn.
    rewrite sub64_small in Hlt; [lia|lia|unfold u64; lia].
  - apply set_prod_sim; [done|lia|done].
  - destruct Hp as [-> _]. by apply lf_write_sim.
Qed.

Lemma lf_push_event s q e s' :
  lf_sim s q -> Z.of_nat (total q + length (pushed [e])) < modulus64 ->
  lf_push_step s (prod s) (Some e) s' ->
  exists q', fifo_step q e = Some q' /\ lf_sim s' q'.
Proof.
  intros Hsim Hr Hstep. pose proof (sim_prod _ _ Hsim) as Hp. unfold prod_ok in Hp.
  destruct Hsim. destruct sim_seen0 as (Hps & Hcs & Hdh).
  inversion Hstep as [| | | |o h Ep|Ep]; subst; rewrite <-Ep in Hp;
    eexists; (split; [reflexivity|]).
  - unfold pushed in Hr. simpl in Hr. destruct Hp as (-> & Hroom & Hslot).
    assert (head_ s +ᵤ 1 = head_ s + 1) as Hinc by (apply add64_small; lia).
    split; cbn; rewrite ?Hinc, ?length_app; simpl; try done; try lia.
    + intros j Hj. destruct (decide (j = length (items q))) as [->|Hne].
      * rewrite lookup_app_r, Nat.sub_diag by lia. simpl. rewrite <-Hslot. f_equal.
        unfold slot_of. cbn. do 2 f_equal. lia.
      * rewrite lookup_app_l by lia. rewrite <-sim_slots0 by lia. done.
    + rewrite sim_closed0. destruct (lf_done_ s); lia.
    + unfold cons_ok in *. cbn. destruct (cons_ s); try done; [naive_solver lia|].
      destruct sim_cons0 as [? Hhd]. split; [done|].
      rewrite lookup_app_l; [done|]. by apply lookup_lt_Some in Hhd.
  - split; cbn; try done; try lia.
    + destruct (lf_done_ s); [done|]. rewrite sim_late0. lia.
    + destruct (lf_done_ s); lia.
    + unfold cons_ok in *. cbn. destruct (cons_ s); try done.
      destruct sim_cons0 as (? & Hd & ?). by rewrite Hd.
Qed.

(** *** The consumer's steps *)

Lemma lf_pop_silent s q s' : lf_sim s q -> lf_pop_step s (cons_ s) None s' -> lf_sim s' q.
Proof.
  intros Hsim Hstep. pose proof (sim_cons _ _ Hsim) as Hc. unfold cons_ok in Hc.
  destruct (sim_seen _ _ Hsim) as (Hps & Hcs & Hdh). pose proof (sim_tail _ _ Hsim) as Htl.
  inversion Hstep as [Ec|t h Hh Hlt Ec|t h Hh Hge Ec|t Ec|t Hd Ec|t h Hh Hlt Ec| |t o Hb Ec|];
    subst; rewrite <-Ec in Hc; apply set_cons_sim; try done; try lia; unfold cons_ok; cbn.
  - lia.
  - split_and!; [done|done|lia].
  - lia.
  - destruct Hc as [-> Hlt]. split; [done|]. rewrite <-Hb.
    rewrite <-(sim_slots _ _ Hsim) by lia. f_equal. f_equal. lia.
Qed.

Lemma lf_pop_event s q e s' :
  lf_sim s q -> Z.of_nat (total q) < modulus64 -> lf_pop_step s (cons_ s) (Some e) s' ->
  exists q', fifo_step q e = Some q' /\ lf_sim s' q'.
Proof.
  intros Hsim Hr Hstep. pose proof (sim_cons _ _ Hsim) as Hc. unfold cons_ok in Hc.
  destruct (sim_seen _ _ Hsim) as (Hps & Hcs & Hdh). pose proof (sim_tail _ _ Hsim) as Htl.
  pose proof (sim_late _ _ Hsim) as Hlate.
  inversion Hstep as [| | | | | |t h Hh Hge Ec| |t o Ec]; subst; rewrite <-Ec in Hc.
  - destruct Hc as (-> & Hdone & Hseen). rewrite Hdone in Hlate.
    exists q. cbn. rewrite (sim_closed _ _ Hsim), Hdone. cbn.
    destruct (Nat.leb_spec (length (items q)) (late q)); [|lia].
    split; [done|]. apply set_cons_sim; [done|lia|done].
  - destruct Hc as (-> & Ho). cbn. destruct (items q) as [|x rest] eqn:Hitems; [done|].
    injection Ho as ->. rewrite bool_decide_eq_true_2 by done. eexists. split; [done|].
    destruct Hsim. simpl in Htl.
    assert (tail_ s +ᵤ 1 = tail_ s + 1) as Hinc by (apply add64_small; lia).
    split; cbn; rewrite ?Hinc; try done; try lia.
    + intros j Hj. change (rest !! j) with ((o :: rest) !! S j). rewrite <-Hitems.
      rewrite <-sim_slots0 by (rewrite Hitems; simpl; lia). f_equal.
      unfold slot_of. cbn. do 2 f_equal. lia.
    + unfold prod_ok in *. cbn. destruct (prod s); try done; rewrite ?Hinc; naive_solver lia.
Qed.

(** ** The lock-free queue implements the interface *)

Lemma lf_step_silent s q s' :
  lf_sim s q -> Z.of_nat (total q) < modulus64 -> lf_step s None s' -> lf_sim s' q.
Proof. intros Hsim Hr [Hs|Hs]; [by eapply lf_push_silent|by eapply lf_pop_silent]. Qed.

Lemma lf_step_event s q e s' :
  lf_sim s q -> Z.of_nat (total q + length (pushed [e])) < modulus64 -> lf_step s (Some e) s' ->
  exists q', fifo_step q e = Some q' /\ lf_sim s' q'.
Proof.
  intros Hsim Hr [Hs|Hs]; [by eapply lf_push_event|]. eapply lf_pop_event; [done|lia|done].
Qed.

Lemma lf_range_down n m :
  (n <= m)%nat -> Z.of_nat m < modulus64 -> Z.of_nat n < modulus64.
Proof. lia. Qed.

(** A ring of [2 ^ k] slots. *)
#[global] Instance lock_free_order_queue (k : Z) (Hk : 0 <= k <= 63) : OrderQueue LockFreeOrderQueue := {|
  q_init := lf_init (2 ^ k);
  q_step := lf_step;
  q_sim := lf_sim;
  q_range := fun n => Z.of_nat n < modulus64;
  q_range_down := lf_range_down;
  q_init_sim := lf_init_sim k Hk;
  q_silent := lf_step_silent;
  q_event := lf_step_event
|}.

(** ** Properties *)

(** C37: the constructor.  For a requested capacity of at most [2^63] its loop ends at
    the least power of two of slots that is at least that capacity.  Up to [2^56]
    slots the vector is allocated, if the memory is there, and the ring has them, all
    empty; otherwise the constructor throws: [bad_alloc] without the memory, and
    [length_error] from [2^57] slots on, more than a vector of orders may have.  For a
    capacity above [2^63] the shift overflows to zero and the loop never ends,
    whatever the number of iterations. *)
Theorem ring_capacity (memory min_capacity : Z) :
  u64 min_capacity ->
  (min_capacity <= 2 ^ 63 ->
   exists k, 0 <= k <= 63 /\ min_capacity <= 2 ^ k /\ (forall j, 0 <= j < k -> 2 ^ j < min_capacity) /\
     new_LockFreeOrderQueue memory min_capacity =
       if 56 <? k then Throw "vector::_M_default_append"
       else if memory <? 2 ^ k * 64 then Throw "std::bad_alloc"
       else Ret (lf_init (2 ^ k))) /\
  (2 ^ 63 < min_capacity -> forall fuel, round_up fuel 1 min_capacity = NoFuel).
Proof.
  intros Hu. split.
  - intros Hle. destruct (round_up_pow2 65 0 min_capacity) as (k & Hk & Hrange & Hmin & Hleast);
      [lia|done|lia|by left|].
    exists k. split_and!; [lia|lia|done| |].
    + intros j Hj. destruct Hleast as [->|Hlt]; [lia|].
      eapply Z.le_lt_trans; [|exact Hlt]. apply Z.pow_le_mono_r; lia.
    + unfold new_LockFreeOrderQueue. change 1 with (2 ^ 0). rewrite Hk. cbn [mbind outcome_bind].
      by rewrite max_orders_pow2 by lia.
  - intros Hlt fuel. apply (round_up_diverges fuel 0); [lia|done].
Qed.

(** The default capacity, on a machine with a gigabyte to give. *)
Lemma ring_capacity_witness :
  exists k, 0 <= k <= 63 /\ 2 ^ 20 <= 2 ^ k /\ (forall j, 0 <= j < k -> 2 ^ j < 2 ^ 20) /\
    new_LockFreeOrderQueue (2 ^ 30) (2 ^ 20) =
      if 56 <? k then Throw "vector::_M_default_append"
      else if 2 ^ 30 <? 2 ^ k * 64 then Throw "std::bad_alloc"
      else Ret (lf_init (2 ^ k)).
Proof. apply (ring_capacity (2 ^ 30) (2 ^ 20)); [split; done|done]. Defined.

(** C27: in every state of the ring reached with fewer than [2^64] pushes, under
    any interleaving and any staleness of the two sides' views: both indices
    stay inside the buffer; the slot the producer is about to write is never
    one the consumer is about to read (there is no data race on the buffer);
    and the ring holds at most [capacity_] orders. *)
Theorem ring_race_free (k : Z) (tr : list event) (s : LockFreeOrderQueue) (o : Order) (h t : Z) :
  0 <= k <= 63 -> trace lf_step (lf_init (2 ^ k)) tr s ->
  Z.of_nat (length (pushed tr)) < modulus64 ->
  (slot_of s (head_ s) < length (buffer_ s))%nat /\ (slot_of s (tail_ s) < length (buffer_ s))%nat /\
  0 <= head_ s - tail_ s <= capacity_ s /\
  (prod s = PWrite o h -> cons_ s = CRead t -> slot_of s h <> slot_of s t).
Proof.
  intros Hk Htr Hr.
  destruct (trace_simulates (H := lock_free_order_queue k Hk) tr s Htr Hr) as (q & _ & Hsim).
  change (lf_sim s q) in Hsim. pose proof (sim_ring _ _ Hsim) as Hring.
  pose proof (sim_tail _ _ Hsim). pose proof (sim_full _ _ Hsim).
  split_and!; [by apply slot_of_lt|by apply slot_of_lt|lia|lia|].
  intros Hp Hc. pose proof (sim_prod _ _ Hsim) as Hpo. pose proof (sim_cons _ _ Hsim) as Hco.
  unfold prod_ok, cons_ok in Hpo, Hco. rewrite Hp in Hpo. rewrite Hc in Hco.
  destruct Hpo as [-> ?], Hco as [-> ?]. intros Heq. symmetry in Heq. revert Heq.
  apply slot_of_inj; [done|lia].
Qed.

(** A push and a pop, as scripts of the accesses they make. *)
Definition push_script (o : Order) (tail : Z) : list lf_move :=
  [StartPush o; LoadTail tail; ProducerRun; ProducerRun].

Definition pop_script (head : Z) : list lf_move :=
  [StartPop; LoadHead head; ConsumerRun; ConsumerRun].

Lemma lf_script_trace c ms tr s :
  run_script lf_exec (lf_init c) ms = Some (tr, s) -> trace lf_step (lf_init c) tr s.
Proof. apply (run_script_trace _ _ _ []); [apply lf_exec_sound|constructor]. Qed.

Definition lf_after (c : Z) (ms : list lf_move) : LockFreeOrderQueue :=
  match run_script lf_exec (lf_init c) ms with Some (_, s) => s | None => lf_init c end.

(** One order in a ring of two slots, about to be read, and a second one about
    to be written. *)
Definition busy_ring : list lf_move :=
  push_script default_order 0 ++
  [StartPop; LoadHead 1; StartPush default_order; LoadTail 0].

Lemma ring_race_free_witness :
  slot_of (lf_after 2 busy_ring) 1 <> slot_of (lf_after 2 busy_ring) 0.
Proof.
  refine (proj2 (proj2 (proj2 (ring_race_free 1 [Pushed default_order] (lf_after 2 busy_ring)
    default_order 1 0 _ _ _))) _ _).
  - split; discriminate.
  - apply (lf_script_trace 2 busy_ring). vm_compute. reflexivity.
  - vm_compute. reflexivity.
  - vm_compute. reflexivity.
  - vm_compute. reflexivity.
Defined.

(** C15: with fewer than [2^64] pushes, and none after the shutdown, a [pop] of
    the lock-free queue that returns false has seen every order: the orders
    popped before it are exactly the orders pushed, in order, under every
    interleaving and every staleness of the views (the second look at [head_]
    after [done_] is what makes this so). *)
Theorem lock_free_drains (k : Z) (tr : list event) (s : LockFreeOrderQueue) :
  0 <= k <= 63 -> trace lf_step (lf_init (2 ^ k)) (tr ++ [Drained]) s ->
  Z.of_nat (length (pushed tr)) < modulus64 -> quiet tr ->
  ShutDown ∈ tr /\ popped tr = pushed tr.
Proof.
  intros Hk Htr Hr Hq. by apply (drained_complete (H := lock_free_order_queue k Hk) tr s).
Qed.

(** The consumer misses the order at first, and finds it on the second look. *)
Definition recheck_script : list lf_move :=
  [StartPop; LoadHead 0] ++ push_script default_order 0 ++
  [Shutdown; LoadDone true; LoadHead 1; ConsumerRun; ConsumerRun;
   StartPop; LoadHead 1; LoadDone true; LoadHead 1].

Lemma lock_free_drains_witness :
  ShutDown ∈ [Pushed default_order; ShutDown; Popped default_order] /\
  popped [Pushed default_order; ShutDown; Popped default_order] =
  pushed [Pushed default_order; ShutDown; Popped default_order].
Proof.
  apply (lock_free_drains 1 _ (lf_after 2 recheck_script)).
  - split; discriminate.
  - apply (lf_script_trace 2 recheck_script). vm_compute. reflexivity.
  - vm_compute. reflexivity.
  - reflexivity.
Defined.
