(* ===== verification/RingProgress.v ===== *)
(** * Progress of the lock-free queue ([include/lockfree_order_queue.hpp])

    The queue has no lock: a side that is scheduled alone, each load returning the
    current value, finishes its call in a bounded number of its own accesses, wherever
    the other side was stopped, unless the call has to wait by its meaning: a [pop] on
    an empty open queue, a [push] into a full ring. *)

From S2P Require Import Prelude Double Order OrderQueue LockFreeQueue.

(** The next access of the consumer, and of the producer, when loads are current. *)
Definition pop_move (s : LockFreeOrderQueue) : lf_move :=
  match cons_ s with
  | CIdle => StartPop
  | CLoad _ | CRecheck _ => LoadHead (head_ s)
  | CDone _ => LoadDone (lf_done_ s)
  | CRead _ | CStore _ _ => ConsumerRun
  end.

Definition push_move (o : Order) (s : LockFreeOrderQueue) : lf_move :=
  match prod s with
  | PIdle => StartPush o
  | PLoad _ _ => LoadTail (tail_ s)
  | PWrite _ _ | PStore _ _ => ProducerRun
  end.

(** One side alone, until its call takes effect; at most [n] accesses. *)
Fixpoint alone (move : LockFreeOrderQueue -> lf_move) (n : nat) (s : LockFreeOrderQueue)
    : option (event * LockFreeOrderQueue) :=
  match n with
  | O => None
  | S n' =>
    '(l, s') ← lf_exec s (move s);
    match l with Some e => Some (e, s') | None => alone move n' s' end
  end.

Definition pop_alone : nat -> LockFreeOrderQueue -> option (event * LockFreeOrderQueue) := alone pop_move.
Definition push_alone (o : Order) : nat -> LockFreeOrderQueue -> option (event * LockFreeOrderQueue) :=
  alone (push_move o).

(** ** What each side does *)

Lemma pop_exec s :
  c_seen s <= head_ s ->
  lf_exec s (pop_move s) =
    match cons_ s with
    | CIdle => Some (None, set_cons s (CLoad (tail_ s)) (c_seen s))
    | CLoad t => Some (None, set_cons s (if decide (t < head_ s) then CRead t else CDone t) (head_ s))
    | CDone t =>
      Some (None, if lf_done_ s then set_cons s (CRecheck t) (Z.max (c_seen s) (done_head s))
                  else set_cons s (CLoad t) (c_seen s))
    | CRecheck t =>
      if decide (t < head_ s) then Some (None, set_cons s (CRead t) (head_ s))
      else Some (Some Drained, set_cons s CIdle (head_ s))
    | CRead t => out ← buffer_ s !! slot_of s t; Some (None, set_cons s (CStore t out) (c_seen s))
    | CStore t out => Some (Some (Popped out), store_tail s t)
    end.
Proof.
  intros Hs. unfold pop_move, lf_exec.
  destruct (cons_ s), (prod s); rewrite ?(decide_True _ _ (conj Hs (Z.le_refl (head_ s)))); try done;
    by destruct (lf_done_ s).
Qed.

Lemma push_exec o s :
  p_seen s <= tail_ s ->
  lf_exec s (push_move o s) =
    match prod s with
    | PIdle => Some (None, set_prod s (PLoad o (head_ s)) (p_seen s) (spin_count_ s))
    | PLoad o' h =>
      Some (None, if decide (h -ᵤ tail_ s < capacity_ s) then set_prod s (PWrite o' h) (tail_ s) (spin_count_ s)
                  else set_prod s (PLoad o' h) (tail_ s) (spin_count_ s +ᵤ 1))
    | PWrite o' h => Some (None, write_slot s o' h)
    | PStore o' h => Some (Some (Pushed o'), store_head s h)
    end.
Proof.
  intros Hs. unfold push_move, lf_exec.
  destruct (prod s); by rewrite ?(decide_True _ _ (conj Hs (Z.le_refl (tail_ s)))).
Qed.

(** The order the producer is pushing, or would push. *)
Definition pushing (o : Order) (s : LockFreeOrderQueue) : Order :=
  match prod s with PIdle => o | PLoad o' _ | PWrite o' _ | PStore o' _ => o' end.

Lemma alone_step move n s s' :
  lf_exec s (move s) = Some (None, s') -> alone move (S n) s = alone move n s'.
Proof. intros H. cbn [alone]. by rewrite H. Qed.

Lemma alone_more move n m s r : alone move n s = Some r -> (n <= m)%nat -> alone move m s = Some r.
Proof.
  revert m s. induction n as [|n IH]; intros m s Hr Hle; [done|]. destruct m as [|m]; [lia|].
  cbn [alone] in *. apply bind_Some in Hr as ([l s'] & Hx & Hr). rewrite Hx. cbn.
  destruct l; [done|]. apply IH; [done|lia].
Qed.

(** ** The consumer with an order in the ring *)

Record ready (s : LockFreeOrderQueue) (o : Order) : Prop := {
  rd_data : tail_ s < head_ s;
  rd_seen : c_seen s <= head_ s;
  rd_done : done_head s <= head_ s;
  rd_slot : buffer_ s !! slot_of s (tail_ s) = Some o
}.

Lemma ready_set s o c v : ready s o -> v <= head_ s -> ready (set_cons s c v) o.
Proof. by intros [] Hv. Qed.

(** [pop], from wherever it is, takes effect as [e] within [n] accesses and is over. *)
Definition completes (n : nat) (s : LockFreeOrderQueue) (e : event) : Prop :=
  exists s', pop_alone n s = Some (e, s') /\ cons_ s' = CIdle.

Lemma completes_more n m s e : completes n s e -> (n <= m)%nat -> completes m s e.
Proof. intros (s' & H & Hc) Hle. exists s'. split; [by eapply alone_more|done]. Qed.

Lemma completes_step n s s' e :
  lf_exec s (pop_move s) = Some (None, s') -> completes n s' e -> completes (S n) s e.
Proof. intros Hx (s2 & H & Hc). exists s2. split; [|done]. unfold pop_alone. by rewrite (alone_step _ _ _ _ Hx). Qed.

Lemma pops_store s o : ready s o -> cons_ s = CStore (tail_ s) o -> completes 1 s (Popped o).
Proof. intros [] Hc. eexists. unfold pop_alone. cbn [alone]. rewrite pop_exec, Hc by done. by split. Qed.

Lemma pops_read s o : ready s o -> cons_ s = CRead (tail_ s) -> completes 2 s (Popped o).
Proof.
  intros Hr Hc. pose proof Hr as [_ Hs _ Hslot].
  eapply completes_step; [rewrite pop_exec, Hc by done; cbn; by rewrite Hslot|].
  by apply pops_store; [apply ready_set|].
Qed.

Lemma pops_load s o : ready s o -> cons_ s = CLoad (tail_ s) -> completes 3 s (Popped o).
Proof.
  intros Hr Hc. pose proof Hr as [Hd Hs _ _].
  eapply completes_step; [by rewrite pop_exec, Hc, decide_True by done|].
  by apply pops_read; [apply ready_set|].
Qed.

Lemma pops_recheck s o : ready s o -> cons_ s = CRecheck (tail_ s) -> completes 3 s (Popped o).
Proof.
  intros Hr Hc. pose proof Hr as [Hd Hs _ _].
  eapply completes_step; [by rewrite pop_exec, Hc, decide_True by done|].
  by apply pops_read; [apply ready_set|].
Qed.

Lemma pop_alone_data s q o : lf_sim s q -> items q !! 0%nat = Some o -> completes 4 s (Popped o).
Proof.
  intros Hsim Ho. pose proof (lookup_lt_Some _ _ _ Ho) as Hlen.
  pose proof (sim_slots _ _ Hsim 0 Hlen) as Hslot. rewrite Ho, Z.add_0_r in Hslot.
  pose proof (sim_tail _ _ Hsim). destruct (sim_seen _ _ Hsim) as (_ & Hcs & Hdh).
  assert (ready s o) as Hr by (split; (done || lia)).
  pose proof (sim_cons _ _ Hsim) as Hc. unfold cons_ok in Hc. destruct (cons_ s) as [|t|t|t|t|t out] eqn:Ec.
  - eapply completes_step; [by rewrite pop_exec, Ec by done|]. by apply pops_load; [apply ready_set|].
  - subst t. eapply completes_more; [by apply pops_load|lia].
  - subst t. eapply completes_step; [by rewrite pop_exec, Ec by done|].
    destruct (lf_done_ s); [apply pops_recheck|apply pops_load]; try done; apply ready_set; (done || lia).
  - destruct Hc as [-> _]. eapply completes_more; [by apply pops_recheck|lia].
  - destruct Hc as [-> _]. eapply completes_more; [by apply pops_read|lia].
  - destruct Hc as [-> Hout]. rewrite Ho in Hout. injection Hout as <-.
    eapply completes_more; [by apply pops_store|lia].
Qed.

(** ** The consumer on an empty ring *)

(** Nothing to read: the program counter is one of the loads. *)
Record idle_ring (s : LockFreeOrderQueue) : Prop := {
  ir_empty : tail_ s = head_ s;
  ir_seen : c_seen s <= head_ s;
  ir_done : done_head s <= head_ s;
  ir_pc : match cons_ s with CIdle => True | CLoad t | CDone t | CRecheck t => t = head_ s | _ => False end
}.

Lemma sim_idle s q : lf_sim s q -> items q = [] -> idle_ring s.
Proof.
  intros Hsim Hi. pose proof (sim_tail _ _ Hsim) as Ht. destruct (sim_seen _ _ Hsim) as (_ & Hcs & Hdh).
  pose proof (sim_cons _ _ Hsim) as Hc. unfold cons_ok in Hc. rewrite Hi in Ht. cbn in Ht.
  split; [lia|done|done|]. destruct (cons_ s); try done; try lia; destruct Hc as [Et Hc]; try lia.
  by rewrite Hi in Hc.
Qed.

Lemma drains_recheck s : idle_ring s -> cons_ s = CRecheck (head_ s) -> completes 1 s Drained.
Proof.
  intros [] Hc. eexists. unfold pop_alone. cbn [alone]. rewrite pop_exec, Hc, decide_False by (done || lia). by split.
Qed.

Lemma idle_set s c v :
  idle_ring s -> v <= head_ s ->
  match c with CIdle => True | CLoad t | CDone t | CRecheck t => t = head_ s | _ => False end ->
  idle_ring (set_cons s c v).
Proof. by intros [] Hv Hc. Qed.

Lemma drains_done s : idle_ring s -> lf_done_ s = true -> cons_ s = CDone (head_ s) -> completes 2 s Drained.
Proof.
  intros Hi Hd Hc. pose proof Hi as [_ Hs Hdh _].
  eapply completes_step; [by rewrite pop_exec, Hc, Hd by done|].
  by apply drains_recheck; [apply idle_set; [|lia|]|].
Qed.

Lemma drains_load s : idle_ring s -> lf_done_ s = true -> cons_ s = CLoad (head_ s) -> completes 3 s Drained.
Proof.
  intros Hi Hd Hc. pose proof Hi as [_ Hs Hdh _].
  eapply completes_step; [by rewrite pop_exec, Hc, decide_False by (done || lia)|].
  by apply drains_done; [apply idle_set|..].
Qed.

Lemma pop_alone_drained s : idle_ring s -> lf_done_ s = true -> completes 4 s Drained.
Proof.
  intros Hi Hd. pose proof Hi as [He Hs Hdh Hpc]. destruct (cons_ s) as [|t|t|t|t|t out] eqn:Ec; try done; subst.
  - eapply completes_step; [by rewrite pop_exec, Ec by done|]. rewrite He. by apply drains_load; [apply idle_set|..].
  - eapply completes_more; [by apply drains_load|lia].
  - eapply completes_more; [by apply drains_done|lia].
  - eapply completes_more; [by apply drains_recheck|lia].
Qed.

(** While the queue is open and empty, [pop] polls for ever. *)
Lemma pop_alone_waits n s :
  idle_ring s -> lf_done_ s = false -> (forall t, cons_ s <> CRecheck t) -> pop_alone n s = None.
Proof.
  unfold pop_alone. revert s. induction n as [|n IH]; intros s Hi Hd Hnr; [done|].
  pose proof Hi as [He Hs Hdh Hpc]. destruct (cons_ s) as [|t|t|t|t|t out] eqn:Ec; try done; subst.
  - erewrite alone_step by (by rewrite pop_exec, Ec by done). by apply IH; [apply idle_set| |].
  - erewrite alone_step by (by rewrite pop_exec, Ec, decide_False by (done || lia)). by apply IH; [apply idle_set| |].
  - erewrite alone_step by (by rewrite pop_exec, Ec, Hd by done). by apply IH; [apply idle_set| |].
  - by destruct (Hnr (head_ s)).
Qed.


(** ** The producer *)

(** [push(o)], from wherever it is, takes effect within [n] accesses and is over. *)
Definition push_completes (o : Order) (n : nat) (s : LockFreeOrderQueue) : Prop :=
  exists s', push_alone o n s = Some (Pushed (pushing o s), s') /\ prod s' = PIdle.

Lemma push_completes_more o n m s : push_completes o n s -> (n <= m)%nat -> push_completes o m s.
Proof. intros (s' & H & Hp) Hle. exists s'. split; [by eapply alone_more|done]. Qed.

Lemma push_completes_step o n s s' :
  lf_exec s (push_move o s) = Some (None, s') -> pushing o s' = pushing o s ->
  push_completes o n s' -> push_completes o (S n) s.
Proof.
  intros Hx Ho (s2 & H & Hp). exists s2. split; [|done]. unfold push_alone. rewrite (alone_step _ _ _ _ Hx), <-Ho. done.
Qed.

Lemma push_store o s o' h : p_seen s <= tail_ s -> prod s = PStore o' h -> push_completes o 1 s.
Proof.
  intros Hs Hp. eexists. unfold push_alone, pushing. cbn [alone]. rewrite push_exec, Hp by done. by split.
Qed.

Lemma push_write o s o' h : p_seen s <= tail_ s -> prod s = PWrite o' h -> push_completes o 2 s.
Proof.
  intros Hs Hp. eapply push_completes_step; [by rewrite push_exec, Hp by done|by unfold pushing; rewrite Hp|].
  by eapply push_store.
Qed.

Lemma push_load o s o' :
  p_seen s <= tail_ s -> prod s = PLoad o' (head_ s) -> head_ s -ᵤ tail_ s < capacity_ s -> push_completes o 3 s.
Proof.
  intros Hs Hp Hroom. eapply push_completes_step; [by rewrite push_exec, Hp, decide_True by done|by unfold pushing; rewrite Hp|].
  by eapply push_write.
Qed.

Lemma push_alone_room o s q :
  lf_sim s q -> Z.of_nat (total q) < modulus64 -> head_ s - tail_ s < capacity_ s -> push_completes o 4 s.
Proof.
  intros Hsim Hr Hroom. destruct (sim_seen _ _ Hsim) as ((_ & Hs) & _). pose proof (sim_head _ _ Hsim).
  pose proof (sim_tail _ _ Hsim). pose proof (sim_nonneg _ _ Hsim).
  assert (head_ s -ᵤ tail_ s < capacity_ s) as Hlt by (rewrite sub64_small by (unfold u64; lia); lia).
  pose proof (sim_prod _ _ Hsim) as Hp. unfold prod_ok in Hp. destruct (prod s) as [|o' h|o' h|o' h] eqn:Ep.
  - eapply push_completes_step; [by rewrite push_exec, Ep by done|by unfold pushing; rewrite Ep|]. by eapply push_load.
  - subst h. eapply push_completes_more; [by eapply push_load|lia].
  - eapply push_completes_more; [by eapply push_write|lia].
  - eapply push_completes_more; [by eapply push_store|lia].
Qed.

(** While the ring is full, [push] spins. *)
Lemma push_alone_waits o n s :
  p_seen s <= tail_ s -> ~ head_ s -ᵤ tail_ s < capacity_ s ->
  prod s = PIdle \/ (exists o', prod s = PLoad o' (head_ s)) -> push_alone o n s = None.
Proof.
  unfold push_alone. revert s. induction n as [|n IH]; intros s Hs Hfull Hp; [done|]. destruct Hp as [Hp|[o' Hp]].
  - erewrite alone_step by (by rewrite push_exec, Hp by done). apply IH; [done|done|]. right. by eexists.
  - erewrite alone_step by (by rewrite push_exec, Hp, decide_False by done). apply IH; [cbn; lia|done|]. right. by eexists.
Qed.

(** The consumer's half, in every state the ring can reach. *)
Lemma pop_progress (k : Z) (tr : list event) (s : LockFreeOrderQueue) :
  0 <= k <= 63 -> trace lf_step (lf_init (2 ^ k)) tr s -> Z.of_nat (length (pushed tr)) < modulus64 ->
  match pushed tr !! length (popped tr) with
  | Some x => completes 4 s (Popped x)
  | None => if lf_done_ s then completes 4 s Drained else forall n, pop_alone n s = None
  end.
Proof.
  intros Hk Htr Hr.
  destruct (trace_simulates (H := lock_free_order_queue k Hk) tr s Htr Hr) as (q & Hrun & Hsim).
  change (lf_sim s q) in Hsim. destruct (fifo_run_items _ _ Hrun) as [Hi _].
  rewrite Hi, lookup_app_r, Nat.sub_diag by done. destruct (items q !! 0%nat) as [x|] eqn:Hx.
  - by eapply pop_alone_data.
  - assert (items q = []) as Hnil by (by destruct (items q)). pose proof (sim_idle _ _ Hsim Hnil) as Hidle.
    destruct (lf_done_ s) eqn:Hd; [by apply pop_alone_drained|]. intros n. apply pop_alone_waits; [done|done|].
    intros t Ec. pose proof (sim_cons _ _ Hsim) as Hc. unfold cons_ok in Hc. rewrite Ec in Hc.
    destruct Hc as (_ & Hc & _). congruence.
Qed.

(** ** Properties *)

(** C16: the lock-free queue makes progress without the other side.  In every state
    reached with fewer than [2^64] pushes, under any interleaving and any staleness
    until then: [pop], wherever it is, takes effect within four of its own accesses
    when an order is in the ring, returning the oldest one, or when the ring is empty
    and shut down, returning false; on an empty open queue it never returns on its
    own.  [push], wherever it is, takes effect within four accesses when the ring has
    room, and never on its own when it is full. *)
Theorem ring_progress (k : Z) (tr : list event) (s : LockFreeOrderQueue) (o : Order) :
  0 <= k <= 63 -> trace lf_step (lf_init (2 ^ k)) tr s -> Z.of_nat (length (pushed tr)) < modulus64 ->
  match pushed tr !! length (popped tr) with
  | Some x => completes 4 s (Popped x)
  | None => if lf_done_ s then completes 4 s Drained else forall n, pop_alone n s = None
  end /\
  if decide (head_ s - tail_ s < capacity_ s) then push_completes o 4 s else forall n, push_alone o n s = None.
Proof.
  intros Hk Htr Hr. split; [by apply (pop_progress k)|].
  destruct (trace_simulates (H := lock_free_order_queue k Hk) tr s Htr Hr) as (q & Hrun & Hsim).
  change (lf_sim s q) in Hsim. destruct (fifo_run_items _ _ Hrun) as [_ Ht].
  case_decide as Hroom; [eapply push_alone_room; [done|by rewrite Ht|done]|]. intros n.
  destruct (sim_seen _ _ Hsim) as ((_ & Hs) & _). pose proof (sim_head _ _ Hsim). pose proof (sim_tail _ _ Hsim).
  pose proof (sim_nonneg _ _ Hsim). pose proof (sim_prod _ _ Hsim) as Hp. unfold prod_ok in Hp.
  apply push_alone_waits; [done|rewrite sub64_small by (unfold u64; lia); lia|].
  destruct (prod s) as [|o' h|o' h|o' h]; [by left|subst h; right; by eexists|lia|lia].
Qed.

(** A pop stopped before its slot is read, with the producer stopped in a push. *)
Lemma ring_progress_witness :
  completes 4 (lf_after 2 busy_ring) (Popped default_order) /\ push_completes default_order 4 (lf_after 2 busy_ring).
Proof.
  apply (ring_progress 1 [Pushed default_order] (lf_after 2 busy_ring) default_order).
  - split; discriminate.
  - apply (lf_script_trace 2 busy_ring). vm_compute. reflexivity.
  - vm_compute. reflexivity.
Defined.
