(* ===== verification/FeedHandler.v ===== *)
(** * The TCP feed handler ([include/tcp_feed_handler.hpp], [src/tcp_feed_handler.cpp])

    The event loop that turns the byte streams of the clients into [push] calls
    on the order queue.  The operating system is a script: what [epoll_wait]
    reports, and what each [accept] and [recv] of the loops returns, are
    arguments.  A script that ends before the loop reading it has returned
    leaves the loop waiting, [NoFuel].  The [push] calls are recorded in order,
    each with the connection it came from. *)

From S2P Require Import Prelude Double Rounding Order Sharding Bytes.

(** ** The wire format *)

Record WireOrder := mkWireOrder {
  w_order_id : Z;
  w_client_id : Z;
  w_side : Z;
  w_type : Z;
  w_symbol : list char;
  w_price : double;
  w_quantity : Z
}.

(** [static_assert(sizeof(WireOrder) == 48)]. *)
Definition sizeof_WireOrder : nat := 48.

(** [std::memcpy(&w, buf.data(), MSG_SIZE)]: the object made of these bytes. *)
Definition read_wire (bs : list char) : WireOrder :=
  mkWireOrder (le_decode (slice 0 8 bs)) (le_decode (slice 8 8 bs))
    (byte_at 16 bs) (byte_at 17 bs) (slice 18 8 bs)
    (double_of_bits (le_decode (slice 32 8 bs))) (le_decode (slice 40 8 bs)).

Definition wire_to_order (w : WireOrder) : Order :=
  mkOrder (w_order_id w) (w_client_id w)
    (if w_side w =? 0 then BUY else SELL) (if w_type w =? 0 then LIMIT else MARKET)
    (w_symbol w) (w_price w) (w_quantity w) (w_quantity w) (timestamp default_order).

(** ** State *)

Record TCPFeedHandler := mkHandler {
  running_ : bool;
  listen_fd_ : Z;
  stop_read_fd_ : Z;
  connections_ : gmap Z (list char);   (* the [buf] of each connection *)
  pushes : list (Z * Order)            (* the calls of [queue_.push] so far *)
}.

Definition with_conns (h : TCPFeedHandler) (c : gmap Z (list char)) : TCPFeedHandler :=
  mkHandler (running_ h) (listen_fd_ h) (stop_read_fd_ h) c (pushes h).

(** ** Operations *)

(** [close_connection]: the descriptor and its buffer are gone. *)
Definition close_connection (h : TCPFeedHandler) (fd : Z) : TCPFeedHandler :=
  with_conns h (delete fd (connections_ h)).

(** The [while (buf.size() >= MSG_SIZE)] loop. *)
Fixpoint process_loop (fuel : nat) (fd : Z) (buf : list char) (ps : list (Z * Order))
    : outcome (list char * list (Z * Order)) :=
  match fuel with
  | O => NoFuel
  | S fuel' =>
    if (sizeof_WireOrder <=? length buf)%nat then
      let w := read_wire (take sizeof_WireOrder buf) in
      process_loop fuel' fd (drop sizeof_WireOrder buf) (ps ++ [(fd, wire_to_order w)])
    else Ret (buf, ps)
  end.

Definition process_buffer (h : TCPFeedHandler) (fd : Z) : outcome TCPFeedHandler :=
  match connections_ h !! fd with
  | None => Ret h
  | Some buf =>
    '(buf', ps') ← process_loop (S (length buf)) fd buf (pushes h);
    Ret (mkHandler (running_ h) (listen_fd_ h) (stop_read_fd_ h)
                   (<[fd := buf']> (connections_ h)) ps')
  end.

(** What a [recv] of at most 4096 bytes may return. *)
Inductive recv_result :=
  | Data (bs : list char)      (* [nread > 0] *)
  | Eof                        (* [nread == 0] *)
  | WouldBlock                 (* [EAGAIN] or [EWOULDBLOCK] *)
  | RecvError.                 (* any other [errno] *)

(** [handle_client_data]: the [recv] loop, then [process_buffer]. *)
Fixpoint recv_loop (h : TCPFeedHandler) (fd : Z) (buf : list char) (rs : list recv_result)
    : outcome TCPFeedHandler :=
  match rs with
  | [] => NoFuel
  | Data bs :: rs' => recv_loop h fd (buf ++ bs) rs'
  | WouldBlock :: _ => process_buffer (with_conns h (<[fd := buf]> (connections_ h))) fd
  | Eof :: _ | RecvError :: _ => Ret (close_connection h fd)
  end.

Definition handle_client_data (h : TCPFeedHandler) (fd : Z) (rs : list recv_result)
    : outcome TCPFeedHandler :=
  match connections_ h !! fd with
  | None => Ret h
  | Some buf => recv_loop h fd buf rs
  end.

(** What an [accept] may return; a client whose socket cannot be made
    non-blocking or watched makes the helpers throw. *)
Inductive accept_result :=
  | Accepted (fd : Z)
  | AcceptedUnusable (fd : Z)
  | NoPending                  (* [EAGAIN] or [EWOULDBLOCK] *)
  | AcceptError.               (* any other [errno] *)

Fixpoint accept_connections (h : TCPFeedHandler) (rs : list accept_result) : outcome TCPFeedHandler :=
  match rs with
  | [] => NoFuel
  | Accepted fd :: rs' => accept_connections (with_conns h (<[fd := []]> (connections_ h))) rs'
  | AcceptedUnusable _ :: _ => Throw "set_nonblocking or epoll_add"
  | NoPending :: _ => Ret h
  | AcceptError :: rs' => accept_connections h rs'
  end.

(** One element of the [events] array, with the results of the calls its
    handling makes. *)
Record epoll_event := mkEvent {
  ev_fd : Z;
  ev_hup_or_err : bool;        (* [EPOLLHUP | EPOLLERR] *)
  ev_in : bool;                (* [EPOLLIN] *)
  ev_recv : list recv_result;
  ev_accept : list accept_result
}.

(** The body of the [for] loop, for a descriptor that is not the stop pipe. *)
Definition dispatch (h : TCPFeedHandler) (ev : epoll_event) : outcome TCPFeedHandler :=
  if ev_fd ev =? listen_fd_ h then accept_connections h (ev_accept ev)
  else if ev_hup_or_err ev then Ret (close_connection h (ev_fd ev))
  else if ev_in ev then handle_client_data h (ev_fd ev) (ev_recv ev)
  else Ret h.

Definition stop_running (h : TCPFeedHandler) : TCPFeedHandler :=
  mkHandler false (listen_fd_ h) (stop_read_fd_ h) (connections_ h) (pushes h).

(** [for (int i = 0; i < n; ++i)], with the [break] of the stop signal. *)
Fixpoint handle_events (h : TCPFeedHandler) (evs : list epoll_event) : outcome TCPFeedHandler :=
  match evs with
  | [] => Ret h
  | ev :: evs' =>
    if ev_fd ev =? stop_read_fd_ h then Ret (stop_running h)
    else h' ← dispatch h ev; handle_events h' evs'
  end.

(** [stop()], from another thread or a signal handler: the write to the pipe
    makes the read end ready in some later [epoll_wait]. *)
Definition stop (h : TCPFeedHandler) : TCPFeedHandler :=
  if running_ h then stop_running h else h.

(** What [epoll_wait] may return; [stopped] says that [stop()] was called between
    the last test of [running_] and the next. *)
Inductive wait_result :=
  | Ready (evs : list epoll_event) (stopped : bool)
  | Interrupted (stopped : bool)   (* [EINTR] *)
  | WaitError.

Definition stop_if (stopped : bool) (h : TCPFeedHandler) : TCPFeedHandler :=
  if stopped then stop h else h.

(** [while (running_)] of [run]. *)
Fixpoint run_loop (h : TCPFeedHandler) (ws : list wait_result) : outcome TCPFeedHandler :=
  if negb (running_ h) then Ret h
  else match ws with
  | [] => NoFuel
  | Ready evs stopped :: ws' => h' ← handle_events h evs; run_loop (stop_if stopped h') ws'
  | Interrupted stopped :: ws' => run_loop (stop_if stopped h) ws'
  | WaitError :: _ => Throw "epoll_wait"
  end.

(** [running_.store(true)] on the descriptors set up before the loop. *)
Definition run (listen_fd stop_read_fd : Z) (ws : list wait_result) : outcome TCPFeedHandler :=
  run_loop (mkHandler true listen_fd stop_read_fd ∅ []) ws.

(** ** Framing: the reference

    A byte stream is cut into consecutive records of 48 bytes; what is left is
    shorter than a record. *)

Definition frame_count (bs : list char) : nat := (length bs / sizeof_WireOrder)%nat.

Definition frames (bs : list char) : list Order :=
  (fun i => wire_to_order (read_wire (slice (i * sizeof_WireOrder) sizeof_WireOrder bs)))
    <$> seq 0 (frame_count bs).

Definition remainder (bs : list char) : list char := drop (frame_count bs * sizeof_WireOrder) bs.

Lemma frames_short bs : (length bs < sizeof_WireOrder)%nat -> frames bs = [] /\ remainder bs = bs.
Proof.
  intros H. unfold frames, remainder, frame_count. by rewrite Nat.div_small.
Qed.

Lemma frame_count_cons bs :
  (sizeof_WireOrder <= length bs)%nat -> frame_count bs = S (frame_count (drop sizeof_WireOrder bs)).
Proof.
  intros H. unfold frame_count. rewrite length_drop.
  replace (length bs) with (length bs - sizeof_WireOrder + 1 * sizeof_WireOrder)%nat at 1 by lia.
  rewrite Nat.div_add by done. lia.
Qed.

Lemma frames_cons bs :
  (sizeof_WireOrder <= length bs)%nat ->
  frames bs = wire_to_order (read_wire (take sizeof_WireOrder bs)) :: frames (drop sizeof_WireOrder bs) /\
  remainder bs = remainder (drop sizeof_WireOrder bs).
Proof.
  intros H. unfold frames, remainder. rewrite (frame_count_cons bs H). split.
  - cbn [seq]. rewrite fmap_cons. f_equal.
    rewrite <-fmap_S_seq, <-list_fmap_compose. apply list_fmap_ext. intros _ i _. simpl.
    unfold slice. by rewrite drop_drop.
  - by rewrite drop_drop.
Qed.

Lemma frames_app a b :
  frames (a ++ b) = frames a ++ frames (remainder a ++ b) /\
  remainder (a ++ b) = remainder (remainder a ++ b).
Proof.
  remember (length a) as n eqn:Hn. revert a Hn.
  induction n as [n IH] using lt_wf_ind. intros a ->.
  destruct (Nat.lt_ge_cases (length a) sizeof_WireOrder) as [Hs|Hl].
  { by destruct (frames_short a Hs) as [-> ->]. }
  destruct (frames_cons a Hl) as [-> ->].
  destruct (frames_cons (a ++ b)) as [-> ->]; [rewrite length_app; lia|].
  rewrite take_app_le, drop_app_le by done.
  destruct (IH (length (drop sizeof_WireOrder a))) with (a := drop sizeof_WireOrder a) as [-> ->].
  - rewrite length_drop. unfold sizeof_WireOrder in *. lia.
  - done.
  - done.
Qed.

Lemma remainder_length bs : (length (remainder bs) < sizeof_WireOrder)%nat.
Proof.
  unfold remainder, frame_count. rewrite length_drop.
  pose proof (Nat.div_mod (length bs) sizeof_WireOrder ltac:(done)).
  pose proof (Nat.mod_upper_bound (length bs) sizeof_WireOrder ltac:(done)). lia.
Qed.

(** The loop computes the reference, and its fuel suffices. *)
Lemma process_loop_frames fuel fd buf ps :
  (length buf < fuel)%nat ->
  process_loop fuel fd buf ps = Ret (remainder buf, ps ++ (pair fd <$> frames buf)).
Proof.
  revert buf ps. induction fuel as [|fuel IH]; intros buf ps Hf; [lia|]. cbn [process_loop].
  destruct (Nat.leb_spec sizeof_WireOrder (length buf)) as [Hl|Hs].
  - destruct (frames_cons buf Hl) as [-> ->].
    rewrite IH by (rewrite length_drop; unfold sizeof_WireOrder in *; lia).
    by rewrite <-app_assoc.
  - destruct (frames_short buf Hs) as [-> ->]. by rewrite app_nil_r.
Qed.

Lemma process_buffer_frames h fd buf :
  connections_ h !! fd = Some buf ->
  process_buffer h fd =
    Ret (mkHandler (running_ h) (listen_fd_ h) (stop_read_fd_ h)
           (<[fd := remainder buf]> (connections_ h)) (pushes h ++ (pair fd <$> frames buf))).
Proof.
  intros H. unfold process_buffer. rewrite H. rewrite process_loop_frames by lia. done.
Qed.

(** Reading chunks until the socket would block. *)
Lemma recv_loop_chunks h fd buf chunks rs :
  recv_loop h fd buf ((Data <$> chunks) ++ rs) = recv_loop h fd (buf ++ concat chunks) rs.
Proof.
  revert buf. induction chunks as [|c chunks IH]; intros buf; simpl; [by rewrite app_nil_r|].
  by rewrite IH, app_assoc.
Qed.

Lemma handle_client_data_chunks h fd buf chunks :
  connections_ h !! fd = Some buf ->
  handle_client_data h fd ((Data <$> chunks) ++ [WouldBlock]) =
    Ret (mkHandler (running_ h) (listen_fd_ h) (stop_read_fd_ h)
           (<[fd := remainder (buf ++ concat chunks)]> (connections_ h))
           (pushes h ++ (pair fd <$> frames (buf ++ concat chunks)))).
Proof.
  intros H. unfold handle_client_data. rewrite H, recv_loop_chunks. simpl.
  rewrite (process_buffer_frames _ _ (buf ++ concat chunks)) by (simpl; by rewrite lookup_insert_eq).
  simpl. by rewrite insert_insert_eq.
Qed.

(** *** Streams of several connections *)

(** A readable client: [chunks] are the successive reads until it would block. *)
Definition read_event (fd : Z) (chunks : list (list char)) : epoll_event :=
  mkEvent fd false true ((Data <$> chunks) ++ [WouldBlock]) [].

(** All the bytes read from [fd]. *)
Definition stream (fd : Z) (evs : list (Z * list (list char))) : list char :=
  concat ((fun ev => if decide (ev.1 = fd) then concat ev.2 else []) <$> evs).

(** The orders pushed on behalf of [fd]. *)
Definition pushed_for (fd : Z) (ps : list (Z * Order)) : list Order :=
  (filter (fun p => p.1 = fd) ps).*2.

Lemma pushed_for_app fd ps ps' : pushed_for fd (ps ++ ps') = pushed_for fd ps ++ pushed_for fd ps'.
Proof. unfold pushed_for. by rewrite filter_app, fmap_app. Qed.

Lemma pushed_for_pair fd fd' os :
  pushed_for fd (pair fd' <$> os) = if decide (fd' = fd) then os else [].
Proof.
  unfold pushed_for. induction os as [|o os IH]; [by case_decide|]. rewrite fmap_cons.
  destruct (decide (fd' = fd)) as [->|Hne].
  - rewrite filter_cons_True by done. rewrite fmap_cons, IH. done.
  - rewrite filter_cons_False by done. exact IH.
Qed.

(** Connected clients, none of them with a whole record waiting. *)
Definition conns_ok (h : TCPFeedHandler) : Prop :=
  (forall fd buf, connections_ h !! fd = Some buf ->
     (length buf < sizeof_WireOrder)%nat /\ fd <> listen_fd_ h /\ fd <> stop_read_fd_ h).

Lemma stream_app fd evs evs' : stream fd (evs ++ evs') = stream fd evs ++ stream fd evs'.
Proof. unfold stream. by rewrite fmap_app, concat_app. Qed.

(** [h'] is [h] after the reads [evs]: every connection holds the remainder of
    what it received, and the whole records have been pushed. *)
Record advanced (h : TCPFeedHandler) (evs : list (Z * list (list char))) (h' : TCPFeedHandler) : Prop := {
  adv_ok : conns_ok h';
  adv_running : running_ h' = running_ h;
  adv_listen : listen_fd_ h' = listen_fd_ h;
  adv_stop : stop_read_fd_ h' = stop_read_fd_ h;
  adv_conns fd buf : connections_ h !! fd = Some buf ->
    connections_ h' !! fd = Some (remainder (buf ++ stream fd evs)) /\
    pushed_for fd (pushes h') = pushed_for fd (pushes h) ++ frames (buf ++ stream fd evs);
  adv_dom fd : is_Some (connections_ h' !! fd) -> is_Some (connections_ h !! fd);
  adv_from p : p ∈ pushes h' -> p ∈ pushes h \/ is_Some (connections_ h !! p.1)
}.

Lemma advanced_refl h : conns_ok h -> advanced h [] h.
Proof.
  intros Hok. split; try done; [|by left]. intros fd buf Hfd. destruct (Hok _ _ Hfd) as [Hs _].
  unfold stream. simpl. rewrite !app_nil_r. destruct (frames_short buf Hs) as [-> ->].
  by rewrite app_nil_r.
Qed.

Lemma advanced_trans h evs1 h1 evs2 h2 :
  advanced h evs1 h1 -> advanced h1 evs2 h2 -> advanced h (evs1 ++ evs2) h2.
Proof.
  intros [_ ? ? ? H1 D1 F1] [? ? ? ? H2 D2 F2]. split; [done|congruence..| |auto|].
  2: { intros p [Hp|Hp]%F2; [by apply F1|right; by apply D1]. }
  intros fd buf Hfd.
  destruct (H1 _ _ Hfd) as [Hfd1 Hp1]. destruct (H2 _ _ Hfd1) as [-> ->].
  destruct (frames_app (buf ++ stream fd evs1) (stream fd evs2)) as [Hfr Hrem].
  rewrite stream_app, (app_assoc buf), Hfr, Hrem, Hp1. by rewrite app_assoc.
Qed.

Lemma dispatch_read h fd chunks :
  conns_ok h -> is_Some (connections_ h !! fd) ->
  exists h', dispatch h (read_event fd chunks) = Ret h' /\ advanced h [(fd, chunks)] h'.
Proof.
  intros Hok [buf Hfd]. destruct (Hok _ _ Hfd) as (_ & Hl & Hs). eexists. split.
  - unfold dispatch. simpl. destruct (Z.eqb_spec fd (listen_fd_ h)); [done|].
    by apply handle_client_data_chunks.
  - split; try done.
    + intros fd' buf' Hfd'. cbn in *.
      apply lookup_insert_Some in Hfd' as [[<- <-]|[_ Hfd']]; [|by apply Hok].
      split_and!; [apply remainder_length|done|done].
    + intros fd' buf' Hfd'. cbn [connections_ pushes]. unfold stream. simpl.
      rewrite app_nil_r, pushed_for_app, pushed_for_pair.
      destruct (decide (fd = fd')) as [<-|Hne].
      * assert (buf' = buf) as -> by congruence. by rewrite lookup_insert_eq.
      * rewrite lookup_insert_ne by done. destruct (Hok _ _ Hfd') as [Hshort _].
        rewrite app_nil_r. by destruct (frames_short buf' Hshort) as [-> ->].
    + intros fd'. cbn [connections_]. destruct (decide (fd = fd')) as [<-|Hne]; [eauto|].
      by rewrite lookup_insert_ne.
    + intros p. cbn [pushes]. rewrite elem_of_app. intros [Hp|(o & -> & _)%list_elem_of_fmap]; [by left|].
      right. cbn [fst]. eauto.
Qed.

Definition all_connected (h : TCPFeedHandler) (evs : list (Z * list (list char))) : Prop :=
  Forall (fun ev => is_Some (connections_ h !! ev.1)) evs.

Lemma advanced_connected h evs h' evs' :
  advanced h evs h' -> all_connected h evs' -> all_connected h' evs'.
Proof.
  intros Hadv Hall. eapply Forall_impl; [exact Hall|]. intros ev [buf Hev].
  destruct (adv_conns _ _ _ Hadv _ _ Hev) as [-> _]. eauto.
Qed.

Lemma handle_events_streams h evs :
  conns_ok h -> all_connected h evs ->
  exists h', handle_events h ((fun ev => read_event ev.1 ev.2) <$> evs) = Ret h' /\ advanced h evs h'.
Proof.
  revert h. induction evs as [|[fd chunks] evs IH]; intros h Hok Hevs.
  { exists h. split; [done|by apply advanced_refl]. }
  apply Forall_cons in Hevs as [Hfd Hevs]. rewrite fmap_cons. cbn [handle_events fst snd].
  destruct (dispatch_read h fd chunks Hok Hfd) as (h1 & Hd & Hadv).
  destruct Hfd as [buf Hfd]. destruct (Hok _ _ Hfd) as (_ & _ & Hns).
  replace (ev_fd (read_event fd chunks) =? stop_read_fd_ h) with false
    by (symmetry; by apply Z.eqb_neq).
  rewrite Hd. cbn [mbind outcome_bind].
  destruct (IH h1) as (h2 & Hrun & Hadv2); [apply Hadv|by eapply advanced_connected|].
  exists h2. split; [done|]. by apply (advanced_trans _ [_] h1).
Qed.

(** *** Whole runs *)

Definition accept_event (listen_fd : Z) (fds : list Z) : epoll_event :=
  mkEvent listen_fd false true [] ((Accepted <$> fds) ++ [NoPending]).

Definition stop_event (stop_fd : Z) : epoll_event := mkEvent stop_fd false true [] [].

Definition read_batch (evs : list (Z * list (list char))) : wait_result :=
  Ready ((fun ev => read_event ev.1 ev.2) <$> evs) false.

Lemma accept_connections_all h fds :
  accept_connections h ((Accepted <$> fds) ++ [NoPending]) =
    Ret (with_conns h (foldl (fun c fd => <[fd := []]> c) (connections_ h) fds)).
Proof.
  revert h. induction fds as [|fd fds IH]; intros h; simpl; [by destruct h|]. by rewrite IH.
Qed.

Lemma accepted_lookup fds (c : gmap Z (list char)) fd :
  foldl (fun c fd => <[fd := []]> c) c fds !! fd =
  if decide (fd ∈ fds) then Some [] else c !! fd.
Proof.
  revert c. induction fds as [|fd' fds IH]; intros c; simpl; [done|]. rewrite IH.
  destruct (decide (fd ∈ fds)); [by rewrite decide_True by set_solver|].
  destruct (decide (fd = fd')) as [->|Hne].
  - rewrite decide_True by set_solver. by rewrite lookup_insert_eq.
  - rewrite decide_False by set_solver. by rewrite lookup_insert_ne.
Qed.

Lemma run_loop_batches h batches ws :
  conns_ok h -> running_ h = true -> all_connected h (concat batches) ->
  exists h', run_loop h ((read_batch <$> batches) ++ ws) = run_loop h' ws /\
    advanced h (concat batches) h'.
Proof.
  revert h. induction batches as [|evs batches IH]; intros h Hok Hrun Hall.
  { exists h. split; [done|by apply advanced_refl]. }
  apply Forall_app in Hall as [Hevs Hall].
  destruct (handle_events_streams h evs Hok Hevs) as (h1 & Hev & Hadv).
  destruct (IH h1) as (h2 & Hloop & Hadv2);
    [apply Hadv|by rewrite (adv_running _ _ _ Hadv)|by eapply advanced_connected|].
  exists h2. split; [|by apply (advanced_trans _ _ h1)].
  rewrite fmap_cons. cbn [app run_loop]. rewrite Hrun. cbn [negb read_batch]. by rewrite Hev.
Qed.

(** The wire image of an order, as the clients pack it. *)
Definition encode_wire (pad : list char) (w : WireOrder) : list char :=
  le_encode 8 (w_order_id w) ++ le_encode 8 (w_client_id w) ++
  [char_of_byte (w_side w)] ++ [char_of_byte (w_type w)] ++ w_symbol w ++ pad ++
  le_encode 8 (bits_of_double (w_price w)) ++ le_encode 8 (w_quantity w).

Definition wire_wt (w : WireOrder) : Prop :=
  u64 (w_order_id w) /\ u64 (w_client_id w) /\ 0 <= w_side w < 256 /\ 0 <= w_type w < 256 /\
  length (w_symbol w) = kSymbolLen /\ valid_double (w_price w) /\ u64 (w_quantity w).

#[global] Instance wire_wt_dec w : Decision (wire_wt w).
Proof. unfold wire_wt. apply _. Defined.

Lemma encode_wire_length pad w :
  length pad = 6%nat -> wire_wt w -> length (encode_wire pad w) = sizeof_WireOrder.
Proof.
  intros Hp Hw. unfold encode_wire. rewrite !length_app, !le_encode_length, Hp.
  destruct Hw as (_ & _ & _ & _ & -> & _). done.
Qed.

Lemma read_encode_wire pad w : length pad = 6%nat -> wire_wt w -> read_wire (encode_wire pad w) = w.
Proof.
  intros Hpad (Hid & Hcl & Hs & Ht & Hsym & Hp & Hq). unfold read_wire, encode_wire.
  unfold kSymbolLen in Hsym. skip_fields. rewrite !byte_at_here by done.
  rewrite !(slice_here 8) by (apply le_encode_length || done).
  rewrite (slice_all 8) by apply le_encode_length.
  rewrite !le64_decode_encode by (done || by apply bits_of_double_u64).
  rewrite double_of_bits_of_double by done. by destruct w.
Qed.

Lemma frames_encoded pad ws :
  length pad = 6%nat -> Forall wire_wt ws ->
  frames (concat (encode_wire pad <$> ws)) = wire_to_order <$> ws /\
  remainder (concat (encode_wire pad <$> ws)) = [].
Proof.
  intros Hpad. induction 1 as [|w ws Hw _ IH]; [done|]. rewrite !fmap_cons. cbn [concat].
  pose proof (encode_wire_length pad w Hpad Hw) as Hlen.
  destruct (frames_cons (encode_wire pad w ++ concat (encode_wire pad <$> ws))) as [-> ->];
    [rewrite length_app; lia|].
  rewrite <-Hlen at 1 2. rewrite take_app_length, drop_app_length, read_encode_wire by done.
  rewrite <-Hlen, drop_app_length. by destruct IH as [-> ->].
Qed.

(** A whole run: accept, read, stop. *)
Lemma run_streams (listen_fd stop_fd : Z) (fds : list Z)
    (batches : list (list (Z * list (list char)))) :
  listen_fd <> stop_fd -> listen_fd ∉ fds -> stop_fd ∉ fds ->
  Forall (fun ev => ev.1 ∈ fds) (concat batches) ->
  exists h, run listen_fd stop_fd
      (Ready [accept_event listen_fd fds] false :: (read_batch <$> batches) ++ [Ready [stop_event stop_fd] false])
    = Ret h /\
    (forall fd, fd ∈ fds ->
      pushed_for fd (pushes h) = frames (stream fd (concat batches)) /\
      connections_ h !! fd = Some (remainder (stream fd (concat batches)))) /\
    Forall (fun p => p.1 ∈ fds) (pushes h).
Proof.
  intros Hls Hl Hs Hall. unfold run. cbn [run_loop negb running_ handle_events].
  change (ev_fd (accept_event listen_fd fds)) with listen_fd. cbn [stop_read_fd_].
  rewrite (proj2 (Z.eqb_neq _ _) Hls). unfold dispatch. cbn [ev_fd accept_event listen_fd_ ev_accept].
  rewrite Z.eqb_refl, accept_connections_all. cbn [mbind outcome_bind stop_if].
  set (h0 := with_conns _ _).
  assert (forall fd, connections_ h0 !! fd = if decide (fd ∈ fds) then Some [] else None) as Hc0
    by (intros fd; apply accepted_lookup).
  destruct (run_loop_batches h0 batches [Ready [stop_event stop_fd] false]) as (h1 & -> & Hadv).
  - intros fd buf. rewrite Hc0. case_decide; [|done]. intros [= <-].
    split_and!; [unfold sizeof_WireOrder; simpl; lia|set_solver..].
  - done.
  - eapply Forall_impl; [exact Hall|]. intros ev Hev. rewrite Hc0, decide_True by done. eauto.
  - cbn [run_loop]. rewrite (adv_running _ _ _ Hadv). cbn [h0 negb running_ with_conns handle_events].
    rewrite (adv_stop _ _ _ Hadv). change (stop_read_fd_ h0) with stop_fd.
    change (ev_fd (stop_event stop_fd)) with stop_fd. rewrite Z.eqb_refl. cbn.
    eexists. split; [done|]. split; cbn [pushes connections_ stop_running].
    + intros fd Hfd. destruct (adv_conns _ _ _ Hadv fd []) as [-> ->]; [|done].
      by rewrite Hc0, decide_True.
    + apply Forall_forall. intros p [Hp|Hp]%(adv_from _ _ _ Hadv); [by apply elem_of_nil in Hp|].
      rewrite Hc0 in Hp. case_decide; [done|by destruct Hp].
Qed.

(** ** Properties *)

(** C25: a run of the event loop that accepts distinct clients, reads from them in
    any batches, any interleaving and any chunking of their bytes, and is then
    told to stop, returns; and for each client the orders pushed are exactly the
    consecutive 48-byte records of that client's stream, in order, the bytes of
    an incomplete last record staying in its buffer. *)
Theorem feed_delivers_streams (listen_fd stop_fd : Z) (fds : list Z)
    (batches : list (list (Z * list (list char)))) :
  listen_fd <> stop_fd -> listen_fd ∉ fds -> stop_fd ∉ fds ->
  Forall (fun ev => ev.1 ∈ fds) (concat batches) ->
  exists h, run listen_fd stop_fd
      (Ready [accept_event listen_fd fds] false :: (read_batch <$> batches) ++ [Ready [stop_event stop_fd] false])
    = Ret h /\
    forall fd, fd ∈ fds ->
      pushed_for fd (pushes h) = frames (stream fd (concat batches)) /\
      connections_ h !! fd = Some (remainder (stream fd (concat batches))).
Proof.
  intros H1 H2 H3 H4. destruct (run_streams listen_fd stop_fd fds batches H1 H2 H3 H4) as (h & Hr & Hc & _).
  eauto.
Qed.

(** Two clients, the first sending one record in two pieces. *)
Definition split_frame : list char := replicate 30 NUL.

Lemma feed_delivers_streams_witness :
  exists h, run 3 4
      (Ready [accept_event 3 [7; 8]] false ::
       (read_batch <$> [[(7, [split_frame]); (8, [split_frame])]; [(7, [split_frame])]])
       ++ [Ready [stop_event 4] false]) = Ret h /\
    forall fd, fd ∈ [7; 8] ->
      pushed_for fd (pushes h) =
        frames (stream fd (concat [[(7, [split_frame]); (8, [split_frame])]; [(7, [split_frame])]])) /\
      connections_ h !! fd =
        Some (remainder (stream fd (concat [[(7, [split_frame]); (8, [split_frame])]; [(7, [split_frame])]]))).
Proof.
  apply (feed_delivers_streams 3 4 [7; 8]).
  - discriminate.
  - apply (bool_decide_unpack _). exact I.
  - apply (bool_decide_unpack _). exact I.
  - apply (bool_decide_unpack _). exact I.
Defined.

(** What a client packs is what the engine is given: a stream of packed wire
    orders, whatever their padding bytes, is cut back into exactly those orders,
    every field intact, the remaining quantity set to the quantity and nothing
    left over. *)
Theorem wire_roundtrip (pad : list char) (ws : list WireOrder) :
  length pad = 6%nat -> Forall wire_wt ws ->
  frames (concat (encode_wire pad <$> ws)) = wire_to_order <$> ws /\
  remainder (concat (encode_wire pad <$> ws)) = [].
Proof. apply frames_encoded. Qed.

Definition sample_wire : WireOrder :=
  mkWireOrder 1 1 0 0 (replicate kSymbolLen NUL) (d_of_Z 100) 10.

(** C35: when the end of a client's stream is read in the same readiness event as
    its last data, the connection is closed before the buffer is processed:
    none of the orders in those bytes, nor of those already buffered, is pushed. *)
Theorem peer_close_drops_orders (h : TCPFeedHandler) (fd : Z) (buf : list char)
    (chunks : list (list char)) :
  connections_ h !! fd = Some buf ->
  exists h', handle_client_data h fd ((Data <$> chunks) ++ [Eof]) = Ret h' /\
    pushes h' = pushes h /\ connections_ h' !! fd = None.
Proof.
  intros Hfd. unfold handle_client_data. rewrite Hfd, recv_loop_chunks. cbn [recv_loop].
  eexists. split; [done|]. split; [done|]. apply lookup_delete_eq.
Qed.

(** The dropped bytes of this witness are a complete order. *)
Lemma peer_close_drops_orders_witness :
  let h := mkHandler true 3 4 {[7 := []]} [] in
  let bytes := encode_wire (replicate 6 NUL) sample_wire in
  frames bytes = [wire_to_order sample_wire] /\
  exists h', handle_client_data h 7 ((Data <$> [bytes]) ++ [Eof]) = Ret h' /\
    pushes h' = pushes h /\ connections_ h' !! 7 = None.
Proof.
  split; [vm_compute; reflexivity|].
  apply (peer_close_drops_orders _ 7 [] [encode_wire (replicate 6 NUL) sample_wire]). reflexivity.
Defined.

(** An [accept] that keeps failing with an error other than "would block" keeps
    the loop of [accept_connections] going, however often it is tried. *)
Lemma accept_error_spins (h : TCPFeedHandler) (n : nat) :
  accept_connections h (replicate n AcceptError) = NoFuel.
Proof. induction n as [|n IH]; [done|]. exact IH. Qed.
