(* ===== verification/FeedSetup.v ===== *)
(** * The feed handler's descriptors ([src/tcp_feed_handler.cpp])

    [TCPFeedHandler::run] up to its event loop, the helpers it throws from, the
    destructor and [stop].  Every system call's result is an argument.  An
    exception leaves the object with the descriptors stored so far, so the set-up
    is written in a monad of state and exceptions whose state survives a throw;
    the state also records the descriptors the kernel has opened. *)

From S2P Require Import Prelude Double Order Sharding Bytes FeedHandler.

(** ** State *)

Record feed_fds := mkFds {
  fd_listen : Z;             (* [listen_fd_] *)
  fd_epoll : Z;              (* [epoll_fd_] *)
  fd_stop_read : Z;          (* [stop_read_fd_] *)
  fd_stop_write : Z;         (* [stop_write_fd_] *)
  fd_opened : list Z         (* opened by the calls of [run] *)
}.

(** The constructor: the member initialisers. *)
Definition new_feed_fds : feed_fds := mkFds (-1) (-1) (-1) (-1) [].

Definition sysM (A : Type) : Type := feed_fds -> feed_fds * outcome A.

#[global] Instance sysM_ret : MRet sysM := fun A a s => (s, Ret a).

#[global] Instance sysM_bind : MBind sysM := fun A B f m s =>
  match m s with
  | (s', Ret a) => f a s'
  | (s', Throw e) => (s', Throw e)
  | (s', Undef) => (s', Undef)
  | (s', NoFuel) => (s', NoFuel)
  end.

Definition throw {A} (msg : string) : sysM A := fun s => (s, Throw msg).

(** [if (r == -1) throw ...]. *)
Definition check_result (r : Z) (msg : string) : sysM unit :=
  if r =? -1 then throw msg else mret tt.

Definition set_listen (fd : Z) : sysM unit := fun s =>
  (mkFds fd (fd_epoll s) (fd_stop_read s) (fd_stop_write s) (fd_opened s), Ret tt).
Definition set_epoll (fd : Z) : sysM unit := fun s =>
  (mkFds (fd_listen s) fd (fd_stop_read s) (fd_stop_write s) (fd_opened s), Ret tt).
Definition set_stop (r w : Z) : sysM unit := fun s =>
  (mkFds (fd_listen s) (fd_epoll s) r w (fd_opened s), Ret tt).

(** The kernel hands out descriptors; a failed call hands out none. *)
Definition open_fds (fds : list Z) : sysM unit := fun s =>
  (mkFds (fd_listen s) (fd_epoll s) (fd_stop_read s) (fd_stop_write s)
     (fd_opened s ++ filter (fun fd => fd <> -1) fds), Ret tt).

(** ** Operations *)

(** The results of the system calls of [run], in the order it makes them. *)
Record setup_results := mkSetup {
  su_pipe : option (Z * Z);           (* [None] when [pipe] fails *)
  su_stop_getfl : Z; su_stop_setfl : Z;
  su_socket : Z;
  su_listen_getfl : Z; su_listen_setfl : Z;
  su_bind : Z;
  su_listen : Z;
  su_epoll : Z;
  su_add_listen : Z;
  su_add_stop : Z
}.

Definition set_nonblocking (getfl setfl : Z) : sysM unit :=
  check_result getfl "fcntl F_GETFL: ";; check_result setfl "fcntl F_SETFL: ".

Definition epoll_add (ctl : Z) : sysM unit := check_result ctl "epoll_ctl ADD: ".

(** The calls that open descriptors, with the stores of their results. *)
Definition sys_pipe (r : option (Z * Z)) : sysM unit :=
  match r with
  | None => throw "pipe: "
  | Some (r, w) => open_fds [r; w];; set_stop r w
  end.
Definition sys_socket (fd : Z) : sysM unit := open_fds [fd];; set_listen fd.
Definition sys_epoll_create1 (fd : Z) : sysM unit := open_fds [fd];; set_epoll fd.

(** [run] up to [running_.store(true)]. *)
Definition setup (u : setup_results) : sysM unit :=
  sys_pipe (su_pipe u);;
  set_nonblocking (su_stop_getfl u) (su_stop_setfl u);;
  sys_socket (su_socket u);;
  check_result (su_socket u) "socket: ";;
  set_nonblocking (su_listen_getfl u) (su_listen_setfl u);;
  check_result (su_bind u) "bind: ";;
  check_result (su_listen u) "listen: ";;
  sys_epoll_create1 (su_epoll u);;
  check_result (su_epoll u) "epoll_create1: ";;
  epoll_add (su_add_listen u);;
  epoll_add (su_add_stop u).

(** The event loop, on the descriptors set up. *)
Definition event_loop (ws : list wait_result) : sysM TCPFeedHandler := fun s =>
  (s, run (fd_listen s) (fd_stop_read s) ws).

(** [run]. *)
Definition run_server (u : setup_results) (ws : list wait_result) : sysM TCPFeedHandler :=
  setup u;; event_loop ws.

(** [~TCPFeedHandler]: the descriptors closed, in order, for the clients left in
    [connections_]. *)
Definition destructor_closes (conns : gmap Z (list char)) (s : feed_fds) : list Z :=
  (map_to_list conns).*1 ++
  (if fd_listen s =? -1 then [] else [fd_listen s]) ++
  (if fd_epoll s =? -1 then [] else [fd_epoll s]) ++
  (if fd_stop_read s =? -1 then [] else [fd_stop_read s]) ++
  (if fd_stop_write s =? -1 then [] else [fd_stop_write s]).

(** ** Facts *)

Lemma sysM_bind_throw {A B} (m : sysM A) (f : A -> sysM B) s s' e :
  m s = (s', Throw e) -> (m ≫= f) s = (s', Throw e).
Proof. intros H. unfold mbind, sysM_bind. by rewrite H. Qed.

Lemma sysM_bind_ret {A B} (m : sysM A) (f : A -> sysM B) s s' a :
  m s = (s', Ret a) -> (m ≫= f) s = f a s'.
Proof. intros H. unfold mbind, sysM_bind. by rewrite H. Qed.

(** The descriptors stored are exactly those opened. *)
Definition stored (s : feed_fds) : list Z :=
  filter (fun fd => fd <> -1) [fd_stop_read s; fd_stop_write s; fd_listen s; fd_epoll s].

Definition tidy (s : feed_fds) : Prop := fd_opened s = stored s.

(** A computation that keeps descriptors tidy, whether it returns or throws. *)
Definition keeps {A} (P Q : feed_fds -> Prop) (m : sysM A) : Prop :=
  forall s, P s -> let '(s', r) := m s in
    tidy s' /\ match r with Ret _ => Q s' | _ => True end.

Lemma keeps_bind {A B} (P Q R : feed_fds -> Prop) (m : sysM A) (f : A -> sysM B) :
  keeps P Q m -> (forall a, keeps Q R (f a)) -> keeps P R (m ≫= f).
Proof.
  intros Hm Hf s Hs. specialize (Hm s Hs). unfold mbind, sysM_bind.
  destruct (m s) as [s1 [a| | |]]; destruct Hm as [Ht HQ]; [apply (Hf a s1 HQ)|done..].
Qed.

Lemma keeps_check (P : feed_fds -> Prop) r msg :
  (forall s, P s -> tidy s) -> keeps P P (check_result r msg).
Proof.
  intros HP s Hs. unfold check_result. destruct (r =? -1); cbn; split; auto.
Qed.

(** What is open after each group of calls: nothing but the pipe, then the
    socket, then the epoll instance. *)
Definition piped (s : feed_fds) : Prop := tidy s /\ fd_listen s = -1 /\ fd_epoll s = -1.
Definition socketed (s : feed_fds) : Prop := tidy s /\ fd_epoll s = -1.

Lemma piped_tidy s : piped s -> tidy s.
Proof. by intros []. Qed.

Lemma socketed_tidy s : socketed s -> tidy s.
Proof. by intros []. Qed.

Local Ltac tidy_cases :=
  unfold mbind, sysM_bind, open_fds, set_stop, set_listen, set_epoll, tidy, stored in *;
  cbn in *; subst; repeat (case_decide; cbn); (done || lia).

Lemma keeps_pipe r : keeps (eq new_feed_fds) piped (sys_pipe r).
Proof.
  intros s <-. destruct r as [[r w]|]; [|done]. unfold sys_pipe, piped. tidy_cases.
Qed.

Lemma keeps_socket fd : keeps piped socketed (sys_socket fd).
Proof.
  intros [l e r w op] (Ht & Hl & He). unfold sys_socket, socketed. tidy_cases.
Qed.

Lemma keeps_epoll fd : keeps socketed tidy (sys_epoll_create1 fd).
Proof.
  intros [l e r w op] (Ht & He). unfold sys_epoll_create1. tidy_cases.
Qed.

Lemma keeps_nonblocking (P : feed_fds -> Prop) getfl setfl :
  (forall s, P s -> tidy s) -> keeps P P (set_nonblocking getfl setfl).
Proof. intros HP. eapply keeps_bind; [|intros _]; by apply keeps_check. Qed.

Lemma setup_tidy u : keeps (eq new_feed_fds) tidy (setup u).
Proof.
  pose proof piped_tidy. pose proof socketed_tidy.
  eapply keeps_bind; [apply keeps_pipe|intros _].
  eapply keeps_bind; [by apply keeps_nonblocking|intros _].
  eapply keeps_bind; [apply keeps_socket|intros _].
  eapply keeps_bind; [by apply keeps_check|intros _].
  eapply keeps_bind; [by apply keeps_nonblocking|intros _].
  eapply keeps_bind; [by apply keeps_check|intros _].
  eapply keeps_bind; [by apply keeps_check|intros _].
  eapply keeps_bind; [apply keeps_epoll|intros _].
  repeat (eapply keeps_bind; [by apply keeps_check|intros _]). by apply keeps_check.
Qed.

(** The destructor closes what is stored. *)
Lemma destructor_stored conns s : destructor_closes conns s ≡ₚ (map_to_list conns).*1 ++ stored s.
Proof.
  unfold destructor_closes. apply Permutation_app_head. unfold stored.
  assert (forall x : Z, (if x =? -1 then [] else [x]) = filter (fun fd => fd <> -1) [x]) as Hf.
  { intros x. rewrite filter_cons, filter_nil. destruct (Z.eqb_spec x (-1)); by case_decide. }
  rewrite !Hf, <-!filter_app. apply filter_Permutation. cbn.
  by rewrite (Permutation_app_comm [fd_listen s; fd_epoll s] [fd_stop_read s; fd_stop_write s]).
Qed.

(** ** Properties *)

(** C32: the set-up leaks no descriptor.  On a new handler, whatever the system
    calls of [run] return and wherever it throws, the descriptors the kernel
    opened for the stop pipe, the listening socket and the epoll instance are
    exactly those the destructor closes besides the clients in [connections_],
    each once. *)
Theorem setup_leaks_nothing (u : setup_results) (ws : list wait_result) (conns : gmap Z (list char)) :
  let '(s, r) := run_server u ws new_feed_fds in
  destructor_closes conns s ≡ₚ (map_to_list conns).*1 ++ fd_opened s.
Proof.
  pose proof (setup_tidy u new_feed_fds eq_refl) as Hs. unfold run_server, mbind, sysM_bind.
  destruct (setup u new_feed_fds) as [s [[]| | |]]; destruct Hs as [Ht _]; unfold tidy in Ht;
    cbn [event_loop]; by rewrite destructor_stored, Ht.
Qed.

(** A [socket] call that fails: the pipe is closed. *)
Example socket_fails :
  let '(s, r) := run_server (mkSetup (Some (3, 4)) 0 0 (-1) 0 0 0 0 5 0 0) [] new_feed_fds in
  r = Throw "socket: " /\ destructor_closes ∅ s = [3; 4].
Proof. vm_compute. done. Qed.

(** A client whose descriptor cannot be registered makes the whole loop throw, and
    is in no map the destructor looks at. *)
Example unusable_client :
  run 5 3 [Ready [mkEvent 5 false true [] [Accepted 7; AcceptedUnusable 8]] false] =
  Throw "set_nonblocking or epoll_add".
Proof. vm_compute. reflexivity. Qed.

(** A second [run] on the same object stores over the first one's descriptors. *)
Example second_run_leaks :
  let stopped := [Ready [stop_event 3] false] in
  let '(s, _) := run_server (mkSetup (Some (3, 4)) 0 0 5 0 0 0 0 6 0 0) stopped new_feed_fds in
  let '(s', _) := run_server (mkSetup (Some (7, 8)) 0 0 9 0 0 0 0 10 0 0) stopped s in
  fd_opened s' = [3; 4; 5; 6; 7; 8; 9; 10] /\ destructor_closes ∅ s' = [9; 10; 7; 8].
Proof. vm_compute. done. Qed.

(** *** Stopping *)

(** The object before [run], and the loop entered on an object:
    [running_.store(true)] whatever [running_] was. *)
Definition new_handler : TCPFeedHandler := mkHandler false (-1) (-1) ∅ [].

Definition run_on (h : TCPFeedHandler) (listen_fd stop_read_fd : Z) (ws : list wait_result)
    : outcome TCPFeedHandler :=
  run_loop (mkHandler true listen_fd stop_read_fd (connections_ h) (pushes h)) ws.

(** A script in which nobody calls [stop] during the loop. *)
Definition no_stop (stop_fd : Z) (w : wait_result) : Prop :=
  match w with
  | Ready evs stopped => stopped = false /\ Forall (fun ev => ev_fd ev <> stop_fd) evs
  | Interrupted stopped => stopped = false
  | WaitError => True
  end.

(** What a handler keeps through the calls of the loop. *)
Definition same_control (h h' : TCPFeedHandler) : Prop :=
  running_ h' = running_ h /\ stop_read_fd_ h' = stop_read_fd_ h.

Lemma process_buffer_control h fd h' : process_buffer h fd = Ret h' -> same_control h h'.
Proof.
  unfold process_buffer. destruct (connections_ h !! fd); [|by intros [= <-]].
  intros ([buf' ps'] & _ & [= <-])%bind_Ret. done.
Qed.

Lemma recv_loop_control h fd buf rs h' : recv_loop h fd buf rs = Ret h' -> same_control h h'.
Proof.
  revert buf. induction rs as [|[bs| | |] rs IH]; intros buf; cbn [recv_loop]; [done|apply IH|..].
  - by intros [= <-].
  - by intros H%process_buffer_control.
  - by intros [= <-].
Qed.

Lemma accept_control h rs h' : accept_connections h rs = Ret h' -> same_control h h'.
Proof.
  revert h. induction rs as [|[fd|fd| |] rs IH]; intros h; cbn [accept_connections]; try done.
  - by intros H%IH.
  - by intros [= <-].
  - apply IH.
Qed.

Lemma handle_events_control h evs h' :
  Forall (fun ev => ev_fd ev <> stop_read_fd_ h) evs -> handle_events h evs = Ret h' -> same_control h h'.
Proof.
  revert h. induction evs as [|ev evs IH]; intros h Hevs; cbn [handle_events]; [by intros [= <-]|].
  apply Forall_cons in Hevs as [Hev Hevs]. destruct (Z.eqb_spec (ev_fd ev) (stop_read_fd_ h)); [done|].
  intros (h1 & Hd & Hr)%bind_Ret.
  assert (same_control h h1) as [H1 H2].
  { unfold dispatch in Hd. destruct (_ =? _); [by eapply accept_control|].
    destruct (ev_hup_or_err ev); [by injection Hd as <-|]. destruct (ev_in ev); [|by injection Hd as <-].
    unfold handle_client_data in Hd. destruct (connections_ h !! _); [by eapply recv_loop_control|by injection Hd as <-]. }
  destruct (IH h1) as [H3 H4]; [by rewrite H2|done|]. split; congruence.
Qed.

Lemma run_loop_no_stop h ws :
  running_ h = true -> Forall (no_stop (stop_read_fd_ h)) ws -> forall h', run_loop h ws <> Ret h'.
Proof.
  intros Hr Hws. revert h Hr Hws. induction ws as [|w ws IH]; intros h Hr Hws h'; cbn [run_loop]; rewrite Hr; cbn [negb]; [done|].
  apply Forall_cons in Hws as [Hw Hws]. destruct w as [evs st|st|]; [| |done].
  - destruct Hw as [-> Hevs]. intros (h1 & Hh & Hl)%bind_Ret.
    destruct (handle_events_control h evs h1 Hevs Hh) as [H1 H2]. cbn in Hl.
    revert Hl. apply IH; [congruence|by rewrite H2].
  - cbn in Hw. subst st. by apply IH.
Qed.

(** A stop that comes early is lost.  [stop] on a handler whose loop has not
    begun (after the signal handler is installed and before [running_] is set)
    does nothing, and a run in which nobody calls [stop] again does not return,
    whatever the network does. *)
Theorem early_stop_lost (listen_fd stop_fd : Z) (ws : list wait_result) :
  Forall (no_stop stop_fd) ws -> forall h, run_on (stop new_handler) listen_fd stop_fd ws <> Ret h.
Proof. intros Hws h. by apply run_loop_no_stop. Qed.

