(* ===== verification/Files.v ===== *)
(** * Files and record logs

    What the two on-disk logs use of the C library: [fopen] in the modes
    ["a+b"], ["rb"] and ["wb"], appending writes, positioned reads and the size
    of a file.  A file system maps paths to contents; [denied] holds the paths
    that cannot be opened. *)

From S2P Require Import Prelude Double Order Sharding Bytes.

Record filesystem := mkFS {
  files : gmap string (list char);
  denied : gset string
}.

Definition contents (fs : filesystem) (path : string) : list char :=
  default [] (files fs !! path).

Definition set_contents (fs : filesystem) (path : string) (bs : list char) : filesystem :=
  mkFS (<[path := bs]> (files fs)) (denied fs).

(** [fopen(path, "a+b")]: the file is created when missing. *)
Definition fopen_append (fs : filesystem) (path : string) : option filesystem :=
  if decide (path ∈ denied fs) then None else Some (set_contents fs path (contents fs path)).

(** [fopen(path, "wb")]: the file is created or truncated. *)
Definition fopen_write (fs : filesystem) (path : string) : option filesystem :=
  if decide (path ∈ denied fs) then None else Some (set_contents fs path []).

(** [fopen(path, "rb")]: the contents, when the file exists and opens. *)
Definition fopen_read (fs : filesystem) (path : string) : option (list char) :=
  if decide (path ∈ denied fs) then None else files fs !! path.

(** [fwrite] on a file opened for appending, or just truncated. *)
Definition fwrite_append (fs : filesystem) (path : string) (bs : list char) : filesystem :=
  set_contents fs path (contents fs path ++ bs).

(** [fseek(f, off, SEEK_SET)] and [fread] of one object of [n] bytes. *)
Definition fread_at (bs : list char) (off : Z) (n : nat) : option (list char) :=
  let r := slice (Z.to_nat off) n bs in
  if (length r =? n)%nat then Some r else None.

(** ** Checkpoint files: one [uint64_t] *)

(** The value in a checkpoint file; [0] without one, or when it is too short. *)
Definition load_offset (fs : filesystem) (path : string) : Z :=
  match fopen_read fs path with
  | None => 0
  | Some bs => match fread_at bs 0 sizeof_u64 with Some r => le_decode r | None => 0 end
  end.

(** The states of the disk while a checkpoint is written: as before, truncated by
    [fopen], and complete. *)
Definition store_offset_states (fs : filesystem) (path : string) (offset : Z) : option (list filesystem) :=
  fs1 ← fopen_write fs path;
  Some [fs; fs1; fwrite_append fs1 path (le_encode sizeof_u64 offset)].

(** The state once it is written. *)
Definition store_offset (fs : filesystem) (path : string) (offset : Z) : option filesystem :=
  fss ← store_offset_states fs path offset; last fss.

(** ** Facts *)

(** Paths with different last characters are different. *)
Ltac differ_in_last :=
  let H := fresh in
  intros H%(f_equal (last ∘ String.list_ascii_of_string)); revert H; simpl;
  rewrite !list_ascii_of_string_app, !last_app; simpl; done.

Lemma contents_set_eq fs p bs : contents (set_contents fs p bs) p = bs.
Proof. unfold contents. simpl. by rewrite lookup_insert_eq. Qed.

Lemma contents_set_ne fs p q bs : p <> q -> contents (set_contents fs p bs) q = contents fs q.
Proof. intros H. unfold contents. simpl. by rewrite lookup_insert_ne. Qed.

Create Rewrite HintDb files.
#[export] Hint Rewrite contents_set_eq : files.
#[export] Hint Rewrite contents_set_ne using (done || congruence) : files.

Lemma store_offset_eq fs p off :
  p ∉ denied fs -> store_offset fs p off = Some (set_contents fs p (le_encode sizeof_u64 off)).
Proof.
  intros Hp. unfold store_offset, store_offset_states, fopen_write. rewrite decide_False by done.
  simpl. unfold fwrite_append. rewrite contents_set_eq. unfold set_contents. simpl.
  by rewrite insert_insert_eq.
Qed.

Lemma store_offset_refused fs p off : p ∈ denied fs -> store_offset fs p off = None.
Proof. intros Hp. unfold store_offset, store_offset_states, fopen_write. by rewrite decide_True. Qed.

Lemma load_store_offset fs p off :
  p ∉ denied fs -> u64 off -> load_offset (set_contents fs p (le_encode sizeof_u64 off)) p = off.
Proof.
  intros Hp Hoff. unfold load_offset, fopen_read.
  cbn [set_contents files denied]. rewrite decide_False by done. rewrite lookup_insert_eq. unfold fread_at. change (Z.to_nat 0) with 0%nat.
  rewrite slice_all by apply le_encode_length. rewrite le_encode_length, Nat.eqb_refl.
  by apply le64_decode_encode.
Qed.

Lemma load_offset_set_ne fs p q bs :
  p <> q -> load_offset (set_contents fs p bs) q = load_offset fs q.
Proof. intros H. unfold load_offset, fopen_read. simpl. by rewrite lookup_insert_ne. Qed.

(** *** Files of fixed-size records *)

Definition all_of_size (n : nat) (rs : list (list char)) : Prop := Forall (fun r => length r = n) rs.

Lemma concat_size n rs : all_of_size n rs -> length (concat rs) = (length rs * n)%nat.
Proof. induction 1 as [|r rs Hr _ IH]; simpl; [done|]. rewrite length_app, IH. lia. Qed.

Lemma record_count n rs :
  (0 < n)%nat -> all_of_size n rs ->
  Z.of_nat (length (concat rs)) / Z.of_nat n = Z.of_nat (length rs).
Proof.
  intros Hn Hrs. rewrite (concat_size n) by done. rewrite Nat2Z.inj_mul. apply Z.div_mul. lia.
Qed.

Lemma slice_record n rs i r :
  all_of_size n rs -> rs !! i = Some r -> slice (i * n) n (concat rs) = r.
Proof.
  intros Hrs. revert i. induction Hrs as [|r' rs Hr' _ IH]; intros i Hi; [done|].
  destruct i as [|i]; simpl in Hi.
  - injection Hi as <-. by apply slice_here.
  - simpl. rewrite (slice_skip n) by (done || lia).
    replace (n + i * n - n)%nat with (i * n)%nat by lia. by apply IH.
Qed.

(** Reading record [i] of a log through [fseek] and [fread]. *)
Lemma fread_record n rs i r :
  all_of_size n rs -> rs !! i = Some r ->
  fread_at (concat rs) (Z.of_nat i * Z.of_nat n) n = Some r.
Proof.
  intros Hrs Hi. unfold fread_at. rewrite <-Nat2Z.inj_mul, Nat2Z.id.
  rewrite (slice_record n rs i r) by done.
  rewrite (proj1 (Forall_lookup _ _) Hrs i r Hi), Nat.eqb_refl. done.
Qed.

(** Logs that end in the middle of a record: the rest is not counted and not read. *)
Lemma record_count_rest n rs rest :
  all_of_size n rs -> (length rest < n)%nat ->
  Z.of_nat (length (concat rs ++ rest)) / Z.of_nat n = Z.of_nat (length rs).
Proof.
  intros Hrs Hrest. rewrite length_app, (concat_size n), Nat2Z.inj_add, Nat2Z.inj_mul by done.
  rewrite Z.div_add_l, Z.div_small; lia.
Qed.

Lemma fread_record_rest n rs rest i r :
  all_of_size n rs -> rs !! i = Some r ->
  fread_at (concat rs ++ rest) (Z.of_nat i * Z.of_nat n) n = Some r.
Proof.
  intros Hrs Hi. pose proof (fread_record n rs i r Hrs Hi) as H. unfold fread_at in *.
  rewrite <-Nat2Z.inj_mul, Nat2Z.id in *. apply lookup_lt_Some in Hi.
  assert (slice (i * n) n (concat rs ++ rest) = slice (i * n) n (concat rs)) as ->; [|done].
  unfold slice. pose proof (concat_size n rs Hrs). rewrite drop_app_le by nia.
  rewrite take_app_le; [done|]. rewrite length_drop. nia.
Qed.
