(* ===== verification/LogQueue.v ===== *)
(** * The log-backed queue ([include/log_backed_order_queue.hpp])

    An append-only file of raw [Order] records, written by any number of gateway
    processes and read by each consumer at its own checkpointed offset.  [pop]
    polls; one turn of its loop is [log_poll], and the turns of one consumer are
    interleaved with the appends of the producers, with what other processes do
    to other files, and with restarts of the consumer. *)

From S2P Require Import Prelude Double Rounding Order Sharding OrderQueue Bytes Files.

Record LogBackedOrderQueue := mkLogQueue {
  log_path_ : string;
  checkpoint_path_ : string;
  consumer_offset_ : Z;
  log_done_ : bool
}.

Definition log_path (base_path : string) : string := base_path +:+ ".log".

Definition checkpoint_path (base_path consumer_id : string) : string :=
  base_path +:+ (if decide (consumer_id = "") then "" else "." +:+ consumer_id) +:+ ".offset".

(** [read_checkpoint] and [write_checkpoint]; [None] is the exception. *)
Definition read_checkpoint (fs : filesystem) (q : LogBackedOrderQueue) : Z :=
  load_offset fs (checkpoint_path_ q).

Definition write_checkpoint (fs : filesystem) (q : LogBackedOrderQueue) (offset : Z) : outcome filesystem :=
  match store_offset fs (checkpoint_path_ q) offset with
  | Some fs' => Ret fs'
  | None => Throw "LogBackedOrderQueue: cannot write"
  end.

(** The constructor. *)
Definition new_LogBackedOrderQueue (fs : filesystem) (base_path consumer_id : string)
    : outcome (filesystem * LogBackedOrderQueue) :=
  let q := mkLogQueue (log_path base_path) (checkpoint_path base_path consumer_id) 0 false in
  match fopen_append fs (log_path_ q) with
  | None => Throw "LogBackedOrderQueue: cannot open"
  | Some fs' => Ret (fs', mkLogQueue (log_path_ q) (checkpoint_path_ q) (read_checkpoint fs' q) false)
  end.

(** [push]: one record at the end of the file; [pad] are the padding bytes of
    the object [o]. *)
Definition log_push (fs : filesystem) (path : string) (pad : list char) (o : Order) : filesystem :=
  fwrite_append fs path (encode_order pad o).

(** [current_file_record_count]. *)
Definition current_file_record_count (fs : filesystem) (q : LogBackedOrderQueue) : Z :=
  Z.of_nat (length (contents fs (log_path_ q))) / Z.of_nat sizeof_Order.

(** The two accessors. *)
Definition write_offset (fs : filesystem) (q : LogBackedOrderQueue) : Z := current_file_record_count fs q.
Definition consumer_offset (q : LogBackedOrderQueue) : Z := consumer_offset_ q.

(** One turn of the [for (;;)] of [pop]. *)
Inductive poll_result :=
  | Got (out : Order)      (* [return true] *)
  | Finished               (* [return false] *)
  | Retry.                 (* sleep, and again *)

Definition log_poll (fs : filesystem) (q : LogBackedOrderQueue)
    : outcome (filesystem * LogBackedOrderQueue * poll_result) :=
  if consumer_offset_ q <? current_file_record_count fs q then
    match fread_at (contents fs (log_path_ q))
                   (mul64 (consumer_offset_ q) (Z.of_nat sizeof_Order)) sizeof_Order with
    | None => Throw "LogBackedOrderQueue: short read"
    | Some r =>
      let q' := mkLogQueue (log_path_ q) (checkpoint_path_ q) (consumer_offset_ q +ᵤ 1) (log_done_ q) in
      fs' ← write_checkpoint fs q' (consumer_offset_ q');
      Ret (fs', q', Got (decode_order r))
    end
  else if log_done_ q then Ret (fs, q, Finished)
  else Ret (fs, q, Retry).

(** [shutdown]. *)
Definition log_shutdown (q : LogBackedOrderQueue) : LogBackedOrderQueue :=
  mkLogQueue (log_path_ q) (checkpoint_path_ q) (consumer_offset_ q) true.

(** File names: the log is never a checkpoint, and consumers have their own. *)
Lemma append_inj_l (p a b : string) : p +:+ a = p +:+ b -> a = b.
Proof. induction p as [|c p IH]; simpl; [done|]. intros [= H]. auto. Qed.

Lemma list_ascii_of_string_inj (a b : string) :
  String.list_ascii_of_string a = String.list_ascii_of_string b -> a = b.
Proof.
  intros H. by rewrite <-(String.string_of_list_ascii_of_string a), H,
    String.string_of_list_ascii_of_string.
Qed.

Lemma append_inj_r (p a b : string) : a +:+ p = b +:+ p -> a = b.
Proof.
  intros H%(f_equal String.list_ascii_of_string). rewrite !list_ascii_of_string_app in H.
  by apply app_inv_tail, list_ascii_of_string_inj in H.
Qed.

Lemma log_path_checkpoint base base' id : log_path base <> checkpoint_path base' id.
Proof. unfold log_path, checkpoint_path. differ_in_last. Qed.

Lemma checkpoint_path_inj base id id' : checkpoint_path base id = checkpoint_path base id' -> id = id'.
Proof.
  unfold checkpoint_path. intros H%append_inj_l%append_inj_r.
  repeat case_decide; subst; try done. by injection H.
Qed.

(** ** One log, its producers and one of its consumers *)

Record log_system := mkLogSystem { ls_fs : filesystem; ls_queue : LogBackedOrderQueue }.

Section system.
Context (base_path consumer_id : string).

Definition log_init : log_system :=
  mkLogSystem (set_contents (mkFS ∅ ∅) (log_path base_path) [])
    (mkLogQueue (log_path base_path) (checkpoint_path base_path consumer_id) 0 false).

(** The objects pushed are well typed: every field is in the range of its C++
    type, and the six padding bytes are whatever they are. *)
Inductive log_step (s : log_system) : option event -> log_system -> Prop :=
  | log_step_push pad o :
      length pad = 6%nat -> order_wt o -> valid_double (price o) ->
      log_step s (Some (Pushed o))
        (mkLogSystem (log_push (ls_fs s) (log_path base_path) pad o) (ls_queue s))
  | log_step_pop fs' q' o :
      log_poll (ls_fs s) (ls_queue s) = Ret (fs', q', Got o) ->
      log_step s (Some (Popped o)) (mkLogSystem fs' q')
  | log_step_drained fs' q' :
      log_poll (ls_fs s) (ls_queue s) = Ret (fs', q', Finished) ->
      log_step s (Some Drained) (mkLogSystem fs' q')
  | log_step_retry fs' q' :
      log_poll (ls_fs s) (ls_queue s) = Ret (fs', q', Retry) ->
      log_step s None (mkLogSystem fs' q')
  | log_step_shutdown :
      log_step s (Some ShutDown) (mkLogSystem (ls_fs s) (log_shutdown (ls_queue s)))
  | log_step_other path bs :           (* another process, another file *)
      path <> log_path base_path -> path <> checkpoint_path base_path consumer_id ->
      log_step s None (mkLogSystem (set_contents (ls_fs s) path bs) (ls_queue s))
  | log_step_restart fs' q' :          (* the consumer died between two calls *)
      log_done_ (ls_queue s) = false ->
      new_LogBackedOrderQueue (ls_fs s) base_path consumer_id = Ret (fs', q') ->
      log_step s None (mkLogSystem fs' q').

(** The log is the records of every order pushed; the consumer's offset, on disk
    and in memory, is the number of orders popped. *)
Record log_sim (s : log_system) (f : fifo) : Prop := {
  lsim_denied : denied (ls_fs s) = ∅;
  lsim_path : log_path_ (ls_queue s) = log_path base_path;
  lsim_checkpoint : checkpoint_path_ (ls_queue s) = checkpoint_path base_path consumer_id;
  lsim_records : exists rs, contents (ls_fs s) (log_path base_path) = concat rs /\
    all_of_size sizeof_Order rs /\ length rs = total f /\
    decode_order <$> drop (Z.to_nat (consumer_offset_ (ls_queue s))) rs = items f;
  lsim_offset : 0 <= consumer_offset_ (ls_queue s) <= Z.of_nat (total f);
  lsim_saved : load_offset (ls_fs s) (checkpoint_path base_path consumer_id) =
               consumer_offset_ (ls_queue s);
  lsim_closed : closed f = log_done_ (ls_queue s)
}.

Lemma log_init_sim : log_sim log_init fifo_empty.
Proof.
  split; try done.
  - exists []. split_and!; try done; [|constructor].
    unfold log_init. cbn [ls_fs]. apply contents_set_eq.
  - unfold log_init. cbn [ls_fs]. rewrite load_offset_set_ne by apply log_path_checkpoint.
    done.
Qed.

Lemma log_record_count s f :
  log_sim s f -> current_file_record_count (ls_fs s) (ls_queue s) = Z.of_nat (total f).
Proof.
  intros [_ Hp _ (rs & Hc & Hsz & Hlen & _) _ _ _]. unfold current_file_record_count.
  rewrite Hp, Hc, record_count, Hlen; [done|unfold sizeof_Order; lia|done].
Qed.

(** A poll of a log of the records [rs], and perhaps the beginning of another,
    whatever is in the checkpoint file. *)
Lemma log_poll_any fs q rs rest :
  contents fs (log_path_ q) = concat rs ++ rest -> all_of_size sizeof_Order rs ->
  (length rest < sizeof_Order)%nat -> 0 <= consumer_offset_ q <= Z.of_nat (length rs) ->
  Z.of_nat (length rs) * Z.of_nat sizeof_Order < 2 ^ 63 ->
  log_poll fs q =
    match rs !! Z.to_nat (consumer_offset_ q) with
    | Some r =>
      if decide (checkpoint_path_ q ∈ denied fs) then Throw "LogBackedOrderQueue: cannot write"
      else Ret (set_contents fs (checkpoint_path_ q) (le_encode sizeof_u64 (consumer_offset_ q + 1)),
           mkLogQueue (log_path_ q) (checkpoint_path_ q) (consumer_offset_ q + 1) (log_done_ q),
           Got (decode_order r))
    | None => Ret (fs, q, if log_done_ q then Finished else Retry)
    end.
Proof.
  intros Hc Hsz Hrest Hoff Hr. unfold log_poll, current_file_record_count.
  assert (sizeof_Order = 64%nat) as Hso by done.
  rewrite Hc, record_count_rest by done. set (off := consumer_offset_ q) in *.
  destruct (rs !! Z.to_nat off) as [r|] eqn:Hr0.
  - apply lookup_lt_Some in Hr0 as Hlt.
    destruct (Z.ltb_spec off (Z.of_nat (length rs))); [|lia].
    unfold mul64. rewrite wrap64_small by (unfold u64; rewrite modulus64_val; lia).
    pose proof (fread_record_rest _ rs rest (Z.to_nat off) r Hsz Hr0) as Hread.
    rewrite Z2Nat.id in Hread by lia. rewrite Hread.
    unfold write_checkpoint. cbn [checkpoint_path_ consumer_offset_]. case_decide as Hden.
    + by rewrite store_offset_refused.
    + rewrite store_offset_eq by done. cbn [mbind outcome_bind].
      by rewrite add64_small by (rewrite modulus64_val; lia).
  - apply lookup_ge_None in Hr0. destruct (Z.ltb_spec off (Z.of_nat (length rs))); [lia|].
    by destruct (log_done_ q).
Qed.

(** The same when no open is refused. *)
Lemma log_poll_rest fs q rs rest :
  denied fs = ∅ -> contents fs (log_path_ q) = concat rs ++ rest -> all_of_size sizeof_Order rs ->
  (length rest < sizeof_Order)%nat -> 0 <= consumer_offset_ q <= Z.of_nat (length rs) ->
  Z.of_nat (length rs) * Z.of_nat sizeof_Order < 2 ^ 63 ->
  log_poll fs q =
    match rs !! Z.to_nat (consumer_offset_ q) with
    | Some r =>
      Ret (set_contents fs (checkpoint_path_ q) (le_encode sizeof_u64 (consumer_offset_ q + 1)),
           mkLogQueue (log_path_ q) (checkpoint_path_ q) (consumer_offset_ q + 1) (log_done_ q),
           Got (decode_order r))
    | None => Ret (fs, q, if log_done_ q then Finished else Retry)
    end.
Proof.
  intros Hden Hc Hsz Hrest Hoff Hr. rewrite (log_poll_any fs q rs rest) by done.
  destruct (rs !! _); [|done]. by rewrite decide_False by (rewrite Hden; set_solver).
Qed.

Lemma log_poll_eq fs q rs :
  denied fs = ∅ -> contents fs (log_path_ q) = concat rs -> all_of_size sizeof_Order rs ->
  0 <= consumer_offset_ q <= Z.of_nat (length rs) ->
  Z.of_nat (length rs) * Z.of_nat sizeof_Order < 2 ^ 63 ->
  log_poll fs q =
    match rs !! Z.to_nat (consumer_offset_ q) with
    | Some r =>
      Ret (set_contents fs (checkpoint_path_ q) (le_encode sizeof_u64 (consumer_offset_ q + 1)),
           mkLogQueue (log_path_ q) (checkpoint_path_ q) (consumer_offset_ q + 1) (log_done_ q),
           Got (decode_order r))
    | None => Ret (fs, q, if log_done_ q then Finished else Retry)
    end.
Proof.
  intros Hden Hc Hsz Hoff Hr. apply (log_poll_rest fs q rs []); try done; [by rewrite app_nil_r|].
  unfold sizeof_Order. simpl. lia.
Qed.

(** A poll of a log of whole records, on any disk. *)
Lemma log_poll_whole fs q rs :
  contents fs (log_path_ q) = concat rs -> all_of_size sizeof_Order rs ->
  0 <= consumer_offset_ q <= Z.of_nat (length rs) ->
  Z.of_nat (length rs) * Z.of_nat sizeof_Order < 2 ^ 63 ->
  log_poll fs q =
    match rs !! Z.to_nat (consumer_offset_ q) with
    | Some r =>
      if decide (checkpoint_path_ q ∈ denied fs) then Throw "LogBackedOrderQueue: cannot write"
      else Ret (set_contents fs (checkpoint_path_ q) (le_encode sizeof_u64 (consumer_offset_ q + 1)),
           mkLogQueue (log_path_ q) (checkpoint_path_ q) (consumer_offset_ q + 1) (log_done_ q),
           Got (decode_order r))
    | None => Ret (fs, q, if log_done_ q then Finished else Retry)
    end.
Proof.
  intros Hc Hsz Hoff Hr. apply (log_poll_any fs q rs []); try done; [by rewrite app_nil_r|].
  unfold sizeof_Order. simpl. lia.
Qed.

(** The three outcomes of a poll. *)
Lemma log_poll_cases s f :
  log_sim s f -> Z.of_nat (total f) * Z.of_nat sizeof_Order < 2 ^ 63 ->
  match items f with
  | o :: rest =>
    exists s', log_poll (ls_fs s) (ls_queue s) = Ret (ls_fs s', ls_queue s', Got o) /\
      log_sim s' (mkFifo rest (closed f) (late f) (total f))
  | [] =>
    log_poll (ls_fs s) (ls_queue s) =
      Ret (ls_fs s, ls_queue s, if closed f then Finished else Retry)
  end.
Proof.
  intros [Hden Hp Hcp (rs & Hc & Hsz & Hlen & Hitems) Hoff Hsaved Hcl] Hr.
  assert (sizeof_Order = 64%nat) as Hso by done.
  rewrite (log_poll_eq _ _ rs) by (done || (rewrite Hp; done) || lia).
  set (off := consumer_offset_ (ls_queue s)) in *.
  destruct (rs !! Z.to_nat off) as [r|] eqn:Hr0.
  - apply lookup_lt_Some in Hr0 as Hlt. rewrite (drop_S _ _ _ Hr0) in Hitems. rewrite <-Hitems.
    cbn [fmap list_fmap].
    eexists (mkLogSystem _ _). cbn [ls_fs ls_queue]. split; [done|].
    split; cbn [ls_fs ls_queue log_path_ checkpoint_path_ consumer_offset_ log_done_
                items closed late total]; try done; [| |].
    + exists rs. split_and!; try done.
      * rewrite Hcp, <-Hc. apply contents_set_ne. intros E. symmetry in E.
        by apply log_path_checkpoint in E.
      * replace (Z.to_nat (off + 1)) with (S (Z.to_nat off)) by lia. done.
    + lia.
    + rewrite Hcp. apply load_store_offset; [rewrite Hden; set_solver|].
      unfold u64. rewrite modulus64_val. lia.
  - apply lookup_ge_None in Hr0. rewrite (drop_ge rs) in Hitems by lia. cbn in Hitems. rewrite <-Hitems.
    by rewrite Hcl.
Qed.

Lemma log_step_sim_push s f pad o :
  log_sim s f -> length pad = 6%nat -> order_wt o -> valid_double (price o) ->
  exists f', fifo_step f (Pushed o) = Some f' /\
    log_sim (mkLogSystem (log_push (ls_fs s) (log_path base_path) pad o) (ls_queue s)) f'.
Proof.
  intros [Hden Hp Hcp (rs & Hc & Hsz & Hlen & Hitems) Hoff Hsaved Hcl] Hpad Hwt Hv.
  eexists. split; [reflexivity|].
  split; cbn [ls_fs ls_queue items closed late total]; try done.
  - exists (rs ++ [encode_order pad o]). split_and!.
    + unfold log_push, fwrite_append. rewrite contents_set_eq, Hc, concat_app. simpl.
      by rewrite app_nil_r.
    + apply Forall_app. split; [done|]. constructor; [|constructor].
      apply encode_order_length; [done|]. apply Hwt.
    + rewrite length_app, Hlen. simpl. lia.
    + rewrite drop_app_le by lia. rewrite fmap_app, Hitems. f_equal.
      by rewrite fmap_cons, fmap_nil, decode_encode_order.
  - lia.
  - unfold log_push, fwrite_append. by rewrite load_offset_set_ne by apply log_path_checkpoint.
Qed.

Lemma log_step_sim_restart s f fs' q' :
  log_sim s f -> log_done_ (ls_queue s) = false ->
  new_LogBackedOrderQueue (ls_fs s) base_path consumer_id = Ret (fs', q') ->
  log_sim (mkLogSystem fs' q') f /\ consumer_offset_ q' = consumer_offset_ (ls_queue s).
Proof.
  intros [Hden Hp Hcp (rs & Hc & Hrs) Hoff Hsaved Hcl] Hnd.
  unfold new_LogBackedOrderQueue, fopen_append. cbn [log_path_ checkpoint_path_].
  rewrite decide_False by (rewrite Hden; set_solver). intros [= <- <-].
  assert (load_offset (set_contents (ls_fs s) (log_path base_path) (contents (ls_fs s) (log_path base_path)))
            (checkpoint_path base_path consumer_id) = consumer_offset_ (ls_queue s)) as Hload.
  { rewrite load_offset_set_ne by apply log_path_checkpoint. done. }
  unfold read_checkpoint. cbn [checkpoint_path_]. rewrite Hload. split; [|done].
  split; cbn [ls_fs ls_queue log_path_ checkpoint_path_ consumer_offset_ log_done_]; try done.
  - exists rs. rewrite contents_set_eq. done.
  - by rewrite Hcl.
Qed.

Definition log_range (n : nat) : Prop := Z.of_nat n * Z.of_nat sizeof_Order < 2 ^ 63.

Lemma log_range_down n m : (n <= m)%nat -> log_range m -> log_range n.
Proof. unfold log_range, sizeof_Order. lia. Qed.

Lemma log_sim_other s f path bs :
  log_sim s f -> path <> log_path base_path -> path <> checkpoint_path base_path consumer_id ->
  log_sim (mkLogSystem (set_contents (ls_fs s) path bs) (ls_queue s)) f.
Proof.
  intros [Hden ? ? (rs & Hc & Hrs) ? Hsaved ?] H1 H2. split; try done.
  - exists rs. cbn [ls_fs]. by rewrite contents_set_ne.
  - cbn [ls_fs]. by rewrite load_offset_set_ne.
Qed.

Lemma log_silent s f s' : log_sim s f -> log_range (total f) -> log_step s None s' -> log_sim s' f.
Proof.
  intros Hsim Hr Hstep. pose proof (log_poll_cases s f Hsim Hr) as Hpoll.
  inversion Hstep as [| | |fs' q' Hp| |path bs H1 H2|fs' q' Hd Hnew]; subst.
  - destruct (items f); [|destruct Hpoll as (? & Hpoll & _)]; rewrite Hpoll in Hp; [|done].
    destruct (closed f); simplify_eq. by destruct s.
  - by apply log_sim_other.
  - by eapply log_step_sim_restart.
Qed.

Lemma log_event s f e s' :
  log_sim s f -> log_range (total f + length (pushed [e])) -> log_step s (Some e) s' ->
  exists f', fifo_step f e = Some f' /\ log_sim s' f'.
Proof.
  intros Hsim Hr Hstep.
  pose proof (log_poll_cases s f Hsim (log_range_down _ _ (Nat.le_add_r _ _) Hr)) as Hpoll.
  inversion Hstep as [pad o Hpad Hwt Hv|fs' q' o Hp|fs' q' Hp| | | |]; subst.
  - by apply log_step_sim_push.
  - destruct (items f) as [|x rest] eqn:Hi; [rewrite Hpoll in Hp; by destruct (closed f)|].
    destruct Hpoll as (s1 & Hpoll & Hs1). rewrite Hpoll in Hp. simplify_eq.
    simpl. rewrite Hi, bool_decide_eq_true_2 by done. eexists. split; [done|]. by destruct s1.
  - destruct (items f) as [|x rest] eqn:Hi;
      [|destruct Hpoll as (s1 & Hpoll & _); rewrite Hpoll in Hp; done].
    rewrite Hpoll in Hp. destruct (closed f) eqn:Hcl; simplify_eq.
    exists f. simpl. rewrite Hcl, Hi. split; [done|]. by destruct s.
  - eexists. split; [done|]. destruct Hsim. by split.
Qed.

End system.

#[global] Instance log_backed_order_queue (base_path consumer_id : string) : OrderQueue log_system := {|
  q_init := log_init base_path consumer_id;
  q_step := log_step base_path consumer_id;
  q_sim := log_sim base_path consumer_id;
  q_range := log_range;
  q_range_down := log_range_down;
  q_init_sim := log_init_sim base_path consumer_id;
  q_silent := log_silent base_path consumer_id;
  q_event := log_event base_path consumer_id
|}.

(** *** Scripts of steps *)

Inductive log_move :=
  | LogPush (o : Order)
  | LogPoll
  | LogShutdown
  | LogRestart.

Definition log_exec (base_path consumer_id : string) (s : log_system) (m : log_move)
    : option (option event * log_system) :=
  match m with
  | LogPush o =>
    if decide (order_wt o /\ valid_double (price o)) then
      Some (Some (Pushed o),
            mkLogSystem (log_push (ls_fs s) (log_path base_path) (replicate 6 NUL) o) (ls_queue s))
    else None
  | LogPoll =>
    match log_poll (ls_fs s) (ls_queue s) with
    | Ret (fs', q', r) =>
      Some (match r with Got o => Some (Popped o) | Finished => Some Drained | Retry => None end,
            mkLogSystem fs' q')
    | _ => None
    end
  | LogShutdown => Some (Some ShutDown, mkLogSystem (ls_fs s) (log_shutdown (ls_queue s)))
  | LogRestart =>
    if log_done_ (ls_queue s) then None
    else match new_LogBackedOrderQueue (ls_fs s) base_path consumer_id with
    | Ret (fs', q') => Some (None, mkLogSystem fs' q')
    | _ => None
    end
  end.

Lemma log_exec_sound base_path consumer_id s m l s' :
  log_exec base_path consumer_id s m = Some (l, s') -> log_step base_path consumer_id s l s'.
Proof.
  intros H. destruct m; simpl in H.
  - case_decide as Hd; simplify_eq. destruct Hd. by apply log_step_push.
  - destruct (log_poll _ _) as [[[fs' q'] r]| | |] eqn:Hp; simplify_eq.
    destruct r; by constructor.
  - simplify_eq. constructor.
  - destruct (log_done_ _) eqn:Hd; [done|].
    destruct (new_LogBackedOrderQueue _ _ _) as [[fs' q']| | |] eqn:Hn; simplify_eq. by constructor.
Qed.

Lemma log_script_trace base id ms tr s :
  run_script (log_exec base id) (log_init base id) ms = Some (tr, s) ->
  trace (log_step base id) (log_init base id) tr s.
Proof. apply (run_script_trace _ _ _ []); [apply log_exec_sound|constructor]. Qed.

Definition log_after (base id : string) (ms : list log_move) : log_system :=
  match run_script (log_exec base id) (log_init base id) ms with
  | Some (_, s) => s
  | None => log_init base id
  end.

(** A poll touches no file but the checkpoint. *)
Lemma log_poll_disk fs q fs' q' r :
  log_poll fs q = Ret (fs', q', r) ->
  fs' = fs \/ exists bs, fs' = set_contents fs (checkpoint_path_ q) bs.
Proof.
  intros Hpoll. unfold log_poll in Hpoll.
  destruct (_ <? _); [|destruct (log_done_ q); simplify_eq; by left].
  destruct (fread_at _ _ _); [|done].
  apply bind_Ret in Hpoll as (fs3 & Hw & [= <- _ _]). unfold write_checkpoint in Hw.
  cbn [checkpoint_path_] in Hw. destruct (store_offset _ _ _) as [fs4|] eqn:Hst; [|done].
  injection Hw as <-. right. unfold store_offset, store_offset_states, fopen_write in Hst.
  case_decide; [done|]. cbn in Hst. injection Hst as <-. eexists.
  unfold fwrite_append, set_contents. cbn. by rewrite insert_insert_eq.
Qed.

Lemma log_poll_frame fs q fs' q' r p :
  log_poll fs q = Ret (fs', q', r) -> p <> checkpoint_path_ q -> files fs' !! p = files fs !! p.
Proof.
  intros [->|[bs ->]]%log_poll_disk Hne; [done|]. cbn. by rewrite lookup_insert_ne.
Qed.

Lemma log_poll_denied fs q fs' q' r : log_poll fs q = Ret (fs', q', r) -> denied fs' = denied fs.
Proof. by intros [->|[bs ->]]%log_poll_disk. Qed.

(** *** A consumer alone with its log *)

(** The orders returned in [polls] turns of the loop of [pop]. *)
Fixpoint log_drain (polls : nat) (fs : filesystem) (q : LogBackedOrderQueue)
    : outcome (filesystem * LogBackedOrderQueue * list Order) :=
  match polls with
  | O => Ret (fs, q, [])
  | S polls' =>
    '(fs1, q1, r) ← log_poll fs q;
    '(fs2, q2, os) ← log_drain polls' fs1 q1;
    Ret (fs2, q2, match r with Got o => o :: os | _ => os end)
  end.

Lemma log_drain_items base id polls s f :
  log_sim base id s f -> log_range (total f) -> closed f = false -> (length (items f) <= polls)%nat ->
  exists s', log_drain polls (ls_fs s) (ls_queue s) = Ret (ls_fs s', ls_queue s', items f).
Proof.
  revert s f. induction polls as [|polls IH]; intros s f Hsim Hr Hc Hlen; cbn [log_drain].
  { exists s. destruct (items f); [done|simpl in Hlen; lia]. }
  pose proof (log_poll_cases base id s f Hsim Hr) as Hpoll.
  destruct (items f) as [|o rest] eqn:Hi.
  - rewrite Hpoll, Hc. cbn [mbind outcome_bind].
    destruct (IH s f Hsim Hr Hc) as (s' & Hd); [rewrite Hi; simpl; lia|].
    rewrite Hd. cbn. exists s'. by rewrite Hi.
  - destruct Hpoll as (s1 & -> & Hsim1). cbn [mbind outcome_bind].
    destruct (IH s1 _ Hsim1) as (s' & Hd); [done|done|simpl in *; lia|].
    rewrite Hd. cbn. by exists s'.
Qed.

(** Opening a log of [rs] for the first time under this consumer id. *)
Lemma log_open_sim base id fs rs :
  denied fs = ∅ -> contents fs (log_path base) = concat rs -> all_of_size sizeof_Order rs ->
  load_offset fs (checkpoint_path base id) = 0 ->
  exists s, new_LogBackedOrderQueue fs base id = Ret (ls_fs s, ls_queue s) /\
    log_sim base id s (mkFifo (decode_order <$> rs) false 0 (length rs)).
Proof.
  intros Hden Hc Hsz Hload. unfold new_LogBackedOrderQueue, fopen_append. cbn [log_path_].
  rewrite decide_False by (rewrite Hden; set_solver).
  exists (mkLogSystem (set_contents fs (log_path base) (contents fs (log_path base)))
            (mkLogQueue (log_path base) (checkpoint_path base id) 0 false)).
  unfold read_checkpoint. cbn [checkpoint_path_].
  rewrite load_offset_set_ne, Hload by apply log_path_checkpoint. split; [done|].
  split; cbn [ls_fs ls_queue log_path_ checkpoint_path_ consumer_offset_ items closed late total log_done_];
    try done.
  - exists rs. rewrite contents_set_eq. done.
  - lia.
  - by rewrite load_offset_set_ne by apply log_path_checkpoint.
Qed.

(** ** Crashes inside a pop *)

(** The states of the disk during a turn of [pop]: a crash leaves one of them. *)
Definition poll_disk_states (fs : filesystem) (q : LogBackedOrderQueue) : list filesystem :=
  if consumer_offset_ q <? current_file_record_count fs q
  then match store_offset_states fs (checkpoint_path_ q) (consumer_offset_ q +ᵤ 1) with
       | Some fss => fss
       | None => [fs]
       end
  else [fs].

(** The offset at which a consumer restarted on a disk resumes. *)
Definition restart_offset (base_path consumer_id : string) (fs : filesystem) : outcome Z :=
  (fun r => consumer_offset_ r.2) <$> new_LogBackedOrderQueue fs base_path consumer_id.

Lemma restart_offset_eq base id fs :
  log_path base ∉ denied fs ->
  restart_offset base id fs = Ret (load_offset fs (checkpoint_path base id)).
Proof.
  intros Hd. unfold restart_offset, new_LogBackedOrderQueue, fopen_append.
  cbn [log_path_]. rewrite decide_False by done. cbn. unfold read_checkpoint. cbn [checkpoint_path_].
  by rewrite load_offset_set_ne by apply log_path_checkpoint.
Qed.

Lemma load_offset_empty fs p : load_offset (set_contents fs p []) p = 0.
Proof.
  unfold load_offset, fopen_read. case_decide; [done|]. cbn [files set_contents].
  by rewrite lookup_insert_eq.
Qed.

(** The consumer's position in every reachable state. *)
Lemma log_trace_sim base id tr s :
  trace (log_step base id) (log_init base id) tr s -> log_range (length (pushed tr)) ->
  exists f, fifo_run fifo_empty tr = Some f /\ log_sim base id s f.
Proof. apply (trace_simulates (H := log_backed_order_queue base id)). Qed.

Lemma log_sim_offset base id tr s f :
  fifo_run fifo_empty tr = Some f -> log_sim base id s f ->
  consumer_offset_ (ls_queue s) = Z.of_nat (length (popped tr)).
Proof.
  intros Hrun Hsim. destruct (fifo_run_items _ _ Hrun) as [Hi Ht].
  destruct (lsim_records _ _ _ _ Hsim) as (rs & _ & _ & Hlen & Hitems).
  pose proof (lsim_offset _ _ _ _ Hsim).
  apply (f_equal length) in Hitems, Hi. rewrite length_fmap, length_drop in Hitems.
  rewrite length_app in Hi. lia.
Qed.

(** ** Properties *)

(** C19: whatever the interleaving of appends, polls, activity on other files and
    restarts of the consumer between two of its calls, the orders popped are a
    prefix of the orders pushed, none lost and none delivered twice; the offset on
    disk, from which a restart resumes, and [consumer_offset()] are the number of
    orders popped so far, and [write_offset()] is the number of orders pushed. *)
Theorem log_exactly_once (base id : string) (tr : list event) (s : log_system) :
  trace (log_step base id) (log_init base id) tr s -> log_range (length (pushed tr)) ->
  popped tr `prefix_of` pushed tr /\
  restart_offset base id (ls_fs s) = Ret (Z.of_nat (length (popped tr))) /\
  consumer_offset (ls_queue s) = Z.of_nat (length (popped tr)) /\
  write_offset (ls_fs s) (ls_queue s) = Z.of_nat (length (pushed tr)).
Proof.
  intros Htr Hr. destruct (log_trace_sim _ _ _ _ Htr Hr) as (f & Hrun & Hsim).
  pose proof (log_sim_offset _ _ _ _ _ Hrun Hsim) as Hoff. split_and!.
  - by apply (popped_prefix (H := log_backed_order_queue base id) tr s).
  - rewrite restart_offset_eq by (rewrite (lsim_denied _ _ _ _ Hsim); set_solver).
    by rewrite (lsim_saved _ _ _ _ Hsim), Hoff.
  - done.
  - unfold write_offset. rewrite (log_record_count _ _ _ _ Hsim). by destruct (fifo_run_items _ _ Hrun) as [_ ->].
Qed.

(** Two orders, one of them read before a restart and one after. *)
Definition restart_script : list log_move :=
  [LogPush default_order; LogPush default_order; LogPoll; LogRestart; LogPoll].

Lemma log_exactly_once_witness :
  [default_order; default_order] `prefix_of` [default_order; default_order] /\
  restart_offset "s0" "r0" (ls_fs (log_after "s0" "r0" restart_script)) = Ret 2 /\
  consumer_offset (ls_queue (log_after "s0" "r0" restart_script)) = 2 /\
  write_offset (ls_fs (log_after "s0" "r0" restart_script)) (ls_queue (log_after "s0" "r0" restart_script)) = 2.
Proof.
  apply (log_exactly_once "s0" "r0"
           [Pushed default_order; Pushed default_order; Popped default_order; Popped default_order]
           (log_after "s0" "r0" restart_script)).
  - apply (log_script_trace _ _ restart_script). vm_compute. reflexivity.
  - vm_compute. reflexivity.
Defined.

(** C33: a crash inside a [pop] that has an order to deliver leaves the disk in one
    of three states.  Restarted from them the consumer resumes at the order it
    was reading (it is delivered once), at offset 0 (the checkpoint was
    truncated and not yet written: the whole log is replayed), or past the order
    (the checkpoint was written before the order was returned: it is lost). *)
Theorem pop_crash_offsets (base id : string) (tr : list event) (s : log_system) :
  trace (log_step base id) (log_init base id) tr s -> log_range (length (pushed tr)) ->
  (length (popped tr) < length (pushed tr))%nat ->
  let n := Z.of_nat (length (popped tr)) in
  restart_offset base id <$> poll_disk_states (ls_fs s) (ls_queue s) = [Ret n; Ret 0; Ret (n + 1)].
Proof.
  intros Htr Hr Hlt n. destruct (log_trace_sim _ _ _ _ Htr Hr) as (f & Hrun & Hsim).
  pose proof (log_sim_offset _ _ _ _ _ Hrun Hsim) as Hoff.
  pose proof (log_record_count _ _ _ _ Hsim) as Hcount.
  destruct (fifo_run_items _ _ Hrun) as [_ Htot].
  destruct Hsim as [Hden _ Hcp _ _ Hsaved _].
  unfold poll_disk_states. rewrite Hcount, Hoff.
  destruct (Z.ltb_spec (Z.of_nat (length (popped tr))) (Z.of_nat (total f))); [|lia].
  unfold store_offset_states, fopen_write. rewrite Hcp, decide_False by (rewrite Hden; set_solver).
  cbn [mbind option_bind]. rewrite !fmap_cons, fmap_nil.
  rewrite !restart_offset_eq by (cbn; rewrite Hden; set_solver).
  rewrite Hsaved, Hoff, load_offset_empty. unfold fwrite_append. rewrite contents_set_eq.
  assert (n + 1 < modulus64).
  { unfold log_range, sizeof_Order in Hr. rewrite modulus64_val. subst n. lia. }
  rewrite add64_small by lia. cbn [app].
  rewrite load_store_offset; [done|cbn; rewrite Hden; set_solver|unfold u64; lia].
Qed.

Lemma pop_crash_offsets_witness :
  let s := log_after "s0" "r0" [LogPush default_order; LogPush default_order; LogPoll] in
  restart_offset "s0" "r0" <$> poll_disk_states (ls_fs s) (ls_queue s) = [Ret 1; Ret 0; Ret (1 + 1)].
Proof.
  apply (pop_crash_offsets "s0" "r0"
           [Pushed default_order; Pushed default_order; Popped default_order]).
  - apply (log_script_trace _ _ [LogPush default_order; LogPush default_order; LogPoll]).
    vm_compute. reflexivity.
  - vm_compute. reflexivity.
  - simpl. lia.
Defined.

(** Consumers of one log do not disturb each other: a poll of one leaves the
    log and the saved offset of every other consumer as they are. *)
Theorem consumers_independent (base id id' : string) (fs fs1 fs2 : filesystem)
    (q q' : LogBackedOrderQueue) (r : poll_result) :
  new_LogBackedOrderQueue fs base id = Ret (fs1, q) -> id <> id' ->
  log_poll fs1 q = Ret (fs2, q', r) ->
  contents fs2 (log_path base) = contents fs1 (log_path base) /\
  load_offset fs2 (checkpoint_path base id') = load_offset fs1 (checkpoint_path base id').
Proof.
  unfold new_LogBackedOrderQueue. intros Hnew Hid Hpoll.
  destruct (fopen_append fs _) as [fs'|]; [|done]. cbn in Hnew. injection Hnew as <- <-.
  pose proof (fun p => log_poll_frame _ _ _ _ _ p Hpoll) as Hframe. cbn [checkpoint_path_] in Hframe.
  split.
  - unfold contents. rewrite Hframe; [done|]. apply log_path_checkpoint.
  - unfold load_offset, fopen_read. rewrite (log_poll_denied _ _ _ _ _ Hpoll), Hframe; [done|].
    intros E%checkpoint_path_inj. congruence.
Qed.
