(* ===== verification/TradeLog.v ===== *)
(** * The trade log ([include/trade_log.hpp]) and its subscriber
      ([src/trades_subscriber_main.cpp])

    The append-only file of [Trade] records the active engine publishes to, and
    the cursors that read it. *)

From S2P Require Import Prelude Double Order Sharding Bytes Files.

(** [TradeLog]: the state is the path. *)
Definition trades_path (base_path : string) : string := base_path +:+ "_trades.log".

Definition new_TradeLog (fs : filesystem) (base_path : string) : outcome (filesystem * string) :=
  match fopen_append fs (trades_path base_path) with
  | None => Throw "TradeLog: cannot open"
  | Some fs' => Ret (fs', trades_path base_path)
  end.

Definition publish (fs : filesystem) (path : string) (t : Trade) : filesystem :=
  fwrite_append fs path (encode_trade t).

(** [TradeLog::Subscriber]. *)
Record Subscriber := mkSubscriber {
  sub_log_path_ : string;
  sub_checkpoint_path_ : string;
  offset_ : Z
}.

Definition sub_checkpoint_path (base_path subscriber_id : string) : string :=
  base_path +:+ "_trades." +:+ subscriber_id +:+ ".offset".

Definition sub_read_checkpoint (fs : filesystem) (s : Subscriber) : Z :=
  load_offset fs (sub_checkpoint_path_ s).

Definition sub_write_checkpoint (fs : filesystem) (s : Subscriber) (offset : Z) : outcome filesystem :=
  match store_offset fs (sub_checkpoint_path_ s) offset with
  | Some fs' => Ret fs'
  | None => Throw "TradeLog::Subscriber: cannot write"
  end.

Definition new_Subscriber (fs : filesystem) (base_path subscriber_id : string)
    : outcome (filesystem * Subscriber) :=
  let s := mkSubscriber (trades_path base_path) (sub_checkpoint_path base_path subscriber_id) 0 in
  match fopen_append fs (sub_log_path_ s) with
  | None => Throw "TradeLog::Subscriber: cannot open"
  | Some fs' => Ret (fs', mkSubscriber (sub_log_path_ s) (sub_checkpoint_path_ s) (sub_read_checkpoint fs' s))
  end.

(** [try_next]: [None] is [return false]. *)
Definition try_next (fs : filesystem) (s : Subscriber) : outcome (filesystem * Subscriber * option Trade) :=
  let available := Z.of_nat (length (contents fs (sub_log_path_ s))) / Z.of_nat sizeof_Trade in
  if available <=? offset_ s then Ret (fs, s, None)
  else
    match fread_at (contents fs (sub_log_path_ s))
                   (mul64 (offset_ s) (Z.of_nat sizeof_Trade)) sizeof_Trade with
    | None => Ret (fs, s, None)
    | Some r =>
      let s' := mkSubscriber (sub_log_path_ s) (sub_checkpoint_path_ s) (offset_ s +ᵤ 1) in
      fs' ← sub_write_checkpoint fs s' (offset_ s');
      Ret (fs', s', Some (decode_trade r))
    end.

(** The states of the disk during a call of [try_next]: a crash leaves one of
    them. *)
Definition next_disk_states (fs : filesystem) (s : Subscriber) : list filesystem :=
  if Z.of_nat (length (contents fs (sub_log_path_ s))) / Z.of_nat sizeof_Trade <=? offset_ s then [fs]
  else match store_offset_states fs (sub_checkpoint_path_ s) (offset_ s +ᵤ 1) with
       | Some fss => fss
       | None => [fs]
       end.

(** The loop of the subscriber program over a quiet log: [polls] turns, with the
    trades printed. *)
Fixpoint subscriber_loop (polls : nat) (fs : filesystem) (s : Subscriber) (seen : list Trade)
    : outcome (filesystem * Subscriber * list Trade) :=
  match polls with
  | O => Ret (fs, s, seen)
  | S polls' =>
    '(fs', s', r) ← try_next fs s;
    subscriber_loop polls' fs' s' (match r with Some t => seen ++ [t] | None => seen end)
  end.

(** ** Facts *)

Lemma trades_path_checkpoint base base' id : trades_path base <> sub_checkpoint_path base' id.
Proof. unfold trades_path, sub_checkpoint_path. differ_in_last. Qed.

(** A disk on which [ts] is the trade log of [base] and [k] trades of it are
    checkpointed as read by [id]. *)
Record subscribed (base id : string) (ts : list Trade) (fs : filesystem) (k : Z) : Prop := {
  sub_denied : denied fs = ∅;
  sub_log : contents fs (trades_path base) = concat (encode_trade <$> ts);
  sub_saved : load_offset fs (sub_checkpoint_path base id) = k
}.

(** The subscriber object at offset [k]. *)
Definition subscriber_at (base id : string) (k : Z) : Subscriber :=
  mkSubscriber (trades_path base) (sub_checkpoint_path base id) k.

Lemma trades_all_of_size ts : all_of_size sizeof_Trade (encode_trade <$> ts).
Proof. apply Forall_fmap, Forall_forall. intros t _. apply encode_trade_length. Qed.

Lemma trades_available ts :
  Z.of_nat (length (concat (encode_trade <$> ts))) / Z.of_nat sizeof_Trade = Z.of_nat (length ts).
Proof.
  rewrite record_count; [by rewrite length_fmap|unfold sizeof_Trade; lia|apply trades_all_of_size].
Qed.

Definition trades_in_range (ts : list Trade) : Prop :=
  Forall trade_wt ts /\ Z.of_nat (length ts) * Z.of_nat sizeof_Trade < 2 ^ 63.

(** A turn on a log of the records [rs], and perhaps the beginning of another,
    whatever is in the checkpoint file. *)
Lemma try_next_any base id rs rest fs k :
  contents fs (trades_path base) = concat rs ++ rest -> all_of_size sizeof_Trade rs ->
  (length rest < sizeof_Trade)%nat -> Z.of_nat (length rs) * Z.of_nat sizeof_Trade < 2 ^ 63 -> 0 <= k ->
  try_next fs (subscriber_at base id k) =
    match rs !! Z.to_nat k with
    | Some r =>
      if decide (sub_checkpoint_path base id ∈ denied fs) then Throw "TradeLog::Subscriber: cannot write"
      else Ret (set_contents fs (sub_checkpoint_path base id) (le_encode sizeof_u64 (k + 1)),
                     subscriber_at base id (k + 1), Some (decode_trade r))
    | None => Ret (fs, subscriber_at base id k, None)
    end.
Proof.
  intros Hlog Hsz Hrest Hrange Hk. assert (sizeof_Trade = 40%nat) as Hst by done.
  unfold try_next. cbn [subscriber_at sub_log_path_ sub_checkpoint_path_ offset_].
  rewrite Hlog, record_count_rest by done. destruct (rs !! Z.to_nat k) as [r|] eqn:Hr.
  - pose proof (lookup_lt_Some _ _ _ Hr) as Hlt. destruct (Z.leb_spec (Z.of_nat (length rs)) k); [lia|].
    unfold mul64. rewrite wrap64_small by (unfold u64; rewrite modulus64_val; lia).
    pose proof (fread_record_rest _ rs rest (Z.to_nat k) r Hsz Hr) as Hread.
    rewrite Z2Nat.id in Hread by lia. rewrite Hread.
    unfold sub_write_checkpoint. cbn [sub_checkpoint_path_ offset_]. case_decide as Hden.
    + by rewrite store_offset_refused.
    + rewrite store_offset_eq by done. cbn [mbind outcome_bind].
      by rewrite add64_small by (rewrite modulus64_val; lia).
  - apply lookup_ge_None in Hr. by destruct (Z.leb_spec (Z.of_nat (length rs)) k); [|lia].
Qed.

(** The same when no open is refused. *)
Lemma try_next_rest base id rs rest fs k :
  denied fs = ∅ -> contents fs (trades_path base) = concat rs ++ rest -> all_of_size sizeof_Trade rs ->
  (length rest < sizeof_Trade)%nat -> Z.of_nat (length rs) * Z.of_nat sizeof_Trade < 2 ^ 63 -> 0 <= k ->
  try_next fs (subscriber_at base id k) =
    match rs !! Z.to_nat k with
    | Some r => Ret (set_contents fs (sub_checkpoint_path base id) (le_encode sizeof_u64 (k + 1)),
                     subscriber_at base id (k + 1), Some (decode_trade r))
    | None => Ret (fs, subscriber_at base id k, None)
    end.
Proof.
  intros Hden Hlog Hsz Hrest Hrange Hk. rewrite (try_next_any base id rs rest) by done.
  destruct (rs !! _); [|done]. by rewrite decide_False by (rewrite Hden; set_solver).
Qed.

(** A turn on a log of [ts], on any disk. *)
Lemma try_next_whole base id ts fs k :
  contents fs (trades_path base) = concat (encode_trade <$> ts) -> trades_in_range ts -> 0 <= k ->
  try_next fs (subscriber_at base id k) =
    match ts !! Z.to_nat k with
    | Some t =>
      if decide (sub_checkpoint_path base id ∈ denied fs) then Throw "TradeLog::Subscriber: cannot write"
      else Ret (set_contents fs (sub_checkpoint_path base id) (le_encode sizeof_u64 (k + 1)),
                     subscriber_at base id (k + 1), Some t)
    | None => Ret (fs, subscriber_at base id k, None)
    end.
Proof.
  intros Hlog [Hwt Hrange] Hk. rewrite (try_next_any base id (encode_trade <$> ts) []);
    [|by rewrite app_nil_r|apply trades_all_of_size|unfold sizeof_Trade; simpl; lia|by rewrite length_fmap|done].
  rewrite list_lookup_fmap. destruct (ts !! Z.to_nat k) as [t|] eqn:Ht; cbn [fmap option_fmap option_map]; [|done].
  by rewrite decode_encode_trade by (by eapply Forall_lookup_1).
Qed.

Lemma try_next_eq base id ts fs k :
  denied fs = ∅ -> contents fs (trades_path base) = concat (encode_trade <$> ts) ->
  trades_in_range ts -> 0 <= k ->
  try_next fs (subscriber_at base id k) =
    match ts !! Z.to_nat k with
    | Some t => Ret (set_contents fs (sub_checkpoint_path base id) (le_encode sizeof_u64 (k + 1)),
                     subscriber_at base id (k + 1), Some t)
    | None => Ret (fs, subscriber_at base id k, None)
    end.
Proof.
  intros Hden Hlog Hr Hk. rewrite (try_next_whole base id ts) by done.
  destruct (ts !! _); [|done]. by rewrite decide_False by (rewrite Hden; set_solver).
Qed.

Lemma try_next_some base id ts fs k t :
  subscribed base id ts fs k -> trades_in_range ts -> 0 <= k -> ts !! Z.to_nat k = Some t ->
  exists fs', try_next fs (subscriber_at base id k) = Ret (fs', subscriber_at base id (k + 1), Some t) /\
    subscribed base id ts fs' (k + 1).
Proof.
  intros [Hden Hlog Hsaved] Hr Hk Ht. rewrite (try_next_eq base id ts), Ht by done.
  eexists. split; [done|]. split; [done| |].
  - rewrite contents_set_ne; [done|]. intros E. symmetry in E. by apply trades_path_checkpoint in E.
  - apply lookup_lt_Some in Ht. destruct Hr as [_ Hr]. unfold sizeof_Trade in Hr.
    apply load_store_offset; [rewrite Hden; set_solver|unfold u64; rewrite modulus64_val; lia].
Qed.

Lemma try_next_none base id ts fs k :
  subscribed base id ts fs k -> Z.of_nat (length ts) <= k ->
  try_next fs (subscriber_at base id k) = Ret (fs, subscriber_at base id k, None).
Proof.
  intros [Hden Hlog Hsaved] Hk. unfold try_next. cbn [subscriber_at sub_log_path_ offset_].
  rewrite Hlog, trades_available. destruct (Z.leb_spec (Z.of_nat (length ts)) k); [done|lia].
Qed.

Lemma subscriber_loop_reads base id ts polls fs k seen :
  subscribed base id ts fs k -> trades_in_range ts -> 0 <= k <= Z.of_nat (length ts) ->
  exists fs', let k' := Z.min (k + Z.of_nat polls) (Z.of_nat (length ts)) in
    subscriber_loop polls fs (subscriber_at base id k) seen =
      Ret (fs', subscriber_at base id k', seen ++ take polls (drop (Z.to_nat k) ts)) /\
    subscribed base id ts fs' k'.
Proof.
  revert fs k seen. induction polls as [|polls IH]; intros fs k seen Hsub Hr Hk.
  { exists fs. cbv zeta. rewrite Z.add_0_r, Z.min_l, app_nil_r by lia. done. }
  cbn [subscriber_loop]. destruct (ts !! Z.to_nat k) as [t|] eqn:Ht.
  - destruct (try_next_some _ _ _ _ _ _ Hsub Hr (proj1 Hk) Ht) as (fs1 & -> & Hsub1).
    cbn [mbind outcome_bind]. apply lookup_lt_Some in Ht as Hlt.
    destruct (IH fs1 (k + 1) (seen ++ [t])) as (fs2 & -> & Hsub2); [done|done|lia|].
    exists fs2. cbv zeta.
    replace (k + Z.of_nat (S polls)) with (k + 1 + Z.of_nat polls) by lia. split; [|done].
    rewrite (drop_S _ _ _ Ht). cbn [take]. rewrite <-app_assoc.
    by replace (Z.to_nat (k + 1)) with (S (Z.to_nat k)) by lia.
  - apply lookup_ge_None in Ht. rewrite (try_next_none base id ts) by (done || lia).
    cbn [mbind outcome_bind].
    destruct (IH fs k seen) as (fs2 & -> & Hsub2); [done|done|lia|]. exists fs2. cbv zeta.
    rewrite !(drop_ge ts), !take_nil by lia.
    rewrite (Z.min_r (k + Z.of_nat (S polls))) by lia. rewrite Z.min_r in Hsub2 |- * by lia. done.
Qed.

Lemma publish_subscribed base id ts t fs k :
  subscribed base id ts fs k -> subscribed base id (ts ++ [t]) (publish fs (trades_path base) t) k.
Proof.
  intros [Hden Hlog Hsaved]. unfold publish, fwrite_append. split; [done| |].
  - rewrite contents_set_eq, Hlog, fmap_app, concat_app, fmap_cons, fmap_nil.
    cbn [concat]. by rewrite app_nil_r.
  - by rewrite load_offset_set_ne by apply trades_path_checkpoint.
Qed.

Lemma publish_all_subscribed base id ts ts' fs k :
  subscribed base id ts fs k ->
  subscribed base id (ts ++ ts') (foldl (fun fs t => publish fs (trades_path base) t) fs ts') k.
Proof.
  revert ts fs. induction ts' as [|t ts' IH]; intros ts fs Hsub; simpl; [by rewrite app_nil_r|].
  rewrite (cons_middle t ts ts'), app_assoc. by apply IH, publish_subscribed.
Qed.

(** ** Properties *)

(** A subscriber with a fresh id, attached to a new trade log after any
    trades were published to it, receives the whole history, every trade once
    and in the order of publication, and then nothing more, however long it
    polls; its checkpoint then stands at the end of the log. *)
Theorem subscriber_sees_history (base id : string) (ts : list Trade) (polls : nat) :
  trades_in_range ts -> (length ts <= polls)%nat ->
  exists fs0 path fs1 sub fs2 sub2,
    new_TradeLog (mkFS ∅ ∅) base = Ret (fs0, path) /\
    new_Subscriber (foldl (fun fs t => publish fs path t) fs0 ts) base id = Ret (fs1, sub) /\
    subscriber_loop polls fs1 sub [] = Ret (fs2, sub2, ts) /\
    load_offset fs2 (sub_checkpoint_path base id) = Z.of_nat (length ts).
Proof.
  intros Hr Hp. set (fs0 := set_contents (mkFS ∅ ∅) (trades_path base) []).
  set (fs1 := foldl (fun fs t => publish fs (trades_path base) t) fs0 ts).
  assert (subscribed base id ts fs1 0) as Hsub.
  { apply (publish_all_subscribed base id [] ts fs0 0). split; [done|apply contents_set_eq|].
    subst fs0. by rewrite load_offset_set_ne by apply trades_path_checkpoint. }
  assert (subscribed base id ts (set_contents fs1 (trades_path base) (contents fs1 (trades_path base))) 0) as Hsub'.
  { destruct Hsub as [? Hlog ?]. split; [done|by rewrite contents_set_eq|].
    by rewrite load_offset_set_ne by apply trades_path_checkpoint. }
  destruct (subscriber_loop_reads base id ts polls _ 0 [] Hsub' Hr) as (fs2 & Hloop & Hend); [lia|].
  exists fs0, (trades_path base), (set_contents fs1 (trades_path base) (contents fs1 (trades_path base))),
    (subscriber_at base id 0), fs2. eexists. split_and!.
  - unfold new_TradeLog, fopen_append. rewrite decide_False by set_solver. done.
  - fold fs1. unfold new_Subscriber, fopen_append. cbn [sub_log_path_].
    rewrite decide_False by (rewrite (sub_denied _ _ _ _ _ Hsub); set_solver).
    unfold sub_read_checkpoint. cbn [sub_checkpoint_path_]. by rewrite (sub_saved _ _ _ _ _ Hsub').
  - rewrite Hloop. rewrite drop_0, take_ge by lia. done.
  - rewrite (sub_saved _ _ _ _ _ Hend). lia.
Qed.
