(* ===== verification/TornWrite.v ===== *)
(** * Short writes to the logs ([include/log_backed_order_queue.hpp],
      [include/trade_log.hpp])

    [push] and [publish] ignore the results of [fwrite], [fflush] and [fsync].  When
    the disk is full, or the machine stops in the middle of the write, only the first
    bytes of the record reach the file, and the next write, of any process, appends
    after them.  This file says what the readers of such a log get. *)

From S2P Require Import Prelude Double Rounding Order Sharding OrderQueue Bytes Files LogQueue TradeLog.

(** [push], of which only the first [k] bytes reach the file. *)
Definition log_push_short (fs : filesystem) (path : string) (pad : list char) (o : Order) (k : nat) : filesystem :=
  fwrite_append fs path (take k (encode_order pad o)).

(** [publish], in the same way. *)
Definition publish_short (fs : filesystem) (path : string) (t : Trade) (k : nat) : filesystem :=
  fwrite_append fs path (take k (encode_trade t)).

(** A sequence of complete pushes, and of complete publications. *)
Definition log_push_all (fs : filesystem) (path : string) (pad : list char) (os : list Order) : filesystem :=
  foldl (fun fs o => log_push fs path pad o) fs os.

Definition publish_all (fs : filesystem) (path : string) (ts : list Trade) : filesystem :=
  foldl (fun fs t => publish fs path t) fs ts.

(** The records of [n] bytes a reader finds in the bytes [t], fewer than a record,
    followed by the records [rs]: each is made of the end of one record and the
    beginning of the next. *)
Fixpoint regroup (n : nat) (t : list char) (rs : list (list char)) : list (list char) :=
  match rs with
  | [] => []
  | r :: rs' => (t ++ take (n - length t) r) :: regroup n (drop (n - length t) r) rs'
  end.

(** The bytes after the last of them. *)
Definition torn_end (n : nat) (t : list char) (rs : list (list char)) : list char :=
  match last rs with Some r => drop (n - length t) r | None => t end.

(** ** Facts *)

Section regroup.
Context (n : nat).

Lemma drop_record (t r : list char) :
  (length t < n)%nat -> length r = n -> length (drop (n - length t) r) = length t.
Proof. intros Ht Hr. rewrite length_drop, Hr. lia. Qed.

Lemma regroup_length t rs : length (regroup n t rs) = length rs.
Proof. revert t. induction rs as [|r rs IH]; intros t; simpl; [done|by rewrite IH]. Qed.

Lemma regroup_size t rs :
  (length t < n)%nat -> all_of_size n rs -> all_of_size n (regroup n t rs).
Proof.
  intros Ht Hrs. revert t Ht. induction Hrs as [|r rs Hr _ IH]; intros t Ht; [constructor|].
  cbn [regroup]. constructor; [rewrite length_app, length_take, Hr; lia|].
  apply IH. by rewrite drop_record.
Qed.

Lemma torn_end_cons t r rs :
  (length t < n)%nat -> length r = n ->
  torn_end n t (r :: rs) = torn_end n (drop (n - length t) r) rs.
Proof.
  intros Ht Hr. unfold torn_end. rewrite drop_record by done.
  destruct rs as [|r' rs]; [done|]. rewrite last_cons_cons.
  destruct (last (r' :: rs)) eqn:E; [done|]. by apply last_None in E.
Qed.

Lemma regroup_concat t rs :
  (length t < n)%nat -> all_of_size n rs ->
  t ++ concat rs = concat (regroup n t rs) ++ torn_end n t rs.
Proof.
  intros Ht Hrs. revert t Ht. induction Hrs as [|r rs Hr _ IH]; intros t Ht.
  { by rewrite app_nil_r. }
  rewrite torn_end_cons by done. cbn [regroup concat].
  rewrite <-!app_assoc, <-IH by (by rewrite drop_record). by rewrite (app_assoc (take _ _)), take_drop.
Qed.

Lemma torn_end_length t rs :
  (length t < n)%nat -> all_of_size n rs -> length (torn_end n t rs) = length t.
Proof.
  intros Ht Hrs. unfold torn_end. destruct (last rs) as [r|] eqn:E; [|done].
  apply drop_record; [done|]. apply last_Some in E as [l ->]. apply Forall_app in Hrs as [_ Hr].
  by apply Forall_cons in Hr as [Hr _].
Qed.
End regroup.

(** Writing the records [enc x] one after the other, on any file. *)
Section appends.
Context {A : Type} (enc : A -> list char) (n : nat) (path : string).

Definition append_all (fs : filesystem) (xs : list A) : filesystem :=
  foldl (fun fs x => fwrite_append fs path (enc x)) fs xs.

Lemma append_all_contents fs xs :
  contents (append_all fs xs) path = contents fs path ++ concat (enc <$> xs) /\
  denied (append_all fs xs) = denied fs /\
  forall p, p <> path -> files (append_all fs xs) !! p = files fs !! p.
Proof.
  revert fs. induction xs as [|x xs IH]; intros fs; [by rewrite app_nil_r|].
  destruct (IH (fwrite_append fs path (enc x))) as (H1 & H2 & H3). unfold append_all in *. cbn [foldl].
  rewrite H1, H2. split_and!; [|done|].
  - unfold fwrite_append. rewrite contents_set_eq, fmap_cons. cbn [concat]. by rewrite app_assoc.
  - intros p Hp. rewrite H3 by done. cbn. by rewrite lookup_insert_ne.
Qed.

(** A new disk with complete records, the first [k] bytes of another, and more
    complete records. *)
Lemma torn_contents before x k after :
  all_of_size n (enc <$> after) -> (k < n)%nat ->
  let t := take k (enc x) in
  let fs := append_all (fwrite_append (append_all (mkFS ∅ ∅) before) path t) after in
  denied fs = ∅ /\ (forall p, p <> path -> files fs !! p = None) /\
  contents fs path = concat ((enc <$> before) ++ regroup n t (enc <$> after)) ++ torn_end n t (enc <$> after).
Proof.
  intros Ha Hk t fs. unfold fs. set (fs0 := append_all (mkFS ∅ ∅) before).
  destruct (append_all_contents (mkFS ∅ ∅) before) as (C1 & D1 & F1). fold fs0 in C1, D1, F1.
  destruct (append_all_contents (fwrite_append fs0 path t) after) as (C2 & D2 & F2).
  split_and!; [by rewrite D2| |].
  - intros p Hp. rewrite F2 by done. cbn. by rewrite lookup_insert_ne, F1 by done.
  - rewrite C2. unfold fwrite_append. rewrite contents_set_eq, C1.
    rewrite concat_app, <-!app_assoc, <-regroup_concat; [done| |done]. subst t. rewrite length_take. lia.
Qed.
End appends.

(** A checkpoint that was never written. *)
Lemma load_offset_absent fs p : files fs !! p = None -> load_offset fs p = 0.
Proof. intros H. unfold load_offset, fopen_read. rewrite H. by case_decide. Qed.

(** What a consumer reads of a log of [rs] and a rest. *)
Lemma log_drain_rest polls fs q rs rest :
  denied fs = ∅ -> contents fs (log_path_ q) = concat rs ++ rest -> all_of_size sizeof_Order rs ->
  (length rest < sizeof_Order)%nat -> log_path_ q <> checkpoint_path_ q ->
  0 <= consumer_offset_ q <= Z.of_nat (length rs) -> log_range (length rs) ->
  log_done_ q = false ->
  exists fs' q', log_drain polls fs q =
    Ret (fs', q', decode_order <$> take polls (drop (Z.to_nat (consumer_offset_ q)) rs)).
Proof.
  intros Hden Hc Hsz Hrest Hne Hoff Hr Hd. revert fs q Hden Hc Hne Hoff Hd.
  induction polls as [|polls IH]; intros fs q Hden Hc Hne Hoff Hd; cbn [log_drain]; [by eexists _, _|].
  rewrite (log_poll_rest _ _ rs rest) by done.
  destruct (rs !! Z.to_nat (consumer_offset_ q)) as [r|] eqn:Hl; cbn [mbind outcome_bind].
  - pose proof (lookup_lt_Some _ _ _ Hl).
    edestruct IH as (fs' & q' & ->); cycle -1.
    + cbn [mbind outcome_bind consumer_offset_]. eexists _, _. f_equal.
      rewrite (drop_S _ _ _ Hl). cbn [take]. rewrite fmap_cons.
      by replace (Z.to_nat (consumer_offset_ q + 1)) with (S (Z.to_nat (consumer_offset_ q))) by lia.
    + done.
    + cbn [log_path_]. by rewrite contents_set_ne.
    + done.
    + cbn [consumer_offset_]. lia.
    + done.
  - rewrite Hd. destruct (IH fs q) as (fs' & q' & ->); try done. cbn [mbind outcome_bind].
    apply lookup_ge_None in Hl. rewrite !(drop_ge rs), !take_nil by lia. by eexists _, _.
Qed.

(** The disk after a short push among complete ones. *)
Definition torn_disk (base : string) (pad : list char) (before : list Order) (o : Order) (k : nat)
    (after : list Order) : filesystem :=
  log_push_all (log_push_short (log_push_all (mkFS ∅ ∅) (log_path base) pad before) (log_path base) pad o k)
    (log_path base) pad after.

Lemma encoded_size pad os :
  length pad = 6%nat -> Forall order_wt os -> all_of_size sizeof_Order (encode_order pad <$> os).
Proof.
  intros Hpad Hos. apply Forall_fmap. eapply Forall_impl; [exact Hos|]. intros x Hx.
  apply encode_order_length; [done|apply Hx].
Qed.

Lemma decode_encoded pad os :
  length pad = 6%nat -> Forall order_wt os -> Forall (fun x => valid_double (price x)) os ->
  decode_order <$> (encode_order pad <$> os) = os.
Proof.
  intros Hpad Hwt Hv. rewrite <-list_fmap_compose. rewrite <-(list_fmap_id os) at 2.
  apply list_fmap_ext. intros i x Hx. unfold compose.
  apply decode_encode_order; [done|exact (Forall_lookup_1 _ _ _ _ Hwt Hx)|exact (Forall_lookup_1 _ _ _ _ Hv Hx)].
Qed.

Lemma torn_disk_contents base id pad before o k after :
  length pad = 6%nat -> Forall order_wt after -> (k < sizeof_Order)%nat ->
  let t := take k (encode_order pad o) in
  let fs := torn_disk base pad before o k after in
  denied fs = ∅ /\ load_offset fs (checkpoint_path base id) = 0 /\
  contents fs (log_path base) =
    concat ((encode_order pad <$> before) ++ regroup sizeof_Order t (encode_order pad <$> after)) ++
    torn_end sizeof_Order t (encode_order pad <$> after).
Proof.
  intros Hpad Ha Hk t fs.
  destruct (torn_contents (encode_order pad) sizeof_Order (log_path base) before o k after) as (Hden & Hf & Hc);
    [by apply encoded_size|done|].
  split_and!; [exact Hden| |exact Hc]. apply load_offset_absent, Hf.
  intros E. symmetry in E. by apply log_path_checkpoint in E.
Qed.

(** *** The trade log *)

Lemma decode_encoded_trades ts : Forall trade_wt ts -> decode_trade <$> (encode_trade <$> ts) = ts.
Proof.
  intros Hwt. rewrite <-list_fmap_compose. rewrite <-(list_fmap_id ts) at 2.
  apply list_fmap_ext. intros i x Hx. unfold compose.
  apply decode_encode_trade. exact (Forall_lookup_1 _ _ _ _ Hwt Hx).
Qed.

Definition torn_trades (base : string) (before : list Trade) (t : Trade) (k : nat) (after : list Trade) : filesystem :=
  publish_all (publish_short (publish_all (mkFS ∅ ∅) (trades_path base) before) (trades_path base) t k)
    (trades_path base) after.

(** What a subscriber reads of a log of [rs] and a rest. *)
Lemma subscriber_loop_rest base id polls rs rest fs k seen :
  denied fs = ∅ -> contents fs (trades_path base) = concat rs ++ rest -> all_of_size sizeof_Trade rs ->
  (length rest < sizeof_Trade)%nat -> Z.of_nat (length rs) * Z.of_nat sizeof_Trade < 2 ^ 63 -> 0 <= k ->
  exists fs' s', subscriber_loop polls fs (subscriber_at base id k) seen =
    Ret (fs', s', seen ++ (decode_trade <$> take polls (drop (Z.to_nat k) rs))).
Proof.
  intros Hden Hc Hsz Hrest Hr Hk. revert fs k seen Hden Hc Hk.
  induction polls as [|polls IH]; intros fs k seen Hden Hc Hk; cbn [subscriber_loop].
  { eexists _, _. by rewrite take_0, app_nil_r. }
  rewrite (try_next_rest base id rs rest) by done.
  destruct (rs !! Z.to_nat k) as [r|] eqn:Hl; cbn [mbind outcome_bind].
  - destruct (IH (set_contents fs (sub_checkpoint_path base id) (le_encode sizeof_u64 (k + 1))) (k + 1)
                (seen ++ [decode_trade r])) as (fs' & s' & ->); [done| |lia|].
    + rewrite contents_set_ne; [done|]. intros E. symmetry in E. by apply trades_path_checkpoint in E.
    + eexists _, _. rewrite (drop_S _ _ _ Hl). cbn [take]. rewrite fmap_cons, <-app_assoc.
      by replace (Z.to_nat (k + 1)) with (S (Z.to_nat k)) by lia.
  - destruct (IH fs k seen) as (fs' & s' & ->); [done..|]. apply lookup_ge_None in Hl.
    rewrite !(drop_ge rs), !take_nil by lia. by eexists _, _.
Qed.

(** ** Properties *)

(** C36: a short write is never noticed and shifts the rest of the log.  After complete
    pushes, one push of which only [k] bytes reach the file and more complete
    pushes, a new consumer still reads the first orders as they were pushed; from
    there on every record it delivers straddles two records of the file, exactly
    those of [regroup]; as many orders are delivered as were pushed completely, and
    no call throws, however long the consumer polls. *)
Theorem short_write_shifts_log (base id : string) (pad : list char) (before after : list Order)
    (o : Order) (k polls : nat) :
  length pad = 6%nat -> Forall order_wt before -> Forall (fun x => valid_double (price x)) before ->
  Forall order_wt after -> (k < sizeof_Order)%nat ->
  log_range (length before + length after) -> (length before + length after <= polls)%nat ->
  exists fs1 q fs2 q',
    new_LogBackedOrderQueue (torn_disk base pad before o k after) base id = Ret (fs1, q) /\
    log_drain polls fs1 q =
      Ret (fs2, q', before ++ (decode_order <$> regroup sizeof_Order (take k (encode_order pad o)) (encode_order pad <$> after))).
Proof.
  intros Hpad Hb Hv Ha Hk Hr Hpolls. set (t := take k (encode_order pad o)).
  assert (length t < sizeof_Order)%nat as Ht by (subst t; rewrite length_take; lia).
  destruct (torn_disk_contents base id pad before o k after Hpad Ha Hk) as (Hden & Hload & Hc).
  set (fs := torn_disk base pad before o k after) in *. fold t in Hc.
  set (rs := (encode_order pad <$> before) ++ regroup sizeof_Order t (encode_order pad <$> after)) in *.
  assert (length rs = length before + length after)%nat as Hlen.
  { unfold rs. by rewrite length_app, regroup_length, !length_fmap. }
  unfold new_LogBackedOrderQueue, fopen_append. cbn [log_path_]. rewrite decide_False by (rewrite Hden; set_solver).
  unfold read_checkpoint. cbn [checkpoint_path_]. rewrite load_offset_set_ne, Hload by apply log_path_checkpoint.
  destruct (log_drain_rest polls (set_contents fs (log_path base) (contents fs (log_path base)))
    (mkLogQueue (log_path base) (checkpoint_path base id) 0 false) rs (torn_end sizeof_Order t (encode_order pad <$> after)))
    as (fs2 & q' & Hdrain); try done.
  - cbn [log_path_]. by rewrite contents_set_eq.
  - apply Forall_app. split; [by apply encoded_size|]. apply regroup_size; [done|by apply encoded_size].
  - rewrite torn_end_length; [done|done|by apply encoded_size].
  - apply log_path_checkpoint.
  - cbn. lia.
  - by rewrite Hlen.
  - eexists _, _, fs2, q'. split; [done|]. rewrite Hdrain. cbn [consumer_offset_].
    change (Z.to_nat 0) with 0%nat. rewrite drop_0, take_ge by lia. unfold rs.
    by rewrite fmap_app, decode_encoded.
Qed.

(** Order 1 complete, eight bytes of order 2, and order 3. *)
Definition numbered (n : Z) : Order := mkOrder n (n + 100) BUY LIMIT (replicate 8 NUL) (d_of_Z 100) 5 5 0.

Lemma short_write_shifts_log_witness :
  exists fs1 q fs2 q',
    new_LogBackedOrderQueue (torn_disk "s0" (replicate 6 NUL) [numbered 1] (numbered 2) 8 [numbered 3]) "s0" "r0" =
      Ret (fs1, q) /\
    log_drain 4 fs1 q = Ret (fs2, q', [numbered 1] ++
      (decode_order <$> regroup sizeof_Order (take 8 (encode_order (replicate 6 NUL) (numbered 2)))
                          (encode_order (replicate 6 NUL) <$> [numbered 3]))).
Proof.
  apply (short_write_shifts_log "s0" "r0" (replicate 6 NUL) [numbered 1] [numbered 3] (numbered 2) 8 4).
  - reflexivity.
  - apply (bool_decide_unpack _). vm_compute. exact I.
  - apply (bool_decide_unpack _). vm_compute. exact I.
  - apply (bool_decide_unpack _). vm_compute. exact I.
  - unfold sizeof_Order. lia.
  - vm_compute. reflexivity.
  - simpl. lia.
Defined.

(** What the consumer takes for order 3: the number of the order that was cut off,
    the real number as the client, and the bits of the price 100.0 as the quantity. *)
Example shifted_order :
  (fun o => (order_id o, client_id o, quantity o)) <$>
    (decode_order <$> regroup sizeof_Order (take 8 (encode_order (replicate 6 NUL) (numbered 2)))
                       (encode_order (replicate 6 NUL) <$> [numbered 3])) = [(2, 3, 0x4059000000000000)].
Proof. vm_compute. reflexivity. Qed.

(** The same for the trade log: after a publication cut short, a new subscriber
    reads the trades before it intact and, instead of those after it, records that
    straddle two trades; [try_next] reports nothing. *)
Theorem short_publish_shifts_trades (base id : string) (before after : list Trade) (t : Trade) (k polls : nat) :
  Forall trade_wt before -> (k < sizeof_Trade)%nat ->
  Z.of_nat (length before + length after) * Z.of_nat sizeof_Trade < 2 ^ 63 ->
  (length before + length after <= polls)%nat ->
  exists fs1 s fs2 s',
    new_Subscriber (torn_trades base before t k after) base id = Ret (fs1, s) /\
    subscriber_loop polls fs1 s [] =
      Ret (fs2, s', before ++ (decode_trade <$> regroup sizeof_Trade (take k (encode_trade t)) (encode_trade <$> after))).
Proof.
  intros Hb Hk Hr Hpolls. set (u := take k (encode_trade t)).
  assert (length u < sizeof_Trade)%nat as Hu by (subst u; rewrite length_take; lia).
  destruct (torn_contents encode_trade sizeof_Trade (trades_path base) before t k after) as (Hden & Hf & Hc);
    [apply trades_all_of_size|done|].
  change (append_all _ _ _ _) with (torn_trades base before t k after) in Hden, Hf, Hc. fold u in Hc.
  set (fs := torn_trades base before t k after) in *.
  set (rs := (encode_trade <$> before) ++ regroup sizeof_Trade u (encode_trade <$> after)) in *.
  assert (length rs = length before + length after)%nat as Hlen.
  { unfold rs. by rewrite length_app, regroup_length, !length_fmap. }
  unfold new_Subscriber, fopen_append. cbn [sub_log_path_]. rewrite decide_False by (rewrite Hden; set_solver).
  unfold sub_read_checkpoint. cbn [sub_checkpoint_path_].
  rewrite load_offset_set_ne, load_offset_absent; [| |apply trades_path_checkpoint].
  2: { apply Hf. intros E. symmetry in E. by apply trades_path_checkpoint in E. }
  destruct (subscriber_loop_rest base id polls rs (torn_end sizeof_Trade u (encode_trade <$> after))
    (set_contents fs (trades_path base) (contents fs (trades_path base))) 0 []) as (fs2 & s' & Hloop); try done.
  - by rewrite contents_set_eq.
  - apply Forall_app. split; [apply trades_all_of_size|]. apply regroup_size; [done|apply trades_all_of_size].
  - rewrite torn_end_length; [done|done|apply trades_all_of_size].
  - by rewrite Hlen.
  - eexists _, (subscriber_at base id 0), fs2, s'. split; [done|]. change (Z.to_nat 0) with 0%nat in Hloop.
    rewrite drop_0, take_ge in Hloop by lia. rewrite Hloop. unfold rs.
    by rewrite fmap_app, decode_encoded_trades.
Qed.
