(* ===== verification/Durability.v ===== *)
(** * Power loss ([include/log_backed_order_queue.hpp])

    [push] writes a record through three layers: [fwrite] leaves it in the buffer of
    the process, [fflush] appends it to the file as the kernel caches it, [fsync] makes
    the cached file durable.  Any number of gateways push to one log at once.  A power
    loss empties the buffers and leaves of the file what was durable, followed by
    anything at all, up to the length the file had; and, since nothing ever syncs the
    directory, it may leave no file at all while the kernel has not yet written the
    entry that [fopen] created.

    The theorem: an order whose [push] has returned survives, at its position in the
    log, whatever happened to the writes that were still under way. *)

From S2P Require Import Prelude Double Rounding Order Sharding OrderQueue Bytes Files LogQueue TradeLog TornWrite.

(** ** State *)

(** Where a gateway is inside [push]. *)
Inductive push_pc :=
  | Buffered (pad : list char) (o : Order)    (* after [fwrite] *)
  | Written (i : nat).                        (* after [fflush]; the record is the [i]-th *)

Record stable_log := mkStable {
  durable : list char;             (* what a power loss cannot take *)
  cached : list char;              (* what [read] and [fstat] see *)
  linked : bool;                   (* the directory entry is durable *)
  in_push : gmap nat push_pc;      (* the gateways inside [push] *)
  written : list (list char * Order);   (* history: the records appended so far *)
  returned : list nat              (* history: those whose [push] has returned *)
}.

(** A log [fopen] has just created. *)
Definition created : stable_log := mkStable [] [] false ∅ [] [].

(** ** Steps *)

Inductive stable_action :=
  | Fwrite (g : nat) (pad : list char) (o : Order)
  | Fflush (g : nat)
  | Fsync (g : nat)                (* and [push] returns *)
  | Die (g : nat)                  (* kill -9 of a gateway *)
  | Writeback (n : nat)            (* the kernel writes cached bytes back on its own *)
  | CommitEntry.                   (* the kernel writes the directory back *)

Definition stable_step (s : stable_log) (a : stable_action) : option stable_log :=
  match a with
  | Fwrite g pad o =>
    match in_push s !! g with
    | Some _ => None
    | None => Some (mkStable (durable s) (cached s) (linked s) (<[g := Buffered pad o]> (in_push s))
                      (written s) (returned s))
    end
  | Fflush g =>
    match in_push s !! g with
    | Some (Buffered pad o) =>
      Some (mkStable (durable s) (cached s ++ encode_order pad o) (linked s)
              (<[g := Written (length (written s))]> (in_push s)) (written s ++ [(pad, o)]) (returned s))
    | _ => None
    end
  | Fsync g =>
    match in_push s !! g with
    | Some (Written i) =>
      Some (mkStable (cached s) (cached s) (linked s) (delete g (in_push s)) (written s) (returned s ++ [i]))
    | _ => None
    end
  | Die g => Some (mkStable (durable s) (cached s) (linked s) (delete g (in_push s)) (written s) (returned s))
  | Writeback n =>
    if decide (length (durable s) <= n)%nat
    then Some (mkStable (take n (cached s)) (cached s) (linked s) (in_push s) (written s) (returned s))
    else None
  | CommitEntry => Some (mkStable (durable s) (cached s) true (in_push s) (written s) (returned s))
  end.

Fixpoint stable_run (s : stable_log) (acts : list stable_action) : option stable_log :=
  match acts with
  | [] => Some s
  | a :: acts' => s' ← stable_step s a; stable_run s' acts'
  end.

(** What a power loss may leave of the file: [None] is no file. *)
Definition survives (s : stable_log) (left : option (list char)) : Prop :=
  match left with
  | None => linked s = false
  | Some bs => durable s `prefix_of` bs /\ (length bs <= length (cached s))%nat
  end.

(** The gateways push well-typed orders. *)
Definition stable_action_ok (a : stable_action) : Prop :=
  match a with
  | Fwrite _ pad o => length pad = 6%nat /\ order_wt o /\ valid_double (price o)
  | _ => True
  end.

#[global] Instance stable_action_ok_dec a : Decision (stable_action_ok a).
Proof. destruct a; simpl; apply _. Defined.

(** ** Invariant *)

Definition record (r : list char * Order) : list char := encode_order r.1 r.2.

Definition record_ok (r : list char * Order) : Prop :=
  length r.1 = 6%nat /\ order_wt r.2 /\ valid_double (price r.2).

(** The records of the first [m] pushes are durable. *)
Definition settled (s : stable_log) (m : nat) : Prop :=
  (m <= length (written s))%nat /\ concat (record <$> take m (written s)) `prefix_of` durable s.

Record stable_ok (s : stable_log) : Prop := {
  so_cached : cached s = concat (record <$> written s);
  so_durable : durable s `prefix_of` cached s;
  so_records : Forall record_ok (written s);
  so_buffered g pad o : in_push s !! g = Some (Buffered pad o) -> record_ok (pad, o);
  so_written g i : in_push s !! g = Some (Written i) -> (i < length (written s))%nat;
  so_returned : exists m, settled s m /\ Forall (fun i => i < m)%nat (returned s)
}.

Lemma created_ok : stable_ok created.
Proof. split; try done. exists 0%nat. split; [split; [done|by exists []]|constructor]. Qed.

(** Writing more, or making more durable, keeps what is settled. *)
Lemma settled_mono s s' m rs :
  settled s m -> written s' = written s ++ rs -> durable s `prefix_of` durable s' -> settled s' m.
Proof.
  intros [Hm Hp] Hw Hd. split; rewrite Hw; [rewrite length_app; lia|].
  rewrite take_app_le by done. by etrans.
Qed.

Lemma stable_step_ok s a s' :
  stable_ok s -> stable_action_ok a -> stable_step s a = Some s' -> stable_ok s'.
Proof.
  intros [Hc Hd Hrs Hb Hw (m & Hm & Hret)] Ha Hs. destruct a as [g pad o|g|g|g|n|]; cbn in Hs.
  - destruct (in_push s !! g) eqn:Hg; [done|]. injection Hs as <-. split; cbn; try done; [| |by exists m].
    + intros g' pad' o' [[-> [= -> ->]]|[_ H]]%lookup_insert_Some; [done|by eapply Hb].
    + intros g' i [[_ [=]]|[_ H]]%lookup_insert_Some. by eapply Hw.
  - destruct (in_push s !! g) as [[pad o|]|] eqn:Hg; try done. injection Hs as <-. split; cbn.
    + rewrite Hc, fmap_app, concat_app. cbn [fmap list_fmap concat]. by rewrite app_nil_r.
    + etrans; [exact Hd|]. by eexists.
    + apply Forall_app. split; [done|]. constructor; [by eapply Hb|constructor].
    + intros g' pad' o' [[_ [=]]|[_ H]]%lookup_insert_Some. by eapply Hb.
    + rewrite length_app. cbn. intros g' i [[_ [= <-]]|[_ H]]%lookup_insert_Some; [lia|]. apply Hw in H. lia.
    + exists m. split; [|done]. by eapply settled_mono.
  - destruct (in_push s !! g) as [[|i]|] eqn:Hg; try done. injection Hs as <-. split; cbn; try done.
    + intros g' pad' o' [_ H]%lookup_delete_Some. by eapply Hb.
    + intros g' i' [_ H]%lookup_delete_Some. by eapply Hw.
    + exists (length (written s)). split; [split; [done|cbn; by rewrite firstn_all, Hc]|].
      apply Forall_app. split; [|constructor; [by eapply Hw|constructor]].
      eapply Forall_impl; [exact Hret|]. intros j Hj. destruct Hm as [Hm _]. cbn in Hj, Hm |- *. lia.
  - injection Hs as <-. split; cbn; try done; [| |by exists m].
    + intros g' pad' o' [_ H]%lookup_delete_Some. by eapply Hb.
    + intros g' i' [_ H]%lookup_delete_Some. by eapply Hw.
  - case_decide as Hn; [|done]. injection Hs as <-. split; cbn; try done.
    + apply prefix_take.
    + exists m. split; [|done]. eapply (settled_mono s _ m []); [done|by rewrite app_nil_r|]. cbn.
      destruct Hd as [k ->]. rewrite take_app_ge by done. by eexists.
  - injection Hs as <-. split; cbn; try done. by exists m.
Qed.

Lemma stable_run_ok s acts s' :
  stable_ok s -> Forall stable_action_ok acts -> stable_run s acts = Some s' -> stable_ok s'.
Proof.
  revert s. induction acts as [|a acts IH]; intros s Hs Ha Hr; cbn in Hr; [by injection Hr as <-|].
  apply Forall_cons in Ha as [Ha Has]. apply bind_Some in Hr as (s1 & H1 & Hr).
  eapply IH; [|done|done]. by eapply stable_step_ok.
Qed.

(** A [push] that nothing interleaves is [log_push], and its result is durable. *)
Lemma push_is_log_push s g pad o fs path :
  in_push s !! g = None -> contents fs path = cached s ->
  exists s', stable_run s [Fwrite g pad o; Fflush g; Fsync g] = Some s' /\
    cached s' = contents (log_push fs path pad o) path /\ durable s' = cached s'.
Proof.
  intros Hg Hc. cbn. rewrite Hg. cbn. rewrite lookup_insert_eq. cbn. rewrite lookup_insert_eq. cbn.
  eexists. split; [done|]. cbn. unfold log_push, fwrite_append. by rewrite contents_set_eq, Hc.
Qed.

(** Any bytes are records and a rest. *)
Lemma split_records n (bs : list char) :
  (0 < n)%nat -> exists rs rest, bs = concat rs ++ rest /\ all_of_size n rs /\ (length rest < n)%nat.
Proof.
  intros Hn. remember (length bs) as len eqn:Hlen. revert bs Hlen.
  induction len as [len IH] using lt_wf_ind. intros bs ->.
  destruct (decide (length bs < n)%nat) as [Hlt|Hge]; [by exists [], bs; split_and!; [|constructor|]|].
  destruct (IH (length (drop n bs))) with (drop n bs) as (rs & rest & Hbs & Hrs & Hrest);
    [rewrite length_drop; lia|done|].
  exists (take n bs :: rs), rest. cbn [concat]. rewrite <-app_assoc, <-Hbs, take_drop. split_and!; [done| |done].
  constructor; [rewrite length_take; lia|done].
Qed.

Lemma records_size rs : Forall record_ok rs -> all_of_size sizeof_Order (record <$> rs).
Proof.
  intros Hrs. apply Forall_fmap. eapply Forall_impl; [exact Hrs|]. intros [pad o] (Hp & Hwt & _).
  apply encode_order_length; [done|apply Hwt].
Qed.

Lemma decode_records rs : Forall record_ok rs -> decode_order <$> (record <$> rs) = rs.*2.
Proof.
  intros Hrs. rewrite <-list_fmap_compose. apply list_fmap_ext. intros i [pad o] Hx.
  destruct (Forall_lookup_1 _ _ _ _ Hrs Hx) as (Hp & Hwt & Hv). by apply decode_encode_order.
Qed.

(** A consumer of a file that begins with good records. *)
Lemma drain_good_records base id fs rs junk polls :
  denied fs = ∅ -> contents fs (log_path base) = concat (record <$> rs) ++ junk -> Forall record_ok rs ->
  load_offset fs (checkpoint_path base id) = 0 -> Z.of_nat (length (contents fs (log_path base))) < 2 ^ 63 ->
  (length rs <= polls)%nat ->
  exists fs1 q fs2 q' more,
    new_LogBackedOrderQueue fs base id = Ret (fs1, q) /\ log_drain polls fs1 q = Ret (fs2, q', rs.*2 ++ more).
Proof.
  intros Hden Hc Hrs Hload Hlen Hp.
  destruct (split_records sizeof_Order junk) as (js & rest & -> & Hjs & Hrest); [unfold sizeof_Order; lia|].
  rewrite app_assoc, <-concat_app in Hc. rewrite Hc in Hlen.
  assert (all_of_size sizeof_Order ((record <$> rs) ++ js)) as Hsz by (apply Forall_app; by split; [apply records_size|]).
  unfold new_LogBackedOrderQueue, fopen_append. cbn [log_path_]. rewrite decide_False by (rewrite Hden; set_solver).
  unfold read_checkpoint. cbn [checkpoint_path_]. rewrite load_offset_set_ne, Hload by apply log_path_checkpoint.
  destruct (log_drain_rest polls (set_contents fs (log_path base) (contents fs (log_path base)))
    (mkLogQueue (log_path base) (checkpoint_path base id) 0 false) ((record <$> rs) ++ js) rest)
    as (fs2 & q' & Hdrain); try done.
  - cbn [log_path_]. by rewrite contents_set_eq.
  - apply log_path_checkpoint.
  - cbn. lia.
  - unfold log_range. rewrite length_app, (concat_size _ _ Hsz) in Hlen. lia.
  - eexists _, _, fs2, q', _. split; [done|]. rewrite Hdrain. cbn [consumer_offset_].
    change (Z.to_nat 0) with 0%nat. rewrite drop_0, take_app_ge by (by rewrite length_fmap).
    by rewrite fmap_app, decode_records.
Qed.

(** ** Properties *)

(** C20: an order whose [push] has returned survives a power loss.  Any gateways are at
    any points of [push], the kernel has written back what it pleased, gateways were
    killed; once the file's directory entry is durable, whatever the power loss leaves
    and whatever is appended afterwards, a consumer that reads the log from its start
    gets the first [m] orders as they were pushed, in order, and every push that had
    returned is one of these [m]. *)
Theorem returned_push_survives (acts : list stable_action) (s : stable_log) (left : option (list char)) :
  Forall stable_action_ok acts -> stable_run created acts = Some s -> linked s = true -> survives s left ->
  exists bs m, left = Some bs /\ (m <= length (written s))%nat /\ Forall (fun i => i < m)%nat (returned s) /\
    forall base id fs appended polls,
      denied fs = ∅ -> contents fs (log_path base) = bs ++ appended ->
      Z.of_nat (length (bs ++ appended)) < 2 ^ 63 ->
      load_offset fs (checkpoint_path base id) = 0 -> (m <= polls)%nat ->
      exists fs1 q fs2 q' more,
        new_LogBackedOrderQueue fs base id = Ret (fs1, q) /\
        log_drain polls fs1 q = Ret (fs2, q', take m (written s).*2 ++ more).
Proof.
  intros Ha Hrun Hl Hsv. destruct left as [bs|]; cbn in Hsv; [|congruence]. destruct Hsv as [[k ->] _].
  destruct (stable_run_ok _ _ _ created_ok Ha Hrun) as [_ _ Hrs _ _ (m & [Hm [j Hj]] & Hret)].
  eexists _, m. split_and!; [done|done|done|]. intros base id fs appended polls Hden Hc Hlen Hload Hp.
  assert (length (take m (written s)) = m) as Htm by (rewrite length_take; lia).
  rewrite <-Hc in Hlen. rewrite Hj, <-!app_assoc in Hc.
  rewrite <-fmap_take. apply (drain_good_records base id fs _ _ polls Hden Hc); try done; [by apply Forall_take|lia].
Qed.

(** Two gateways: the first push has returned, the second is between its [fflush] and
    its [fsync] when the power fails, leaving five of its bytes, which were not the
    ones written. *)
Definition two_pushes : list stable_action :=
  let pad := replicate 6 NUL in
  [Fwrite 0 pad (numbered 1); Fwrite 1 pad (numbered 2); CommitEntry; Fflush 0; Fsync 0; Fflush 1].

Definition after_two_pushes : stable_log := default created (stable_run created two_pushes).

Definition left_on_disk : list char := encode_order (replicate 6 NUL) (numbered 1) ++ replicate 5 NUL.

Lemma returned_push_survives_witness :
  returned after_two_pushes = [0%nat] /\
  exists bs m, Some left_on_disk = Some bs /\ (m <= length (written after_two_pushes))%nat /\
    Forall (fun i => i < m)%nat (returned after_two_pushes) /\
    forall base id fs appended polls,
      denied fs = ∅ -> contents fs (log_path base) = bs ++ appended ->
      Z.of_nat (length (bs ++ appended)) < 2 ^ 63 ->
      load_offset fs (checkpoint_path base id) = 0 -> (m <= polls)%nat ->
      exists fs1 q fs2 q' more,
        new_LogBackedOrderQueue fs base id = Ret (fs1, q) /\
        log_drain polls fs1 q = Ret (fs2, q', take m (written after_two_pushes).*2 ++ more).
Proof.
  split; [vm_compute; reflexivity|].
  apply (returned_push_survives two_pushes after_two_pushes (Some left_on_disk)).
  - apply (bool_decide_unpack _). vm_compute. exact I.
  - vm_compute. reflexivity.
  - vm_compute. reflexivity.
  - split; [exists (replicate 5 NUL); vm_compute; reflexivity|vm_compute; lia].
Defined.

(** Without the directory entry the log of a push that has returned can be gone: no
    call of the source syncs the directory. *)
Example unlinked_log_lost :
  exists s, stable_run created [Fwrite 0 (replicate 6 NUL) (numbered 1); Fflush 0; Fsync 0] = Some s /\
    returned s = [0%nat] /\ survives s None.
Proof. eexists. split; [reflexivity|]. by vm_compute. Qed.

(** And what an unfinished push leaves behind shifts the records appended later, as
    [TornWrite.v] describes. *)
Example leftovers_shift :
  decode_order <$> regroup sizeof_Order (replicate 5 NUL) (encode_order (replicate 6 NUL) <$> [numbered 3])
    <> [numbered 3].
Proof. intros H%(f_equal (fmap order_id)). by vm_compute in H. Qed.
