(* ===== verification/Server.v ===== *)
(** * The single-process server ([src/server_main.cpp])

    A producer thread pushes orders into a queue, a consumer thread pops them and
    submits them to one engine, printing the outcome of each.  The program is
    verified against the queue interface: for every implementation of it, what
    the threads print is what one thread running the engine over the pushed
    orders would print. *)

From S2P Require Import Prelude Double Order Sharding PriceCollar OrderBook MatchingEngine Refinement CancelIndex Session OrderQueue MutexQueue LockFreeQueue Bytes.

(** ** The consumer loop *)

(** The lines printed for one result. *)
Inductive line :=
  | TradeLine (t : Trade)
  | RejectLine (r : Rejection).

Definition report (r : SubmitResult) : list line :=
  match r with
  | inl trades => TradeLine <$> trades
  | inr rej => [RejectLine rej]
  end.

(** [while (queue.pop(order)) { auto result = engine.submit_order(order); ... }]
    on the orders the pops return. *)
Fixpoint consume (e : MatchingEngine) (os : list Order) : outcome (MatchingEngine * list line) :=
  match os with
  | [] => Ret (e, [])
  | o :: os' =>
    '(e', r) ← submit_order e o;
    '(e'', ls) ← consume e' os';
    Ret (e'', report r ++ ls)
  end.

Lemma consume_snoc e os o e1 ls e2 r :
  consume e os = Ret (e1, ls) -> submit_order e1 o = Ret (e2, r) ->
  consume e (os ++ [o]) = Ret (e2, ls ++ report r).
Proof.
  revert e ls. induction os as [|o' os IH]; intros e ls Hc Ho; simpl in *.
  - injection Hc as <- <-. rewrite Ho. simpl. by rewrite app_nil_r.
  - apply bind_Ret in Hc as ([e' r'] & -> & Hc). apply bind_Ret in Hc as ([e'' ls'] & Hc & [= -> <-]).
    simpl. rewrite (IH _ _ Hc Ho). simpl. by rewrite app_assoc.
Qed.

(** ** The server, over any queue *)

Section server.
Context {Q : Type} `{OrderQueue Q}.

Record server := mkServer {
  srv_queue : Q;
  srv_engine : MatchingEngine;
  srv_out : list line;
  srv_exited : bool           (* the consumer thread has left its loop *)
}.

Definition server_init : server := mkServer q_init (new_MatchingEngine default_band) [] false.

Inductive server_step (s : server) : option event -> server -> Prop :=
  | server_silent q' :
      q_step (srv_queue s) None q' ->
      server_step s None (mkServer q' (srv_engine s) (srv_out s) (srv_exited s))
  | server_push q' o :           (* [handler.run] *)
      q_step (srv_queue s) (Some (Pushed o)) q' ->
      server_step s (Some (Pushed o)) (mkServer q' (srv_engine s) (srv_out s) (srv_exited s))
  | server_shutdown q' :         (* [queue.shutdown()] *)
      q_step (srv_queue s) (Some ShutDown) q' ->
      server_step s (Some ShutDown) (mkServer q' (srv_engine s) (srv_out s) (srv_exited s))
  | server_pop q' o e' r :
      srv_exited s = false -> q_step (srv_queue s) (Some (Popped o)) q' ->
      submit_order (srv_engine s) o = Ret (e', r) ->
      server_step s (Some (Popped o)) (mkServer q' e' (srv_out s ++ report r) false)
  | server_drained q' :
      srv_exited s = false -> q_step (srv_queue s) (Some Drained) q' ->
      server_step s (Some Drained) (mkServer q' (srv_engine s) (srv_out s) true).

(** The invariant: the queue's simulation, the engine's state as a function of
    the orders popped, and, once the consumer has left, a drained queue. *)
Record server_inv (tr : list event) (s : server) (f : fifo) : Prop := {
  sinv_run : fifo_run fifo_empty tr = Some f;
  sinv_sim : q_sim (srv_queue s) f;
  sinv_engine : consume (new_MatchingEngine default_band) (popped tr) = Ret (srv_engine s, srv_out s);
  sinv_exited : srv_exited s = true -> closed f = true /\ (length (items f) <= late f)%nat
}.

Lemma server_trace_inv tr s :
  trace server_step server_init tr s -> q_range (length (pushed tr)) -> exists f, server_inv tr s f.
Proof.
  induction 1 as [|tr s1 s2 _ IH Hstep|tr s1 e s2 _ IH Hstep]; intros Hr.
  { exists fifo_empty. split; try done. apply q_init_sim. }
  - destruct (IH Hr) as (f & [Hrun Hsim Heng Hex]). exists f.
    destruct (fifo_run_items _ _ Hrun) as [_ Htot]. rewrite <-Htot in Hr.
    inversion Hstep as [q' Hq| | | |]; subst. split; try done. by eapply q_silent.
  - rewrite pushed_snoc, length_app in Hr.
    destruct (IH (q_range_down _ _ (Nat.le_add_r _ _) Hr)) as (f & [Hrun Hsim Heng Hex]).
    destruct (fifo_run_items _ _ Hrun) as [_ Htot]. rewrite <-Htot in Hr.
    assert (exists q', q_step (srv_queue s1) (Some e) q' /\ srv_queue s2 = q') as (q' & Hq & Hq').
    { inversion Hstep; subst; eauto. }
    destruct (q_event _ _ _ _ Hsim Hr Hq) as (f' & Hf & Hsim'). exists f'.
    assert (fifo_run fifo_empty (tr ++ [e]) = Some f') as Hrun' by (by rewrite fifo_run_snoc, Hrun).
    split; [done|by rewrite Hq'| |]; rewrite ?popped_snoc, ?pushed_snoc;
      inversion Hstep; subst; simpl in *; unfold popped, pushed in *; simpl; rewrite ?app_nil_r; try done.
    + by eapply consume_snoc.
    + intros Hx. destruct (Hex Hx) as [Hc Hlen]. injection Hf as <-. simpl. rewrite Hc.
      rewrite length_app. simpl. split; [done|lia].
    + intros Hx. destruct (Hex Hx) as [Hc Hlen]. injection Hf as <-. done.
    + intros _. destruct (closed f) eqn:Hc; simpl in Hf; [|done].
      destruct (Nat.leb_spec (length (items f)) (late f)); [|done]. by injection Hf as <-.
Qed.
End server.

(** ** Facts about the consumer *)

(** The consumer is a session of submissions. *)
Lemma consume_serve_all e os :
  consume e os =
    '(e', rs) ← serve_all e (Submit <$> os);
    Ret (e', concat ((fun r => match r with Submitted x => report x | Cancelled _ => [] end) <$> rs)).
Proof.
  revert e. induction os as [|o os IH]; intros e; simpl; [done|].
  destruct (submit_order e o) as [[e1 r]| | |]; simpl; try done. rewrite IH.
  change (list_fmap Order request Submit os) with (Submit <$> os).
  by destruct (serve_all e1 (Submit <$> os)) as [[e2 rs]| | |].
Qed.

Lemma consume_returns os :
  Forall admissible os -> exists e ls, consume (new_MatchingEngine default_band) os = Ret (e, ls) /\
    engine_ok e.
Proof.
  intros Hos. rewrite consume_serve_all.
  destruct (serve_all_engine_ok (new_MatchingEngine default_band) (Submit <$> os)) as (e & rs & -> & He).
  - apply new_engine_ok.
  - by apply Forall_fmap.
  - simpl. eauto.
Qed.

Section lift.
Context {Q : Type} `{OrderQueue Q}.

(** Every behaviour of the queue up to the end of the consumer is one of the
    server: the consumer can always submit what it popped. *)
Lemma server_follows tr q :
  trace q_step q_init tr q -> q_range (length (pushed tr)) -> Forall admissible (pushed tr) ->
  Drained ∉ tr -> exists s, trace server_step server_init tr s /\ srv_queue s = q /\ srv_exited s = false.
Proof.
  intros Htr. induction Htr as [|tr q1 q2 Htr IH Hstep|tr q1 e q2 Htr IH Hstep]; intros Hr Hok Hnd.
  { exists server_init. split; [constructor|done]. }
  - destruct (IH Hr Hok Hnd) as (s & Hs & <- & Hx).
    eexists. split; [eapply trace_silent; [done|by apply server_silent]|done].
  - assert (Hr' := Hr). rewrite pushed_snoc, length_app in Hr'.
    assert (Hok' := Hok). rewrite pushed_snoc in Hok'. apply Forall_app in Hok' as [Hok1 _].
    destruct (IH (q_range_down _ _ (Nat.le_add_r _ _) Hr') Hok1) as (s & Hs & <- & Hx); [set_solver|].
    destruct e as [o|o| |].
    + eexists. split; [eapply trace_event; [done|by apply server_push]|done].
    + destruct (server_trace_inv _ _ Hs (q_range_down _ _ (Nat.le_add_r _ _) Hr')) as (f & [_ _ Heng _]).
      assert (popped (tr ++ [Popped o]) `prefix_of` pushed (tr ++ [Popped o])) as [rest Hpre].
      { eapply popped_prefix; [|done]. by eapply trace_event. }
      rewrite popped_snoc in Hpre. rewrite Hpre in Hok.
      apply Forall_app in Hok as [[Hpop Ho]%Forall_app _]. unfold popped in Ho. simpl in Ho.
      apply Forall_cons in Ho as [Ho _].
      destruct (consume_returns _ Hpop) as (e & ls & Hc & He). rewrite Heng in Hc. simplify_eq.
      destruct (submit_engine_ok _ o He Ho) as (e' & r & Hsub & _).
      eexists. split; [eapply trace_event; [done|by eapply server_pop]|done].
    + set_solver.
    + eexists. split; [eapply trace_event; [done|by apply server_shutdown]|done].
Qed.

End lift.

(** ** Properties *)

(** For every implementation of the order queue, if nothing is pushed after
    the shutdown, then once the consumer thread has left its loop the engine
    state and the printed lines are exactly those of a single thread submitting
    the pushed orders one after the other: the threads add no reordering, loss
    or duplication. *)
Theorem server_equals_sequential {Q : Type} `{OrderQueue Q} (tr : list event) (s : server) :
  trace server_step server_init tr s -> q_range (length (pushed tr)) -> quiet tr ->
  srv_exited s = true ->
  consume (new_MatchingEngine default_band) (pushed tr) = Ret (srv_engine s, srv_out s).
Proof.
  intros Htr Hr Hquiet Hx. destruct (server_trace_inv tr s Htr Hr) as (f & [Hrun _ Heng Hex]).
  destruct (Hex Hx) as [_ Hlen]. rewrite (fifo_run_late _ _ _ Hrun Hquiet) in Hlen by done.
  destruct (fifo_run_items _ _ Hrun) as [-> _].
  destruct (items f); simpl in Hlen; [by rewrite app_nil_r|lia].
Qed.
