(* ===== verification/ShardRouter.v ===== *)
(** * The gateway's router ([include/shard_router_queue.hpp])

    [push] appends an order to the log of the shard that owns its symbol. *)

From stdpp Require Import pretty.
From S2P Require Import Prelude Double Order Sharding OrderQueue Bytes Files LogQueue.

(** [base_path + "_shard" + std::to_string(i)]. *)
Definition shard_base (base_path : string) (i : nat) : string :=
  base_path +:+ "_shard" +:+ pretty i.

Record ShardRouterQueue := mkRouter {
  num_shards_ : Z;
  shards_ : list LogBackedOrderQueue
}.

(** The constructor's loop, from shard [i] on. *)
Fixpoint make_shards (fs : filesystem) (base_path : string) (i n : nat)
    : outcome (filesystem * list LogBackedOrderQueue) :=
  match n with
  | O => Ret (fs, [])
  | S n' =>
    '(fs1, q) ← new_LogBackedOrderQueue fs (shard_base base_path i) "";
    '(fs2, qs) ← make_shards fs1 base_path (S i) n';
    Ret (fs2, q :: qs)
  end.

Definition new_ShardRouterQueue (fs : filesystem) (base_path : string) (num_shards : Z)
    : outcome (filesystem * ShardRouterQueue) :=
  '(fs', qs) ← make_shards fs base_path 0 (Z.to_nat num_shards);
  Ret (fs', mkRouter num_shards qs).

(** [push]; indexing [shards_] out of range is undefined. *)
Definition router_push (fs : filesystem) (r : ShardRouterQueue) (pad : list char) (o : Order)
    : outcome filesystem :=
  shard ← shard_for_symbol (symbol_str o) (num_shards_ r);
  match shards_ r !! Z.to_nat shard with
  | Some q => Ret (log_push fs (log_path_ q) pad o)
  | None => Undef
  end.

(** [pop] and [shutdown]. *)
Definition router_pop (r : ShardRouterQueue) : outcome Order :=
  Throw "ShardRouterQueue: gateway does not consume orders".

Definition router_shutdown (r : ShardRouterQueue) : ShardRouterQueue := r.

(** A gateway pushing a sequence of orders, each with its padding bytes. *)
Fixpoint router_push_all (fs : filesystem) (r : ShardRouterQueue) (os : list (list char * Order))
    : outcome filesystem :=
  match os with
  | [] => Ret fs
  | (pad, o) :: os' => fs' ← router_push fs r pad o; router_push_all fs' r os'
  end.

(** ** Facts *)

(** The shard an order belongs to. *)
Definition shard_of (n : Z) (o : Order) : nat := Z.to_nat (fnv1a (symbol_str o) mod n).

Definition shard_log (base : string) (i : nat) : string := log_path (shard_base base i).

Lemma shard_log_inj base i j : shard_log base i = shard_log base j -> i = j.
Proof.
  unfold shard_log, log_path, shard_base. intros H%append_inj_r.
  apply append_inj_l, append_inj_l in H. by apply (inj pretty) in H.
Qed.

(** Opening the logs creates the missing ones, empty, and changes no contents. *)
Lemma make_shards_spec fs base i n :
  denied fs = ∅ ->
  exists fs' qs, make_shards fs base i n = Ret (fs', qs) /\ denied fs' = ∅ /\
    length qs = n /\ (forall p, contents fs' p = contents fs p) /\
    (forall p, (forall k, p <> shard_log base k) -> files fs' !! p = files fs !! p) /\
    (forall j, (j < n)%nat -> log_path_ <$> qs !! j = Some (shard_log base (i + j))).
Proof.
  revert fs i. induction n as [|n IH]; intros fs i Hden; cbn [make_shards].
  { exists fs, []. split_and!; try done. intros j Hj. lia. }
  unfold new_LogBackedOrderQueue, fopen_append. cbn [log_path_].
  rewrite decide_False by (rewrite Hden; set_solver). cbn [mbind outcome_bind].
  set (fs1 := set_contents fs _ _).
  destruct (IH fs1 (S i)) as (fs2 & qs & -> & Hden2 & Hlen & Hc & Hf & Hq); [done|].
  cbn [mbind outcome_bind]. eexists fs2, _. split; [done|]. split_and!; [done|simpl; lia| | |].
  - intros p. rewrite Hc. subst fs1.
    destruct (decide (log_path (shard_base base i) = p)) as [<-|Hne];
      [apply contents_set_eq|by apply contents_set_ne].
  - intros p Hne. rewrite Hf by done. subst fs1. cbn [files set_contents].
    apply lookup_insert_ne. intros E. by apply (Hne i).
  - intros [|j] Hj; cbn.
    + by rewrite Nat.add_0_r.
    + rewrite Hq by lia. unfold shard_log. do 3 f_equal. lia.
Qed.

Lemma new_router_spec fs base n :
  denied fs = ∅ -> 0 <= n ->
  exists fs' r, new_ShardRouterQueue fs base n = Ret (fs', r) /\ num_shards_ r = n /\
    denied fs' = ∅ /\ (forall p, contents fs' p = contents fs p) /\
    (forall p, (forall k, p <> shard_log base k) -> files fs' !! p = files fs !! p) /\
    (forall j, (j < Z.to_nat n)%nat -> log_path_ <$> shards_ r !! j = Some (shard_log base j)).
Proof.
  intros Hden Hn. unfold new_ShardRouterQueue.
  destruct (make_shards_spec fs base 0 (Z.to_nat n) Hden) as (fs' & qs & -> & Hd & _ & Hc & Hf & Hq).
  cbn. eexists fs', _. split_and!; done.
Qed.

Section routing.
Context (base : string) (n : Z) (r : ShardRouterQueue).
Context (Hn : 0 < n < 2 ^ 32) (Hnum : num_shards_ r = n).
Context (Hshards : forall j, (j < Z.to_nat n)%nat -> log_path_ <$> shards_ r !! j = Some (shard_log base j)).

Lemma shard_of_lt o : (shard_of n o < Z.to_nat n)%nat.
Proof. unfold shard_of. pose proof (Z.mod_pos_bound (fnv1a (symbol_str o)) n ltac:(lia)). lia. Qed.

Lemma router_push_spec fs pad o :
  router_push fs r pad o = Ret (log_push fs (shard_log base (shard_of n o)) pad o).
Proof.
  unfold router_push. rewrite Hnum.
  destruct (shard_for_symbol_ret (symbol_str o) n Hn) as [-> _]. cbn [mbind outcome_bind].
  fold (shard_of n o). pose proof (Hshards _ (shard_of_lt o)) as Hq.
  destruct (shards_ r !! shard_of n o) as [q|]; [|done]. by injection Hq as ->.
Qed.

(** The bytes a sequence of pushes adds to the log of shard [k]. *)
Definition shard_records (k : nat) (os : list (list char * Order)) : list (list char) :=
  (fun p => encode_order p.1 p.2) <$> filter (fun p => shard_of n p.2 = k) os.

Lemma router_push_all_spec fs os :
  exists fs', router_push_all fs r os = Ret fs' /\
    (forall k, contents fs' (shard_log base k) =
       contents fs (shard_log base k) ++ concat (shard_records k os)) /\
    denied fs' = denied fs /\
    (forall p, (forall k, p <> shard_log base k) -> files fs' !! p = files fs !! p).
Proof.
  revert fs. induction os as [|[pad o] os IH]; intros fs; cbn [router_push_all].
  { exists fs. split_and!; try done. intros k. by rewrite app_nil_r. }
  rewrite router_push_spec. cbn [mbind outcome_bind].
  destruct (IH (log_push fs (shard_log base (shard_of n o)) pad o)) as (fs' & -> & Hk & Hd & Hp).
  exists fs'. split; [done|]. unfold log_push, fwrite_append in *. split_and!; [|done|].
  - intros k. rewrite Hk. unfold shard_records.
    destruct (decide (shard_of n o = k)) as [<-|Hne].
    + rewrite contents_set_eq, filter_cons_True by done. rewrite fmap_cons. cbn [concat fst snd].
      by rewrite app_assoc.
    + rewrite filter_cons_False by done. rewrite contents_set_ne; [done|].
      by intros ?%shard_log_inj.
  - intros p Hne. rewrite Hp by done. cbn [files set_contents].
    apply lookup_insert_ne. intros E. by apply (Hne (shard_of n o)).
Qed.
End routing.

(** ** Properties *)

(** A gateway with any positive number of shards accepts every order, and the
    log of each shard grows by exactly the records of the orders whose symbol
    hashes to it, in the order they were pushed: orders for one symbol are all
    in one log, in order, and no order is dropped, duplicated or put elsewhere. *)
Theorem router_partitions (base : string) (n : Z) (fs : filesystem) (os : list (list char * Order)) :
  denied fs = ∅ -> 0 < n < 2 ^ 32 ->
  exists fs1 r fs2, new_ShardRouterQueue fs base n = Ret (fs1, r) /\
    router_push_all fs1 r os = Ret fs2 /\
    (forall k, contents fs2 (shard_log base k) =
       contents fs (shard_log base k) ++ concat (shard_records n k os)) /\
    (forall p, (forall k, p <> shard_log base k) -> files fs2 !! p = files fs !! p).
Proof.
  intros Hden Hn.
  destruct (new_router_spec fs base n Hden) as (fs1 & r & Hnew & Hnum & _ & Hc & Hf & Hsh); [lia|].
  destruct (router_push_all_spec base n r Hn Hnum Hsh fs1 os) as (fs2 & Hpush & Hk & _ & Hp).
  exists fs1, r, fs2. split_and!; [done|done| |].
  - intros k. by rewrite Hk, Hc.
  - intros p Hne. by rewrite Hp, Hf.
Qed.
