(* ===== verification/LeaderLock.v ===== *)
(** * Leader election by file lock ([include/shard_leader_lock.hpp])

    Each replica of a shard holds a [ShardLeaderLock] on the shard's lock file.
    The kernel's side of [flock] is its documented behaviour for one file: the
    exclusive lock has at most one owner, a non-blocking request fails while
    another process owns it, and the death of the owner releases it. *)

From S2P Require Import Prelude.

Record ShardLeaderLock := mkLock { fd_ : Z; held_ : bool }.

(** The constructor, on the result of [open]. *)
Definition new_ShardLeaderLock (open_result : Z) : ShardLeaderLock := mkLock open_result false.

(** Whether [try_acquire] reaches its [flock] call. *)
Definition calls_flock (l : ShardLeaderLock) : bool := negb (held_ l) && negb (fd_ l <? 0).

(** [try_acquire], on the result the [flock] call would give. *)
Definition try_acquire (l : ShardLeaderLock) (flock : Z) : ShardLeaderLock * bool :=
  if held_ l then (l, true)
  else if fd_ l <? 0 then (l, false)
  else
    let l' := mkLock (fd_ l) (if flock =? 0 then true else held_ l) in
    (l', held_ l').

Definition held (l : ShardLeaderLock) : bool := held_ l.

(** ** Replicas and the kernel *)

Record election := mkElection {
  lock_owner : option nat;                 (* the kernel: the process owning the lock *)
  replicas : gmap nat ShardLeaderLock      (* the live processes *)
}.

Inductive election_action :=
  | Start (p : nat) (open_result : Z)
  | Poll (p : nat)                         (* [try_acquire] *)
  | Die (p : nat).                         (* exit, crash or kill -9 *)

(** [flock(fd, LOCK_EX | LOCK_NB)] by process [p]: [0], or [-1] if another owns it. *)
Definition flock_result (e : election) (p : nat) : Z :=
  match lock_owner e with
  | None => 0
  | Some q => if decide (q = p) then 0 else -1
  end.

Definition election_step (e : election) (a : election_action) : option election :=
  match a with
  | Start p fd =>
    match replicas e !! p with
    | Some _ => None
    | None => Some (mkElection (lock_owner e) (<[p := new_ShardLeaderLock fd]> (replicas e)))
    end
  | Poll p =>
    l ← replicas e !! p;
    let r := flock_result e p in
    let owner := if calls_flock l && (r =? 0) then Some p else lock_owner e in
    Some (mkElection owner (<[p := (try_acquire l r).1]> (replicas e)))
  | Die p =>
    Some (mkElection (if decide (lock_owner e = Some p) then None else lock_owner e)
                     (delete p (replicas e)))
  end.

Fixpoint election_run (e : election) (acts : list election_action) : option election :=
  match acts with
  | [] => Some e
  | a :: acts' => e' ← election_step e a; election_run e' acts'
  end.

Definition no_replicas : election := mkElection None ∅.

(** The kernel's owner is the one live process whose [held_] is set. *)
Definition election_ok (e : election) : Prop :=
  (forall p l, replicas e !! p = Some l -> (held_ l = true <-> lock_owner e = Some p)) /\
  (forall p, lock_owner e = Some p -> is_Some (replicas e !! p)).

(** A poll that does not acquire anything. *)
Lemma poll_idle_ok e p l l' :
  election_ok e -> replicas e !! p = Some l -> held_ l' = held_ l ->
  election_ok (mkElection (lock_owner e) (<[p := l']> (replicas e))).
Proof.
  intros [Hheld Hown] Hl Heq. split; simpl.
  - intros q lq [[<- <-]|[_ Hq]]%lookup_insert_Some; [rewrite Heq|]; by apply Hheld.
  - intros q Hq%Hown. destruct (decide (p = q)) as [->|Hne];
      [by rewrite lookup_insert_eq|by rewrite lookup_insert_ne].
Qed.

(** A poll that acquires the free lock. *)
Lemma poll_acquire_ok e p l' :
  election_ok e -> lock_owner e = None -> held_ l' = true ->
  election_ok (mkElection (Some p) (<[p := l']> (replicas e))).
Proof.
  intros [Hheld Hown] Ho Hh. split; simpl.
  - intros q lq [[<- <-]|[Hne Hq]]%lookup_insert_Some; [done|].
    rewrite (Hheld _ _ Hq), Ho. split; congruence.
  - intros q [= <-]. by rewrite lookup_insert_eq.
Qed.

Lemma election_poll_ok e p e' : election_ok e -> election_step e (Poll p) = Some e' -> election_ok e'.
Proof.
  intros Hok Hs. simpl in Hs. apply bind_Some in Hs as (l & Hl & [= <-]).
  unfold try_acquire, calls_flock. destruct (held_ l) eqn:Hh; [by eapply poll_idle_ok|].
  destruct (fd_ l <? 0); [by eapply poll_idle_ok|]. unfold flock_result. cbn [negb andb].
  destruct (lock_owner e) as [q|] eqn:Ho; [|by apply poll_acquire_ok].
  rewrite decide_False; [rewrite <-Ho; by eapply poll_idle_ok|].
  intros ->. apply (proj1 Hok _ _ Hl) in Ho. congruence.
Qed.

Lemma election_step_ok e a e' : election_ok e -> election_step e a = Some e' -> election_ok e'.
Proof.
  intros Hok Hs. destruct a as [p fd|p|p]; [|by eapply election_poll_ok|]; simpl in Hs;
    pose proof Hok as [Hheld Hown].
  - destruct (replicas e !! p) eqn:Hp; simplify_eq. split; simpl.
    + intros q l [[<- <-]|[Hne Hl]]%lookup_insert_Some; [|by apply Hheld].
      split; [done|]. intros [? ?]%Hown. congruence.
    + intros q Hq%Hown. destruct (decide (p = q)) as [->|Hne];
        [by rewrite lookup_insert_eq|by rewrite lookup_insert_ne].
  - injection Hs as <-. split; simpl.
    + intros q l [Hne Hl]%lookup_delete_Some. rewrite (Hheld _ _ Hl).
      case_decide; [|done]. split; congruence.
    + intros q Hq. case_decide; [done|]. rewrite lookup_delete_ne by congruence. by apply Hown.
Qed.

Lemma election_run_ok acts e e' : election_ok e -> election_run e acts = Some e' -> election_ok e'.
Proof.
  revert e. induction acts as [|a acts IH]; intros e Hok Hr; simpl in Hr; [by simplify_eq|].
  apply bind_Some in Hr as (e1 & Ha & Hr). by eapply IH, Hr; eapply election_step_ok.
Qed.

Lemma no_replicas_ok : election_ok no_replicas.
Proof. by split. Qed.

(** ** Properties *)

(** In every sequence of starts, lock polls and deaths of replicas, at most one
    live replica believes it is the leader; and once the leader is dead, the next
    replica with an open lock file that polls the lock becomes the leader. *)
Theorem one_leader (acts : list election_action) (e : election) :
  election_run no_replicas acts = Some e ->
  (forall p q lp lq, replicas e !! p = Some lp -> replicas e !! q = Some lq ->
     held lp = true -> held lq = true -> p = q) /\
  (forall p q lq, lock_owner e = Some p -> p <> q -> replicas e !! q = Some lq -> 0 <= fd_ lq ->
     exists e', election_run e [Die p; Poll q] = Some e' /\ lock_owner e' = Some q /\
       held <$> replicas e' !! q = Some true).
Proof.
  intros Hrun. pose proof (election_run_ok _ _ _ no_replicas_ok Hrun) as [Hheld _]. split.
  - intros p q lp lq Hp Hq H1 H2. apply (Hheld _ _ Hp) in H1. apply (Hheld _ _ Hq) in H2. congruence.
  - intros p q lq Hp Hne Hq Hfd. cbn. rewrite decide_True by done.
    rewrite lookup_delete_ne, Hq by done. cbn.
    assert (held_ lq = false) as Hh.
    { destruct (held_ lq) eqn:E; [|done]. apply (Hheld _ _ Hq) in E. congruence. }
    unfold calls_flock, try_acquire. rewrite Hh. destruct (Z.ltb_spec (fd_ lq) 0); [lia|]. cbn.
    eexists. split; [done|]. cbn. by rewrite lookup_insert_eq.
Qed.

