(* ===== verification/EngineVM.v ===== *)
(** * The engine process ([src/engine_main.cpp])

    One process per replica of a shard: it reads the shard's log, runs one
    [MatchingEngine] per symbol, and, while it holds the leader lock, publishes
    the trades and prints.  The result of the [flock] call a pop may lead to is
    an argument of the step that handles the popped order. *)

From S2P Require Import Prelude Double Order Sharding PriceCollar OrderBook MatchingEngine Refinement CancelIndex Session OrderQueue Bytes Files LogQueue ShardRouter LeaderLock TradeLog.

(** The lines printed. *)
Inductive vm_line :=
  | Promoted
  | ShardWarning (symbol : string) (expected : Z)
  | NowServing (symbol : string)
  | VMTrade (symbol : string) (t : Trade)
  | VMReject (symbol : string) (r : Rejection).

(** The variables of [main] that the loop changes. *)
Record EngineVM := mkVM {
  vm_leader : ShardLeaderLock;
  vm_active : bool;
  vm_engines : gmap string MatchingEngine
}.

(** Before the loop: [active = leader.try_acquire()] and no engines. *)
Definition vm_start (open_result flock : Z) : EngineVM :=
  let '(l, a) := try_acquire (new_ShardLeaderLock open_result) flock in
  mkVM l a ∅.

(** [if (!active) { active = leader.try_acquire(); ... }]. *)
Definition vm_poll_leader (vm : EngineVM) (flock : Z) : EngineVM * list vm_line :=
  if vm_active vm then (vm, [])
  else let '(l, a) := try_acquire (vm_leader vm) flock in
       (mkVM l a (vm_engines vm), if a then [Promoted] else []).

(** [engines.try_emplace(symbol)] then [it->second.submit_order(order)]; the
    boolean is [inserted]. *)
Definition apply_order (engines : gmap string MatchingEngine) (o : Order)
    : outcome (gmap string MatchingEngine * bool * SubmitResult) :=
  let symbol := symbol_str o in
  let '(e, inserted) :=
    match engines !! symbol with
    | Some e => (e, false)
    | None => (new_MatchingEngine default_band, true)
    end in
  '(e', r) ← submit_order e o;
  Ret (<[symbol := e']> engines, inserted, r).

(** The trades of a result, which the active replica publishes. *)
Definition result_trades (r : SubmitResult) : list Trade :=
  match r with inl ts => ts | inr _ => [] end.

Definition vm_report (symbol : string) (r : SubmitResult) : list vm_line :=
  match r with
  | inl ts => VMTrade symbol <$> ts
  | inr rej => [VMReject symbol rej]
  end.

(** The body of [while (queue.pop(order))]. *)
Definition vm_handle (shard_id num_shards : Z) (fs : filesystem) (trades : string)
    (vm : EngineVM) (flock : Z) (o : Order) : outcome (filesystem * EngineVM * list vm_line) :=
  let '(vm1, promoted) := vm_poll_leader vm flock in
  let symbol := symbol_str o in
  expected ← shard_for_symbol symbol num_shards;
  let warning := if expected =? shard_id then [] else [ShardWarning symbol expected] in
  '(engines, inserted, r) ← apply_order (vm_engines vm1) o;
  let vm2 := mkVM (vm_leader vm1) (vm_active vm1) engines in
  let serving := if inserted && vm_active vm1 then [NowServing symbol] else [] in
  if negb (vm_active vm1) then Ret (fs, vm2, promoted ++ warning ++ serving)
  else
    Ret (foldl (fun fs t => publish fs trades t) fs (result_trades r), vm2,
         promoted ++ warning ++ serving ++ vm_report symbol r).

(** The loop over the orders the pops return, each with the [flock] result of
    its turn. *)
Fixpoint vm_run (shard_id num_shards : Z) (fs : filesystem) (trades : string)
    (vm : EngineVM) (os : list (Z * Order)) : outcome (filesystem * EngineVM * list vm_line) :=
  match os with
  | [] => Ret (fs, vm, [])
  | (flock, o) :: os' =>
    '(fs1, vm1, ls) ← vm_handle shard_id num_shards fs trades vm flock o;
    '(fs2, vm2, ls') ← vm_run shard_id num_shards fs1 trades vm1 os';
    Ret (fs2, vm2, ls ++ ls')
  end.

(** ** The engines alone *)

(** What the orders do to the map of engines, with the result of each. *)
Fixpoint apply_all (engines : gmap string MatchingEngine) (os : list Order)
    : outcome (gmap string MatchingEngine * list SubmitResult) :=
  match os with
  | [] => Ret (engines, [])
  | o :: os' =>
    '(m, _, r) ← apply_order engines o;
    '(m', rs) ← apply_all m os';
    Ret (m', r :: rs)
  end.

Definition of_symbol (sym : string) (os : list Order) : list Order :=
  filter (fun o => symbol_str o = sym) os.

(** A dedicated engine for one symbol. *)
Definition engine_for (m : gmap string MatchingEngine) (sym : string) : MatchingEngine :=
  match m !! sym with Some e => e | None => new_MatchingEngine default_band end.

Definition engines_ok (m : gmap string MatchingEngine) : Prop :=
  forall sym e, m !! sym = Some e -> engine_ok e.

Lemma engines_ok_empty : engines_ok ∅.
Proof. by intros sym e. Qed.

Lemma engine_for_ok m sym : engines_ok m -> engine_ok (engine_for m sym).
Proof.
  intros Hm. unfold engine_for. destruct (m !! sym) eqn:E; [by eapply Hm|apply new_engine_ok].
Qed.

Lemma apply_order_eq m o :
  apply_order m o =
    '(e', r) ← submit_order (engine_for m (symbol_str o)) o;
    Ret (<[symbol_str o := e']> m, bool_decide (m !! symbol_str o = None), r).
Proof. unfold apply_order, engine_for. by destruct (m !! symbol_str o). Qed.

Lemma apply_order_returns m o :
  engines_ok m -> admissible o ->
  exists e' r, submit_order (engine_for m (symbol_str o)) o = Ret (e', r) /\
    apply_order m o = Ret (<[symbol_str o := e']> m, bool_decide (m !! symbol_str o = None), r) /\
    engines_ok (<[symbol_str o := e']> m).
Proof.
  intros Hm Ho.
  destruct (submit_engine_ok _ o (engine_for_ok m (symbol_str o) Hm) Ho) as (e' & r & Hs & He' & _).
  exists e', r. split; [done|]. rewrite apply_order_eq, Hs. split; [done|].
  intros sym e [[_ <-]|[_ H]]%lookup_insert_Some; [done|by eapply Hm].
Qed.

(** The engine of each symbol, and the results of its orders, are those of a
    dedicated engine that sees only that symbol's orders. *)
Lemma apply_all_symbol m os :
  engines_ok m -> Forall admissible os ->
  exists m' rs, apply_all m os = Ret (m', rs) /\ engines_ok m' /\ length rs = length os /\
    forall sym,
      serve_all (engine_for m sym) (Submit <$> of_symbol sym os) =
        Ret (engine_for m' sym,
             Submitted <$> (filter (fun p => symbol_str p.1 = sym) (zip os rs)).*2).
Proof.
  intros Hm Hos. revert m Hm. induction Hos as [|o os Ho _ IH]; intros m Hm; cbn [apply_all].
  { exists m, []. by split_and!. }
  destruct (apply_order_returns m o Hm Ho) as (e' & r & Hs & -> & Hm'). cbn [mbind outcome_bind].
  destruct (IH _ Hm') as (m' & rs & -> & Hok & Hlen & Hsym). cbn [mbind outcome_bind].
  exists m', (r :: rs). split_and!; [done|done|simpl; lia|]. intros sym. specialize (Hsym sym).
  unfold of_symbol in *. cbn [zip zip_with]. destruct (decide (symbol_str o = sym)) as [Heq|Hne].
  - rewrite !filter_cons_True by done. rewrite !fmap_cons. cbn [serve_all serve snd].
    rewrite <-Heq, Hs. cbn [mbind outcome_bind fst snd].
    unfold engine_for at 1 in Hsym. rewrite <-Heq in Hsym. rewrite lookup_insert_eq in Hsym.
    by rewrite Hsym.
  - rewrite !filter_cons_False by done. unfold engine_for at 1 in Hsym.
    rewrite lookup_insert_ne in Hsym by done. exact Hsym.
Qed.

(** ** The process *)

Lemma apply_all_cons m o os m1 b r :
  apply_order m o = Ret (m1, b, r) ->
  apply_all m (o :: os) = '(m', rs) ← apply_all m1 os; Ret (m', r :: rs).
Proof. intros H. cbn [apply_all]. by rewrite H. Qed.

Lemma publish_all_app fs path ts ts' :
  foldl (fun fs t => publish fs path t) fs (ts ++ ts') =
  foldl (fun fs t => publish fs path t) (foldl (fun fs t => publish fs path t) fs ts) ts'.
Proof. apply foldl_app. Qed.

Lemma publish_all_contents path fs ts :
  contents (foldl (fun fs t => publish fs path t) fs ts) path =
  contents fs path ++ concat (encode_trade <$> ts).
Proof.
  revert fs. induction ts as [|t ts IH]; intros fs; simpl; [by rewrite app_nil_r|].
  rewrite IH. unfold publish, fwrite_append. by rewrite contents_set_eq, <-app_assoc.
Qed.

Section process.
Context (shard_id num_shards : Z) (path : string).
Context (Hn : 0 < num_shards < 2 ^ 32).

Lemma vm_handle_eq fs vm flock o :
  engines_ok (vm_engines vm) -> admissible o ->
  exists m b r ls, apply_order (vm_engines vm) o = Ret (m, b, r) /\ engines_ok m /\
    let vm1 := (vm_poll_leader vm flock).1 in
    vm_handle shard_id num_shards fs path vm flock o =
      Ret (if vm_active vm1 then foldl (fun fs t => publish fs path t) fs (result_trades r) else fs,
           mkVM (vm_leader vm1) (vm_active vm1) m, ls).
Proof.
  intros Hm Ho. destruct (apply_order_returns _ o Hm Ho) as (e' & r & _ & Ha & Hm').
  assert (vm_engines (vm_poll_leader vm flock).1 = vm_engines vm) as Heng.
  { unfold vm_poll_leader. destruct (vm_active vm); [done|]. by destruct (try_acquire _ _). }
  unfold vm_handle. destruct (shard_for_symbol_ret (symbol_str o) num_shards Hn) as [-> _].
  destruct (vm_poll_leader vm flock) as [vm1 promoted]. cbn [fst] in *. cbn [mbind outcome_bind].
  rewrite Heng, Ha. cbn [mbind outcome_bind].
  destruct (vm_active vm1); cbn [negb]; do 4 eexists; split_and!; done.
Qed.

(** A run that publishes everything, and one that publishes nothing. *)
Lemma vm_run_active fs vm os :
  engines_ok (vm_engines vm) -> Forall admissible os.*2 -> vm_active vm = true ->
  exists m rs ls, apply_all (vm_engines vm) os.*2 = Ret (m, rs) /\ engines_ok m /\
    vm_run shard_id num_shards fs path vm os =
      Ret (foldl (fun fs t => publish fs path t) fs (concat (result_trades <$> rs)),
           mkVM (vm_leader vm) true m, ls).
Proof.
  revert fs vm. induction os as [|[flock o] os IH]; intros fs vm Hm Hos Hact.
  { destruct vm; simpl in *; subst. by exists vm_engines0, [], []. }
  cbn in Hos. apply Forall_cons in Hos as [Ho Hos].
  destruct (vm_handle_eq fs vm flock o Hm Ho) as (m & b & r & ls & Ha & Hm1 & Hh).
  rewrite fmap_cons, (apply_all_cons _ _ _ _ _ _ Ha). cbn [vm_run]. cbv zeta in Hh. rewrite Hh.
  unfold vm_poll_leader in *. rewrite Hact in *. cbn [fst mbind outcome_bind]. rewrite Hact.
  destruct (IH (foldl (fun fs t => publish fs path t) fs (result_trades r))
               (mkVM (vm_leader vm) true m) Hm1 Hos eq_refl) as (m' & rs & ls' & Ha' & Hm' & Hr).
  cbn [vm_engines] in Ha'. rewrite Ha', Hr. cbn [mbind outcome_bind].
  exists m', (r :: rs), (ls ++ ls'). split_and!; [done|done|].
  rewrite fmap_cons. cbn [concat]. by rewrite publish_all_app.
Qed.

Lemma vm_run_standby fs vm os :
  engines_ok (vm_engines vm) -> Forall admissible os.*2 ->
  vm_active vm = false -> held_ (vm_leader vm) = false -> Forall (fun p => p.1 <> 0) os ->
  exists m rs ls, apply_all (vm_engines vm) os.*2 = Ret (m, rs) /\ engines_ok m /\
    vm_run shard_id num_shards fs path vm os = Ret (fs, mkVM (vm_leader vm) false m, ls).
Proof.
  revert vm. induction os as [|[flock o] os IH]; intros vm Hm Hos Hact Hheld Hfl.
  { destruct vm; simpl in *; subst. by exists vm_engines0, [], []. }
  cbn in Hos. apply Forall_cons in Hos as [Ho Hos]. apply Forall_cons in Hfl as [Hf Hfl].
  destruct (vm_handle_eq fs vm flock o Hm Ho) as (m & b & r & ls & Ha & Hm1 & Hh).
  rewrite fmap_cons, (apply_all_cons _ _ _ _ _ _ Ha). cbn [vm_run]. cbv zeta in Hh. rewrite Hh.
  assert (try_acquire (vm_leader vm) flock = (vm_leader vm, false)) as Htry.
  { unfold try_acquire. rewrite Hheld. destruct (fd_ (vm_leader vm) <? 0); [done|].
    simpl in Hf. rewrite (proj2 (Z.eqb_neq _ _) Hf). destruct (vm_leader vm). simpl in *. by subst. }
  unfold vm_poll_leader. rewrite Hact, Htry. cbn [fst mbind outcome_bind vm_active vm_leader].
  destruct (IH (mkVM (vm_leader vm) false m) Hm1 Hos eq_refl Hheld Hfl) as (m' & rs & ls' & Ha' & Hm' & Hr).
  cbn [vm_engines vm_leader] in Ha', Hr. rewrite Ha', Hr. cbn [mbind outcome_bind].
  exists m', (r :: rs), (ls ++ ls'). split_and!; done.
Qed.

(** The engines of a replica depend on the orders alone. *)
Lemma vm_run_engines fs vm os :
  engines_ok (vm_engines vm) -> Forall admissible os.*2 ->
  exists fs' vm' rs ls, apply_all (vm_engines vm) os.*2 = Ret (vm_engines vm', rs) /\
    vm_run shard_id num_shards fs path vm os = Ret (fs', vm', ls).
Proof.
  revert fs vm. induction os as [|[flock o] os IH]; intros fs vm Hm Hos.
  { by exists fs, vm, [], []. }
  cbn in Hos. apply Forall_cons in Hos as [Ho Hos].
  destruct (vm_handle_eq fs vm flock o Hm Ho) as (m & b & r & ls & Ha & Hm1 & Hh).
  rewrite fmap_cons, (apply_all_cons _ _ _ _ _ _ Ha). cbn [vm_run]. cbv zeta in Hh. rewrite Hh.
  cbn [mbind outcome_bind].
  match goal with
  | |- context [vm_run _ _ ?fs1 _ ?vm1 os] =>
      destruct (IH fs1 vm1 Hm1 Hos) as (fs' & vm' & rs & ls' & Ha' & Hr)
  end.
  cbn [vm_engines] in Ha'. rewrite Ha', Hr. cbn [mbind outcome_bind].
  exists fs', vm', (r :: rs), (ls ++ ls'). done.
Qed.

(** A standby that finds the lock free at its next order publishes from then on. *)
Lemma vm_run_promoted fs vm o os :
  engines_ok (vm_engines vm) -> Forall admissible ((0, o) :: os).*2 ->
  vm_active vm = false -> held_ (vm_leader vm) = false -> 0 <= fd_ (vm_leader vm) ->
  exists m rs vm' ls, apply_all (vm_engines vm) ((0, o) :: os).*2 = Ret (m, rs) /\
    vm_run shard_id num_shards fs path vm ((0, o) :: os) =
      Ret (foldl (fun fs t => publish fs path t) fs (concat (result_trades <$> rs)), vm', ls).
Proof.
  intros Hm Hos Hact Hheld Hfd. cbn in Hos. apply Forall_cons in Hos as [Ho Hos].
  destruct (vm_handle_eq fs vm 0 o Hm Ho) as (m & b & r & ls & Ha & Hm1 & Hh).
  rewrite fmap_cons, (apply_all_cons _ _ _ _ _ _ Ha). cbn [vm_run]. cbv zeta in Hh. rewrite Hh.
  unfold vm_poll_leader, try_acquire. rewrite Hact, Hheld.
  destruct (Z.ltb_spec (fd_ (vm_leader vm)) 0); [lia|].
  cbn [fst mbind outcome_bind vm_active vm_leader held_ Z.eqb].
  destruct (vm_run_active (foldl (fun fs t => publish fs path t) fs (result_trades r))
              (mkVM (mkLock (fd_ (vm_leader vm)) true) true m) os Hm1 Hos eq_refl)
    as (m' & rs & ls' & Ha' & _ & Hr).
  cbn [vm_engines vm_leader] in Ha', Hr. rewrite Ha', Hr. cbn [mbind outcome_bind].
  exists m', (r :: rs). do 2 eexists. split; [done|].
  rewrite fmap_cons. cbn [concat]. by rewrite publish_all_app.
Qed.

Lemma vm_run_app fs vm os1 os2 fs1 vm1 ls1 :
  vm_run shard_id num_shards fs path vm os1 = Ret (fs1, vm1, ls1) ->
  vm_run shard_id num_shards fs path vm (os1 ++ os2) =
    '(fs2, vm2, ls2) ← vm_run shard_id num_shards fs1 path vm1 os2; Ret (fs2, vm2, ls1 ++ ls2).
Proof.
  revert fs vm ls1. induction os1 as [|[flock o] os1 IH]; intros fs vm ls1 Hr; cbn in Hr |- *.
  { injection Hr as <- <- <-. by destruct (vm_run _ _ _ _ _ os2) as [[[? ?] ?]| | |]. }
  destruct (vm_handle _ _ _ _ _ _ _) as [[[fs2 vm2] ls2]| | |]; try done. cbn in Hr |- *.
  apply bind_Ret in Hr as ([[fs3 vm3] ls3] & Hr & [= -> -> <-]).
  rewrite (IH _ _ _ Hr). cbn.
  destruct (vm_run _ _ fs1 _ _ os2) as [[[? ?] ?]| | |]; cbn; try done. by rewrite app_assoc.
Qed.
End process.

Lemma apply_all_length m os m' rs : apply_all m os = Ret (m', rs) -> length rs = length os.
Proof.
  revert m rs. induction os as [|o os IH]; intros m rs Hr; cbn in Hr; [by simplify_eq|].
  apply bind_Ret in Hr as ([[m1 b] r] & _ & Hr). apply bind_Ret in Hr as ([m2 rs2] & Hr & [= -> <-]).
  simpl. f_equal. by eapply IH.
Qed.

Lemma apply_all_app m os1 os2 m1 rs1 :
  apply_all m os1 = Ret (m1, rs1) ->
  apply_all m (os1 ++ os2) = '(m2, rs2) ← apply_all m1 os2; Ret (m2, rs1 ++ rs2).
Proof.
  revert m rs1. induction os1 as [|o os1 IH]; intros m rs1 Hr; cbn in Hr |- *.
  { injection Hr as -> <-. by destruct (apply_all m1 os2) as [[? ?]| | |]. }
  apply bind_Ret in Hr as ([[m2 b] r] & -> & Hr). apply bind_Ret in Hr as ([m3 rs3] & Hr & [= -> <-]).
  cbn. rewrite (IH _ _ Hr). by destruct (apply_all m1 os2) as [[? ?]| | |].
Qed.

Lemma apply_all_split m os1 os2 m' rs :
  apply_all m (os1 ++ os2) = Ret (m', rs) ->
  exists m1, apply_all m os1 = Ret (m1, take (length os1) rs) /\
    apply_all m1 os2 = Ret (m', drop (length os1) rs).
Proof.
  revert m rs. induction os1 as [|o os1 IH]; intros m rs Hr; cbn in Hr |- *; [eauto|].
  apply bind_Ret in Hr as ([[m1 b] r] & -> & Hr). apply bind_Ret in Hr as ([m2 rs2] & Hr & [= -> <-]).
  destruct (IH _ _ Hr) as (m3 & Ha & Hb). exists m3. cbn. rewrite Ha. done.
Qed.

Lemma apply_all_at m os m' rs i :
  (i <= length os)%nat -> apply_all m os = Ret (m', rs) ->
  exists m1, apply_all m (take i os) = Ret (m1, take i rs) /\
    apply_all m1 (drop i os) = Ret (m', drop i rs).
Proof.
  intros Hi Hr. rewrite <-(take_drop i os) in Hr. apply apply_all_split in Hr.
  by rewrite length_take, Nat.min_l in Hr by done.
Qed.

(** Orders handled with the same [flock] result. *)
Definition with_flock (flock : Z) (os : list Order) : list (Z * Order) := pair flock <$> os.

Lemma with_flock_snd flock os : (with_flock flock os).*2 = os.
Proof.
  unfold with_flock. rewrite <-list_fmap_compose. rewrite <-(list_fmap_id os) at 2.
  by apply list_fmap_ext.
Qed.

(** ** Properties *)

(** Two replicas of a shard that read the same orders end with the same
    engines, whatever becomes of their attempts to get the leader lock; and the
    engine of each symbol is in the state of a dedicated engine that was
    submitted that symbol's orders alone, in log order: symbols sharing a shard
    do not affect each other, and a standby is always ready to take over. *)
Theorem replicas_agree (shard_id num_shards : Z) (fs1 fs2 : filesystem) (path : string)
    (open1 open2 lock1 lock2 : Z) (os1 os2 : list (Z * Order)) :
  0 < num_shards < 2 ^ 32 -> Forall admissible os1.*2 -> os1.*2 = os2.*2 ->
  exists fs1' vm1 ls1 fs2' vm2 ls2,
    vm_run shard_id num_shards fs1 path (vm_start open1 lock1) os1 = Ret (fs1', vm1, ls1) /\
    vm_run shard_id num_shards fs2 path (vm_start open2 lock2) os2 = Ret (fs2', vm2, ls2) /\
    vm_engines vm1 = vm_engines vm2 /\
    forall sym, exists rs,
      serve_all (new_MatchingEngine default_band) (Submit <$> of_symbol sym os1.*2) =
        Ret (engine_for (vm_engines vm1) sym, rs).
Proof.
  intros Hn Hos Heq.
  assert (forall a b, vm_engines (vm_start a b) = ∅) as Hempty.
  { intros a b. unfold vm_start. by destruct (try_acquire _ _). }
  destruct (vm_run_engines shard_id num_shards path Hn fs1 (vm_start open1 lock1) os1)
    as (fs1' & vm1 & rs1 & ls1 & Ha1 & Hr1); [rewrite Hempty; apply engines_ok_empty|done|].
  destruct (vm_run_engines shard_id num_shards path Hn fs2 (vm_start open2 lock2) os2)
    as (fs2' & vm2 & rs2 & ls2 & Ha2 & Hr2); [rewrite Hempty; apply engines_ok_empty|by rewrite <-Heq|].
  rewrite Hempty in Ha1, Ha2. rewrite <-Heq, Ha1 in Ha2. simplify_eq.
  exists fs1', vm1, ls1, fs2', vm2, ls2. split_and!; [done|done|done|]. intros sym.
  destruct (apply_all_symbol ∅ os1.*2 engines_ok_empty Hos) as (m' & rs & Ha & _ & _ & Hsym).
  rewrite Ha1 in Ha. simplify_eq. eexists. exact (Hsym sym).
Qed.

(** What a failover leaves in the trade log.  The leader published the trades
    of the first [i] orders of the shard's log and died; the standby, which has
    read [j] orders when it next finds the lock free, publishes from order [j]
    on.  The log then holds the trades of the orders before [i] followed by those
    of the orders from [j] on: every trade once when [i = j], the trades of the
    orders from [j] to [i] twice when the standby lags, and those of the orders
    from [i] to [j] never when it is ahead. *)
Theorem failover_trade_log (shard_id num_shards : Z) (fs : filesystem) (path : string)
    (os : list Order) (i j : nat) (fd1 fd2 : Z) :
  0 < num_shards < 2 ^ 32 -> Forall admissible os ->
  (i <= length os)%nat -> (j < length os)%nat -> 0 <= fd1 -> 0 <= fd2 ->
  exists m rs fs1 vm1 ls1 fs2 vm2 ls2,
    apply_all ∅ os = Ret (m, rs) /\
    vm_run shard_id num_shards fs path (vm_start fd1 0) (with_flock 0 (take i os)) = Ret (fs1, vm1, ls1) /\
    vm_run shard_id num_shards fs1 path (vm_start fd2 (-1))
      (with_flock (-1) (take j os) ++ with_flock 0 (drop j os)) = Ret (fs2, vm2, ls2) /\
    contents fs2 path = contents fs path ++
      concat (encode_trade <$> concat (result_trades <$> take i rs)) ++
      concat (encode_trade <$> concat (result_trades <$> drop j rs)).
Proof.
  intros Hn Hos Hi Hj Hf1 Hf2.
  destruct (apply_all_symbol ∅ os engines_ok_empty Hos) as (m & rs & Ha & _).
  destruct (apply_all_at _ _ _ _ i Hi Ha) as (m1 & Ha1 & _).
  destruct (apply_all_at _ _ _ _ j (Nat.lt_le_incl _ _ Hj) Ha) as (m2 & Ha2 & Ha3).
  destruct (vm_run_active shard_id num_shards path Hn fs (mkVM (mkLock fd1 true) true ∅)
              (with_flock 0 (take i os))) as (m1' & rs1 & ls1 & Hb1 & _ & Hr1);
    [apply engines_ok_empty|rewrite with_flock_snd; by apply Forall_take|done|].
  rewrite with_flock_snd in Hb1. cbn [vm_engines] in Hb1. rewrite Ha1 in Hb1. simplify_eq.
  set (fs1 := foldl _ fs _) in Hr1.
  destruct (vm_run_standby shard_id num_shards path Hn fs1 (mkVM (mkLock fd2 false) false ∅)
              (with_flock (-1) (take j os))) as (m2' & rs2 & ls2 & Hb2 & Hm2 & Hr2);
    [apply engines_ok_empty|rewrite with_flock_snd; by apply Forall_take|done|done| |].
  { apply Forall_fmap, Forall_forall. by intros o _. }
  cbn [vm_leader] in Hr2. rewrite with_flock_snd in Hb2. cbn [vm_engines] in Hb2. rewrite Ha2 in Hb2. simplify_eq.
  destruct (drop j os) as [|o rest] eqn:Hd.
  { apply (f_equal length) in Hd. rewrite length_drop in Hd. simpl in Hd. lia. }
  destruct (vm_run_promoted shard_id num_shards path Hn fs1 (mkVM (mkLock fd2 false) false m2') o
              (with_flock 0 rest)) as (m3 & rs3 & vm3 & ls3 & Hb3 & Hr3);
    [done| |done|done|done|].
  { rewrite fmap_cons, with_flock_snd. cbn [snd]. rewrite <-Hd. by apply Forall_drop. }
  rewrite fmap_cons, with_flock_snd in Hb3. cbn [vm_engines snd] in Hb3. rewrite Ha3 in Hb3. simplify_eq.
  assert (vm_start fd1 0 = mkVM (mkLock fd1 true) true ∅) as ->.
  { unfold vm_start, try_acquire. cbn. by destruct (Z.ltb_spec fd1 0); [lia|]. }
  assert (vm_start fd2 (-1) = mkVM (mkLock fd2 false) false ∅) as ->.
  { unfold vm_start, try_acquire. cbn. by destruct (Z.ltb_spec fd2 0). }
  eexists m3, rs, _, _, _, _, _, _. split_and!; [done|exact Hr1| |].
  - rewrite (vm_run_app _ _ _ _ _ _ _ _ _ _ Hr2). change (with_flock 0 (o :: rest)) with ((0, o) :: with_flock 0 rest).
    rewrite Hr3. done.
  - rewrite publish_all_contents. subst fs1. by rewrite publish_all_contents, <-app_assoc.
Qed.
