(* ===== verification/EngineMain.v ===== *)
(** * The engine process on its disk, from the order log to the trade subscribers

    The [main] of [src/engine_main.cpp] with its calls in the order the program
    makes them: each turn polls the shard's log, and an order that was read is
    handled at once, publishing to the trade log on the same disk.  The section
    before it shows that the trades of well-typed orders are well typed, which is
    what their round trip through the trade log needs. *)

From S2P Require Import Prelude Double Rounding StdMap Order Sharding PriceCollar OrderBook MatchingEngine Exchange ExchangeFacts Refinement CancelIndex Session OrderQueue Bytes Files LogQueue ShardRouter LeaderLock TradeLog EngineVM.

(** ** Well-typed engines and trades *)

(** What rests in the book of symbol [sym]: orders of that symbol, every field in
    the range of its type. *)
Definition rest_wt (sym : string) (o : Order) : Prop :=
  order_wt o /\ valid_double (price o) /\ symbol_str o = sym.

Record engine_wt (sym : string) (e : MatchingEngine) : Prop := {
  ew_rest : forall s, Forall (rest_wt sym) (resting s (book_ e));
  ew_last : forall p, last_price_ e = Some p -> valid_double p;
  ew_next : u64 (next_timestamp_ e)
}.

(** The orders an engine process can meet. *)
Definition order_ok (o : Order) : Prop := order_wt o /\ valid_double (price o) /\ admissible o.

#[global] Instance order_ok_dec o : Decision (order_ok o).
Proof. unfold order_ok. apply _. Defined.

Lemma stamp_u64 inc ts fs :
  u64 ts -> Forall (fun t => u64 (trade_timestamp t)) (stamp inc ts fs).
Proof.
  revert ts. induction fs as [|[o q] fs IH]; intros ts Hts; simpl; constructor.
  - unfold make_trade. by destruct (side inc).
  - apply IH. apply wrap64_u64.
Qed.

Lemma ticks_u64 ts n : u64 ts -> u64 (ticks ts n).
Proof. revert ts. induction n as [|n IH]; intros ts Hts; simpl; [done|]. apply IH, wrap64_u64. Qed.

Lemma last_fill_cases p fs q : last_fill p fs = Some q -> p = Some q \/ exists f, f ∈ fs /\ q = price f.1.
Proof.
  unfold last_fill. revert p. induction fs as [|f fs IH]; intros p H; simpl in H; [by left|].
  apply IH in H as [[= <-]|(g & Hg & ->)]; right; [exists f|exists g]; set_solver.
Qed.

(** An order left in the book differs from the one that was there in its remaining
    quantity only. *)
Lemma walk_rest_shape inc q l w x :
  walk_view inc q l w -> x ∈ w_rest w -> exists y, y ∈ l /\ x = with_remaining y (remaining_quantity x).
Proof.
  intros [dn tl left -> _ _ _ _|dn o tl f -> _ Hf _]; unfold w_rest; simpl.
  - intros Hx. exists x. split; [set_solver|]. by destruct x.
  - rewrite elem_of_cons. intros [->|Hx]; [exists o|exists x]; (split; [set_solver|]); [done|by destruct x].
Qed.

Lemma rest_wt_reduced sym y x :
  rest_wt sym y -> 0 < remaining_quantity x <= quantity x ->
  x = with_remaining y (remaining_quantity x) -> rest_wt sym x.
Proof.
  intros ((? & ? & ? & Hq & _ & ?) & ? & ?) Hx E. rewrite E in Hx |- *. split; [|done].
  unfold order_wt, u64 in *. cbn in *. split_and!; try done; lia.
Qed.

Section Submit.
Context (sym : string) (e : MatchingEngine) (o : Order).
Context (He : engine_ok e) (Hwt : engine_wt sym e) (Ho : order_ok o) (Hsym : symbol_str o = sym).

Lemma submit_trades_wt e' ts : submit_order e o = Ret (e', inl ts) -> Forall trade_wt ts.
Proof using He Hwt Ho.
  intros Hs. destruct Ho as ((Hid & _) & _ & Hadm).
  destruct (submit_trades e o e' ts He Hadm Hs) as (Hw & -> & _).
  set (w := walk _ _ _) in *. set (inc := x_arrive (abs e) o) in *.
  pose proof (walk_fills_sound _ _ _ _ (engine_ok_pos e (opposite (side o)) He) Hw) as Hfills.
  pose proof (stamp_u64 inc (next_timestamp_ e +ᵤ 1) (w_fills w) (wrap64_u64 _)) as Hts.
  pose proof (ew_rest _ _ Hwt (opposite (side o))) as Hrest. apply Forall_forall. intros t Ht.
  rewrite Forall_forall in Hfills. rewrite Forall_forall in Hts. rewrite Forall_forall in Hrest.
  specialize (Hts t Ht). destruct (stamp_elem _ _ _ _ Ht) as (f & u & Hf & ->).
  destruct (Hfills f Hf) as (Hin & Hq & _). destruct (Hrest _ Hin) as ((Hfid & _ & _ & _ & Hrem & _) & Hfp & _).
  assert (u64 (order_id inc)) as Hiid by exact Hid.
  assert (u64 f.2) as Hf2 by (unfold u64 in *; lia).
  unfold trade_wt, make_trade in *. destruct (side inc); simpl in *; done.
Qed.

Lemma submit_accepted_wt e' ts :
  submit_order e o = Ret (e', inl ts) -> engine_ok e' -> engine_wt sym e'.
Proof using He Hwt Ho Hsym.
  intros Hs He'. destruct Ho as ((Hid & Hc & Hlen & Hq & _ & _) & Hp & Hadm).
  destruct (submit_trades e o e' ts He Hadm Hs) as (Hw & _ & Hopp & Hown & Hlast & Hnext).
  set (w := walk _ _ _) in *. destruct Hwt as [Hrest Hl Hn].
  pose proof (fun s => proj1 (Forall_forall _ _) (engine_ok_rests e' s He')) as Hpos.
  split.
  - apply (side_cases (fun s => Forall (rest_wt sym) (resting s (book_ e'))) (side o)); apply Forall_forall; intros x Hx;
      destruct (Hpos _ _ Hx) as (_ & _ & _ & Hrem & _).
    + rewrite Hown in Hx. destruct (remainder_rests o w); [apply x_insert_elem in Hx as [-> | Hx]|];
        [|by apply (proj1 (Forall_forall _ _) (Hrest (side o)))..].
      apply (rest_wt_reduced sym (x_arrive (abs e) o)); [|done|done]. split; [|done].
      unfold order_wt. cbn. split_and!; done.
    + rewrite Hopp in Hx. destruct (walk_rest_shape _ _ _ _ _ Hw Hx) as (y & Hy & E).
      eapply rest_wt_reduced; [|done|done]. by apply (proj1 (Forall_forall _ _) (Hrest (opposite (side o)))).
  - intros p Hlp. rewrite Hlast in Hlp. apply last_fill_cases in Hlp as [?|(f & Hf & ->)]; [by apply Hl|].
    pose proof (walk_fills_sound _ _ _ _ (engine_ok_pos e (opposite (side o)) He) Hw) as Hfills.
    rewrite Forall_forall in Hfills. destruct (Hfills f Hf) as (Hin & _).
    by apply (proj1 (Forall_forall _ _) (Hrest (opposite (side o)))).
  - rewrite Hnext. apply ticks_u64, wrap64_u64.
Qed.

Lemma submit_engine_wt e' r : submit_order e o = Ret (e', r) -> engine_wt sym e'.
Proof using He Hwt Ho Hsym.
  intros Hs. destruct Ho as (_ & _ & Hadm).
  destruct (submit_engine_ok e o He Hadm) as (e1 & r1 & Hs1 & He1 & Hx).
  rewrite Hs in Hs1. injection Hs1 as <- <-. destruct r as [ts|rej]; [by eapply submit_accepted_wt|].
  destruct (accepted (x_verdict (abs e) o)) eqn:Hacc.
  - destruct (x_submit_accepted (abs e) o Hacc) as (x' & Hx' & _). by rewrite Hx in Hx'.
  - rewrite x_submit_rejected in Hx by done. injection Hx as Hb Ha _ Hl Hn _. destruct Hwt as [Hrest Hlast _].
    split; [intros []; cbn in *; rewrite <-?Hb, <-?Ha; [exact (Hrest BUY)|exact (Hrest SELL)]|by rewrite <-Hl|rewrite <-Hn; apply wrap64_u64].
Qed.

End Submit.

Definition engines_wt (m : gmap string MatchingEngine) : Prop :=
  engines_ok m /\ forall sym e, m !! sym = Some e -> engine_wt sym e.

Lemma engines_wt_empty : engines_wt ∅.
Proof. split; [apply engines_ok_empty|]. by intros sym e. Qed.

Lemma new_engine_wt sym band : engine_wt sym (new_MatchingEngine band).
Proof. split; [intros []; constructor|done|by vm_compute]. Qed.

Lemma apply_order_wt m o m' b r :
  engines_wt m -> order_ok o -> apply_order m o = Ret (m', b, r) ->
  engines_wt m' /\ Forall trade_wt (result_trades r).
Proof.
  intros [Hok Hwt] Ho Ha. pose proof Ho as (_ & _ & Hadm).
  destruct (apply_order_returns m o Hok Hadm) as (e' & r' & Hs & Ha' & Hok').
  rewrite Ha in Ha'. injection Ha' as -> -> <-.
  assert (engine_wt (symbol_str o) (engine_for m (symbol_str o))) as He.
  { unfold engine_for. destruct (m !! symbol_str o) eqn:E; [by eapply Hwt|apply new_engine_wt]. }
  pose proof (engine_for_ok m (symbol_str o) Hok) as Heok.
  split; [split; [done|]|].
  - intros sym e [[<- <-]|[_ H]]%lookup_insert_Some; [by eapply submit_engine_wt|by eapply Hwt].
  - destruct r as [ts|rej]; [by eapply submit_trades_wt|constructor].
Qed.

Lemma apply_all_wt m os m' rs :
  engines_wt m -> Forall order_ok os -> apply_all m os = Ret (m', rs) ->
  engines_wt m' /\ Forall trade_wt (concat (result_trades <$> rs)).
Proof.
  intros Hm Hos. revert m rs Hm. induction Hos as [|o os Ho _ IH]; intros m rs Hm Hr; cbn in Hr.
  { injection Hr as <- <-. by split. }
  apply bind_Ret in Hr as ([[m1 b] r] & Ha & Hr). apply bind_Ret in Hr as ([m2 rs2] & Hr & [= -> <-]).
  destruct (apply_order_wt _ _ _ _ _ Hm Ho Ha) as [Hm1 Ht].
  destruct (IH _ _ Hm1 Hr) as [Hm2 Hts]. split; [done|]. cbn. by apply Forall_app.
Qed.

(** ** The program *)

(** [while (queue.pop(order)) { ... }]: [polls] turns of the loop inside [pop],
    each order read being handled before the next turn.  [flocks] has for each
    order what [flock] would return at that point, used when the replica calls it; a
    call past their end fails. *)
Fixpoint engine_loop (polls : nat) (shard_id num_shards : Z) (trades : string) (fs : filesystem)
    (q : LogBackedOrderQueue) (vm : EngineVM) (flocks : list Z)
    : outcome (filesystem * LogBackedOrderQueue * EngineVM * list vm_line) :=
  match polls with
  | O => Ret (fs, q, vm, [])
  | S polls' =>
    '(fs1, q1, r) ← log_poll fs q;
    match r with
    | Finished => Ret (fs1, q1, vm, [])
    | Retry => engine_loop polls' shard_id num_shards trades fs1 q1 vm flocks
    | Got o =>
      '(fs2, vm2, ls) ← vm_handle shard_id num_shards fs1 trades vm (default (-1) (head flocks)) o;
      '(fs3, q3, vm3, ls') ← engine_loop polls' shard_id num_shards trades fs2 q1 vm2 (tail flocks);
      Ret (fs3, q3, vm3, ls ++ ls')
    end
  end.

(** [main], on the results of [open] and of the first [flock].  The constructor of the
    lock between the two logs throws nothing and only keeps [open]'s result; the lock
    file it creates stays empty, is read by nobody and is not put on the disk. *)
Definition engine_main (polls : nat) (fs : filesystem) (shard_id : nat) (log_base : string)
    (num_shards : Z) (replica_id : string) (open_result flock : Z) (flocks : list Z)
    : outcome (filesystem * LogBackedOrderQueue * EngineVM * list vm_line) :=
  let base := shard_base log_base shard_id in
  '(fs1, q) ← new_LogBackedOrderQueue fs base replica_id;
  '(fs2, trades) ← new_TradeLog fs1 base;
  engine_loop polls (Z.of_nat shard_id) num_shards trades fs2 q (vm_start open_result flock) flocks.

(** *** Its files *)

Lemma trades_path_log base : trades_path base <> log_path base.
Proof. unfold trades_path, log_path. by intros H%append_inj_l. Qed.

Lemma trades_path_consumer base base' id : trades_path base <> checkpoint_path base' id.
Proof. unfold trades_path, checkpoint_path. differ_in_last. Qed.

Lemma log_path_sub base base' id : log_path base <> sub_checkpoint_path base' id.
Proof. unfold log_path, sub_checkpoint_path. differ_in_last. Qed.

Lemma consumer_sub base id id' : checkpoint_path base id <> sub_checkpoint_path base id'.
Proof. unfold checkpoint_path, sub_checkpoint_path. intros H%append_inj_l. by case_decide. Qed.

Lemma publish_all_sim base id path ts s f :
  log_sim base id s f -> path <> log_path base -> path <> checkpoint_path base id ->
  log_sim base id (mkLogSystem (foldl (fun fs t => publish fs path t) (ls_fs s) ts) (ls_queue s)) f.
Proof.
  intros Hsim H1 H2. revert s Hsim. induction ts as [|t ts IH]; intros s Hsim; cbn [foldl].
  { by destruct s. }
  unfold publish at 2. unfold fwrite_append.
  apply (IH (mkLogSystem (set_contents (ls_fs s) path _) (ls_queue s))). by apply log_sim_other.
Qed.

Lemma publish_all_frame path ts fs p :
  p <> path -> files (foldl (fun fs t => publish fs path t) fs ts) !! p = files fs !! p.
Proof.
  intros Hne. revert fs. induction ts as [|t ts IH]; intros fs; cbn [foldl]; [done|].
  rewrite IH. cbn. by rewrite lookup_insert_ne.
Qed.

(** *** The loop of a leader *)

(** What a leader prints for an order whose symbol it has or has not [seen], and
    for a list of orders. *)
Definition order_lines (shard_id num_shards : Z) (seen : gset string) (o : Order) (r : SubmitResult)
    : list vm_line :=
  let sym := symbol_str o in
  (if fnv1a sym mod num_shards =? shard_id then [] else [ShardWarning sym (fnv1a sym mod num_shards)]) ++
  (if decide (sym ∈ seen) then [] else [NowServing sym]) ++ vm_report sym r.

Fixpoint leader_lines (shard_id num_shards : Z) (seen : gset string) (os : list Order) (rs : list SubmitResult)
    : list vm_line :=
  match os, rs with
  | o :: os', r :: rs' =>
    order_lines shard_id num_shards seen o r ++
    leader_lines shard_id num_shards (seen ∪ {[ symbol_str o ]}) os' rs'
  | _, _ => []
  end.

Lemma leader_lines_app shard_id n seen os1 rs1 os2 rs2 :
  length rs1 = length os1 ->
  leader_lines shard_id n seen (os1 ++ os2) (rs1 ++ rs2) =
  leader_lines shard_id n seen os1 rs1 ++
  leader_lines shard_id n (seen ∪ list_to_set (symbol_str <$> os1)) os2 rs2.
Proof.
  revert rs1 seen. induction os1 as [|o os1 IH]; intros [|r rs1] seen Hl; try done; cbn [app leader_lines].
  { f_equal. set_solver. }
  injection Hl as Hl. rewrite IH, <-app_assoc by done. do 3 f_equal. set_solver.
Qed.

Lemma apply_all_dom m os m' rs :
  apply_all m os = Ret (m', rs) -> dom m' = dom m ∪ list_to_set (symbol_str <$> os).
Proof.
  revert m rs. induction os as [|o os IH]; intros m rs H; cbn in H.
  { injection H as <- <-. set_solver. }
  apply bind_Ret in H as ([[m1 b] r] & Ha & H). apply bind_Ret in H as ([m2 rs2] & H & [= -> <-]).
  rewrite (IH _ _ H). unfold apply_order in Ha.
  assert (exists e, m1 = <[symbol_str o := e]> m) as [e ->].
  { destruct (m !! symbol_str o); apply bind_Ret in Ha as ([e' r'] & _ & [= <- _ _]); eauto. }
  set_solver.
Qed.

Lemma leader_lines_split shard_id n os1 os2 m rs1 rs2 :
  apply_all ∅ os1 = Ret (m, rs1) ->
  leader_lines shard_id n ∅ os1 rs1 ++ leader_lines shard_id n (dom m) os2 rs2 =
  leader_lines shard_id n ∅ (os1 ++ os2) (rs1 ++ rs2).
Proof.
  intros Ha. rewrite leader_lines_app by apply (apply_all_length _ _ _ _ Ha).
  by rewrite (apply_all_dom _ _ _ _ Ha), dom_empty_L.
Qed.

Section loop.
Context (base id trades : string) (shard_id num_shards : Z).
Context (Hn : 0 < num_shards < 2 ^ 32).
Context (Hlog : trades <> log_path base) (Hcp : trades <> checkpoint_path base id).

Lemma vm_handle_leads fs vm flock o :
  engines_ok (vm_engines vm) -> admissible o -> vm_active vm = true ->
  exists m b r, apply_order (vm_engines vm) o = Ret (m, b, r) /\ engines_ok m /\
    vm_handle shard_id num_shards fs trades vm flock o =
      Ret (foldl (fun fs t => publish fs trades t) fs (result_trades r), mkVM (vm_leader vm) true m,
           order_lines shard_id num_shards (dom (vm_engines vm)) o r).
Proof using Hn.
  intros Hm Ho Hact. destruct (apply_order_returns _ o Hm Ho) as (e' & r & _ & Ha & Hm').
  do 3 eexists. split_and!; [done|done|]. unfold vm_handle, vm_poll_leader, order_lines. rewrite Hact.
  destruct (shard_for_symbol_ret (symbol_str o) num_shards Hn) as [-> _]. cbn [mbind outcome_bind].
  rewrite Ha. cbn [mbind outcome_bind]. rewrite Hact. cbn [negb app]. rewrite andb_true_r.
  destruct (decide (symbol_str o ∈ dom (vm_engines vm))) as [Hd|Hd].
  - rewrite bool_decide_false; [done|]. by intros Hs%not_elem_of_dom.
  - by rewrite bool_decide_true by (by apply not_elem_of_dom).
Qed.

(** What [polls] turns of an active process do: they handle that many of the
    unread orders. *)
Lemma engine_loop_active polls s f vm flocks :
  log_sim base id s f -> log_range (total f) ->
  Forall admissible (items f) -> engines_ok (vm_engines vm) -> vm_active vm = true ->
  exists s' vm' rs,
    engine_loop polls shard_id num_shards trades (ls_fs s) (ls_queue s) vm flocks =
      Ret (ls_fs s', ls_queue s', vm',
           leader_lines shard_id num_shards (dom (vm_engines vm)) (take polls (items f)) rs) /\
    apply_all (vm_engines vm) (take polls (items f)) = Ret (vm_engines vm', rs) /\
    engines_ok (vm_engines vm') /\ vm_active vm' = true /\
    log_sim base id s' (mkFifo (drop polls (items f)) (closed f) (late f) (total f)) /\
    contents (ls_fs s') trades =
      contents (ls_fs s) trades ++ concat (encode_trade <$> concat (result_trades <$> rs)) /\
    forall p, p <> trades -> p <> checkpoint_path base id -> files (ls_fs s') !! p = files (ls_fs s) !! p.
Proof using Hn Hlog Hcp.
  assert (forall s f vm, log_sim base id s f -> items f = [] ->
    log_sim base id s (mkFifo [] (closed f) (late f) (total f)) /\
    contents (ls_fs s) trades = contents (ls_fs s) trades ++ concat (encode_trade <$> concat (result_trades <$> [])) /\
    apply_all (vm_engines vm) [] = Ret (vm_engines vm, [])) as Hidle.
  { intros s0 [? ? ? ?] vm0 Hs0 Hi. cbn in *. subst. by rewrite app_nil_r. }
  revert s f vm flocks. induction polls as [|polls IH]; intros s f vm flocks Hsim Hr Hos Hm Hact.
  { exists s, vm, []. destruct f as [its cl lt tot]. cbn. split_and!; try done. by rewrite app_nil_r. }
  cbn [engine_loop]. pose proof (log_poll_cases base id s f Hsim Hr) as Hpoll.
  destruct (items f) as [|o rest] eqn:Hi.
  { rewrite Hpoll. cbn [mbind outcome_bind]. rewrite take_nil, drop_nil.
    destruct (closed f) eqn:Hc.
    { destruct (Hidle s f vm Hsim Hi) as (H1 & H2 & H3). rewrite Hc in H1. by exists s, vm, []. }
    destruct (IH s f vm flocks Hsim Hr) as (s' & vm' & rs & Hl & Ha & Hrest); rewrite ?Hi; try done.
    rewrite Hi, Hc, ?take_nil, ?drop_nil in *. rewrite Hl. eauto 10. }
  destruct Hpoll as (s1 & Hpoll & Hsim1). rewrite Hpoll. cbn [mbind outcome_bind].
  apply Forall_cons in Hos as [Ho Hos].
  destruct (vm_handle_leads (ls_fs s1) vm (default (-1) (head flocks)) o Hm Ho Hact) as (m & b & r & Ha & Hm1 & ->).
  cbn [mbind outcome_bind].
  pose proof (publish_all_sim base id trades (result_trades r) s1 _ Hsim1 Hlog Hcp) as Hsim2.
  destruct (IH _ _ (mkVM (vm_leader vm) true m) (tail flocks) Hsim2) as
    (s' & vm' & rs & Hl & Ha' & Hok & Hact' & Hsim' & Hct & Hframe); try done.
  cbn [ls_fs ls_queue vm_engines items closed late total] in *. rewrite Hl. cbn [mbind outcome_bind].
  exists s', vm', (r :: rs). cbn [take drop]. rewrite (apply_all_cons _ _ _ _ _ _ Ha), Ha'.
  assert (forall p, p <> checkpoint_path base id -> files (ls_fs s1) !! p = files (ls_fs s) !! p) as Hf1.
  { intros p Hp. apply (log_poll_frame _ _ _ _ _ p Hpoll).
    by rewrite (lsim_checkpoint _ _ _ _ Hsim). }
  split_and!; try done.
  - cbn [leader_lines]. pose proof (apply_all_dom (vm_engines vm) [o] m [r]) as Hdom. cbn in Hdom. rewrite Ha in Hdom.
    rewrite (Hdom eq_refl). do 4 f_equal. set_solver.
  - rewrite Hct, publish_all_contents, fmap_cons. cbn [concat].
    rewrite fmap_app, concat_app, app_assoc. unfold contents at 1. rewrite Hf1 by done. done.
  - intros p Hp1 Hp2. rewrite Hframe, publish_all_frame, Hf1 by done. done.
Qed.
End loop.

(** A fresh log filled by a gateway. *)
Definition push_orders (pad : Order -> list char) (path : string) (os : list Order) (fs : filesystem)
    : filesystem :=
  foldl (fun fs o => log_push fs path (pad o) o) fs os.

Lemma push_orders_spec pad path os fs :
  denied (push_orders pad path os fs) = denied fs /\
  contents (push_orders pad path os fs) path =
    contents fs path ++ concat ((fun o => encode_order (pad o) o) <$> os) /\
  forall p, p <> path -> files (push_orders pad path os fs) !! p = files fs !! p.
Proof.
  unfold push_orders. revert fs. induction os as [|o os IH]; intros fs; cbn [foldl].
  { by rewrite app_nil_r. }
  destruct (IH (log_push fs path (pad o) o)) as (Hd & Hc & Hf). split_and!; [done| |].
  - rewrite Hc. unfold log_push, fwrite_append. rewrite contents_set_eq, fmap_cons. cbn [concat].
    by rewrite app_assoc.
  - intros p Hp. rewrite Hf by done. cbn. by rewrite lookup_insert_ne.
Qed.

Lemma encoded_orders (pad : Order -> list char) os :
  (forall o, length (pad o) = 6%nat) -> Forall order_ok os ->
  all_of_size sizeof_Order ((fun o => encode_order (pad o) o) <$> os) /\
  decode_order <$> ((fun o => encode_order (pad o) o) <$> os) = os.
Proof.
  intros Hpad. induction 1 as [|o os (Hwt & Hv & _) _ [IH1 IH2]]; [split; [constructor|done]|].
  rewrite !fmap_cons, IH2, decode_encode_order by done. split; [|done].
  constructor; [|done]. apply encode_order_length; [done|]. apply Hwt.
Qed.

(** What [main] does on such a log when it becomes the leader at once. *)
Lemma engine_main_reads log_base replica k n pad os polls fd flocks :
  let base := shard_base log_base k in
  let fs := push_orders pad (log_path base) os (mkFS ∅ ∅) in
  0 < n < 2 ^ 32 -> (forall o, length (pad o) = 6%nat) -> Forall order_ok os ->
  log_range (length os) -> 0 <= fd ->
  exists s vm rs,
    engine_main polls fs k log_base n replica fd 0 flocks =
      Ret (ls_fs s, ls_queue s, vm, leader_lines (Z.of_nat k) n ∅ (take polls os) rs) /\
    apply_all ∅ (take polls os) = Ret (vm_engines vm, rs) /\
    engines_ok (vm_engines vm) /\ vm_active vm = true /\
    log_sim base replica s (mkFifo (drop polls os) false 0 (length os)) /\
    contents (ls_fs s) (trades_path base) = concat (encode_trade <$> concat (result_trades <$> rs)) /\
    forall p, p <> trades_path base -> p <> checkpoint_path base replica -> p <> log_path base ->
      files (ls_fs s) !! p = None.
Proof.
  intros base fs Hn Hpad Hos Hr Hfd.
  destruct (push_orders_spec pad (log_path base) os (mkFS ∅ ∅)) as (Hd & Hc & Hf). fold fs in Hd, Hc, Hf.
  destruct (encoded_orders pad os Hpad Hos) as [Hsz Hdec].
  set (rs0 := (fun o => encode_order (pad o) o) <$> os) in *.
  destruct (log_open_sim base replica fs rs0) as (s & Hnew & Hsim); [done|done|done| |].
  { unfold load_offset, fopen_read. case_decide; [done|].
    rewrite Hf; [done|]. intros E. symmetry in E. by apply log_path_checkpoint in E. }
  assert (length rs0 = length os) as Hlen by apply length_fmap. rewrite Hdec, Hlen in Hsim.
  assert (forall p, p <> log_path base -> files (ls_fs s) !! p = None) as Hnone.
  { unfold new_LogBackedOrderQueue, fopen_append in Hnew. cbn [log_path_] in Hnew.
    rewrite decide_False in Hnew by (rewrite Hd; set_solver). injection Hnew as <- _.
    intros p Hne. cbn. rewrite lookup_insert_ne, Hf by done. done. }
  set (s2 := mkLogSystem (set_contents (ls_fs s) (trades_path base) []) (ls_queue s)).
  assert (log_sim base replica s2 (mkFifo os false 0 (length os))) as Hsim2.
  { apply log_sim_other; [done|apply trades_path_log|apply trades_path_consumer]. }
  assert (vm_start fd 0 = mkVM (mkLock fd true) true ∅) as Hstart.
  { unfold vm_start, try_acquire. cbn. by destruct (Z.ltb_spec fd 0); [lia|]. }
  destruct (engine_loop_active base replica (trades_path base) (Z.of_nat k) n Hn (trades_path_log base)
              (trades_path_consumer base base replica) polls s2 _ (vm_start fd 0) flocks Hsim2)
    as (s' & vm' & rs & Hl & Ha & Hok & Hact & Hsim' & Hct & Hframe); try done.
  { eapply Forall_impl; [exact Hos|]. by intros o (_ & _ & ?). }
  { rewrite Hstart. apply engines_ok_empty. }
  { by rewrite Hstart. }
  exists s', vm', rs. rewrite Hstart in Ha, Hl. cbn [vm_engines items] in Ha, Hl. rewrite dom_empty_L in Hl.
  split_and!; [|done..| |].
  - unfold engine_main. fold base. rewrite Hnew. cbn [mbind outcome_bind].
    unfold new_TradeLog, fopen_append.
    rewrite decide_False by (rewrite (lsim_denied _ _ _ _ Hsim); set_solver). cbn [mbind outcome_bind].
    assert (contents (ls_fs s) (trades_path base) = []) as ->.
    { unfold contents. rewrite Hnone; [done|]. apply trades_path_log. }
    rewrite Hstart. exact Hl.
  - rewrite Hct. unfold s2. cbn [ls_fs]. by rewrite contents_set_eq.
  - intros p H1 H2 H3. rewrite Hframe by done. cbn. rewrite lookup_insert_ne by done. by apply Hnone.
Qed.

(** ** Properties *)

(** From a shard's order log to a trade subscriber.  The engine process that
    becomes leader reads a log of well-typed orders to its end, and a subscriber
    attached to the shard afterwards receives exactly the trades that submitting
    those orders, each to the engine of its symbol, makes: every trade once, in
    order, with every field intact after two files and two processes. *)
Theorem log_to_subscriber (log_base replica sid : string) (k : nat) (n : Z) (pad : Order -> list char)
    (os : list Order) (polls polls' : nat) (fd : Z) (flocks : list Z) :
  let base := shard_base log_base k in
  let fs := push_orders pad (log_path base) os (mkFS ∅ ∅) in
  0 < n < 2 ^ 32 -> (forall o, length (pad o) = 6%nat) -> Forall order_ok os ->
  log_range (length os) -> (length os <= polls)%nat -> 0 <= fd ->
  exists fs1 q vm ls rs,
    engine_main polls fs k log_base n replica fd 0 flocks = Ret (fs1, q, vm, ls) /\
    apply_all ∅ os = Ret (vm_engines vm, rs) /\
    let ts := concat (result_trades <$> rs) in
    (Z.of_nat (length ts) * Z.of_nat sizeof_Trade < 2 ^ 63 -> (length ts <= polls')%nat ->
     exists fs2 sub fs3 sub',
       new_Subscriber fs1 base sid = Ret (fs2, sub) /\
       subscriber_loop polls' fs2 sub [] = Ret (fs3, sub', ts)).
Proof.
  intros base fs Hn Hpad Hos Hr Hp Hfd.
  destruct (engine_main_reads log_base replica k n pad os polls fd flocks Hn Hpad Hos Hr Hfd)
    as (s & vm & rs & Hmain & Ha & _ & _ & Hsim & Hct & Hnone).
  rewrite take_ge in Ha by done. pose proof (lsim_denied _ _ _ _ Hsim) as Hden. set (fs1 := ls_fs s) in *.
  exists fs1, (ls_queue s), vm, (leader_lines (Z.of_nat k) n ∅ (take polls os) rs), rs.
  split_and!; [done|done|]. intros ts Hsize Hpolls.
  fold base in Hct, Hnone. fold ts in Hct.
  assert (trades_in_range ts) as Hrange.
  { split; [|done]. by eapply apply_all_wt; [apply engines_wt_empty| |exact Ha]. }
  set (fs2 := set_contents fs1 (trades_path base) (contents fs1 (trades_path base))).
  assert (subscribed base sid ts fs2 0) as Hsub.
  { split; [done|by rewrite <-Hct; apply contents_set_eq|].
    unfold fs2. rewrite load_offset_set_ne by apply trades_path_checkpoint.
    unfold load_offset, fopen_read. case_decide; [done|]. rewrite Hnone; [done| | |].
    - intros E. symmetry in E. by apply trades_path_checkpoint in E.
    - intros E. symmetry in E. by apply consumer_sub in E.
    - intros E. symmetry in E. by apply log_path_sub in E. }
  destruct (subscriber_loop_reads base sid ts polls' fs2 0 [] Hsub Hrange) as (fs3 & Hloop & _); [lia|].
  cbv zeta in Hloop. rewrite drop_0, take_ge in Hloop by lia.
  eexists fs2, (subscriber_at base sid 0), fs3, _. split; [|exact Hloop].
  unfold new_Subscriber, fopen_append. cbn [sub_log_path_].
  rewrite decide_False by (rewrite Hden; set_solver). unfold sub_read_checkpoint. cbn [sub_checkpoint_path_].
  fold fs2. by rewrite (sub_saved _ _ _ _ _ Hsub).
Qed.

(** A log with a seller and a buyer of the same symbol. *)
Definition log_orders : list Order :=
  [mkOrder 1 1 SELL LIMIT (replicate kSymbolLen NUL) (d_of_Z 100) 10 10 0;
   mkOrder 2 1 BUY LIMIT (replicate kSymbolLen NUL) (d_of_Z 100) 4 4 0].

(** C23: the types of the process's state.  Started with no engines and given any
    orders whose fields are in the range of their C++ types and whose limit
    prices are numbers, the process returns a result for each, and afterwards the
    engine under a symbol holds only orders of that symbol, with every field in
    range, a remaining quantity between one and the quantity, and the side of the
    map they are in; its clock is a 64-bit value and its last price a binary64
    number; every trade made has all five fields in range. *)
Theorem process_well_typed (os : list Order) :
  Forall order_ok os ->
  exists m rs, apply_all ∅ os = Ret (m, rs) /\ length rs = length os /\
    Forall trade_wt (concat (result_trades <$> rs)) /\
    forall sym e, m !! sym = Some e ->
      u64 (next_timestamp_ e) /\ (forall p, last_price_ e = Some p -> valid_double p) /\
      forall s o, o ∈ resting s (book_ e) ->
        order_wt o /\ valid_double (price o) /\ symbol_str o = sym /\ side o = s /\ type o = LIMIT /\
        0 < remaining_quantity o <= quantity o.
Proof.
  intros Hos. assert (Forall admissible os) as Hadm by (eapply Forall_impl; [done|]; by intros o (_ & _ & ?)).
  destruct (apply_all_symbol ∅ os engines_ok_empty Hadm) as (m & rs & Ha & Hok & Hlen & _).
  destruct (apply_all_wt _ _ _ _ engines_wt_empty Hos Ha) as [[_ Hwt] Hts].
  exists m, rs. split_and!; [done..|]. intros sym e Hm. destruct (Hwt sym e Hm) as [Hrest Hlast Hnext].
  split_and!; [done..|]. intros s o Ho.
  destruct (proj1 (Forall_forall _ _) (Hrest s) o Ho) as (? & ? & ?).
  by destruct (proj1 (Forall_forall _ _) (engine_ok_rests e s (Hok sym e Hm)) o Ho) as (? & ? & _ & ? & _).
Qed.

Lemma process_well_typed_witness :
  exists m rs, apply_all ∅ log_orders = Ret (m, rs) /\ length rs = length log_orders /\
    Forall trade_wt (concat (result_trades <$> rs)) /\
    forall sym e, m !! sym = Some e ->
      u64 (next_timestamp_ e) /\ (forall p, last_price_ e = Some p -> valid_double p) /\
      forall s o, o ∈ resting s (book_ e) ->
        order_wt o /\ valid_double (price o) /\ symbol_str o = sym /\ side o = s /\ type o = LIMIT /\
        0 < remaining_quantity o <= quantity o.
Proof. apply (process_well_typed log_orders). apply (bool_decide_unpack _). vm_compute. exact I. Defined.
