(* ===== verification/Programs.v ===== *)
(** * The programs: arguments and output

    The [main] functions of [src/gateway_main.cpp], [src/engine_main.cpp],
    [src/trades_subscriber_main.cpp] and [src/server_main.cpp] as seen from a
    shell: how their arguments become ports, shard numbers and file names, and the
    text they print. *)

From stdpp Require Import pretty.
From Stdlib Require Import Ascii.
From S2P Require Import Prelude Double Rounding StdMap Order Sharding PriceCollar OrderBook MatchingEngine Refinement CancelIndex Session Dump OrderQueue Bytes FeedHandler FeedSetup Files LogQueue TradeLog MutexQueue LockFreeQueue Server ShardRouter LeaderLock EngineVM EngineMain.

(** ** Arguments *)

Fixpoint skip_space (s : string) : string :=
  match s with
  | String c s' => if Ascii.is_space c then skip_space s' else s
  | "" => ""
  end.

(** Whether a number is negative, and its text after the sign. *)
Definition read_sign (s : string) : bool * string :=
  match s with
  | String "-" s' => (true, s')
  | String "+" s' => (false, s')
  | _ => (false, s)
  end.

(** [std::atoi]: white space, a sign, digits; a value that is not an [int] is
    undefined behaviour. *)
Definition atoi (s : string) : outcome Z :=
  let '(neg, s) := read_sign (skip_space s) in
  let n := Z.of_N (read_digits 0 s).1 in
  let z := if neg then - n else n in
  if (- 2 ^ 31 <=? z) && (z <? 2 ^ 31) then Ret z else Undef.

(** [static_cast<uint16_t>] and [static_cast<uint32_t>] of an [int]. *)
Definition to_uint16 (z : Z) : Z := z mod 2 ^ 16.
Definition to_uint32 (z : Z) : Z := z mod 2 ^ 32.

(** [argc > i ? ...(argv[i]) : ...]; the list holds [argv[1]] and on. *)
Definition int_arg (cast : Z -> Z) (def : Z) (arg : option string) : outcome Z :=
  match arg with Some s => z ← atoi s; Ret (cast z) | None => Ret def end.

Record gateway_config := mkGateway { gw_port : Z; gw_num_shards : Z; gw_log_base : string }.

Definition gateway_args (args : list string) : outcome gateway_config :=
  port ← int_arg to_uint16 9000 (args !! 0%nat);
  num_shards ← int_arg to_uint32 4 (args !! 1%nat);
  Ret (mkGateway port num_shards (default "/tmp/me_orders" (args !! 2%nat))).

Record engine_config := mkEngineConfig {
  en_shard_id : Z;
  en_log_base : string;
  en_num_shards : Z;
  en_replica_id : string
}.

(** [None]: too few arguments, the program prints its usage and returns 1. *)
Definition engine_args (args : list string) : outcome (option engine_config) :=
  match args with
  | shard :: log_base :: rest =>
    shard_id ← int_arg to_uint32 0 (Some shard);
    num_shards ← int_arg to_uint32 4 (rest !! 0%nat);
    Ret (Some (mkEngineConfig shard_id log_base num_shards (default "r0" (rest !! 1%nat))))
  | _ => Ret None
  end.

(** [shard_base] of the engine, and that of the subscriber, which uses the text of
    its argument as it is. *)
Definition engine_base (c : engine_config) : string :=
  shard_base (en_log_base c) (Z.to_nat (en_shard_id c)).

Definition subscriber_args (args : list string) : option (string * string) :=
  match args with
  | shard :: log_base :: subscriber_id :: _ => Some (log_base +:+ "_shard" +:+ shard, subscriber_id)
  | _ => None
  end.

(** ** Output *)

Definition reason_code (r : RejectReason) : Z :=
  match r with NONE => 0 | PRICE_TOO_HIGH => 1 | PRICE_TOO_LOW => 2 end.

Definition trade_fields (t : Trade) : string :=
  "buy=" +:+ show_u64 (buy_order_id t) +:+ " sell=" +:+ show_u64 (sell_order_id t) +:+
  " price=" +:+ show_fixed2 (trade_price t) +:+ " qty=" +:+ show_u64 (trade_quantity t).

Definition trade_text (t : Trade) : string := "TRADE " +:+ trade_fields t +:+ newline.

Definition reject_text (r : Rejection) : string :=
  "REJECT order=" +:+ show_u64 (rej_order_id r) +:+ " reason=" +:+ show_u64 (reason_code (rej_reason r)) +:+ newline.

(** The consumer thread of the server. *)
Definition line_text (l : line) : string :=
  match l with TradeLine t => trade_text t | RejectLine r => reject_text r end.

Fixpoint concat_text (ls : list string) : string :=
  match ls with [] => "" | s :: ls' => s +:+ concat_text ls' end.

Definition server_text (ls : list line) : string := concat_text (line_text <$> ls).

(** The engine process: its banner, and the lines of its loop on each stream. *)
Definition engine_banner (c : engine_config) (active : bool) : string :=
  "Engine VM online: shard " +:+ show_u64 (en_shard_id c) +:+ " of " +:+ show_u64 (en_num_shards c) +:+
  ", replica '" +:+ en_replica_id c +:+ "', reading " +:+ engine_base c +:+ ".log [" +:+
  (if active then "ACTIVE" else "STANDBY") +:+ "]" +:+ newline.

Definition vm_stdout (c : engine_config) (l : vm_line) : string :=
  match l with
  | Promoted => "shard " +:+ show_u64 (en_shard_id c) +:+ " replica '" +:+ en_replica_id c +:+
                "': PROMOTED to active (previous active is gone)" +:+ newline
  | ShardWarning _ _ => ""
  | NowServing sym => "shard " +:+ show_u64 (en_shard_id c) +:+ ": now serving symbol '" +:+ sym +:+ "'" +:+ newline
  | VMTrade sym t => "[" +:+ sym +:+ "] " +:+ trade_text t
  | VMReject sym r => "[" +:+ sym +:+ "] " +:+ reject_text r
  end.

Definition vm_stderr (c : engine_config) (l : vm_line) : string :=
  match l with
  | ShardWarning sym expected =>
    "WARNING: order for '" +:+ sym +:+ "' arrived on shard " +:+ show_u64 (en_shard_id c) +:+
    " but hashes to shard " +:+ show_u64 expected +:+
    " (num_shards mismatch between gateway and engine?)" +:+ newline
  | _ => ""
  end.

(** What a program run leaves: its exit code, the disk and the two streams. *)
Record program_result := mkProgram { exit_code : Z; disk : filesystem; stdout : string; stderr : string }.

Definition engine_farewell (c : engine_config) : string :=
  "Engine VM (shard " +:+ show_u64 (en_shard_id c) +:+ ", replica '" +:+ en_replica_id c +:+ "') shutting down" +:+ newline.

(** The engine program, interrupted after [polls] turns of its loop: the handler
    calls [shutdown], up to [polls'] further turns follow, and then the one in
    which [pop] returns false; [NoFuel] if orders are left by then. *)
Definition engine_program (polls polls' : nat) (fs : filesystem) (prog : string) (args : list string)
    (open_result flock : Z) (flocks flocks' : list Z) : outcome program_result :=
  cfg ← engine_args args;
  match cfg with
  | None =>
    Ret (mkProgram 1 fs "" ("usage: " +:+ prog +:+ " <shard_id> <log_base> [num_shards] [replica_id]" +:+ newline))
  | Some c =>
    '(fs1, q, vm, ls) ← engine_main polls fs (Z.to_nat (en_shard_id c)) (en_log_base c) (en_num_shards c)
                          (en_replica_id c) open_result flock flocks;
    '(fs2, q2, _, ls') ← engine_loop polls' (en_shard_id c) (en_num_shards c) (trades_path (engine_base c))
                           fs1 (log_shutdown q) vm flocks';
    '(fs3, _, r) ← log_poll fs2 q2;
    match r with
    | Finished =>
      Ret (mkProgram 0 fs3
             (engine_banner c (vm_active (vm_start open_result flock)) +:+
              concat_text (vm_stdout c <$> ls ++ ls') +:+ engine_farewell c)
             (concat_text (vm_stderr c <$> ls ++ ls')))
    | _ => NoFuel
    end
  end.

(** The gateway program: banner, event loop, farewell. *)
Definition gateway_banner (c : gateway_config) : string :=
  "Gateway listening on port " +:+ show_u64 (gw_port c) +:+ ", routing across " +:+ show_u64 (gw_num_shards c) +:+
  " shards at " +:+ gw_log_base c +:+ "_shardN.log" +:+ newline.

Definition gateway_farewell : string :=
  newline +:+ "Gateway shutting down (shards keep running independently)..." +:+ newline.

Definition gateway_program (fs : filesystem) (args : list string) (pad : Order -> list char)
    (u : setup_results) (ws : list wait_result) : outcome program_result :=
  c ← gateway_args args;
  '(fs1, router) ← new_ShardRouterQueue fs (gw_log_base c) (gw_num_shards c);
  h ← (run_server u ws new_feed_fds).2;
  fs2 ← router_push_all fs1 router ((fun p => (pad p.2, p.2)) <$> pushes h);
  Ret (mkProgram 0 fs2 (gateway_banner c +:+ gateway_farewell) "").

(** The subscriber program, stopped by a signal after [polls] turns. *)
Fixpoint subscriber_turns (polls : nat) (fs : filesystem) (s : Subscriber) (id : string)
    : outcome (filesystem * Subscriber * string) :=
  match polls with
  | O => Ret (fs, s, "")
  | S polls' =>
    '(fs1, s1, r) ← try_next fs s;
    '(fs2, s2, text) ← subscriber_turns polls' fs1 s1 id;
    Ret (fs2, s2,
         match r with
         | Some t => "[" +:+ id +:+ "] saw trade " +:+ trade_fields t +:+ " (offset now " +:+
                     show_u64 (offset_ s1) +:+ ")" +:+ newline
         | None => ""
         end +:+ text)
  end.

Definition subscriber_program (polls : nat) (fs : filesystem) (prog : string) (args : list string)
    : outcome program_result :=
  match subscriber_args args with
  | None =>
    Ret (mkProgram 1 fs "" ("usage: " +:+ prog +:+ " <shard_id> <log_base> <subscriber_id>" +:+ newline))
  | Some (base, id) =>
    '(fs1, s) ← new_Subscriber fs base id;
    '(fs2, s', text) ← subscriber_turns polls fs1 s id;
    Ret (mkProgram 0 fs2
      ("Subscriber '" +:+ id +:+ "' attached to " +:+ base +:+ "_trades.log, starting at offset " +:+
       show_u64 (offset_ s) +:+ newline +:+ text +:+
       "Subscriber '" +:+ id +:+ "' stopped at offset " +:+ show_u64 (offset_ s') +:+ newline) "")
  end.

(** ** Facts *)

(** The text of a number starts with a digit. *)
Lemma pretty_go_head x s :
  (0 < x)%N -> exists c s' d, pretty_N_go x s = String c s' /\ digit c = Some d.
Proof.
  revert s. induction (N.lt_wf_0 x) as [x _ IH]; intros s Hx. rewrite (pretty_N_go_step x s) by done.
  destruct (decide (0 < x / 10)%N) as [Hd|Hd]; [by apply IH; [apply N.div_lt|]|].
  assert (x / 10 = 0)%N as -> by (apply N.le_0_r, N.nlt_ge, Hd). rewrite pretty_N_go_0. do 3 eexists. split; [done|].
  apply digit_pretty, N.mod_lt. done.
Qed.

Lemma show_u64_head z : exists c s d, show_u64 z = String c s /\ digit c = Some d.
Proof.
  unfold show_u64, pretty, pretty_N. case_decide as E; [by exists "0"%char, "", 0%N|].
  apply pretty_go_head. lia.
Qed.

Lemma read_digits_show z : 0 <= z -> read_digits 0 (show_u64 z) = (Z.to_N z, "").
Proof.
  intros Hz. unfold show_u64, pretty, pretty_N. case_decide as E; [by rewrite E|].
  by rewrite read_pretty_go.
Qed.

Lemma digit_not_space c d : digit c = Some d -> Ascii.is_space c = false /\ c <> "-"%char /\ c <> "+"%char.
Proof. destruct c as [[] [] [] [] [] [] [] []]; intros H; (discriminate H || split_and!; done). Qed.

(** Decimal numbers read back. *)
Lemma atoi_show z : 0 <= z < 2 ^ 31 -> atoi (show_u64 z) = Ret z.
Proof.
  intros Hz. pose proof (read_digits_show z (proj1 Hz)) as Hr.
  destruct (show_u64_head z) as (c & s & d & Hs & Hd). destruct (digit_not_space c d Hd) as (Hsp & Hm & Hp).
  unfold atoi. rewrite Hs in *. cbn [skip_space]. rewrite Hsp.
  assert (read_sign (String c s) = (false, String c s)) as ->.
  { destruct c as [[] [] [] [] [] [] [] []]; done. }
  cbv beta iota zeta. rewrite Hr. cbn [fst]. rewrite Z2N.id by lia.
  destruct (Z.leb_spec (- 2 ^ 31) z); [|lia]. by destruct (Z.ltb_spec z (2 ^ 31)); [|lia].
Qed.

Lemma atoi_range s z : atoi s = Ret z -> - 2 ^ 31 <= z < 2 ^ 31.
Proof.
  unfold atoi. destruct (read_sign (skip_space s)) as [neg s']. intros H.
  destruct (Z.leb_spec (- 2 ^ 31) (if neg then - Z.of_N (read_digits 0 s').1 else Z.of_N (read_digits 0 s').1)); [|done].
  destruct (Z.ltb_spec (if neg then - Z.of_N (read_digits 0 s').1 else Z.of_N (read_digits 0 s').1) (2 ^ 31)); [|done].
  injection H as <-. lia.
Qed.

(** [std::to_string] and stream output of a number agree. *)
Lemma pretty_shown z : 0 <= z -> pretty (Z.to_nat z) = show_u64 z.
Proof. intros Hz. unfold show_u64, pretty at 1, pretty_nat. f_equal. lia. Qed.

Lemma uint32_small z : 0 <= z < 2 ^ 31 -> to_uint32 z = z.
Proof. intros. apply Z.mod_small. lia. Qed.

Lemma uint32_range z : 0 <= to_uint32 z.
Proof. apply Z.mod_pos_bound. lia. Qed.

Lemma engine_args_show k base n id :
  0 <= k < 2 ^ 31 -> 0 <= n < 2 ^ 31 ->
  engine_args [show_u64 k; base; show_u64 n; id] = Ret (Some (mkEngineConfig k base n id)).
Proof.
  intros Hk Hn. unfold engine_args. cbn [lookup list_lookup int_arg default]. rewrite !atoi_show by lia.
  cbn [mbind outcome_bind]. by rewrite !uint32_small by lia.
Qed.

(** A shard number that is no decimal number of its own value names another
    file. *)
Lemma subscriber_base_iff s base sid rest e :
  engine_args (s :: base :: rest) = Ret (Some e) ->
  subscriber_args [s; base; sid] = Some (engine_base e, sid) <-> s = show_u64 (en_shard_id e).
Proof.
  intros He. cbn in He. apply bind_Ret in He as (k & Hk & He). apply bind_Ret in He as (n & _ & [= <-]).
  apply bind_Ret in Hk as (z & _ & [= <-]).
  cbn [subscriber_args engine_base en_log_base en_shard_id]. unfold engine_base, shard_base. cbn [en_log_base en_shard_id].
  rewrite pretty_shown by apply uint32_range. split; [|by intros <-].
  intros [= H]. by apply append_inj_l, append_inj_l in H.
Qed.

(** A malformed number of shards is zero shards. *)
Example malformed_number : atoi "four" = Ret 0.
Proof. reflexivity. Qed.

(** With it the gateway's first order is undefined behaviour. *)
Lemma zero_shards_undefined fs port s base pad u ws fds h :
  atoi s = Ret 0 -> returns (atoi port) -> denied fs = ∅ ->
  run_server u ws new_feed_fds = (fds, Ret h) -> pushes h <> [] ->
  gateway_program fs [port; s; base] pad u ws = Undef.
Proof.
  intros Hs [z Hz] Hden Hrun Hne. unfold gateway_program, gateway_args. cbn [lookup list_lookup int_arg default].
  rewrite Hs, Hz. cbn [mbind outcome_bind gw_log_base gw_num_shards]. unfold new_ShardRouterQueue.
  change (Z.to_nat (to_uint32 0)) with 0%nat. cbn [make_shards mbind outcome_bind]. rewrite Hrun. cbn [snd mbind outcome_bind].
  destruct (pushes h) as [|[fd o] ps]; [done|]. rewrite fmap_cons. cbn [router_push_all fst snd].
  unfold router_push, shard_for_symbol. cbn [num_shards_]. by rewrite (proj2 (Z.eqb_eq (to_uint32 0) 0)).
Qed.

(** *** What the subscriber prints *)

Definition saw_text (id : string) (k : nat) (t : Trade) : string :=
  "[" +:+ id +:+ "] saw trade " +:+ trade_fields t +:+ " (offset now " +:+ show_u64 (Z.of_nat k) +:+ ")" +:+ newline.

(** The lines for trades [k] and on. *)
Fixpoint saw_all (id : string) (k : nat) (ts : list Trade) : string :=
  match ts with
  | [] => ""
  | t :: ts' => saw_text id (S k) t +:+ saw_all id (S k) ts'
  end.

Lemma subscriber_turns_text base id ts polls fs k :
  subscribed base id ts fs (Z.of_nat k) -> trades_in_range ts -> (k <= length ts)%nat ->
  (length ts - k <= polls)%nat ->
  exists fs', subscriber_turns polls fs (subscriber_at base id (Z.of_nat k)) id =
    Ret (fs', subscriber_at base id (Z.of_nat (length ts)), saw_all id k (drop k ts)) /\
    contents fs' (trades_path base) = contents fs (trades_path base).
Proof.
  revert fs k. induction polls as [|polls IH]; intros fs k Hsub Hr Hk Hp.
  { exists fs. cbn. assert (k = length ts) as -> by lia. by rewrite drop_all. }
  cbn [subscriber_turns].
  rewrite (try_next_eq base id ts) by (apply Hsub || done || lia). rewrite Nat2Z.id.
  destruct (ts !! k) as [t|] eqn:Ht.
  - destruct (try_next_some base id ts fs (Z.of_nat k) t) as (fs1 & Hn & Hsub1); try done; [lia|by rewrite Nat2Z.id|].
    rewrite (try_next_eq base id ts) in Hn by (apply Hsub || done || lia). rewrite Nat2Z.id, Ht in Hn.
    assert (set_contents fs (sub_checkpoint_path base id) (le_encode sizeof_u64 (Z.of_nat k + 1)) = fs1) as Hfs1
      by congruence.
    cbn [mbind outcome_bind]. rewrite Hfs1. replace (Z.of_nat k + 1) with (Z.of_nat (S k)) in * by lia.
    apply lookup_lt_Some in Ht as Hlt.
    destruct (IH fs1 (S k)) as (fs2 & -> & Hc); [done|done|lia|lia|]. cbn [mbind outcome_bind].
    exists fs2. split; [by rewrite (drop_S _ _ _ Ht)|]. rewrite Hc, <-Hfs1. apply contents_set_ne.
    intros E. symmetry in E. by apply trades_path_checkpoint in E.
  - apply lookup_ge_None in Ht. cbn [mbind outcome_bind].
    destruct (IH fs k) as (fs2 & -> & Hc); [done|done|done|lia|]. cbn [mbind outcome_bind]. by exists fs2.
Qed.

(** The whole output of a new subscriber on a log of [ts]. *)
Lemma subscriber_program_text prog shard log_base id ts polls fs :
  let base := log_base +:+ "_shard" +:+ shard in
  subscribed base id ts fs 0 -> trades_in_range ts -> (length ts <= polls)%nat ->
  exists fs', subscriber_program polls fs prog [shard; log_base; id] =
    Ret (mkProgram 0 fs'
      ("Subscriber '" +:+ id +:+ "' attached to " +:+ base +:+ "_trades.log, starting at offset 0" +:+ newline +:+
       saw_all id 0 ts +:+
       "Subscriber '" +:+ id +:+ "' stopped at offset " +:+ show_u64 (Z.of_nat (length ts)) +:+ newline) "").
Proof.
  intros base Hsub Hr Hp. unfold subscriber_program. cbn [subscriber_args]. fold base.
  unfold new_Subscriber, fopen_append. cbn [sub_log_path_].
  rewrite decide_False by (rewrite (sub_denied _ _ _ _ _ Hsub); set_solver).
  set (fs1 := set_contents fs (trades_path base) (contents fs (trades_path base))).
  assert (subscribed base id ts fs1 0) as Hsub1.
  { destruct Hsub as [? Hlog ?]. split; [done|by subst fs1; rewrite contents_set_eq|].
    subst fs1. by rewrite load_offset_set_ne by apply trades_path_checkpoint. }
  unfold sub_read_checkpoint. cbn [sub_checkpoint_path_ mbind outcome_bind]. rewrite (sub_saved _ _ _ _ _ Hsub1).
  destruct (subscriber_turns_text base id ts polls fs1 0) as (fs2 & Ht & _); [done|done|lia|lia|].
  change (mkSubscriber (trades_path base) (sub_checkpoint_path base id) 0) with (subscriber_at base id (Z.of_nat 0)).
  rewrite Ht. cbn [mbind outcome_bind]. exists fs2. by rewrite drop_0.
Qed.

(** *** What the engine prints *)

Lemma log_sim_shutdown base id s f :
  log_sim base id s f ->
  log_sim base id (mkLogSystem (ls_fs s) (log_shutdown (ls_queue s))) (mkFifo (items f) true (late f) (total f)).
Proof. intros [? ? ? ? ? ? ?]. by split. Qed.

Lemma concat_text_empty ls : Forall (fun s => s = "") ls -> concat_text ls = "".
Proof. induction 1 as [|s ls -> _ IH]; [done|]. cbn [concat_text]. by rewrite IH. Qed.

Lemma vm_report_stderr c sym r : Forall (fun s => s = "") (vm_stderr c <$> vm_report sym r).
Proof.
  destruct r as [ts|rej]; cbn [vm_report]; [|by repeat constructor].
  induction ts as [|t ts IH]; [constructor|]. by constructor.
Qed.

(** Orders of the right shard raise no warning. *)
Lemma leader_lines_stderr c seen os rs :
  Forall (fun o => fnv1a (symbol_str o) mod en_num_shards c = en_shard_id c) os ->
  concat_text (vm_stderr c <$> leader_lines (en_shard_id c) (en_num_shards c) seen os rs) = "".
Proof.
  intros Hos. apply concat_text_empty. revert rs seen. induction Hos as [|o os Ho _ IH]; intros [|r rs] seen;
    cbn [leader_lines]; try constructor.
  unfold order_lines. rewrite Ho, Z.eqb_refl, !fmap_app, !Forall_app. split_and!; [constructor| | |apply IH].
  - case_decide; by repeat constructor.
  - apply vm_report_stderr.
Qed.

(** ** Properties *)

(** The programs of a deployment meet in the same files.  Given a log base, a
    number of shards and a shard number in decimal, the gateway and the engine
    read the same numbers from their arguments and the gateway's log for that
    shard is the file the engine reads.  The subscriber, which pastes the text of
    its argument into the name, looks at the trade log of an engine started with
    the same text exactly when that text is the plain decimal of the engine's
    shard number: not for a text such as 01 or +1. *)
Theorem programs_share_files (base id sid : string) (port n k : Z) :
  0 <= port < 2 ^ 16 -> 0 <= k < n -> n < 2 ^ 31 ->
  exists g e,
    gateway_args [show_u64 port; show_u64 n; base] = Ret g /\
    engine_args [show_u64 k; base; show_u64 n; id] = Ret (Some e) /\
    gw_port g = port /\ gw_num_shards g = n /\ en_num_shards e = n /\ en_shard_id e = k /\
    shard_log (gw_log_base g) (Z.to_nat k) = log_path (engine_base e) /\
    forall s e', engine_args [s; base; show_u64 n; id] = Ret (Some e') ->
      (subscriber_args [s; base; sid] = Some (engine_base e', sid) <-> s = show_u64 (en_shard_id e')).
Proof.
  intros Hport Hk Hn. exists (mkGateway port n base), (mkEngineConfig k base n id).
  split_and!; try done.
  - unfold gateway_args. cbn [lookup list_lookup int_arg default]. rewrite !atoi_show by lia.
    cbn [mbind outcome_bind]. rewrite uint32_small by lia. unfold to_uint16. by rewrite Z.mod_small.
  - apply engine_args_show; lia.
  - intros s e'. apply subscriber_base_iff.
Qed.

(** The engine of shard 1 and the subscriber, both started with 01. *)
Example padded_shard_number :
  engine_base <$> (match engine_args ["01"; "/tmp/me"] with Ret c => c | _ => None end) = Some "/tmp/me_shard1" /\
  subscriber_args ["01"; "/tmp/me"; "risk"] = Some ("/tmp/me_shard01", "risk").
Proof. vm_compute. done. Qed.

(** C14: a run of the engine program from its arguments to its exit.  On a disk with
    nothing but its log, of well-typed orders that all hash to its shard, the replica
    that gets the leader lock at once, interrupted after any number of turns of its
    loop, still handles every order of the log, then exits with code 0.  Its trade log holds exactly the
    trades of those orders.  It prints its banner, for each order the line of a
    symbol seen for the first time and then its trades or its rejection, and a
    farewell; it prints no warning about a mismatch of shard counts. *)
Theorem engine_program_output (prog log_base id : string) (k n fd : Z) (pad : Order -> list char)
    (os : list Order) (polls polls' : nat) (flocks flocks' : list Z) :
  let c := mkEngineConfig k log_base n id in
  0 <= k < n -> n < 2 ^ 31 -> 0 <= fd -> (forall o, length (pad o) = 6%nat) -> Forall order_ok os ->
  log_range (length os) -> (length os <= polls + polls')%nat ->
  Forall (fun o => shard_for_symbol (symbol_str o) n = Ret k) os ->
  exists m rs fs',
    apply_all ∅ os = Ret (m, rs) /\
    engine_program polls polls' (push_orders pad (log_path (engine_base c)) os (mkFS ∅ ∅)) prog
        [show_u64 k; log_base; show_u64 n; id] fd 0 flocks flocks' =
      Ret (mkProgram 0 fs'
             (engine_banner c true +:+ concat_text (vm_stdout c <$> leader_lines k n ∅ os rs) +:+ engine_farewell c) "") /\
    contents fs' (trades_path (engine_base c)) = concat (encode_trade <$> concat (result_trades <$> rs)).
Proof.
  intros c Hk Hn Hfd Hpad Hos Hr Hlen Hshard.
  assert (0 < n < 2 ^ 32) as Hn' by lia.
  destruct (engine_main_reads log_base id (Z.to_nat k) n pad os polls fd flocks Hn' Hpad Hos Hr Hfd)
    as (s1 & vm1 & rs1 & Hmain & Ha1 & Hok1 & Hact1 & Hsim1 & Hct1 & _).
  rewrite Z2Nat.id in Hmain by lia. change (shard_base log_base (Z.to_nat k)) with (engine_base c) in *.
  assert (Forall admissible (drop polls os)) as Hadm.
  { apply Forall_drop. eapply Forall_impl; [exact Hos|]. by intros o (_ & _ & ?). }
  destruct (engine_loop_active (engine_base c) id (trades_path (engine_base c)) k n Hn' (trades_path_log _)
              (trades_path_consumer _ _ _) polls' _ _ vm1 flocks' (log_sim_shutdown _ _ _ _ Hsim1))
    as (s2 & vm2 & rs2 & Hloop & Ha2 & _ & _ & Hsim2 & Hct2 & _); try done.
  cbn [items closed late total ls_fs ls_queue] in *.
  rewrite take_ge in Hloop, Ha2 by (rewrite length_drop; lia).
  rewrite drop_ge in Hsim2 by (rewrite length_drop; lia).
  pose proof (apply_all_app ∅ (take polls os) (drop polls os) _ _ Ha1) as Ha. rewrite take_drop, Ha2 in Ha.
  cbn [mbind outcome_bind] in Ha.
  pose proof (log_poll_cases _ _ _ _ Hsim2 Hr) as Hpoll. cbn [items closed] in Hpoll.
  pose proof (leader_lines_split k n (take polls os) (drop polls os) _ _ rs2 Ha1) as Hlines. rewrite take_drop in Hlines.
  exists (vm_engines vm2), (rs1 ++ rs2), (ls_fs s2). split_and!; [done| |].
  - unfold engine_program. rewrite engine_args_show by lia. cbn [mbind outcome_bind]. fold c.
    change (en_shard_id c) with k. change (en_log_base c) with log_base. change (en_num_shards c) with n.
    change (en_replica_id c) with id. rewrite Hmain. cbn [mbind outcome_bind].
    rewrite Hloop. cbn [mbind outcome_bind]. rewrite Hpoll. cbn [mbind outcome_bind]. rewrite Hlines.
    pose proof (leader_lines_stderr c ∅ os (rs1 ++ rs2)) as Herr. cbn [en_num_shards en_shard_id c] in Herr. rewrite Herr.
    + unfold vm_start, try_acquire. cbn. by destruct (Z.ltb_spec fd 0); [lia|].
    + eapply Forall_impl; [exact Hshard|]. intros o Ho. cbn in Ho.
      destruct (shard_for_symbol_ret (symbol_str o) n Hn') as [Hret _]. congruence.
  - by rewrite Hct2, Hct1, fmap_app, concat_app, fmap_app, concat_app.
Qed.

(** Interrupted after one of its two orders. *)
Lemma engine_program_output_witness :
  let c := mkEngineConfig 1 "/tmp/me" 4 "r0" in
  exists m rs fs',
    apply_all ∅ log_orders = Ret (m, rs) /\
    engine_program 1 2 (push_orders (fun _ => replicate 6 NUL) (log_path (engine_base c)) log_orders (mkFS ∅ ∅))
        "engine" ["1"; "/tmp/me"; "4"; "r0"] 5 0 [] [] =
      Ret (mkProgram 0 fs'
             (engine_banner c true +:+ concat_text (vm_stdout c <$> leader_lines 1 4 ∅ log_orders rs) +:+
              engine_farewell c) "") /\
    contents fs' (trades_path (engine_base c)) = concat (encode_trade <$> concat (result_trades <$> rs)).
Proof.
  apply (engine_program_output "engine" "/tmp/me" "r0" 1 4 5 (fun _ => replicate 6 NUL) log_orders 1 2 [] []).
  - lia.
  - lia.
  - lia.
  - reflexivity.
  - apply (bool_decide_unpack _). vm_compute. exact I.
  - vm_compute. reflexivity.
  - simpl. lia.
  - repeat constructor.
Defined.

(** The text of that run. *)
Example engine_program_text :
  (stdout <$> of_outcome (engine_program 1 2
     (push_orders (fun _ => replicate 6 NUL) "/tmp/me_shard1.log" log_orders (mkFS ∅ ∅))
     "engine" ["1"; "/tmp/me"; "4"; "r0"] 5 0 [] [])) =
  Some ("Engine VM online: shard 1 of 4, replica 'r0', reading /tmp/me_shard1.log [ACTIVE]" +:+ newline +:+
        "shard 1: now serving symbol ''" +:+ newline +:+
        "[] TRADE buy=2 sell=1 price=100.00 qty=4" +:+ newline +:+
        "Engine VM (shard 1, replica 'r0') shutting down" +:+ newline).
Proof. vm_compute. reflexivity. Qed.
