(* ===== verification/ShardSystem.v ===== *)
(** * A shard and all its processes

    Everything that runs around one shard, interleaved in any order on one disk:
    gateways appending to its log, replicas of the engine process
    ([src/engine_main.cpp]) started, killed and restarted at any point, and trade
    subscribers ([src/trades_subscriber_main.cpp]).  A replica moves through its
    loop in steps that other processes can come between: a turn of [pop], the
    leader lock and the matching of the popped order, and each [publish] on its
    own.  A kill can also fall inside [pop] or [try_next], while the checkpoint file
    is truncated and not yet written.  The kernel's side of [flock] is that of [LeaderLock.v].
    The files that can be opened may change at any moment; a step of a process whose
    call throws is no step of the model: the process ends, which is a [Kill]. *)

From S2P Require Import Prelude Double Rounding StdMap Order Sharding PriceCollar OrderBook MatchingEngine Exchange ExchangeFacts Refinement CancelIndex Session OrderQueue Bytes Files LogQueue ShardRouter LeaderLock TradeLog EngineVM EngineMain.

(** ** Processes *)

(** Where a replica is in [while (queue.pop(order)) { ... }]. *)
Inductive replica_pc :=
  | InPop                              (* in [queue.pop] *)
  | Handling (o : Order)               (* popped, not yet submitted *)
  | Publishing (ts : list Trade).      (* in the loop over the trades *)

Record replica := mkReplica {
  r_from : Z;                          (* the offset its queue was opened at *)
  r_queue : LogBackedOrderQueue;
  r_vm : EngineVM;
  r_pc : replica_pc
}.

Record client := mkClient {
  c_from : Z;
  c_id : string;
  c_sub : Subscriber;
  c_seen : list Trade                  (* the trades printed *)
}.

Record world := mkWorld {
  w_fs : filesystem;
  w_owner : option nat;                (* the kernel: who owns the leader lock *)
  w_replicas : gmap nat replica;
  w_clients : gmap nat client
}.

Definition empty_world : world := mkWorld (mkFS ∅ ∅) None ∅ ∅.

(** The locks, as [LeaderLock.v] sees them. *)
Definition w_election (w : world) : election :=
  mkElection (w_owner w) ((fun r => vm_leader (r_vm r)) <$> w_replicas w).

(** The owner after process [p] has called [try_acquire] on [l]. *)
Definition owner_after (w : world) (p : nat) (l : ShardLeaderLock) : option nat :=
  if calls_flock l && (flock_result (w_election w) p =? 0) then Some p else w_owner w.

(** ** Steps *)

Inductive action :=
  | GatewayPush (pad : list char) (o : Order)
  | StartReplica (p : nat) (replica_id : string) (open_result : Z)
  | PollLog (p : nat)
  | SubmitPopped (p : nat)
  | PublishNext (p : nat)
  | Interrupt (p : nat)                (* SIGINT: [queue.shutdown()] *)
  | Kill (p : nat)
  | Attach (j : nat) (subscriber_id : string)
  | NextTrade (j : nat)
  | Detach (j : nat)
  | KillInPop (p i : nat)              (* while the checkpoint is written: [i] picks the disk *)
  | KillInNext (j i : nat)
  | GatewayOpen                        (* a gateway starts: its router opens the log *)
  | Permissions (refused : gset string).   (* from now on [fopen] fails on these paths *)

Section system.
Context (base : string) (num_shards : Z).

Definition set_replica (w : world) (fs : filesystem) (p : nat) (r : replica) : world :=
  mkWorld fs (w_owner w) (<[p := r]> (w_replicas w)) (w_clients w).

(** The process is gone, and with it its lock. *)
Definition exit_replica (w : world) (p : nat) : world :=
  mkWorld (w_fs w) (if decide (w_owner w = Some p) then None else w_owner w)
    (delete p (w_replicas w)) (w_clients w).

(** [main] up to the loop. *)
Definition start_replica (w : world) (p : nat) (id : string) (fd : Z) : option world :=
  match w_replicas w !! p with
  | Some _ => None
  | None =>
    '(fs1, q) ← of_outcome (new_LogBackedOrderQueue (w_fs w) base id);
    '(fs2, _) ← of_outcome (new_TradeLog fs1 base);
    let vm := vm_start fd (flock_result (w_election w) p) in
    Some (mkWorld fs2 (owner_after w p (new_ShardLeaderLock fd))
            (<[p := mkReplica (consumer_offset_ q) q vm InPop]> (w_replicas w)) (w_clients w))
  end.

(** One turn of [pop]; a [pop] that returns false ends the process. *)
Definition poll_replica (w : world) (p : nat) : option world :=
  r ← w_replicas w !! p;
  match r_pc r with
  | InPop =>
    '(fs, q, res) ← of_outcome (log_poll (w_fs w) (r_queue r));
    match res with
    | Got o => Some (set_replica w fs p (mkReplica (r_from r) q (r_vm r) (Handling o)))
    | Retry => Some (set_replica w fs p (mkReplica (r_from r) q (r_vm r) InPop))
    | Finished => Some (exit_replica w p)
    end
  | _ => None
  end.

(** The loop body up to the trades: the lock, the shard check, the engine. *)
Definition submit_replica (w : world) (p : nat) : option world :=
  r ← w_replicas w !! p;
  match r_pc r with
  | Handling o =>
    let vm1 := (vm_poll_leader (r_vm r) (flock_result (w_election w) p)).1 in
    let owner := if vm_active (r_vm r) then w_owner w else owner_after w p (vm_leader (r_vm r)) in
    _ ← of_outcome (shard_for_symbol (symbol_str o) num_shards);
    '(engines, _, res) ← of_outcome (apply_order (vm_engines vm1) o);
    let pc := Publishing (if vm_active vm1 then result_trades res else []) in
    Some (mkWorld (w_fs w) owner
      (<[p := mkReplica (r_from r) (r_queue r) (mkVM (vm_leader vm1) (vm_active vm1) engines) pc]>
         (w_replicas w)) (w_clients w))
  | _ => None
  end.

Definition publish_replica (w : world) (p : nat) : option world :=
  r ← w_replicas w !! p;
  match r_pc r with
  | Publishing [] => Some (set_replica w (w_fs w) p (mkReplica (r_from r) (r_queue r) (r_vm r) InPop))
  | Publishing (t :: ts) =>
    Some (set_replica w (publish (w_fs w) (trades_path base) t) p
            (mkReplica (r_from r) (r_queue r) (r_vm r) (Publishing ts)))
  | _ => None
  end.

Definition next_client (w : world) (j : nat) : option world :=
  c ← w_clients w !! j;
  '(fs, s, t) ← of_outcome (try_next (w_fs w) (c_sub c));
  let seen := match t with Some t => c_seen c ++ [t] | None => c_seen c end in
  Some (mkWorld fs (w_owner w) (w_replicas w)
          (<[j := mkClient (c_from c) (c_id c) s seen]> (w_clients w))).

Definition attach_client (w : world) (j : nat) (id : string) : option world :=
  match w_clients w !! j with
  | Some _ => None
  | None =>
    '(fs, s) ← of_outcome (new_Subscriber (w_fs w) base id);
    Some (mkWorld fs (w_owner w) (w_replicas w)
            (<[j := mkClient (offset_ s) id s []]> (w_clients w)))
  end.

(** A kill while [pop] or [try_next] is writing its checkpoint. *)
Definition kill_in_pop (w : world) (p i : nat) : option world :=
  r ← w_replicas w !! p;
  match r_pc r with
  | InPop =>
    fs ← poll_disk_states (w_fs w) (r_queue r) !! i;
    Some (exit_replica (mkWorld fs (w_owner w) (w_replicas w) (w_clients w)) p)
  | _ => None
  end.

Definition kill_in_next (w : world) (j i : nat) : option world :=
  c ← w_clients w !! j;
  fs ← next_disk_states (w_fs w) (c_sub c) !! i;
  Some (mkWorld fs (w_owner w) (w_replicas w) (delete j (w_clients w))).

Definition shard_step (w : world) (a : action) : option world :=
  match a with
  | GatewayPush pad o =>
    Some (mkWorld (log_push (w_fs w) (log_path base) pad o) (w_owner w) (w_replicas w) (w_clients w))
  | StartReplica p id fd => start_replica w p id fd
  | PollLog p => poll_replica w p
  | SubmitPopped p => submit_replica w p
  | PublishNext p => publish_replica w p
  | Interrupt p =>
    r ← w_replicas w !! p;
    Some (set_replica w (w_fs w) p (mkReplica (r_from r) (log_shutdown (r_queue r)) (r_vm r) (r_pc r)))
  | Kill p => Some (exit_replica w p)
  | Attach j id => attach_client w j id
  | NextTrade j => next_client w j
  | Detach j => Some (mkWorld (w_fs w) (w_owner w) (w_replicas w) (delete j (w_clients w)))
  | KillInPop p i => kill_in_pop w p i
  | KillInNext j i => kill_in_next w j i
  | GatewayOpen =>
    '(fs, _) ← of_outcome (new_LogBackedOrderQueue (w_fs w) base "");
    Some (mkWorld fs (w_owner w) (w_replicas w) (w_clients w))
  | Permissions refused =>
    Some (mkWorld (mkFS (files (w_fs w)) refused) (w_owner w) (w_replicas w) (w_clients w))
  end.

Fixpoint shard_run (w : world) (acts : list action) : option world :=
  match acts with
  | [] => Some w
  | a :: acts' => w' ← shard_step w a; shard_run w' acts'
  end.
End system.

(** The orders the gateways pushed. *)
Definition pushed_orders (acts : list action) : list Order :=
  omap (fun a => match a with GatewayPush _ o => Some o | _ => None end) acts.

(** The order objects are well typed. *)
Definition action_ok (a : action) : Prop :=
  match a with GatewayPush pad o => length pad = 6%nat /\ order_ok o | _ => True end.

#[global] Instance action_ok_dec a : Decision (action_ok a).
Proof. destruct a; simpl; apply _. Defined.

(** ** Invariants *)

(** The elements of [l] from position [a] up to [b]. *)
Definition span {A} (a b : nat) (l : list A) : list A := take (b - a) (drop a l).

Lemma span_app {A} a b (l k : list A) : (b <= length l)%nat -> span a b (l ++ k) = span a b l.
Proof.
  intros H. unfold span. destruct (Nat.le_gt_cases a (length l)).
  - rewrite drop_app_le by done. rewrite take_app_le; [done|]. rewrite length_drop. lia.
  - by replace (b - a)%nat with 0%nat by lia.
Qed.

Lemma span_snoc {A} a b (l : list A) x :
  (a <= b)%nat -> l !! b = Some x -> span a (S b) l = span a b l ++ [x].
Proof.
  intros H Hx. unfold span. replace (S b - a)%nat with (S (b - a)) by lia.
  apply take_S_r. rewrite lookup_drop. by replace (a + (b - a))%nat with b by lia.
Qed.

Lemma span_empty {A} a (l : list A) : span a a l = [].
Proof. unfold span. by rewrite Nat.sub_diag. Qed.

(** The disks a crash can leave while [k] is being saved. *)
Lemma store_states_cases fs path k fss i fs' :
  store_offset_states fs path k = Some fss -> fss !! i = Some fs' ->
  fs' = fs \/ fs' = set_contents fs path [] \/ fs' = set_contents fs path (le_encode sizeof_u64 k).
Proof.
  unfold store_offset_states, fopen_write. intros H Hi. case_decide; [done|]. cbn -[le_encode] in H.
  apply (f_equal (default [])) in H. cbn -[le_encode] in H. subst fss.
  destruct i as [|[|[|]]]; cbn -[le_encode] in Hi; try done; [left; congruence|right; left; congruence|].
  right. right. apply (f_equal (default fs)) in Hi. cbn -[le_encode] in Hi. subst fs'.
  unfold fwrite_append. rewrite contents_set_eq. unfold set_contents. cbn -[le_encode]. by rewrite insert_insert_eq.
Qed.

(** A crash while a checkpoint is written touches that file only. *)
Lemma store_states_frame fs path k fss i fs' p :
  store_offset_states fs path k = Some fss -> fss !! i = Some fs' -> p <> path ->
  files fs' !! p = files fs !! p.
Proof.
  intros H Hi Hne. destruct (store_states_cases _ _ _ _ _ _ H Hi) as [-> | [-> | ->]]; [done|..];
    unfold set_contents; cbn [files]; by rewrite lookup_insert_ne.
Qed.

Lemma poll_disk_frame fs q i fs' p :
  poll_disk_states fs q !! i = Some fs' -> p <> checkpoint_path_ q -> files fs' !! p = files fs !! p.
Proof.
  assert ([fs] !! i = Some fs' -> files fs' !! p = files fs !! p) as Hsame.
  { by intros [_ <-]%list_lookup_singleton_Some. }
  unfold poll_disk_states. intros Hi Hne. destruct (_ <? _); [|by apply Hsame].
  destruct (store_offset_states _ _ _) eqn:E; [by eapply store_states_frame|by apply Hsame].
Qed.

Lemma next_disk_frame fs s i fs' p :
  next_disk_states fs s !! i = Some fs' -> p <> sub_checkpoint_path_ s -> files fs' !! p = files fs !! p.
Proof.
  assert ([fs] !! i = Some fs' -> files fs' !! p = files fs !! p) as Hsame.
  { by intros [_ <-]%list_lookup_singleton_Some. }
  unfold next_disk_states. intros Hi Hne. destruct (_ <=? _); [by apply Hsame|].
  destruct (store_offset_states _ _ _) eqn:E; [by eapply store_states_frame|by apply Hsame].
Qed.

(** What an extra order adds to the engines. *)
Lemma apply_all_snoc m os o m1 rs m2 b r :
  apply_all m os = Ret (m1, rs) -> apply_order m1 o = Ret (m2, b, r) ->
  apply_all m (os ++ [o]) = Ret (m2, rs ++ [r]).
Proof. intros Ha Ho. rewrite (apply_all_app _ _ _ _ _ Ha). cbn. by rewrite Ho. Qed.

Section invariant.
Context (base : string) (num_shards : Z).

(** *** The disk *)

(** The checkpoint file [p] holds an offset of at most [n], whoever may open it. *)
Definition offset_within (fs : filesystem) (p : string) (n : nat) : Prop :=
  forall refused, 0 <= load_offset (mkFS (files fs) refused) p <= Z.of_nat n.

Lemma offset_within_now fs p n : offset_within fs p n -> 0 <= load_offset fs p <= Z.of_nat n.
Proof. intros H. specialize (H (denied fs)). by destruct fs. Qed.

Lemma offset_within_grow fs p n m : offset_within fs p n -> (n <= m)%nat -> offset_within fs p m.
Proof. intros H Hle refused. specialize (H refused). lia. Qed.

Lemma offset_within_ne fs p q bs n :
  p <> q -> offset_within fs q n -> offset_within (set_contents fs p bs) q n.
Proof.
  intros Hne H refused. specialize (H refused).
  by rewrite <-(load_offset_set_ne (mkFS (files fs) refused) p q bs) in H.
Qed.

(** The checkpoint file of one process is written: those of the others are as before. *)
Lemma offset_within_other fs (f : string -> string) id id' bs n :
  offset_within (set_contents fs (f id) bs) (f id) n -> offset_within fs (f id') n ->
  offset_within (set_contents fs (f id) bs) (f id') n.
Proof. intros H H'. destruct (decide (f id = f id')) as [<-|Hne]; [done|by apply offset_within_ne]. Qed.

(** An offset written in full, and the file as [fopen] leaves it. *)
Lemma saved_in_range fs p k n :
  log_range n -> 0 <= k <= Z.of_nat n -> offset_within (set_contents fs p (le_encode sizeof_u64 k)) p n.
Proof.
  intros Hr Hk refused. unfold log_range, sizeof_Order in Hr. cbn [files set_contents].
  destruct (decide (p ∈ refused)) as [Hin|Hout].
  - unfold load_offset, fopen_read. cbn [denied]. rewrite decide_True by done. lia.
  - pose proof (load_store_offset (mkFS (files fs) refused) p k Hout) as H. unfold set_contents in H.
    cbn [files denied] in H. rewrite H; [done|]. unfold u64. rewrite modulus64_val. lia.
Qed.

Lemma empty_in_range fs p n : offset_within (set_contents fs p []) p n.
Proof.
  intros refused. pose proof (load_offset_empty (mkFS (files fs) refused) p) as H. unfold set_contents in *.
  cbn [files denied] in *. rewrite H. lia.
Qed.

(** The order log holds [L], the trade log [T], and no offset is past its log. *)
Record disk_ok (L : list Order) (T : list Trade) (fs : filesystem) : Prop := {
  dk_log : exists rs, contents fs (log_path base) = concat rs /\ all_of_size sizeof_Order rs /\
    decode_order <$> rs = L;
  dk_trades : contents fs (trades_path base) = concat (encode_trade <$> T);
  dk_wt : Forall trade_wt T;
  dk_saved id : offset_within fs (checkpoint_path base id) (length L);
  dk_sub_saved id : offset_within fs (sub_checkpoint_path base id) (length T)
}.

(** Distinct files of the shard. *)
Lemma sub_checkpoint_consumer id id' : sub_checkpoint_path base id <> checkpoint_path base id'.
Proof. intros E. symmetry in E. by apply consumer_sub in E. Qed.

Lemma log_path_trades : log_path base <> trades_path base.
Proof. intros E. symmetry in E. by apply trades_path_log in E. Qed.

Lemma checkpoint_log id : checkpoint_path base id <> log_path base.
Proof. intros E. symmetry in E. by apply log_path_checkpoint in E. Qed.

Lemma checkpoint_trades id : checkpoint_path base id <> trades_path base.
Proof. intros E. symmetry in E. by apply trades_path_consumer in E. Qed.

Lemma sub_checkpoint_log id : sub_checkpoint_path base id <> log_path base.
Proof. intros E. symmetry in E. by apply log_path_sub in E. Qed.

Lemma sub_checkpoint_trades id : sub_checkpoint_path base id <> trades_path base.
Proof. intros E. symmetry in E. by apply trades_path_checkpoint in E. Qed.

Local Ltac frame :=
  rewrite ?contents_set_ne by
    (apply checkpoint_log || apply checkpoint_trades || apply sub_checkpoint_log ||
     apply sub_checkpoint_trades || apply log_path_trades || apply trades_path_log).

Local Ltac frame_offset :=
  apply offset_within_ne;
    [apply log_path_checkpoint || apply log_path_sub || apply trades_path_consumer ||
     apply trades_path_checkpoint || apply consumer_sub || apply sub_checkpoint_consumer|].

Lemma disk_ok_empty refused : disk_ok [] [] (mkFS ∅ refused).
Proof.
  assert (forall p n, offset_within (mkFS ∅ refused) p n) as Hoff.
  { intros p n refused'. unfold load_offset, fopen_read. cbn [files denied]. rewrite lookup_empty. case_decide; lia. }
  split; [exists []; split_and!; [done|constructor|done]|done|constructor|intros id; apply Hoff..].
Qed.

Lemma disk_push L T fs pad o :
  disk_ok L T fs -> length pad = 6%nat -> order_ok o ->
  disk_ok (L ++ [o]) T (log_push fs (log_path base) pad o).
Proof.
  intros [(rs & Hc & Hsz & HL) Ht Hwt Hs Hss] Hpad (How & Hv & _).
  unfold log_push, fwrite_append. split; [| |done| |].
  - exists (rs ++ [encode_order pad o]). rewrite contents_set_eq, Hc, concat_app. cbn [concat].
    split_and!; [by rewrite app_nil_r| |].
    + apply Forall_app. split; [done|]. constructor; [|constructor].
      apply encode_order_length; [done|]. apply How.
    + by rewrite fmap_app, fmap_cons, fmap_nil, decode_encode_order, HL.
  - by frame.
  - intros id. frame_offset. eapply offset_within_grow; [apply Hs|]. rewrite length_app. lia.
  - intros id. by frame_offset.
Qed.

Lemma disk_publish L T fs t :
  disk_ok L T fs -> trade_wt t -> disk_ok L (T ++ [t]) (publish fs (trades_path base) t).
Proof.
  intros [(rs & Hc & Hrs) Ht Hwt Hs Hss] Htwt. unfold publish, fwrite_append. split.
  - exists rs. by frame.
  - rewrite contents_set_eq, Ht, fmap_app, concat_app, fmap_cons, fmap_nil. cbn [concat].
    by rewrite app_nil_r.
  - apply Forall_app. by split; [|constructor].
  - intros id. by frame_offset.
  - intros id. frame_offset. eapply offset_within_grow; [apply Hss|]. rewrite length_app. lia.
Qed.

(** Opening a log for appending. *)
Lemma disk_open L T fs p :
  p = log_path base \/ p = trades_path base -> disk_ok L T fs -> disk_ok L T (set_contents fs p (contents fs p)).
Proof.
  intros Hp [(rs & Hc & Hrs) Ht Hwt Hs Hss].
  assert (forall q, contents (set_contents fs p (contents fs p)) q = contents fs q) as Hsame.
  { intros q. destruct (decide (p = q)) as [->|Hne]; [apply contents_set_eq|by apply contents_set_ne]. }
  split; [|by rewrite Hsame|done|..].
  - exists rs. by rewrite Hsame.
  - intros id. destruct Hp as [-> | ->]; by frame_offset.
  - intros id. destruct Hp as [-> | ->]; by frame_offset.
Qed.

(** A checkpoint file may hold anything that reads as an offset in the log. *)
Lemma disk_checkpoint L T fs id bs :
  disk_ok L T fs ->
  offset_within (set_contents fs (checkpoint_path base id) bs) (checkpoint_path base id) (length L) ->
  disk_ok L T (set_contents fs (checkpoint_path base id) bs).
Proof.
  intros [(rs & Hc & Hrs) Ht Hwt Hs Hss] Hk. split; [|by frame|done| |intros id'; by frame_offset].
  - exists rs. by frame.
  - intros id'. by apply (offset_within_other fs (checkpoint_path base)).
Qed.

Lemma disk_sub_checkpoint L T fs id bs :
  disk_ok L T fs ->
  offset_within (set_contents fs (sub_checkpoint_path base id) bs) (sub_checkpoint_path base id) (length T) ->
  disk_ok L T (set_contents fs (sub_checkpoint_path base id) bs).
Proof.
  intros [(rs & Hc & Hrs) Ht Hwt Hs Hss] Hk. split; [|by frame|done|intros id'; by frame_offset|].
  - exists rs. by frame.
  - intros id'. by apply (offset_within_other fs (sub_checkpoint_path base)).
Qed.

(** Who may open what is not part of the invariant. *)
Lemma disk_permissions L T fs refused : disk_ok L T fs -> disk_ok L T (mkFS (files fs) refused).
Proof. by intros [Hl Ht Hwt Hs Hss]. Qed.

(** *** The processes *)

(** The number of log records a replica has submitted or skipped. *)
Definition r_done (r : replica) : nat :=
  let off := Z.to_nat (consumer_offset_ (r_queue r)) in
  match r_pc r with Handling _ => off - 1 | _ => off end%nat.

(** The engines are the result of the orders from [r_from] to [r_done]. *)
Record replica_ok (L : list Order) (r : replica) : Prop := {
  ro_log : log_path_ (r_queue r) = log_path base;
  ro_checkpoint : exists id, checkpoint_path_ (r_queue r) = checkpoint_path base id;
  ro_from : 0 <= r_from r <= Z.of_nat (r_done r);
  ro_offset : 0 <= consumer_offset_ (r_queue r) <= Z.of_nat (length L);
  ro_engines : exists rs,
    apply_all ∅ (span (Z.to_nat (r_from r)) (r_done r) L) = Ret (vm_engines (r_vm r), rs);
  ro_wt : engines_wt (vm_engines (r_vm r));
  ro_active : vm_active (r_vm r) = held_ (vm_leader (r_vm r));
  ro_pc : match r_pc r with
          | InPop => True
          | Handling o => L !! r_done r = Some o /\ 0 < consumer_offset_ (r_queue r)
          | Publishing ts => Forall trade_wt ts /\ (vm_active (r_vm r) = false -> ts = [])
          end
}.

Definition client_ok (T : list Trade) (c : client) : Prop :=
  exists k, c_sub c = subscriber_at base (c_id c) k /\ 0 <= c_from c <= k /\ k <= Z.of_nat (length T) /\
    c_seen c = span (Z.to_nat (c_from c)) (Z.to_nat k) T.

Record world_ok (L : list Order) (T : list Trade) (w : world) : Prop := {
  wo_disk : disk_ok L T (w_fs w);
  wo_orders : Forall order_ok L;
  wo_election : election_ok (w_election w);
  wo_replicas p r : w_replicas w !! p = Some r -> replica_ok L r;
  wo_clients j c : w_clients w !! j = Some c -> client_ok T c
}.

Lemma world_ok_empty : world_ok [] [] empty_world.
Proof. split; [apply disk_ok_empty|constructor|by split|done|done]. Qed.

Lemma r_done_offset L r : replica_ok L r -> (r_done r <= length L)%nat.
Proof. intros [_ _ _ Hoff _ _ _ _]. unfold r_done. destruct (r_pc r); lia. Qed.

Lemma replica_ok_grow L K r : replica_ok L r -> replica_ok (L ++ K) r.
Proof.
  intros Hr. pose proof (r_done_offset L r Hr) as Hd.
  destruct Hr as [? ? ? Hoff (rs & He) ? ? Hpc]. split; try done.
  - rewrite length_app. lia.
  - exists rs. by rewrite span_app.
  - destruct (r_pc r); try done. destruct Hpc as [Hl ?]. split; [|done]. by apply lookup_app_l_Some.
Qed.

Lemma client_ok_grow T K c : client_ok T c -> client_ok (T ++ K) c.
Proof.
  intros (k & Hc & Hf & Hk & Hs). exists k. rewrite length_app, span_app by lia. split_and!; (done || lia).
Qed.

(** An update of a replica that leaves its lock alone. *)
Lemma world_set_replica L T w fs p r r' :
  world_ok L T w -> w_replicas w !! p = Some r -> disk_ok L T fs -> replica_ok L r' ->
  vm_leader (r_vm r') = vm_leader (r_vm r) -> world_ok L T (set_replica w fs p r').
Proof.
  intros [_ Ho He Hr Hc] Hp Hfs Hr' Hl. split; [done|done| | |done].
  - unfold w_election, set_replica. cbn [w_owner w_replicas].
    rewrite fmap_insert, Hl, insert_id; [done|]. by rewrite lookup_fmap, Hp.
  - cbn. intros q rq [[_ <-]|[_ H]]%lookup_insert_Some; [done|by eapply Hr].
Qed.

Lemma exit_ok L T w p : world_ok L T w -> world_ok L T (exit_replica w p).
Proof.
  intros [Hd Ho He Hr Hc]. split; [done|done| | |done].
  - apply (election_step_ok _ (Die p)) with (e' := w_election (exit_replica w p)) in He; [done|].
    unfold w_election, exit_replica. cbn. by rewrite fmap_delete.
  - cbn. intros q r [_ H]%lookup_delete_Some. by eapply Hr.
Qed.

(** A replica whose queue moves past the record it read. *)
Lemma poll_replica_ok L T w p w' :
  world_ok L T w -> log_range (length L) -> poll_replica w p = Some w' -> world_ok L T w'.
Proof.
  intros Hw Hr Hs. unfold poll_replica in Hs. apply bind_Some in Hs as (r & Hp & Hs).
  destruct (r_pc r) eqn:Hpc; [|done..].
  pose proof (wo_replicas _ _ _ Hw _ _ Hp) as Hok. pose proof (wo_disk _ _ _ Hw) as Hd.
  destruct (dk_log _ _ _ Hd) as (rs & Hc & Hsz & HL).
  assert (length rs = length L) as Hlen by (by rewrite <-HL, length_fmap).
  pose proof Hok as [Hlog (id & Hcp) Hfrom Hoff (rs0 & He) Hwt Hact _].
  rewrite (log_poll_whole _ _ rs) in Hs by (rewrite ?Hlog, ?Hlen; done). unfold r_done in *. rewrite Hpc in *.
  destruct (rs !! Z.to_nat (consumer_offset_ (r_queue r))) as [rec|] eqn:Hrec; [case_decide; [done|]|]; cbn in Hs.
  - injection Hs as <-. apply lookup_lt_Some in Hrec as Hlt.
    assert (Z.to_nat (consumer_offset_ (r_queue r) + 1) - 1 = Z.to_nat (consumer_offset_ (r_queue r)))%nat as Hpred by lia.
    apply (world_set_replica L T w _ p r); [done|done| | |done].
    + rewrite Hcp. apply disk_checkpoint; [done|]. apply saved_in_range; (done || lia).
    + split; unfold r_done; cbn -[span]; rewrite ?Hpred; try (done || lia || by eauto).
      rewrite <-HL, list_lookup_fmap, Hrec. split; [done|lia].
  - destruct (log_done_ (r_queue r)); injection Hs as <-; [by apply exit_ok|].
    apply (world_set_replica L T w _ p r); [done..| |done].
    split; unfold r_done; cbn -[span]; rewrite ?Hpc; eauto.
Qed.

(** The owner and the lock after a poll, in the terms of [LeaderLock.v]. *)
Lemma election_poll w p r :
  w_replicas w !! p = Some r ->
  election_step (w_election w) (Poll p) =
    Some (mkElection (owner_after w p (vm_leader (r_vm r)))
            (<[p := (try_acquire (vm_leader (r_vm r)) (flock_result (w_election w) p)).1]>
               (replicas (w_election w)))).
Proof.
  intros Hp. assert (replicas (w_election w) !! p = Some (vm_leader (r_vm r))) as Hl.
  { unfold w_election. cbn [replicas]. by rewrite lookup_fmap, Hp. }
  cbn [election_step]. by rewrite Hl.
Qed.

Lemma vm_start_leader fd flock : vm_leader (vm_start fd flock) = (try_acquire (new_ShardLeaderLock fd) flock).1.
Proof. unfold vm_start. by destruct (try_acquire _ _). Qed.

Lemma vm_start_active fd flock : vm_active (vm_start fd flock) = held_ (vm_leader (vm_start fd flock)).
Proof.
  unfold vm_start, try_acquire, new_ShardLeaderLock. cbn. by destruct (fd <? 0); [|destruct (flock =? 0)].
Qed.

Lemma start_election w p fd vm :
  election_ok (w_election w) -> w_replicas w !! p = None ->
  vm_leader vm = (try_acquire (new_ShardLeaderLock fd) (flock_result (w_election w) p)).1 ->
  election_ok (mkElection (owner_after w p (new_ShardLeaderLock fd))
                 (<[p := vm_leader vm]> (replicas (w_election w)))).
Proof.
  intros He Hp Hl.
  set (e1 := mkElection (w_owner w) (<[p := new_ShardLeaderLock fd]> (replicas (w_election w)))).
  assert (election_ok e1) as He1.
  { apply (election_step_ok (w_election w) (Start p fd)); [done|]. cbn. by rewrite lookup_fmap, Hp. }
  apply (election_step_ok e1 (Poll p)); [done|]. cbn. rewrite lookup_insert_eq. cbn.
  by rewrite insert_insert_eq, Hl.
Qed.

Lemma new_replica_ok L fd flock id k :
  0 <= k <= Z.of_nat (length L) ->
  replica_ok L (mkReplica k (mkLogQueue (log_path base) (checkpoint_path base id) k false)
                  (vm_start fd flock) InPop).
Proof.
  intros Hk. assert (vm_engines (vm_start fd flock) = ∅) as He.
  { unfold vm_start. by destruct (try_acquire _ _). }
  split; unfold r_done; cbn -[span]; try done; [by eexists|lia| | |apply vm_start_active].
  - exists []. by rewrite span_empty, He.
  - rewrite He. by split; [apply engines_ok_empty|].
Qed.

Lemma start_replica_ok L T w p id fd w' :
  world_ok L T w -> start_replica base w p id fd = Some w' -> world_ok L T w'.
Proof.
  intros [Hd Ho He Hr Hc] Hs. unfold start_replica in Hs.
  destruct (w_replicas w !! p) eqn:Hp; [done|].
  unfold new_LogBackedOrderQueue, fopen_append in Hs. cbn [log_path_] in Hs.
  case_decide as Hopen; [done|]. cbn in Hs.
  assert (disk_ok L T (set_contents (w_fs w) (log_path base) (contents (w_fs w) (log_path base)))) as Hd1
    by (apply disk_open; auto).
  unfold new_TradeLog, fopen_append in Hs.
  case_decide as Hopen'; [done|]. cbn in Hs. injection Hs as <-. split; cbn [w_fs w_replicas w_clients]; [|done| | |done].
  - apply (disk_open L T (set_contents (w_fs w) (log_path base) _)); auto.
  - unfold w_election. cbn [w_owner w_replicas]. rewrite fmap_insert.
    apply start_election; [done|done|]. cbn. apply vm_start_leader.
  - intros q r [[_ <-]|[_ H]]%lookup_insert_Some; [|by eapply Hr].
    apply new_replica_ok, offset_within_now, (dk_saved _ _ _ Hd1).
Qed.

(** The lock and the flag [active] after the loop body has tried to lead. *)
Lemma vm_poll_leader_spec vm flock :
  vm_active vm = held_ (vm_leader vm) ->
  let vm1 := (vm_poll_leader vm flock).1 in
  vm_engines vm1 = vm_engines vm /\ vm_active vm1 = held_ (vm_leader vm1) /\
  vm_leader vm1 = (try_acquire (vm_leader vm) flock).1.
Proof.
  intros Ha. unfold vm_poll_leader. destruct (vm_active vm) eqn:E.
  - unfold try_acquire. rewrite <-Ha. cbn. by rewrite E.
  - unfold try_acquire. rewrite <-Ha. cbn. destruct (fd_ (vm_leader vm) <? 0); cbn; [done|].
    by destruct (flock =? 0).
Qed.

(** What a submission reads and writes. *)
Lemma submit_replica_inv w p w' :
  submit_replica num_shards w p = Some w' ->
  exists r o m b res, w_replicas w !! p = Some r /\ r_pc r = Handling o /\
    apply_order (vm_engines (r_vm r)) o = Ret (m, b, res) /\
    let vm1 := (vm_poll_leader (r_vm r) (flock_result (w_election w) p)).1 in
    w' = mkWorld (w_fs w) (if vm_active (r_vm r) then w_owner w else owner_after w p (vm_leader (r_vm r)))
           (<[p := mkReplica (r_from r) (r_queue r) (mkVM (vm_leader vm1) (vm_active vm1) m)
                     (Publishing (if vm_active vm1 then result_trades res else []))]> (w_replicas w))
           (w_clients w).
Proof.
  unfold submit_replica. intros (r & Hp & Hs)%bind_Some.
  destruct (r_pc r) as [|o|] eqn:Hpc; [done| |done].
  assert (vm_engines (vm_poll_leader (r_vm r) (flock_result (w_election w) p)).1 = vm_engines (r_vm r)) as Hve.
  { unfold vm_poll_leader. destruct (vm_active (r_vm r)); [done|]. by destruct (try_acquire _ _). }
  rewrite Hve in Hs. apply bind_Some in Hs as (sh & _ & Hs).
  apply bind_Some in Hs as ([[m b] res] & Ha & Hs).
  destruct (apply_order _ _) as [x| | |] eqn:Hap in Ha; [|done..]. injection Ha as ->. injection Hs as <-.
  by exists r, o, m, b, res.
Qed.

Lemma submit_replica_ok L T w p w' :
  world_ok L T w -> submit_replica num_shards w p = Some w' -> world_ok L T w'.
Proof.
  intros [Hd Ho He Hr Hc] (r & o & m & b & res & Hp & Hpc & Hap & ->)%submit_replica_inv.
  pose proof (Hr _ _ Hp) as [Hlog Hcp Hfrom Hoff (rs & Heng) Hwt Hact Hop].
  unfold r_done in *. rewrite Hpc in *. destruct Hop as [Hlook Hpos].
  destruct (vm_poll_leader_spec (r_vm r) (flock_result (w_election w) p) Hact) as (_ & Hva & Hvl).
  set (vm1 := (vm_poll_leader _ _).1) in *.
  assert (order_ok o) as Hoo by (by eapply Forall_lookup_1).
  destruct (apply_order_wt _ _ _ _ _ Hwt Hoo Hap) as [Hwt' Hts].
  split; cbn [w_fs w_owner w_replicas w_clients]; [done|done| | |done].
  - unfold w_election. cbn [w_owner w_replicas]. rewrite fmap_insert. cbn [r_vm vm_leader]. rewrite Hvl.
    eapply (election_step_ok (w_election w) (Poll p)); [done|].
    rewrite (election_poll w p r Hp). do 2 f_equal.
    destruct (vm_active (r_vm r)) eqn:E; [|done]. unfold owner_after, calls_flock. by rewrite <-Hact.
  - intros q rq [[_ <-]|[_ H]]%lookup_insert_Some; [|by eapply Hr].
    assert (Z.to_nat (consumer_offset_ (r_queue r)) = S (Z.to_nat (consumer_offset_ (r_queue r)) - 1)) as Hsucc by lia.
    split; unfold r_done; cbn -[span]; try (done || lia || by eauto).
    + exists (rs ++ [res]). rewrite Hsucc, (span_snoc _ _ _ o) by (done || lia). by eapply apply_all_snoc.
    + destruct (vm_active vm1); split; done.
Qed.

(** The trade an action appends to the trade log. *)
Definition published_by (w : world) (a : action) : list Trade :=
  match a with
  | PublishNext p =>
    match r_pc <$> w_replicas w !! p with Some (Publishing (t :: _)) => [t] | _ => [] end
  | _ => []
  end.

Lemma published_by_length w a : (length (pushed_orders [a]) + length (published_by w a) <= 1)%nat.
Proof. destruct a; simpl; repeat case_match; simpl; lia. Qed.

Lemma publish_replica_ok L T w p w' :
  world_ok L T w -> publish_replica base w p = Some w' ->
  world_ok L (T ++ published_by w (PublishNext p)) w'.
Proof.
  intros Hw Hs. unfold publish_replica in Hs. apply bind_Some in Hs as (r & Hp & Hs).
  pose proof (wo_replicas _ _ _ Hw _ _ Hp) as Hok. unfold published_by. rewrite Hp. cbn [fmap option_fmap option_map].
  destruct (r_pc r) as [| |[|t ts]] eqn:Hpc; [done|done|..]; injection Hs as <-.
  - rewrite app_nil_r.
    apply (world_set_replica L T w _ p r); [done|done|apply (wo_disk _ _ _ Hw)| |done].
    destruct Hok. unfold r_done in *. rewrite Hpc in *. split; unfold r_done; done.
  - pose proof Hok as [? ? ? ? ? ? ? Hts]. unfold r_done in *. rewrite Hpc in *. destruct Hts as [[Ht Hts]%Forall_cons Hact].
    assert (world_ok L (T ++ [t]) (mkWorld (publish (w_fs w) (trades_path base) t) (w_owner w) (w_replicas w) (w_clients w))) as Hw'.
    { destruct Hw as [Hd Ho He Hr Hc]. split; try done; [by apply disk_publish|].
      intros j c Hj. apply client_ok_grow. by eapply Hc. }
    apply (world_set_replica L (T ++ [t]) _ (publish (w_fs w) (trades_path base) t) p r) with (r' := mkReplica (r_from r) (r_queue r) (r_vm r) (Publishing ts)) in Hw';
      [done|done|apply (wo_disk _ _ _ Hw')| |done].
    split; unfold r_done; cbn -[span]; try done. split; [done|]. intros Hf. by apply Hact in Hf.
Qed.

Lemma next_client_ok L T w j w' :
  world_ok L T w -> log_range (length T) -> next_client w j = Some w' -> world_ok L T w'.
Proof.
  intros [Hd Ho He Hr Hc] Hrange Hs. unfold next_client in Hs. apply bind_Some in Hs as (c & Hj & Hs).
  destruct (Hc _ _ Hj) as (k & Hsub & Hf & Hk & Hseen).
  assert (trades_in_range T) as HT.
  { split; [apply (dk_wt _ _ _ Hd)|]. unfold log_range, sizeof_Order in Hrange. unfold sizeof_Trade. lia. }
  rewrite Hsub, (try_next_whole base (c_id c) T) in Hs by (apply (dk_trades _ _ _ Hd) || done || lia).
  destruct (T !! Z.to_nat k) as [t|] eqn:Ht; [case_decide as Hopen; [done|]|]; cbn in Hs; injection Hs as <-.
  - apply lookup_lt_Some in Ht as Hlt.
    split; cbn [w_fs w_replicas w_clients]; [|done|done|done|].
    { apply disk_sub_checkpoint; [done|]. apply saved_in_range; [done|lia]. }
    intros i ci [[_ <-]|[_ H]]%lookup_insert_Some; [|by eapply Hc].
    exists (k + 1). cbn. split_and!; try (done || lia).
    replace (Z.to_nat (k + 1)) with (S (Z.to_nat k)) by lia.
    rewrite (span_snoc _ _ _ t) by (done || lia). by rewrite Hseen.
  - split; cbn [w_fs w_replicas w_clients]; try done.
    intros i ci [[_ <-]|[_ H]]%lookup_insert_Some; [|by eapply Hc]. by exists k.
Qed.

Lemma attach_client_ok L T w j id w' :
  world_ok L T w -> attach_client base w j id = Some w' -> world_ok L T w'.
Proof.
  intros [Hd Ho He Hr Hc] Hs. unfold attach_client in Hs. destruct (w_clients w !! j); [done|].
  unfold new_Subscriber, fopen_append in Hs. cbn [sub_log_path_] in Hs.
  case_decide as Hopen; [done|]. cbn in Hs.
  assert (disk_ok L T (set_contents (w_fs w) (trades_path base) (contents (w_fs w) (trades_path base)))) as Hd1
    by (apply disk_open; auto).
  injection Hs as <-. split; cbn [w_fs w_replicas w_clients]; [done|done|done|done|].
  intros i ci [[_ <-]|[_ H]]%lookup_insert_Some; [|by eapply Hc].
  pose proof (offset_within_now _ _ _ (dk_sub_saved _ _ _ Hd1 id)) as Hs. unfold client_ok. cbn -[span load_offset].
  eexists. split_and!; [reflexivity|apply Hs|reflexivity|apply Hs|by rewrite span_empty].
Qed.

(** The disk after a kill inside [pop] or [try_next]. *)
Lemma kill_in_pop_disk L T w p i r fs :
  world_ok L T w -> log_range (length L) -> w_replicas w !! p = Some r -> r_pc r = InPop ->
  poll_disk_states (w_fs w) (r_queue r) !! i = Some fs -> disk_ok L T fs.
Proof.
  intros Hw Hr Hp Hpc Hi. pose proof (wo_disk _ _ _ Hw) as Hd.
  destruct (wo_replicas _ _ _ Hw _ _ Hp) as [Hlog (id & Hcp) _ Hoff _ _ _ _].
  assert (forall fs0, [w_fs w] !! i = Some fs0 -> disk_ok L T fs0) as Hsame.
  { intros fs0 [_ <-]%list_lookup_singleton_Some. done. }
  unfold poll_disk_states in Hi. destruct (_ <? _) eqn:Hlt; [|by apply Hsame].
  destruct (store_offset_states _ _ _) as [fss|] eqn:Hst; [|by apply Hsame].
  rewrite Hcp in Hst. destruct (store_states_cases _ _ _ _ _ _ Hst Hi) as [-> | [-> | ->]]; [done|..];
    (apply disk_checkpoint; [done|]); [apply empty_in_range|].
  destruct (dk_log _ _ _ Hd) as (rs & Hc & Hsz & HL).
  assert (length rs = length L) as Hlen by (by rewrite <-HL, length_fmap).
  unfold current_file_record_count in Hlt. rewrite Hlog, Hc, record_count in Hlt by (done || (unfold sizeof_Order; lia)).
  apply Z.ltb_lt in Hlt. unfold log_range, sizeof_Order in Hr.
  rewrite add64_small by (rewrite modulus64_val; lia).
  apply saved_in_range; [done|lia].
Qed.

Lemma kill_in_next_disk L T w j i c fs :
  world_ok L T w -> log_range (length T) -> w_clients w !! j = Some c ->
  next_disk_states (w_fs w) (c_sub c) !! i = Some fs -> disk_ok L T fs.
Proof.
  intros Hw Hr Hj Hi. pose proof (wo_disk _ _ _ Hw) as Hd.
  destruct (wo_clients _ _ _ Hw _ _ Hj) as (k & Hsub & Hf & Hk & _).
  assert (forall fs0, [w_fs w] !! i = Some fs0 -> disk_ok L T fs0) as Hsame.
  { intros fs0 [_ <-]%list_lookup_singleton_Some. done. }
  unfold next_disk_states in Hi. rewrite Hsub in Hi. cbn [subscriber_at sub_log_path_ sub_checkpoint_path_ offset_] in Hi.
  rewrite (dk_trades _ _ _ Hd), trades_available in Hi.
  destruct (Z.leb_spec (Z.of_nat (length T)) k) as [Hle|Hlt]; [by apply Hsame|].
  destruct (store_offset_states _ _ _) as [fss|] eqn:Hst; [|by apply Hsame].
  destruct (store_states_cases _ _ _ _ _ _ Hst Hi) as [-> | [-> | ->]]; [done|..];
    (apply disk_sub_checkpoint; [done|]); [apply empty_in_range|].
  rewrite add64_small by (unfold log_range, sizeof_Order in Hr; rewrite modulus64_val; lia).
  apply saved_in_range; [done|lia].
Qed.

Lemma world_set_disk L T w fs :
  world_ok L T w -> disk_ok L T fs -> world_ok L T (mkWorld fs (w_owner w) (w_replicas w) (w_clients w)).
Proof. intros [_ Ho He Hr Hc] Hd. by split. Qed.

Lemma detach_ok L T w j :
  world_ok L T w -> world_ok L T (mkWorld (w_fs w) (w_owner w) (w_replicas w) (delete j (w_clients w))).
Proof.
  intros [Hd Ho He Hr Hc]. split; try done. cbn. intros i c [_ H]%lookup_delete_Some. by eapply Hc.
Qed.

(** One step, whichever process makes it. *)
Lemma shard_step_ok L T w a w' :
  world_ok L T w -> action_ok a -> log_range (length L) -> log_range (length T) ->
  shard_step base num_shards w a = Some w' ->
  world_ok (L ++ pushed_orders [a]) (T ++ published_by w a) w'.
Proof.
  intros Hw Ha HL HT Hs.
  assert (forall w'', world_ok L T w'' -> world_ok (L ++ []) (T ++ []) w'') as Hkeep by (by rewrite !app_nil_r).
  destruct a as [pad o|p id fd|p|p|p|p|p|j id|j|j|p i|j i| |refused]; cbn [shard_step] in Hs;
    unfold pushed_orders; cbn [omap list_omap]; cbn [published_by].
  - injection Hs as <-. destruct Ha as [Hpad Hok]. rewrite app_nil_r.
    destruct Hw as [Hd Ho He Hr Hc]. split; [by apply disk_push| |done| |done].
    + apply Forall_app. by split; [|constructor].
    + intros p r Hp. apply replica_ok_grow. by eapply Hr.
  - apply Hkeep. by eapply start_replica_ok.
  - apply Hkeep. by eapply poll_replica_ok.
  - apply Hkeep. by eapply submit_replica_ok.
  - rewrite app_nil_r. by apply (publish_replica_ok L T).
  - apply bind_Some in Hs as (r & Hp & [= <-]). apply Hkeep.
    apply (world_set_replica L T w _ p r); [done|done|apply (wo_disk _ _ _ Hw)| |done].
    destruct (wo_replicas _ _ _ Hw _ _ Hp). by split.
  - injection Hs as <-. by apply Hkeep, exit_ok.
  - apply Hkeep. by eapply attach_client_ok.
  - apply Hkeep. by eapply next_client_ok.
  - injection Hs as <-. by apply Hkeep, detach_ok.
  - apply bind_Some in Hs as (r & Hp & Hs). destruct (r_pc r) eqn:Hpc; [|done..].
    apply bind_Some in Hs as (fs & Hi & [= <-]).
    apply Hkeep, exit_ok, world_set_disk; [done|]. by eapply kill_in_pop_disk.
  - apply bind_Some in Hs as (c & Hj & Hs). apply bind_Some in Hs as (fs & Hi & [= <-]).
    apply Hkeep, (detach_ok L T (mkWorld fs (w_owner w) (w_replicas w) (w_clients w))), world_set_disk; [done|].
    by eapply kill_in_next_disk.
  - unfold new_LogBackedOrderQueue, fopen_append in Hs. cbn [log_path_] in Hs.
    case_decide; [done|].
    injection Hs as <-. apply Hkeep, world_set_disk; [done|]. apply disk_open; [by left|apply (wo_disk _ _ _ Hw)].
  - injection Hs as <-. apply Hkeep, world_set_disk; [done|]. apply disk_permissions, (wo_disk _ _ _ Hw).
Qed.


Lemma pushed_orders_cons a acts : pushed_orders (a :: acts) = pushed_orders [a] ++ pushed_orders acts.
Proof. unfold pushed_orders. cbn. by destruct a. Qed.

Lemma shard_run_ok L T w acts w' :
  world_ok L T w -> Forall action_ok acts -> log_range (length L + length T + length acts) ->
  shard_run base num_shards w acts = Some w' ->
  exists T', world_ok (L ++ pushed_orders acts) (T ++ T') w'.
Proof.
  intros Hw Hacts. revert L T w Hw. induction Hacts as [|a acts Ha _ IH]; intros L T w Hw Hr Hs; cbn in Hs.
  { injection Hs as <-. exists []. unfold pushed_orders. cbn. by rewrite !app_nil_r. }
  apply bind_Some in Hs as (w1 & Hs1 & Hs).
  assert (forall n, (n <= length L + length T + length (a :: acts))%nat -> log_range n) as Hdown
    by (intros n Hle; by eapply log_range_down).
  assert (world_ok (L ++ pushed_orders [a]) (T ++ published_by w a) w1) as Hw1
    by (apply shard_step_ok; [done|done|apply Hdown; lia|apply Hdown; lia|done]).
  pose proof (published_by_length w a) as Hlen1.
  destruct (IH _ _ _ Hw1) as (T2 & Hw2); [|done|].
  { apply Hdown. rewrite !length_app. cbn [length]. lia. }
  exists (published_by w a ++ T2). rewrite pushed_orders_cons, !app_assoc. rewrite <-!app_assoc in *. done.
Qed.

(** The invariant of a whole run, with the sizes of the logs. *)
Lemma shard_run_sizes acts w :
  Forall action_ok acts -> log_range (length acts) -> shard_run base num_shards empty_world acts = Some w ->
  exists T, world_ok (pushed_orders acts) T w /\ log_range (length (pushed_orders acts)) /\ log_range (length T).
Proof.
  intros Hacts. enough (forall L T w0, world_ok L T w0 -> log_range (length L + length T + length acts) ->
    shard_run base num_shards w0 acts = Some w ->
    exists T', world_ok (L ++ pushed_orders acts) T' w /\ log_range (length (L ++ pushed_orders acts)) /\
      log_range (length T')) as H.
  { intros Hr Hs. apply (H [] [] empty_world); [apply world_ok_empty|done|done]. }
  induction Hacts as [|a acts Ha _ IH]; intros L T w0 Hw Hr Hs; cbn in Hs.
  { injection Hs as <-. exists T. unfold pushed_orders. cbn. rewrite app_nil_r.
    split_and!; [done|..]; eapply log_range_down, Hr; lia. }
  apply bind_Some in Hs as (w1 & Hs1 & Hs).
  assert (log_range (length L) /\ log_range (length T)) as [HL HT] by (split; eapply log_range_down, Hr; lia).
  rewrite pushed_orders_cons, app_assoc.
  eapply IH; [by apply (shard_step_ok L T w0 a)| |done].
  eapply log_range_down, Hr. pose proof (published_by_length w0 a). rewrite !length_app. cbn [length]. lia.
Qed.

(** *** Progress *)

(** A turn of [pop] is a step, unless there is a record to read and its checkpoint
    cannot be written: then it throws. *)
Lemma poll_progress L T w p r :
  world_ok L T w -> log_range (length L) -> w_replicas w !! p = Some r -> r_pc r = InPop ->
  if decide (consumer_offset_ (r_queue r) < Z.of_nat (length L) /\ checkpoint_path_ (r_queue r) ∈ denied (w_fs w))
  then log_poll (w_fs w) (r_queue r) = Throw "LogBackedOrderQueue: cannot write"
  else is_Some (poll_replica w p).
Proof.
  intros Hw Hr Hp Hpc. unfold poll_replica. rewrite Hp. cbn. rewrite Hpc.
  pose proof (wo_replicas _ _ _ Hw _ _ Hp) as [Hlog _ _ Hoff _ _ _ _].
  destruct (dk_log _ _ _ (wo_disk _ _ _ Hw)) as (rs & Hc & Hsz & HL).
  assert (length rs = length L) as Hlen by (by rewrite <-HL, length_fmap).
  rewrite (log_poll_whole _ _ rs) by (rewrite ?Hlog, ?Hlen; done). rewrite <-Hlen.
  destruct (rs !! Z.to_nat _) as [rec|] eqn:Hrec.
  - apply lookup_lt_Some in Hrec. case_decide as H1; case_decide as H2; cbn; try done; [tauto|].
    destruct H1. split; [lia|done].
  - apply lookup_ge_None in Hrec. rewrite decide_False by lia. cbn. by destruct (log_done_ _).
Qed.

Lemma submit_progress L T w p r o :
  0 < num_shards < 2 ^ 32 -> world_ok L T w -> w_replicas w !! p = Some r -> r_pc r = Handling o ->
  is_Some (submit_replica num_shards w p).
Proof.
  intros Hn Hw Hp Hpc. unfold submit_replica. rewrite Hp. cbn. rewrite Hpc.
  pose proof (wo_replicas _ _ _ Hw _ _ Hp) as [_ _ _ _ _ [Hok _] Hact Hl]. rewrite Hpc in Hl. destruct Hl as [Hl _].
  destruct (vm_poll_leader_spec (r_vm r) (flock_result (w_election w) p) Hact) as (-> & _ & _).
  destruct (shard_for_symbol_ret (symbol_str o) num_shards Hn) as [-> _]. cbn.
  assert (order_ok o) as (_ & _ & Hadm) by (eapply Forall_lookup_1; [apply (wo_orders _ _ _ Hw)|done]).
  destruct (apply_order_returns _ o Hok Hadm) as (e' & res & _ & -> & _). done.
Qed.

Lemma next_progress L T w j c :
  world_ok L T w -> log_range (length T) -> w_clients w !! j = Some c ->
  if decide (offset_ (c_sub c) < Z.of_nat (length T) /\ sub_checkpoint_path_ (c_sub c) ∈ denied (w_fs w))
  then try_next (w_fs w) (c_sub c) = Throw "TradeLog::Subscriber: cannot write"
  else is_Some (next_client w j).
Proof.
  intros [Hd _ _ _ Hc] Hr Hj. unfold next_client. rewrite Hj. cbn.
  destruct (Hc _ _ Hj) as (k & -> & Hf & Hk & _). rewrite (try_next_whole base (c_id c) T); [|apply (dk_trades _ _ _ Hd)| |lia].
  - cbn [subscriber_at offset_ sub_checkpoint_path_]. destruct (T !! Z.to_nat k) as [t|] eqn:Ht.
    + apply lookup_lt_Some in Ht. case_decide as H1; case_decide as H2; cbn; try done; [tauto|].
      destruct H1. split; [lia|done].
    + apply lookup_ge_None in Ht. by rewrite decide_False by lia.
  - split; [apply (dk_wt _ _ _ Hd)|]. unfold log_range, sizeof_Order in Hr. unfold sizeof_Trade. lia.
Qed.

(** A new replica opens the two logs, in this order. *)
Lemma start_progress w p id fd :
  w_replicas w !! p = None ->
  if decide (log_path base ∈ denied (w_fs w))
  then new_LogBackedOrderQueue (w_fs w) base id = Throw "LogBackedOrderQueue: cannot open"
  else exists fs q, new_LogBackedOrderQueue (w_fs w) base id = Ret (fs, q) /\
    if decide (trades_path base ∈ denied (w_fs w)) then new_TradeLog fs base = Throw "TradeLog: cannot open"
    else is_Some (start_replica base w p id fd).
Proof.
  intros Hp. unfold start_replica, new_LogBackedOrderQueue, new_TradeLog, fopen_append. rewrite Hp. cbn [log_path_].
  case_decide; [done|]. do 2 eexists. split; [reflexivity|]. cbn. by case_decide.
Qed.

Lemma attach_progress w j id :
  w_clients w !! j = None ->
  if decide (trades_path base ∈ denied (w_fs w))
  then new_Subscriber (w_fs w) base id = Throw "TradeLog::Subscriber: cannot open"
  else is_Some (attach_client base w j id).
Proof.
  intros Hj. unfold attach_client, new_Subscriber, fopen_append. rewrite Hj. cbn [sub_log_path_]. by case_decide.
Qed.
End invariant.
