(* ===== verification/ShardProps.v ===== *)
(** * What the processes of a shard guarantee together

    From the invariant of [ShardSystem.v]: the state of every replica as a function
    of the order log, the contents of the trade log as runs of the trades of the
    whole log, one run per leader, what subscribers receive, what can stop a process,
    and what a restart forgets. *)

From S2P Require Import Prelude Double Rounding StdMap Order Sharding PriceCollar OrderBook MatchingEngine Exchange ExchangeFacts Refinement CancelIndex Session OrderQueue Bytes Files LogQueue ShardRouter LeaderLock TradeLog EngineVM EngineMain ShardSystem.

(** ** The trades of a log *)

(** All the trades that submitting [L] to fresh engines makes, in order. *)
Definition all_trades (L : list Order) : list Trade :=
  match apply_all ∅ L with
  | Ret (_, rs) => concat (result_trades <$> rs)
  | _ => []
  end.

Lemma order_ok_admissible L : Forall order_ok L -> Forall admissible L.
Proof. intros H. eapply Forall_impl; [exact H|]. by intros o (_ & _ & ?). Qed.

Lemma all_trades_snoc L o m rs m' b r :
  apply_all ∅ L = Ret (m, rs) -> apply_order m o = Ret (m', b, r) ->
  all_trades (L ++ [o]) = all_trades L ++ result_trades r.
Proof.
  intros Ha Ho. unfold all_trades. rewrite (apply_all_snoc _ _ _ _ _ _ _ _ Ha Ho), Ha.
  rewrite fmap_app, concat_app. cbn. by rewrite app_nil_r.
Qed.

(** The trades of a prefix of the log come first. *)
Lemma all_trades_take L k :
  Forall order_ok L -> (k <= length L)%nat -> all_trades (take k L) `prefix_of` all_trades L.
Proof.
  intros HL Hk.
  destruct (apply_all_symbol ∅ L engines_ok_empty (order_ok_admissible L HL)) as (m & rs & Ha & _).
  destruct (apply_all_at _ _ _ _ k Hk Ha) as (m1 & Ha1 & _).
  unfold all_trades. rewrite Ha, Ha1. rewrite <-(take_drop k rs) at 2.
  rewrite fmap_app, concat_app. by apply prefix_app_r.
Qed.

Lemma all_trades_app L K : Forall order_ok (L ++ K) -> all_trades L `prefix_of` all_trades (L ++ K).
Proof.
  intros H. pose proof (all_trades_take (L ++ K) (length L) H) as Hp.
  rewrite take_app_length in Hp. apply Hp. rewrite length_app. lia.
Qed.

(** ** Runs of the trades *)

(** [n] consecutive trades from position [a]. *)
Definition run_of (tot : list Trade) (s : nat * nat) : list Trade := take s.2 (drop s.1 tot).

Definition run_within (tot : list Trade) (s : nat * nat) : Prop := (s.1 + s.2 <= length tot)%nat.

Lemma run_of_prefix tot tot' s : run_within tot s -> tot `prefix_of` tot' -> run_of tot' s = run_of tot s.
Proof.
  unfold run_within. intros Hs [k ->]. unfold run_of.
  rewrite drop_app_le by lia. apply take_app_le. rewrite length_drop. lia.
Qed.

Lemma runs_prefix tot tot' segs :
  Forall (run_within tot) segs -> tot `prefix_of` tot' ->
  run_of tot' <$> segs = run_of tot <$> segs /\ Forall (run_within tot') segs.
Proof.
  intros Hs Hp. split.
  - induction Hs as [|s segs Hs _ IH]; [done|]. rewrite !fmap_cons, IH. f_equal. by apply run_of_prefix.
  - eapply Forall_impl; [exact Hs|]. unfold run_within. intros s ?. apply prefix_length in Hp. lia.
Qed.

(** The last run takes one more trade. *)
Lemma runs_extend tot segs a n t :
  tot !! (a + n)%nat = Some t ->
  concat (run_of tot <$> (segs ++ [(a, S n)])) = concat (run_of tot <$> (segs ++ [(a, n)])) ++ [t].
Proof.
  intros Ht. rewrite !fmap_app, !concat_app. cbn. rewrite !app_nil_r, <-app_assoc. f_equal.
  unfold run_of. cbn [fst snd]. apply take_S_r. by rewrite lookup_drop.
Qed.

(** The trades a replica has still to publish. *)
Definition pending (r : replica) : list Trade :=
  match r_pc r with Publishing ts => ts | _ => [] end.

(** The ids the replicas were started with. *)
Definition started_ids (acts : list action) : list string :=
  omap (fun a => match a with StartReplica _ id _ => Some id | _ => None end) acts.

Section runs.
Context (base : string) (num_shards : Z).

(** The number of times the lock passed from nobody to a process. *)
Fixpoint elections (w : world) (acts : list action) : nat :=
  match acts with
  | [] => 0
  | a :: acts' =>
    match shard_step base num_shards w a with
    | Some w' =>
      ((if decide (w_owner w = None /\ w_owner w' <> None) then 1 else 0) + elections w' acts')%nat
    | None => 0
    end
  end.

(** The run of the current leader reaches the orders it has submitted, but for
    the trades it has still to publish. *)
Definition leads_run (L : list Order) (segs : list (nat * nat)) (r : replica) : Prop :=
  exists segs' a n, segs = segs' ++ [(a, n)] /\
    (a + n <= length (all_trades (take (r_done r) L)))%nat /\
    drop (a + n) (all_trades (take (r_done r) L)) = pending r.

Record runs_ok (used : list string) (segs : list (nat * nat)) (L : list Order) (T : list Trade) (w : world) : Prop := {
  ru_fresh id : id ∉ used -> files (w_fs w) !! checkpoint_path base id = None;
  ru_from p r : w_replicas w !! p = Some r -> r_from r = 0;
  ru_ids p r : w_replicas w !! p = Some r -> exists id, id ∈ used /\ checkpoint_path_ (r_queue r) = checkpoint_path base id;
  ru_runs : T = concat (run_of (all_trades L) <$> segs);
  ru_within : Forall (run_within (all_trades L)) segs;
  ru_first : match segs with [] => True | (a, _) :: _ => a = 0%nat end;
  ru_none p r : segs = [] -> w_replicas w !! p = Some r -> fd_ (vm_leader (r_vm r)) < 0;
  ru_leader p r : w_owner w = Some p -> w_replicas w !! p = Some r -> leads_run L segs r
}.

(** A step that neither elects a leader nor moves a replica past an order or a
    trade. *)
Lemma runs_update used segs L T w w' :
  runs_ok used segs L T w -> (w_owner w' = w_owner w \/ w_owner w' = None) ->
  (forall id, id ∉ used -> files (w_fs w') !! checkpoint_path base id = files (w_fs w) !! checkpoint_path base id) ->
  (forall p r', w_replicas w' !! p = Some r' -> exists r, w_replicas w !! p = Some r /\
     r_from r' = r_from r /\ checkpoint_path_ (r_queue r') = checkpoint_path_ (r_queue r) /\
     vm_leader (r_vm r') = vm_leader (r_vm r) /\ r_done r' = r_done r /\ pending r' = pending r) ->
  runs_ok used segs L T w'.
Proof.
  intros [Hfr Hfrom Hids Hruns Hwi Hfst Hnone Hlead] Ho Hf Hr. split; try done.
  - intros id Hid. rewrite Hf by done. by apply Hfr.
  - intros p r' (r & Hp & -> & _)%Hr. by eapply Hfrom.
  - intros p r' (r & Hp & _ & -> & _)%Hr. by eapply Hids.
  - intros p r' Hs (r & Hp & _ & _ & -> & _)%Hr. by eapply Hnone.
  - intros p r' Hp' (r & Hp & _ & _ & _ & Hd & Hpe)%Hr.
    destruct Ho as [Ho|Ho]; [|congruence]. rewrite Ho in Hp'.
    unfold leads_run. rewrite Hd, Hpe. by eapply Hlead.
Qed.

(** The update of a single replica in that way. *)
Lemma runs_set_replica used segs L T w fs p r r' :
  runs_ok used segs L T w -> w_replicas w !! p = Some r ->
  (forall id, id ∉ used -> files fs !! checkpoint_path base id = files (w_fs w) !! checkpoint_path base id) ->
  r_from r' = r_from r -> checkpoint_path_ (r_queue r') = checkpoint_path_ (r_queue r) ->
  vm_leader (r_vm r') = vm_leader (r_vm r) -> r_done r' = r_done r -> pending r' = pending r ->
  runs_ok used segs L T (set_replica w fs p r').
Proof.
  intros Hru Hp Hf H1 H2 H3 H4 H5. apply (runs_update used segs L T w); [done|by left|done|].
  cbn. intros q rq [[<- <-]|[_ Hq]]%lookup_insert_Some; eauto 10.
Qed.

Lemma runs_exit used segs L T w p : runs_ok used segs L T w -> runs_ok used segs L T (exit_replica w p).
Proof.
  intros Hru. apply (runs_update used segs L T w); [done| |done|].
  - cbn. case_decide; auto.
  - cbn. intros q r [_ Hq]%lookup_delete_Some. eauto 10.
Qed.

(** Another disk, with the same checkpoints of ids not yet used. *)
Lemma runs_disk used segs L T w fs clients :
  runs_ok used segs L T w ->
  (forall id, id ∉ used -> files fs !! checkpoint_path base id = files (w_fs w) !! checkpoint_path base id) ->
  runs_ok used segs L T (mkWorld fs (w_owner w) (w_replicas w) clients).
Proof. intros Hru Hf. apply (runs_update used segs L T w); [done|by left|done|eauto 10]. Qed.

Lemma runs_poll used segs L T w p w' :
  world_ok base L T w -> log_range (length L) -> runs_ok used segs L T w ->
  poll_replica w p = Some w' -> runs_ok used segs L T w'.
Proof.
  intros Hw Hr Hru Hs. unfold poll_replica in Hs. apply bind_Some in Hs as (r & Hp & Hs).
  destruct (r_pc r) eqn:Hpc; [|done..].
  pose proof (wo_replicas _ _ _ _ Hw _ _ Hp) as [Hlog _ _ Hoff _ _ _ _].
  destruct (dk_log _ _ _ _ (wo_disk _ _ _ _ Hw)) as (rs & Hc & Hsz & HL).
  assert (length rs = length L) as Hlen by (by rewrite <-HL, length_fmap).
  rewrite (log_poll_whole _ _ rs) in Hs by (rewrite ?Hlog, ?Hlen; done).
  destruct (rs !! Z.to_nat (consumer_offset_ (r_queue r))); [case_decide; [done|]|]; cbn in Hs.
  - injection Hs as <-. apply (runs_set_replica used segs L T w _ p r); try done.
    + intros id Hid. cbn. rewrite lookup_insert_ne; [done|].
      destruct (ru_ids _ _ _ _ _ Hru _ _ Hp) as (id' & Hid' & ->). intros E%checkpoint_path_inj. congruence.
    + unfold r_done. rewrite Hpc. cbn. lia.
    + unfold pending. by rewrite Hpc.
  - destruct (log_done_ (r_queue r)); injection Hs as <-; [by apply runs_exit|].
    apply (runs_set_replica used segs L T w _ p r); try done;
      [unfold r_done|unfold pending]; by rewrite Hpc.
Qed.

(** A new order extends the trades there are to publish. *)
Lemma runs_push used segs L T w w' o :
  world_ok base L T w -> order_ok o -> runs_ok used segs L T w ->
  w_owner w' = w_owner w -> w_replicas w' = w_replicas w ->
  (forall id, files (w_fs w') !! checkpoint_path base id = files (w_fs w) !! checkpoint_path base id) ->
  runs_ok used segs (L ++ [o]) T w'.
Proof.
  intros Hw Ho [Hfr Hfrom Hids Hruns Hwi Hfst Hnone Hlead] Howner Hreps Hf.
  assert (Forall order_ok (L ++ [o])) as HL.
  { apply Forall_app. split; [apply (wo_orders _ _ _ _ Hw)|by constructor]. }
  destruct (runs_prefix _ _ _ Hwi (all_trades_app L [o] HL)) as [Hsame Hwi'].
  split; rewrite ?Hreps, ?Howner; try done.
  - intros id Hid. rewrite Hf. by apply Hfr.
  - by rewrite Hsame.
  - intros p r Hp Hr. destruct (Hlead p r Hp Hr) as (segs' & a & n & H1 & H2 & H3).
    pose proof (r_done_offset _ _ _ (wo_replicas _ _ _ _ Hw _ _ Hr)).
    exists segs', a, n. rewrite take_app_le by done. done.
Qed.

(** The leader publishes: its run grows by the trade. *)
Lemma runs_publish used segs L T w p t ts r :
  world_ok base L T w -> runs_ok used segs L T w ->
  w_replicas w !! p = Some r -> r_pc r = Publishing (t :: ts) ->
  exists segs', length segs' = length segs /\
    runs_ok used segs' L (T ++ [t])
      (set_replica w (publish (w_fs w) (trades_path base) t) p
         (mkReplica (r_from r) (r_queue r) (r_vm r) (Publishing ts))).
Proof.
  intros Hw [Hfr Hfrom Hids Hruns Hwi Hfst Hnone Hlead] Hp Hpc.
  pose proof (wo_replicas _ _ _ _ Hw _ _ Hp) as Hok.
  pose proof (r_done_offset _ _ _ Hok) as Hdone. pose proof Hok as [_ _ _ _ _ _ Hact Hts].
  rewrite Hpc in Hts. destruct Hts as [_ Hts].
  assert (w_owner w = Some p) as Hown.
  { destruct (vm_active (r_vm r)) eqn:E; [|by specialize (Hts eq_refl)].
    apply (proj1 (wo_election _ _ _ _ Hw) p (vm_leader (r_vm r))); [|by rewrite <-Hact].
    unfold w_election. cbn. by rewrite lookup_fmap, Hp. }
  destruct (Hlead p r Hown Hp) as (segs' & a & n & -> & Hle & Hdrop).
  unfold pending in Hdrop. rewrite Hpc in Hdrop.
  set (mine := all_trades (take (r_done r) L)) in *.
  assert (mine !! (a + n)%nat = Some t) as Hat by (by rewrite <-(Nat.add_0_r (a + n)), <-lookup_drop, Hdrop).
  pose proof (all_trades_take L (r_done r) (wo_orders _ _ _ _ Hw) Hdone) as Hpre. fold mine in Hpre.
  assert (all_trades L !! (a + n)%nat = Some t) as Hat' by (by eapply prefix_lookup_Some).
  exists (segs' ++ [(a, S n)]). split; [by rewrite !length_app|]. split; cbn [w_fs w_replicas w_owner set_replica].
  - intros id Hid. cbn. rewrite lookup_insert_ne; [by apply Hfr|]. apply trades_path_consumer.
  - intros q rq [[<- <-]|[_ Hq]]%lookup_insert_Some; [by apply (Hfrom p r)|by eapply Hfrom].
  - intros q rq [[<- <-]|[_ Hq]]%lookup_insert_Some; [by apply (Hids p r)|by eapply Hids].
  - by rewrite (runs_extend _ _ _ _ t), Hruns.
  - apply Forall_app in Hwi as [Hwi _]. apply Forall_app. split; [done|]. constructor; [|constructor].
    unfold run_within. cbn. apply lookup_lt_Some in Hat'. lia.
  - by destruct segs' as [|[? ?] ?].
  - intros q rq Hnil. by destruct segs'.
  - intros q rq Hq [[<- <-]|[Hne _]]%lookup_insert_Some; [|congruence].
    assert (r_done (mkReplica (r_from r) (r_queue r) (r_vm r) (Publishing ts)) = r_done r) as Hd
      by (unfold r_done; by rewrite Hpc).
    exists segs', a, (S n). rewrite Hd. fold mine.
    apply lookup_lt_Some in Hat as Hlt. split_and!; [done|lia|].
    rewrite Nat.add_succ_r. by rewrite (drop_S _ _ _ Hat) in Hdrop; injection Hdrop.
Qed.

(** Process [p] becomes the leader: its run starts, empty, at [a]. *)
Lemma runs_elect used used' segs L T w w' p r' a :
  runs_ok used segs L T w -> w_owner w' = Some p -> w_replicas w' = <[p := r']> (w_replicas w) ->
  (forall id, id ∉ used' -> files (w_fs w') !! checkpoint_path base id = None) -> used ⊆ used' ->
  r_from r' = 0 -> (exists id, id ∈ used' /\ checkpoint_path_ (r_queue r') = checkpoint_path base id) ->
  (a <= length (all_trades L))%nat -> (segs = [] -> a = 0%nat) ->
  (a <= length (all_trades (take (r_done r') L)))%nat ->
  drop a (all_trades (take (r_done r') L)) = pending r' ->
  runs_ok used' (segs ++ [(a, 0%nat)]) L T w'.
Proof.
  intros [Hfr Hfrom Hids Hruns Hwi Hfst Hnone Hlead] Ho Hreps Hfiles Hused Hf0 Hid Ha Ha0 Hle Hdrop.
  split; rewrite ?Hreps; try done.
  - intros q r [[_ <-]|[_ H]]%lookup_insert_Some; [done|by eapply Hfrom].
  - intros q r [[_ <-]|[_ H]]%lookup_insert_Some; [done|].
    destruct (Hids q r H) as (id & Hid' & Hcp). eauto.
  - rewrite fmap_app, concat_app, Hruns. cbn. by rewrite app_nil_r.
  - apply Forall_app. split; [done|]. constructor; [|constructor]. unfold run_within. cbn. lia.
  - destruct segs as [|[? ?] ?]; [by apply Ha0|done].
  - intros q r Hnil. by destruct segs.
  - intros q r. rewrite Ho. intros [= <-] [[_ <-]|[Hne _]]%lookup_insert_Some; [|done].
    exists segs, a, 0%nat. rewrite Nat.add_0_r. done.
Qed.

(** Process [p] changes, and the lock does not. *)
Lemma runs_keep used used' segs L T w w' p r' :
  runs_ok used segs L T w -> w_owner w' = w_owner w -> w_replicas w' = <[p := r']> (w_replicas w) ->
  (forall id, id ∉ used' -> files (w_fs w') !! checkpoint_path base id = None) -> used ⊆ used' ->
  r_from r' = 0 -> (exists id, id ∈ used' /\ checkpoint_path_ (r_queue r') = checkpoint_path base id) ->
  (segs = [] -> fd_ (vm_leader (r_vm r')) < 0) -> (w_owner w = Some p -> leads_run L segs r') ->
  runs_ok used' segs L T w'.
Proof.
  intros [Hfr Hfrom Hids Hruns Hwi Hfst Hnone Hlead] Ho Hreps Hfiles Hused Hf0 Hid Hfd Hl.
  split; rewrite ?Hreps, ?Ho; try done.
  - intros q r [[_ <-]|[_ H]]%lookup_insert_Some; [done|by eapply Hfrom].
  - intros q r [[_ <-]|[_ H]]%lookup_insert_Some; [done|].
    destruct (Hids q r H) as (id & Hid' & Hcp). eauto.
  - intros q r Hnil [[_ <-]|[_ H]]%lookup_insert_Some; [auto|by eapply Hnone].
  - intros q r Hq [[<- <-]|[Hne H]]%lookup_insert_Some; [auto|by eapply Hlead].
Qed.

(** When a process gets the lock. *)
Lemma owner_after_cases L T w p l :
  world_ok base L T w -> w_owner w <> Some p ->
  owner_after w p l = if decide (w_owner w = None /\ calls_flock l = true) then Some p else w_owner w.
Proof.
  intros Hw Hp. unfold owner_after, flock_result, w_election. cbn [lock_owner].
  destruct (calls_flock l), (w_owner w) as [q|]; cbn [andb]; try done.
  rewrite decide_False by congruence. cbn. by rewrite decide_False by (by intros []).
Qed.

Lemma owner_run used segs L T w p :
  world_ok base L T w -> runs_ok used segs L T w -> w_owner w = Some p -> segs <> [].
Proof.
  intros Hw Hru Hp Hnil. destruct (proj2 (wo_election _ _ _ _ Hw) p Hp) as [l Hl].
  unfold w_election in Hl. cbn in Hl. rewrite lookup_fmap in Hl.
  apply fmap_Some in Hl as (r & Hr & _).
  destruct (ru_leader _ _ _ _ _ Hru p r Hp Hr) as (segs' & a & n & -> & _). by destruct segs'.
Qed.

Lemma runs_start used segs L T w p id fd w' :
  world_ok base L T w -> runs_ok used segs L T w -> id ∉ used ->
  start_replica base w p id fd = Some w' ->
  exists segs', runs_ok (id :: used) segs' L T w' /\
    length segs' = (length segs + if decide (w_owner w = None /\ w_owner w' <> None) then 1 else 0)%nat.
Proof.
  intros Hw Hru Hid Hs. unfold start_replica in Hs.
  destruct (w_replicas w !! p) eqn:Hp; [done|].
  assert (w_owner w <> Some p) as Hnp.
  { intros E. destruct (proj2 (wo_election _ _ _ _ Hw) p E) as [l Hl].
    unfold w_election in Hl. cbn in Hl. by rewrite lookup_fmap, Hp in Hl. }
  unfold new_LogBackedOrderQueue, fopen_append in Hs. cbn [log_path_] in Hs.
  case_decide as Hopen; [done|]. cbn in Hs. unfold new_TradeLog, fopen_append in Hs.
  case_decide as Hopen'; [done|]. cbn in Hs.
  unfold read_checkpoint in Hs. cbn [checkpoint_path_] in Hs.
  rewrite load_offset_set_ne in Hs by apply log_path_checkpoint.
  assert (load_offset (w_fs w) (checkpoint_path base id) = 0) as Hload.
  { unfold load_offset, fopen_read. case_decide; [done|]. by rewrite (ru_fresh _ _ _ _ _ Hru id Hid). }
  rewrite Hload in Hs. rewrite (owner_after_cases L T w p) in Hs by done.
  set (r' := mkReplica 0 _ _ _) in Hs. injection Hs as Hs.
  assert (forall id0, id0 ∉ id :: used -> files (w_fs w') !! checkpoint_path base id0 = None) as Hfiles.
  { intros id0 Hid0. rewrite <-Hs. cbn. rewrite !lookup_insert_ne;
      [|apply log_path_checkpoint|apply trades_path_consumer].
    apply (ru_fresh _ _ _ _ _ Hru). set_solver. }
  assert (exists id0, id0 ∈ id :: used /\ checkpoint_path_ (r_queue r') = checkpoint_path base id0) as Hids.
  { exists id. split; [set_solver|done]. }
  assert (used ⊆ id :: used) as Hsub by set_solver.
  assert (w_replicas w' = <[p := r']> (w_replicas w)) as Hreps by (by rewrite <-Hs).
  case_decide as He; [exists (segs ++ [(0%nat, 0%nat)])|exists segs].
  - assert (w_owner w' = Some p) as Howner by (by rewrite <-Hs). split; [apply (runs_elect used (id :: used) segs L T w w' p r' 0); try done; try lia|].
    rewrite Howner, length_app, decide_True by (split; [apply He|done]). done.
  - assert (w_owner w' = w_owner w) as Howner by (by rewrite <-Hs).
    split; [|rewrite Howner, decide_False by (by intros [-> ?]); lia].
    apply (runs_keep used (id :: used) segs L T w w' p r'); try done.
    intros Hnil. subst r'. cbn [r_vm]. rewrite vm_start_leader. unfold calls_flock in He. cbn in He.
    destruct (w_owner w) eqn:E; [by destruct (owner_run _ _ _ _ _ _ Hw Hru E)|].
    unfold try_acquire. cbn. destruct (Z.ltb_spec fd 0); [done|]. destruct He. by split.
Qed.

(** Submitting the order at the head of a replica's queue adds its trades. *)
Lemma submitted_trades L r o m b res :
  replica_ok base L r -> r_from r = 0 -> r_pc r = Handling o ->
  apply_order (vm_engines (r_vm r)) o = Ret (m, b, res) ->
  all_trades (take (S (r_done r)) L) = all_trades (take (r_done r) L) ++ result_trades res.
Proof.
  intros [_ _ _ _ (rs & He) _ _ Hpc] Hf Ho Ha. rewrite Ho in Hpc. destruct Hpc as [Hl _].
  rewrite Hf in He. change (Z.to_nat 0) with 0%nat in He. unfold span in He. rewrite drop_0, Nat.sub_0_r in He.
  rewrite (take_S_r _ _ o) by done. by eapply all_trades_snoc.
Qed.

Lemma try_acquire_fd l flock : fd_ (try_acquire l flock).1 = fd_ l.
Proof. unfold try_acquire. by destruct (held_ l), (fd_ l <? 0). Qed.

Lemma held_owner L T w p r :
  world_ok base L T w -> w_replicas w !! p = Some r -> held_ (vm_leader (r_vm r)) = true <-> w_owner w = Some p.
Proof.
  intros Hw Hp. apply (proj1 (wo_election _ _ _ _ Hw)). unfold w_election. cbn. by rewrite lookup_fmap, Hp.
Qed.

(** The leader submits: the trades of the order become pending. *)
Lemma leader_submits L segs r r' o m b res :
  replica_ok base L r -> r_from r = 0 -> r_pc r = Handling o ->
  apply_order (vm_engines (r_vm r)) o = Ret (m, b, res) ->
  leads_run L segs r -> r_done r' = S (r_done r) -> pending r' = result_trades res -> leads_run L segs r'.
Proof.
  intros Hok Hfrom Hpc Hap (segs' & a & n & -> & Hle & Hdrop) Hd Hpend.
  exists segs', a, n. rewrite Hd, (submitted_trades L r o m b res) by done.
  unfold pending in Hdrop. rewrite Hpc in Hdrop. rewrite length_app. split_and!; [done|lia|].
  by rewrite drop_app_le, Hdrop, Hpend by done.
Qed.

(** A standby that finds the lock free is active from this order on. *)
Lemma promoted_active w p vm :
  vm_active vm = false -> held_ (vm_leader vm) = false -> w_owner w = None -> calls_flock (vm_leader vm) = true ->
  vm_active (vm_poll_leader vm (flock_result (w_election w) p)).1 = true.
Proof.
  intros Ha Hh Ho Hc. unfold vm_poll_leader, try_acquire, flock_result, w_election, calls_flock in *.
  cbn [lock_owner]. rewrite Ha, Ho, Hh in *. by destruct (fd_ (vm_leader vm) <? 0).
Qed.

Lemma runs_submit used segs L T w p w' :
  world_ok base L T w -> runs_ok used segs L T w -> submit_replica num_shards w p = Some w' ->
  exists segs', runs_ok used segs' L T w' /\
    length segs' = (length segs + if decide (w_owner w = None /\ w_owner w' <> None) then 1 else 0)%nat.
Proof.
  intros Hw Hru (r & o & m & b & res & Hp & Hpc & Hap & ->)%submit_replica_inv. cbn [w_owner].
  pose proof (wo_replicas _ _ _ _ Hw _ _ Hp) as Hok. pose proof (ru_from _ _ _ _ _ Hru _ _ Hp) as Hfrom.
  pose proof (ro_active _ _ _ Hok) as Hact. pose proof (held_owner _ _ _ _ _ Hw Hp) as Hheld.
  pose proof (ru_ids _ _ _ _ _ Hru _ _ Hp) as Hids. pose proof (ru_fresh _ _ _ _ _ Hru) as Hfresh.
  pose proof (submitted_trades L r o m b res Hok Hfrom Hpc Hap) as Hall.
  pose proof (all_trades_take L (r_done r) (wo_orders _ _ _ _ Hw) (r_done_offset _ _ _ Hok)) as Hpre%prefix_length.
  destruct (vm_poll_leader_spec (r_vm r) (flock_result (w_election w) p) Hact) as (_ & Hva & Hvl).
  set (vm1 := (vm_poll_leader _ _).1) in *. set (r' := mkReplica _ _ _ _).
  assert (r_done r' = S (r_done r)) as Hd'.
  { pose proof (ro_pc _ _ _ Hok) as Hlook. rewrite Hpc in Hlook. unfold r_done. rewrite Hpc. cbn. lia. }
  assert (segs = [] -> fd_ (vm_leader (r_vm r')) < 0) as Hfd.
  { intros Hnil. cbn. rewrite Hvl, try_acquire_fd. by apply (ru_none _ _ _ _ _ Hru p r). }
  destruct (vm_active (r_vm r)) eqn:Eact.
  - exists segs. split; [|rewrite decide_False by (by intros [-> ?]); lia].
    apply (runs_keep used used segs L T w _ p r'); try done. intros Hown.
    apply (leader_submits L segs r r' o m b res); try done; [by apply (ru_leader _ _ _ _ _ Hru p)|].
    assert (vm_active vm1 = true) as E1 by (subst vm1; unfold vm_poll_leader; rewrite Eact; exact Eact).
    unfold pending, r'. cbn [r_pc]. by rewrite E1.
  - assert (w_owner w <> Some p) as Hnp by (rewrite <-Hheld, <-Hact; done).
    rewrite (owner_after_cases L T w p) by done. case_decide as He.
    + exists (segs ++ [(length (all_trades (take (r_done r) L)), 0%nat)]).
      split; [|rewrite length_app, decide_True by (split; [apply He|done]); done].
      apply (runs_elect used used segs L T w _ p r'); try done.
      * intros Hnil. specialize (Hfd Hnil). cbn in Hfd. rewrite Hvl, try_acquire_fd in Hfd. destruct He as [_ He].
        unfold calls_flock in He. destruct (Z.ltb_spec (fd_ (vm_leader (r_vm r))) 0); [|lia].
        by rewrite andb_false_r in He.
      * rewrite Hd', Hall, length_app. lia.
      * rewrite Hd', Hall, drop_app_length. cbn. subst vm1. rewrite promoted_active; (done || apply He).
    + exists segs. split; [|rewrite decide_False by (by intros [-> ?]); lia].
      by apply (runs_keep used used segs L T w _ p r').
Qed.

(** A subscriber's turn leaves replicas and their checkpoints alone. *)
Lemma next_client_files L T w j w' :
  world_ok base L T w -> log_range (length T) -> next_client w j = Some w' ->
  w_owner w' = w_owner w /\ w_replicas w' = w_replicas w /\
  forall id, files (w_fs w') !! checkpoint_path base id = files (w_fs w) !! checkpoint_path base id.
Proof.
  intros [Hd _ _ _ Hc] Hr Hs. unfold next_client in Hs. apply bind_Some in Hs as (c & Hj & Hs).
  destruct (Hc _ _ Hj) as (k & Hsub & Hf & Hk & _).
  rewrite Hsub, (try_next_whole base (c_id c) T) in Hs.
  - destruct (T !! Z.to_nat k); [case_decide; [done|]|]; cbn in Hs; injection Hs as <-; split_and!; try done.
    intros id. cbn. rewrite lookup_insert_ne; [done|]. apply sub_checkpoint_consumer.
  - apply (dk_trades _ _ _ _ Hd).
  - split; [apply (dk_wt _ _ _ _ Hd)|]. unfold log_range, sizeof_Order in Hr. unfold sizeof_Trade. lia.
  - lia.
Qed.

(** One step. *)
Lemma runs_step used segs L T w a w' :
  world_ok base L T w -> runs_ok used segs L T w -> action_ok a ->
  log_range (length L) -> log_range (length T) -> (forall id, id ∈ started_ids [a] -> id ∉ used) ->
  shard_step base num_shards w a = Some w' ->
  exists segs', runs_ok (started_ids [a] ++ used) segs' (L ++ pushed_orders [a]) (T ++ published_by w a) w' /\
    length segs' = (length segs + if decide (w_owner w = None /\ w_owner w' <> None) then 1 else 0)%nat.
Proof.
  intros Hw Hru Ha Hr HrT Hfresh Hs.
  assert (forall w1, runs_ok used segs L T w1 -> (w_owner w1 = w_owner w \/ w_owner w1 = None) ->
    exists segs', runs_ok used segs' (L ++ []) (T ++ []) w1 /\
      length segs' = (length segs + if decide (w_owner w = None /\ w_owner w1 <> None) then 1 else 0)%nat) as Hkeep.
  { intros w1 Hw1 Ho. exists segs. rewrite !app_nil_r, decide_False by (intros [? ?]; destruct Ho; congruence).
    split; [done|lia]. }
  destruct a as [pad o|p id fd|p|p|p|p|p|j id|j|j|p i|j i| |refused]; cbn [shard_step] in Hs;
    unfold pushed_orders, started_ids in *; cbn [omap list_omap app] in *; cbn [published_by].
  - injection Hs as <-. destruct Ha as [_ Ho]. exists segs. rewrite app_nil_r. cbn [w_owner].
    rewrite decide_False by (intros [? ?]; congruence). split; [|lia].
    apply (runs_push used segs L T w); try done. intros id. cbn. rewrite lookup_insert_ne; [done|].
    apply log_path_checkpoint.
  - rewrite !app_nil_r. apply (runs_start used segs L T w p id fd); [done|done|apply Hfresh; set_solver|done].
  - apply Hkeep; [by eapply runs_poll|]. unfold poll_replica in Hs. apply bind_Some in Hs as (r & _ & Hs).
    destruct (r_pc r); [|done..]. apply bind_Some in Hs as ([[fs q] res] & _ & Hs).
    destruct res; injection Hs as <-; cbn; [by left| |by left]. case_decide; auto.
  - rewrite !app_nil_r. by apply (runs_submit used segs L T w p).
  - unfold publish_replica in Hs. apply bind_Some in Hs as (r & Hp & Hs). rewrite Hp. cbn [fmap option_fmap option_map].
    destruct (r_pc r) as [| |[|t ts]] eqn:Hpc; [done|done|..]; injection Hs as <-.
    + apply Hkeep; [|by left]. apply (runs_set_replica used segs L T w _ p r); try done;
        [unfold r_done|unfold pending]; by rewrite Hpc.
    + destruct (runs_publish used segs L T w p t ts r Hw Hru Hp Hpc) as (segs' & Hlen & Hru').
      exists segs'. rewrite app_nil_r. cbn [w_owner set_replica]. rewrite decide_False by (intros [? ?]; congruence).
      split; [done|lia].
  - apply bind_Some in Hs as (r & Hp & [= <-]). apply Hkeep; [|by left].
    by apply (runs_set_replica used segs L T w _ p r).
  - injection Hs as <-. apply Hkeep; [by apply runs_exit|]. cbn. case_decide; auto.
  - unfold attach_client in Hs. destruct (w_clients w !! j); [done|].
    apply bind_Some in Hs as ([fs s] & Hnew & [= <-]). apply Hkeep; [|by left].
    apply (runs_update used segs L T w); [done|by left| |eauto 10]. intros id0 _. cbn.
    unfold new_Subscriber, fopen_append in Hnew. case_decide; [done|]. cbn in Hnew. injection Hnew as <- _.
    cbn. rewrite lookup_insert_ne; [done|]. apply trades_path_consumer.
  - pose proof (next_client_files L T w j w' Hw HrT Hs) as (Ho & Hreps & Hfiles).
    apply Hkeep; [|by left]. apply (runs_update used segs L T w); [done|by left|auto|].
    intros p r. rewrite Hreps. eauto 10.
  - injection Hs as <-. apply Hkeep; [|by left]. apply (runs_update used segs L T w); [done|by left|done|eauto 10].
  - apply bind_Some in Hs as (r & Hp & Hs). destruct (r_pc r); [|done..]. apply bind_Some in Hs as (fs & Hi & [= <-]).
    apply Hkeep; [|cbn; case_decide; auto]. apply runs_exit, runs_disk; [done|]. intros id Hid.
    eapply poll_disk_frame; [done|]. destruct (ru_ids _ _ _ _ _ Hru _ _ Hp) as (id' & Hid' & ->).
    intros E%checkpoint_path_inj. congruence.
  - apply bind_Some in Hs as (c & Hj & Hs). apply bind_Some in Hs as (fs & Hi & [= <-]).
    apply Hkeep; [|by left]. apply (runs_disk used segs L T w); [done|]. intros id _. eapply next_disk_frame; [done|].
    destruct (wo_clients _ _ _ _ Hw _ _ Hj) as (k & -> & _). apply consumer_sub.
  - unfold new_LogBackedOrderQueue, fopen_append in Hs. case_decide; [done|]. injection Hs as <-.
    apply Hkeep; [|by left]. apply (runs_disk used segs L T w); [done|]. intros id _. cbn.
    rewrite lookup_insert_ne; [done|]. apply log_path_checkpoint.
  - injection Hs as <-. apply Hkeep; [|by left]. by apply (runs_disk used segs L T w).
Qed.

Lemma started_ids_cons a acts : started_ids (a :: acts) = started_ids [a] ++ started_ids acts.
Proof. unfold started_ids. cbn. by destruct a. Qed.

Lemma runs_run used segs L T w acts w' :
  world_ok base L T w -> runs_ok used segs L T w -> Forall action_ok acts ->
  log_range (length L + length T + length acts) -> NoDup (started_ids acts) ->
  (forall id, id ∈ started_ids acts -> id ∉ used) ->
  shard_run base num_shards w acts = Some w' ->
  exists used' segs' T', world_ok base (L ++ pushed_orders acts) (T ++ T') w' /\
    runs_ok used' segs' (L ++ pushed_orders acts) (T ++ T') w' /\
    length segs' = (length segs + elections w acts)%nat.
Proof.
  intros Hw Hru Hacts. revert used segs L T w Hw Hru.
  induction Hacts as [|a acts Ha _ IH]; intros used segs L T w Hw Hru Hr Hnd Hfresh Hs; cbn in Hs.
  { injection Hs as <-. exists used, segs, []. unfold pushed_orders. cbn. rewrite !app_nil_r. by rewrite Nat.add_0_r. }
  apply bind_Some in Hs as (w1 & Hs1 & Hs). rewrite started_ids_cons in Hnd, Hfresh.
  apply NoDup_app in Hnd as (_ & Hdisj & Hnd).
  assert (forall n, (n <= length L + length T + length (a :: acts))%nat -> log_range n) as Hdown
    by (intros n Hle; by eapply log_range_down).
  assert (log_range (length L) /\ log_range (length T)) as [HL HT] by (split; apply Hdown; lia).
  pose proof (shard_step_ok base num_shards L T w a w1 Hw Ha HL HT Hs1) as Hw1.
  destruct (runs_step used segs L T w a w1) as (segs1 & Hru1 & Hlen1); try done; [set_solver|].
  pose proof (published_by_length w a) as Hlen.
  destruct (IH _ _ _ _ _ Hw1 Hru1) as (used2 & segs2 & T2 & Hw2 & Hru2 & Hlen2); try done.
  - apply Hdown. rewrite !length_app. cbn [length]. lia.
  - set_solver.
  - exists used2, segs2, (published_by w a ++ T2). rewrite pushed_orders_cons, !app_assoc.
    rewrite <-!app_assoc in *. split_and!; [done|done|]. cbn [elections]. rewrite Hs1. lia.
Qed.

Lemma runs_ok_empty : runs_ok [] [] [] [] empty_world.
Proof. by split. Qed.
End runs.

(** ** The steps make up the loop body

    A replica that is not interrupted takes an order through the same changes as
    [vm_handle], the loop body of [EngineVM.v] in one piece. *)

Lemma publish_steps base n w p r ts :
  w_replicas w !! p = Some r -> r_pc r = Publishing ts ->
  shard_run base n w (replicate (S (length ts)) (PublishNext p)) =
    Some (set_replica w (foldl (fun fs t => publish fs (trades_path base) t) (w_fs w) ts) p
            (mkReplica (r_from r) (r_queue r) (r_vm r) InPop)).
Proof.
  revert w r. induction ts as [|t ts IH]; intros w r Hp Hpc.
  { cbn. unfold publish_replica. rewrite Hp. cbn. by rewrite Hpc. }
  change (replicate _ _) with (PublishNext p :: replicate (S (length ts)) (PublishNext p)).
  cbn [shard_run shard_step]. unfold publish_replica at 1.
  rewrite Hp. cbn [mbind option_bind]. rewrite Hpc. cbn [mbind option_bind].
  rewrite (IH _ (mkReplica (r_from r) (r_queue r) (r_vm r) (Publishing ts))) by (done || by cbn; rewrite lookup_insert_eq).
  unfold set_replica. cbn. by rewrite insert_insert_eq.
Qed.

Lemma handling_steps base shard_id n w p r o fs' vm' ls :
  w_replicas w !! p = Some r -> r_pc r = Handling o ->
  vm_handle shard_id n (w_fs w) (trades_path base) (r_vm r) (flock_result (w_election w) p) o = Ret (fs', vm', ls) ->
  exists k w', shard_run base n w (SubmitPopped p :: replicate k (PublishNext p)) = Some w' /\
    w_fs w' = fs' /\ w_replicas w' = <[p := mkReplica (r_from r) (r_queue r) vm' InPop]> (w_replicas w).
Proof.
  intros Hp Hpc Hh. unfold vm_handle in Hh.
  destruct (vm_poll_leader (r_vm r) (flock_result (w_election w) p)) as [vm1 pr] eqn:Hvm.
  apply bind_Ret in Hh as (sh & Hsh & Hh). apply bind_Ret in Hh as ([[m b] res] & Ha & Hh).
  set (ts := if vm_active vm1 then result_trades res else []).
  set (r1 := mkReplica (r_from r) (r_queue r) (mkVM (vm_leader vm1) (vm_active vm1) m) (Publishing ts)).
  exists (S (length ts)). cbn [shard_run shard_step]. unfold submit_replica. rewrite Hp. cbn [mbind option_bind].
  rewrite Hpc, Hvm, Hsh. cbn [of_outcome mbind option_bind fst]. rewrite Ha. cbn [of_outcome mbind option_bind].
  fold ts. fold r1.
  match goal with |- context [shard_run base n ?w1 _] => rewrite (publish_steps base n w1 p r1 ts) end;
    [|cbn; by rewrite lookup_insert_eq|done].
  eexists. split; [done|]. unfold set_replica. cbn. rewrite insert_insert_eq. subst ts.
  by destruct (vm_active vm1) eqn:E; cbn in Hh; injection Hh as <- <- _; rewrite ?E.
Qed.

(** ** Restarts *)

Section restarts.
Context (base : string) (num_shards : Z).

Lemma shard_run_app w acts acts' w1 :
  shard_run base num_shards w acts = Some w1 ->
  shard_run base num_shards w (acts ++ acts') = shard_run base num_shards w1 acts'.
Proof.
  revert w. induction acts as [|a acts IH]; intros w Hs; cbn in *; [by injection Hs as ->|].
  apply bind_Some in Hs as (w2 & -> & Hs). cbn. by apply IH.
Qed.

(** A process that was not started by the step was there, opened at the same offset. *)
Lemma shard_step_from w a w' p r' :
  shard_step base num_shards w a = Some w' -> (forall id fd, a <> StartReplica p id fd) ->
  w_replicas w' !! p = Some r' -> exists r, w_replicas w !! p = Some r /\ r_from r' = r_from r.
Proof.
  assert (forall q r r0, <[q := r]> (w_replicas w) !! p = Some r' -> w_replicas w !! q = Some r0 ->
    r_from r = r_from r0 ->
    exists r1, w_replicas w !! p = Some r1 /\ r_from r' = r_from r1) as Hset.
  { intros q r r0 [[-> <-]|[_ H]]%lookup_insert_Some Hq Hf; eauto. }
  assert (forall q, delete q (w_replicas w) !! p = Some r' ->
    exists r1, w_replicas w !! p = Some r1 /\ r_from r' = r_from r1) as Hdel.
  { intros q [_ H]%lookup_delete_Some. eauto. }
  intros Hs Hno Hp. destruct a as [pad o|q id fd|q|q|q|q|q|j id|j|j|q i|j i| |refused]; cbn [shard_step] in Hs.
  - injection Hs as <-. eauto.
  - unfold start_replica in Hs. destruct (w_replicas w !! q) eqn:Hq; [done|].
    apply bind_Some in Hs as ([fs1 qu] & _ & Hs). apply bind_Some in Hs as ([fs2 t] & _ & [= <-]).
    cbn in Hp. apply lookup_insert_Some in Hp as [[-> _]|[_ Hp]]; [by destruct (Hno id fd)|eauto].
  - unfold poll_replica in Hs. apply bind_Some in Hs as (r & Hq & Hs). destruct (r_pc r); [|done..].
    apply bind_Some in Hs as ([[fs qu] res] & _ & Hs).
    destruct res; injection Hs as <-; [exact (Hset q _ r Hp Hq eq_refl)|exact (Hdel q Hp)|exact (Hset q _ r Hp Hq eq_refl)].
  - apply submit_replica_inv in Hs as (r & o & m & b & res & Hq & _ & _ & ->). exact (Hset q _ r Hp Hq eq_refl).
  - unfold publish_replica in Hs. apply bind_Some in Hs as (r & Hq & Hs).
    destruct (r_pc r) as [| |[|t ts]]; try done; injection Hs as <-; exact (Hset q _ r Hp Hq eq_refl).
  - apply bind_Some in Hs as (r & Hq & [= <-]). exact (Hset q _ r Hp Hq eq_refl).
  - injection Hs as <-. exact (Hdel q Hp).
  - unfold attach_client in Hs. destruct (w_clients w !! j); [done|].
    apply bind_Some in Hs as ([fs s] & _ & [= <-]). eauto.
  - unfold next_client in Hs. apply bind_Some in Hs as (c & _ & Hs).
    apply bind_Some in Hs as ([[fs s] t] & _ & [= <-]). eauto.
  - injection Hs as <-. eauto.
  - unfold kill_in_pop in Hs. apply bind_Some in Hs as (r & Hq & Hs). destruct (r_pc r); [|done..].
    apply bind_Some in Hs as (fs & _ & [= <-]). exact (Hdel q Hp).
  - unfold kill_in_next in Hs. apply bind_Some in Hs as (c & _ & Hs). apply bind_Some in Hs as (fs & _ & [= <-]). eauto.
  - apply bind_Some in Hs as ([fs qu] & _ & [= <-]). eauto.
  - injection Hs as <-. eauto.
Qed.

Lemma shard_run_from w acts w' p r' :
  shard_run base num_shards w acts = Some w' -> (forall id fd, StartReplica p id fd ∉ acts) ->
  w_replicas w' !! p = Some r' -> exists r, w_replicas w !! p = Some r /\ r_from r' = r_from r.
Proof.
  revert w. induction acts as [|a acts IH]; intros w Hs Hno Hp; cbn in Hs; [injection Hs as <-; eauto|].
  apply bind_Some in Hs as (w1 & Hs1 & Hs).
  destruct (IH w1 Hs) as (r1 & Hp1 & ->); [set_solver|done|].
  eapply shard_step_from; [done| |done]. intros id fd ->. apply (Hno id fd). set_solver.
Qed.

(** A killed process that is started again reads the checkpoint of its id. *)
Lemma restarted_from w w' p id fd acts r :
  shard_run base num_shards w ([Kill p; StartReplica p id fd] ++ acts) = Some w' ->
  (forall id' fd', StartReplica p id' fd' ∉ acts) -> w_replicas w' !! p = Some r ->
  r_from r = load_offset (w_fs w) (checkpoint_path base id).
Proof.
  intros Hs Hno Hp. cbn [app shard_run shard_step mbind option_bind] in Hs.
  apply bind_Some in Hs as (w1 & Hs1 & Hs). destruct (shard_run_from _ _ _ _ _ Hs Hno Hp) as (r1 & Hp1 & ->).
  unfold start_replica in Hs1. destruct (w_replicas (exit_replica w p) !! p); [done|].
  unfold new_LogBackedOrderQueue, fopen_append in Hs1. cbn [log_path_] in Hs1. case_decide as Hopen; [done|]. cbn in Hs1.
  apply bind_Some in Hs1 as ([fs2 t] & _ & [= <-]). cbn in Hp1. rewrite lookup_insert_eq in Hp1. injection Hp1 as <-.
  cbn [r_from]. unfold read_checkpoint. cbn [checkpoint_path_]. apply load_offset_set_ne, log_path_checkpoint.
Qed.

(** The sessions behind the engines of a replica. *)
Lemma replica_sessions L T w p r sym :
  world_ok base L T w -> w_replicas w !! p = Some r ->
  exists rs, serve_all (new_MatchingEngine default_band)
    (Submit <$> of_symbol sym (span (Z.to_nat (r_from r)) (r_done r) L)) =
    Ret (engine_for (vm_engines (r_vm r)) sym, rs).
Proof.
  intros Hw Hp. destruct (wo_replicas _ _ _ _ Hw _ _ Hp) as [_ _ _ _ (rs & He) _ _ _].
  destruct (apply_all_symbol ∅ (span (Z.to_nat (r_from r)) (r_done r) L) engines_ok_empty)
    as (m & rs' & He' & _ & _ & Hsym).
  { apply Forall_take, Forall_drop, order_ok_admissible, (wo_orders _ _ _ _ Hw). }
  rewrite He in He'. injection He' as <- _. eexists. exact (Hsym sym).
Qed.

Lemma submit_ids_fmap os : submit_ids (Submit <$> os) = order_id <$> os.
Proof. unfold submit_ids. induction os as [|o os IH]; [done|]. cbn. by rewrite IH. Qed.
End restarts.

(** ** Properties *)

Section properties.
Context (base : string) (num_shards : Z).

(** C9: the replicas of a shard follow its log.  However gateways, replicas,
    subscribers, kills (inside a checkpoint write too) and restarts interleave, at every moment the engine of each
    symbol in each live replica is the engine a dedicated session over the log's
    orders for that symbol would have produced, taken from the offset at which the
    replica was started up to the order it has reached; and at most one replica
    is active. *)
Theorem replicas_follow_log (acts : list action) (w : world) :
  Forall action_ok acts -> log_range (length acts) ->
  shard_run base num_shards empty_world acts = Some w ->
  (forall p r, w_replicas w !! p = Some r ->
     0 <= r_from r <= Z.of_nat (r_done r) /\ (r_done r <= length (pushed_orders acts))%nat /\
     forall sym, exists rs,
       serve_all (new_MatchingEngine default_band)
         (Submit <$> of_symbol sym (span (Z.to_nat (r_from r)) (r_done r) (pushed_orders acts))) =
       Ret (engine_for (vm_engines (r_vm r)) sym, rs)) /\
  (forall p q rp rq, w_replicas w !! p = Some rp -> w_replicas w !! q = Some rq ->
     vm_active (r_vm rp) = true -> vm_active (r_vm rq) = true -> p = q).
Proof.
  intros Ha Hr Hs.
  destruct (shard_run_ok base num_shards [] [] empty_world acts w (world_ok_empty base) Ha Hr Hs) as (T & Hw).
  cbn [app] in Hw. split.
  - intros p r Hp. pose proof (wo_replicas _ _ _ _ Hw _ _ Hp) as Hok.
    pose proof (r_done_offset _ _ _ Hok). destruct Hok as [_ _ Hf _ _ _ _ _].
    split_and!; [lia..|done|]. intros sym. by eapply replica_sessions.
  - intros p q rp rq Hp Hq. rewrite (ro_active _ _ _ (wo_replicas _ _ _ _ Hw _ _ Hp)),
      (ro_active _ _ _ (wo_replicas _ _ _ _ Hw _ _ Hq)).
    rewrite (held_owner _ _ _ _ _ _ Hw Hp), (held_owner _ _ _ _ _ _ Hw Hq). congruence.
Qed.

(** C10: the trade log under failovers.  When no replica id is reused, the trade
    log is, at every moment, one contiguous run of the trades of the whole order
    log per election of a leader, the first run starting at the first trade; and
    the run of the current leader ends at the last order it has submitted, but
    for the trades it is still publishing.  With a single election the trade log
    is therefore a prefix of the trades; with more, runs may overlap or leave
    gaps, and nothing else is ever published. *)
Theorem trade_log_runs (acts : list action) (w : world) :
  Forall action_ok acts -> log_range (length acts) -> NoDup (started_ids acts) ->
  shard_run base num_shards empty_world acts = Some w ->
  let L := pushed_orders acts in
  exists runs,
    length runs = elections base num_shards empty_world acts /\
    match runs with [] => True | (a, _) :: _ => a = 0%nat end /\
    Forall (run_within (all_trades L)) runs /\
    contents (w_fs w) (trades_path base) =
      concat (encode_trade <$> concat (run_of (all_trades L) <$> runs)) /\
    (forall p r, w_owner w = Some p -> w_replicas w !! p = Some r ->
       exists a n, last runs = Some (a, n) /\
         take (a + n) (all_trades (take (r_done r) L)) ++ pending r = all_trades (take (r_done r) L)).
Proof.
  intros Ha Hr Hnd Hs L.
  destruct (runs_run base num_shards [] [] [] [] empty_world acts w (world_ok_empty base) (runs_ok_empty base)
              Ha Hr Hnd) as (used & runs & T & Hw & Hru & Hlen); [set_solver|done|].
  cbn [app] in Hw, Hru. exists runs. split_and!; [done|apply Hru|apply Hru| |].
  - rewrite (dk_trades _ _ _ _ (wo_disk _ _ _ _ Hw)). by rewrite (ru_runs _ _ _ _ _ _ Hru).
  - intros p r Ho Hp. destruct (ru_leader _ _ _ _ _ _ Hru p r Ho Hp) as (runs' & a & n & -> & _ & Hd).
    exists a, n. rewrite last_snoc. split; [done|]. fold L in Hd. rewrite <-Hd. apply take_drop.
Qed.

(** C11: what subscribers receive.  At every moment each attached subscriber has
    received exactly the trades of the trade log from the position at which it
    attached up to its offset, each once and in order; and its offset never passes
    the end of the log. *)
Theorem subscribers_follow_trades (acts : list action) (w : world) :
  Forall action_ok acts -> log_range (length acts) ->
  shard_run base num_shards empty_world acts = Some w ->
  exists T, contents (w_fs w) (trades_path base) = concat (encode_trade <$> T) /\
    forall j c, w_clients w !! j = Some c ->
      0 <= c_from c <= offset_ (c_sub c) /\ offset_ (c_sub c) <= Z.of_nat (length T) /\
      c_seen c = span (Z.to_nat (c_from c)) (Z.to_nat (offset_ (c_sub c))) T.
Proof.
  intros Ha Hr Hs.
  destruct (shard_run_ok base num_shards [] [] empty_world acts w (world_ok_empty base) Ha Hr Hs) as (T & Hw).
  cbn [app] in Hw. exists T. split; [apply (dk_trades _ _ _ _ (wo_disk _ _ _ _ Hw))|].
  intros j c Hj. destruct (wo_clients _ _ _ _ Hw j c Hj) as (k & -> & Hf & Hk & Hsee). exact (conj Hf (conj Hk Hsee)).
Qed.

(** C24: what can stop a process of the shard.  In every state reached with at least
    one shard and well-typed orders, NaN limits excluded, while the files that can be
    opened change in any way: nothing is undefined and nothing runs out of steps.  A
    replica that has popped an order can submit it, and one that has trades to publish
    can publish them, always.  One in [pop] can take a turn, unless there is a record
    for it and its checkpoint file is refused, and then [pop] throws; the same holds of
    a subscriber.  A new replica starts unless one of the two logs is refused, and then
    the constructor that opens it throws; a new subscriber unless the trade log is. *)
Theorem shard_never_stuck (acts : list action) (w : world) :
  0 < num_shards < 2 ^ 32 -> Forall action_ok acts -> log_range (length acts) ->
  shard_run base num_shards empty_world acts = Some w ->
  let refused path := path ∈ denied (w_fs w) in
  exists T, contents (w_fs w) (trades_path base) = concat (encode_trade <$> T) /\
  (forall p r, w_replicas w !! p = Some r ->
     match r_pc r with
     | InPop =>
       if decide (consumer_offset_ (r_queue r) < Z.of_nat (length (pushed_orders acts)) /\
                  refused (checkpoint_path_ (r_queue r)))
       then log_poll (w_fs w) (r_queue r) = Throw "LogBackedOrderQueue: cannot write"
       else is_Some (shard_step base num_shards w (PollLog p))
     | Handling _ => is_Some (shard_step base num_shards w (SubmitPopped p))
     | Publishing _ => is_Some (shard_step base num_shards w (PublishNext p))
     end) /\
  (forall j c, w_clients w !! j = Some c ->
     if decide (offset_ (c_sub c) < Z.of_nat (length T) /\ refused (sub_checkpoint_path_ (c_sub c)))
     then try_next (w_fs w) (c_sub c) = Throw "TradeLog::Subscriber: cannot write"
     else is_Some (shard_step base num_shards w (NextTrade j))) /\
  (forall p id fd, w_replicas w !! p = None ->
     if decide (refused (log_path base))
     then new_LogBackedOrderQueue (w_fs w) base id = Throw "LogBackedOrderQueue: cannot open"
     else exists fs q, new_LogBackedOrderQueue (w_fs w) base id = Ret (fs, q) /\
       if decide (refused (trades_path base)) then new_TradeLog fs base = Throw "TradeLog: cannot open"
       else is_Some (shard_step base num_shards w (StartReplica p id fd))) /\
  (forall j id, w_clients w !! j = None ->
     if decide (refused (trades_path base))
     then new_Subscriber (w_fs w) base id = Throw "TradeLog::Subscriber: cannot open"
     else is_Some (shard_step base num_shards w (Attach j id))).
Proof.
  intros Hn Ha Hr Hs refused.
  destruct (shard_run_sizes base num_shards acts w Ha Hr Hs) as (T & Hw & HL & HT).
  exists T. split; [apply (dk_trades _ _ _ _ (wo_disk _ _ _ _ Hw))|]. split_and!.
  - intros p r Hp. destruct (r_pc r) eqn:Hpc; cbn [shard_step].
    + by apply (poll_progress base (pushed_orders acts) T w p r).
    + by apply (submit_progress base num_shards (pushed_orders acts) T w p r o).
    + unfold publish_replica. rewrite Hp. cbn. rewrite Hpc. by destruct ts.
  - intros j c Hj. by apply (next_progress base (pushed_orders acts) T w j c).
  - intros p id fd Hp. by apply start_progress.
  - intros j id Hj. by apply attach_progress.
Qed.

(** C31: a restarted replica has forgotten its book.  Whatever ran before, a replica
    killed and started again, under any id, takes the offset [k] that the checkpoint
    file of that id holds and no engines.  As long as that process lives, whatever
    happens around it, the engine of each symbol is the one of a session over the
    log's orders from [k] on alone, and every order that rests in one of its books has
    the id of such an order: the orders before [k] are gone from its books, whatever
    was left of them. *)
Theorem restart_forgets_book (acts acts' : list action) (w w' : world) (p : nat) (id : string) (fd : Z)
    (r : replica) :
  let restart := [Kill p; StartReplica p id fd] in
  Forall action_ok (acts ++ restart ++ acts') -> log_range (length (acts ++ restart ++ acts')) ->
  shard_run base num_shards empty_world acts = Some w ->
  shard_run base num_shards w (restart ++ acts') = Some w' ->
  (forall id' fd', StartReplica p id' fd' ∉ acts') -> w_replicas w' !! p = Some r ->
  let L := pushed_orders (acts ++ restart ++ acts') in
  let k := load_offset (w_fs w) (checkpoint_path base id) in
  0 <= k <= Z.of_nat (length (pushed_orders acts)) /\ r_from r = k /\
  forall sym,
    (exists rs, serve_all (new_MatchingEngine default_band)
       (Submit <$> of_symbol sym (span (Z.to_nat k) (r_done r) L)) =
       Ret (engine_for (vm_engines (r_vm r)) sym, rs)) /\
    forall oid, oid ∈ live_ids (book_ (engine_for (vm_engines (r_vm r)) sym)) ->
      oid ∈ order_id <$> drop (Z.to_nat k) L.
Proof.
  intros restart Ha Hr Hs Hs' Hno Hp L k.
  pose proof (shard_run_app base num_shards empty_world acts (restart ++ acts') w Hs) as Hall. rewrite Hs' in Hall.
  destruct (shard_run_sizes base num_shards _ _ Ha Hr Hall) as (T & Hw & _).
  pose proof Ha as [Ha0 _]%Forall_app. rewrite length_app in Hr.
  destruct (shard_run_sizes base num_shards acts w Ha0) as (T0 & Hw0 & _); [by eapply log_range_down; [|apply Hr]; lia|done|].
  split; [apply offset_within_now, (dk_saved _ _ _ _ (wo_disk _ _ _ _ Hw0))|].
  assert (r_from r = k) as Hfrom by (by eapply (restarted_from base num_shards w w' p id fd acts')). split; [done|].
  intros sym. pose proof (replica_sessions _ _ _ _ _ _ sym Hw Hp) as (rs & Hrs). rewrite Hfrom in Hrs.
  split; [by exists rs|]. intros oid Hid.
  assert (Forall request_ok (Submit <$> of_symbol sym (span (Z.to_nat k) (r_done r) L))) as Hadm.
  { apply Forall_fmap, Forall_forall. intros o [_ Ho]%list_elem_of_filter. revert o Ho. apply Forall_forall.
    apply Forall_take, Forall_drop, order_ok_admissible, (wo_orders _ _ _ _ Hw). }
  destruct (serve_all_live_ids _ _ _ _ oid (new_engine_ok default_band) Hadm Hrs Hid) as [[]%elem_of_nil|Hin].
  rewrite submit_ids_fmap in Hin. apply list_elem_of_fmap in Hin as (o & -> & Ho). apply list_elem_of_fmap_2.
  unfold of_symbol in Ho. apply list_elem_of_filter in Ho as [_ Ho]. unfold span in Ho.
  by apply elem_of_take in Ho as (i & Hi & _); eapply list_elem_of_lookup_2.
Qed.
End properties.

(** A seller and a buyer of one symbol. *)
Definition sell_10 : Order := mkOrder 1 1 SELL LIMIT (replicate kSymbolLen NUL) (d_of_Z 100) 10 10 0.
Definition buy_4 : Order := mkOrder 2 1 BUY LIMIT (replicate kSymbolLen NUL) (d_of_Z 100) 4 4 0.
Definition buy_6 : Order := mkOrder 3 1 BUY LIMIT (replicate kSymbolLen NUL) (d_of_Z 100) 6 6 0.
Definition gateway (o : Order) : action := GatewayPush (replicate 6 NUL) o.

(** A leader and a standby; the leader is killed after the first trade, and the
    standby, which had read everything but the last order, takes over. *)
Definition failover_acts : list action :=
  [StartReplica 0 "primary" 5; StartReplica 1 "standby" 6; Attach 0 "risk";
   gateway sell_10; gateway buy_4; PollLog 0; SubmitPopped 0; PublishNext 0; PollLog 1; SubmitPopped 1; PublishNext 1;
   PollLog 0; SubmitPopped 0; PublishNext 0; NextTrade 0; PollLog 1; SubmitPopped 1; PublishNext 1;
   Kill 0; gateway buy_6; PollLog 1; SubmitPopped 1; PublishNext 1; NextTrade 0].

Definition after_acts (acts : list action) : world :=
  match shard_run "s0" 4 empty_world acts with Some w => w | None => empty_world end.

Lemma replicas_follow_log_witness :
  shard_run "s0" 4 empty_world failover_acts = Some (after_acts failover_acts) /\
  (forall p r, w_replicas (after_acts failover_acts) !! p = Some r ->
     0 <= r_from r <= Z.of_nat (r_done r) /\ (r_done r <= length (pushed_orders failover_acts))%nat /\
     forall sym, exists rs,
       serve_all (new_MatchingEngine default_band)
         (Submit <$> of_symbol sym (span (Z.to_nat (r_from r)) (r_done r) (pushed_orders failover_acts))) =
       Ret (engine_for (vm_engines (r_vm r)) sym, rs)).
Proof.
  assert (shard_run "s0" 4 empty_world failover_acts = Some (after_acts failover_acts)) as Hs
    by (vm_compute; reflexivity).
  split; [exact Hs|]. apply (replicas_follow_log "s0" 4 failover_acts (after_acts failover_acts)).
  - apply (bool_decide_unpack _). vm_compute. exact I.
  - vm_compute. reflexivity.
  - exact Hs.
Defined.

Lemma trade_log_runs_witness :
  exists runs,
    length runs = elections "s0" 4 empty_world failover_acts /\
    match runs with [] => True | (a, _) :: _ => a = 0%nat end /\
    Forall (run_within (all_trades (pushed_orders failover_acts))) runs /\
    contents (w_fs (after_acts failover_acts)) (trades_path "s0") =
      concat (encode_trade <$> concat (run_of (all_trades (pushed_orders failover_acts)) <$> runs)) /\
    (forall p r, w_owner (after_acts failover_acts) = Some p -> w_replicas (after_acts failover_acts) !! p = Some r ->
       exists a n, last runs = Some (a, n) /\
         take (a + n) (all_trades (take (r_done r) (pushed_orders failover_acts))) ++ pending r =
         all_trades (take (r_done r) (pushed_orders failover_acts))).
Proof.
  apply (trade_log_runs "s0" 4 failover_acts (after_acts failover_acts)).
  - apply (bool_decide_unpack _). vm_compute. exact I.
  - vm_compute. reflexivity.
  - apply (bool_decide_unpack _). vm_compute. exact I.
  - vm_compute. reflexivity.
Defined.

Lemma subscribers_follow_trades_witness :
  exists T, contents (w_fs (after_acts failover_acts)) (trades_path "s0") = concat (encode_trade <$> T) /\
    forall j c, w_clients (after_acts failover_acts) !! j = Some c ->
      0 <= c_from c <= offset_ (c_sub c) /\ offset_ (c_sub c) <= Z.of_nat (length T) /\
      c_seen c = span (Z.to_nat (c_from c)) (Z.to_nat (offset_ (c_sub c))) T.
Proof.
  apply (subscribers_follow_trades "s0" 4 failover_acts (after_acts failover_acts)).
  - apply (bool_decide_unpack _). vm_compute. exact I.
  - vm_compute. reflexivity.
  - vm_compute. reflexivity.
Defined.

(** The same run, with the standby's checkpoint refused once an order waits for it. *)
Definition refused_acts : list action :=
  failover_acts ++ [gateway buy_4; Permissions {[checkpoint_path "s0" "standby"]}].

Lemma shard_never_stuck_witness :
  let w := after_acts refused_acts in
  let refused path := path ∈ denied (w_fs w) in
  exists T, contents (w_fs w) (trades_path "s0") = concat (encode_trade <$> T) /\
  (forall p r, w_replicas w !! p = Some r ->
     match r_pc r with
     | InPop =>
       if decide (consumer_offset_ (r_queue r) < Z.of_nat (length (pushed_orders refused_acts)) /\
                  refused (checkpoint_path_ (r_queue r)))
       then log_poll (w_fs w) (r_queue r) = Throw "LogBackedOrderQueue: cannot write"
       else is_Some (shard_step "s0" 4 w (PollLog p))
     | Handling _ => is_Some (shard_step "s0" 4 w (SubmitPopped p))
     | Publishing _ => is_Some (shard_step "s0" 4 w (PublishNext p))
     end) /\
  (forall j c, w_clients w !! j = Some c ->
     if decide (offset_ (c_sub c) < Z.of_nat (length T) /\ refused (sub_checkpoint_path_ (c_sub c)))
     then try_next (w_fs w) (c_sub c) = Throw "TradeLog::Subscriber: cannot write"
     else is_Some (shard_step "s0" 4 w (NextTrade j))) /\
  (forall p id fd, w_replicas w !! p = None ->
     if decide (refused (log_path "s0"))
     then new_LogBackedOrderQueue (w_fs w) "s0" id = Throw "LogBackedOrderQueue: cannot open"
     else exists fs q, new_LogBackedOrderQueue (w_fs w) "s0" id = Ret (fs, q) /\
       if decide (refused (trades_path "s0")) then new_TradeLog fs "s0" = Throw "TradeLog: cannot open"
       else is_Some (shard_step "s0" 4 w (StartReplica p id fd))) /\
  (forall j id, w_clients w !! j = None ->
     if decide (refused (trades_path "s0"))
     then new_Subscriber (w_fs w) "s0" id = Throw "TradeLog::Subscriber: cannot open"
     else is_Some (shard_step "s0" 4 w (Attach j id))).
Proof.
  apply (shard_never_stuck "s0" 4 refused_acts (after_acts refused_acts)).
  - lia.
  - apply (bool_decide_unpack _). vm_compute. exact I.
  - vm_compute. reflexivity.
  - vm_compute. reflexivity.
Defined.

(** There the standby's next turn throws. *)
Example refused_checkpoint_throws :
  match w_replicas (after_acts refused_acts) !! 1%nat with
  | Some r => log_poll (w_fs (after_acts refused_acts)) (r_queue r) = Throw "LogBackedOrderQueue: cannot write"
  | None => False
  end.
Proof. vm_compute. reflexivity. Qed.

(** A replica that has read a sell order is killed and restarted under its own id;
    then the matching buy order arrives. *)
Definition before_restart : list action :=
  [StartReplica 0 "r0" 5; gateway sell_10; PollLog 0; SubmitPopped 0; PublishNext 0].
Definition after_restart : list action := [gateway buy_4; PollLog 0; SubmitPopped 0; PublishNext 0].
Definition restart_acts : list action := before_restart ++ [Kill 0; StartReplica 0 "r0" 5] ++ after_restart.

Definition restarted : replica :=
  default (mkReplica 0 (mkLogQueue "" "" 0 false) (mkVM (mkLock 0 false) false ∅) InPop)
    (w_replicas (after_acts restart_acts) !! 0%nat).

Lemma restart_forgets_book_witness :
  let k := load_offset (w_fs (after_acts before_restart)) (checkpoint_path "s0" "r0") in
  0 <= k <= 1 /\ r_from restarted = k /\
  forall sym,
    (exists rs, serve_all (new_MatchingEngine default_band)
       (Submit <$> of_symbol sym (span (Z.to_nat k) (r_done restarted) (pushed_orders restart_acts))) =
       Ret (engine_for (vm_engines (r_vm restarted)) sym, rs)) /\
    forall oid, oid ∈ live_ids (book_ (engine_for (vm_engines (r_vm restarted)) sym)) ->
      oid ∈ order_id <$> drop (Z.to_nat k) (pushed_orders restart_acts).
Proof.
  apply (restart_forgets_book "s0" 4 before_restart after_restart (after_acts before_restart)
           (after_acts restart_acts) 0 "r0" 5 restarted).
  - apply (bool_decide_unpack _). vm_compute. exact I.
  - vm_compute. reflexivity.
  - vm_compute. reflexivity.
  - vm_compute. reflexivity.
  - intros id' fd'. unfold after_restart, gateway. rewrite !not_elem_of_cons. repeat split; try discriminate.
    apply not_elem_of_nil.
  - vm_compute. reflexivity.
Defined.

(** In that run the sell order, which rested, is gone: the buy order rests instead of
    trading, and nothing is published, although the orders of the log make a trade. *)
Example restart_loses_trade :
  vm_active (r_vm restarted) = true /\ r_from restarted = 1 /\ r_done restarted = 2%nat /\
  contents (w_fs (after_acts restart_acts)) (trades_path "s0") = [] /\
  length (all_trades (pushed_orders restart_acts)) = 1%nat /\
  order_id <$> live (book_ (engine_for (vm_engines (r_vm restarted)) "")) = [order_id buy_4].
Proof. vm_compute. done. Qed.

(** A kill while the checkpoint file is truncated has the opposite effect: the
    restarted replica reads the log from its first record. *)
Example kill_in_pop_replays :
  (fun r => (r_from r, vm_active (r_vm r))) <$>
    (w ← shard_run "s0" 4 empty_world
           [StartReplica 0 "r0" 5; gateway sell_10; PollLog 0; SubmitPopped 0; PublishNext 0;
            gateway buy_4; KillInPop 0 1; StartReplica 0 "r0" 5];
     w_replicas w !! 0%nat) = Some (0, true).
Proof. vm_compute. reflexivity. Qed.
