(* ===== verification/ShardFiles.v ===== *)
(** * The files of a shard

    Every file a shard's processes touch has a name that starts with the shard's
    base, followed by a dot or an underscore.  No name belongs to two shards, and
    a step of the shard depends on its own files only: run on the restriction of
    the disk to them, it does the same. *)

From stdpp Require Import pretty.
From Stdlib Require Import Ascii.
From S2P Require Import Prelude Double Rounding StdMap Order Sharding PriceCollar OrderBook MatchingEngine Exchange ExchangeFacts Refinement CancelIndex Session Dump OrderQueue Bytes Files LogQueue ShardRouter LeaderLock TradeLog EngineVM EngineMain ShardSystem.

(** ** Names *)

(** What follows [base] in [p]. *)
Fixpoint after (base p : string) : option string :=
  match base, p with
  | "", _ => Some p
  | String a base', String b p' => if decide (a = b) then after base' p' else None
  | _, "" => None
  end.

Definition is_separator (c : char) : bool :=
  bool_decide (c = "."%char) || bool_decide (c = "_"%char).

Definition own_file (base p : string) : bool :=
  match after base p with Some (String c _) => is_separator c | _ => false end.

Lemma after_append base s : after base (base +:+ s) = Some s.
Proof.
  induction base as [|a base IH]; [by destruct s|].
  change (String a base +:+ s) with (String a (base +:+ s)). cbn [after]. by rewrite decide_True.
Qed.

Lemma after_inv base p s : after base p = Some s -> p = base +:+ s.
Proof.
  revert p. induction base as [|a base IH]; intros p; cbn [after]; [by intros [= ->]|].
  destruct p as [|b p]; [done|]. case_decide as E; [|done]. subst b. intros H%IH.
  change (String a base +:+ s) with (String a (base +:+ s)). by rewrite H.
Qed.

Lemma own_separator base c s : is_separator c = true -> own_file base (base +:+ String c s) = true.
Proof. intros Hc. unfold own_file. by rewrite after_append. Qed.

Lemma own_log base : own_file base (log_path base) = true.
Proof. by apply own_separator. Qed.

Lemma own_trades base : own_file base (trades_path base) = true.
Proof. by apply own_separator. Qed.

Lemma own_checkpoint base id : own_file base (checkpoint_path base id) = true.
Proof. unfold checkpoint_path. case_decide; by apply own_separator. Qed.

Lemma own_sub_checkpoint base id : own_file base (sub_checkpoint_path base id) = true.
Proof. by apply own_separator. Qed.

Create HintDb own.
#[export] Hint Resolve own_log own_trades own_checkpoint own_sub_checkpoint : own.

(** *** Shards do not share files *)

Lemma own_file_inv base p :
  own_file base p = true -> exists c s, is_separator c = true /\ p = base +:+ String c s.
Proof.
  unfold own_file. destruct (after base p) as [[|c s]|] eqn:E; [done| |done].
  intros Hc. exists c, s. split; [done|]. by apply after_inv.
Qed.

Lemma pretty_read k c s : is_separator c = true -> read_u64 (pretty k +:+ String c s) = (Z.of_nat k, String c s).
Proof.
  intros Hc. replace (pretty k) with (show_u64 (Z.of_nat k)).
  - apply read_show_u64; [lia|]. unfold is_separator in Hc. by repeat case_bool_decide; subst.
  - unfold show_u64, pretty at 2, pretty_nat. f_equal. lia.
Qed.

Lemma own_file_shard base j k p :
  own_file (shard_base base j) p = true -> own_file (shard_base base k) p = true -> j = k.
Proof.
  intros (c & s & Hc & ->)%own_file_inv (c' & s' & Hc' & H)%own_file_inv.
  unfold shard_base in H. rewrite !append_assoc in H.
  apply append_inj_l, append_inj_l, (f_equal (fst ∘ read_u64)) in H.
  unfold compose in H. rewrite !pretty_read in H by done. cbn in H. lia.
Qed.

(** ** Restriction of the disk *)

Definition restrict (base : string) (fs : filesystem) : filesystem :=
  mkFS (filter (fun kv => own_file base kv.1 = true) (files fs)) (denied fs).

(** Disks that differ in the shard's files only. *)
Definition touches (base : string) (fs fs' : filesystem) : Prop :=
  denied fs' = denied fs /\ forall p, own_file base p = false -> files fs' !! p = files fs !! p.

#[global] Instance touches_preorder base : PreOrder (touches base).
Proof.
  split; [by split|]. intros fs1 fs2 fs3 [H1 H2] [H3 H4]. split; [congruence|].
  intros p Hp. by rewrite H4, H2.
Qed.

Lemma restrict_lookup base fs p :
  files (restrict base fs) !! p = if own_file base p then files fs !! p else None.
Proof.
  cbn. destruct (own_file base p) eqn:E.
  - destruct (files fs !! p) eqn:Hp.
    + by apply map_lookup_filter_Some.
    + apply map_lookup_filter_None. by left.
  - apply map_lookup_filter_None. right. intros x _. cbn. by rewrite E.
Qed.

Lemma files_eq fs fs' : denied fs = denied fs' -> (forall p, files fs !! p = files fs' !! p) -> fs = fs'.
Proof. destruct fs, fs'. cbn. intros -> H. f_equal. by apply map_eq. Qed.

Lemma restrict_set base fs p bs :
  own_file base p = true -> restrict base (set_contents fs p bs) = set_contents (restrict base fs) p bs.
Proof.
  intros Hp. apply files_eq; [done|]. intros q. rewrite restrict_lookup. cbn [set_contents files].
  destruct (decide (p = q)) as [<-|Hne]; [by rewrite Hp, !lookup_insert_eq|].
  by rewrite !lookup_insert_ne, restrict_lookup by done.
Qed.

Lemma touches_set base fs p bs : own_file base p = true -> touches base fs (set_contents fs p bs).
Proof.
  intros Hp. split; [done|]. intros q Hq. cbn. rewrite lookup_insert_ne; [done|]. congruence.
Qed.

(** The files of another shard are not touched. *)
Lemma restrict_foreign base j k fs fs' :
  touches (shard_base base j) fs fs' -> j <> k -> restrict (shard_base base k) fs' = restrict (shard_base base k) fs.
Proof.
  intros [Hd Hf] Hne. apply files_eq; [done|]. intros p. rewrite !restrict_lookup.
  destruct (own_file (shard_base base k) p) eqn:E; [|done]. apply Hf.
  destruct (own_file (shard_base base j) p) eqn:E'; [|done]. by destruct (Hne (own_file_shard _ _ _ _ E' E)).
Qed.

Lemma restrict_contents base fs p : own_file base p = true -> contents (restrict base fs) p = contents fs p.
Proof. intros Hp. unfold contents. by rewrite restrict_lookup, Hp. Qed.

Lemma restrict_load base fs p : own_file base p = true -> load_offset (restrict base fs) p = load_offset fs p.
Proof. intros Hp. unfold load_offset, fopen_read. by rewrite restrict_lookup, Hp. Qed.

Lemma restrict_empty base : restrict base (mkFS ∅ ∅) = mkFS ∅ ∅.
Proof. apply files_eq; [done|]. intros p. rewrite restrict_lookup. by destruct (own_file base p). Qed.

(** ** Local operations

    An operation that gives the same result on the restricted disk, and touches
    the shard's files only. *)
Definition local_op {A} (base : string) (f : filesystem -> option (filesystem * A)) : Prop :=
  forall fs, f (restrict base fs) = prod_map (restrict base) id <$> f fs /\
             forall fs' a, f fs = Some (fs', a) -> touches base fs fs'.

Lemma local_ret {A} base (a : A) : local_op base (fun fs => Some (fs, a)).
Proof. intros fs. split; [done|]. by intros fs' a' [= <- _]. Qed.

Lemma local_fail {A} base : local_op (A := A) base (fun _ => None).
Proof. intros fs. by split. Qed.

Lemma local_bind {A B} base f (g : A -> filesystem -> option (filesystem * B)) :
  local_op base f -> (forall a, local_op base (g a)) -> local_op base (fun fs => '(fs', a) ← f fs; g a fs').
Proof.
  intros Hf Hg fs. destruct (Hf fs) as [Hf1 Hf2]. rewrite Hf1. destruct (f fs) as [[fs1 a]|]; cbn; [|by split].
  destruct (Hg a fs1) as [Hg1 Hg2]. split; [done|]. intros fs' b Hb.
  etrans; [by apply (Hf2 fs1 a)|by apply (Hg2 fs' b)].
Qed.

Lemma local_ext {A} base (f g : filesystem -> option (filesystem * A)) :
  (forall fs, f fs = g fs) -> local_op base g -> local_op base f.
Proof. intros E Hg fs. rewrite !E. apply Hg. Qed.

Lemma local_set {A} base p bs (a : A) :
  own_file base p = true -> local_op base (fun fs => Some (set_contents fs p bs, a)).
Proof.
  intros Hp fs. split; [cbn; by rewrite restrict_set|]. intros fs' a' [= <- _]. by apply touches_set.
Qed.

(** A file read in full, and an offset read from a checkpoint. *)
Lemma local_contents {A} base p (g : list char -> filesystem -> option (filesystem * A)) :
  own_file base p = true -> (forall bs, local_op base (g bs)) -> local_op base (fun fs => g (contents fs p) fs).
Proof. intros Hp Hg fs. rewrite restrict_contents by done. apply Hg. Qed.

Lemma local_reads {A} base p (g : list char -> filesystem -> option (filesystem * A)) f :
  own_file base p = true -> (forall fs, f fs = g (contents fs p) fs) -> (forall bs, local_op base (g bs)) ->
  local_op base f.
Proof. intros Hp Hf Hg. apply (local_ext _ _ (fun fs => g (contents fs p) fs)); [done|]. by apply local_contents. Qed.

Lemma local_load {A} base p (g : Z -> filesystem -> option (filesystem * A)) :
  own_file base p = true -> (forall k, local_op base (g k)) -> local_op base (fun fs => g (load_offset fs p) fs).
Proof. intros Hp Hg fs. rewrite restrict_load by done. apply Hg. Qed.

Lemma local_denied {A} base p (f g : filesystem -> option (filesystem * A)) :
  local_op base f -> local_op base g ->
  local_op base (fun fs => if decide (p ∈ denied fs) then f fs else g fs).
Proof. intros Hf Hg fs. cbn. case_decide; [apply Hf|apply Hg]. Qed.

Lemma local_fwrite {A} base p bs (a : A) :
  own_file base p = true -> local_op base (fun fs => Some (fwrite_append fs p bs, a)).
Proof.
  intros Hp. apply (local_contents base p (fun old fs => Some (set_contents fs p (old ++ bs), a))); [done|].
  intros old. by apply local_set.
Qed.

(** [fopen] in append mode. *)
Lemma local_reopen base p :
  own_file base p = true -> local_op base (fun fs => Some (set_contents fs p (contents fs p), tt)).
Proof.
  intros Hp. apply (local_contents base p (fun bs fs => Some (set_contents fs p bs, tt))); [done|].
  intros bs. by apply local_set.
Qed.

Create HintDb local.
#[export] Hint Resolve local_ret local_fail local_set local_fwrite local_denied : local.

(** *** The calls of the processes *)

Section calls.
Context (base : string).

Lemma new_queue_local id : local_op base (fun fs => of_outcome (new_LogBackedOrderQueue fs base id)).
Proof.
  apply (local_ext _ _ (fun fs =>
    if decide (log_path base ∈ denied fs) then None
    else '(fs', _) ← Some (set_contents fs (log_path base) (contents fs (log_path base)), tt);
         Some (fs', mkLogQueue (log_path base) (checkpoint_path base id)
                      (load_offset fs' (checkpoint_path base id)) false))).
  { intros fs. unfold new_LogBackedOrderQueue, fopen_append. cbn. by case_decide. }
  apply local_denied; [apply local_fail|].
  apply (local_bind base (fun fs => Some (set_contents fs (log_path base) (contents fs (log_path base)), tt))).
  - apply local_reopen, own_log.
  - intros _.
    apply (local_load base (checkpoint_path base id) (fun k fs =>
      Some (fs, mkLogQueue (log_path base) (checkpoint_path base id) k false))); auto with own local.
Qed.

Lemma new_trades_local : local_op base (fun fs => of_outcome (new_TradeLog fs base)).
Proof.
  apply (local_ext _ _ (fun fs =>
    if decide (trades_path base ∈ denied fs) then None
    else Some (set_contents fs (trades_path base) (contents fs (trades_path base)), trades_path base))).
  { intros fs. unfold new_TradeLog, fopen_append. by case_decide. }
  apply local_denied; [apply local_fail|].
  apply (local_contents base (trades_path base) (fun bs fs => Some (set_contents fs (trades_path base) bs, trades_path base)));
    auto with own local.
Qed.

Lemma new_subscriber_local id : local_op base (fun fs => of_outcome (new_Subscriber fs base id)).
Proof.
  apply (local_ext _ _ (fun fs =>
    if decide (trades_path base ∈ denied fs) then None
    else '(fs', _) ← Some (set_contents fs (trades_path base) (contents fs (trades_path base)), tt);
         Some (fs', mkSubscriber (trades_path base) (sub_checkpoint_path base id)
                      (load_offset fs' (sub_checkpoint_path base id))))).
  { intros fs. unfold new_Subscriber, fopen_append. cbn. by case_decide. }
  apply local_denied; [apply local_fail|].
  apply (local_bind base (fun fs => Some (set_contents fs (trades_path base) (contents fs (trades_path base)), tt))).
  - apply local_reopen, own_trades.
  - intros _.
    apply (local_load base (sub_checkpoint_path base id) (fun k fs =>
      Some (fs, mkSubscriber (trades_path base) (sub_checkpoint_path base id) k))); auto with own local.
Qed.

Lemma store_local {A} p k (a : A) :
  own_file base p = true -> local_op base (fun fs => fs' ← store_offset fs p k; Some (fs', a)).
Proof.
  intros Hp. apply (local_ext _ _ (fun fs =>
    if decide (p ∈ denied fs) then None else Some (set_contents fs p (le_encode sizeof_u64 k), a)));
    [|auto with local].
  intros fs. case_decide as E; [|by rewrite store_offset_eq].
  unfold store_offset, store_offset_states, fopen_write. by rewrite decide_True.
Qed.

(** Processes whose objects name files of the shard. *)
Lemma poll_local q :
  own_file base (log_path_ q) = true -> own_file base (checkpoint_path_ q) = true ->
  local_op base (fun fs => '(fs', q', r) ← of_outcome (log_poll fs q); Some (fs', (q', r))).
Proof.
  intros Hl Hc.
  set (q' := mkLogQueue (log_path_ q) (checkpoint_path_ q) (consumer_offset_ q +ᵤ 1) (log_done_ q)).
  apply (local_reads base (log_path_ q) (fun bs fs =>
    if consumer_offset_ q <? Z.of_nat (length bs) / Z.of_nat sizeof_Order then
      match fread_at bs (mul64 (consumer_offset_ q) (Z.of_nat sizeof_Order)) sizeof_Order with
      | None => None
      | Some r => fs' ← store_offset fs (checkpoint_path_ q) (consumer_offset_ q'); Some (fs', (q', Got (decode_order r)))
      end
    else Some (fs, (q, if log_done_ q then Finished else Retry)))); [done|..].
  { intros fs. unfold log_poll, current_file_record_count, write_checkpoint. destruct (_ <? _).
    - destruct (fread_at _ _ _); [|done]. cbn [checkpoint_path_ consumer_offset_ q'].
      by destruct (store_offset fs (checkpoint_path_ q) _).
    - by destruct (log_done_ q). }
  intros bs. destruct (_ <? _); [|apply local_ret].
  destruct (fread_at _ _ _); [by apply store_local|apply local_fail].
Qed.

Lemma next_local s :
  own_file base (sub_log_path_ s) = true -> own_file base (sub_checkpoint_path_ s) = true ->
  local_op base (fun fs => '(fs', s', t) ← of_outcome (try_next fs s); Some (fs', (s', t))).
Proof.
  intros Hl Hc. set (s' := mkSubscriber (sub_log_path_ s) (sub_checkpoint_path_ s) (offset_ s +ᵤ 1)).
  apply (local_reads base (sub_log_path_ s) (fun bs fs =>
    if Z.of_nat (length bs) / Z.of_nat sizeof_Trade <=? offset_ s then Some (fs, (s, None))
    else match fread_at bs (mul64 (offset_ s) (Z.of_nat sizeof_Trade)) sizeof_Trade with
         | None => Some (fs, (s, None))
         | Some r => fs' ← store_offset fs (sub_checkpoint_path_ s) (offset_ s'); Some (fs', (s', Some (decode_trade r)))
         end)); [done|..].
  { intros fs. unfold try_next, sub_write_checkpoint. destruct (_ <=? _); [done|].
    destruct (fread_at _ _ _); [|done]. cbn [sub_checkpoint_path_ offset_ s'].
    by destruct (store_offset fs (sub_checkpoint_path_ s) _). }
  intros bs. destruct (_ <=? _); [apply local_ret|].
  destruct (fread_at _ _ _); [by apply store_local|apply local_ret].
Qed.

(** The disks a crash may leave. *)
Lemma crash_local {A} p k i (a : A) :
  own_file base p = true ->
  local_op base (fun fs => fs' ← (match store_offset_states fs p k with Some fss => fss | None => [fs] end) !! i;
                           Some (fs', a)).
Proof.
  intros Hp.
  apply (local_ext _ _ (fun fs =>
    if decide (p ∈ denied fs) then fs' ← [fs] !! i; Some (fs', a)
    else match i with
         | 0 => Some (fs, a)
         | 1 => Some (set_contents fs p [], a)
         | 2 => Some (set_contents fs p (le_encode sizeof_u64 k), a)
         | _ => None
         end%nat)).
  { intros fs. unfold store_offset_states, fopen_write. case_decide; [done|].
    destruct i as [|[|[|i]]]; cbn -[le_encode]; try done. unfold fwrite_append. rewrite contents_set_eq.
    unfold set_contents. cbn -[le_encode]. by rewrite insert_insert_eq. }
  apply local_denied; [destruct i as [|i]; [apply local_ret|apply local_fail]|].
  destruct i as [|[|[|i]]]; auto with local.
Qed.

Lemma kill_poll_local q i :
  own_file base (log_path_ q) = true -> own_file base (checkpoint_path_ q) = true ->
  local_op base (fun fs => fs' ← poll_disk_states fs q !! i; Some (fs', tt)).
Proof.
  intros Hl Hc. apply (local_reads base (log_path_ q) (fun bs fs =>
    if consumer_offset_ q <? Z.of_nat (length bs) / Z.of_nat sizeof_Order then
      fs' ← (match store_offset_states fs (checkpoint_path_ q) (consumer_offset_ q +ᵤ 1) with
             | Some fss => fss | None => [fs] end) !! i; Some (fs', tt)
    else fs' ← [fs] !! i; Some (fs', tt))); [done|..].
  { intros fs. unfold poll_disk_states, current_file_record_count. by destruct (_ <? _). }
  intros bs. destruct (_ <? _); [by apply crash_local|].
  destruct i as [|i]; [apply local_ret|apply local_fail].
Qed.

Lemma kill_next_local s i :
  own_file base (sub_log_path_ s) = true -> own_file base (sub_checkpoint_path_ s) = true ->
  local_op base (fun fs => fs' ← next_disk_states fs s !! i; Some (fs', tt)).
Proof.
  intros Hl Hc. apply (local_reads base (sub_log_path_ s) (fun bs fs =>
    if Z.of_nat (length bs) / Z.of_nat sizeof_Trade <=? offset_ s then fs' ← [fs] !! i; Some (fs', tt)
    else fs' ← (match store_offset_states fs (sub_checkpoint_path_ s) (offset_ s +ᵤ 1) with
                | Some fss => fss | None => [fs] end) !! i; Some (fs', tt))); [done|..].
  { intros fs. unfold next_disk_states. by destruct (_ <=? _). }
  intros bs. destruct (_ <=? _); [|by apply crash_local].
  destruct i as [|i]; [apply local_ret|apply local_fail].
Qed.
End calls.

(** ** Steps of the shard are local *)

Definition restrict_world (base : string) (w : world) : world :=
  mkWorld (restrict base (w_fs w)) (w_owner w) (w_replicas w) (w_clients w).

(** The processes of [w] name files of the shard. *)
Record own_world (base : string) (w : world) : Prop := {
  ow_replicas p r : w_replicas w !! p = Some r ->
    own_file base (log_path_ (r_queue r)) = true /\ own_file base (checkpoint_path_ (r_queue r)) = true;
  ow_clients j c : w_clients w !! j = Some c ->
    own_file base (sub_log_path_ (c_sub c)) = true /\ own_file base (sub_checkpoint_path_ (c_sub c)) = true
}.

(** Two ways to say that a step is local: its result on the restricted disk, and
    what it touches. *)
Definition local_step (base : string) (f : world -> option world) (w : world) : Prop :=
  f (restrict_world base w) = restrict_world base <$> f w /\
  forall w', f w = Some w' -> touches base (w_fs w) (w_fs w').

Lemma local_step_op {A} base (F : filesystem -> option (filesystem * A)) (G : A -> filesystem -> world) f w :
  local_op base F ->
  f w = ('(fs, x) ← F (w_fs w); Some (G x fs)) ->
  f (restrict_world base w) = ('(fs, x) ← F (restrict base (w_fs w)); Some (G x fs)) ->
  (forall x fs, w_fs (G x fs) = fs /\ restrict_world base (G x fs) = G x (restrict base fs)) ->
  local_step base f w.
Proof.
  intros HF Hf Hfr HG. destruct (HF (w_fs w)) as [H1 H2]. split.
  - rewrite Hf, Hfr, H1. destruct (F (w_fs w)) as [[fs x]|]; [|done]. cbn. by destruct (HG x fs) as [_ ->].
  - intros w' Hw'. rewrite Hf in Hw'. destruct (F (w_fs w)) as [[fs x]|] eqn:E; [|done].
    injection Hw' as <-. destruct (HG x fs) as [-> _]. by apply (H2 fs x).
Qed.

(** A step that fails, or only touches processes. *)
Lemma local_step_pure base f w :
  f (restrict_world base w) = restrict_world base <$> f w -> (forall w', f w = Some w' -> w_fs w' = w_fs w) ->
  local_step base f w.
Proof. intros H1 H2. split; [done|]. intros w' ->%H2. done. Qed.

Section steps.
Context (base : string) (num_shards : Z).

Lemma start_local w p id fd : local_step base (fun w => start_replica base w p id fd) w.
Proof.
  unfold start_replica. destruct (w_replicas w !! p) eqn:Hp; [apply local_step_pure; cbn; by rewrite Hp|].
  apply (local_step_op base
    (fun fs => '(fs1, q) ← of_outcome (new_LogBackedOrderQueue fs base id);
               '(fs2, _) ← of_outcome (new_TradeLog fs1 base); Some (fs2, q))
    (fun q fs => mkWorld fs (owner_after w p (new_ShardLeaderLock fd))
       (<[p := mkReplica (consumer_offset_ q) q (vm_start fd (flock_result (w_election w) p)) InPop]> (w_replicas w))
       (w_clients w))); [| | |done].
  - apply local_bind; [apply new_queue_local|]. intros q.
    apply (local_bind base (fun fs => of_outcome (new_TradeLog fs base)) (fun _ fs => Some (fs, q)));
      [apply new_trades_local|intros _; apply local_ret].
  - rewrite Hp. destruct (of_outcome (new_LogBackedOrderQueue (w_fs w) base id)) as [[fs1 q]|]; [|done]. cbn.
    by destruct (of_outcome (new_TradeLog fs1 base)) as [[fs2 t]|].
  - cbn [restrict_world w_replicas w_fs]. rewrite Hp.
    destruct (of_outcome (new_LogBackedOrderQueue (restrict base (w_fs w)) base id)) as [[fs1 q]|]; [|done]. cbn.
    by destruct (of_outcome (new_TradeLog fs1 base)) as [[fs2 t]|].
Qed.

Lemma log_poll_finished fs q fs' q' : log_poll fs q = Ret (fs', q', Finished) -> fs' = fs.
Proof.
  unfold log_poll. destruct (_ <? _).
  - destruct (fread_at _ _ _); [|done]. intros H. by apply bind_Ret in H as (fs1 & _ & [= _ _]).
  - destruct (log_done_ q); [by intros [= -> _]|done].
Qed.

Lemma poll_step_local w p : own_world base w -> local_step base (fun w => poll_replica w p) w.
Proof.
  intros Hw. unfold poll_replica. destruct (w_replicas w !! p) as [r|] eqn:Hp;
    [|apply local_step_pure; cbn; by rewrite Hp].
  destruct (r_pc r) eqn:Hpc; [|apply local_step_pure; cbn; rewrite Hp; cbn; by rewrite Hpc..].
  destruct (ow_replicas _ _ Hw _ _ Hp) as [Hl Hc].
  set (G := fun (x : LogBackedOrderQueue * poll_result) fs => match x.2 with
       | Got o => mkWorld fs (w_owner w) (<[p := mkReplica (r_from r) x.1 (r_vm r) (Handling o)]> (w_replicas w)) (w_clients w)
       | Retry => mkWorld fs (w_owner w) (<[p := mkReplica (r_from r) x.1 (r_vm r) InPop]> (w_replicas w)) (w_clients w)
       | Finished => exit_replica (mkWorld fs (w_owner w) (w_replicas w) (w_clients w)) p
       end).
  assert (forall w0, w_replicas w0 = w_replicas w -> w_owner w0 = w_owner w -> w_clients w0 = w_clients w ->
    poll_replica w0 p = ('(fs, x) ← ('(fs', q', r) ← of_outcome (log_poll (w_fs w0) (r_queue r)); Some (fs', (q', r)));
                         Some (G x fs))) as Heq.
  { intros w0 H1 H2 H3. unfold poll_replica. rewrite H1, Hp. cbn. rewrite Hpc.
    destruct (log_poll (w_fs w0) (r_queue r)) as [[[fs q'] [o| |]]| | |] eqn:E; try done; cbn;
      unfold set_replica, exit_replica; cbn; rewrite ?H1, ?H2, ?H3; try done.
    by rewrite (log_poll_finished _ _ _ _ E). }
  apply (local_step_op base
    (fun fs => '(fs', q', r) ← of_outcome (log_poll fs (r_queue r)); Some (fs', (q', r))) G).
  - by apply poll_local.
  - by apply Heq.
  - by apply Heq.
  - intros [q' [o| |]] fs; done.
Qed.

Lemma submit_step_local w p : local_step base (fun w => submit_replica num_shards w p) w.
Proof.
  apply local_step_pure.
  - unfold submit_replica. cbn [restrict_world w_replicas]. destruct (w_replicas w !! p) as [r|]; [|done]. cbn [mbind option_bind].
    destruct (r_pc r) as [|o|]; [done| |done].
    change (w_election (restrict_world base w)) with (w_election w).
    destruct (of_outcome (shard_for_symbol (symbol_str o) num_shards)); [|done]. cbn [mbind option_bind].
    by destruct (of_outcome (apply_order _ o)) as [[[m b] res]|].
  - intros w' (r & o & m & b & res & _ & _ & _ & ->)%submit_replica_inv. done.
Qed.

Lemma publish_step_local w p : local_step base (fun w => publish_replica base w p) w.
Proof.
  unfold publish_replica. destruct (w_replicas w !! p) as [r|] eqn:Hp; [|apply local_step_pure; cbn; by rewrite Hp].
  destruct (r_pc r) as [| |[|t ts]] eqn:Hpc;
    [apply local_step_pure; cbn; rewrite Hp; cbn; rewrite Hpc; try done; by intros w' [= <-]..|].
  apply (local_step_op base (fun fs => Some (publish fs (trades_path base) t, tt))
    (fun _ fs => set_replica w fs p (mkReplica (r_from r) (r_queue r) (r_vm r) (Publishing ts)))).
  - apply local_fwrite, own_trades.
  - rewrite Hp. cbn. by rewrite Hpc.
  - cbn [restrict_world w_replicas]. rewrite Hp. cbn. by rewrite Hpc.
  - done.
Qed.

Lemma next_step_local w j : own_world base w -> local_step base (fun w => next_client w j) w.
Proof.
  intros Hw. unfold next_client. destruct (w_clients w !! j) as [c|] eqn:Hj; [|apply local_step_pure; cbn; by rewrite Hj].
  destruct (ow_clients _ _ Hw _ _ Hj) as [Hl Hc].
  apply (local_step_op base
    (fun fs => '(fs', s', t) ← of_outcome (try_next fs (c_sub c)); Some (fs', (s', t)))
    (fun x fs => mkWorld fs (w_owner w) (w_replicas w)
       (<[j := mkClient (c_from c) (c_id c) x.1 (match x.2 with Some t => c_seen c ++ [t] | None => c_seen c end)]>
          (w_clients w)))).
  - by apply next_local.
  - rewrite Hj. cbn. by destruct (of_outcome (try_next (w_fs w) (c_sub c))) as [[[fs s] t]|].
  - cbn [restrict_world w_clients w_fs]. rewrite Hj. cbn.
    by destruct (of_outcome (try_next (restrict base (w_fs w)) (c_sub c))) as [[[fs s] t]|].
  - done.
Qed.

Lemma attach_step_local w j id : local_step base (fun w => attach_client base w j id) w.
Proof.
  unfold attach_client. destruct (w_clients w !! j) as [c|] eqn:Hj; [apply local_step_pure; cbn; by rewrite Hj|].
  apply (local_step_op base (fun fs => of_outcome (new_Subscriber fs base id))
    (fun s fs => mkWorld fs (w_owner w) (w_replicas w) (<[j := mkClient (offset_ s) id s []]> (w_clients w)))).
  - apply new_subscriber_local.
  - by rewrite Hj.
  - cbn [restrict_world w_clients]. by rewrite Hj.
  - done.
Qed.

Lemma kill_pop_step_local w p i : own_world base w -> local_step base (fun w => kill_in_pop w p i) w.
Proof.
  intros Hw. unfold kill_in_pop. destruct (w_replicas w !! p) as [r|] eqn:Hp;
    [|apply local_step_pure; cbn; by rewrite Hp].
  destruct (r_pc r) eqn:Hpc; [|apply local_step_pure; cbn; rewrite Hp; cbn; by rewrite Hpc..].
  destruct (ow_replicas _ _ Hw _ _ Hp) as [Hl Hc].
  apply (local_step_op base (fun fs => fs' ← poll_disk_states fs (r_queue r) !! i; Some (fs', tt))
    (fun _ fs => exit_replica (mkWorld fs (w_owner w) (w_replicas w) (w_clients w)) p)).
  - by apply kill_poll_local.
  - rewrite Hp. cbn. rewrite Hpc. by destruct (_ !! i).
  - cbn [restrict_world w_replicas w_fs]. rewrite Hp. cbn. rewrite Hpc. by destruct (_ !! i).
  - done.
Qed.

Lemma kill_next_step_local w j i : own_world base w -> local_step base (fun w => kill_in_next w j i) w.
Proof.
  intros Hw. unfold kill_in_next. destruct (w_clients w !! j) as [c|] eqn:Hj; [|apply local_step_pure; cbn; by rewrite Hj].
  destruct (ow_clients _ _ Hw _ _ Hj) as [Hl Hc].
  apply (local_step_op base (fun fs => fs' ← next_disk_states fs (c_sub c) !! i; Some (fs', tt))
    (fun _ fs => mkWorld fs (w_owner w) (w_replicas w) (delete j (w_clients w)))).
  - by apply kill_next_local.
  - rewrite Hj. cbn. by destruct (_ !! i).
  - cbn [restrict_world w_clients w_fs]. rewrite Hj. cbn. by destruct (_ !! i).
  - done.
Qed.

(** Every action but a change of the permissions, which concern all shards. *)
Lemma shard_step_local w a :
  own_world base w -> (forall refused, a <> Permissions refused) ->
  local_step base (fun w => shard_step base num_shards w a) w.
Proof.
  intros Hw Ha. destruct a as [pad o|p id fd|p|p|p|p|p|j id|j|j|p i|j i| |refused]; cbn [shard_step];
    [..|by destruct (Ha refused)].
  - apply (local_step_op base (fun fs => Some (log_push fs (log_path base) pad o, tt))
      (fun _ fs => mkWorld fs (w_owner w) (w_replicas w) (w_clients w))); [apply local_fwrite, own_log|done..].
  - apply start_local.
  - by apply poll_step_local.
  - apply submit_step_local.
  - apply publish_step_local.
  - apply local_step_pure; cbn; destruct (w_replicas w !! p); [done|done| |done]. by intros w' [= <-].
  - apply local_step_pure; [done|]. by intros w' [= <-].
  - apply attach_step_local.
  - by apply next_step_local.
  - apply local_step_pure; [done|]. by intros w' [= <-].
  - by apply kill_pop_step_local.
  - by apply kill_next_step_local.
  - apply (local_step_op base (fun fs => of_outcome (new_LogBackedOrderQueue fs base ""))
      (fun _ fs => mkWorld fs (w_owner w) (w_replicas w) (w_clients w))); [apply new_queue_local|done..].
Qed.

(** *** The processes keep naming files of the shard *)

Lemma log_poll_paths fs q fs' q' r :
  log_poll fs q = Ret (fs', q', r) -> log_path_ q' = log_path_ q /\ checkpoint_path_ q' = checkpoint_path_ q.
Proof.
  unfold log_poll. destruct (_ <? _).
  - destruct (fread_at _ _ _); [|done]. intros H. by apply bind_Ret in H as (fs1 & _ & [= _ <- _]).
  - destruct (log_done_ q); by intros [= _ <- _].
Qed.

Lemma try_next_paths fs s fs' s' t :
  try_next fs s = Ret (fs', s', t) -> sub_log_path_ s' = sub_log_path_ s /\ sub_checkpoint_path_ s' = sub_checkpoint_path_ s.
Proof.
  unfold try_next. destruct (_ <=? _); [by intros [= _ <- _]|].
  destruct (fread_at _ _ _); [|by intros [= _ <- _]]. intros H. by apply bind_Ret in H as (fs1 & _ & [= _ <- _]).
Qed.

Lemma of_outcome_Some {A} (m : outcome A) a : of_outcome m = Some a -> m = Ret a.
Proof. destruct m; by intros [= ->]. Qed.

(** A world with one replica, or one client, replaced or gone. *)
Lemma own_set_replica w fs o p r :
  own_world base w -> own_file base (log_path_ (r_queue r)) = true ->
  own_file base (checkpoint_path_ (r_queue r)) = true ->
  own_world base (mkWorld fs o (<[p := r]> (w_replicas w)) (w_clients w)).
Proof. intros [Hr Hc] Hl Hk. split; cbn; [|done]. intros q rq [[_ <-]|[_ H]]%lookup_insert_Some; [done|by eapply Hr]. Qed.

Lemma own_set_client w fs j c :
  own_world base w -> own_file base (sub_log_path_ (c_sub c)) = true ->
  own_file base (sub_checkpoint_path_ (c_sub c)) = true ->
  own_world base (mkWorld fs (w_owner w) (w_replicas w) (<[j := c]> (w_clients w))).
Proof. intros [Hr Hc] Hl Hk. split; cbn; [done|]. intros i ci [[_ <-]|[_ H]]%lookup_insert_Some; [done|by eapply Hc]. Qed.

Lemma own_exit w fs p : own_world base w -> own_world base (exit_replica (mkWorld fs (w_owner w) (w_replicas w) (w_clients w)) p).
Proof. intros [Hr Hc]. split; cbn; [|done]. intros q r [_ H]%lookup_delete_Some. by eapply Hr. Qed.

Lemma own_detach w fs j : own_world base w -> own_world base (mkWorld fs (w_owner w) (w_replicas w) (delete j (w_clients w))).
Proof. intros [Hr Hc]. split; cbn; [done|]. intros i c [_ H]%lookup_delete_Some. by eapply Hc. Qed.

Lemma start_own w p id fd w' : own_world base w -> start_replica base w p id fd = Some w' -> own_world base w'.
Proof.
  intros Hw. unfold start_replica. destruct (w_replicas w !! p); [done|].
  intros ([fs1 q] & Hq & Hs)%bind_Some. apply bind_Some in Hs as ([fs2 t] & _ & [= <-]).
  apply of_outcome_Some in Hq. unfold new_LogBackedOrderQueue in Hq.
  destruct (fopen_append _ _); [|done]. injection Hq as _ <-. apply own_set_replica; cbn; auto with own.
Qed.

Lemma poll_own w p w' : own_world base w -> poll_replica w p = Some w' -> own_world base w'.
Proof.
  intros Hw. unfold poll_replica. intros (r & Hp & Hs)%bind_Some. destruct (ow_replicas _ _ Hw _ _ Hp) as [Hl Hc].
  destruct (r_pc r); [|done..]. apply bind_Some in Hs as ([[fs q] res] & Hq & Hs).
  destruct (log_poll_paths _ _ _ _ _ (of_outcome_Some _ _ Hq)) as [E1 E2].
  destruct res; injection Hs as <-; [|by apply (own_exit w (w_fs w))|];
    (apply own_set_replica; cbn; [done|by rewrite E1|by rewrite E2]).
Qed.

Lemma next_own w j w' : own_world base w -> next_client w j = Some w' -> own_world base w'.
Proof.
  intros Hw. unfold next_client. intros (c & Hj & Hs)%bind_Some. destruct (ow_clients _ _ Hw _ _ Hj) as [Hl Hc].
  apply bind_Some in Hs as ([[fs s] t] & Hn & [= <-]).
  destruct (try_next_paths _ _ _ _ _ (of_outcome_Some _ _ Hn)) as [E1 E2].
  apply own_set_client; cbn; [done|by rewrite E1|by rewrite E2].
Qed.

Lemma shard_step_own w a w' : own_world base w -> shard_step base num_shards w a = Some w' -> own_world base w'.
Proof.
  intros Hw. destruct a as [pad o|p id fd|p|p|p|p|p|j id|j|j|p i|j i| |refused]; cbn [shard_step].
  - intros [= <-]. by destruct Hw.
  - by apply start_own.
  - by apply poll_own.
  - intros (r & o & m & b & res & Hp & _ & _ & ->)%submit_replica_inv.
    destruct (ow_replicas _ _ Hw _ _ Hp). by apply own_set_replica.
  - unfold publish_replica. intros (r & Hp & Hs)%bind_Some. destruct (ow_replicas _ _ Hw _ _ Hp).
    destruct (r_pc r) as [| |[|t ts]]; [done|done|..]; injection Hs as <-; by apply own_set_replica.
  - intros (r & Hp & [= <-])%bind_Some. destruct (ow_replicas _ _ Hw _ _ Hp). by apply own_set_replica.
  - intros [= <-]. by apply (own_exit w (w_fs w)).
  - unfold attach_client. destruct (w_clients w !! j); [done|]. intros ([fs s] & Hn & [= <-])%bind_Some.
    apply of_outcome_Some in Hn. unfold new_Subscriber in Hn. destruct (fopen_append _ _); [|done].
    injection Hn as _ <-. apply own_set_client; cbn; auto with own.
  - by apply next_own.
  - intros [= <-]. by apply own_detach.
  - unfold kill_in_pop. intros (r & Hp & Hs)%bind_Some. destruct (r_pc r); [|done..].
    apply bind_Some in Hs as (fs & _ & [= <-]). by apply own_exit.
  - unfold kill_in_next. intros (c & Hj & Hs)%bind_Some. apply bind_Some in Hs as (fs & _ & [= <-]). by apply own_detach.
  - intros ([fs q] & _ & [= <-])%bind_Some. by destruct Hw.
  - intros [= <-]. by destruct Hw.
Qed.
End steps.
