(* ===== verification/Pipeline.v ===== *)
(** * The distributed pipeline, end to end

    Orders enter at a gateway ([src/gateway_main.cpp]: a feed handler on a shard
    router), are appended to the log of their shard, and are read back and matched
    by the engine process of that shard ([src/engine_main.cpp]). *)

From S2P Require Import Prelude Double Rounding Order Sharding PriceCollar OrderBook MatchingEngine Refinement CancelIndex Session OrderQueue Bytes Files LogQueue ShardRouter LeaderLock TradeLog EngineVM FeedHandler.

(** An order object as the gateway pushes it: its padding bytes and its fields. *)
Definition pushable (p : list char * Order) : Prop :=
  length p.1 = 6%nat /\ order_wt p.2 /\ valid_double (price p.2) /\ admissible p.2.

#[global] Instance pushable_dec p : Decision (pushable p).
Proof. unfold pushable. apply _. Defined.

Definition shard_of_symbol (n : Z) (sym : string) : nat := Z.to_nat (fnv1a sym mod n).

(** The records of a shard decode to the orders routed to it. *)
Lemma shard_records_decode n k os :
  Forall pushable os ->
  all_of_size sizeof_Order (shard_records n k os) /\
  decode_order <$> shard_records n k os = filter (fun o => shard_of n o = k) os.*2.
Proof.
  unfold shard_records. induction 1 as [|[pad o] os (Hpad & Hwt & Hv & _) _ [IHs IHd]]; [split; [constructor|done]|].
  cbn [fst snd] in *. rewrite fmap_cons. cbn [snd].
  destruct (decide (shard_of n o = k)) as [Heq|Hne].
  - rewrite !filter_cons_True by done. rewrite !fmap_cons. cbn [fst snd]. split.
    + constructor; [|done]. apply encode_order_length; [done|]. apply Hwt.
    + rewrite decode_encode_order by done. by rewrite IHd.
  - rewrite !filter_cons_False by done. by split.
Qed.

(** The shard of a symbol gets every order of that symbol. *)
Lemma of_symbol_shard n sym os :
  of_symbol sym (filter (fun o => shard_of n o = shard_of_symbol n sym) os) = of_symbol sym os.
Proof.
  unfold of_symbol. rewrite list_filter_filter. apply list_filter_iff. intros o. split; [by intros [? _]|].
  intros <-. by split.
Qed.

(** Router, log and engine process, for any pushable orders. *)
Lemma routed_to_engine (base replica trades sym : string) (n : Z) (os : list (list char * Order)) :
  0 < n < 2 ^ 32 -> Forall pushable os -> log_range (length os) ->
  let k := shard_of_symbol n sym in
  exists fs1 r fs2 fs3 q fs4 q' os' fs5 vm ls rs,
    new_ShardRouterQueue (mkFS ∅ ∅) base n = Ret (fs1, r) /\
    router_push_all fs1 r os = Ret fs2 /\
    new_LogBackedOrderQueue fs2 (shard_base base k) replica = Ret (fs3, q) /\
    log_drain (length os) fs3 q = Ret (fs4, q', os') /\
    vm_run (Z.of_nat k) n fs4 trades (vm_start 0 0) (with_flock 0 os') = Ret (fs5, vm, ls) /\
    serve_all (new_MatchingEngine default_band) (Submit <$> of_symbol sym os.*2) =
      Ret (engine_for (vm_engines vm) sym, rs).
Proof.
  intros Hn Hos Hr k.
  destruct (new_router_spec (mkFS ∅ ∅) base n) as (fs1 & r & Hnew & Hnum & Hd1 & Hc & Hf & Hsh); [done|lia|].
  destruct (router_push_all_spec base n r Hn Hnum Hsh fs1 os) as (fs2 & Hpush & Hk & Hd2 & Hp).
  destruct (shard_records_decode n k os Hos) as [Hsz Hdec].
  destruct (log_open_sim (shard_base base k) replica fs2 (shard_records n k os)) as (s & Hopen & Hsim);
    [congruence|etrans; [apply (Hk k)|by rewrite Hc]|done| |].
  { unfold load_offset, fopen_read. case_decide; [done|]. rewrite Hp, Hf; [done| |];
      intros j E; symmetry in E; by apply log_path_checkpoint in E. }
  rewrite Hdec in Hsim. set (os' := filter _ os.*2) in Hsim.
  assert (length (shard_records n k os) <= length os)%nat as Hlen.
  { unfold shard_records. rewrite length_fmap. apply length_filter. }
  destruct (log_drain_items _ _ (length os) s _ Hsim) as (s' & Hdrain);
    [by eapply log_range_down|done| |].
  { cbn [items]. subst os'. rewrite <-Hdec, length_fmap. done. }
  cbn [items] in Hdrain.
  assert (Forall admissible os.*2) as Hadm.
  { apply Forall_fmap. eapply Forall_impl; [exact Hos|]. by intros p (_ & _ & _ & ?). }
  assert (Forall admissible os') as Hadm'.
  { rewrite Forall_forall in *. intros o [_ Ho]%list_elem_of_filter. by apply Hadm. }
  destruct (vm_run_engines (Z.of_nat k) n trades Hn (ls_fs s') (vm_start 0 0) (with_flock 0 os'))
    as (fs5 & vm & rs0 & ls & Ha & Hvm); [apply engines_ok_empty|by rewrite with_flock_snd|].
  rewrite with_flock_snd in Ha.
  destruct (apply_all_symbol ∅ os' engines_ok_empty Hadm') as (m & rs & Ha' & _ & _ & Hsym).
  change (vm_engines (vm_start 0 0)) with (∅ : gmap string MatchingEngine) in Ha.
  rewrite Ha in Ha'. injection Ha' as <- _. specialize (Hsym sym).
  subst os'. rewrite (of_symbol_shard n sym) in Hsym.
  exists fs1, r, fs2, (ls_fs s), (ls_queue s), (ls_fs s'), (ls_queue s'). do 5 eexists.
  split_and!; [exact Hnew|exact Hpush|exact Hopen|exact Hdrain|exact Hvm|exact Hsym].
Qed.

(** ** The gateway program *)

(** [main]: a router, a feed handler on it, and the event loop; [pad] are the
    padding bytes of the order objects.  [router.push] is called for each order
    as it is decoded, and the router is the only writer of its files, so the
    calls are made here after the loop has collected them. *)
Definition gateway_run (fs : filesystem) (base_path : string) (num_shards : Z) (pad : Order -> list char)
    (listen_fd stop_fd : Z) (ws : list wait_result) : outcome filesystem :=
  '(fs1, router) ← new_ShardRouterQueue fs base_path num_shards;
  h ← run listen_fd stop_fd ws;
  router_push_all fs1 router ((fun p => (pad p.2, p.2)) <$> pushes h).

(** A wire order a well-behaved client sends: in range, and no NaN as a limit. *)
Definition wire_ok (w : WireOrder) : Prop := wire_wt w /\ admissible (wire_to_order w).

#[global] Instance wire_ok_dec w : Decision (wire_ok w).
Proof. unfold wire_ok. apply _. Defined.

Lemma wire_ok_pushable pad w :
  length pad = 6%nat -> wire_ok w -> pushable (pad, wire_to_order w).
Proof.
  intros Hpad [(H1 & H2 & _ & _ & H3 & H4 & H5) Hadm]. split; [done|]. cbn [snd fst].
  split; [|done]. unfold order_wt, wire_to_order. cbn. split_and!; try done.
Qed.

(** The script of a run: accept the clients, read from them, stop. *)
Definition client_script (listen_fd stop_fd : Z) (fds : list Z)
    (batches : list (list (Z * list (list char)))) : list wait_result :=
  Ready [accept_event listen_fd fds] false :: (read_batch <$> batches) ++ [Ready [stop_event stop_fd] false].

(** What the clients send: for each one, a list of packed wire orders. *)
Definition clients_send (fds : list Z) (batches : list (list (Z * list (list char))))
    (wpad : list char) (sent : Z -> list WireOrder) : Prop :=
  forall fd, fd ∈ fds ->
    stream fd (concat batches) = concat (encode_wire wpad <$> sent fd) /\ Forall wire_ok (sent fd).

(** ** Properties *)

(** C6: from the clients' bytes to the engine's book.  Any clients send packed
    orders to a gateway over any interleaving, batching and fragmentation of
    their streams.  The gateway's run ends when it is stopped; it has received
    each client's orders in that client's order; and the engine process of the
    shard of [sym], reading that shard's log, ends with the engine for [sym] that
    a single engine fed with the received orders for [sym] would be. *)
Theorem clients_to_engine (base replica trades sym : string) (n : Z) (pad : Order -> list char)
    (listen_fd stop_fd : Z) (fds : list Z) (batches : list (list (Z * list (list char))))
    (wpad : list char) (sent : Z -> list WireOrder) :
  0 < n < 2 ^ 32 -> (forall o, length (pad o) = 6%nat) -> length wpad = 6%nat ->
  listen_fd <> stop_fd -> listen_fd ∉ fds -> stop_fd ∉ fds ->
  Forall (fun ev => ev.1 ∈ fds) (concat batches) -> clients_send fds batches wpad sent ->
  let script := client_script listen_fd stop_fd fds batches in
  let k := shard_of_symbol n sym in
  exists h, run listen_fd stop_fd script = Ret h /\
    (forall fd, fd ∈ fds -> pushed_for fd (pushes h) = wire_to_order <$> sent fd) /\
    (log_range (length (pushes h)) ->
     exists fs2 fs3 q fs4 q' os' fs5 vm ls rs,
       gateway_run (mkFS ∅ ∅) base n pad listen_fd stop_fd script = Ret fs2 /\
       new_LogBackedOrderQueue fs2 (shard_base base k) replica = Ret (fs3, q) /\
       log_drain (length (pushes h)) fs3 q = Ret (fs4, q', os') /\
       vm_run (Z.of_nat k) n fs4 trades (vm_start 0 0) (with_flock 0 os') = Ret (fs5, vm, ls) /\
       serve_all (new_MatchingEngine default_band) (Submit <$> of_symbol sym (pushes h).*2) =
         Ret (engine_for (vm_engines vm) sym, rs)).
Proof.
  intros Hn Hpad Hwpad Hls Hl Hs Hall Hsend script k.
  destruct (run_streams listen_fd stop_fd fds batches Hls Hl Hs Hall) as (h & Hrun & Hconn & Hfrom).
  assert (forall fd, fd ∈ fds -> pushed_for fd (pushes h) = wire_to_order <$> sent fd) as Hsent.
  { intros fd Hfd. destruct (Hconn fd Hfd) as [-> _]. destruct (Hsend fd Hfd) as [-> Hok].
    apply frames_encoded; [done|]. eapply Forall_impl; [exact Hok|]. by intros w [? _]. }
  exists h. split_and!; [exact Hrun|exact Hsent|]. intros Hrange.
  set (os := (fun p => (pad p.2, p.2)) <$> pushes h).
  assert (os.*2 = (pushes h).*2) as Hos.
  { subst os. rewrite <-list_fmap_compose. done. }
  assert (length os = length (pushes h)) as Hlen by apply length_fmap.
  destruct (routed_to_engine base replica trades sym n os) as
    (fs1 & r & fs2 & fs3 & q & fs4 & q' & os' & fs5 & vm & ls & rs & H1 & H2 & H3 & H4 & H5 & H6);
    [done| |by rewrite Hlen|].
  { apply Forall_fmap, Forall_forall. intros [fd o] Hp. cbn [compose fst snd].
    pose proof (proj1 (Forall_forall _ _) Hfrom _ Hp) as Hfd. cbn in Hfd.
    assert (o ∈ wire_to_order <$> sent fd) as (w & -> & Hw)%list_elem_of_fmap.
    { rewrite <-Hsent by done. apply list_elem_of_fmap. exists (fd, o). split; [done|].
      by apply list_elem_of_filter. }
    apply wire_ok_pushable; [done|]. destruct (Hsend fd Hfd) as [_ Hok].
    by eapply (proj1 (Forall_forall _ _) Hok). }
  rewrite Hlen in H4. rewrite Hos in H6.
  exists fs2, fs3, q, fs4, q', os', fs5, vm, ls, rs. split_and!; [|done..].
  unfold gateway_run. rewrite H1. cbn [mbind outcome_bind]. subst script. unfold client_script.
  rewrite Hrun. exact H2.
Qed.

(** One client that sends a single order in two pieces. *)
Definition sent_order : WireOrder :=
  mkWireOrder 1 1 0 0 (String.list_ascii_of_string "AAPL" ++ replicate 4 NUL) (d_of_Z 100) 10.
Definition sent_bytes : list char := encode_wire (replicate 6 NUL) sent_order.
Definition sent_batches : list (list (Z * list (list char))) :=
  [[(7, [take 20 sent_bytes])]; [(7, [drop 20 sent_bytes])]].

Lemma clients_to_engine_witness :
  exists h, run 3 4 (client_script 3 4 [7] sent_batches) = Ret h /\
    (forall fd, fd ∈ [7] -> pushed_for fd (pushes h) = wire_to_order <$> [sent_order]) /\
    (log_range (length (pushes h)) ->
     exists fs2 fs3 q fs4 q' os' fs5 vm ls rs,
       gateway_run (mkFS ∅ ∅) "orders" 4 (fun _ => replicate 6 NUL) 3 4 (client_script 3 4 [7] sent_batches) = Ret fs2 /\
       new_LogBackedOrderQueue fs2 (shard_base "orders" (shard_of_symbol 4 "AAPL")) "r0" = Ret (fs3, q) /\
       log_drain (length (pushes h)) fs3 q = Ret (fs4, q', os') /\
       vm_run (Z.of_nat (shard_of_symbol 4 "AAPL")) 4 fs4 "trades" (vm_start 0 0) (with_flock 0 os') = Ret (fs5, vm, ls) /\
       serve_all (new_MatchingEngine default_band) (Submit <$> of_symbol "AAPL" (pushes h).*2) =
         Ret (engine_for (vm_engines vm) "AAPL", rs)).
Proof.
  apply (clients_to_engine "orders" "r0" "trades" "AAPL" 4 (fun _ => replicate 6 NUL) 3 4 [7]
           sent_batches (replicate 6 NUL) (fun _ => [sent_order])).
  - lia.
  - reflexivity.
  - reflexivity.
  - discriminate.
  - apply (bool_decide_unpack _). exact I.
  - apply (bool_decide_unpack _). exact I.
  - apply (bool_decide_unpack _). exact I.
  - intros fd Hfd. apply list_elem_of_singleton in Hfd as ->. split.
    + vm_compute. reflexivity.
    + apply (bool_decide_unpack _). vm_compute. exact I.
Defined.
