(* ===== verification/Deployment.v ===== *)
(** * The whole deployment: gateways and shards on one disk

    Any number of gateways ([src/gateway_main.cpp]) route orders to the logs of
    [n] shards; every shard has its replicas, subscribers and leader lock as in
    [ShardSystem.v]; all of them share one disk and act in any order.  A run of the
    deployment, seen from one shard, is a run of that shard alone: everything
    proved of one shard holds of each shard of a deployment. *)

From S2P Require Import Prelude Double Rounding StdMap Order Sharding PriceCollar OrderBook MatchingEngine Exchange ExchangeFacts Refinement CancelIndex Session OrderQueue Bytes Files LogQueue ShardRouter LeaderLock TradeLog EngineVM EngineMain ShardSystem ShardFiles FeedHandler Pipeline.

(** ** State *)

(** The processes of one shard. *)
Record processes := mkProcesses {
  ps_owner : option nat;
  ps_replicas : gmap nat replica;
  ps_clients : gmap nat client
}.

Record deployment := mkDeployment {
  d_fs : filesystem;
  d_gateways : gmap nat ShardRouterQueue;
  d_shards : gmap nat processes
}.

Definition empty_deployment : deployment := mkDeployment (mkFS ∅ ∅) ∅ ∅.

(** A shard's processes, on the common disk. *)
Definition world_at (d : deployment) (k : nat) : world :=
  let ps := default (mkProcesses None ∅ ∅) (d_shards d !! k) in
  mkWorld (d_fs d) (ps_owner ps) (ps_replicas ps) (ps_clients ps).

Definition put_world (d : deployment) (k : nat) (w : world) : deployment :=
  mkDeployment (w_fs w) (d_gateways d)
    (<[k := mkProcesses (w_owner w) (w_replicas w) (w_clients w)]> (d_shards d)).

(** ** Steps *)

Inductive deploy_action :=
  | StartGateway (g : nat)
  | Route (g : nat) (pad : list char) (o : Order)     (* [router.push(o)] *)
  | StopGateway (g : nat)
  | SetPermissions (refused : gset string)            (* [fopen] fails on these paths from now on *)
  | InShard (k : nat) (a : action).

(** The actions of a shard's own processes. *)
Definition process_action (a : action) : bool :=
  match a with GatewayPush _ _ | GatewayOpen | Permissions _ => false | _ => true end.

Section deployment.
Context (log_base : string) (n : Z).

Definition deploy_step (d : deployment) (act : deploy_action) : option deployment :=
  match act with
  | StartGateway g =>
    match d_gateways d !! g with
    | Some _ => None
    | None =>
      '(fs, r) ← of_outcome (new_ShardRouterQueue (d_fs d) log_base n);
      Some (mkDeployment fs (<[g := r]> (d_gateways d)) (d_shards d))
    end
  | Route g pad o =>
    r ← d_gateways d !! g;
    fs ← of_outcome (router_push (d_fs d) r pad o);
    Some (mkDeployment fs (d_gateways d) (d_shards d))
  | StopGateway g => Some (mkDeployment (d_fs d) (delete g (d_gateways d)) (d_shards d))
  | SetPermissions refused => Some (mkDeployment (mkFS (files (d_fs d)) refused) (d_gateways d) (d_shards d))
  | InShard k a =>
    if process_action a && (Z.of_nat k <? n)
    then w ← shard_step (shard_base log_base k) n (world_at d k) a; Some (put_world d k w)
    else None
  end.

Fixpoint deploy_run (d : deployment) (acts : list deploy_action) : option deployment :=
  match acts with
  | [] => Some d
  | act :: acts' => d' ← deploy_step d act; deploy_run d' acts'
  end.

(** ** One shard of the deployment *)

(** What shard [k] sees of an action, and of the state. *)
Definition project (k : nat) (act : deploy_action) : option action :=
  match act with
  | StartGateway _ => Some GatewayOpen
  | Route _ pad o => if decide (shard_of n o = k) then Some (GatewayPush pad o) else None
  | StopGateway _ => None
  | SetPermissions refused => Some (Permissions refused)
  | InShard k' a => if decide (k' = k) then Some a else None
  end.

Definition shard_view (d : deployment) (k : nat) : world :=
  restrict_world (shard_base log_base k) (world_at d k).

(** The routers' objects, and processes that keep to their shard's files. *)
Record deploy_ok (d : deployment) : Prop := {
  dp_gateways g r : d_gateways d !! g = Some r ->
    num_shards_ r = n /\ forall j, (j < Z.to_nat n)%nat -> log_path_ <$> shards_ r !! j = Some (shard_log log_base j);
  dp_shards k : own_world (shard_base log_base k) (world_at d k)
}.

Lemma deploy_ok_empty : deploy_ok empty_deployment.
Proof. split; [done|]. intros k. split; done. Qed.

Lemma world_at_put d k w : world_at (put_world d k w) k = w.
Proof. unfold world_at, put_world. cbn. rewrite lookup_insert_eq. by destruct w. Qed.

Lemma view_empty k : shard_view empty_deployment k = empty_world.
Proof. unfold shard_view, restrict_world. cbn [world_at w_fs]. by rewrite restrict_empty. Qed.

(** A step on the files of one shard. *)
Lemma view_other d k j w :
  touches (shard_base log_base j) (d_fs d) (w_fs w) -> j <> k ->
  shard_view (put_world d j w) k = shard_view d k.
Proof.
  intros Ht Hne. unfold shard_view, restrict_world, world_at, put_world. cbn.
  rewrite lookup_insert_ne by done. by rewrite (restrict_foreign _ _ _ _ _ Ht Hne).
Qed.

Lemma own_world_fs base w fs :
  own_world base w -> own_world base (mkWorld fs (w_owner w) (w_replicas w) (w_clients w)).
Proof. by intros []. Qed.

Context (Hn : 0 < n < 2 ^ 32).

(** *** Actions of a shard's processes *)

Lemma in_shard_view d j a w k :
  deploy_ok d -> process_action a = true -> shard_step (shard_base log_base j) n (world_at d j) a = Some w ->
  if decide (j = k) then shard_step (shard_base log_base k) n (shard_view d k) a = Some (shard_view (put_world d j w) k)
  else shard_view (put_world d j w) k = shard_view d k.
Proof using.
  intros Hd Ha Hs. destruct (shard_step_local (shard_base log_base j) n _ a (dp_shards d Hd j)) as [H1 H2];
    [by intros refused ->|].
  case_decide as E; [subst k|apply view_other; [by apply H2|done]].
  unfold shard_view. rewrite H1, Hs, world_at_put. done.
Qed.

Lemma in_shard_ok d j a w :
  deploy_ok d -> shard_step (shard_base log_base j) n (world_at d j) a = Some w -> deploy_ok (put_world d j w).
Proof using.
  intros Hd Hs. split; [apply (dp_gateways d Hd)|]. intros k. destruct (decide (j = k)) as [<-|Hne].
  - rewrite world_at_put. eapply shard_step_own; [apply (dp_shards d Hd)|done].
  - unfold world_at, put_world. cbn. rewrite lookup_insert_ne by done.
    apply (own_world_fs _ (world_at d k)), (dp_shards d Hd).
Qed.

(** *** Actions of a gateway *)

(** The disk of a shard after a router has opened the logs from shard [i] on. *)
Lemma make_shards_restrict fs i m fs' qs k :
  make_shards fs log_base i m = Ret (fs', qs) ->
  restrict (shard_base log_base k) fs' =
    if decide (i <= k < i + m)%nat
    then let p := shard_log log_base k in
         set_contents (restrict (shard_base log_base k) fs) p (contents (restrict (shard_base log_base k) fs) p)
    else restrict (shard_base log_base k) fs.
Proof using.
  revert fs i qs. induction m as [|m IH]; intros fs i qs Hm; cbn [make_shards] in Hm.
  { injection Hm as <- _. rewrite decide_False by lia. done. }
  apply bind_Ret in Hm as ([fs1 q] & Hq & Hm). apply bind_Ret in Hm as ([fs2 qs2] & Hm & [= -> _]).
  assert (fs1 = set_contents fs (shard_log log_base i) (contents fs (shard_log log_base i))) as ->.
  { unfold new_LogBackedOrderQueue, fopen_append in Hq. case_decide; [done|]. by injection Hq as <- _. }
  rewrite (IH _ _ _ Hm). destruct (decide (i = k)) as [<-|Hne].
  - rewrite decide_False, decide_True by lia. cbv zeta.
    rewrite restrict_set by apply own_log. by rewrite restrict_contents by apply own_log.
  - rewrite (restrict_foreign log_base i k fs); [|apply touches_set, own_log|done].
    destruct (decide (S i <= k < S i + m)%nat), (decide (i <= k < i + S m)%nat); (done || lia).
Qed.

Lemma make_shards_opens fs i m fs' qs j :
  make_shards fs log_base i m = Ret (fs', qs) -> (j < m)%nat -> shard_log log_base (i + j) ∉ denied fs.
Proof using.
  revert fs i qs j. induction m as [|m IH]; intros fs i qs j Hm Hj; [lia|]. cbn [make_shards] in Hm.
  apply bind_Ret in Hm as ([fs1 q] & Hq & Hm). apply bind_Ret in Hm as ([fs2 qs2] & Hm & [= -> _]).
  unfold new_LogBackedOrderQueue, fopen_append in Hq. case_decide as Hd; [done|]. injection Hq as <- _.
  destruct j as [|j]; [by rewrite Nat.add_0_r|]. replace (i + S j)%nat with (S i + j)%nat by lia.
  apply (IH _ _ _ _ Hm). lia.
Qed.

Lemma new_router_restrict fs fs' r k :
  (k < Z.to_nat n)%nat -> new_ShardRouterQueue fs log_base n = Ret (fs', r) ->
  let rfs := restrict (shard_base log_base k) fs in
  exists q, of_outcome (new_LogBackedOrderQueue rfs (shard_base log_base k) "") =
    Some (restrict (shard_base log_base k) fs', q).
Proof using.
  intros Hk Hr rfs. unfold new_ShardRouterQueue in Hr. apply bind_Ret in Hr as ([fs1 qs] & Hm & [= -> _]).
  pose proof (make_shards_restrict _ _ _ _ _ k Hm) as Hres. rewrite decide_True in Hres by lia. cbv zeta in Hres.
  pose proof (make_shards_opens _ _ _ _ _ k Hm Hk) as Hd.
  unfold new_LogBackedOrderQueue, fopen_append. cbn [log_path_].
  rewrite decide_False by exact Hd. eexists. cbn. by rewrite Hres.
Qed.

Lemma start_gateway_view d g fs r k :
  (k < Z.to_nat n)%nat -> new_ShardRouterQueue (d_fs d) log_base n = Ret (fs, r) ->
  shard_step (shard_base log_base k) n (shard_view d k) GatewayOpen =
    Some (shard_view (mkDeployment fs (<[g := r]> (d_gateways d)) (d_shards d)) k).
Proof using.
  intros Hk Hr. destruct (new_router_restrict _ _ _ k Hk Hr) as (q & Hq). cbn [shard_step].
  change (w_fs (shard_view d k)) with (restrict (shard_base log_base k) (d_fs d)). by rewrite Hq.
Qed.

Lemma make_shards_paths fs i m fs' qs j :
  make_shards fs log_base i m = Ret (fs', qs) -> (j < m)%nat ->
  log_path_ <$> qs !! j = Some (shard_log log_base (i + j)).
Proof using.
  revert fs i qs j. induction m as [|m IH]; intros fs i qs j Hm Hj; [lia|]. cbn [make_shards] in Hm.
  apply bind_Ret in Hm as ([fs1 q] & Hq & Hm). apply bind_Ret in Hm as ([fs2 qs2] & Hm & [= -> <-]).
  destruct j as [|j].
  - rewrite Nat.add_0_r. cbn. unfold new_LogBackedOrderQueue in Hq. destruct (fopen_append _ _); [|done].
    by injection Hq as _ <-.
  - change ((q :: qs2) !! S j) with (qs2 !! j). rewrite (IH _ _ _ j Hm) by lia. do 2 f_equal. lia.
Qed.

Lemma new_router_ok fs fs' r :
  new_ShardRouterQueue fs log_base n = Ret (fs', r) ->
  num_shards_ r = n /\ forall j, (j < Z.to_nat n)%nat -> log_path_ <$> shards_ r !! j = Some (shard_log log_base j).
Proof using.
  intros Hr. unfold new_ShardRouterQueue in Hr. apply bind_Ret in Hr as ([fs1 qs] & Hm & [= _ <-]). split; [done|].
  cbn [shards_]. intros j Hj. pose proof (make_shards_paths _ _ _ _ _ j Hm Hj) as H. done.
Qed.

(** A routed order is one record at the end of its shard's log. *)
Lemma router_push_eq fs r pad o fs' :
  num_shards_ r = n -> (forall j, (j < Z.to_nat n)%nat -> log_path_ <$> shards_ r !! j = Some (shard_log log_base j)) ->
  router_push fs r pad o = Ret fs' -> fs' = log_push fs (shard_log log_base (shard_of n o)) pad o.
Proof using Hn.
  intros Hnum Hsh Hp. unfold router_push in Hp. rewrite Hnum in Hp.
  destruct (shard_for_symbol_ret (symbol_str o) n Hn) as [E Hb]. rewrite E in Hp. cbn [mbind outcome_bind] in Hp.
  specialize (Hsh (shard_of n o)). unfold shard_of in *. destruct (shards_ r !! _) as [q|]; [|done].
  injection Hp as <-. cbn in Hsh. by injection (Hsh ltac:(lia)) as ->.
Qed.

Lemma route_view d pad o k :
  let d' := mkDeployment (log_push (d_fs d) (shard_log log_base (shard_of n o)) pad o) (d_gateways d) (d_shards d) in
  match project k (Route 0 pad o) with
  | Some a => shard_step (shard_base log_base k) n (shard_view d k) a = Some (shard_view d' k)
  | None => shard_view d' k = shard_view d k
  end.
Proof using.
  intros d'. cbn [project]. case_decide as E; unfold shard_view, restrict_world; cbn -[restrict log_push].
  - subst k. unfold log_push, fwrite_append. rewrite restrict_set by apply own_log.
    by rewrite restrict_contents by apply own_log.
  - unfold log_push, fwrite_append.
    by rewrite (restrict_foreign log_base (shard_of n o) k (d_fs d)); [|apply touches_set, own_log|].
Qed.

(** *** Every action, seen from a shard *)

Lemma deploy_step_view d act d' k :
  deploy_ok d -> (k < Z.to_nat n)%nat -> deploy_step d act = Some d' ->
  deploy_ok d' /\
  match project k act with
  | Some a => shard_step (shard_base log_base k) n (shard_view d k) a = Some (shard_view d' k)
  | None => shard_view d' k = shard_view d k
  end.
Proof using Hn.
  intros Hd Hk Hs. pose proof Hd as [Hg Hw]. destruct act as [g|g pad o|g|refused|j a]; cbn [deploy_step] in Hs.
  - destruct (d_gateways d !! g); [done|]. apply bind_Some in Hs as ([fs r] & Hr & [= <-]).
    apply of_outcome_Some in Hr. split; [|by apply start_gateway_view].
    split; [|intros j; apply (own_world_fs _ (world_at d j)), Hw].
    cbn. intros g' r' [[_ <-]|[_ H]]%lookup_insert_Some; [by eapply new_router_ok|by eapply Hg].
  - apply bind_Some in Hs as (r & Hr & Hs). apply bind_Some in Hs as (fs & Hp & [= <-]).
    destruct (Hg _ _ Hr) as [Hnum Hsh]. apply of_outcome_Some, (router_push_eq _ r) in Hp as ->; [|done..].
    split; [|apply route_view]. split; [done|]. intros j. apply (own_world_fs _ (world_at d j)), Hw.
  - injection Hs as <-. split; [|done]. split; [|done]. cbn. intros g' r [_ H]%lookup_delete_Some. by eapply Hg.
  - injection Hs as <-. split; [|done]. split; [done|]. intros j. apply (own_world_fs _ (world_at d j)), Hw.
  - destruct (process_action a && (Z.of_nat j <? n)) eqn:Hpa; [|done]. apply andb_true_iff in Hpa as [Hpa _].
    apply bind_Some in Hs as (w & Hs & [= <-]).
    split; [by eapply in_shard_ok|]. pose proof (in_shard_view d j a w k Hd Hpa Hs) as H. cbn [project].
    by destruct (decide (j = k)).
Qed.

Lemma deploy_run_view d acts d' k :
  deploy_ok d -> (k < Z.to_nat n)%nat -> deploy_run d acts = Some d' ->
  shard_run (shard_base log_base k) n (shard_view d k) (omap (project k) acts) = Some (shard_view d' k).
Proof using Hn.
  intros Hd Hk. revert d Hd. induction acts as [|act acts IH]; intros d Hd Hr; cbn in Hr.
  { by injection Hr as <-. }
  apply bind_Some in Hr as (d1 & Hs & Hr). destruct (deploy_step_view d act d1 k Hd Hk Hs) as [Hd1 Hv].
  specialize (IH d1 Hd1 Hr). cbn. destruct (project k act); [cbn; by rewrite Hv|by rewrite <-Hv].
Qed.
End deployment.

(** ** The orders of a deployment *)

(** The orders the gateways routed, in order. *)
Definition routed (acts : list deploy_action) : list Order :=
  omap (fun act => match act with Route _ _ o => Some o | _ => None end) acts.

Definition deploy_action_ok (act : deploy_action) : Prop :=
  match act with Route _ pad o => length pad = 6%nat /\ order_ok o | _ => True end.

#[global] Instance deploy_action_ok_dec act : Decision (deploy_action_ok act).
Proof. destruct act; simpl; apply _. Defined.

Lemma deploy_run_projected log_base n d acts d' k :
  deploy_run log_base n d acts = Some d' -> Forall deploy_action_ok acts ->
  pushed_orders (omap (project n k) acts) = filter (fun o => shard_of n o = k) (routed acts) /\
  Forall action_ok (omap (project n k) acts) /\ (length (omap (project n k) acts) <= length acts)%nat.
Proof.
  revert d. induction acts as [|act acts IH]; intros d Hr Hok; cbn in Hr; [by split_and!|].
  apply bind_Some in Hr as (d1 & Hs & Hr). apply Forall_cons in Hok as [Ha Hok].
  destruct (IH d1 Hr Hok) as (H1 & H2 & H3). unfold routed in *.
  destruct act as [g|g pad o|g|refused|j a]; cbn -[filter] in *.
  - split_and!; [done|by constructor|lia].
  - case_decide as E; cbn -[filter].
    + rewrite filter_cons_True by done. unfold pushed_orders in *. cbn -[filter]. rewrite H1. split_and!; [done|by constructor|lia].
    + rewrite filter_cons_False by done. split_and!; [done|done|lia].
  - split_and!; [done|done|lia].
  - split_and!; [done|by constructor|lia].
  - destruct (process_action a) eqn:Hp; [|done]. case_decide; [|by split_and!; [..|lia]]. cbn -[filter].
    split_and!; [|constructor; [by destruct a|done]|lia]. rewrite <-H1. by destruct a.
Qed.

(** The state of a shard, as [ShardSystem.v] describes it. *)
Lemma deploy_world_ok log_base n acts d k :
  0 < n < 2 ^ 32 -> (k < Z.to_nat n)%nat -> Forall deploy_action_ok acts -> log_range (length acts) ->
  deploy_run log_base n empty_deployment acts = Some d ->
  exists T, world_ok (shard_base log_base k) (filter (fun o => shard_of n o = k) (routed acts)) T (shard_view log_base d k).
Proof.
  intros Hn Hk Hok Hr Hrun. destruct (deploy_run_projected _ _ _ _ _ k Hrun Hok) as (<- & Ha & Hlen).
  pose proof (deploy_run_view log_base n Hn _ _ _ k (deploy_ok_empty log_base n) Hk Hrun) as Hrk.
  rewrite view_empty in Hrk.
  assert (log_range (length (omap (project n k) acts))) as Hr' by (by eapply log_range_down).
  destruct (shard_run_ok (shard_base log_base k) n [] [] _ _ _ (world_ok_empty _) Ha Hr' Hrk) as (T & Hw).
  by exists T.
Qed.

Lemma span_elem {A} a b (l : list A) x : x ∈ span a b l -> x ∈ l.
Proof. unfold span. intros (i & H & _)%elem_of_take. rewrite lookup_drop in H. by eapply list_elem_of_lookup_2. Qed.

(** ** Properties *)

(** C8: a shard of a deployment behaves as if it were alone.  Whatever gateways
    start, route and stop, and whatever the processes of the other shards do on
    the common disk, shard [k]'s files and processes are exactly those that result
    from running the shard on its own with the actions that concern it: the
    gateways that opened its log, the orders routed to it, the changes of what can be
    opened and the steps of its own processes. *)
Theorem deployment_projects (log_base : string) (n : Z) (acts : list deploy_action) (d : deployment) (k : nat) :
  0 < n < 2 ^ 32 -> (k < Z.to_nat n)%nat -> deploy_run log_base n empty_deployment acts = Some d ->
  shard_run (shard_base log_base k) n empty_world (omap (project n k) acts) = Some (shard_view log_base d k).
Proof.
  intros Hn Hk Hr. rewrite <-(view_empty log_base k). apply (deploy_run_view log_base n Hn _ _ _ k); [|done|done].
  apply deploy_ok_empty.
Qed.

(** C7: every symbol has one book.  In every state of a deployment, a replica has
    an engine for a symbol only if the symbol belongs to its shard; and a replica
    that started at the beginning of its log and has read all of it has, for each
    symbol of its shard, the engine that a dedicated session over all the orders
    for that symbol, in the order in which the gateways routed them, would leave:
    whatever the number of gateways and however the shards' processes interleave. *)
Theorem one_book_per_symbol (log_base : string) (n : Z) (acts : list deploy_action) (d : deployment)
    (k p : nat) (r : replica) :
  0 < n < 2 ^ 32 -> (k < Z.to_nat n)%nat -> Forall deploy_action_ok acts -> log_range (length acts) ->
  deploy_run log_base n empty_deployment acts = Some d -> w_replicas (world_at d k) !! p = Some r ->
  let L := filter (fun o => shard_of n o = k) (routed acts) in
  (r_done r <= length L)%nat /\
  (forall sym, shard_of_symbol n sym <> k -> vm_engines (r_vm r) !! sym = None) /\
  (forall sym, shard_of_symbol n sym = k -> r_from r = 0 -> r_done r = length L ->
     exists rs, serve_all (new_MatchingEngine default_band) (Submit <$> of_symbol sym (routed acts)) =
       Ret (engine_for (vm_engines (r_vm r)) sym, rs)).
Proof.
  intros Hn Hk Hok Hr Hrun Hp L.
  destruct (deploy_world_ok log_base n acts d k Hn Hk Hok Hr Hrun) as (T & Hw). fold L in Hw.
  pose proof (wo_replicas _ _ _ _ Hw p r Hp) as Hrok. destruct (ro_engines _ _ _ Hrok) as (rs & He).
  split_and!; [by eapply r_done_offset|..].
  - intros sym Hne. apply not_elem_of_dom. rewrite (apply_all_dom _ _ _ _ He), dom_empty_L.
    intros [[]%not_elem_of_empty|Hin]%elem_of_union. apply elem_of_list_to_set, list_elem_of_fmap in Hin as (o & -> & Ho).
    assert (o ∈ L) as [Hsh _]%list_elem_of_filter; [|by apply Hne].
    by eapply span_elem.
  - intros sym <- Hfrom Hdone. rewrite Hfrom, Hdone in He. unfold span in He.
    rewrite Nat.sub_0_r, drop_0, take_ge in He by done.
    destruct (apply_all_symbol ∅ L engines_ok_empty) as (m & rs' & Ha & _ & _ & Hsym).
    { eapply Forall_impl; [apply (wo_orders _ _ _ _ Hw)|]. by intros o (_ & _ & ?). }
    rewrite He in Ha. injection Ha as <- <-. specialize (Hsym sym). unfold L in Hsym.
    rewrite of_symbol_shard in Hsym. eexists. exact Hsym.
Qed.

(** Two gateways and two shards: a seller and a buyer of one symbol through
    different gateways, and an order for another symbol. *)
Definition order_for (id : Z) (s : Side) (sym : string) (qty : Z) : Order :=
  mkOrder id 1 s LIMIT (take kSymbolLen (String.list_ascii_of_string sym ++ replicate kSymbolLen NUL)) (d_of_Z 100) qty qty 0.

Definition deploy_acts : list deploy_action :=
  let pad := replicate 6 NUL in
  [StartGateway 0; StartGateway 1; InShard 0 (StartReplica 0 "r0" 5); InShard 1 (StartReplica 0 "r0" 5);
   Route 0 pad (order_for 1 SELL "AAPL" 10); Route 1 pad (order_for 2 SELL "NVDA" 3);
   InShard 0 (PollLog 0); InShard 1 (PollLog 0); Route 1 pad (order_for 3 BUY "AAPL" 4);
   InShard 1 (SubmitPopped 0); InShard 0 (SubmitPopped 0); StopGateway 0;
   InShard 0 (PublishNext 0); InShard 1 (PublishNext 0);
   InShard 1 (PollLog 0); InShard 1 (SubmitPopped 0)].

Definition after_deploy : deployment :=
  default empty_deployment (deploy_run "/tmp/me" 2 empty_deployment deploy_acts).

Lemma deployment_projects_witness :
  shard_run (shard_base "/tmp/me" 1) 2 empty_world (omap (project 2 1) deploy_acts) =
    Some (shard_view "/tmp/me" after_deploy 1) /\
  length (omap (project 2 1) deploy_acts) = 10%nat.
Proof.
  split; [|vm_compute; reflexivity].
  apply (deployment_projects "/tmp/me" 2 deploy_acts after_deploy 1).
  - lia.
  - change (1 < 2)%nat. lia.
  - vm_compute. reflexivity.
Defined.

Definition aapl_replica : replica :=
  default (mkReplica 0 (mkLogQueue "" "" 0 false) (mkVM (mkLock 0 false) false ∅) InPop)
    (w_replicas (world_at after_deploy 1) !! 0%nat).

Lemma one_book_per_symbol_witness :
  let L := filter (fun o => shard_of 2 o = 1%nat) (routed deploy_acts) in
  (r_done aapl_replica <= length L)%nat /\
  (forall sym, shard_of_symbol 2 sym <> 1%nat -> vm_engines (r_vm aapl_replica) !! sym = None) /\
  (forall sym, shard_of_symbol 2 sym = 1%nat -> r_from aapl_replica = 0 -> r_done aapl_replica = length L ->
     exists rs, serve_all (new_MatchingEngine default_band) (Submit <$> of_symbol sym (routed deploy_acts)) =
       Ret (engine_for (vm_engines (r_vm aapl_replica)) sym, rs)).
Proof.
  apply (one_book_per_symbol "/tmp/me" 2 deploy_acts after_deploy 1 0).
  - lia.
  - change (1 < 2)%nat. lia.
  - apply (bool_decide_unpack _). vm_compute. exact I.
  - vm_compute. reflexivity.
  - vm_compute. reflexivity.
  - vm_compute. reflexivity.
Defined.

(** That replica has caught up. *)
Example aapl_replica_current :
  shard_of_symbol 2 "AAPL" = 1%nat /\ r_from aapl_replica = 0 /\ r_done aapl_replica = 2%nat /\
  order_id <$> resting SELL (book_ (engine_for (vm_engines (r_vm aapl_replica)) "AAPL")) = [1].
Proof. vm_compute. done. Qed.
