(* ===== verification/ServerMain.v ===== *)
(** * The server program, from client bytes to printed text ([src/server_main.cpp])

    The whole [main] of the single-process server: the main thread prints a
    banner, runs the feed handler, prints a farewell, shuts the queue down and
    joins the consumer thread, which meanwhile pops, submits and prints.  Every
    [printf] is a step, so the texts of the two threads interleave. *)

From S2P Require Import Prelude Double Order Sharding PriceCollar OrderBook MatchingEngine Refinement CancelIndex Session Dump OrderQueue MutexQueue LockFreeQueue Bytes FeedHandler FeedSetup Files LogQueue ShardRouter LeaderLock TradeLog EngineVM Server Programs Pipeline.

(** ** The two threads *)

(** Where the main thread is; [todo] are the orders [handler.run] has still to push. *)
Inductive main_pc :=
  | Starting (todo : list Order)
  | InRun (todo : list Order)
  | Stopping                          (* before [queue.shutdown()] *)
  | Joining                           (* in [consumer.join()] *)
  | Returned.

Definition server_banner : string := "Matching engine server listening on port 9000" +:+ newline.
Definition server_farewell : string := newline +:+ "Shutting down..." +:+ newline.

Section process.
Context {Q : Type} `{OrderQueue Q}.

Record process := mkProcess {
  pr_server : server (Q := Q);
  pr_main : main_pc;
  pr_pending : list line;             (* of the result the consumer is printing *)
  pr_stdout : list string
}.

Definition process_init (todo : list Order) : process := mkProcess server_init (Starting todo) [] [].

Inductive process_step (p : process) : option event -> process -> Prop :=
  | process_banner todo :
      pr_main p = Starting todo ->
      process_step p None
        (mkProcess (pr_server p) (InRun todo) (pr_pending p) (pr_stdout p ++ [server_banner]))
  | process_silent s' :
      server_step (pr_server p) None s' ->
      process_step p None (mkProcess s' (pr_main p) (pr_pending p) (pr_stdout p))
  | process_push o todo s' :
      pr_main p = InRun (o :: todo) -> server_step (pr_server p) (Some (Pushed o)) s' ->
      process_step p (Some (Pushed o)) (mkProcess s' (InRun todo) (pr_pending p) (pr_stdout p))
  | process_farewell :                (* [handler.run] has returned *)
      pr_main p = InRun [] ->
      process_step p None
        (mkProcess (pr_server p) Stopping (pr_pending p) (pr_stdout p ++ [server_farewell]))
  | process_shutdown s' :
      pr_main p = Stopping -> server_step (pr_server p) (Some ShutDown) s' ->
      process_step p (Some ShutDown) (mkProcess s' Joining (pr_pending p) (pr_stdout p))
  | process_pop o s' ls :
      pr_pending p = [] -> server_step (pr_server p) (Some (Popped o)) s' ->
      srv_out s' = srv_out (pr_server p) ++ ls ->
      process_step p (Some (Popped o)) (mkProcess s' (pr_main p) ls (pr_stdout p))
  | process_print l ls :
      pr_pending p = l :: ls ->
      process_step p None (mkProcess (pr_server p) (pr_main p) ls (pr_stdout p ++ [line_text l]))
  | process_drained s' :
      pr_pending p = [] -> server_step (pr_server p) (Some Drained) s' ->
      process_step p (Some Drained) (mkProcess s' (pr_main p) [] (pr_stdout p))
  | process_join :
      pr_main p = Joining -> srv_exited (pr_server p) = true ->
      process_step p None (mkProcess (pr_server p) Returned (pr_pending p) (pr_stdout p)).

(** ** Invariant *)

Definition todo (m : main_pc) : list Order :=
  match m with Starting os | InRun os => os | _ => [] end.

Definition main_texts (m : main_pc) : list string :=
  match m with
  | Starting _ => []
  | InRun _ => [server_banner]
  | _ => [server_banner; server_farewell]
  end.

Definition still_open (m : main_pc) : Prop :=
  match m with Joining | Returned => False | _ => True end.
End process.

(** [c] is [a] and [b], each in its order. *)
Inductive interleave {A} : list A -> list A -> list A -> Prop :=
  | interleave_nil : interleave [] [] []
  | interleave_l a b c x : interleave a b c -> interleave (a ++ [x]) b (c ++ [x])
  | interleave_r a b c x : interleave a b c -> interleave a (b ++ [x]) (c ++ [x]).

Section invariant.
Context {Q : Type} `{OrderQueue Q}.

Record process_inv (os : list Order) (tr : list event) (p : process (Q := Q)) : Prop := {
  pi_trace : trace server_step server_init tr (pr_server p);
  pi_todo : pushed tr ++ todo (pr_main p) = os;
  pi_open : still_open (pr_main p) -> ShutDown ∉ tr;
  pi_quiet : quiet tr;
  pi_text : exists printed, interleave (main_texts (pr_main p)) (line_text <$> printed) (pr_stdout p) /\
              srv_out (pr_server p) = printed ++ pr_pending p;
  pi_exited : srv_exited (pr_server p) = true -> pr_pending p = [];
  pi_joined : pr_main p = Returned -> srv_exited (pr_server p) = true
}.

Lemma process_init_inv os : process_inv os [] (process_init os).
Proof. split; try done; [constructor|set_solver|]. exists []. split; [constructor|done]. Qed.

(** What a server step leaves alone. *)
Lemma server_step_frame (s : server (Q := Q)) l s' :
  server_step s l s' ->
  match l with
  | Some (Popped _) => srv_exited s = false /\ srv_exited s' = false
  | Some Drained => srv_out s' = srv_out s
  | _ => srv_out s' = srv_out s /\ srv_exited s' = srv_exited s
  end.
Proof. by intros []. Qed.

(** The steps that neither touch the queue nor the consumer. *)
Lemma process_local_inv os tr p m' pend' out' :
  process_inv os tr p -> todo m' = todo (pr_main p) -> (still_open m' -> still_open (pr_main p)) ->
  (exists printed, interleave (main_texts m') (line_text <$> printed) out' /\
     srv_out (pr_server p) = printed ++ pend') ->
  (srv_exited (pr_server p) = true -> pend' = []) ->
  (m' = Returned -> srv_exited (pr_server p) = true) ->
  process_inv os tr (mkProcess (pr_server p) m' pend' out').
Proof. intros [Htr Htodo Hopen Hq _ _ _] Ht Ho Htext Hex Hj. split; cbn; try done; [by rewrite Ht|auto]. Qed.

Lemma process_silent_inv os tr p p' :
  process_inv os tr p -> process_step p None p' -> process_inv os tr p'.
Proof.
  intros Hinv Hstep. pose proof Hinv as [Htr Htodo Hopen Hq (printed & Hil & Hout) Hex Hj].
  inversion Hstep as [td Hm|s' Hs| |Hm| | |l ls Hp| |Hm Hx]; subst.
  - apply (process_local_inv _ _ _ _ _ _ Hinv); rewrite ?Hm; try done. exists printed. split; [|done].
    rewrite Hm in Hil. by apply (interleave_l [] _ _ server_banner).
  - destruct (server_step_frame _ _ _ Hs) as [Ho He]. split; cbn; rewrite ?Ho, ?He; try done.
    + by eapply trace_silent.
    + by exists printed.
  - apply (process_local_inv _ _ _ _ _ _ Hinv); rewrite ?Hm; try done. exists printed. split; [|done].
    rewrite Hm in Hil. by apply (interleave_l [server_banner] _ _ server_farewell).
  - apply (process_local_inv _ _ _ _ _ _ Hinv); try done.
    + exists (printed ++ [l]). rewrite fmap_app. split; [by apply interleave_r|].
      by rewrite Hout, Hp, <-app_assoc.
    + intros Hx. rewrite (Hex Hx) in Hp. done.
  - apply (process_local_inv _ _ _ _ _ _ Hinv); rewrite ?Hm; try done. exists printed. by rewrite Hm in Hil.
Qed.

Lemma process_event_inv os tr p e p' :
  process_inv os tr p -> process_step p (Some e) p' -> process_inv os (tr ++ [e]) p'.
Proof.
  intros [Htr Htodo Hopen Hq (printed & Hil & Hout) Hex Hj] Hstep.
  inversion Hstep as [| |o td s' Hm Hs| |s' Hm Hs|o s' ls Hp Hs Ho| |s' Hp Hs|]; subst;
    pose proof (server_step_frame _ _ _ Hs) as Hframe; cbn in Hframe;
    (split; cbn; [by eapply trace_event|rewrite pushed_snoc; unfold pushed at 2; cbn|..]).
  - by rewrite Hm, <-app_assoc.
  - intros _ [Hin|Hin]%elem_of_app; [|set_solver]. by apply Hopen; [rewrite Hm|].
  - apply quiet_open, Hopen. by rewrite Hm.
  - destruct Hframe as [-> _]. exists printed. by rewrite Hm in Hil.
  - destruct Hframe as [_ ->]. exact Hex.
  - done.
  - by rewrite Hm, app_nil_r.
  - done.
  - by apply quiet_snoc.
  - destruct Hframe as [-> _]. exists printed. by rewrite Hm in Hil.
  - destruct Hframe as [_ ->]. exact Hex.
  - done.
  - by rewrite app_nil_r.
  - intros Hso [Hin|Hin]%elem_of_app; [by apply Hopen|set_solver].
  - by apply quiet_snoc.
  - exists printed. rewrite Ho, Hout, Hp, app_nil_r. done.
  - destruct Hframe as [_ ->]. done.
  - intros Hm. destruct Hframe as [Hx _]. rewrite Hj in Hx; done.
  - by rewrite app_nil_r.
  - intros Hso [Hin|Hin]%elem_of_app; [by apply Hopen|set_solver].
  - by apply quiet_snoc.
  - exists printed. by rewrite Hframe, Hout, Hp.
  - done.
  - inversion Hs. done.
Qed.

Lemma process_trace_inv os tr p :
  trace process_step (process_init os) tr p -> process_inv os tr p.
Proof.
  induction 1 as [|tr p1 p2 _ IH Hs|tr p1 e p2 _ IH Hs];
    [apply process_init_inv|by eapply process_silent_inv|by eapply process_event_inv].
Qed.

(** Once [main] has returned. *)
Lemma process_returned os tr p :
  trace process_step (process_init os) tr p -> q_range (length os) -> pr_main p = Returned ->
  exists ls, consume (new_MatchingEngine default_band) os = Ret (srv_engine (pr_server p), ls) /\
    interleave [server_banner; server_farewell] (line_text <$> ls) (pr_stdout p).
Proof.
  intros Htr Hr Hm. destruct (process_trace_inv _ _ _ Htr) as [Hs Htodo _ Hq (printed & Hil & Hout) Hex Hj].
  rewrite Hm in *. cbn in Htodo, Hil. rewrite app_nil_r in Htodo. subst os.
  specialize (Hj eq_refl). rewrite (Hex Hj), app_nil_r in Hout. exists printed. split; [|done].
  rewrite <-Hout. by apply server_equals_sequential.
Qed.
End invariant.

(** ** Scripted runs *)

Inductive process_move (M : Type) :=
  | PrintBanner
  | PrintFarewell
  | PrintLine
  | Join
  | QueueMove (m : M).
Arguments PrintBanner {M}.
Arguments PrintFarewell {M}.
Arguments PrintLine {M}.
Arguments Join {M}.
Arguments QueueMove {M} m.

Section exec.
Context {Q M : Type} `{OrderQueue Q} (q_exec : Q -> M -> option (option event * Q)).

Definition with_queue (s : server (Q := Q)) (q : Q) : server :=
  mkServer q (srv_engine s) (srv_out s) (srv_exited s).

(** A move of the queue, if the thread that makes the call is there. *)
Definition queue_exec (p : process (Q := Q)) (m : M) : option (option event * process (Q := Q)) :=
  let s := pr_server p in
  '(l, q) ← q_exec (srv_queue s) m;
  match l with
  | None => Some (l, mkProcess (with_queue s q) (pr_main p) (pr_pending p) (pr_stdout p))
  | Some (Pushed o) =>
    match pr_main p with
    | InRun (o' :: td) =>
      if decide (o = o') then Some (l, mkProcess (with_queue s q) (InRun td) (pr_pending p) (pr_stdout p)) else None
    | _ => None
    end
  | Some ShutDown =>
    match pr_main p with
    | Stopping => Some (l, mkProcess (with_queue s q) Joining (pr_pending p) (pr_stdout p))
    | _ => None
    end
  | Some (Popped o) =>
    match pr_pending p, srv_exited s, submit_order (srv_engine s) o with
    | [], false, Ret (e', r) =>
      Some (l, mkProcess (mkServer q e' (srv_out s ++ report r) false) (pr_main p) (report r) (pr_stdout p))
    | _, _, _ => None
    end
  | Some Drained =>
    match pr_pending p, srv_exited s with
    | [], false =>
      Some (l, mkProcess (mkServer q (srv_engine s) (srv_out s) true) (pr_main p) [] (pr_stdout p))
    | _, _ => None
    end
  end.

Definition process_exec (p : process (Q := Q)) (mv : process_move M)
    : option (option event * process (Q := Q)) :=
  match mv with
  | PrintBanner =>
    match pr_main p with
    | Starting td => Some (None, mkProcess (pr_server p) (InRun td) (pr_pending p) (pr_stdout p ++ [server_banner]))
    | _ => None
    end
  | PrintFarewell =>
    match pr_main p with
    | InRun [] => Some (None, mkProcess (pr_server p) Stopping (pr_pending p) (pr_stdout p ++ [server_farewell]))
    | _ => None
    end
  | PrintLine =>
    match pr_pending p with
    | l :: ls => Some (None, mkProcess (pr_server p) (pr_main p) ls (pr_stdout p ++ [line_text l]))
    | [] => None
    end
  | Join =>
    match pr_main p, srv_exited (pr_server p) with
    | Joining, true => Some (None, mkProcess (pr_server p) Returned (pr_pending p) (pr_stdout p))
    | _, _ => None
    end
  | QueueMove m => queue_exec p m
  end.

Context (Hsound : forall q m l q', q_exec q m = Some (l, q') -> q_step q l q').

Lemma queue_exec_sound p m l p' : queue_exec p m = Some (l, p') -> process_step p l p'.
Proof using Hsound.
  unfold queue_exec. intros Hx. apply bind_Some in Hx as ([l' q] & Hq & Hx). apply Hsound in Hq.
  destruct l' as [[o|o| |]|].
  - destruct (pr_main p) as [|[|o' td]| | |] eqn:Hm; try done. case_decide; [|done]. simplify_eq.
    eapply process_push; [done|]. by apply server_push.
  - destruct (pr_pending p) eqn:Hp, (srv_exited (pr_server p)) eqn:He; try done.
    destruct (submit_order _ o) as [[e' r]| | |] eqn:Hs; try done. simplify_eq.
    eapply process_pop; [done|by eapply server_pop|done].
  - destruct (pr_pending p) eqn:Hp, (srv_exited (pr_server p)) eqn:He; try done. simplify_eq.
    eapply process_drained; [done|by apply server_drained].
  - destruct (pr_main p) eqn:Hm; try done. simplify_eq. eapply process_shutdown; [done|by apply server_shutdown].
  - simplify_eq. by apply process_silent, server_silent.
Qed.

Lemma process_exec_sound p mv l p' : process_exec p mv = Some (l, p') -> process_step p l p'.
Proof using Hsound.
  destruct mv; cbn [process_exec].
  - destruct (pr_main p) eqn:Hm; intros [= <- <-]. by apply process_banner.
  - destruct (pr_main p) as [|[]| | |] eqn:Hm; intros [= <- <-]. by apply process_farewell.
  - destruct (pr_pending p) eqn:Hp; intros [= <- <-]. by apply process_print.
  - destruct (pr_main p) eqn:Hm, (srv_exited (pr_server p)) eqn:He; intros [= <- <-]. by apply process_join.
  - apply queue_exec_sound.
Qed.

Lemma process_script_trace os ms tr p :
  run_script process_exec (process_init os) ms = Some (tr, p) -> trace process_step (process_init os) tr p.
Proof using Hsound. apply (run_script_trace _ _ _ []); [apply process_exec_sound|constructor]. Qed.
End exec.

(** ** Properties *)

(** C12: the server from its clients' bytes to its exit.  Any clients send bytes
    over any interleaving, batching and fragmentation of their streams, until the
    handler is told to stop.  [handler.run] returns, having pushed each client's
    records in that client's order; and for every queue implementation and every
    schedule of the two threads, when [main] has returned, the engine is the one
    that a single thread submitting those orders would leave, and the output is
    the banner, the farewell and that thread's lines, all of them and in order,
    with only the main thread's two texts placed among them by the schedule. *)
Theorem clients_to_server {Q : Type} `{OrderQueue Q} (listen_fd stop_fd : Z) (fds : list Z)
    (batches : list (list (Z * list (list char)))) :
  listen_fd <> stop_fd -> listen_fd ∉ fds -> stop_fd ∉ fds ->
  Forall (fun ev => ev.1 ∈ fds) (concat batches) ->
  exists h, run listen_fd stop_fd (client_script listen_fd stop_fd fds batches) = Ret h /\
    (forall fd, fd ∈ fds -> pushed_for fd (pushes h) = frames (stream fd (concat batches))) /\
    forall tr p,
      trace process_step (process_init (pushes h).*2) tr p -> q_range (length (pushes h)) ->
      pr_main p = Returned ->
      exists ls, consume (new_MatchingEngine default_band) (pushes h).*2 = Ret (srv_engine (pr_server p), ls) /\
        interleave [server_banner; server_farewell] (line_text <$> ls) (pr_stdout p).
Proof.
  intros Hls Hl Hs Hall.
  destruct (run_streams listen_fd stop_fd fds batches Hls Hl Hs Hall) as (h & Hrun & Hconn & _).
  exists h. split_and!; [exact Hrun|intros fd Hfd; by apply Hconn|].
  intros tr p Htr Hr Hm. eapply process_returned; [done|by rewrite length_fmap|done].
Qed.

(** Two clients, one selling and one buying. *)
Definition sell_wire : WireOrder :=
  mkWireOrder 1 1 1 0 (String.list_ascii_of_string "AAPL" ++ replicate 4 NUL) (d_of_Z 100) 10.
Definition buy_wire : WireOrder :=
  mkWireOrder 2 2 0 0 (String.list_ascii_of_string "AAPL" ++ replicate 4 NUL) (d_of_Z 100) 4.
Definition two_clients : list (list (Z * list (list char))) :=
  [[(7, [encode_wire (replicate 6 NUL) sell_wire])]; [(8, [encode_wire (replicate 6 NUL) buy_wire])]].

(** A schedule in which the consumer prints between the two texts of [main]. *)
Definition two_clients_schedule : list (process_move mutex_move) :=
  [PrintBanner; QueueMove (CallPush 1 (wire_to_order sell_wire)); QueueMove (Run 1); QueueMove (CallPop 0);
   QueueMove (Run 1); QueueMove (Run 1); QueueMove (Run 1);
   QueueMove (CallPush 1 (wire_to_order buy_wire)); QueueMove (Run 0); QueueMove (Run 0); QueueMove (Run 0);
   QueueMove (Run 0); QueueMove (Run 1); QueueMove (Run 1); QueueMove (Run 1); QueueMove (Run 1);
   QueueMove (CallPop 0); QueueMove (Run 0); QueueMove (Run 0); QueueMove (Run 0); QueueMove (Run 0);
   PrintFarewell; PrintLine; QueueMove (CallShutdown 1); QueueMove (Run 1); QueueMove (Run 1);
   QueueMove (CallPop 0); QueueMove (Run 0); QueueMove (Run 0); QueueMove (Run 0); Join].

Lemma clients_to_server_witness :
  exists h, run 3 4 (client_script 3 4 [7; 8] two_clients) = Ret h /\
    (forall fd, fd ∈ [7; 8] -> pushed_for fd (pushes h) = frames (stream fd (concat two_clients))) /\
    forall tr (p : process (Q := MutexOrderQueue)),
      trace (process_step (H := mutex_order_queue 2)) (process_init (H := mutex_order_queue 2) (pushes h).*2) tr p ->
      True -> pr_main p = Returned ->
      exists ls, consume (new_MatchingEngine default_band) (pushes h).*2 = Ret (srv_engine (pr_server p), ls) /\
        interleave [server_banner; server_farewell] (line_text <$> ls) (pr_stdout p).
Proof.
  apply (clients_to_server (H := mutex_order_queue 2) 3 4 [7; 8] two_clients).
  - discriminate.
  - apply (bool_decide_unpack _). exact I.
  - apply (bool_decide_unpack _). exact I.
  - apply (bool_decide_unpack _). vm_compute. exact I.
Defined.

(** Such a run, with what it prints. *)
Example two_clients_run :
  exists tr p, trace (process_step (H := mutex_order_queue 2))
                 (process_init (H := mutex_order_queue 2) [wire_to_order sell_wire; wire_to_order buy_wire]) tr p /\
    pr_main p = Returned /\
    pr_stdout p = [server_banner; server_farewell; "TRADE buy=2 sell=1 price=100.00 qty=4" +:+ newline].
Proof.
  destruct (run_script (process_exec mutex_exec)
              (process_init (H := mutex_order_queue 2) [wire_to_order sell_wire; wire_to_order buy_wire])
              two_clients_schedule) as [[tr p]|] eqn:E; [|by vm_compute in E].
  exists tr, p. split; [by eapply process_script_trace, E; apply mutex_exec_sound|].
  vm_compute in E. injection E as <- <-. done.
Qed.
