(* ===== verification/Benchmark.v ===== *)
(** * The queue benchmark ([benchmarks/benchmark_queue.cpp])

    The benchmark drives a queue with one producer and one consumer thread, stamps
    each order before it is pushed and after it is popped, and reports percentiles
    of the differences, as medians over several runs.

    Section [threads] models the two threads of [run_once] over any implementation
    of the queue interface, every clock reading, with the store of its time stamp, a
    step of its own.  The rest of [run_once] and [run_repeated] are functions on the
    time stamps the threads leave.  The random draws of [generate_orders] are its
    arguments.  Thread pinning, the description of the machine and the printed table
    are left out. *)

From stdpp Require Import sorting.
From Stdlib Require Import SpecFloat.
From S2P Require Import Prelude Double Rounding Order PriceCollar OrderBook MatchingEngine Refinement Session OrderQueue MutexQueue LockFreeQueue Server.

(** ** The workload *)

(** [std::round]: to the nearest integer, halves away from zero. *)
Definition dround (x : double) : double :=
  match x with
  | S754_finite s m e =>
    if 0 <=? e then x
    else binary_normalize 53 1024 (cond_Zopp s ((2 * Zpos m + 2 ^ (- e)) / 2 ^ (1 - e))) 0 s
  | _ => x
  end.

(** What the four distributions return for one order. *)
Record draw := mkDraw {
  draw_client : Z;
  draw_side : Z;
  draw_price : double;
  draw_qty : Z
}.

(** The ranges the distributions are constructed with. *)
Definition draw_ok (d : draw) : Prop :=
  1 <= draw_client d <= 1000 /\ 0 <= draw_side d <= 1 /\
  dfin (draw_price d) /\ 90 * pow2 0 <= dval (draw_price d) <= 110 * pow2 0 /\
  1 <= draw_qty d <= 100.

#[global] Instance draw_ok_dec d : Decision (draw_ok d).
Proof. unfold draw_ok. apply _. Defined.

(** The body of the loop, at index [i], on a default-constructed order. *)
Definition generate_order (i : nat) (d : draw) : Order :=
  mkOrder (wrap64 (Z.of_nat i + 1)) (draw_client d)
    (if draw_side d =? 0 then SELL else BUY) LIMIT (symbol default_order)
    (ddiv (dround (dmul (draw_price d) (d_of_Z 100))) (d_of_Z 100))
    (draw_qty d) (draw_qty d) 0.

Definition generate_orders (draws : list draw) : list Order := imap generate_order draws.

(** ** The threads of [run_once] *)

(** Where the producer is in its loop. *)
Inductive producer_pc :=
  | Stamping                  (* at the loop test *)
  | Pushing                   (* [t_push[i]] stored, before [queue.push] *)
  | Closed.                   (* after [queue.shutdown] *)

(** Where the consumer is in its loop. *)
Inductive consumer_pc :=
  | Popping
  | Received (o : Order)      (* [pop] has returned, before [t_pop[idx]] is stored *)
  | Stamped (o : Order)       (* before [engine.submit_order] *)
  | Left                      (* [pop] has returned false *)
  | Overrun.                  (* [t_pop[idx]] was stored out of bounds *)

Section threads.
Context {Q : Type} `{OrderQueue Q}.

Record bench := mkBench {
  b_queue : Q;
  b_engine : MatchingEngine;
  b_now : Z;                  (* [Clock::now()] *)
  b_prod : producer_pc;
  b_i : nat;
  b_cons : consumer_pc;
  b_idx : nat;
  t_push : list Z;
  t_pop : list Z
}.

(** [N] value-initialised time points in each vector, [wall_start] being [t0]. *)
Definition bench_init (orders : list Order) (t0 : Z) : bench :=
  mkBench q_init (new_MatchingEngine default_band) t0 Stamping 0 Popping 0
    (replicate (length orders) 0) (replicate (length orders) 0).

(** The updates the steps make. *)
Definition with_bench_queue (b : bench) (q : Q) : bench :=
  mkBench q (b_engine b) (b_now b) (b_prod b) (b_i b) (b_cons b) (b_idx b) (t_push b) (t_pop b).
Definition with_now (b : bench) (t : Z) : bench :=
  mkBench (b_queue b) (b_engine b) t (b_prod b) (b_i b) (b_cons b) (b_idx b) (t_push b) (t_pop b).
Definition with_prod (b : bench) (p : producer_pc) (i : nat) (ts : list Z) : bench :=
  mkBench (b_queue b) (b_engine b) (b_now b) p i (b_cons b) (b_idx b) ts (t_pop b).
Definition with_cons (b : bench) (c : consumer_pc) (idx : nat) (ts : list Z) : bench :=
  mkBench (b_queue b) (b_engine b) (b_now b) (b_prod b) (b_i b) c idx (t_push b) ts.
Definition with_engine (b : bench) (e : MatchingEngine) : bench :=
  mkBench (b_queue b) e (b_now b) (b_prod b) (b_i b) (b_cons b) (b_idx b) (t_push b) (t_pop b).

Inductive bench_step (orders : list Order) (b : bench) : option event -> bench -> Prop :=
  | bench_clock t :              (* the steady clock never goes back *)
      b_now b <= t -> bench_step orders b None (with_now b t)
  | bench_silent q' :
      q_step (b_queue b) None q' -> bench_step orders b None (with_bench_queue b q')
  | bench_stamp_push :           (* [i < N]: [t_push[i] = Clock::now()] *)
      b_prod b = Stamping -> (b_i b < length orders)%nat ->
      bench_step orders b None (with_prod b Pushing (b_i b) (<[b_i b := b_now b]> (t_push b)))
  | bench_push o q' :            (* [queue.push(orders[i])], [++i] *)
      b_prod b = Pushing -> orders !! b_i b = Some o -> q_step (b_queue b) (Some (Pushed o)) q' ->
      bench_step orders b (Some (Pushed o))
        (with_prod (with_bench_queue b q') Stamping (S (b_i b)) (t_push b))
  | bench_shutdown q' :
      b_prod b = Stamping -> (length orders <= b_i b)%nat -> q_step (b_queue b) (Some ShutDown) q' ->
      bench_step orders b (Some ShutDown) (with_prod (with_bench_queue b q') Closed (b_i b) (t_push b))
  | bench_pop o q' :
      b_cons b = Popping -> q_step (b_queue b) (Some (Popped o)) q' ->
      bench_step orders b (Some (Popped o))
        (with_cons (with_bench_queue b q') (Received o) (b_idx b) (t_pop b))
  | bench_stamp_pop o :          (* [t_pop[idx] = Clock::now()] *)
      b_cons b = Received o -> (b_idx b < length (t_pop b))%nat ->
      bench_step orders b None
        (with_cons b (Stamped o) (b_idx b) (<[b_idx b := b_now b]> (t_pop b)))
  | bench_overrun o :
      b_cons b = Received o -> (length (t_pop b) <= b_idx b)%nat ->
      bench_step orders b None (with_cons b Overrun (b_idx b) (t_pop b))
  | bench_submit o e' r :        (* [engine.submit_order(std::move(o))], [++idx] *)
      b_cons b = Stamped o -> submit_order (b_engine b) o = Ret (e', r) ->
      bench_step orders b None (with_cons (with_engine b e') Popping (S (b_idx b)) (t_pop b))
  | bench_drained q' :
      b_cons b = Popping -> q_step (b_queue b) (Some Drained) q' ->
      bench_step orders b (Some Drained)
        (with_cons (with_bench_queue b q') Left (b_idx b) (t_pop b)).

(** [producer.join(); consumer.join();] have returned. *)
Definition joined (b : bench) : Prop := b_prod b = Closed /\ b_cons b = Left.

(** *** Invariant *)

(** How many orders the producer has stamped, the consumer has taken, and the
    consumer has stamped. *)
Definition n_stamped (b : bench) : nat :=
  match b_prod b with Pushing => S (b_i b) | _ => b_i b end.
Definition n_taken (b : bench) : nat :=
  match b_cons b with Received _ | Stamped _ => S (b_idx b) | _ => b_idx b end.
Definition n_popped (b : bench) : nat :=
  match b_cons b with Stamped _ => S (b_idx b) | _ => b_idx b end.

Record queue_inv (tr : list event) (b : bench) (f : fifo) : Prop := {
  qi_run : fifo_run fifo_empty tr = Some f;
  qi_sim : q_sim (b_queue b) f;
  qi_left : b_cons b = Left -> closed f = true /\ (length (items f) <= late f)%nat
}.

Record producer_inv (orders : list Order) (t0 : Z) (tr : list event) (b : bench) : Prop := {
  pri_now : t0 <= b_now b;
  pri_len : length (t_push b) = length orders;
  pri_i : (n_stamped b <= length orders)%nat;
  pri_pushed : pushed tr = take (b_i b) orders;
  pri_quiet : quiet tr;
  pri_pc : match b_prod b with Closed => b_i b = length orders | _ => ShutDown ∉ tr end;
  pri_stamps : forall k, (k < n_stamped b)%nat ->
    exists t, t_push b !! k = Some t /\ t0 <= t <= b_now b
}.

Record consumer_inv (orders : list Order) (tr : list event) (b : bench) : Prop := {
  ci_len : length (t_pop b) = length orders;
  ci_taken : (n_taken b <= b_i b)%nat;
  ci_popped : popped tr = take (n_taken b) orders;
  ci_held : forall o, b_cons b = Received o \/ b_cons b = Stamped o -> orders !! b_idx b = Some o;
  ci_inside : b_cons b <> Overrun;
  ci_engine : exists ls, consume (new_MatchingEngine default_band) (take (b_idx b) orders) = Ret (b_engine b, ls);
  ci_stamps : forall k, (k < n_popped b)%nat ->
    exists t t', t_push b !! k = Some t /\ t_pop b !! k = Some t' /\ t <= t' <= b_now b
}.
End threads.

(** *** Preservation *)

Section preservation.
Context {Q : Type} `{OrderQueue Q} (orders : list Order) (t0 : Z).
Implicit Types b : bench (Q := Q).

Lemma bench_init_inv :
  queue_inv [] (bench_init orders t0) fifo_empty /\ producer_inv orders t0 [] (bench_init orders t0) /\
  consumer_inv orders [] (bench_init orders t0).
Proof.
  split_and!; split; cbn; rewrite ?length_replicate; try done; try lia; try set_solver.
  - apply q_init_sim.
Qed.

(** A step that makes no call on the queue keeps the queue's invariant. *)
Lemma queue_inv_local tr b b' f :
  queue_inv tr b f -> b_queue b' = b_queue b -> (b_cons b' = Left -> b_cons b = Left) -> queue_inv tr b' f.
Proof. intros [Hrun Hsim Hl] Hq Hc. split; [done|by rewrite Hq|auto]. Qed.

(** What the queue makes of the step's event. *)
Lemma bench_queue_inv tr b l b' f :
  bench_step orders b l b' -> queue_inv tr b f -> q_range (length (pushed (tr ++ option_list l))) ->
  exists f', queue_inv (tr ++ option_list l) b' f'.
Proof.
  intros Hstep Hinv Hr. pose proof Hinv as [Hrun Hsim Hl].
  destruct (fifo_run_items _ _ Hrun) as [_ Htot].
  assert (forall e q', q_step (b_queue b) (Some e) q' -> q_range (length (pushed (tr ++ [e]))) ->
    exists f', fifo_step f e = Some f' /\ fifo_run fifo_empty (tr ++ [e]) = Some f' /\ q_sim q' f') as Hev.
  { intros e q' Hq He. rewrite pushed_snoc, length_app, <-Htot in He.
    destruct (q_event _ _ _ _ Hsim He Hq) as (f' & Hf & Hs). exists f'. by rewrite fifo_run_snoc, Hrun. }
  destruct Hstep as [|q' Hq| |o q' Hp Ho Hq|q' Hp Hi Hq|o q' Hc Hq| | | |q' Hc Hq]; cbn in Hr |- *;
    try (destruct (Hev _ _ Hq Hr) as (f' & Hf & Hrun' & Hsim'); exists f'; split; cbn; try done; intros Hx);
    rewrite ?app_nil_r in *; try (exists f; apply (queue_inv_local tr b); [done|done|cbn; congruence]).
  - exists f. rewrite <-Htot in Hr. split; cbn; [done|by eapply q_silent|done].
  - destruct (Hl Hx) as [Hcl Hlen]. injection Hf as <-. cbn. rewrite Hcl, length_app. cbn. split; [done|lia].
  - destruct (Hl Hx) as [Hcl Hlen]. by injection Hf as <-.
  - cbn in Hf. destruct (closed f) eqn:Hcl; [|done].
    destruct (Nat.leb_spec (length (items f)) (late f)); [|done]. by injection Hf as <-.
Qed.
(** Steps that leave the producer where it is. *)
Lemma producer_inv_frame tr b l b' :
  producer_inv orders t0 tr b -> b_prod b' = b_prod b -> b_i b' = b_i b -> t_push b' = t_push b ->
  b_now b <= b_now b' -> pushed (option_list l) = [] -> l <> Some ShutDown ->
  producer_inv orders t0 (tr ++ option_list l) b'.
Proof.
  intros [Hnow Hlen Hi Hp Hq Hpc Hst] Ep Ei Et Hle Hl Hns. unfold n_stamped in *.
  split; unfold n_stamped; rewrite ?Ep, ?Ei, ?Et; try done.
  - lia.
  - unfold pushed in *. rewrite omap_app, Hl, app_nil_r. done.
  - destruct l as [e|]; cbn; [by apply quiet_snoc|by rewrite app_nil_r].
  - destruct (b_prod b); [| |done]; rewrite elem_of_app; intros [|Hin]; try done;
      (destruct l as [e|]; cbn in Hin; set_solver).
  - intros k Hk. destruct (Hst k Hk) as (t & Ht & Hb). exists t. split; [done|lia].
Qed.

Lemma producer_step_inv tr b l b' :
  bench_step orders b l b' -> producer_inv orders t0 tr b ->
  producer_inv orders t0 (tr ++ option_list l) b'.
Proof.
  intros Hstep Hinv. pose proof Hinv as [Hnow Hlen Hi Hp Hq Hpc Hst]. unfold n_stamped in *.
  destruct Hstep as [t Ht|q' Hs|Epc Hlt|o q' Epc Ho Hs|q' Epc Hge Hs|o q' Ec Hs|o Ec Hlt|o Ec Hge|o e' r Ec Hsub|q' Ec Hs];
    try (apply (producer_inv_frame _ b _ _ Hinv); (done || cbn; lia));
    rewrite Epc in *; split; unfold n_stamped; cbn; rewrite ?app_nil_r, ?pushed_snoc, ?length_insert; try done.
  - intros k Hk. destruct (decide (k = b_i b)) as [->|Hne].
    + exists (b_now b). rewrite list_lookup_insert_eq by lia. done.
    + rewrite list_lookup_insert_ne by done. apply Hst. lia.
  - rewrite Hp. unfold pushed. cbn. by rewrite (take_S_r _ _ o).
  - by apply quiet_open.
  - rewrite elem_of_app. set_solver.
  - by rewrite app_nil_r.
  - by apply quiet_snoc.
  - lia.
Qed.

(** Steps that leave the consumer where it is. *)
Lemma consumer_inv_frame tr b l b' :
  consumer_inv orders tr b -> b_cons b' = b_cons b -> b_idx b' = b_idx b -> t_pop b' = t_pop b ->
  b_engine b' = b_engine b -> (b_i b <= b_i b')%nat -> b_now b <= b_now b' ->
  (forall k, (k < b_i b)%nat -> t_push b' !! k = t_push b !! k) -> popped (option_list l) = [] ->
  consumer_inv orders (tr ++ option_list l) b'.
Proof.
  intros [Hlen Htk Hp Hh Hin He Hst] Ec Ex Et Ee Hi Hle Hsame Hl. unfold n_taken, n_popped in *.
  split; unfold n_taken, n_popped; rewrite ?Ec, ?Ex, ?Et, ?Ee; try done.
  - lia.
  - unfold popped in *. rewrite omap_app, Hl, app_nil_r. done.
  - intros k Hk. destruct (Hst k Hk) as (t & t' & Ht & Ht' & Hb). exists t, t'.
    rewrite Hsame by (destruct (b_cons b); lia). split_and!; [done|done|lia|lia].
Qed.

(** The consumer only takes orders that were pushed, in their order. *)
Lemma popped_next tr b o f :
  queue_inv (tr ++ [Popped o]) b f -> pushed tr = take (b_i b) orders ->
  popped tr = take (b_idx b) orders -> (b_idx b <= b_i b)%nat -> (b_i b <= length orders)%nat ->
  orders !! b_idx b = Some o /\ (S (b_idx b) <= b_i b)%nat.
Proof.
  intros [Hrun _ _] Hpush Hpop Hle Hi. apply fifo_run_items in Hrun as [Heq _].
  rewrite pushed_snoc, popped_snoc, Hpush, Hpop in Heq. unfold pushed, popped in Heq. cbn in Heq.
  rewrite app_nil_r, <-app_assoc in Heq. cbn in Heq.
  assert (take (b_i b) orders !! b_idx b = Some o) as Ho.
  { rewrite Heq, lookup_app_r; rewrite length_take, Nat.min_l by lia; [by rewrite Nat.sub_diag|done]. }
  apply lookup_take_Some in Ho as [Ho Hlt]. split; [done|lia].
Qed.

Lemma consumer_step_inv tr b l b' f :
  bench_step orders b l b' -> producer_inv orders t0 tr b -> consumer_inv orders tr b ->
  queue_inv (tr ++ option_list l) b' f -> consumer_inv orders (tr ++ option_list l) b'.
Proof.
  intros Hstep Hprod Hinv Hf. pose proof Hinv as [Hlen Htk Hp Hh Hin He Hst].
  assert (b_i b <= length orders)%nat as Hile.
  { pose proof (pri_i _ _ _ _ Hprod). unfold n_stamped in *. destruct (b_prod b); lia. }
  destruct Hstep as [t Ht|q' Hs|Epc Hlt|o q' Epc Ho Hs|q' Epc Hge Hs|o q' Ec Hs|o Ec Hlt|o Ec Hge|o e' r Ec Hsub|q' Ec Hs];
    try (apply (consumer_inv_frame _ b _ _ Hinv); (done || cbn; lia));
    unfold n_taken, n_popped in *.
  - apply (consumer_inv_frame _ b _ _ Hinv); try done. cbn. intros k Hk. apply list_lookup_insert_ne. lia.
  - rewrite Ec in *. cbn in Hf |- *.
    destruct (popped_next tr _ o f Hf (pri_pushed _ _ _ _ Hprod) Hp Htk Hile) as [Ho Hlt]. cbn in Ho, Hlt.
    split; unfold n_taken, n_popped; cbn; try done.
    + rewrite popped_snoc, Hp. unfold popped. cbn. by rewrite (take_S_r _ _ o).
    + intros o' [[= <-]|[=]]. done.
  - rewrite Ec in *. cbn. rewrite app_nil_r.
    split; unfold n_taken, n_popped; cbn; rewrite ?length_insert; try done.
    + intros o' [[=]|[= <-]]. apply Hh. by left.
    + destruct (pri_stamps _ _ _ _ Hprod (b_idx b)) as (t & Ht & Hb); [unfold n_stamped; destruct (b_prod b); lia|].
      intros k Hk. destruct (decide (k = b_idx b)) as [->|Hne].
      * exists t, (b_now b). rewrite list_lookup_insert_eq by lia. split_and!; [done|done|lia|lia].
      * rewrite list_lookup_insert_ne by done. apply Hst. lia.
  - rewrite Ec in *. pose proof (lookup_lt_Some _ _ _ (Hh o (or_introl eq_refl))). lia.
  - rewrite Ec in *. destruct He as [ls He]. cbn. rewrite app_nil_r.
    split; unfold n_taken, n_popped; cbn; try done; [naive_solver|].
    exists (ls ++ report r). rewrite (take_S_r _ _ o) by (apply Hh; by right). by eapply consume_snoc.
  - rewrite Ec in *. cbn. split; unfold n_taken, n_popped; cbn; try done; [|naive_solver].
    rewrite popped_snoc. unfold popped at 2. cbn. by rewrite app_nil_r.
Qed.

Lemma bench_trace_inv tr b :
  trace (bench_step orders) (bench_init orders t0) tr b -> q_range (length orders) ->
  exists f, queue_inv tr b f /\ producer_inv orders t0 tr b /\ consumer_inv orders tr b.
Proof.
  intros Htr Hr.
  assert (forall tr b l b' f, bench_step orders b l b' ->
    queue_inv tr b f /\ producer_inv orders t0 tr b /\ consumer_inv orders tr b ->
    exists f', queue_inv (tr ++ option_list l) b' f' /\ producer_inv orders t0 (tr ++ option_list l) b' /\
      consumer_inv orders (tr ++ option_list l) b') as Hstep.
  { intros tr1 b1 l b2 f Hs (Hq & Hp & Hc). pose proof (producer_step_inv _ _ _ _ Hs Hp) as Hp'.
    destruct (bench_queue_inv _ _ _ _ _ Hs Hq) as (f' & Hq').
    { eapply q_range_down, Hr. rewrite (pri_pushed _ _ _ _ Hp'), length_take. lia. }
    exists f'. split_and!; [done|done|]. by eapply consumer_step_inv. }
  induction Htr as [|tr b1 b2 _ IH Hs|tr b1 e b2 _ IH Hs].
  - exists fifo_empty. apply bench_init_inv.
  - destruct IH as (f & Hinv). destruct (Hstep _ _ _ _ _ Hs Hinv) as (f' & Hinv'). cbn in Hinv'.
    rewrite app_nil_r in Hinv'. by exists f'.
  - destruct IH as (f & Hinv). exact (Hstep _ _ _ _ _ Hs Hinv).
Qed.

(** The order held by the consumer can be submitted. *)
Lemma bench_submit_returns tr b o :
  Forall admissible orders -> consumer_inv orders tr b -> b_cons b = Stamped o ->
  returns (submit_order (b_engine b) o).
Proof.
  intros Hadm Hc Ho. destruct (ci_engine _ _ _ Hc) as [ls He].
  destruct (consume_returns (take (b_idx b) orders)) as (e & ls' & He' & Hok); [by apply Forall_take|].
  rewrite He in He'. simplify_eq.
  destruct (submit_engine_ok _ o Hok) as (e' & r & Hs & _); [|by eexists].
  eapply (Forall_lookup_1 _ _ _ _ Hadm), (ci_held _ _ _ Hc). by right.
Qed.

(** Both threads joined: everything was pushed and popped. *)
Lemma joined_complete tr b f :
  queue_inv tr b f -> producer_inv orders t0 tr b -> consumer_inv orders tr b ->
  b_prod b = Closed -> b_cons b = Left -> b_i b = length orders /\ b_idx b = length orders.
Proof.
  intros [Hrun _ Hl] Hp Hc Ep Ec. destruct (Hl Ec) as [_ Hlate].
  rewrite (fifo_run_late _ _ _ Hrun (pri_quiet _ _ _ _ Hp)) in Hlate by done.
  pose proof (pri_pc _ _ _ _ Hp) as Hi. rewrite Ep in Hi. split; [done|].
  pose proof (ci_taken _ _ _ Hc) as Hle. pose proof (ci_popped _ _ _ Hc) as Hpop.
  unfold n_taken in *. rewrite Ec in Hle, Hpop.
  destruct (fifo_run_items _ _ Hrun) as [Heq _]. destruct (items f); [|simpl in Hlate; lia].
  apply (f_equal length) in Heq.
  rewrite (pri_pushed _ _ _ _ Hp), app_nil_r, Hpop, !length_take in Heq. lia.
Qed.
End preservation.

(** ** The rest of [run_once] *)

(** [std::sort]: without a NaN the comparison is a strict weak order, and equal
    latencies are the same double. *)
Definition dle (x y : double) : Prop := dlt y x = false.

#[global] Instance dle_dec x y : Decision (dle x y).
Proof. unfold dle. apply _. Defined.

Definition sort (l : list double) : outcome (list double) :=
  if decide (Forall num l) then Ret (merge_sort dle l) else Undef.

(** [static_cast<size_t>] of a double: towards zero, undefined out of range. *)
Definition d_to_size (x : double) : outcome Z :=
  match x with
  | S754_zero _ => Ret 0
  | S754_finite s m e =>
    let n := cond_Zopp s (if 0 <=? e then Zpos m * 2 ^ e else Zpos m / 2 ^ (- e)) in
    if decide (u64 n) then Ret n else Undef
  | _ => Undef
  end.

(** [v[i]]: an index out of range is undefined. *)
Definition at_index (v : list double) (i : Z) : outcome double :=
  if decide (0 <= i < Z.of_nat (length v)) then
    match v !! Z.to_nat i with Some x => Ret x | None => Undef end
  else Undef.

(** [pct]. *)
Definition pct (latencies : list double) (p : double) : outcome double :=
  idx ← d_to_size (dmul (ddiv p (d_of_Z 100)) (d_of_Z (Z.of_nat (length latencies) -ᵤ 1)));
  at_index latencies idx.

(** The literal [99.9]. *)
Definition p999 : double := ddiv (d_of_Z 999) (d_of_Z 10).

(** [max_size()] of a vector of doubles. *)
Definition max_doubles : Z := 2 ^ 60 - 1.

(** The loop from [warmup] on: the differences of the time stamps, in nanoseconds. *)
Definition measured (warmup : Z) (t_push t_pop : list Z) : list double :=
  drop (Z.to_nat warmup) (zip_with (fun pop push => d_of_Z (pop - push)) t_pop t_push).

Definition latencies_of (warmup : Z) (t_push t_pop : list Z) : outcome (list double) :=
  if max_doubles <? Z.of_nat (length t_push) -ᵤ warmup then Throw "vector::reserve"
  else Ret (measured warmup t_push t_pop).

Record BenchResult := mkBenchResult {
  throughput_mops : double;
  p50_ns : double;
  p99_ns : double;
  p999_ns : double;
  max_ns : double;
  r_spin_count : Z
}.

(** From [auto wall_end = Clock::now()] on, on the vectors the threads have filled. *)
Definition summarise (warmup wall_start wall_end : Z) (t_push t_pop : list Z) (spins : Z)
    : outcome BenchResult :=
  let wall_secs := ddiv (d_of_Z (wall_end - wall_start)) (d_of_Z (10 ^ 9)) in
  unsorted ← latencies_of warmup t_push t_pop;
  latencies ← sort unsorted;
  p50 ← pct latencies (d_of_Z 50);
  p99 ← pct latencies (d_of_Z 99);
  p99_9 ← pct latencies p999;
  max ← at_index latencies (Z.of_nat (length latencies) - 1);
  Ret (mkBenchResult
    (ddiv (ddiv (d_of_Z (Z.of_nat (length t_push))) wall_secs) (d_of_Z (10 ^ 6)))
    p50 p99 p99_9 max spins).

(** [if constexpr (std::is_same_v<QueueT, LockFreeOrderQueue>)]: what a queue type
    reports as its spin count. *)
Class SpinCount (Q : Type) := spins_of : Q -> Z.
#[global] Instance lock_free_spins : SpinCount LockFreeOrderQueue := spin_count.
#[global] Instance mutex_spins : SpinCount MutexOrderQueue := fun _ => 0.

(** What [run_once] returns when the threads have left the state [b]. *)
Definition run_once {Q : Type} `{SpinCount Q} (warmup wall_start : Z) (b : bench (Q := Q)) : outcome BenchResult :=
  summarise warmup wall_start (b_now b) (t_push b) (t_pop b) (spins_of (b_queue b)).

(** ** [run_repeated] *)

Definition median_of (accessor : BenchResult -> double) (results : list BenchResult) : outcome double :=
  vals ← sort (accessor <$> results);
  at_index vals (Z.of_nat (length vals) / 2).

(** The medians over the results of the runs. *)
Definition run_repeated (results : list BenchResult) : outcome BenchResult :=
  throughput ← median_of throughput_mops results;
  p50 ← median_of p50_ns results;
  p99 ← median_of p99_ns results;
  p99_9 ← median_of p999_ns results;
  max ← median_of max_ns results;
  spins ← median_of (fun r => d_of_Z (r_spin_count r)) results;
  spin_count ← d_to_size spins;
  Ret (mkBenchResult throughput p50 p99 p99_9 max spin_count).

Lemma at_index_Some v i x : 0 <= i -> v !! Z.to_nat i = Some x -> at_index v i = Ret x.
Proof.
  intros Hi Hx. pose proof (lookup_lt_Some _ _ _ Hx). unfold at_index.
  by rewrite decide_True, Hx by lia.
Qed.

(** ** Sorted lists of doubles *)

#[global] Instance dle_total : Total dle.
Proof.
  intros x y. unfold dle. destruct (dlt y x) eqn:E; [right|by left]. by apply dlt_asym.
Qed.

Lemma dle_trans x y z : num x -> num y -> num z -> dle x y -> dle y z -> dle x z.
Proof. unfold dle. intros. by apply (dlt_incomp_l z y x). Qed.

Lemma dle_refl x : dle x x.
Proof. apply dlt_irrefl. Qed.

(** What [sort] returns. *)
Lemma sort_returns l :
  Forall num l -> exists l', sort l = Ret l' /\ l' ≡ₚ l /\ Sorted dle l' /\ Forall num l'.
Proof.
  intros Hl. unfold sort. rewrite decide_True by done. exists (merge_sort dle l).
  pose proof (merge_sort_Permutation dle l) as Hp.
  split_and!; [done|done|apply Sorted_merge_sort, _|by rewrite Hp].
Qed.

Lemma sorted_head x l :
  Forall num (x :: l) -> Sorted dle (x :: l) -> Forall (dle x) l.
Proof.
  revert x. induction l as [|y l IH]; intros x Hn Hs; [constructor|].
  apply Sorted_inv in Hs as [Hs Hx]. inversion Hx as [|? ? Hxy]; subst.
  apply Forall_cons in Hn as [Hnx Hn]. constructor; [done|].
  apply Forall_cons in Hn as [Hny Hnl]. pose proof (IH y (Forall_cons_2 _ _ _ Hny Hnl) Hs) as Hy.
  eapply Forall_impl; [exact (proj2 (Forall_and _ _) (conj Hy Hnl))|]. intros z [Hz Hnz]. by apply (dle_trans x y z).
Qed.

Lemma sorted_lookup l i j x y :
  Forall num l -> Sorted dle l -> (i <= j)%nat -> l !! i = Some x -> l !! j = Some y -> dle x y.
Proof.
  revert i j. induction l as [|z l IH]; intros i j Hn Hs Hij Hi Hj; [done|].
  pose proof (sorted_head _ _ Hn Hs) as Hh. apply Forall_cons in Hn as [_ Hn]. apply Sorted_inv in Hs as [Hs _].
  destruct i as [|i], j as [|j]; simpl in Hi, Hj; simplify_eq; [apply dle_refl| |lia|].
  - by eapply (Forall_lookup_1 _ _ _ _ Hh).
  - apply (IH i j); (done || lia).
Qed.

(** ** Percentiles *)

Lemma d_to_size_spec x :
  dfin x -> 0 <= dval x < modulus64 * pow2 0 -> d_to_size x = Ret (dval x / pow2 0).
Proof.
  pose proof (pow2_pos 0 ltac:(lia)) as H0.
  destruct x as [s|s| |s m e]; try done; intros Hx Hv.
  pose proof (valid_finite _ _ _ Hx) as He. pose proof (pow2_pos e ltac:(lia)) as Hpe.
  cbn [dval d_to_size] in *. destruct s; cbn [cond_Zopp] in *; [lia|].
  assert ((if 0 <=? e then Zpos m * 2 ^ e else Zpos m / 2 ^ (- e)) = Zpos m * pow2 e / pow2 0) as Heq.
  { case_match eqn:Hle; zbool.
    - rewrite (pow2_split 0 e) by lia. rewrite Z.sub_0_r, Z.mul_assoc. by rewrite Z.div_mul by lia.
    - rewrite (pow2_split e 0) by lia. change (0 - e) with (- e). rewrite Z.div_mul_cancel_r; [done| |lia].
      apply Z.pow_nonzero; lia. }
  rewrite Heq, decide_True; [done|]. split; [apply Z.div_pos; lia|]. apply Z.div_lt_upper_bound; lia.
Qed.

(** The product of a fraction [a] with [n], compared with [lo / 2 ^ k] and
    [hi / 2 ^ k] of [n]. *)
Lemma fraction_between a n k lo hi :
  dfin a -> 0 <= k <= 7 -> 0 <= lo <= 2 ^ k -> 0 <= hi <= 2 ^ k -> 0 <= n < 2 ^ 46 ->
  lo * pow2 (- k) <= dval a <= hi * pow2 (- k) ->
  dfin (dmul a (d_of_Z n)) /\
  n * lo * pow2 (- k) <= dval (dmul a (d_of_Z n)) <= n * hi * pow2 (- k).
Proof.
  intros Ha Hk Hlo Hhi Hn Hb. pose proof (pow2_pos 0 ltac:(lia)) as H0.
  destruct (d_of_Z_exact n) as [Hd Hv]; [lia|].
  destruct (dmul_near a (d_of_Z n) Ha Hd) as (v & Hmul & Hnear). rewrite Hv in Hmul.
  assert (v = n * dval a) as -> by nia.
  assert (2 ^ k <= 2 ^ 7) by (apply Z.pow_le_mono_r; lia).
  destruct (dyadic_double (n * lo) (- k)) as (zl & Hzl & El); [nia|lia|].
  destruct (dyadic_double (n * hi) (- k)) as (zh & Hzh & Eh); [nia|lia|].
  rewrite <-El, <-Eh. apply (near_between (n * dval a)); [done..|]. rewrite El, Eh. nia.
Qed.

(** The three fractions of the report: one half, between one half and 127/128,
    and between 127/128 and one. *)
Lemma half_fraction : dfin (ddiv (d_of_Z 50) (d_of_Z 100)) /\
  64 * pow2 (-7) <= dval (ddiv (d_of_Z 50) (d_of_Z 100)) <= 64 * pow2 (-7).
Proof. split; [|split]; vm_compute; done. Qed.
Lemma p99_fraction : dfin (ddiv (d_of_Z 99) (d_of_Z 100)) /\
  64 * pow2 (-7) <= dval (ddiv (d_of_Z 99) (d_of_Z 100)) <= 127 * pow2 (-7).
Proof. split; [|split]; vm_compute; done. Qed.
Lemma p999_fraction : dfin (ddiv p999 (d_of_Z 100)) /\
  127 * pow2 (-7) <= dval (ddiv p999 (d_of_Z 100)) <= 128 * pow2 (-7).
Proof. split; [|split]; vm_compute; done. Qed.

(** The index [pct] computes, between [lo / 128] and [hi / 128] of the last one. *)
Lemma pct_index l p lo hi :
  (0 < length l)%nat -> Z.of_nat (length l) <= 2 ^ 46 -> dfin (ddiv p (d_of_Z 100)) ->
  0 <= lo <= 128 -> 0 <= hi <= 128 ->
  lo * pow2 (-7) <= dval (ddiv p (d_of_Z 100)) <= hi * pow2 (-7) ->
  exists i x, l !! i = Some x /\ pct l p = Ret x /\
    let n := Z.of_nat (length l) - 1 in n * lo / 128 <= Z.of_nat i <= n * hi / 128.
Proof.
  intros H1 H2 Ha Hlo Hhi Hb. set (n := Z.of_nat (length l) - 1).
  destruct (fraction_between _ n 7 lo hi Ha ltac:(lia) ltac:(lia) ltac:(lia) ltac:(lia) Hb) as [Hd Hv].
  pose proof (pow2_pos (-7) ltac:(lia)) as Hp. pose proof (pow2_split (-7) 0 ltac:(lia)) as H0.
  change (2 ^ (0 - -7)) with 128 in H0. change (- (7)) with (-7) in Hv. set (x := dmul _ _) in Hd, Hv.
  assert (n * lo / 128 <= dval x / pow2 0 <= n * hi / 128) as Hi.
  { rewrite <-(Z.div_mul_cancel_r (n * lo) 128 (pow2 (-7))), <-(Z.div_mul_cancel_r (n * hi) 128 (pow2 (-7))) by lia.
    rewrite <-H0. split; apply Z.div_le_mono; lia. }
  assert (0 <= n * lo / 128 /\ n * hi / 128 <= n) as [Hl Hh].
  { split; [apply Z.div_pos; nia|]. apply Z.div_le_upper_bound; nia. }
  destruct (lookup_lt_is_Some_2 l (Z.to_nat (dval x / pow2 0))) as [y Hy]; [lia|].
  exists (Z.to_nat (dval x / pow2 0)), y. split_and!; [done| |cbn zeta; fold n; lia].
  unfold pct. rewrite sub64_small by (unfold u64, modulus64; lia). fold n. fold x.
  rewrite d_to_size_spec; [|done|].
  - cbn. apply at_index_Some; [lia|done].
  - unfold modulus64. rewrite H0. nia.
Qed.

(** *** The percentiles of a sorted vector *)
Lemma percentiles_sorted l :
  (0 < length l)%nat -> Z.of_nat (length l) <= 2 ^ 46 -> Forall num l -> Sorted dle l ->
  exists p50 p99 p99_9 max,
    pct l (d_of_Z 50) = Ret p50 /\ pct l (d_of_Z 99) = Ret p99 /\ pct l p999 = Ret p99_9 /\
    at_index l (Z.of_nat (length l) - 1) = Ret max /\
    dle p50 p99 /\ dle p99 p99_9 /\ dle p99_9 max /\
    p50 ∈ l /\ p99 ∈ l /\ p99_9 ∈ l /\ Forall (fun x => dle x max) l /\ max ∈ l.
Proof.
  intros H1 H2 Hn Hs.
  destruct half_fraction as [F1 B1], p99_fraction as [F2 B2], p999_fraction as [F3 B3].
  assert (0 <= 64 <= 128 /\ 0 <= 127 <= 128 /\ 0 <= 128 <= 128) as (R1 & R2 & R3) by lia.
  destruct (pct_index l _ 64 64 H1 H2 F1 R1 R1 B1) as (i & x & Hx & Px & Hi).
  destruct (pct_index l _ 64 127 H1 H2 F2 R1 R2 B2) as (j & y & Hy & Py & Hj).
  destruct (pct_index l _ 127 128 H1 H2 F3 R2 R3 B3) as (k & z & Hz & Pz & Hk).
  clear F1 F2 F3 B1 B2 B3.
  destruct (lookup_lt_is_Some_2 l (length l - 1)) as [w Hw]; [lia|].
  cbn zeta in Hi, Hj, Hk. rewrite Z.div_mul in Hk by lia.
  exists x, y, z, w. split_and!; [exact Px|exact Py|exact Pz|..]; clear Px Py Pz.
  - apply at_index_Some; [lia|]. by replace (Z.to_nat _) with (length l - 1)%nat by lia.
  - apply (sorted_lookup l i j); (done || lia).
  - apply (sorted_lookup l j k); (done || lia).
  - apply (sorted_lookup l k (length l - 1)); (done || lia).
  - by eapply list_elem_of_lookup_2.
  - by eapply list_elem_of_lookup_2.
  - by eapply list_elem_of_lookup_2.
  - apply Forall_lookup. intros m u Hu. pose proof (lookup_lt_Some _ _ _ Hu).
    apply (sorted_lookup l m (length l - 1)); (done || lia).
  - by eapply list_elem_of_lookup_2.
Qed.

Lemma measured_num warmup ts tp : Forall num (measured warmup ts tp).
Proof.
  unfold measured. apply Forall_drop, Forall_lookup. intros k x Hx.
  apply lookup_zip_with_Some in Hx as (a & b & -> & _). apply d_of_Z_num.
Qed.

Lemma measured_nonneg warmup ts tp x :
  (forall k t t', ts !! k = Some t -> tp !! k = Some t' -> t <= t') ->
  x ∈ measured warmup ts tp -> dle (d_of_Z 0) x.
Proof.
  intros Hle Hx. apply list_elem_of_lookup in Hx as [k Hx]. unfold measured in Hx. rewrite lookup_drop in Hx.
  apply lookup_zip_with_Some in Hx as (t' & t & -> & Ht' & Ht). specialize (Hle _ _ _ Ht Ht').
  apply (d_of_Z_near (t' - t)); [done|]. change (dval (d_of_Z 0)) with 0. pose proof (pow2_pos 0 ltac:(lia)). nia.
Qed.

(** ** Medians *)

(** How many of [l] are at most [b]. *)
Definition count_le (b : double) (l : list double) : nat := length (filter (fun x => dle x b) l).

Lemma count_le_perm b l l' : l ≡ₚ l' -> count_le b l = count_le b l'.
Proof. intros Hp. unfold count_le. by rewrite Hp. Qed.

Lemma count_le_app b l l' : count_le b (l ++ l') = (count_le b l + count_le b l')%nat.
Proof. unfold count_le. by rewrite filter_app, length_app. Qed.

(** At most [b] are at least the first [k + 1] of a sorted list that has [b] at [k]. *)
Lemma count_le_lower l k b :
  Forall num l -> Sorted dle l -> l !! k = Some b -> (k < count_le b l)%nat.
Proof.
  intros Hn Hs Hk. pose proof (lookup_lt_Some _ _ _ Hk).
  rewrite <-(take_drop (S k) l), count_le_app. unfold count_le at 1.
  rewrite filter_id, length_take; [lia|]. intros x Hx.
  apply list_elem_of_lookup in Hx as [i Hx]. apply lookup_take_Some in Hx as [Hx Hi].
  apply (sorted_lookup l i k); (done || lia).
Qed.

(** Only the first [k] can be below what a sorted list has at [k]. *)
Lemma count_le_upper l k a b :
  Forall num l -> Sorted dle l -> l !! k = Some a -> dlt b a = true -> (count_le b l <= k)%nat.
Proof.
  intros Hn Hs Hk Hlt. rewrite <-(take_drop k l), count_le_app. unfold count_le at 2.
  assert (filter (fun x => dle x b) (drop k l) = []) as ->.
  { apply elem_of_nil_inv. intros x [Hle Hx]%list_elem_of_filter.
    apply list_elem_of_lookup in Hx as [i Hx]. rewrite lookup_drop in Hx.
    assert (dle a x) as Hax by (apply (sorted_lookup l k (k + i)); (done || lia)).
    pose proof (dlt_num _ _ Hlt) as [Hb Ha].
    assert (dle a b) as Hab by (apply (dle_trans a x b); try done; by eapply Forall_lookup_1 in Hn).
    unfold dle in Hab. congruence. }
  unfold count_le. pose proof (length_filter (fun x => dle x b) (take k l)) as Hf.
  rewrite length_take in Hf. simpl. lia.
Qed.

Lemma count_le_mono b xs ys :
  num b -> Forall num xs -> Forall num ys -> Forall2 dle xs ys -> (count_le b ys <= count_le b xs)%nat.
Proof.
  intros Hb Hx Hy Hxy. induction Hxy as [|x y xs ys Hle _ IH]; [done|].
  apply Forall_cons in Hx as [Hx Hxs]. apply Forall_cons in Hy as [Hy Hys]. specialize (IH Hxs Hys).
  unfold count_le in *. rewrite !filter_cons. destruct (decide (dle y b)) as [Hyb|].
  - rewrite decide_True by (by apply (dle_trans x y b)). simpl. lia.
  - case_decide; simpl; lia.
Qed.

(** The [k]-th smallest of lists ordered pointwise are ordered. *)
Lemma order_statistics xs ys xs' ys' k a b :
  Forall num xs -> Forall num ys -> Forall2 dle xs ys ->
  sort xs = Ret xs' -> sort ys = Ret ys' -> xs' !! k = Some a -> ys' !! k = Some b -> dle a b.
Proof.
  intros Hx Hy Hxy Sx Sy Ha Hb.
  destruct (sort_returns xs Hx) as (? & Sx' & Px & Ox & Nx). destruct (sort_returns ys Hy) as (? & Sy' & Py & Oy & Ny).
  rewrite Sx in Sx'. rewrite Sy in Sy'. simplify_eq. unfold dle.
  destruct (dlt b a) eqn:E; [|done]. pose proof (dlt_num _ _ E) as [Hnb _].
  pose proof (count_le_lower _ _ _ Ny Oy Hb) as H1. pose proof (count_le_upper _ _ _ _ Nx Ox Ha E) as H2.
  rewrite (count_le_perm _ _ _ Py) in H1. rewrite (count_le_perm _ _ _ Px) in H2.
  pose proof (count_le_mono b xs ys Hnb Hx Hy Hxy). lia.
Qed.

(** A median over at least one run is the value of one of the runs. *)
Lemma median_returns f results :
  results <> [] -> Forall (fun r => num (f r)) results ->
  exists vals m, sort (f <$> results) = Ret vals /\ vals !! (length results / 2)%nat = Some m /\
    median_of f results = Ret m /\ m ∈ f <$> results.
Proof.
  intros Hne Hn. apply Forall_fmap in Hn. destruct (sort_returns _ Hn) as (vals & Hs & Hp & _).
  pose proof (Permutation_length Hp) as Hlen. rewrite length_fmap in Hlen.
  assert (length results / 2 < length results)%nat as Hlt.
  { apply Nat.div_lt; [|lia]. destruct results; [done|simpl; lia]. }
  destruct (lookup_lt_is_Some_2 vals (length results / 2)) as [m Hm]; [lia|].
  exists vals, m. split_and!; [done|done| |by rewrite <-Hp; eapply list_elem_of_lookup_2].
  unfold median_of. rewrite Hs. cbn. rewrite Hlen.
  apply at_index_Some; [apply Z.div_pos; lia|].
  replace (Z.to_nat (Z.of_nat (length results) / 2)) with (length results / 2)%nat; [done|].
  rewrite <-(Nat2Z.id (length results / 2)), Nat2Z.inj_div. done.
Qed.

Lemma medians_le f g results m m' :
  Forall (fun r => num (f r)) results -> Forall (fun r => num (g r)) results ->
  Forall (fun r => dle (f r) (g r)) results ->
  median_of f results = Ret m -> median_of g results = Ret m' -> dle m m'.
Proof.
  intros Hf Hg Hfg Hm Hm'. destruct (decide (results = [])) as [->|Hne]; [done|].
  destruct (median_returns f results Hne Hf) as (vs & x & Sx & Lx & Mx & _).
  destruct (median_returns g results Hne Hg) as (vs' & y & Sy & Ly & My & _).
  rewrite Hm in Mx. rewrite Hm' in My. simplify_eq.
  apply (order_statistics (f <$> results) (g <$> results) vs vs' (length results / 2)); try done.
  - by apply Forall_fmap.
  - by apply Forall_fmap.
  - by apply Forall2_fmap_2, Forall_Forall2_diag.
Qed.

(** ** What a report promises *)

(** Five numbers, the percentiles in their order. *)
Definition report_ok (r : BenchResult) : Prop :=
  num (throughput_mops r) /\ num (p50_ns r) /\ num (p99_ns r) /\ num (p999_ns r) /\ num (max_ns r) /\
  dle (p50_ns r) (p99_ns r) /\ dle (p99_ns r) (p999_ns r) /\ dle (p999_ns r) (max_ns r).

#[global] Instance report_ok_dec r : Decision (report_ok r).
Proof. unfold report_ok. apply _. Defined.

Lemma throughput_num n w :
  0 < n <= 2 ^ 46 ->
  num (ddiv (ddiv (d_of_Z n) (ddiv (d_of_Z w) (d_of_Z (10 ^ 9)))) (d_of_Z (10 ^ 6))).
Proof.
  intros Hn. pose proof (d_of_Z_nonzero n ltac:(lia)) as H0.
  pose proof (d_of_Z_nonzero (10 ^ 9) ltac:(lia)) as H1. pose proof (d_of_Z_nonzero (10 ^ 6) ltac:(lia)) as H2.
  apply ddiv_num; [|apply d_of_Z_num|by rewrite H2, orb_true_r].
  apply ddiv_num; [apply d_of_Z_num| |by rewrite H0].
  apply ddiv_num; [apply d_of_Z_num..|by rewrite H1, orb_true_r].
Qed.

Lemma measured_length warmup ts tp :
  length ts = length tp -> length (measured warmup ts tp) = (length ts - Z.to_nat warmup)%nat.
Proof. intros Hl. unfold measured. rewrite length_drop, length_zip_with. lia. Qed.

Lemma latencies_of_returns warmup ts tp :
  0 <= warmup <= Z.of_nat (length ts) -> Z.of_nat (length ts) <= 2 ^ 46 ->
  latencies_of warmup ts tp = Ret (measured warmup ts tp).
Proof.
  intros Hw Hn. unfold latencies_of. rewrite sub64_small by (unfold u64, modulus64; lia).
  case_match; [|done]. zbool. unfold max_doubles in *. lia.
Qed.

(** [p / 100.0 * (0 - 1)], the size being unsigned, is an index far outside. *)
Lemma pct_empty : pct [] (d_of_Z 50) = Undef.
Proof. vm_compute. reflexivity. Qed.

Lemma summarise_returns warmup wall_start wall_end ts tp spins :
  length ts = length tp -> Z.of_nat (length ts) <= 2 ^ 46 -> 0 <= warmup < Z.of_nat (length ts) ->
  exists r, summarise warmup wall_start wall_end ts tp spins = Ret r /\ report_ok r /\ r_spin_count r = spins /\
    p50_ns r ∈ measured warmup ts tp /\ p99_ns r ∈ measured warmup ts tp /\
    p999_ns r ∈ measured warmup ts tp /\ max_ns r ∈ measured warmup ts tp /\
    Forall (fun x => dle x (max_ns r)) (measured warmup ts tp).
Proof.
  intros Hlen Hn Hw. unfold summarise. rewrite latencies_of_returns by lia.
  pose proof (measured_length warmup ts tp Hlen) as Hm.
  destruct (sort_returns _ (measured_num warmup ts tp)) as (l & Hs & Hp & Ho & Hnum).
  pose proof (Permutation_length Hp) as Hpl.
  destruct (percentiles_sorted l) as (a & b & c & d & Pa & Pb & Pc & Pd & Hab & Hbc & Hcd & Ea & Eb & Ec & Hmax & Ed);
    [lia|lia|done|done|].
  pose proof (proj1 (Forall_forall num l) Hnum) as Hel.
  cbn [mbind outcome_bind]. rewrite Hs. cbn [mbind outcome_bind]. rewrite Pa, Pb, Pc, Pd. cbn [mbind outcome_bind]. clear Pa Pb Pc Pd.
  eexists. split; [reflexivity|]. unfold report_ok. cbn [throughput_mops p50_ns p99_ns p999_ns max_ns r_spin_count].
  rewrite <-Hp. split_and!; auto. apply throughput_num. lia.
Qed.

Lemma summarise_fails warmup wall_start wall_end ts tp spins :
  length ts = length tp -> Z.of_nat (length ts) <= 2 ^ 46 ->
  (warmup = Z.of_nat (length ts) -> summarise warmup wall_start wall_end ts tp spins = Undef) /\
  (Z.of_nat (length ts) < warmup < 2 ^ 63 ->
   summarise warmup wall_start wall_end ts tp spins = Throw "vector::reserve").
Proof.
  intros Hlen Hn. unfold summarise. split.
  - intros ->. rewrite latencies_of_returns by lia.
    assert (measured (Z.of_nat (length ts)) ts tp = []) as ->.
    { apply nil_length_inv. rewrite measured_length by done. lia. }
    cbn [mbind outcome_bind]. change (sort []) with (Ret (A := list double) []). cbn [mbind outcome_bind].
    by rewrite pct_empty.
  - intros Hw. unfold latencies_of. replace (max_doubles <? _) with true; [done|].
    symmetry. apply Z.ltb_lt. unfold sub64, wrap64, modulus64, max_doubles.
    rewrite <-(Z.mod_add _ 1) by lia. rewrite Z.mod_small; lia.
Qed.

Lemma d_to_size_of_Z k : 0 <= k < 2 ^ 53 -> d_to_size (d_of_Z k) = Ret k.
Proof.
  intros Hk. destruct (d_of_Z_exact k Hk) as [Hf Hv]. pose proof (pow2_pos 0 ltac:(lia)).
  rewrite d_to_size_spec; [|done|rewrite Hv; unfold modulus64; nia]. by rewrite Hv, Z.div_mul by lia.
Qed.

(** ** The workload *)

Lemma dround_num x : num x -> num (dround x).
Proof.
  destruct x as [s|s| |s m e]; try done. intros Hx. cbn [dround]. case_match; [done|].
  apply (binary_normalize_near _ 0 s). lia.
Qed.

Lemma generate_order_admissible i d : draw_ok d -> admissible (generate_order i d).
Proof.
  intros (_ & _ & Hf & _ & Hq). split; [unfold u64, modulus64; simpl; lia|]. intros _. cbn [generate_order price].
  apply ddiv_num; [|apply d_of_Z_num|by rewrite (d_of_Z_nonzero 100), orb_true_r by lia].
  apply dround_num. destruct (dmul_near _ (d_of_Z 100) Hf (proj1 (d_of_Z_exact 100 ltac:(lia)))) as (v & _ & Hn).
  apply Hn.
Qed.

Lemma generate_orders_admissible draws :
  Forall draw_ok draws -> Forall admissible (generate_orders draws).
Proof.
  intros Hd. apply Forall_lookup. intros i o Ho. unfold generate_orders in Ho.
  rewrite list_lookup_imap in Ho. apply fmap_Some in Ho as (d & Hi & ->).
  apply generate_order_admissible. by eapply Forall_lookup_1 in Hd.
Qed.

(** ** Scripted runs *)

Inductive bench_move (M : Type) :=
  | ClockTo (t : Z)
  | StampPush
  | StampPop
  | SubmitPopped
  | QueueCall (m : M).
Arguments ClockTo {M} t.
Arguments StampPush {M}.
Arguments StampPop {M}.
Arguments SubmitPopped {M}.
Arguments QueueCall {M} m.

Section exec.
Context {Q M : Type} `{OrderQueue Q} (q_exec : Q -> M -> option (option event * Q)).
Context (Hsound : forall q m l q', q_exec q m = Some (l, q') -> q_step q l q').

(** A move of the queue, if the thread that makes the call is there. *)
Definition bench_queue_exec (orders : list Order) (b : bench (Q := Q)) (m : M)
    : option (option event * bench (Q := Q)) :=
  '(l, q) ← q_exec (b_queue b) m;
  let b' := with_bench_queue b q in
  match l with
  | None => Some (l, b')
  | Some (Pushed o) =>
    match b_prod b with
    | Pushing =>
      if decide (orders !! b_i b = Some o) then Some (l, with_prod b' Stamping (S (b_i b)) (t_push b)) else None
    | _ => None
    end
  | Some ShutDown =>
    match b_prod b with
    | Stamping =>
      if decide (length orders <= b_i b)%nat then Some (l, with_prod b' Closed (b_i b) (t_push b)) else None
    | _ => None
    end
  | Some (Popped o) =>
    match b_cons b with Popping => Some (l, with_cons b' (Received o) (b_idx b) (t_pop b)) | _ => None end
  | Some Drained =>
    match b_cons b with Popping => Some (l, with_cons b' Left (b_idx b) (t_pop b)) | _ => None end
  end.

Definition bench_exec (orders : list Order) (b : bench (Q := Q)) (mv : bench_move M)
    : option (option event * bench (Q := Q)) :=
  match mv with
  | ClockTo t => if decide (b_now b <= t) then Some (None, with_now b t) else None
  | StampPush =>
    match b_prod b with
    | Stamping =>
      if decide (b_i b < length orders)%nat
      then Some (None, with_prod b Pushing (b_i b) (<[b_i b := b_now b]> (t_push b))) else None
    | _ => None
    end
  | StampPop =>
    match b_cons b with
    | Received o =>
      Some (None, if decide (b_idx b < length (t_pop b))%nat
                  then with_cons b (Stamped o) (b_idx b) (<[b_idx b := b_now b]> (t_pop b))
                  else with_cons b Overrun (b_idx b) (t_pop b))
    | _ => None
    end
  | SubmitPopped =>
    match b_cons b with
    | Stamped o =>
      match submit_order (b_engine b) o with
      | Ret (e', _) => Some (None, with_cons (with_engine b e') Popping (S (b_idx b)) (t_pop b))
      | _ => None
      end
    | _ => None
    end
  | QueueCall m => bench_queue_exec orders b m
  end.

Lemma bench_exec_sound orders b mv l b' :
  bench_exec orders b mv = Some (l, b') -> bench_step orders b l b'.
Proof using Hsound.
  destruct mv; cbn [bench_exec].
  - case_decide; [|done]. intros [= <- <-]. by apply bench_clock.
  - destruct (b_prod b) eqn:Ep; try done. case_decide; [|done]. intros [= <- <-]. by apply bench_stamp_push.
  - destruct (b_cons b) eqn:Ec; try done. intros [= <- <-].
    case_decide; [by apply bench_stamp_pop|apply (bench_overrun _ _ o); [done|lia]].
  - destruct (b_cons b) eqn:Ec; try done. destruct (submit_order _ o) as [[e' r]| | |] eqn:Es; try done.
    intros [= <- <-]. by eapply bench_submit.
  - unfold bench_queue_exec. intros Hx. apply bind_Some in Hx as ([l' q] & Hq & Hx). apply Hsound in Hq.
    destruct l' as [[o|o| |]|]; split_cases; simplify_eq;
      [by apply bench_push|by apply bench_pop|by apply bench_drained|by apply bench_shutdown|by apply bench_silent].
Qed.

Lemma bench_script_trace orders t0 ms tr b :
  run_script (bench_exec orders) (bench_init orders t0) ms = Some (tr, b) ->
  trace (bench_step orders) (bench_init orders t0) tr b.
Proof using Hsound. apply (run_script_trace _ _ _ []); [intros *; apply bench_exec_sound|constructor]. Qed.
End exec.

(** ** Properties *)

(** C18: the two threads of [run_once], over any implementation of the queue and any
    schedule.  The consumer never stores a time stamp outside its vector, and
    [submit_order] returns on every order it is given, with its trades or with the
    collar's rejection, which the benchmark ignores.  Once both threads are joined, every
    order has both stamps, taken between the start of the run and its end and the
    push before the pop; the engine is the one a single thread submitting the orders
    would leave; and with some orders beyond the warm-up, the run reports numbers in
    order, none of the latencies negative. *)
Theorem benchmark_latencies {Q : Type} `{OrderQueue Q} `{SpinCount Q} (draws : list draw) (t0 : Z)
    (tr : list event) (b : bench (Q := Q)) :
  let orders := generate_orders draws in
  Forall draw_ok draws -> q_range (length draws) ->
  trace (bench_step orders) (bench_init orders t0) tr b ->
  b_cons b <> Overrun /\
  (forall o, b_cons b = Stamped o -> returns (submit_order (b_engine b) o)) /\
  (joined b ->
   length (t_push b) = length draws /\ length (t_pop b) = length draws /\
   (forall k, (k < length draws)%nat ->
      exists t t', t_push b !! k = Some t /\ t_pop b !! k = Some t' /\ t0 <= t <= t' /\ t' <= b_now b) /\
   (exists ls, consume (new_MatchingEngine default_band) orders = Ret (b_engine b, ls)) /\
   forall warmup, 0 <= warmup < Z.of_nat (length draws) -> Z.of_nat (length draws) <= 2 ^ 46 ->
     exists r, run_once warmup t0 b = Ret r /\ report_ok r /\ dle (d_of_Z 0) (p50_ns r)).
Proof.
  intros orders Hd Hr Htr. pose proof (generate_orders_admissible _ Hd) as Hadm.
  assert (length orders = length draws) as Hlen by apply length_imap. rewrite <-Hlen in *.
  destruct (bench_trace_inv orders t0 tr b Htr Hr) as (f & Hq & Hp & Hc).
  split_and!; [by apply Hc| |].
  - intros o Ho. by apply (bench_submit_returns orders tr b).
  - intros [Ep Ec]. destruct (joined_complete orders t0 tr b f Hq Hp Hc Ep Ec) as [Hi Hidx].
    pose proof (pri_len _ _ _ _ Hp) as Lp. pose proof (ci_len _ _ _ Hc) as Lc.
    assert (forall k, (k < length orders)%nat ->
      exists t t', t_push b !! k = Some t /\ t_pop b !! k = Some t' /\ t0 <= t <= t' /\ t' <= b_now b) as Hst.
    { intros k Hk.
      destruct (ci_stamps _ _ _ Hc k) as (t & t' & Ht & Ht' & Hb); [unfold n_popped; rewrite Ec; lia|].
      destruct (pri_stamps _ _ _ _ Hp k) as (u & Hu & Hbu); [unfold n_stamped; rewrite Ep; lia|].
      exists t, t'. rewrite Ht in Hu. simplify_eq. split_and!; (done || lia). }
    split_and!; [done|done|done| |].
    + destruct (ci_engine _ _ _ Hc) as [ls He]. exists ls. by rewrite Hidx, firstn_all in He.
    + intros warmup Hw Hn. unfold run_once. rewrite <-Lp in Hw, Hn.
      destruct (summarise_returns warmup t0 (b_now b) (t_push b) (t_pop b) (spins_of (b_queue b)))
        as (r & Hs & Hok & _ & Hin & _); [congruence|done|done|].
      exists r. split_and!; [done|done|]. apply (measured_nonneg warmup (t_push b) (t_pop b)); [|done].
      intros k t t' Ht Ht'. pose proof (lookup_lt_Some _ _ _ Ht) as Hk. rewrite Lp in Hk.
      destruct (Hst k Hk) as (u & u' & Hu & Hu' & ? & _). simplify_eq. lia.
Qed.

(** A buy and a sell, the second pushed while the first is being submitted. *)
Definition two_draws : list draw := [mkDraw 7 1 (d_of_Z 100) 10; mkDraw 8 0 (d_of_Z 100) 4].

Definition drawn (i : nat) : Order := default default_order (generate_orders two_draws !! i).

Definition two_draws_schedule : list (bench_move mutex_move) :=
  [ClockTo 1000; QueueCall (CallPop 0); StampPush; QueueCall (CallPush 1 (drawn 0)); QueueCall (Run 1);
   QueueCall (Run 1); QueueCall (Run 1); QueueCall (Run 1); ClockTo 1040;
   QueueCall (Run 0); QueueCall (Run 0); QueueCall (Run 0); StampPush; StampPop; QueueCall (Run 0);
   QueueCall (CallPush 1 (drawn 1)); QueueCall (Run 1); QueueCall (Run 1); SubmitPopped;
   QueueCall (Run 1); QueueCall (Run 1); ClockTo 1100; QueueCall (CallShutdown 1); QueueCall (Run 1);
   QueueCall (Run 1); QueueCall (CallPop 0); QueueCall (Run 0); QueueCall (Run 0); QueueCall (Run 0);
   ClockTo 1150; StampPop; SubmitPopped; QueueCall (Run 0); QueueCall (CallPop 0);
   QueueCall (Run 0); QueueCall (Run 0); QueueCall (Run 0); ClockTo 1200].

Definition bench_after (ms : list (bench_move mutex_move)) : list event * bench (Q := MutexOrderQueue) :=
  let b0 := bench_init (H := mutex_order_queue 2) (generate_orders two_draws) 1000 in
  default ([], b0) (run_script (bench_exec mutex_exec (generate_orders two_draws)) b0 ms).

Lemma benchmark_latencies_witness :
  let b := (bench_after two_draws_schedule).2 in
  length (t_push b) = 2%nat /\ length (t_pop b) = 2%nat /\
  (forall k, (k < 2)%nat ->
     exists t t', t_push b !! k = Some t /\ t_pop b !! k = Some t' /\ 1000 <= t <= t' /\ t' <= b_now b) /\
  (exists ls, consume (new_MatchingEngine default_band) (generate_orders two_draws) = Ret (b_engine b, ls)) /\
  forall warmup, 0 <= warmup < 2 -> 2 <= 2 ^ 46 ->
    exists r, run_once warmup 1000 b = Ret r /\ report_ok r /\ dle (d_of_Z 0) (p50_ns r).
Proof.
  refine (proj2 (proj2 (benchmark_latencies (H := mutex_order_queue 2) two_draws 1000
    (bench_after two_draws_schedule).1 (bench_after two_draws_schedule).2 _ _ _)) _).
  - apply (bool_decide_unpack _). vm_compute. exact I.
  - exact I.
  - apply (bench_script_trace (H := mutex_order_queue 2) mutex_exec mutex_exec_sound _ _ two_draws_schedule).
    vm_compute. reflexivity.
  - vm_compute. split; reflexivity.
Defined.

(** The collar may reject an order of the workload: after a trade at 90 its band ends
    below 110. *)
Example benchmark_rejects :
  let draws := [mkDraw 1 1 (d_of_Z 90) 10; mkDraw 2 0 (d_of_Z 90) 10; mkDraw 3 1 (d_of_Z 110) 10] in
  Forall draw_ok draws /\
  match consume (new_MatchingEngine default_band) (generate_orders draws) with
  | Ret (_, ls) => last ls = Some (RejectLine (mkRejection 3 PRICE_TOO_HIGH))
  | _ => False
  end.
Proof. split; [apply (bool_decide_unpack _); vm_compute; exact I|vm_compute; reflexivity]. Qed.

(** C38: the report of one run of at most [2^46] orders.  With fewer warm-up orders than
    orders, the two casts and the two roundings of [pct] keep every index inside the
    sorted latencies: the run reports numbers with p50 <= p99 <= p99.9 <= max, each
    of them a measured latency and the last one the largest.  With as many, [pct]
    reads outside the empty vector; with more, the unsigned [N - warmup] wraps and
    [reserve] throws. *)
Theorem percentiles_ordered (warmup wall_start wall_end spins : Z) (ts tp : list Z) :
  length ts = length tp -> Z.of_nat (length ts) <= 2 ^ 46 -> 0 <= warmup < 2 ^ 63 ->
  let n := Z.of_nat (length ts) in
  let run := summarise warmup wall_start wall_end ts tp spins in
  (warmup < n ->
   exists r, run = Ret r /\ report_ok r /\
     p50_ns r ∈ measured warmup ts tp /\ p99_ns r ∈ measured warmup ts tp /\
     p999_ns r ∈ measured warmup ts tp /\ max_ns r ∈ measured warmup ts tp /\
     Forall (fun x => dle x (max_ns r)) (measured warmup ts tp)) /\
  (warmup = n -> run = Undef) /\
  (n < warmup -> run = Throw "vector::reserve").
Proof.
  intros Hlen Hn Hw n run.
  destruct (summarise_fails warmup wall_start wall_end ts tp spins Hlen Hn) as [Hu Ht].
  split_and!; [|exact Hu|intros; apply Ht; subst n; lia]. intros Hlt.
  destruct (summarise_returns warmup wall_start wall_end ts tp spins Hlen Hn) as (r & ? & ? & _ & ?); [lia|eauto].
Qed.

Lemma percentiles_ordered_witness :
  (exists r, summarise 1 0 300 [10; 20; 30; 40] [15; 90; 50; 45] 0 = Ret r /\ report_ok r /\
     p50_ns r ∈ measured 1 [10; 20; 30; 40] [15; 90; 50; 45] /\ p99_ns r ∈ measured 1 [10; 20; 30; 40] [15; 90; 50; 45] /\
     p999_ns r ∈ measured 1 [10; 20; 30; 40] [15; 90; 50; 45] /\ max_ns r ∈ measured 1 [10; 20; 30; 40] [15; 90; 50; 45] /\
     Forall (fun x => dle x (max_ns r)) (measured 1 [10; 20; 30; 40] [15; 90; 50; 45])) /\
  summarise 4 0 300 [10; 20; 30; 40] [15; 90; 50; 45] 0 = Undef.
Proof.
  split.
  - refine (proj1 (percentiles_ordered 1 0 300 0 [10; 20; 30; 40] [15; 90; 50; 45] _ _ _) _); try done.
  - refine (proj1 (proj2 (percentiles_ordered 4 0 300 0 [10; 20; 30; 40] [15; 90; 50; 45] _ _ _)) _); done.
Defined.

(** The table of medians.  Over at least one run, each with its percentiles in
    order, the medians are again in that order although they may come from different
    runs, each is the value of one of the runs, and the spin count survives its trip
    through [double] below [2^53].  Over no run the median is read outside the
    vector. *)
Theorem medians_ordered (results : list BenchResult) :
  Forall (fun r => report_ok r /\ 0 <= r_spin_count r < 2 ^ 53) results ->
  (results <> [] ->
   exists med, run_repeated results = Ret med /\ report_ok med /\
     p50_ns med ∈ p50_ns <$> results /\ p99_ns med ∈ p99_ns <$> results /\
     p999_ns med ∈ p999_ns <$> results /\ max_ns med ∈ max_ns <$> results /\
     throughput_mops med ∈ throughput_mops <$> results /\ r_spin_count med ∈ r_spin_count <$> results) /\
  (results = [] -> run_repeated results = Undef).
Proof.
  intros Hok. split; [|by intros ->]. intros Hne.
  assert (forall f : BenchResult -> Prop, (forall r, report_ok r -> f r) -> Forall f results) as Hall.
  { intros f Hf. eapply Forall_impl; [exact Hok|]. intros r [Hr _]. by apply Hf. }
  assert (forall f, (forall r, report_ok r -> num (f r)) ->
    exists m, median_of f results = Ret m /\ m ∈ f <$> results /\ num m) as Hmed.
  { intros f Hf. destruct (median_returns f results Hne (Hall _ Hf)) as (_ & m & _ & _ & Hm & Hin).
    exists m. split_and!; [done|done|]. apply list_elem_of_fmap in Hin as (r & -> & Hr).
    apply Hf. by apply (proj1 (Forall_forall _ _) Hok). }
  destruct (Hmed throughput_mops) as (a & Ea & Ia & Na); [by intros r Hr; apply Hr|].
  destruct (Hmed p50_ns) as (b & Eb & Ib & Nb); [by intros r Hr; apply Hr|].
  destruct (Hmed p99_ns) as (c & Ec & Ic & Nc); [by intros r Hr; apply Hr|].
  destruct (Hmed p999_ns) as (d & Ed & Id & Nd); [by intros r Hr; apply Hr|].
  destruct (Hmed max_ns) as (e & Ee & Ie & Ne); [by intros r Hr; apply Hr|].
  destruct (Hmed (fun r => d_of_Z (r_spin_count r))) as (s & Es & Is & _); [intros; apply d_of_Z_num|].
  apply list_elem_of_fmap in Is as (rs & -> & Hrs).
  pose proof (proj1 (Forall_forall _ _) Hok _ Hrs) as [_ Hspin].
  eexists. split.
  - unfold run_repeated. rewrite Ea, Eb, Ec, Ed, Ee, Es. cbn [mbind outcome_bind].
    rewrite d_to_size_of_Z by done. reflexivity.
  - unfold report_ok. cbn [throughput_mops p50_ns p99_ns p999_ns max_ns r_spin_count].
    split_and!; try done; [eapply medians_le, Ec; [..|exact Eb]|eapply medians_le, Ed; [..|exact Ec]
      |eapply medians_le, Ee; [..|exact Ed]|by apply list_elem_of_fmap_2];
    apply Hall; by intros r Hr; apply Hr.
Qed.

(** Three runs; the medians of the columns come from different runs. *)
Definition three_runs : list BenchResult :=
  [mkBenchResult (d_of_Z 3) (d_of_Z 10) (d_of_Z 20) (d_of_Z 90) (d_of_Z 95) 5;
   mkBenchResult (d_of_Z 2) (d_of_Z 12) (d_of_Z 15) (d_of_Z 60) (d_of_Z 99) 0;
   mkBenchResult (d_of_Z 4) (d_of_Z 8) (d_of_Z 40) (d_of_Z 70) (d_of_Z 80) 9].

(** The medians 10, 20, 70 and 95 of the three runs, and what the run of the two
    drawn orders reports without warm-up. *)
Example three_runs_medians :
  run_repeated three_runs =
    Ret (mkBenchResult (d_of_Z 3) (d_of_Z 10) (d_of_Z 20) (d_of_Z 70) (d_of_Z 95) 5).
Proof. vm_compute. reflexivity. Qed.

Example two_draws_report :
  let b := (bench_after two_draws_schedule).2 in
  (fun r => (p50_ns r, max_ns r)) <$> run_once 0 1000 b =
    Ret (d_of_Z 40, d_of_Z 110).
Proof. vm_compute. reflexivity. Qed.
