(* ===== verification/BenchProgress.v ===== *)
(** * The benchmark over the lock-free queue finishes ([benchmarks/benchmark_queue.cpp])

    [run_once<LockFreeOrderQueue>] is the program that uses the lock-free queue.  Once
    its producer thread has called [shutdown], the consumer thread needs nobody else:
    it handles every order still in the ring and leaves its loop within a bounded
    number of its own steps, so that [consumer.join()] returns.  (Over the mutex queue
    it may not: [MutexQueue.shutdown_wakeup_can_be_lost].) *)

From S2P Require Import Prelude Double Rounding Order PriceCollar OrderBook MatchingEngine Refinement Session OrderQueue LockFreeQueue RingProgress Server Benchmark.

(** ** The consumer thread on its own *)

(** The next step of the consumer thread: an access of [pop], each load returning the
    current value, the store of a time stamp, or a submission. *)
Definition consumer_step (b : bench (Q := LockFreeOrderQueue))
    : option (option event * bench (Q := LockFreeOrderQueue)) :=
  match b_cons b with
  | Popping =>
    '(l, q) ← lf_exec (b_queue b) (pop_move (b_queue b));
    match l with
    | None => Some (None, with_bench_queue b q)
    | Some (Popped o) =>
      Some (Some (Popped o), with_cons (with_bench_queue b q) (Received o) (b_idx b) (t_pop b))
    | Some Drained => Some (Some Drained, with_cons (with_bench_queue b q) Left (b_idx b) (t_pop b))
    | Some _ => None
    end
  | Received o =>
    if (b_idx b <? length (t_pop b))%nat
    then Some (None, with_cons b (Stamped o) (b_idx b) (<[b_idx b := b_now b]> (t_pop b)))
    else Some (None, with_cons b Overrun (b_idx b) (t_pop b))
  | Stamped o =>
    match submit_order (b_engine b) o with
    | Ret (e, _) => Some (None, with_cons (with_engine b e) Popping (S (b_idx b)) (t_pop b))
    | _ => None
    end
  | Left | Overrun => None
  end.

(** The consumer thread alone, until it has left its loop; at most [n] steps. *)
Fixpoint consumer_alone (n : nat) (b : bench (Q := LockFreeOrderQueue)) : option (bench (Q := LockFreeOrderQueue)) :=
  match b_cons b with
  | Left => Some b
  | _ =>
    match n with
    | O => None
    | S n' => '(_, b') ← consumer_step b; consumer_alone n' b'
    end
  end.

(** ** Facts *)

(** [b] gets to [b'] in at most [n] steps of the consumer. *)
Inductive leads_to : nat -> bench (Q := LockFreeOrderQueue) -> bench (Q := LockFreeOrderQueue) -> Prop :=
  | leads_refl n b : leads_to n b b
  | leads_step n b l b1 b' : consumer_step b = Some (l, b1) -> leads_to n b1 b' -> leads_to (S n) b b'.

Lemma leads_trans n m b b1 b2 : leads_to n b b1 -> leads_to m b1 b2 -> leads_to (n + m) b b2.
Proof.
  induction 1 as [n b|n b l b' b1 Hs _ IH]; intros H; [|by eapply leads_step; [done|apply IH]].
  induction H as [m b|m b l b' b2 Hs _ IH]; [apply leads_refl|].
  rewrite Nat.add_succ_r. by eapply leads_step.
Qed.

Lemma leads_more n m b b' : leads_to n b b' -> (n <= m)%nat -> leads_to m b b'.
Proof.
  intros H. revert m. induction H as [n b|n b l b1 b' Hs _ IH]; intros m Hle; [apply leads_refl|].
  destruct m as [|m]; [lia|]. eapply leads_step; [done|apply IH; lia].
Qed.

Lemma consumer_alone_left n b : b_cons b = Left -> consumer_alone n b = Some b.
Proof. intros Hc. destruct n; cbn; by rewrite Hc. Qed.

(** The thread that gets to the end of its loop is there. *)
Lemma leads_alone n b b' : leads_to n b b' -> b_cons b' = Left -> consumer_alone n b = Some b'.
Proof.
  induction 1 as [n b|n b l b1 b' Hs _ IH]; intros Hc; [by apply consumer_alone_left|].
  cbn [consumer_alone]. rewrite Hs. cbn. destruct (b_cons b) eqn:Hb; try (by apply IH).
  unfold consumer_step in Hs. by rewrite Hb in Hs.
Qed.

(** The consumer after [pop] has taken effect. *)
Definition after_pop (b : bench (Q := LockFreeOrderQueue)) (e : event) (q : LockFreeOrderQueue) : bench :=
  with_cons (with_bench_queue b q) (match e with Popped o => Received o | _ => Left end) (b_idx b) (t_pop b).

Lemma pop_leads n b e q :
  b_cons b = Popping -> (exists o, e = Popped o) \/ e = Drained -> pop_alone n (b_queue b) = Some (e, q) ->
  leads_to n b (after_pop b e q).
Proof.
  intros Hc He. revert b Hc. induction n as [|n IH]; intros b Hc Hp; [done|].
  unfold pop_alone in Hp. cbn [alone] in Hp. apply bind_Some in Hp as ([l q1] & Hx & Hp).
  destruct l as [e'|].
  - injection Hp as -> ->. apply (leads_more 1); [|lia]. eapply leads_step; [|apply leads_refl].
    unfold consumer_step. rewrite Hc, Hx. cbn. by destruct He as [[o ->]| ->].
  - eapply (leads_step n b None (with_bench_queue b q1)); [unfold consumer_step; by rewrite Hc, Hx|].
    by apply (IH (with_bench_queue b q1)).
Qed.

Section finish.
Context (k : Z) (Hk : 0 <= k <= 63) (orders : list Order) (t0 : Z).
Local Instance ring : OrderQueue LockFreeOrderQueue := lock_free_order_queue k Hk.
Implicit Types b : bench (Q := LockFreeOrderQueue).

(** A step of the consumer is a step of the two threads, and leaves the producer alone. *)
Lemma consumer_step_sound b l b' :
  consumer_step b = Some (l, b') -> bench_step orders b l b' /\ b_prod b' = b_prod b.
Proof.
  unfold consumer_step. destruct (b_cons b) as [|o|o| |] eqn:Hc; try done.
  - intros ([l1 q] & Hx & Hs)%bind_Some. apply lf_exec_sound in Hx.
    destruct l1 as [[o|o| |]|]; try done; injection Hs as <- <-; (split; [|done]);
      [by apply bench_pop|by apply bench_drained|by apply bench_silent].
  - destruct (Nat.ltb_spec (b_idx b) (length (t_pop b))); intros [= <- <-]; (split; [|done]);
      [by apply bench_stamp_pop|by apply (bench_overrun _ _ o)].
  - destruct (submit_order (b_engine b) o) as [[e r]| | |] eqn:Hs; try done. intros [= <- <-].
    split; [by eapply bench_submit|done].
Qed.

Lemma leads_trace n b b' s0 tr :
  leads_to n b b' -> trace (bench_step orders) s0 tr b ->
  exists tr', trace (bench_step orders) s0 (tr ++ tr') b' /\ b_prod b' = b_prod b.
Proof.
  intros H. revert tr. induction H as [n b|n b l b1 b' Hs _ IH]; intros tr Htr; [exists []; by rewrite app_nil_r|].
  destruct (consumer_step_sound _ _ _ Hs) as [Hstep <-].
  destruct (IH (tr ++ option_list l)) as (tr' & Htr' & Hp).
  { destruct l; cbn; [by eapply trace_event|rewrite app_nil_r; by eapply trace_silent]. }
  exists (option_list l ++ tr'). by rewrite app_assoc.
Qed.

(** The queue's own run, under the threads', and the call of [shutdown]. *)
Lemma bench_queue_trace tr b :
  trace (bench_step orders) (bench_init orders t0) tr b -> trace lf_step (lf_init (2 ^ k)) tr (b_queue b).
Proof.
  induction 1 as [|tr b1 b2 _ IH Hs|tr b1 e b2 _ IH Hs]; [constructor| |].
  - inversion Hs; subst; try exact IH. by eapply trace_silent.
  - inversion Hs; subst; by eapply trace_event.
Qed.

Lemma closed_shutdown tr b :
  trace (bench_step orders) (bench_init orders t0) tr b -> b_prod b = Closed -> ShutDown ∈ tr.
Proof.
  induction 1 as [|tr b1 b2 _ IH Hs|tr b1 e b2 _ IH Hs]; [done| |].
  - intros Hc. apply IH. by inversion Hs; subst.
  - intros Hc. rewrite elem_of_app. inversion Hs; subst; try (left; apply IH; done). right. by apply list_elem_of_singleton.
Qed.

Context (Hadm : Forall admissible orders) (Hr : Z.of_nat (length orders) < modulus64).

(** The consumer with an order in its hands. *)
Lemma stamped_leads tr b o :
  trace (bench_step orders) (bench_init orders t0) tr b -> b_cons b = Stamped o ->
  exists b', leads_to 1 b b' /\ b_idx b' = S (b_idx b).
Proof using Hadm Hr.
  intros Htr Hc. destruct (bench_trace_inv orders t0 tr b Htr Hr) as (_ & _ & _ & Hinv).
  destruct (bench_submit_returns orders tr b o Hadm Hinv Hc) as [[e r] Hs].
  eexists. split; [eapply leads_step; [|apply leads_refl]; unfold consumer_step; by rewrite Hc, Hs|done].
Qed.

Lemma received_leads tr b o :
  trace (bench_step orders) (bench_init orders t0) tr b -> b_cons b = Received o ->
  exists b', leads_to 2 b b' /\ b_idx b' = S (b_idx b).
Proof using Hadm Hr.
  intros Htr Hc. destruct (bench_trace_inv orders t0 tr b Htr Hr) as (_ & _ & _ & Hinv).
  assert (b_idx b < length (t_pop b))%nat as Hlt.
  { rewrite (ci_len _ _ _ Hinv). eapply lookup_lt_Some, (ci_held _ _ _ Hinv). by left. }
  set (b1 := with_cons b (Stamped o) (b_idx b) (<[b_idx b := b_now b]> (t_pop b))).
  assert (consumer_step b = Some (None, b1)) as Hs.
  { unfold consumer_step. rewrite Hc. by destruct (Nat.ltb_spec (b_idx b) (length (t_pop b))); [|lia]. }
  destruct (stamped_leads tr b1 o) as (b' & Hl & Hi); [|done|].
  { eapply trace_silent; [done|]. by apply (consumer_step_sound _ _ _ Hs). }
  exists b'. split; [by eapply leads_step|done].
Qed.

(** The consumer in [pop]. *)
Lemma popping_leads tr b :
  trace (bench_step orders) (bench_init orders t0) tr b -> b_prod b = Closed -> b_cons b = Popping ->
  exists e q, ((exists o, e = Popped o) \/ e = Drained) /\ leads_to 4 b (after_pop b e q).
Proof using Hr.
  intros Htr Hprod Hcons. destruct (bench_trace_inv orders t0 tr b Htr Hr) as (f & Hq & Hp & Hc).
  assert (Z.of_nat (length (pushed tr)) < modulus64) as Hrp.
  { rewrite (pri_pushed _ _ _ _ Hp), length_take. lia. }
  pose proof (pop_progress k tr (b_queue b) Hk (bench_queue_trace tr b Htr) Hrp) as Hpop.
  assert (lf_done_ (b_queue b) = true) as Hd.
  { rewrite <-(sim_closed _ _ (qi_sim _ _ _ Hq : lf_sim (b_queue b) f)).
    apply (fifo_run_closed _ _ _ (qi_run _ _ _ Hq)). right. by eapply closed_shutdown. }
  rewrite Hd in Hpop. destruct (pushed tr !! length (popped tr)) as [o|]; destruct Hpop as (q & Hpa & _).
  - exists (Popped o), q. split; [by left; eexists|]. apply pop_leads; [done|by left; eexists|done].
  - exists Drained, q. split; [by right|]. apply pop_leads; [done|by right|done].
Qed.

(** One turn of the consumer's loop, from wherever it is, after the shutdown. *)
Lemma consumer_turn tr b :
  trace (bench_step orders) (bench_init orders t0) tr b -> b_prod b = Closed ->
  exists b', leads_to 6 b b' /\ (b_cons b' = Left \/ b_idx b' = S (b_idx b)).
Proof using Hadm Hr.
  intros Htr Hprod. destruct (b_cons b) as [|o|o| |] eqn:Ec.
  - destruct (popping_leads tr b Htr Hprod Ec) as (e & q & He & Hl). destruct He as [[o ->]| ->].
    + destruct (leads_trace _ _ _ _ _ Hl Htr) as (tr1 & Htr1 & _).
      destruct (received_leads _ _ o Htr1) as (b' & Hl' & Hi); [done|].
      exists b'. split; [exact (leads_trans 4 2 _ _ _ Hl Hl')|by right].
    + exists (after_pop b Drained q). split; [by apply (leads_more 4); [|lia]|by left].
  - destruct (received_leads tr b o Htr Ec) as (b' & Hl & Hi). exists b'. split; [by apply (leads_more 2); [|lia]|by right].
  - destruct (stamped_leads tr b o Htr Ec) as (b' & Hl & Hi). exists b'. split; [by apply (leads_more 1); [|lia]|by right].
  - exists b. split; [apply leads_refl|by left].
  - destruct (bench_trace_inv orders t0 tr b Htr Hr) as (_ & _ & _ & Hinv). by destruct (ci_inside _ _ _ Hinv).
Qed.

Lemma consumer_finishes n tr b :
  trace (bench_step orders) (bench_init orders t0) tr b -> b_prod b = Closed ->
  (length orders <= b_idx b + n)%nat -> exists b', leads_to (6 * n + 6) b b' /\ b_cons b' = Left.
Proof using Hadm Hr.
  revert tr b. induction n as [|n IH]; intros tr b Htr Hprod Hn;
    destruct (consumer_turn tr b Htr Hprod) as (b1 & Hl & Hb1);
    destruct (leads_trace _ _ _ _ _ Hl Htr) as (tr1 & Htr1 & Hp1).
  - exists b1. split; [done|]. destruct Hb1 as [?|Hi]; [done|].
    destruct (bench_trace_inv orders t0 _ b1 Htr1 Hr) as (_ & _ & Hp & Hinv).
    pose proof (ci_taken _ _ _ Hinv). pose proof (pri_i _ _ _ _ Hp). unfold n_taken, n_stamped in *.
    rewrite Hp1, Hprod in *. destruct (b_cons b1); lia.
  - destruct Hb1 as [Hc|Hi]; [exists b1; split; [by apply (leads_more 6); [|lia]|done]|].
    destruct (IH _ b1 Htr1) as (b2 & Hl2 & Hc2); [congruence|lia|].
    exists b2. split; [|done]. replace (6 * S n + 6)%nat with (6 + (6 * n + 6))%nat by lia. by eapply leads_trans.
Qed.
End finish.

(** ** Properties *)

(** C13: the benchmark over the lock-free queue finishes.  From every state the two
    threads of [run_once] can reach, under any schedule and any staleness of loads
    until then, once the producer thread has called [shutdown] the consumer thread
    alone, without a step of anybody else and with current loads, leaves its loop
    within six of its own steps for each order it has not submitted yet and six more.
    These are steps of the two threads; and then every order was submitted, and the
    engine is the one a single thread submitting them would leave. *)
Theorem lock_free_consumer_finishes (k : Z) (Hk : 0 <= k <= 63) (draws : list draw) (t0 : Z)
    (tr : list event) (b : bench (Q := LockFreeOrderQueue)) :
  let orders := generate_orders draws in
  let step := bench_step (H := lock_free_order_queue k Hk) orders in
  Forall draw_ok draws -> Z.of_nat (length draws) < modulus64 ->
  trace step (bench_init (H := lock_free_order_queue k Hk) orders t0) tr b -> b_prod b = Closed ->
  exists b', consumer_alone (6 * (length draws - b_idx b) + 6) b = Some b' /\
    (exists tr', trace step b tr' b') /\ joined b' /\ b_idx b' = length draws /\
    exists ls, consume (new_MatchingEngine default_band) orders = Ret (b_engine b', ls).
Proof.
  intros orders step Hd Hr Htr Hprod. pose proof (generate_orders_admissible _ Hd) as Hadm. fold orders in Hadm.
  assert (length orders = length draws) as Hlen by apply length_imap. rewrite <-Hlen in *.
  destruct (consumer_finishes k Hk orders t0 Hadm Hr (length orders - b_idx b) tr b Htr Hprod) as (b' & Hl & Hc); [lia|].
  destruct (leads_trace k Hk orders _ _ _ _ _ Hl Htr) as (tr1 & Htr1 & Hp1).
  destruct (leads_trace k Hk orders _ _ _ _ [] Hl (trace_nil _ _)) as (tr2 & Htr2 & _).
  exists b'. split; [by apply leads_alone|]. split; [by exists tr2|].
  assert (b_prod b' = Closed) as Hp' by congruence. split; [by split|].
  destruct (bench_trace_inv (H := lock_free_order_queue k Hk) orders t0 _ b' Htr1 Hr) as (f & Hq & Hp & Hinv).
  destruct (joined_complete (H := lock_free_order_queue k Hk) orders t0 _ b' f Hq Hp Hinv Hp' Hc) as [_ Hidx]. split; [done|].
  destruct (ci_engine _ _ _ Hinv) as [ls He]. exists ls. by rewrite Hidx, firstn_all in He.
Qed.

Lemma one_in_range : 0 <= 1 <= 63.
Proof. lia. Qed.

Definition ring_of_two : OrderQueue LockFreeOrderQueue := lock_free_order_queue 1 one_in_range.

(** Both orders are pushed and the queue is shut down before the consumer has moved. *)
Definition producer_first : list (bench_move lf_move) :=
  [StampPush] ++ (QueueCall <$> push_script (drawn 0) 0) ++ [StampPush] ++
  (QueueCall <$> push_script (drawn 1) 0) ++ [QueueCall Shutdown].

Definition bench_of_two : list event * bench (Q := LockFreeOrderQueue) :=
  let b0 := bench_init (H := ring_of_two) (generate_orders two_draws) 1000 in
  default ([], b0) (run_script (bench_exec lf_exec (generate_orders two_draws)) b0 producer_first).

Lemma lock_free_consumer_finishes_witness :
  b_idx bench_of_two.2 = 0%nat /\
  exists b', consumer_alone 18 bench_of_two.2 = Some b' /\
    (exists tr', trace (bench_step (H := ring_of_two) (generate_orders two_draws)) bench_of_two.2 tr' b') /\
    joined b' /\ b_idx b' = 2%nat /\
    exists ls, consume (new_MatchingEngine default_band) (generate_orders two_draws) = Ret (b_engine b', ls).
Proof.
  split; [vm_compute; reflexivity|].
  apply (lock_free_consumer_finishes 1 one_in_range two_draws 1000 bench_of_two.1 bench_of_two.2).
  - apply (bool_decide_unpack _). vm_compute. exact I.
  - vm_compute. reflexivity.
  - apply (bench_script_trace (H := ring_of_two) lf_exec lf_exec_sound _ _ producer_first). vm_compute. reflexivity.
  - vm_compute. reflexivity.
Defined.
