(* ===== verification/Conformance.v ===== *)
(** * The repository's tests, run on the model ([tests/])

    Each test of the repository is translated with its helpers, an assertion being a
    step of the [outcome] monad that throws when it does not hold; evaluating a test
    to [Ret tt] is the test passing on the model.  This checks the definitions of the
    development against what the authors of the program expect of it.

    The two tests of [tests/test_threaded_runner.cpp] that compare a threaded run
    with a single-threaded one draw a million random orders; what they sample is
    [Server.server_equals_sequential], for all orders, queues and schedules. *)

From S2P Require Import Prelude Double StdMap Order Sharding PriceCollar OrderBook MatchingEngine Dump OrderPool OrderQueue Bytes Files LogQueue ShardRouter LeaderLock TradeLog EngineVM.

(** [EXPECT_*] and [ASSERT_*]. *)
Definition expect (b : bool) : outcome unit := if b then Ret tt else Throw "expectation failed".

(** [EXPECT_EQ] of anything with decidable equality. *)
Definition expect_eq {A} `{EqDecision A} (x y : A) : outcome unit := expect (bool_decide (x = y)).

(** [.value()] of an optional, and [v[i]]. *)
Definition value {A} (x : option A) : outcome A :=
  match x with Some a => Ret a | None => Undef end.

(** Evaluates the tests of a list. *)
Ltac all_pass := repeat (apply Forall_cons; split; [vm_compute; reflexivity|]); apply Forall_nil_2.

#[global] Instance RejectReason_eq_dec : EqDecision RejectReason.
Proof. solve_decision. Defined.

(** ** [tests/test_matching_engine.cpp] *)
Module Matching.

Definition make (id : Z) (s : Side) (t : OrderType) (p : Z) (qty : Z) : Order :=
  mkOrder id 0 s t (symbol default_order) (d_of_Z p) qty 0 0.

(** Submits, and expects trades rather than a rejection. *)
Definition submit_ok (eng : MatchingEngine) (o : Order) : outcome (MatchingEngine * list Trade) :=
  '(eng', r) ← submit_order eng o;
  match r with inl trades => Ret (eng', trades) | inr _ => Throw "rejected" end.

(** [submit_ok(eng, o);] for its effect. *)
Fixpoint submit_all_ok (eng : MatchingEngine) (os : list Order) : outcome MatchingEngine :=
  match os with
  | [] => Ret eng
  | o :: os' => '(eng', _) ← submit_ok eng o; submit_all_ok eng' os'
  end.

Definition eng0 : MatchingEngine := new_MatchingEngine default_band.

Definition ExactPriceMatch : outcome unit :=
  eng ← submit_all_ok eng0 [make 1 SELL LIMIT 100 10];
  '(eng, trades) ← submit_ok eng (make 2 BUY LIMIT 100 10);
  _ ← expect_eq (length trades) 1%nat;
  t ← value (trades !! 0%nat);
  _ ← expect (deq (trade_price t) (d_of_Z 100));
  _ ← expect_eq (trade_quantity t) 10;
  _ ← expect_eq (buy_order_id t) 2;
  _ ← expect_eq (sell_order_id t) 1;
  _ ← expect (empty_side (book_ eng) BUY);
  expect (empty_side (book_ eng) SELL).

Definition PricePriority : outcome unit :=
  eng ← submit_all_ok eng0 [make 1 SELL LIMIT 101 10; make 2 SELL LIMIT 100 10];
  '(eng, trades) ← submit_ok eng (make 3 BUY LIMIT 101 10);
  _ ← expect_eq (length trades) 1%nat;
  t ← value (trades !! 0%nat);
  _ ← expect_eq (sell_order_id t) 2;
  expect (deq (trade_price t) (d_of_Z 100)).

Definition TimePriority : outcome unit :=
  eng ← submit_all_ok eng0 [make 1 SELL LIMIT 100 10; make 2 SELL LIMIT 100 10];
  '(eng, trades) ← submit_ok eng (make 3 BUY LIMIT 100 10);
  _ ← expect_eq (length trades) 1%nat;
  t ← value (trades !! 0%nat);
  expect_eq (sell_order_id t) 1.

Definition PartialFill : outcome unit :=
  eng ← submit_all_ok eng0 [make 1 SELL LIMIT 100 20];
  '(eng, trades) ← submit_ok eng (make 2 BUY LIMIT 100 10);
  _ ← expect_eq (length trades) 1%nat;
  t ← value (trades !! 0%nat);
  _ ← expect_eq (trade_quantity t) 10;
  _ ← expect (negb (empty_side (book_ eng) SELL));
  lvl ← value (head (asks_ (book_ eng)));
  front ← value (head lvl.2);
  expect_eq (remaining_quantity front) 10.

Definition PostPartialNoCross : outcome unit :=
  eng ← submit_all_ok eng0 [make 1 SELL LIMIT 100 20; make 2 BUY LIMIT 100 10];
  _ ← expect_eq (best_bid (book_ eng)) None;
  expect (bool_decide (is_Some (best_ask (book_ eng)))).

Definition MultiLevelWalk : outcome unit :=
  eng ← submit_all_ok eng0 [make 1 SELL LIMIT 100 5; make 2 SELL LIMIT 101 5; make 3 SELL LIMIT 102 5];
  '(eng, trades) ← submit_ok eng (make 4 BUY LIMIT 102 15);
  _ ← expect_eq (trade_price <$> trades) (d_of_Z <$> [100; 101; 102]);
  expect (empty_side (book_ eng) SELL).

Definition PriceImprovement : outcome unit :=
  eng ← submit_all_ok eng0 [make 1 SELL LIMIT 100 10];
  '(eng, trades) ← submit_ok eng (make 2 BUY LIMIT 105 10);
  expect_eq (trade_price <$> trades) [d_of_Z 100].

Definition Cancel : outcome unit :=
  eng ← submit_all_ok eng0 [make 1 SELL LIMIT 100 10];
  let '(eng, ok) := engine_cancel_order eng 1 in
  _ ← expect ok;
  _ ← expect (empty_side (book_ eng) SELL);
  '(eng, trades) ← submit_ok eng (make 2 BUY LIMIT 100 10);
  expect_eq (length trades) 0%nat.

(** A trade at 100, which the collar refers to from then on. *)
Definition traded : list Order := [make 1 SELL LIMIT 100 10; make 2 BUY LIMIT 100 10].

Definition rejected (r : SubmitResult) : option RejectReason :=
  match r with inl _ => None | inr rej => Some (rej_reason rej) end.

Definition Reject : outcome unit :=
  eng ← submit_all_ok (new_MatchingEngine (d_of_Z 10)) traded;
  p ← value (last_price eng);
  _ ← expect (deq p (d_of_Z 100));
  '(eng, r) ← submit_order eng (make 3 BUY LIMIT 115 10);
  _ ← expect_eq (rejected r) (Some PRICE_TOO_HIGH);
  '(eng, r) ← submit_order eng (make 4 SELL LIMIT 85 10);
  _ ← expect_eq (rejected r) (Some PRICE_TOO_LOW);
  _ ← expect (empty_side (book_ eng) BUY);
  expect (empty_side (book_ eng) SELL).

Definition Accept : outcome unit :=
  eng ← submit_all_ok (new_MatchingEngine (d_of_Z 10)) traded;
  '(eng, trades) ← submit_ok eng (make 3 BUY LIMIT 109 5);
  _ ← expect_eq (length trades) 0%nat;
  expect (negb (empty_side (book_ eng) BUY)).

Definition InactiveBeforeFirstTrade : outcome unit :=
  '(eng, trades) ← submit_ok (new_MatchingEngine (d_of_Z 10)) (make 1 SELL LIMIT 999 10);
  _ ← expect_eq (length trades) 0%nat;
  expect (negb (empty_side (book_ eng) SELL)).

Definition MarketBypassesCollar : outcome unit :=
  eng ← submit_all_ok (new_MatchingEngine (d_of_Z 10)) (traded ++ [make 3 SELL LIMIT 100 5]);
  '(eng, trades) ← submit_ok eng (make 4 BUY MARKET 0 5);
  expect_eq (length trades) 1%nat.

Definition QuantityConservation : outcome unit :=
  eng ← submit_all_ok eng0 [make 1 SELL LIMIT 100 30; make 2 SELL LIMIT 101 20];
  '(eng, trades) ← submit_ok eng (make 3 BUY LIMIT 101 40);
  expect_eq (zsum trade_quantity trades) 40.

Definition NoCrossedBook : outcome unit :=
  eng ← submit_all_ok eng0 [make 1 SELL LIMIT 100 10; make 2 BUY LIMIT 99 10; make 3 BUY LIMIT 100 5];
  match best_bid (book_ eng), best_ask (book_ eng) with
  | Some bb, Some ba => expect (dlt bb ba)
  | _, _ => Ret tt
  end.

Definition MarketOrderFill : outcome unit :=
  eng ← submit_all_ok eng0 [make 1 SELL LIMIT 100 10];
  '(eng, trades) ← submit_ok eng (make 2 BUY MARKET 0 10);
  expect_eq (trade_price <$> trades) [d_of_Z 100].

Definition MarketOrderRemainderDiscarded : outcome unit :=
  eng ← submit_all_ok eng0 [make 1 SELL LIMIT 100 5];
  '(eng, trades) ← submit_ok eng (make 2 BUY MARKET 0 10);
  _ ← expect_eq (trade_quantity <$> trades) [5];
  _ ← expect (empty_side (book_ eng) BUY);
  expect (empty_side (book_ eng) SELL).

Definition TwoBuyersOneSeller : outcome unit :=
  '(eng, t1) ← submit_ok eng0 (make 1 BUY LIMIT 100 10);
  _ ← expect_eq (length t1) 0%nat;
  '(eng, t2) ← submit_ok eng (make 2 BUY LIMIT 101 15);
  _ ← expect_eq (length t2) 0%nat;
  '(eng, trades) ← submit_ok eng (make 3 SELL LIMIT 100 10);
  _ ← expect_eq (length trades) 1%nat;
  t ← value (trades !! 0%nat);
  _ ← expect_eq (buy_order_id t) 2;
  _ ← expect_eq (sell_order_id t) 3;
  _ ← expect (deq (trade_price t) (d_of_Z 101));
  _ ← expect_eq (trade_quantity t) 10;
  _ ← expect (negb (empty_side (book_ eng) BUY));
  bb ← value (best_bid (book_ eng));
  expect (deq bb (d_of_Z 101)).

Example matching_tests_pass :
  Forall (fun test => test = Ret tt)
    [ExactPriceMatch; PricePriority; TimePriority; PartialFill; PostPartialNoCross; MultiLevelWalk;
     PriceImprovement; Cancel; Reject; Accept; InactiveBeforeFirstTrade; MarketBypassesCollar;
     QuantityConservation; NoCrossedBook; MarketOrderFill; MarketOrderRemainderDiscarded; TwoBuyersOneSeller].
Proof. all_pass. Qed.
End Matching.

(** ** [tests/scratch_test.cpp] *)
Module Scratch.

Definition scratch_order (seq id : Z) (s : Side) (p qty : Z) : Order :=
  mkOrder id 0 s LIMIT (symbol default_order) (d_of_Z p) qty qty seq.

Definition six_orders : OrderBook :=
  foldl add_resting_order empty_book
    [scratch_order 1 1 BUY 100 10; scratch_order 2 2 BUY 101 20; scratch_order 3 3 BUY 99 5;
     scratch_order 4 4 SELL 103 15; scratch_order 5 5 SELL 102 10; scratch_order 6 6 SELL 104 25].

Definition scratch_main : outcome unit :=
  let book := six_orders in
  bb ← value (best_bid book);
  _ ← expect (deq bb (d_of_Z 101));
  ba ← value (best_ask book);
  _ ← expect (deq ba (d_of_Z 102));
  _ ← expect (negb (empty_side book BUY));
  _ ← expect (negb (empty_side book SELL));
  let '(book, ok) := cancel_order book 2 in
  _ ← expect ok;
  bb ← value (best_bid book);
  _ ← expect (deq bb (d_of_Z 100));
  let '(book, ok) := cancel_order book 999 in
  _ ← expect (negb ok);
  let '(book, _) := cancel_order book 1 in
  let '(book, _) := cancel_order book 3 in
  _ ← expect (empty_side book BUY);
  _ ← expect_eq (best_bid book) None;
  let book := add_resting_order book (scratch_order 7 10 BUY 100 5) in
  let book := add_resting_order book (scratch_order 8 11 BUY 100 8) in
  level ← value (map_find greater (bids_ book) (d_of_Z 100));
  expect_eq (order_id <$> level) [10; 11].

(** The checks pass, and the dump lists the prices of both sides from the best. *)
Example scratch_test_passes : scratch_main = Ret tt.
Proof. vm_compute. reflexivity. Qed.

Example scratch_dump_order :
  option_map (fun d => (d.1.*1, d.2.*1)) (read_dump (dump six_orders)) =
    Some (["102.00"; "103.00"; "104.00"], ["101.00"; "100.00"; "99.00"]).
Proof. vm_compute. reflexivity. Qed.
End Scratch.

(** ** [tests/test_log_backed_queue.cpp] *)
Module LogBacked.

Definition wal_order (id : Z) : Order :=
  mkOrder id 0 BUY LIMIT (symbol default_order) (d_of_Z 100) 10 10 0.

Definition wal_push (fs : filesystem) (q : LogBackedOrderQueue) (o : Order) : filesystem :=
  log_push fs (log_path_ q) (replicate 6 NUL) o.

Definition push_ids (fs : filesystem) (q : LogBackedOrderQueue) (ids : list Z) : filesystem :=
  foldl (fun fs id => wal_push fs q (wal_order id)) fs ids.

(** [ASSERT_TRUE(queue.pop(out)); EXPECT_EQ(out.order_id, id);] for each id; a pop that
    would poll again does not return. *)
Fixpoint pop_ids (fs : filesystem) (q : LogBackedOrderQueue) (ids : list Z)
    : outcome (filesystem * LogBackedOrderQueue) :=
  match ids with
  | [] => Ret (fs, q)
  | id :: ids' =>
    '(fs1, q1, r) ← log_poll fs q;
    match r with
    | Got out => _ ← expect_eq (order_id out) id; pop_ids fs1 q1 ids'
    | Finished => Throw "pop returned false"
    | Retry => NoFuel
    end
  end.

(** [EXPECT_FALSE(queue.pop(out))]. *)
Definition pop_false (fs : filesystem) (q : LogBackedOrderQueue) : outcome unit :=
  '(_, _, r) ← log_poll fs q;
  match r with Finished => Ret tt | Got _ => Throw "pop returned true" | Retry => NoFuel end.

Definition ids_to (n : nat) : list Z := Z.of_nat <$> seq 1 n.

Definition ResumesAfterSimulatedCrash : outcome unit :=
  '(fs, queue) ← new_LogBackedOrderQueue (mkFS ∅ ∅) "/tmp/me_wal_resume" "";
  let fs := push_ids fs queue (ids_to 5) in
  '(fs, _) ← pop_ids fs queue [1; 2];
  '(fs, queue) ← new_LogBackedOrderQueue fs "/tmp/me_wal_resume" "";
  _ ← expect_eq (write_offset fs queue) 5;
  _ ← expect_eq (consumer_offset queue) 2;
  '(fs, queue) ← pop_ids fs queue [3; 4; 5];
  pop_false fs (log_shutdown queue).

Definition PushThenPopInOrder : outcome unit :=
  '(fs, queue) ← new_LogBackedOrderQueue (mkFS ∅ ∅) "/tmp/me_wal_order" "";
  _ ← pop_ids (push_ids fs queue (ids_to 100)) queue (ids_to 100);
  Ret tt.

Definition RestartWithNothingConsumedYetReplaysEverything : outcome unit :=
  '(fs, queue) ← new_LogBackedOrderQueue (mkFS ∅ ∅) "/tmp/me_wal_fresh" "";
  '(fs, queue) ← new_LogBackedOrderQueue (push_ids fs queue (ids_to 3)) "/tmp/me_wal_fresh" "";
  _ ← expect_eq (consumer_offset queue) 0;
  _ ← pop_ids fs queue (ids_to 3);
  Ret tt.

Example log_tests_pass :
  Forall (fun test => test = Ret tt)
    [ResumesAfterSimulatedCrash; PushThenPopInOrder; RestartWithNothingConsumedYetReplaysEverything].
Proof. all_pass. Qed.
End LogBacked.

(** ** [tests/test_sharding.cpp] *)
Module Shards.

Definition shard_order (id : Z) (sym : string) (s : Side) (p qty : Z) : Order :=
  set_symbol (mkOrder id 0 s LIMIT (symbol default_order) (d_of_Z p) qty qty 0) sym.

Definition four_orders : list (list char * Order) :=
  pair (replicate 6 NUL) <$>
    [shard_order 1 "XYZ" BUY 100 10; shard_order 2 "ABC" BUY 50 20;
     shard_order 3 "XYZ" SELL 100 5; shard_order 4 "ABC" SELL 49 8].

(** Each of the thousand calls is the same evaluation of a pure function. *)
Definition SameSymbolAlwaysMapsToSameShard : outcome unit :=
  foldr (fun _ rest =>
    a ← shard_for_symbol "TATA" 8;
    b ← shard_for_symbol "TATA" 8;
    _ ← expect_eq a b;
    rest) (Ret tt) (seq 0 1000).

Definition Deterministic : outcome unit :=
  a ← shard_for_symbol "XYZ" 10;
  b ← shard_for_symbol "XYZ" 10;
  _ ← expect_eq a b;
  expect (a <? 10).

(** The orders for [sym], read from the log of its shard. *)
Definition read_shard (fs : filesystem) (base : string) (shard : Z) (n : nat) : outcome (list Order) :=
  '(fs, q) ← new_LogBackedOrderQueue fs (shard_base base (Z.to_nat shard)) "";
  '(_, _, os) ← log_drain n fs (log_shutdown q);
  Ret os.

Definition RoutesSameSymbolToSameShardAndIsolatesOthers : outcome unit :=
  '(fs, router) ← new_ShardRouterQueue (mkFS ∅ ∅) "/tmp/me_shard_route" 4;
  fs ← router_push_all fs router four_orders;
  xyz_shard ← shard_for_symbol "XYZ" 4;
  abc_shard ← shard_for_symbol "ABC" 4;
  xyz ← read_shard fs "/tmp/me_shard_route" xyz_shard 5;
  abc ← read_shard fs "/tmp/me_shard_route" abc_shard 5;
  if bool_decide (xyz_shard = abc_shard) then expect_eq (order_id <$> xyz) [1; 2; 3; 4]
  else
    _ ← expect_eq (order_id <$> xyz) [1; 3];
    _ ← expect_eq (symbol_str <$> xyz) ["XYZ"; "XYZ"];
    _ ← expect_eq (order_id <$> abc) [2; 4];
    expect_eq (symbol_str <$> abc) ["ABC"; "ABC"].

(** The trades of every shard's log, each order submitted to the engine of its
    symbol. *)
Fixpoint trades_of_shards (fs : filesystem) (base : string) (shard n : nat) : outcome (list (string * Trade)) :=
  match n with
  | O => Ret []
  | S n' =>
    os ← read_shard fs base (Z.of_nat shard) 5;
    '(_, rs) ← apply_all ∅ os;
    rest ← trades_of_shards fs base (S shard) n';
    Ret (concat (zip_with (fun o r => pair (symbol_str o) <$> result_trades r) os rs) ++ rest)
  end.

Definition trades_by_symbol (sym : string) (ts : list (string * Trade)) : list (double * Z) :=
  (fun t => (trade_price t.2, trade_quantity t.2)) <$> filter (fun t => t.1 = sym) ts.

Definition EndToEndMatchesIndependentlyPerSymbol : outcome unit :=
  '(fs, router) ← new_ShardRouterQueue (mkFS ∅ ∅) "/tmp/me_shard_e2e" 4;
  fs ← router_push_all fs router four_orders;
  ts ← trades_of_shards fs "/tmp/me_shard_e2e" 0 4;
  _ ← expect_eq (trades_by_symbol "XYZ" ts) [(d_of_Z 100, 5)];
  expect_eq (trades_by_symbol "ABC" ts) [(d_of_Z 50, 8)].

Example same_symbol_test_passes : SameSymbolAlwaysMapsToSameShard = Ret tt.
Proof.
  assert (exists a, shard_for_symbol "TATA" 8 = Ret a) as [a E] by (eexists; vm_compute; reflexivity).
  unfold SameSymbolAlwaysMapsToSameShard. rewrite E. induction (seq 0 1000) as [|i l IH]; [done|].
  cbn [foldr]. rewrite IH. cbn [mbind outcome_bind]. unfold expect_eq. by rewrite bool_decide_eq_true_2 by done.
Qed.

Example sharding_tests_pass :
  Forall (fun test => test = Ret tt)
    [Deterministic; RoutesSameSymbolToSameShardAndIsolatesOthers; EndToEndMatchesIndependentlyPerSymbol].
Proof. all_pass. Qed.
End Shards.

(** ** [tests/test_failover_and_pubsub.cpp] *)
Module Failover.

(** The lock objects are processes of an election; [reset()] is the death of one. *)
Definition OnlyOneHolderAtATimeAndFailoverOnRelease : outcome unit :=
  e1 ← value (election_run no_replicas [Start 0 3; Start 1 4; Poll 0; Poll 1]);
  _ ← expect_eq (held <$> replicas e1 !! 0%nat) (Some true);
  _ ← expect_eq (held <$> replicas e1 !! 1%nat) (Some false);
  e2 ← value (election_run e1 [Die 0; Poll 1]);
  expect_eq (held <$> replicas e2 !! 1%nat) (Some true).

Definition RepeatedAcquireByHolderIsIdempotent : outcome unit :=
  let '(lock, ok1) := try_acquire (new_ShardLeaderLock 3) 0 in
  let '(lock, ok2) := try_acquire lock (-1) in
  _ ← expect ok1;
  _ ← expect ok2;
  expect (held lock).

Definition test_trade (buy sell p qty : Z) : Trade := mkTrade buy sell (d_of_Z p) qty 0.

(** [ASSERT_TRUE(sub.try_next(t)); EXPECT_EQ(t.buy_order_id, id);] for each id. *)
Fixpoint next_ids (fs : filesystem) (s : Subscriber) (ids : list Z) : outcome (filesystem * Subscriber) :=
  match ids with
  | [] => Ret (fs, s)
  | id :: ids' =>
    '(fs1, s1, r) ← try_next fs s;
    t ← value r;
    _ ← expect_eq (buy_order_id t) id;
    next_ids fs1 s1 ids'
  end.

Definition NewSubscriberReplaysHistoryThenSeesLiveTrades : outcome unit :=
  '(fs, log) ← new_TradeLog (mkFS ∅ ∅) "/tmp/me_tradelog_hist";
  let fs := publish fs log (test_trade 1 2 100 10) in
  let fs := publish fs log (test_trade 3 4 101 5) in
  '(fs, sub) ← new_Subscriber fs "/tmp/me_tradelog_hist" "sub1";
  '(fs, sub) ← next_ids fs sub [1; 3];
  '(fs, sub, r) ← try_next fs sub;
  _ ← expect_eq r None;
  '(fs, sub) ← next_ids (publish fs log (test_trade 5 6 102 7)) sub [5];
  Ret tt.

Definition IndependentSubscribersDoNotAffectEachOther : outcome unit :=
  '(fs, log) ← new_TradeLog (mkFS ∅ ∅) "/tmp/me_tradelog_indep";
  let fs := publish fs log (test_trade 1 2 100 10) in
  '(fs, a) ← new_Subscriber fs "/tmp/me_tradelog_indep" "subA";
  '(fs, a) ← next_ids fs a [1];
  _ ← expect_eq (offset_ a) 1;
  '(fs, b) ← new_Subscriber fs "/tmp/me_tradelog_indep" "subB";
  '(fs, b) ← next_ids fs b [1];
  expect_eq (offset_ b) 1.

Example failover_tests_pass :
  Forall (fun test => test = Ret tt)
    [OnlyOneHolderAtATimeAndFailoverOnRelease; RepeatedAcquireByHolderIsIdempotent;
     NewSubscriberReplaysHistoryThenSeesLiveTrades; IndependentSubscribersDoNotAffectEachOther].
Proof. all_pass. Qed.
End Failover.

(** ** [tests/test_threaded_runner.cpp]: the order pool *)
Module Pool.

Definition AcquireReleaseCycle : outcome unit :=
  let pool := new_OrderPool 1024 in
  _ ← expect_eq (available pool) 1024%nat;
  '(p, pool) ← acquire pool;
  _ ← expect (bool_decide (is_Some p));
  _ ← expect_eq (available pool) 1023%nat;
  pool ← release pool p;
  expect_eq (available pool) 1024%nat.

Definition ExhaustionReturnsNull : outcome unit :=
  '(_, pool) ← acquire (new_OrderPool 2);
  '(_, pool) ← acquire pool;
  '(p, _) ← acquire pool;
  expect_eq p None.

Fixpoint acquire_n (n : nat) (pool : OrderPool) : outcome (list (option slot) * OrderPool) :=
  match n with
  | O => Ret ([], pool)
  | S n' =>
    '(p, pool) ← acquire pool;
    _ ← expect (bool_decide (is_Some p));
    '(ps, pool) ← acquire_n n' pool;
    Ret (p :: ps, pool)
  end.

Fixpoint release_all (ps : list (option slot)) (pool : OrderPool) : outcome OrderPool :=
  match ps with
  | [] => Ret pool
  | p :: ps' => pool ← release pool p; release_all ps' pool
  end.

Definition ZeroAllocOnHotPath : outcome unit :=
  '(ptrs, pool) ← acquire_n 100 (new_OrderPool 100);
  pool ← release_all ptrs pool;
  expect_eq (available pool) 100%nat.

Example pool_tests_pass :
  Forall (fun test => test = Ret tt) [AcquireReleaseCycle; ExhaustionReturnsNull; ZeroAllocOnHotPath].
Proof. all_pass. Qed.
End Pool.
